(** * Storage kernel of my-bustub: ARC replacer, buffer pool, page guards, B+-tree

    A shallow embedding of the C++ sources under [src/] together with the
    properties the specification states about them.  Every definition names
    the source function it follows; mutable C++ objects become explicit
    states that the operations thread through. *)

From Stdlib Require Import ZArith Lia.
From stdpp Require Import base decidable option list gmap.
From Equations Require Import Equations.

Local Open Scope Z_scope.

(** ** Common configuration (common/config.h) *)

Module Config.

(** Modelled from the spec: [common/config.h] is not among the sources.  The
    spec only says that an [INVALID] page id is distinguished from the
    non-negative ones; the sentinel is the usual [-1], for frames as well. *)
Definition INVALID_PAGE_ID : Z := -1.
Definition INVALID_FRAME_ID : Z := -1.

(** Modelled from the spec: the page size, 4 KiB by default. *)
Definition BUSTUB_PAGE_SIZE : Z := 4096.

(** [size_t] arithmetic is arithmetic modulo [2^64]. *)
Definition SIZE_MOD : Z := 2 ^ 64.
Definition size_add (a b : Z) : Z := (a + b) mod SIZE_MOD.
Definition size_sub (a b : Z) : Z := (a - b) mod SIZE_MOD.
Definition size_mul (a b : Z) : Z := (a * b) mod SIZE_MOD.

(** What a call does besides returning: it may throw. *)
Inductive result (A : Type) : Type :=
  | Ok (a : A)
  | InvalidArgument      (* std::invalid_argument *)
  | RuntimeError.        (* std::runtime_error *)
Arguments Ok {A} a.
Arguments InvalidArgument {A}.
Arguments RuntimeError {A}.

End Config.

Import Config.

(** ** std::list with stable iterators

    A [std::list] node keeps its identity while other nodes come and go, and
    the replacer stores iterators to nodes in hash maps.  A list is therefore
    a sequence of (node, value) pairs, an iterator is the node's name, and
    [erase] removes the node an iterator names. *)

Module StdList.

Definition t : Type := list (nat * Z).

Definition values (l : t) : list Z := l.*2.
Definition nodes (l : t) : list nat := l.*1.

Definition size (l : t) : Z := Z.of_nat (length l).

(** [push_front(v)] with the fresh node [n]; [begin()] is then [n]. *)
Definition push_front (n : nat) (v : Z) (l : t) : t := (n, v) :: l.

(** [erase(it)]. *)
Definition erase (it : nat) (l : t) : t := filter (λ e, e.1 ≠ it) l.

(** [back()] and [pop_back()]. *)
Definition back (l : t) : option Z := snd <$> last l.
Definition pop_back (l : t) : t := removelast l.

End StdList.

(** ** The ARC replacer (src/buffer/arc_replacer.cpp) *)

Module Arc.

Inductive ArcStatus : Type := MRU | MFU | MRU_GHOST | MFU_GHOST.

#[export] Instance ArcStatus_eq_dec : EqDecision ArcStatus.
Proof. solve_decision. Defined.

Record FrameStatus : Type := mkFrameStatus {
  page_id_ : Z;
  frame_id_ : Z;
  evictable_ : bool;
  arc_status_ : ArcStatus
}.

Definition set_evictable (b : bool) (st : FrameStatus) : FrameStatus :=
  mkFrameStatus (page_id_ st) (frame_id_ st) b (arc_status_ st).
Definition set_arc_status (a : ArcStatus) (st : FrameStatus) : FrameStatus :=
  mkFrameStatus (page_id_ st) (frame_id_ st) (evictable_ st) a.

(** The fields of [class ArcReplacer].  [next_node_] is the only field the
    class does not have: it names the next list node to be allocated. *)
Record ArcReplacer : Type := mkArc {
  mru_ : StdList.t;
  mfu_ : StdList.t;
  mru_ghost_ : StdList.t;
  mfu_ghost_ : StdList.t;
  alive_map_ : gmap Z FrameStatus;
  ghost_map_ : gmap Z FrameStatus;
  mru_iter_map_ : gmap Z nat;
  mfu_iter_map_ : gmap Z nat;
  mru_ghost_iter_map_ : gmap Z nat;
  mfu_ghost_iter_map_ : gmap Z nat;
  curr_size_ : Z;
  mru_target_size_ : Z;
  replacer_size_ : Z;
  next_node_ : nat
}.

Definition with_mru (l : StdList.t) (m : gmap Z nat) (s : ArcReplacer) :=
  mkArc l (mfu_ s) (mru_ghost_ s) (mfu_ghost_ s) (alive_map_ s) (ghost_map_ s)
        m (mfu_iter_map_ s) (mru_ghost_iter_map_ s) (mfu_ghost_iter_map_ s)
        (curr_size_ s) (mru_target_size_ s) (replacer_size_ s) (next_node_ s).
Definition with_mfu (l : StdList.t) (m : gmap Z nat) (s : ArcReplacer) :=
  mkArc (mru_ s) l (mru_ghost_ s) (mfu_ghost_ s) (alive_map_ s) (ghost_map_ s)
        (mru_iter_map_ s) m (mru_ghost_iter_map_ s) (mfu_ghost_iter_map_ s)
        (curr_size_ s) (mru_target_size_ s) (replacer_size_ s) (next_node_ s).
Definition with_mru_ghost (l : StdList.t) (m : gmap Z nat) (s : ArcReplacer) :=
  mkArc (mru_ s) (mfu_ s) l (mfu_ghost_ s) (alive_map_ s) (ghost_map_ s)
        (mru_iter_map_ s) (mfu_iter_map_ s) m (mfu_ghost_iter_map_ s)
        (curr_size_ s) (mru_target_size_ s) (replacer_size_ s) (next_node_ s).
Definition with_mfu_ghost (l : StdList.t) (m : gmap Z nat) (s : ArcReplacer) :=
  mkArc (mru_ s) (mfu_ s) (mru_ghost_ s) l (alive_map_ s) (ghost_map_ s)
        (mru_iter_map_ s) (mfu_iter_map_ s) (mru_ghost_iter_map_ s) m
        (curr_size_ s) (mru_target_size_ s) (replacer_size_ s) (next_node_ s).
Definition with_alive_map (a : gmap Z FrameStatus) (s : ArcReplacer) :=
  mkArc (mru_ s) (mfu_ s) (mru_ghost_ s) (mfu_ghost_ s) a (ghost_map_ s)
        (mru_iter_map_ s) (mfu_iter_map_ s) (mru_ghost_iter_map_ s) (mfu_ghost_iter_map_ s)
        (curr_size_ s) (mru_target_size_ s) (replacer_size_ s) (next_node_ s).
Definition with_ghost_map (g : gmap Z FrameStatus) (s : ArcReplacer) :=
  mkArc (mru_ s) (mfu_ s) (mru_ghost_ s) (mfu_ghost_ s) (alive_map_ s) g
        (mru_iter_map_ s) (mfu_iter_map_ s) (mru_ghost_iter_map_ s) (mfu_ghost_iter_map_ s)
        (curr_size_ s) (mru_target_size_ s) (replacer_size_ s) (next_node_ s).
Definition with_curr_size (n : Z) (s : ArcReplacer) :=
  mkArc (mru_ s) (mfu_ s) (mru_ghost_ s) (mfu_ghost_ s) (alive_map_ s) (ghost_map_ s)
        (mru_iter_map_ s) (mfu_iter_map_ s) (mru_ghost_iter_map_ s) (mfu_ghost_iter_map_ s)
        n (mru_target_size_ s) (replacer_size_ s) (next_node_ s).
Definition with_mru_target_size (p : Z) (s : ArcReplacer) :=
  mkArc (mru_ s) (mfu_ s) (mru_ghost_ s) (mfu_ghost_ s) (alive_map_ s) (ghost_map_ s)
        (mru_iter_map_ s) (mfu_iter_map_ s) (mru_ghost_iter_map_ s) (mfu_ghost_iter_map_ s)
        (curr_size_ s) p (replacer_size_ s) (next_node_ s).
Definition with_next_node (n : nat) (s : ArcReplacer) :=
  mkArc (mru_ s) (mfu_ s) (mru_ghost_ s) (mfu_ghost_ s) (alive_map_ s) (ghost_map_ s)
        (mru_iter_map_ s) (mfu_iter_map_ s) (mru_ghost_iter_map_ s) (mfu_ghost_iter_map_ s)
        (curr_size_ s) (mru_target_size_ s) (replacer_size_ s) n.

(** [ArcReplacer::ArcReplacer(num_frames)]. *)
Definition new (num_frames : Z) : ArcReplacer :=
  mkArc [] [] [] [] ∅ ∅ ∅ ∅ ∅ ∅ 0 0 num_frames 0%nat.

(** [list.push_front(v); iter_map[v] = list.begin()] on each of the lists. *)
Definition push_front_mru (v : Z) (s : ArcReplacer) : ArcReplacer :=
  let n := next_node_ s in
  with_next_node (S n)
    (with_mru (StdList.push_front n v (mru_ s)) (<[v := n]> (mru_iter_map_ s)) s).
Definition push_front_mfu (v : Z) (s : ArcReplacer) : ArcReplacer :=
  let n := next_node_ s in
  with_next_node (S n)
    (with_mfu (StdList.push_front n v (mfu_ s)) (<[v := n]> (mfu_iter_map_ s)) s).
Definition push_front_mru_ghost (v : Z) (s : ArcReplacer) : ArcReplacer :=
  let n := next_node_ s in
  with_next_node (S n)
    (with_mru_ghost (StdList.push_front n v (mru_ghost_ s))
                    (<[v := n]> (mru_ghost_iter_map_ s)) s).
Definition push_front_mfu_ghost (v : Z) (s : ArcReplacer) : ArcReplacer :=
  let n := next_node_ s in
  with_next_node (S n)
    (with_mfu_ghost (StdList.push_front n v (mfu_ghost_ s))
                    (<[v := n]> (mfu_ghost_iter_map_ s)) s).

(** [ArcReplacer::RemoveFromAliveList]. *)
Definition RemoveFromAliveList (frame_id : Z) (status : ArcStatus)
    (s : ArcReplacer) : ArcReplacer :=
  match status with
  | MRU =>
      match mru_iter_map_ s !! frame_id with
      | Some it => with_mru (StdList.erase it (mru_ s)) (delete frame_id (mru_iter_map_ s)) s
      | None => s
      end
  | MFU =>
      match mfu_iter_map_ s !! frame_id with
      | Some it => with_mfu (StdList.erase it (mfu_ s)) (delete frame_id (mfu_iter_map_ s)) s
      | None => s
      end
  | _ => s
  end.

(** [ArcReplacer::RemoveFromGhostList]. *)
Definition RemoveFromGhostList (page_id : Z) (status : ArcStatus)
    (s : ArcReplacer) : ArcReplacer :=
  let s1 :=
    match status with
    | MRU_GHOST =>
        match mru_ghost_iter_map_ s !! page_id with
        | Some it =>
            with_mru_ghost (StdList.erase it (mru_ghost_ s))
                           (delete page_id (mru_ghost_iter_map_ s)) s
        | None => s
        end
    | MFU_GHOST =>
        match mfu_ghost_iter_map_ s !! page_id with
        | Some it =>
            with_mfu_ghost (StdList.erase it (mfu_ghost_ s))
                           (delete page_id (mfu_ghost_iter_map_ s)) s
        | None => s
        end
    | _ => s
    end in
  with_ghost_map (delete page_id (ghost_map_ s1)) s1.

(** The loop [for (it = l.rbegin(); it != l.rend(); ++it)] of [Evict]: the
    first frame, from the back, that is in [alive_map_] and evictable. *)
Fixpoint first_evictable (alive : gmap Z FrameStatus) (frames : list Z) : option Z :=
  match frames with
  | [] => None
  | frame :: rest =>
      match alive !! frame with
      | Some st => if evictable_ st then Some frame else first_evictable alive rest
      | None => first_evictable alive rest
      end
  end.

Definition alive_list (side : ArcStatus) (s : ArcReplacer) : StdList.t :=
  match side with MRU => mru_ s | _ => mfu_ s end.

Definition scan_side (side : ArcStatus) (s : ArcReplacer) : option Z :=
  first_evictable (alive_map_ s) (reverse (StdList.values (alive_list side s))).

(** One of the four scanning loops of [Evict], which run only while
    [victim == INVALID_FRAME_ID]. *)
Definition try_side (side : ArcStatus) (acc : Z * ArcStatus * ArcReplacer)
    : Z * ArcStatus * ArcReplacer :=
  let '(victim, victim_status, s) := acc in
  match scan_side side s with
  | Some frame => (frame, side, RemoveFromAliveList frame side s)
  | None => (victim, victim_status, s)
  end.

(** [ArcReplacer::Evict].  Both branches of the source scan one side and then,
    if no victim was found, the other; they differ in the order only. *)
Definition Evict (s : ArcReplacer) : option Z * ArcReplacer :=
  let '(first, second) :=
    if mru_target_size_ s <=? StdList.size (mru_ s) then (MRU, MFU) else (MFU, MRU) in
  let acc1 := try_side first (INVALID_FRAME_ID, MRU, s) in
  let acc2 := if acc1.1.1 =? INVALID_FRAME_ID then try_side second acc1 else acc1 in
  let '(victim, victim_status, s2) := acc2 in
  if victim =? INVALID_FRAME_ID then (None, s2)
  else
    match alive_map_ s2 !! victim with
    | None => (None, s2)   (* not reached: a victim was found in [alive_map_] *)
    | Some status =>
        let page_id := page_id_ status in
        let s3 :=
          match victim_status with
          | MRU =>
              with_ghost_map
                (<[page_id := mkFrameStatus page_id victim false MRU_GHOST]>
                   (ghost_map_ (push_front_mru_ghost page_id s2)))
                (push_front_mru_ghost page_id s2)
          | _ =>
              with_ghost_map
                (<[page_id := mkFrameStatus page_id victim false MFU_GHOST]>
                   (ghost_map_ (push_front_mfu_ghost page_id s2)))
                (push_front_mfu_ghost page_id s2)
          end in
        let s4 := with_alive_map (delete victim (alive_map_ s3)) s3 in
        (Some victim, with_curr_size (size_sub (curr_size_ s4) 1) s4)
    end.

(** The frame-id check the three mutators start with:
    [frame_id < 0 || static_cast<size_t>(frame_id) > replacer_size_]. *)
Definition invalid_frame (frame_id : Z) (s : ArcReplacer) : bool :=
  (frame_id <? 0) || (replacer_size_ s <? frame_id).

(** Case 4 of [RecordAccess]: the access hits none of the lists. *)
Definition RecordAccess_miss (frame_id page_id : Z) (s : ArcReplacer) : ArcReplacer :=
  let mru_total := size_add (StdList.size (mru_ s)) (StdList.size (mru_ghost_ s)) in
  let total_all :=
    size_add (size_add mru_total (StdList.size (mfu_ s))) (StdList.size (mfu_ghost_ s)) in
  let s1 :=
    if mru_total =? replacer_size_ s then
      match StdList.back (mru_ghost_ s) with
      | Some old_page =>
          with_ghost_map (delete old_page (ghost_map_ s))
            (with_mru_ghost (StdList.pop_back (mru_ghost_ s))
                            (delete old_page (mru_ghost_iter_map_ s)) s)
      | None => s
      end
    else if size_mul 2 (replacer_size_ s) <=? total_all then
      match StdList.back (mfu_ghost_ s) with
      | Some old_page =>
          with_ghost_map (delete old_page (ghost_map_ s))
            (with_mfu_ghost (StdList.pop_back (mfu_ghost_ s))
                            (delete old_page (mfu_ghost_iter_map_ s)) s)
      | None => s
      end
    else s in
  let s2 := push_front_mru frame_id s1 in
  with_alive_map (<[frame_id := mkFrameStatus page_id frame_id false MRU]> (alive_map_ s2)) s2.

(** [ArcReplacer::RecordAccess]. *)
Definition RecordAccess (frame_id page_id : Z) (s : ArcReplacer) : result ArcReplacer :=
  if invalid_frame frame_id s then InvalidArgument
  else
    match alive_map_ s !! frame_id with
    | Some status =>
        (* case 1: the frame is in mru_ or mfu_ *)
        let s1 := RemoveFromAliveList frame_id (arc_status_ status) s in
        let s2 := push_front_mfu frame_id s1 in
        Ok (with_alive_map (<[frame_id := set_arc_status MFU status]> (alive_map_ s2)) s2)
    | None =>
        match ghost_map_ s !! page_id with
        | Some gst =>
            match arc_status_ gst with
            | MRU_GHOST =>
                (* case 2 *)
                let s1 := RemoveFromGhostList page_id MRU_GHOST s in
                let mru_ghost_size := StdList.size (mru_ghost_ s1) in
                let mfu_ghost_size := StdList.size (mfu_ghost_ s1) in
                let target :=
                  if mfu_ghost_size <=? mru_ghost_size
                  then Z.min (size_add (mru_target_size_ s1) 1) (replacer_size_ s1)
                  else
                    let add := mfu_ghost_size / Z.max mru_ghost_size 1 in
                    Z.min (size_add (mru_target_size_ s1) add) (replacer_size_ s1) in
                let s2 := with_mru_target_size target s1 in
                let s3 := push_front_mfu frame_id s2 in
                Ok (with_alive_map
                      (<[frame_id := mkFrameStatus page_id frame_id false MFU]> (alive_map_ s3))
                      s3)
            | MFU_GHOST =>
                (* case 3 *)
                let s1 := RemoveFromGhostList page_id MFU_GHOST s in
                let mru_ghost_size := StdList.size (mru_ghost_ s1) in
                let mfu_ghost_size := StdList.size (mfu_ghost_ s1) in
                let target :=
                  if mru_ghost_size <=? mfu_ghost_size
                  then (if 0 <? mru_target_size_ s1
                        then size_sub (mru_target_size_ s1) 1 else 0)
                  else
                    let decrease := mru_ghost_size / Z.max mfu_ghost_size 1 in
                    if decrease <? mru_target_size_ s1
                    then size_sub (mru_target_size_ s1) decrease else 0 in
                let s2 := with_mru_target_size target s1 in
                let s3 := push_front_mfu frame_id s2 in
                Ok (with_alive_map
                      (<[frame_id := mkFrameStatus page_id frame_id false MFU]> (alive_map_ s3))
                      s3)
            | _ => Ok (RecordAccess_miss frame_id page_id s)
            end
        | None => Ok (RecordAccess_miss frame_id page_id s)
        end
    end.

(** [ArcReplacer::SetEvictable]. *)
Definition SetEvictable (frame_id : Z) (set_evictable_ : bool) (s : ArcReplacer)
    : result ArcReplacer :=
  if invalid_frame frame_id s then InvalidArgument
  else
    match alive_map_ s !! frame_id with
    | Some status =>
        if bool_decide (evictable_ status = set_evictable_) then Ok s
        else
          Ok (with_curr_size
                (if set_evictable_ then size_add (curr_size_ s) 1
                 else size_sub (curr_size_ s) 1)
                (with_alive_map
                   (<[frame_id := set_evictable set_evictable_ status]> (alive_map_ s)) s))
    | None => Ok s
    end.

(** [ArcReplacer::Remove].  The status object moves to [ghost_map_] as it is:
    its [arc_status_] stays [MRU] or [MFU]. *)
Definition Remove (frame_id : Z) (s : ArcReplacer) : result ArcReplacer :=
  if invalid_frame frame_id s then InvalidArgument
  else
    match alive_map_ s !! frame_id with
    | None => Ok s
    | Some status =>
        if negb (evictable_ status) then RuntimeError
        else
          let s1 := RemoveFromAliveList frame_id (arc_status_ status) s in
          let page_id := page_id_ status in
          let s2 :=
            match arc_status_ status with
            | MRU => push_front_mru_ghost page_id s1
            | _ => push_front_mfu_ghost page_id s1
            end in
          let s3 := with_ghost_map (<[page_id := status]> (ghost_map_ s2)) s2 in
          let s4 := with_alive_map (delete frame_id (alive_map_ s3)) s3 in
          Ok (with_curr_size (size_sub (curr_size_ s4) 1) s4)
    end.

(** [ArcReplacer::Size]. *)
Definition Size (s : ArcReplacer) : Z := curr_size_ s.

(** The replacer's interface as a command language, to speak of the states a
    sequence of calls leads to.  A call that throws changes nothing. *)
Inductive Op : Type :=
  | OpRecordAccess (frame_id page_id : Z)
  | OpEvict
  | OpSetEvictable (frame_id : Z) (set_evictable_ : bool)
  | OpRemove (frame_id : Z).

Definition run_op (op : Op) (s : ArcReplacer) : ArcReplacer :=
  match op with
  | OpRecordAccess f p => match RecordAccess f p s with Ok s' => s' | _ => s end
  | OpEvict => (Evict s).2
  | OpSetEvictable f b => match SetEvictable f b s with Ok s' => s' | _ => s end
  | OpRemove f => match Remove f s with Ok s' => s' | _ => s end
  end.

Definition run_ops (ops : list Op) (s : ArcReplacer) : ArcReplacer :=
  foldl (λ s op, run_op op s) s ops.

(** The frame id an operation names, if any. *)
Definition op_frame (op : Op) : option Z :=
  match op with
  | OpRecordAccess f _ => Some f
  | OpEvict => None
  | OpSetEvictable f _ => Some f
  | OpRemove f => Some f
  end.

End Arc.

(** ** Replaying test/buffer/arc_replacer_test.cpp *)

Module ArcTests.
Import Arc.

Definition sample_ops_1 : list Op :=
  [ OpRecordAccess 1 1; OpRecordAccess 2 2; OpRecordAccess 3 3; OpRecordAccess 4 4;
    OpRecordAccess 5 5; OpRecordAccess 6 6;
    OpSetEvictable 1 true; OpSetEvictable 2 true; OpSetEvictable 3 true;
    OpSetEvictable 4 true; OpSetEvictable 5 true; OpSetEvictable 6 false;
    OpRecordAccess 1 1 ].

End ArcTests.

(** ** The buffer pool and its page guards
       (src/buffer/buffer_pool_manager.cpp, src/storage/page/page_guard.cpp,
        src/storage/disk/disk_scheduler.cpp)

    The pool, the replacer and the scheduler are shared objects: guards hold
    [shared_ptr]s to them.  They live in one pool state that every operation
    threads through, and a guard names its frame by the frame's index.  The
    pool latch [bpm_latch_] is not modelled: the embedding is sequential. *)

Module Bpm.

(** [std::shared_mutex]: any number of readers or one writer. *)
Record RwLatch : Type := mkLatch { readers : nat; writer : bool }.

Definition latch_free : RwLatch := mkLatch 0 false.

Record FrameHeader : Type := mkFrame {
  frame_id_ : Z;
  rwlatch_ : RwLatch;
  pin_count_ : Z;
  is_dirty_ : bool;
  data_ : list Z
}.

Definition zero_page : list Z := replicate (Z.to_nat BUSTUB_PAGE_SIZE) 0.

(** [FrameHeader::Reset]. *)
Definition Reset (f : FrameHeader) : FrameHeader :=
  mkFrame (frame_id_ f) (rwlatch_ f) 0 false zero_page.

(** [FrameHeader::FrameHeader(frame_id)]. *)
Definition new_frame (frame_id : Z) : FrameHeader :=
  Reset (mkFrame frame_id latch_free 0 false zero_page).

Definition frame_with_latch (l : RwLatch) (f : FrameHeader) : FrameHeader :=
  mkFrame (frame_id_ f) l (pin_count_ f) (is_dirty_ f) (data_ f).
Definition frame_with_pin (n : Z) (f : FrameHeader) : FrameHeader :=
  mkFrame (frame_id_ f) (rwlatch_ f) n (is_dirty_ f) (data_ f).
Definition frame_with_dirty (b : bool) (f : FrameHeader) : FrameHeader :=
  mkFrame (frame_id_ f) (rwlatch_ f) (pin_count_ f) b (data_ f).
Definition frame_with_data (d : list Z) (f : FrameHeader) : FrameHeader :=
  mkFrame (frame_id_ f) (rwlatch_ f) (pin_count_ f) (is_dirty_ f) d.

(** The disk manager behind the scheduler.  Its methods are virtual; all the
    pool sees of an implementation is the page contents it keeps and whether
    a call raises.  [failing_] lists the page ids whose I/O raises. *)
Record DiskManager : Type := mkDisk {
  pages_ : gmap Z (list Z);
  failing_ : list Z
}.

(** [struct DiskRequest].  [data_] points into a frame's buffer: the request
    names the frame.  [callback_] is the promise's shared state, [None] once
    the promise has been moved from. *)
Record DiskRequest : Type := mkRequest {
  is_write_ : bool;
  req_data_ : Z;
  req_page_id_ : Z;
  callback_ : option nat
}.

(** The shared state of a [std::promise<bool>]. *)
Inductive Completion : Type :=
  | Pending
  | Ready (value : bool)
  | Raised.

Record DiskScheduler : Type := mkScheduler {
  disk_manager_ : DiskManager;
  num_workers_ : Z;
  queues_ : list (list DiskRequest);
  promises_ : gmap nat Completion;
  next_promise_ : nat
}.

Definition new_scheduler (dm : DiskManager) (num_workers : Z) : DiskScheduler :=
  mkScheduler dm num_workers (replicate (Z.to_nat num_workers) []) ∅ 0%nat.

Record BufferPoolManager : Type := mkPool {
  num_frames_ : Z;
  next_page_id_ : Z;
  frames_ : list FrameHeader;
  page_table_ : gmap Z Z;
  frame_table_ : gmap Z Z;
  free_frames_ : list Z;
  replacer_ : Arc.ArcReplacer;
  disk_scheduler_ : DiskScheduler
}.

Definition with_next_page_id (n : Z) (b : BufferPoolManager) :=
  mkPool (num_frames_ b) n (frames_ b) (page_table_ b) (frame_table_ b)
         (free_frames_ b) (replacer_ b) (disk_scheduler_ b).
Definition with_frames (fs : list FrameHeader) (b : BufferPoolManager) :=
  mkPool (num_frames_ b) (next_page_id_ b) fs (page_table_ b) (frame_table_ b)
         (free_frames_ b) (replacer_ b) (disk_scheduler_ b).
Definition with_page_table (pt : gmap Z Z) (b : BufferPoolManager) :=
  mkPool (num_frames_ b) (next_page_id_ b) (frames_ b) pt (frame_table_ b)
         (free_frames_ b) (replacer_ b) (disk_scheduler_ b).
Definition with_frame_table (ft : gmap Z Z) (b : BufferPoolManager) :=
  mkPool (num_frames_ b) (next_page_id_ b) (frames_ b) (page_table_ b) ft
         (free_frames_ b) (replacer_ b) (disk_scheduler_ b).
Definition with_free_frames (l : list Z) (b : BufferPoolManager) :=
  mkPool (num_frames_ b) (next_page_id_ b) (frames_ b) (page_table_ b) (frame_table_ b)
         l (replacer_ b) (disk_scheduler_ b).
Definition with_replacer (r : Arc.ArcReplacer) (b : BufferPoolManager) :=
  mkPool (num_frames_ b) (next_page_id_ b) (frames_ b) (page_table_ b) (frame_table_ b)
         (free_frames_ b) r (disk_scheduler_ b).
Definition with_disk_scheduler (d : DiskScheduler) (b : BufferPoolManager) :=
  mkPool (num_frames_ b) (next_page_id_ b) (frames_ b) (page_table_ b) (frame_table_ b)
         (free_frames_ b) (replacer_ b) d.

(** [BufferPoolManager::BufferPoolManager(num_frames, disk_manager)]; the
    scheduler starts its default four workers. *)
Definition new (num_frames : Z) (dm : DiskManager) : BufferPoolManager :=
  mkPool num_frames 0 (new_frame <$> seqZ 0 num_frames) ∅ ∅ (seqZ 0 num_frames)
         (Arc.new num_frames) (new_scheduler dm 4).

(** *** Calls that may not return

    A call returns, lets an exception escape, or waits for a latch that
    nobody will release.  In each case the pool is left in some state. *)

Inductive outcome (A : Type) : Type :=
  | Returns (a : A)
  | Throws
  | Blocks.
Arguments Returns {A} a.
Arguments Throws {A}.
Arguments Blocks {A}.

Definition M (A : Type) : Type := BufferPoolManager → outcome A * BufferPoolManager.

Definition ret {A} (a : A) : M A := λ b, (Returns a, b).
Definition bind {A B} (m : M A) (k : A → M B) : M B :=
  λ b, match m b with
       | (Returns a, b') => k a b'
       | (Throws, b') => (Throws, b')
       | (Blocks, b') => (Blocks, b')
       end.
Definition get : M BufferPoolManager := λ b, (Returns b, b).
Definition modify (f : BufferPoolManager → BufferPoolManager) : M unit :=
  λ b, (Returns tt, f b).
Definition throw {A} : M A := λ b, (Throws, b).
Definition block {A} : M A := λ b, (Blocks, b).

Notation "'do' x <- m ; k" := (bind m (λ x, k))
  (at level 10, x name, m at level 100, k at level 200).
Notation "m ;; k" := (bind m (λ _, k))
  (at level 100, k at level 200, right associativity).

(** *** Frames *)

(** [frames_[frame_id]]. *)
Definition frame_at (frame_id : Z) (b : BufferPoolManager) : option FrameHeader :=
  if frame_id <? 0 then None else frames_ b !! Z.to_nat frame_id.

Definition update_frame (frame_id : Z) (f : FrameHeader → FrameHeader) : M unit :=
  modify (λ b, with_frames (alter f (Z.to_nat frame_id) (frames_ b)) b).

(** Reading a field of [frames_[frame_id]]; an index outside the vector is
    undefined behaviour, which the model turns into an exception. *)
Definition read_frame {A} (frame_id : Z) (field : FrameHeader → A) : M A :=
  do b <- get;
  match frame_at frame_id b with
  | Some f => ret (field f)
  | None => throw
  end.

(** [rwlatch_.lock()], [lock_shared()], [unlock()], [unlock_shared()]. *)
Definition lock (frame_id : Z) : M unit :=
  do l <- read_frame frame_id rwlatch_;
  if writer l || negb (readers l =? 0)%nat then block
  else update_frame frame_id (frame_with_latch (mkLatch (readers l) true)).
Definition lock_shared (frame_id : Z) : M unit :=
  do l <- read_frame frame_id rwlatch_;
  if writer l then block
  else update_frame frame_id (frame_with_latch (mkLatch (S (readers l)) (writer l))).
Definition unlock (frame_id : Z) : M unit :=
  update_frame frame_id (λ f, frame_with_latch (mkLatch (readers (rwlatch_ f)) false) f).
Definition unlock_shared (frame_id : Z) : M unit :=
  update_frame frame_id
    (λ f, frame_with_latch (mkLatch (pred (readers (rwlatch_ f))) (writer (rwlatch_ f))) f).

(** *** The replacer, called through [replacer_] *)

Definition replacer_call (f : Arc.ArcReplacer → result Arc.ArcReplacer) : M unit :=
  do b <- get;
  match f (replacer_ b) with
  | Ok r => modify (with_replacer r)
  | _ => throw
  end.

Definition replacer_Evict : M (option Z) :=
  do b <- get;
  let '(victim, r) := Arc.Evict (replacer_ b) in
  modify (with_replacer r) ;; ret victim.

(** *** The disk scheduler *)

(** [DiskScheduler::CreatePromise]: a promise with a fresh shared state. *)
Definition CreatePromise : M nat :=
  do b <- get;
  let d := disk_scheduler_ b in
  let p := next_promise_ d in
  modify (with_disk_scheduler
            (mkScheduler (disk_manager_ d) (num_workers_ d) (queues_ d)
                         (<[p := Pending]> (promises_ d)) (S p))) ;;
  ret p.

(** [DiskScheduler::Schedule] for a batch of one request: the request is put
    on queue [page_id mod num_workers_]. *)
Definition Schedule (req : DiskRequest) : M unit :=
  modify (λ b,
    let d := disk_scheduler_ b in
    let thread_id := Z.to_nat ((req_page_id_ req mod SIZE_MOD) mod num_workers_ d) in
    with_disk_scheduler
      (mkScheduler (disk_manager_ d) (num_workers_ d)
                   (alter (λ q, q ++ [req]) thread_id (queues_ d))
                   (promises_ d) (next_promise_ d)) b).

Definition set_promise (cb : option nat) (c : Completion) (d : DiskScheduler) : DiskScheduler :=
  match cb with
  | Some p => mkScheduler (disk_manager_ d) (num_workers_ d) (queues_ d)
                          (<[p := c]> (promises_ d)) (next_promise_ d)
  | None => d
  end.

Definition with_disk_pages (pg : gmap Z (list Z)) (d : DiskScheduler) : DiskScheduler :=
  mkScheduler (mkDisk pg (failing_ (disk_manager_ d))) (num_workers_ d) (queues_ d)
              (promises_ d) (next_promise_ d).

(** The body of the loop of [DiskScheduler::StartWorkerThread] for one
    request: the disk manager reads into or writes from the frame's buffer
    as it is when the worker runs, then the promise is fulfilled. *)
Definition serve (req : DiskRequest) (b : BufferPoolManager) : BufferPoolManager :=
  let d := disk_scheduler_ b in
  if bool_decide (req_page_id_ req ∈ failing_ (disk_manager_ d)) then
    with_disk_scheduler (set_promise (callback_ req) Raised d) b
  else if is_write_ req then
    match frame_at (req_data_ req) b with
    | Some f =>
        with_disk_scheduler
          (set_promise (callback_ req) (Ready true)
             (with_disk_pages (<[req_page_id_ req := data_ f]> (pages_ (disk_manager_ d))) d)) b
    | None => with_disk_scheduler (set_promise (callback_ req) Raised d) b
    end
  else
    let content := default zero_page (pages_ (disk_manager_ d) !! req_page_id_ req) in
    with_disk_scheduler (set_promise (callback_ req) (Ready true) d)
      (with_frames (alter (frame_with_data content) (Z.to_nat (req_data_ req)) (frames_ b)) b).

(** All workers run until their queues are empty. *)
Definition run_workers (b : BufferPoolManager) : BufferPoolManager :=
  let d := disk_scheduler_ b in
  let pending := concat (queues_ d) in
  let b1 :=
    with_disk_scheduler
      (mkScheduler (disk_manager_ d) (num_workers_ d) ((λ _, []) <$> queues_ d)
                   (promises_ d) (next_promise_ d)) b in
  foldl (λ b req, serve req b) b1 pending.

(** [promise.get_future()]: fails on a promise that was moved from. *)
Definition get_future (cb : option nat) : M nat :=
  match cb with
  | Some p => ret p
  | None => throw     (* std::future_error: no state *)
  end.

(** [future.get()]: waits for the workers, then yields the value or rethrows. *)
Definition future_get (p : nat) : M bool :=
  modify run_workers ;;
  do b <- get;
  match promises_ (disk_scheduler_ b) !! p with
  | Some (Ready v) => ret v
  | Some Raised => throw
  | _ => block
  end.

(** [DiskScheduler::DeallocatePage], that is [DiskManager::DeletePage]. *)
Definition DeallocatePage (page_id : Z) : M unit :=
  modify (λ b,
    let d := disk_scheduler_ b in
    with_disk_scheduler (with_disk_pages (delete page_id (pages_ (disk_manager_ d))) d) b).

(** [try { ... } catch (...) { handler }]. *)
Definition try_catch {A} (m : M A) (handler : M A) : M A :=
  λ b, match m b with
       | (Throws, b') => handler b'
       | r => r
       end.

(** *** Pool operations *)

(** [frame_table_[frame_id]]: [operator[]] inserts a zero for a missing key. *)
Definition frame_table_at (frame_id : Z) : M Z :=
  do b <- get;
  match frame_table_ b !! frame_id with
  | Some p => ret p
  | None => modify (with_frame_table (<[frame_id := 0]> (frame_table_ b))) ;; ret 0
  end.

(** [BufferPoolManager::FlushPageUnsafe]. *)
Definition FlushPageUnsafe (page_id : Z) : M bool :=
  do b <- get;
  match page_table_ b !! page_id with
  | None => ret false
  | Some frame_id =>
      do promise <- CreatePromise;
      do future <- get_future (Some promise);
      Schedule (mkRequest true frame_id page_id (Some promise)) ;;
      try_catch
        (do success <- future_get future;
         (if success then update_frame frame_id (frame_with_dirty false) else ret tt) ;;
         ret success)
        (ret false)
  end.

(** The part [CheckedReadPage], [CheckedWritePage] and [NewPage] share once
    the replacer has named a victim: write the victim back if it is dirty,
    then forget its mapping.  The frame's latch is taken around the
    write-back, exclusively or shared as [exclusive] says. *)
Definition evict_frame (exclusive : bool) (frame_id : Z) : M unit :=
  (if exclusive then lock frame_id else lock_shared frame_id) ;;
  do dirty <- read_frame frame_id is_dirty_;
  (if dirty then
     do old_page_id <- frame_table_at frame_id;
     FlushPageUnsafe old_page_id ;;
     update_frame frame_id (frame_with_dirty false)
   else ret tt) ;;
  ret tt.

Definition forget_mapping (frame_id : Z) : M unit :=
  do old_page_id <- frame_table_at frame_id;
  modify (λ b, with_page_table (delete old_page_id (page_table_ b)) b) ;;
  modify (λ b, with_frame_table (delete frame_id (frame_table_ b)) b).

(** [free_frames_.front(); free_frames_.pop_front()] or else [Evict]. *)
Inductive Acquired : Type :=
  | FromFreeList (frame_id : Z)
  | FromReplacer (frame_id : Z)
  | NoFrame.

Definition acquire_frame : M Acquired :=
  do b <- get;
  match free_frames_ b with
  | frame_id :: rest => modify (with_free_frames rest) ;; ret (FromFreeList frame_id)
  | [] =>
      do evict_opt <- replacer_Evict;
      match evict_opt with
      | None => ret NoFrame
      | Some frame_id => ret (FromReplacer frame_id)
      end
  end.

(** [BufferPoolManager::NewPage]. *)
Definition NewPage : M Z :=
  do acquired <- acquire_frame;
  match acquired with
  | NoFrame => ret INVALID_PAGE_ID
  | FromFreeList frame_id | FromReplacer frame_id =>
      (match acquired with
       | FromReplacer _ =>
           (* the victim's latch is held by a scoped_lock up to the end of the
              else-block, across the write-back and the erasures *)
           evict_frame true frame_id ;; forget_mapping frame_id ;; unlock frame_id
       | _ => ret tt
       end) ;;
      do b <- get;
      let new_page_id := next_page_id_ b in
      modify (with_next_page_id (new_page_id + 1)) ;;
      lock frame_id ;;
      update_frame frame_id Reset ;;
      modify (λ b, with_page_table (<[new_page_id := frame_id]> (page_table_ b)) b) ;;
      modify (λ b, with_frame_table (<[frame_id := new_page_id]> (frame_table_ b)) b) ;;
      do promise <- CreatePromise;
      do future <- get_future (Some promise);
      Schedule (mkRequest true frame_id new_page_id (Some promise)) ;;
      unlock frame_id ;;
      do ok <- future_get future;
      if ok then ret new_page_id
      else
        modify (λ b, with_page_table (delete new_page_id (page_table_ b)) b) ;;
        modify (λ b, with_frame_table (delete frame_id (frame_table_ b)) b) ;;
        modify (λ b, with_free_frames (free_frames_ b ++ [frame_id]) b) ;;
        ret INVALID_PAGE_ID
  end.

(** [BufferPoolManager::DeletePage]. *)
Definition DeletePage (page_id : Z) : M bool :=
  do b <- get;
  match page_table_ b !! page_id with
  | None => DeallocatePage page_id ;; ret true
  | Some frame_id =>
      do pin <- read_frame frame_id pin_count_;
      if 0 <? pin then ret false
      else
        do dirty <- read_frame frame_id is_dirty_;
        (if dirty then
           FlushPageUnsafe page_id ;; update_frame frame_id (frame_with_dirty false)
         else ret tt) ;;
        modify (λ b, with_page_table (delete page_id (page_table_ b)) b) ;;
        modify (λ b, with_frame_table (delete frame_id (frame_table_ b)) b) ;;
        update_frame frame_id Reset ;;
        modify (λ b, with_free_frames (free_frames_ b ++ [frame_id]) b) ;;
        DeallocatePage page_id ;;
        ret true
  end.

(** *** Page guards *)

(** The fields of [ReadPageGuard] and of [WritePageGuard] that are not
    pointers to the pool's shared objects.  A default-constructed guard has
    no frame and is not valid. *)
Record ReadPageGuard : Type := mkReadGuard {
  r_page_id_ : Z;
  r_frame_ : Z;
  r_is_valid_ : bool
}.

Record WritePageGuard : Type := mkWriteGuard {
  w_page_id_ : Z;
  w_frame_ : Z;
  w_is_valid_ : bool
}.

(** The constructors only the pool may call. *)
Definition new_ReadPageGuard (page_id frame_id : Z) : M ReadPageGuard :=
  do pin <- read_frame frame_id pin_count_;
  update_frame frame_id (frame_with_pin (size_add pin 1)) ;;
  lock_shared frame_id ;;
  do fid <- read_frame frame_id frame_id_;
  replacer_call (Arc.SetEvictable fid false) ;;
  ret (mkReadGuard page_id frame_id true).

Definition new_WritePageGuard (page_id frame_id : Z) : M WritePageGuard :=
  do pin <- read_frame frame_id pin_count_;
  update_frame frame_id (frame_with_pin (size_add pin 1)) ;;
  lock frame_id ;;
  do fid <- read_frame frame_id frame_id_;
  replacer_call (Arc.SetEvictable fid false) ;;
  ret (mkWriteGuard page_id frame_id true).

(** [ReadPageGuard::Drop]. *)
Definition ReadPageGuard_Drop (g : ReadPageGuard) : M ReadPageGuard :=
  if negb (r_is_valid_ g) then ret g
  else
    unlock_shared (r_frame_ g) ;;
    do pin <- read_frame (r_frame_ g) pin_count_;
    update_frame (r_frame_ g) (frame_with_pin (size_sub pin 1)) ;;
    do pin' <- read_frame (r_frame_ g) pin_count_;
    (if pin' =? 0 then
       do fid <- read_frame (r_frame_ g) frame_id_;
       replacer_call (Arc.SetEvictable fid true)
     else ret tt) ;;
    ret (mkReadGuard (r_page_id_ g) (r_frame_ g) false).

(** [WritePageGuard::Drop]. *)
Definition WritePageGuard_Drop (g : WritePageGuard) : M WritePageGuard :=
  if negb (w_is_valid_ g) then ret g
  else
    unlock (w_frame_ g) ;;
    do pin <- read_frame (w_frame_ g) pin_count_;
    update_frame (w_frame_ g) (frame_with_pin (size_sub pin 1)) ;;
    do pin' <- read_frame (w_frame_ g) pin_count_;
    (if pin' =? 0 then
       do fid <- read_frame (w_frame_ g) frame_id_;
       replacer_call (Arc.SetEvictable fid true)
     else ret tt) ;;
    ret (mkWriteGuard (w_page_id_ g) (w_frame_ g) false).

(** [BUSTUB_ENSURE(is_valid_, ...)] throws on an invalid guard. *)
Definition ensure (valid : bool) : M unit := if valid then ret tt else throw.

(** [ReadPageGuard::IsDirty], [WritePageGuard::IsDirty]. *)
Definition ReadPageGuard_IsDirty (g : ReadPageGuard) : M bool :=
  ensure (r_is_valid_ g) ;; read_frame (r_frame_ g) is_dirty_.
Definition WritePageGuard_IsDirty (g : WritePageGuard) : M bool :=
  ensure (w_is_valid_ g) ;; read_frame (w_frame_ g) is_dirty_.

(** [WritePageGuard::GetDataMut] followed by writing [d] through the pointer. *)
Definition WritePageGuard_write (g : WritePageGuard) (d : list Z) : M unit :=
  ensure (w_is_valid_ g) ;;
  update_frame (w_frame_ g) (frame_with_dirty true) ;;
  update_frame (w_frame_ g) (frame_with_data d).

(** [ReadPageGuard::Flush]: the request is scheduled and the flag cleared;
    nothing waits for the promise. *)
Definition ReadPageGuard_Flush (g : ReadPageGuard) : M unit :=
  ensure (r_is_valid_ g) ;;
  do dirty <- read_frame (r_frame_ g) is_dirty_;
  if dirty then
    do promise <- CreatePromise;
    Schedule (mkRequest true (r_frame_ g) (r_page_id_ g) (Some promise)) ;;
    update_frame (r_frame_ g) (frame_with_dirty false)
  else ret tt.

(** [WritePageGuard::Flush].  [Schedule] moves the request, and with it the
    promise, into the queue; the request left in the local vector holds a
    promise that was moved from, and it is this promise that [get_future] is
    called on. *)
Definition WritePageGuard_Flush (g : WritePageGuard) : M unit :=
  ensure (w_is_valid_ g) ;;
  do dirty <- read_frame (w_frame_ g) is_dirty_;
  if dirty then
    try_catch
      (do promise <- CreatePromise;
       let request := mkRequest true (w_frame_ g) (w_page_id_ g) (Some promise) in
       Schedule request ;;
       let moved_from := mkRequest (is_write_ request) (req_data_ request)
                                   (req_page_id_ request) None in
       do future <- get_future (callback_ moved_from);
       do success <- future_get future;
       if success then update_frame (w_frame_ g) (frame_with_dirty false) else ret tt)
      (ret tt)
  else ret tt.

(** *** Bringing a page in *)

(** The common body of [CheckedReadPage] and [CheckedWritePage] up to the
    construction of the guard; it yields the frame the page is in.  The two
    differ in the latch mode around the victim's write-back only. *)
Definition fetch_frame (exclusive : bool) (page_id : Z) : M (option Z) :=
  do b <- get;
  match page_table_ b !! page_id with
  | Some frame_id =>
      replacer_call (Arc.RecordAccess frame_id page_id) ;;
      ret (Some frame_id)
  | None =>
      do acquired <- acquire_frame;
      match acquired with
      | NoFrame => ret None
      | FromFreeList frame_id | FromReplacer frame_id =>
          (match acquired with
           | FromReplacer _ =>
               evict_frame exclusive frame_id ;;
               (if exclusive then ret tt else unlock_shared frame_id) ;;
               forget_mapping frame_id ;;
               (if exclusive then unlock frame_id else ret tt)
           | _ => ret tt
           end) ;;
          do promise <- CreatePromise;
          do future <- get_future (Some promise);
          Schedule (mkRequest false frame_id page_id (Some promise)) ;;
          do success <- future_get future;
          if negb success then
            modify (λ b, with_free_frames (free_frames_ b ++ [frame_id]) b) ;;
            ret None
          else
            modify (λ b, with_page_table (<[page_id := frame_id]> (page_table_ b)) b) ;;
            modify (λ b, with_frame_table (<[frame_id := page_id]> (frame_table_ b)) b) ;;
            replacer_call (Arc.RecordAccess frame_id page_id) ;;
            ret (Some frame_id)
      end
  end.

(** [BufferPoolManager::CheckedWritePage]. *)
Definition CheckedWritePage (page_id : Z) : M (option WritePageGuard) :=
  if page_id <? 0 then ret None
  else
    do frame <- fetch_frame true page_id;
    match frame with
    | None => ret None
    | Some frame_id =>
        do g <- new_WritePageGuard page_id frame_id;
        ret (Some g)
    end.

(** [BufferPoolManager::CheckedReadPage]. *)
Definition CheckedReadPage (page_id : Z) : M (option ReadPageGuard) :=
  if page_id <? 0 then ret None
  else
    do frame <- fetch_frame false page_id;
    match frame with
    | None => ret None
    | Some frame_id =>
        do g <- new_ReadPageGuard page_id frame_id;
        ret (Some g)
    end.

(** [BufferPoolManager::GetPinCount]. *)
Definition GetPinCount (page_id : Z) : M (option Z) :=
  do b <- get;
  match page_table_ b !! page_id with
  | None => ret None
  | Some frame_id => do pin <- read_frame frame_id pin_count_; ret (Some pin)
  end.

(** The frames the replacer tracks as live, and the frames that hold a
    resident page. *)
Definition live_frames (b : BufferPoolManager) : gset Z :=
  list_to_set (StdList.values (Arc.mru_ (replacer_ b)) ++
               StdList.values (Arc.mfu_ (replacer_ b))).

Definition resident_frames (b : BufferPoolManager) : gset Z :=
  list_to_set (snd <$> map_to_list (page_table_ b)).

End Bpm.
(** ** The disk manager (src/storage/disk/disk_manager.cpp)

    The database file is a sequence of bytes with a length; a page is
    [BUSTUB_PAGE_SIZE] bytes at an offset of the file.  The log file, which
    the page calls do not touch, is left out, and so are I/O errors of the
    stream: every [seekp]/[write] and [seekg]/[read] does what it is asked. *)

Module Disk.

(** [static_cast<int>(stat_buf.st_size)]: the low 32 bits, signed. *)
Definition to_int (z : Z) : Z := (z + 2 ^ 31) mod 2 ^ 32 - 2 ^ 31.

(** The fields of [class DiskManager] the page calls use.  [db_io_] is the
    content of the database file, [db_size_] its length; bytes beyond the
    length are not part of the file.  The counters are [int]s; they are exact
    below [2^31]. *)
Record DiskManager : Type := mkDiskManager {
  db_io_ : Z → Z;
  db_size_ : Z;
  pages_ : gmap Z Z;
  free_slots_ : list Z;
  page_capacity_ : Z;
  num_writes_ : Z;
  num_deletes_ : Z
}.

Definition with_file (f : Z → Z) (n : Z) (d : DiskManager) : DiskManager :=
  mkDiskManager f n (pages_ d) (free_slots_ d) (page_capacity_ d)
                (num_writes_ d) (num_deletes_ d).
Definition with_pages (pg : gmap Z Z) (d : DiskManager) : DiskManager :=
  mkDiskManager (db_io_ d) (db_size_ d) pg (free_slots_ d) (page_capacity_ d)
                (num_writes_ d) (num_deletes_ d).
Definition with_free_slots (fs : list Z) (d : DiskManager) : DiskManager :=
  mkDiskManager (db_io_ d) (db_size_ d) (pages_ d) fs (page_capacity_ d)
                (num_writes_ d) (num_deletes_ d).
Definition with_page_capacity (c : Z) (d : DiskManager) : DiskManager :=
  mkDiskManager (db_io_ d) (db_size_ d) (pages_ d) (free_slots_ d) c
                (num_writes_ d) (num_deletes_ d).
Definition with_num_writes (n : Z) (d : DiskManager) : DiskManager :=
  mkDiskManager (db_io_ d) (db_size_ d) (pages_ d) (free_slots_ d) (page_capacity_ d)
                n (num_deletes_ d).
Definition with_num_deletes (n : Z) (d : DiskManager) : DiskManager :=
  mkDiskManager (db_io_ d) (db_size_ d) (pages_ d) (free_slots_ d) (page_capacity_ d)
                (num_writes_ d) n.

(** [std::filesystem::resize_file]: the file is cut, or grows by zero bytes. *)
Definition resize_file (n : Z) (d : DiskManager) : DiskManager :=
  with_file (λ i, if i <? Z.min (db_size_ d) n then db_io_ d i else 0) n d.

(** [db_io_.seekp(offset); db_io_.write(page_data, BUSTUB_PAGE_SIZE)]: a write
    past the end makes the file longer, the gap reading as zeros. *)
Definition write_at (offset : Z) (page_data : list Z) (d : DiskManager) : DiskManager :=
  with_file
    (λ i, if (offset <=? i) && (i <? offset + BUSTUB_PAGE_SIZE)
          then default 0 (page_data !! Z.to_nat (i - offset))
          else if i <? db_size_ d then db_io_ d i else 0)
    (Z.max (db_size_ d) (offset + BUSTUB_PAGE_SIZE)) d.

(** [db_io_.seekg(offset); db_io_.read(page_data, BUSTUB_PAGE_SIZE)] and the
    [memset] of the bytes the file did not have. *)
Definition read_at (offset : Z) (d : DiskManager) : list Z :=
  (λ i, if offset + i <? db_size_ d then db_io_ d (offset + i) else 0)
    <$> seqZ 0 BUSTUB_PAGE_SIZE.

(** [DiskManager::DiskManager(db_file)].  [DEFAULT_DB_IO_SIZE], the initial
    [page_capacity_], comes from common/config.h, which is not among the
    sources: it is the parameter [capacity].  [old] is what the file holds
    when it is opened, nothing for a file that is created. *)
Definition new (capacity : Z) (old : list Z) : DiskManager :=
  resize_file (size_mul (size_add capacity 1) BUSTUB_PAGE_SIZE)
    (mkDiskManager (λ i, if i <? 0 then 0 else default 0 (old !! Z.to_nat i))
                   (Z.of_nat (length old)) ∅ [] capacity 0 0).

(** [DiskManager::GetFileSize(db_file_name_)]. *)
Definition GetFileSize (d : DiskManager) : Z := to_int (db_size_ d).

(** [DiskManager::AllocatePage]. *)
Definition AllocatePage (d : DiskManager) : Z * DiskManager :=
  match last (free_slots_ d) with
  | Some offset => (offset, with_free_slots (removelast (free_slots_ d)) d)
  | None =>
      let n := Z.of_nat (size (pages_ d)) in
      let d1 :=
        if page_capacity_ d <=? size_add n 1 then
          let c := size_mul (page_capacity_ d) 2 in
          resize_file (size_mul (size_add c 1) BUSTUB_PAGE_SIZE) (with_page_capacity c d)
        else d in
      (size_mul n BUSTUB_PAGE_SIZE, d1)
  end.

(** The offset [WritePage] and [ReadPage] start with: that of the page, or a
    new one. *)
Definition offset_of (page_id : Z) (d : DiskManager) : Z * DiskManager :=
  match pages_ d !! page_id with
  | Some offset => (offset, d)
  | None => AllocatePage d
  end.

(** [DiskManager::WritePage]. *)
Definition WritePage (page_id : Z) (page_data : list Z) (d : DiskManager) : DiskManager :=
  let '(offset, d1) := offset_of page_id d in
  let d2 := write_at offset page_data d1 in
  let d3 := with_num_writes (num_writes_ d2 + 1) d2 in
  with_pages (<[page_id := offset]> (pages_ d3)) d3.

(** [DiskManager::ReadPage]: the buffer it leaves, and the manager. *)
Definition ReadPage (page_id : Z) (page_data : list Z) (d : DiskManager)
    : list Z * DiskManager :=
  let '(offset, d1) := offset_of page_id d in
  let file_size := GetFileSize d1 in
  if file_size <? 0 then (page_data, d1)
  else if file_size <? offset then (page_data, d1)
  else (read_at offset d1, with_pages (<[page_id := offset]> (pages_ d1)) d1).

(** [DiskManager::DeletePage]. *)
Definition DeletePage (page_id : Z) (d : DiskManager) : DiskManager :=
  match pages_ d !! page_id with
  | None => d
  | Some offset =>
      let d1 := with_free_slots (free_slots_ d ++ [offset]) d in
      let d2 := with_pages (delete page_id (pages_ d1)) d1 in
      with_num_deletes (num_deletes_ d2 + 1) d2
  end.

(** [GetNumWrites], [GetNumDeletes]. *)
Definition GetNumWrites (d : DiskManager) : Z := num_writes_ d.
Definition GetNumDeletes (d : DiskManager) : Z := num_deletes_ d.

(** The manager's page calls as a command language. *)
Inductive Op : Type :=
  | OpWritePage (page_id : Z) (page_data : list Z)
  | OpReadPage (page_id : Z)
  | OpDeletePage (page_id : Z).

Definition run_op (op : Op) (d : DiskManager) : DiskManager :=
  match op with
  | OpWritePage p data => WritePage p data d
  | OpReadPage p => (ReadPage p [] d).2
  | OpDeletePage p => DeletePage p d
  end.

Definition run_ops (ops : list Op) (d : DiskManager) : DiskManager :=
  foldl (λ d op, run_op op d) d ops.

End Disk.

(** ** B+-tree pages
       (src/storage/page/b_plus_tree_page.cpp, b_plus_tree_leaf_page.cpp,
        b_plus_tree_internal_page.cpp)

    The tree is the instance [BPlusTree<GenericKey<8>, RID, GenericComparator<8>>]
    the tests use: keys are integers compared as integers, and a record id
    is an integer.  A page outlives the call that changes it, so every
    method takes the page and gives back the page it leaves.  [assert]s are
    compiled out. *)

Module BPage.

(** [GenericComparator<8>]: negative, zero or positive. *)
Definition comparator (a b : Z) : Z :=
  match a ?= b with
  | Lt => -1
  | Eq => 0
  | Gt => 1
  end.

(** [(BUSTUB_PAGE_SIZE - LEAF_PAGE_HEADER_SIZE - sizeof(size_t)) / (8 + 8)] and
    [(BUSTUB_PAGE_SIZE - INTERNAL_PAGE_HEADER_SIZE) / (8 + 4)]. *)
Definition LEAF_PAGE_SLOT_CNT : Z := (BUSTUB_PAGE_SIZE - 16 - 8) / (8 + 8).
Definition INTERNAL_PAGE_SLOT_CNT : Z := (BUSTUB_PAGE_SIZE - 12) / (8 + 4).

(** C arrays: [a[i]] and [a[i] = v].  A slot outside the array is undefined
    behaviour in the source; here such a read gives zero and such a write is
    lost. *)
Definition aget (a : list Z) (i : Z) : Z :=
  if i <? 0 then 0 else default 0 (a !! Z.to_nat i).
Definition aset (a : list Z) (i v : Z) : list Z :=
  if i <? 0 then a else <[Z.to_nat i := v]> a.

(** [for (i = lo; i < hi; ++i) body] and [for (i = hi; i >= lo; --i) body]. *)
Definition for_up {S : Type} (lo hi : Z) (body : Z → S → S) (s : S) : S :=
  foldl (λ s i, body i s) s (seqZ lo (hi - lo)).
Definition for_down {S : Type} (hi lo : Z) (body : Z → S → S) (s : S) : S :=
  foldl (λ s i, body i s) s (reverse (seqZ lo (hi - lo + 1))).

(** *** Leaf pages *)

(** [size_], [max_size_], [next_page_id_] and the two slot arrays; the
    page type is the constructor the page is wrapped in, and the tombstone
    fields, which no tree operation reads, are left out. *)
Record LeafPage : Type := mkLeaf {
  l_size_ : Z;
  l_max_size_ : Z;
  l_next_page_id_ : Z;
  l_key_array_ : list Z;
  l_rid_array_ : list Z
}.

Definition leaf_set_size (n : Z) (p : LeafPage) : LeafPage :=
  mkLeaf n (l_max_size_ p) (l_next_page_id_ p) (l_key_array_ p) (l_rid_array_ p).
Definition leaf_set_slot (i key rid : Z) (p : LeafPage) : LeafPage :=
  mkLeaf (l_size_ p) (l_max_size_ p) (l_next_page_id_ p)
         (aset (l_key_array_ p) i key) (aset (l_rid_array_ p) i rid).

Module Leaf.

Definition GetSize (p : LeafPage) : Z := l_size_ p.
Definition GetMaxSize (p : LeafPage) : Z := l_max_size_ p.
Definition GetNextPageId (p : LeafPage) : Z := l_next_page_id_ p.
Definition SetNextPageId (next_page_id : Z) (p : LeafPage) : LeafPage :=
  mkLeaf (l_size_ p) (l_max_size_ p) next_page_id (l_key_array_ p) (l_rid_array_ p).

(** [Init(max_size)]. *)
Definition Init (max_size : Z) (p : LeafPage) : LeafPage :=
  mkLeaf 0 max_size INVALID_PAGE_ID (l_key_array_ p) (l_rid_array_ p).

Definition KeyAt (index : Z) (p : LeafPage) : Z := aget (l_key_array_ p) index.
Definition ValueAt (index : Z) (p : LeafPage) : Z := aget (l_rid_array_ p) index.

(** The loop of [FindFirstGreaterOrEqual]. *)
Equations FindFirstGreaterOrEqual_loop (p : LeafPage) (key left_ right_ result : Z) : Z
  by wf (Z.to_nat (right_ - left_ + 1)) lt :=
  FindFirstGreaterOrEqual_loop p key left_ right_ result with Z_le_dec left_ right_ := {
    | right _ => result
    | left _ =>
        let mid := left_ + (right_ - left_) ÷ 2 in
        let cmp := comparator (KeyAt mid p) key in
        if 0 <=? cmp
        then FindFirstGreaterOrEqual_loop p key left_ (mid - 1) mid
        else FindFirstGreaterOrEqual_loop p key (mid + 1) right_ result }.
Next Obligation. pose proof (Z.quot_pos (right_ - left_) 2).
  pose proof (Z.quot_le_upper_bound (right_ - left_) 2 (right_ - left_)). lia. Qed.
Next Obligation. pose proof (Z.quot_pos (right_ - left_) 2).
  pose proof (Z.quot_le_upper_bound (right_ - left_) 2 (right_ - left_)). lia. Qed.

Definition FindFirstGreaterOrEqual (key : Z) (p : LeafPage) : Z :=
  FindFirstGreaterOrEqual_loop p key 0 (GetSize p - 1) (GetSize p).

(** The shifting loop [Insert] and [InsertAt] share. *)
Definition shift_right (insert_pos : Z) (p : LeafPage) : LeafPage :=
  for_down (GetSize p - 1) insert_pos
    (λ i p, leaf_set_slot (i + 1) (aget (l_key_array_ p) i) (aget (l_rid_array_ p) i) p) p.

Definition InsertAt (insert_pos key value : Z) (p : LeafPage) : LeafPage :=
  let p1 := shift_right insert_pos p in
  let p2 := leaf_set_slot insert_pos key value p1 in
  leaf_set_size (l_size_ p2 + 1) p2.

Definition Insert (key value : Z) (p : LeafPage) : LeafPage :=
  let insert_pos := FindFirstGreaterOrEqual key p in
  InsertAt insert_pos key value p.

Definition Insert_Set_old (split_idx : Z) (all_data : list (Z * Z)) (p : LeafPage) : LeafPage :=
  for_up 0 split_idx
    (λ i p,
       let e := default (0, 0) (all_data !! Z.to_nat i) in
       let p1 := leaf_set_slot i e.1 e.2 p in
       leaf_set_size (l_size_ p1 + 1) p1)
    (leaf_set_size 0 p).

Definition Insert_Set_new (split_idx : Z) (all_data : list (Z * Z)) (p : LeafPage) : LeafPage :=
  for_up split_idx (Z.of_nat (length all_data))
    (λ i p,
       let e := default (0, 0) (all_data !! Z.to_nat i) in
       let p1 := leaf_set_slot (i - split_idx) e.1 e.2 p in
       leaf_set_size (l_size_ p1 + 1) p1)
    (leaf_set_size 0 p).

Definition RemoveAt (index : Z) (p : LeafPage) : LeafPage :=
  let p1 :=
    for_up index (l_size_ p - 1)
      (λ i p, leaf_set_slot i (aget (l_key_array_ p) (i + 1)) (aget (l_rid_array_ p) (i + 1)) p)
      p in
  leaf_set_size (l_size_ p1 - 1) p1.

(** The entries a leaf holds: its first [size_] slots. *)
Definition entries (p : LeafPage) : list (Z * Z) :=
  take (Z.to_nat (l_size_ p)) (zip (l_key_array_ p) (l_rid_array_ p)).

End Leaf.

(** *** Internal pages *)

Record InternalPage : Type := mkInternal {
  i_size_ : Z;
  i_max_size_ : Z;
  i_key_array_ : list Z;
  i_page_id_array_ : list Z
}.

Definition internal_set_size (n : Z) (p : InternalPage) : InternalPage :=
  mkInternal n (i_max_size_ p) (i_key_array_ p) (i_page_id_array_ p).
Definition internal_set_key (i key : Z) (p : InternalPage) : InternalPage :=
  mkInternal (i_size_ p) (i_max_size_ p) (aset (i_key_array_ p) i key) (i_page_id_array_ p).
Definition internal_set_value (i value : Z) (p : InternalPage) : InternalPage :=
  mkInternal (i_size_ p) (i_max_size_ p) (i_key_array_ p) (aset (i_page_id_array_ p) i value).

Module Internal.

Definition GetSize (p : InternalPage) : Z := i_size_ p.
Definition GetMaxSize (p : InternalPage) : Z := i_max_size_ p.
Definition SetSize (n : Z) (p : InternalPage) : InternalPage := internal_set_size n p.
Definition IncreaseSize (p : InternalPage) : InternalPage := internal_set_size (i_size_ p + 1) p.
Definition DecreaseSize (p : InternalPage) : InternalPage := internal_set_size (i_size_ p - 1) p.

(** [Init(max_size)]. *)
Definition Init (max_size : Z) (p : InternalPage) : InternalPage :=
  mkInternal 1 max_size (i_key_array_ p) (i_page_id_array_ p).

Definition KeyAt (index : Z) (p : InternalPage) : Z := aget (i_key_array_ p) index.
Definition SetKeyAt (index key : Z) (p : InternalPage) : InternalPage :=
  internal_set_key index key p.
Definition SetValueAt (index value : Z) (p : InternalPage) : InternalPage :=
  internal_set_value index value p.
Definition ValueAt (index : Z) (p : InternalPage) : Z := aget (i_page_id_array_ p) index.

(** [ValueIndex]: the first slot below [size_] that holds [value], or [-1]. *)
Definition ValueIndex (value : Z) (p : InternalPage) : Z :=
  match list_find (λ v, v = value) (take (Z.to_nat (i_size_ p)) (i_page_id_array_ p)) with
  | Some (i, _) => Z.of_nat i
  | None => -1
  end.

(** The loop of [FindPage]; it yields the final value of [left]. *)
Equations FindPage_loop (p : InternalPage) (key left_ right_ : Z) : Z
  by wf (Z.to_nat (right_ - left_ + 1)) lt :=
  FindPage_loop p key left_ right_ with Z_le_dec left_ right_ := {
    | right _ => left_
    | left _ =>
        let mid := left_ + (right_ - left_) ÷ 2 in
        let compareResult := comparator (aget (i_key_array_ p) mid) key in
        if compareResult =? 0 then mid
        else if compareResult <? 0 then FindPage_loop p key (mid + 1) right_
        else FindPage_loop p key left_ (mid - 1) }.
Next Obligation. pose proof (Z.quot_pos (right_ - left_) 2).
  pose proof (Z.quot_le_upper_bound (right_ - left_) 2 (right_ - left_)). lia. Qed.
Next Obligation. pose proof (Z.quot_pos (right_ - left_) 2).
  pose proof (Z.quot_le_upper_bound (right_ - left_) 2 (right_ - left_)). lia. Qed.

Definition FindPage (key : Z) (p : InternalPage) : Z :=
  let targetIndex := FindPage_loop p key 1 (GetSize p - 1) in
  if GetSize p <=? targetIndex then aget (i_page_id_array_ p) (GetSize p - 1)
  else if comparator (aget (i_key_array_ p) targetIndex) key =? 0
       then aget (i_page_id_array_ p) targetIndex
       else aget (i_page_id_array_ p) (targetIndex - 1).

(** The loop of [FindInsertPos]; [-1] reports a key that is already there. *)
Equations FindInsertPos_loop (p : InternalPage) (key left_ right_ insert_pos : Z) : Z
  by wf (Z.to_nat (right_ - left_ + 1)) lt :=
  FindInsertPos_loop p key left_ right_ insert_pos with Z_le_dec left_ right_ := {
    | right _ => insert_pos
    | left _ =>
        let mid := left_ + (right_ - left_) ÷ 2 in
        let cmp := comparator (KeyAt mid p) key in
        if 0 <? cmp then FindInsertPos_loop p key left_ (mid - 1) mid
        else if cmp <? 0 then FindInsertPos_loop p key (mid + 1) right_ insert_pos
        else -1 }.
Next Obligation. pose proof (Z.quot_pos (right_ - left_) 2).
  pose proof (Z.quot_le_upper_bound (right_ - left_) 2 (right_ - left_)). lia. Qed.
Next Obligation. pose proof (Z.quot_pos (right_ - left_) 2).
  pose proof (Z.quot_le_upper_bound (right_ - left_) 2 (right_ - left_)). lia. Qed.

Definition FindInsertPos (key : Z) (p : InternalPage) : Z :=
  FindInsertPos_loop p key 1 (GetSize p - 1) (GetSize p).

Definition copy_slot (dst src : Z) (p : InternalPage) : InternalPage :=
  internal_set_value dst (aget (i_page_id_array_ p) src)
    (internal_set_key dst (aget (i_key_array_ p) src) p).

Definition InsertAt (insert_pos key value : Z) (p : InternalPage) : InternalPage :=
  let p1 := for_down (GetSize p) (insert_pos + 1) (λ i p, copy_slot i (i - 1) p) p in
  IncreaseSize (internal_set_value insert_pos value (internal_set_key insert_pos key p1)).

Definition InsertAt_head (key value : Z) (p : InternalPage) : InternalPage :=
  let p1 := for_down (GetSize p) 1 (λ i p, copy_slot i (i - 1) p) p in
  IncreaseSize (internal_set_value 0 value (internal_set_key 1 key p1)).

Definition Insert (key value insert_pos : Z) (p : InternalPage) : InternalPage :=
  let p1 := for_down (GetSize p - 1) insert_pos (λ i p, copy_slot (i + 1) i p) p in
  IncreaseSize (internal_set_value insert_pos value (internal_set_key insert_pos key p1)).

Definition Insert_Set_old (split_idx : Z) (all_data : list (Z * Z)) (p : InternalPage)
    : InternalPage :=
  for_up 0 split_idx
    (λ i p,
       let e := default (0, 0) (all_data !! Z.to_nat i) in
       let p1 := if 0 <? i then internal_set_key i e.1 p else p in
       IncreaseSize (internal_set_value i e.2 p1))
    (internal_set_size 0 p).

Definition Insert_Set_new (split_idx : Z) (all_data : list (Z * Z)) (p : InternalPage)
    : InternalPage :=
  for_up split_idx (Z.of_nat (length all_data))
    (λ i p,
       let e := default (0, 0) (all_data !! Z.to_nat i) in
       let new_idx := i - split_idx in
       let p1 := if 0 <? new_idx then internal_set_key new_idx e.1 p else p in
       IncreaseSize (internal_set_value new_idx e.2 p1))
    (internal_set_size 0 p).

Definition RemoveAt (index : Z) (p : InternalPage) : InternalPage :=
  DecreaseSize (for_up index (GetSize p - 1) (λ i p, copy_slot i (i + 1) p) p).

Definition RemoveAt_head (p : InternalPage) : InternalPage :=
  let p1 := internal_set_value 0 (aget (i_page_id_array_ p) 1) p in
  DecreaseSize (for_up 1 (i_size_ p1 - 1) (λ i p, copy_slot i (i + 1) p) p1).

(** The children an internal page points to, and its separators (slots
    [1 .. size_ - 1] of the key array). *)
Definition children (p : InternalPage) : list Z :=
  take (Z.to_nat (i_size_ p)) (i_page_id_array_ p).
Definition separators (p : InternalPage) : list Z :=
  drop 1 (take (Z.to_nat (i_size_ p)) (i_key_array_ p)).

End Internal.

(** A page as the tree sees it through [As<...>()].  [RawPage] is a page as
    [NewPage] leaves it, all zero. *)
Inductive Page : Type :=
  | RawPage
  | HeaderPg (root_page_id_ : Z)
  | LeafPg (p : LeafPage)
  | InternalPg (p : InternalPage).

Definition zero_leaf : LeafPage :=
  mkLeaf 0 0 0 (replicate (Z.to_nat LEAF_PAGE_SLOT_CNT) 0)
               (replicate (Z.to_nat LEAF_PAGE_SLOT_CNT) 0).
Definition zero_internal : InternalPage :=
  mkInternal 0 0 (replicate (Z.to_nat INTERNAL_PAGE_SLOT_CNT) 0)
                 (replicate (Z.to_nat INTERNAL_PAGE_SLOT_CNT) 0).

End BPage.
(** ** The B+-tree index (src/storage/index/b_plus_tree.cpp)

    The tree reaches its pages through the buffer pool.  What it needs of
    the pool is the page behind a page id, fresh pages, and [DeletePage];
    [Pool] keeps just that.  Whether [NewPage] finds a frame depends on
    frames and pins the tree does not see: [new_page_fails_] lists, call by
    call, whether the [NewPage] calls to come fail; beyond the end of the
    list they succeed.

    A pointer [LeafPage *] or [InternalPage *] obtained from a guard is the
    page id it points into: a method call through the pointer reads or
    rewrites the page stored under that id. *)

Module BTree.
Import BPage.

Record Pool : Type := mkPool {
  pages_ : gmap Z Page;
  next_page_id_ : Z;
  new_page_fails_ : list bool
}.

Definition with_pages (pg : gmap Z Page) (s : Pool) : Pool :=
  mkPool pg (next_page_id_ s) (new_page_fails_ s).

(** A computation on the pool that ends normally with a value, or does not:
    it reads a page as what it is not, trips an [assert], asks for the
    page [INVALID_PAGE_ID], or runs out of [fuel]. *)
Definition TM (A : Type) : Type := Pool → option (A * Pool).

Definition ret {A} (a : A) : TM A := λ s, Some (a, s).
Definition bind {A B} (m : TM A) (k : A → TM B) : TM B :=
  λ s, match m s with
       | Some (a, s') => k a s'
       | None => None
       end.
Definition stuck {A} : TM A := λ _, None.
Definition get : TM Pool := λ s, Some (s, s).
Definition modify (f : Pool → Pool) : TM unit := λ s, Some (tt, f s).

Notation "'do' x <- m ; k" := (bind m (λ x, k))
  (at level 10, x name, m at level 100, k at level 200).
Notation "m ;; k" := (bind m (λ _, k))
  (at level 100, k at level 200, right associativity).

(** [for (i = lo; i < hi; ++i) body]. *)
Definition mfor_up (lo hi : Z) (body : Z → TM unit) : TM unit :=
  foldl (λ acc i, acc ;; body i) (ret tt) (seqZ lo (hi - lo)).

(** *** The pool *)

(** [ReadPage] / [WritePage] followed by [As<...>] or [AsMut<...>]: a page
    never written reads as zeros. *)
Definition fetch (page_id : Z) : TM Page :=
  if page_id <? 0 then stuck
  else do s <- get; ret (default RawPage (pages_ s !! page_id)).

Definition store (page_id : Z) (pg : Page) : TM unit :=
  modify (λ s, with_pages (<[page_id := pg]> (pages_ s)) s).

Definition as_leaf (pg : Page) : option LeafPage :=
  match pg with
  | LeafPg p => Some p
  | RawPage => Some zero_leaf
  | _ => None
  end.
Definition as_internal (pg : Page) : option InternalPage :=
  match pg with
  | InternalPg p => Some p
  | RawPage => Some zero_internal
  | _ => None
  end.
Definition as_header (pg : Page) : option Z :=
  match pg with
  | HeaderPg r => Some r
  | RawPage => Some 0
  | _ => None
  end.

(** [As<BPlusTreePage>()->IsLeafPage()]. *)
Definition IsLeafPage (page_id : Z) : TM bool :=
  do pg <- fetch page_id;
  match pg with
  | LeafPg _ => ret true
  | InternalPg _ | RawPage => ret false
  | HeaderPg _ => stuck
  end.

Definition leaf_read {A} (page_id : Z) (f : LeafPage → A) : TM A :=
  do pg <- fetch page_id;
  match as_leaf pg with Some p => ret (f p) | None => stuck end.
Definition leaf_write (page_id : Z) (f : LeafPage → LeafPage) : TM unit :=
  do pg <- fetch page_id;
  match as_leaf pg with Some p => store page_id (LeafPg (f p)) | None => stuck end.
Definition internal_read {A} (page_id : Z) (f : InternalPage → A) : TM A :=
  do pg <- fetch page_id;
  match as_internal pg with Some p => ret (f p) | None => stuck end.
Definition internal_write (page_id : Z) (f : InternalPage → InternalPage) : TM unit :=
  do pg <- fetch page_id;
  match as_internal pg with Some p => store page_id (InternalPg (f p)) | None => stuck end.

(** [GetSize()] and [GetMaxSize()] through a [BPlusTreePage *]. *)
Definition page_size (page_id : Z) : TM Z :=
  do pg <- fetch page_id;
  match pg with
  | LeafPg p => ret (l_size_ p)
  | InternalPg p => ret (i_size_ p)
  | RawPage => ret 0
  | HeaderPg _ => stuck
  end.
Definition page_max_size (page_id : Z) : TM Z :=
  do pg <- fetch page_id;
  match pg with
  | LeafPg p => ret (l_max_size_ p)
  | InternalPg p => ret (i_max_size_ p)
  | RawPage => ret 0
  | HeaderPg _ => stuck
  end.

(** [bpm_->NewPage()]. *)
Definition NewPage : TM Z :=
  do s <- get;
  match new_page_fails_ s with
  | true :: rest =>
      modify (λ s, mkPool (pages_ s) (next_page_id_ s) rest) ;; ret INVALID_PAGE_ID
  | fails =>
      let id := next_page_id_ s in
      modify (λ s, mkPool (<[id := RawPage]> (pages_ s)) (id + 1) (tail fails)) ;;
      ret id
  end.

(** *** The tree and the context of an operation *)

Record BPlusTree : Type := mkTree {
  header_page_id_ : Z;
  leaf_max_size_ : Z;
  internal_max_size_ : Z
}.

(** [class Context]; a guard is the id of the page it guards. *)
Record Context : Type := mkCtx {
  header_page_ : option Z;
  root_page_id_ : Z;
  write_set_ : list Z;
  read_set_ : list Z
}.

Definition new_ctx : Context := mkCtx None INVALID_PAGE_ID [] [].
Definition ctx_with_root (r : Z) (c : Context) : Context :=
  mkCtx (header_page_ c) r (write_set_ c) (read_set_ c).
Definition ctx_with_write_set (w : list Z) (c : Context) : Context :=
  mkCtx (header_page_ c) (root_page_id_ c) w (read_set_ c).
Definition ctx_with_header (h : option Z) (c : Context) : Context :=
  mkCtx h (root_page_id_ c) (write_set_ c) (read_set_ c).

Definition push_back (page_id : Z) (c : Context) : Context :=
  ctx_with_write_set (write_set_ c ++ [page_id]) c.
Definition pop_back (c : Context) : Context :=
  ctx_with_write_set (removelast (write_set_ c)) c.
Definition back (c : Context) : option Z := last (write_set_ c).

(** [Context::keep_last_write_latch]. *)
Definition keep_last_write_latch (c : Context) : Context :=
  ctx_with_write_set (match last (write_set_ c) with Some g => [g] | None => [] end) c.

(** [bpm_->DeletePage(page_id)] as the tree gets it: the pool refuses to
    delete a page that is pinned, and the pages the operation holds guards
    on are pinned. *)
Definition DeletePage (c : Context) (page_id : Z) : TM bool :=
  if bool_decide (page_id ∈ write_set_ c) || bool_decide (header_page_ c = Some page_id)
  then ret false
  else modify (λ s, with_pages (delete page_id (pages_ s)) s) ;; ret true.

(** [BPlusTree::GetRootPageId]. *)
Definition GetRootPageId (t : BPlusTree) : TM Z :=
  do pg <- fetch (header_page_id_ t);
  match as_header pg with Some r => ret r | None => stuck end.

Definition set_root (t : BPlusTree) (root : Z) : TM unit :=
  do pg <- fetch (header_page_id_ t);
  match as_header pg with
  | Some _ => store (header_page_id_ t) (HeaderPg root)
  | None => stuck
  end.

(** [BPlusTree::BPlusTree]. *)
Definition new_tree (t : BPlusTree) : TM unit := set_root t INVALID_PAGE_ID.

(** [BPlusTree::IsEmpty]. *)
Definition IsEmpty (t : BPlusTree) : TM bool :=
  do r <- GetRootPageId t; ret (r =? INVALID_PAGE_ID).

(** *** Search *)

(** The loop of [GetValue], from the page [current_page_id] down. *)
Fixpoint GetValue_from (fuel : nat) (key current_page_id : Z) : TM (option Z) :=
  match fuel with
  | O => stuck
  | S fuel' =>
      do is_leaf <- IsLeafPage current_page_id;
      if is_leaf then
        do index <- leaf_read current_page_id (Leaf.FindFirstGreaterOrEqual key);
        do size <- leaf_read current_page_id Leaf.GetSize;
        if index =? size then ret None
        else
          do k <- leaf_read current_page_id (Leaf.KeyAt index);
          if comparator k key =? 0
          then do v <- leaf_read current_page_id (Leaf.ValueAt index); ret (Some v)
          else ret None
      else
        do child <- internal_read current_page_id (Internal.FindPage key);
        GetValue_from fuel' key child
  end.

(** [BPlusTree::GetValue]: the value found, if any. *)
Definition GetValue (fuel : nat) (t : BPlusTree) (key : Z) : TM (option Z) :=
  do root_page_id <- GetRootPageId t;
  if root_page_id =? INVALID_PAGE_ID then ret None
  else GetValue_from fuel key root_page_id.

(** *** Insertion *)

(** [BPlusTree::CreateNewRoot]. *)
Definition CreateNewRoot (t : BPlusTree) (left_page_id split_key right_page_id : Z)
    (ctx : Context) : TM bool :=
  do new_root_id <- NewPage;
  if new_root_id =? INVALID_PAGE_ID then ret false
  else
    internal_write new_root_id (Internal.Init (internal_max_size_ t)) ;;
    internal_write new_root_id (Internal.SetSize 2) ;;
    internal_write new_root_id (Internal.SetValueAt 0 left_page_id) ;;
    internal_write new_root_id (Internal.SetValueAt 1 right_page_id) ;;
    internal_write new_root_id (Internal.SetKeyAt 1 split_key) ;;
    set_root t new_root_id ;;
    ret true.

(** [all_data.emplace(all_data.begin() + insert_pos, key, value)]. *)
Definition emplace (insert_pos : Z) (e : Z * Z) (all_data : list (Z * Z)) : list (Z * Z) :=
  take (Z.to_nat insert_pos) all_data ++ e :: drop (Z.to_nat insert_pos) all_data.

(** [all_data[i].first]. *)
Definition first_at (all_data : list (Z * Z)) (i : Z) : Z :=
  (default (0, 0) (all_data !! Z.to_nat i)).1.

(** The copy loop at the head of the split in [InsertIntoLeaf]. *)
Definition leaf_all_data (p : LeafPage) : list (Z * Z) :=
  (λ i, (Leaf.KeyAt i p, Leaf.ValueAt i p)) <$> seqZ 0 (Leaf.GetSize p).

(** The copy loop at the head of the split in [InsertIntoInternal]; the
    first pair carries [KeyType{}]. *)
Definition internal_all_data (p : InternalPage) : list (Z * Z) :=
  (0, Internal.ValueAt 0 p) ::
  ((λ i, (Internal.KeyAt i p, Internal.ValueAt i p)) <$> seqZ 1 (Internal.GetSize p - 1)).

(** [BPlusTree::InsertIntoInternal]. *)
Fixpoint InsertIntoInternal (fuel : nat) (t : BPlusTree) (ctx : Context)
    (internal_page_id key child_page_id : Z) : TM bool :=
  match fuel with
  | O => stuck
  | S fuel' =>
      match back ctx with
      | None => stuck
      | Some internal =>
          do insert_pos <- internal_read internal (Internal.FindInsertPos key);
          if insert_pos =? -1 then ret false
          else
            do size <- internal_read internal Internal.GetSize;
            do max_size <- internal_read internal Internal.GetMaxSize;
            if size <? max_size then
              internal_write internal (Internal.Insert key child_page_id insert_pos) ;;
              ret true
            else
              do old_data <- internal_read internal internal_all_data;
              let all_data := emplace insert_pos (key, child_page_id) old_data in
              let split_idx := (Z.of_nat (length all_data) + 1) / 2 in
              let split_key := first_at all_data split_idx in
              do new_internal_id <- NewPage;
              if new_internal_id =? INVALID_PAGE_ID then ret false
              else
                internal_write new_internal_id (Internal.Init (internal_max_size_ t)) ;;
                internal_write internal (Internal.Insert_Set_old split_idx all_data) ;;
                internal_write new_internal_id (Internal.Insert_Set_new split_idx all_data) ;;
                do root <- GetRootPageId t;
                if internal_page_id =? root then
                  CreateNewRoot t internal_page_id split_key new_internal_id ctx
                else
                  let ctx' := pop_back ctx in
                  match back ctx' with
                  | None => stuck
                  | Some father_id =>
                      InsertIntoInternal fuel' t ctx' father_id split_key new_internal_id
                  end
      end
  end.

(** [BPlusTree::InsertIntoLeaf]. *)
Definition InsertIntoLeaf (t : BPlusTree) (ctx : Context)
    (leaf_page_id key value : Z) : TM bool :=
  match back ctx with
  | None => stuck
  | Some leaf =>
      do insert_pos <- leaf_read leaf (Leaf.FindFirstGreaterOrEqual key);
      do size <- leaf_read leaf Leaf.GetSize;
      do key_there <- leaf_read leaf (Leaf.KeyAt insert_pos);
      if (insert_pos <? size) && (comparator key_there key =? 0) then ret false
      else
        do max_size <- leaf_read leaf Leaf.GetMaxSize;
        if size <? max_size then
          leaf_write leaf (Leaf.Insert key value) ;; ret true
        else
          do old_data <- leaf_read leaf leaf_all_data;
          let all_data := emplace insert_pos (key, value) old_data in
          let split_idx := (Z.of_nat (length all_data) + 1) / 2 in
          let split_key := first_at all_data split_idx in
          do new_leaf_id <- NewPage;
          if new_leaf_id =? INVALID_PAGE_ID then ret false
          else
            leaf_write new_leaf_id (Leaf.Init (leaf_max_size_ t)) ;;
            leaf_write leaf (Leaf.Insert_Set_old split_idx all_data) ;;
            leaf_write new_leaf_id (Leaf.Insert_Set_new split_idx all_data) ;;
            do next <- leaf_read leaf Leaf.GetNextPageId;
            leaf_write new_leaf_id (Leaf.SetNextPageId next) ;;
            leaf_write leaf (Leaf.SetNextPageId new_leaf_id) ;;
            do root <- GetRootPageId t;
            if leaf_page_id =? root then
              CreateNewRoot t leaf_page_id split_key new_leaf_id ctx
            else
              let ctx' := pop_back ctx in
              match back ctx' with
              | None => stuck
              | Some inter_page =>
                  InsertIntoInternal (length (write_set_ ctx)) t ctx' inter_page
                    split_key new_leaf_id
              end
  end.

(** The descent of [Insert_write], with the write set built on the way. *)
Fixpoint Insert_write_from (fuel : nat) (t : BPlusTree) (ctx : Context)
    (current_page_id key value : Z) : TM bool :=
  match fuel with
  | O => stuck
  | S fuel' =>
      do is_leaf <- IsLeafPage current_page_id;
      if is_leaf then InsertIntoLeaf t ctx current_page_id key value
      else
        match back ctx with
        | None => stuck
        | Some internal =>
            do child <- internal_read internal (Internal.FindPage key);
            do size <- internal_read internal Internal.GetSize;
            do max_size <- internal_read internal Internal.GetMaxSize;
            let ctx1 := if size <? max_size then keep_last_write_latch ctx else ctx in
            Insert_write_from fuel' t (push_back child ctx1) child key value
        end
  end.

(** [BPlusTree::Insert_write].  [Insert_again] is the call [Insert(key, value)]
    made when the root read a second time differs from the one read first. *)
Definition Insert_write (fuel : nat) (t : BPlusTree) (Insert_again : TM bool)
    (key value : Z) : TM bool :=
  do root <- GetRootPageId t;
  let ctx := ctx_with_root root (ctx_with_header (Some (header_page_id_ t)) new_ctx) in
  if root_page_id_ ctx =? INVALID_PAGE_ID then
    do new_root_id <- NewPage;
    if new_root_id =? INVALID_PAGE_ID then ret false
    else
      leaf_write new_root_id (Leaf.Init (leaf_max_size_ t)) ;;
      leaf_write new_root_id (Leaf.Insert key value) ;;
      set_root t new_root_id ;;
      ret true
  else
    let ctx := ctx_with_header None ctx in
    do current_page_id <- GetRootPageId t;
    (if negb (current_page_id =? root_page_id_ ctx) then Insert_again else ret false) ;;
    Insert_write_from fuel t (push_back current_page_id ctx) current_page_id key value.

(** The descent of [Insert] under read latches. *)
Fixpoint Insert_from (fuel : nat) (t : BPlusTree) (Insert_again : TM bool)
    (current_page_id key value : Z) : TM bool :=
  match fuel with
  | O => stuck
  | S fuel' =>
      do is_leaf <- IsLeafPage current_page_id;
      if is_leaf then
        do size <- page_size current_page_id;
        do max_size <- page_max_size current_page_id;
        if max_size <=? size then Insert_write fuel t Insert_again key value
        else InsertIntoLeaf t (push_back current_page_id new_ctx) current_page_id key value
      else
        do child <- internal_read current_page_id (Internal.FindPage key);
        Insert_from fuel' t Insert_again child key value
  end.

(** [BPlusTree::Insert].  [fuel] bounds the length of a descent; [calls]
    bounds how often [Insert] calls itself through [Insert_write]. *)
Fixpoint Insert (calls fuel : nat) (t : BPlusTree) (key value : Z) : TM bool :=
  match calls with
  | O => stuck
  | S calls' =>
      do current_page_id <- GetRootPageId t;
      if current_page_id =? INVALID_PAGE_ID
      then Insert_write fuel t (Insert calls' fuel t key value) key value
      else Insert_from fuel t (Insert calls' fuel t key value) current_page_id key value
  end.

(** *** Removal *)

(** [BPlusTree::IsLeafUnderflow], [BPlusTree::IsInternalUnderflow]. *)
Definition IsLeafUnderflow (leaf : LeafPage) : bool :=
  Leaf.GetSize leaf <? (Leaf.GetMaxSize leaf + 1) ÷ 2.
Definition IsInternalUnderflow (internal : InternalPage) : bool :=
  Internal.GetSize internal <? (Internal.GetMaxSize internal + 1) ÷ 2.

(** What [FindLeafSibling] and [FindInternalSibling] return and write through
    their pointer arguments. *)
Record Siblings : Type := mkSiblings {
  has_sibling : bool;
  sibling_page_id_left : Z;
  sibling_page_id_right : Z;
  current_idx : Z;
  sibling_idx_left : Z;
  sibling_idx_right : Z;
  parent_internal : Z
}.

(** [BPlusTree::FindLeafSibling]; [FindInternalSibling] is the same code. *)
Definition FindSibling (ctx : Context) (current_page_id : Z) : TM Siblings :=
  let none := mkSiblings false INVALID_PAGE_ID INVALID_PAGE_ID (-1) (-1) (-1) (-1) in
  let size := length (write_set_ ctx) in
  if (size =? 1)%nat then ret none
  else
    match write_set_ ctx !! (size - 2)%nat with
    | None => stuck
    | Some parent =>
        do idx <- internal_read parent (Internal.ValueIndex current_page_id);
        if idx =? -1 then ret (mkSiblings false INVALID_PAGE_ID INVALID_PAGE_ID idx (-1) (-1) parent)
        else
          do psize <- internal_read parent Internal.GetSize;
          do lval <- internal_read parent (Internal.ValueAt (idx - 1));
          do rval <- internal_read parent (Internal.ValueAt (idx + 1));
          let has_l := 0 <? idx in
          let has_r := idx <? psize - 1 in
          ret (mkSiblings (has_l || has_r)
                 (if has_l then lval else INVALID_PAGE_ID)
                 (if has_r then rval else INVALID_PAGE_ID)
                 idx
                 (if has_l then idx - 1 else -1)
                 (if has_r then idx + 1 else -1)
                 parent)
    end.

(** [BPlusTree::RedistributeLeaf]. *)
Definition RedistributeLeaf (current_leaf sibling_leaf current_idx sibling_idx parent : Z)
    : TM unit :=
  if sibling_idx <? current_idx then
    do ssize <- leaf_read sibling_leaf Leaf.GetSize;
    do borrow_key <- leaf_read sibling_leaf (Leaf.KeyAt (ssize - 1));
    do borrow_val <- leaf_read sibling_leaf (Leaf.ValueAt (ssize - 1));
    leaf_write sibling_leaf (Leaf.RemoveAt (ssize - 1)) ;;
    leaf_write current_leaf (Leaf.Insert borrow_key borrow_val) ;;
    internal_write parent (Internal.SetKeyAt current_idx borrow_key)
  else
    do borrow_key <- leaf_read sibling_leaf (Leaf.KeyAt 0);
    do borrow_val <- leaf_read sibling_leaf (Leaf.ValueAt 0);
    leaf_write sibling_leaf (Leaf.RemoveAt 0) ;;
    leaf_write current_leaf (Leaf.Insert borrow_key borrow_val) ;;
    do first <- leaf_read sibling_leaf (Leaf.KeyAt 0);
    internal_write parent (Internal.SetKeyAt sibling_idx first).

(** [BPlusTree::MergeLeaf].  The bound of each copy loop is the size of the
    page copied from, which the loop does not change: a page is latched once,
    so the two pages differ. *)
Definition MergeLeaf (ctx : Context) (current_leaf sibling_leaf current_idx sibling_idx
    parent current_page_id : Z) : TM unit :=
  if sibling_idx <? current_idx then
    do csize <- leaf_read current_leaf Leaf.GetSize;
    mfor_up 0 csize (λ i,
      do k <- leaf_read current_leaf (Leaf.KeyAt i);
      do v <- leaf_read current_leaf (Leaf.ValueAt i);
      do ssize <- leaf_read sibling_leaf Leaf.GetSize;
      leaf_write sibling_leaf (Leaf.InsertAt ssize k v)) ;;
    do next <- leaf_read current_leaf Leaf.GetNextPageId;
    leaf_write sibling_leaf (Leaf.SetNextPageId next) ;;
    internal_write parent (Internal.RemoveAt current_idx) ;;
    DeletePage ctx current_page_id ;;
    ret tt
  else
    do ssize <- leaf_read sibling_leaf Leaf.GetSize;
    mfor_up 0 ssize (λ i,
      do k <- leaf_read sibling_leaf (Leaf.KeyAt i);
      do v <- leaf_read sibling_leaf (Leaf.ValueAt i);
      do csize <- leaf_read current_leaf Leaf.GetSize;
      leaf_write current_leaf (Leaf.InsertAt csize k v)) ;;
    do sibling_page_id <- leaf_read current_leaf Leaf.GetNextPageId;
    do next <- leaf_read sibling_leaf Leaf.GetNextPageId;
    leaf_write current_leaf (Leaf.SetNextPageId next) ;;
    leaf_write sibling_leaf (Leaf.SetNextPageId INVALID_PAGE_ID) ;;
    internal_write parent (Internal.RemoveAt sibling_idx) ;;
    DeletePage ctx sibling_page_id ;;
    ret tt.

(** [BPlusTree::RedistributeInternal]. *)
Definition RedistributeInternal (current_internal sibling_internal current_idx sibling_idx
    parent : Z) : TM unit :=
  if sibling_idx <? current_idx then
    do ssize <- internal_read sibling_internal Internal.GetSize;
    let borrow_pos := ssize - 1 in
    do borrow_key <- internal_read sibling_internal (Internal.KeyAt borrow_pos);
    do borrow_sub_id <- internal_read sibling_internal (Internal.ValueAt borrow_pos);
    internal_write sibling_internal (Internal.RemoveAt borrow_pos) ;;
    do parent_key <- internal_read parent (Internal.KeyAt current_idx);
    internal_write current_internal (Internal.InsertAt_head parent_key borrow_sub_id) ;;
    do ssize' <- internal_read sibling_internal Internal.GetSize;
    if 1 <? ssize' then internal_write parent (Internal.SetKeyAt current_idx borrow_key)
    else ret tt
  else
    do borrow_key <- internal_read sibling_internal (Internal.KeyAt 1);
    do borrow_sub_id <- internal_read sibling_internal (Internal.ValueAt 0);
    internal_write sibling_internal Internal.RemoveAt_head ;;
    do parent_key <- internal_read parent (Internal.KeyAt sibling_idx);
    do csize <- internal_read current_internal Internal.GetSize;
    internal_write current_internal (Internal.InsertAt csize parent_key borrow_sub_id) ;;
    do ssize' <- internal_read sibling_internal Internal.GetSize;
    if 1 <? ssize' then internal_write parent (Internal.SetKeyAt sibling_idx borrow_key)
    else ret tt.

(** [BPlusTree::MergeInternal]. *)
Definition MergeInternal (ctx : Context) (current_internal sibling_internal current_idx
    sibling_idx parent current_page_id : Z) : TM unit :=
  if sibling_idx <? current_idx then
    do split_key <- internal_read parent (Internal.KeyAt current_idx);
    do first_child <- internal_read current_internal (Internal.ValueAt 0);
    do ssize <- internal_read sibling_internal Internal.GetSize;
    internal_write sibling_internal (Internal.InsertAt ssize split_key first_child) ;;
    do csize <- internal_read current_internal Internal.GetSize;
    mfor_up 1 csize (λ i,
      do k <- internal_read current_internal (Internal.KeyAt i);
      do v <- internal_read current_internal (Internal.ValueAt i);
      do ssize <- internal_read sibling_internal Internal.GetSize;
      internal_write sibling_internal (Internal.InsertAt ssize k v)) ;;
    internal_write parent (Internal.RemoveAt current_idx) ;;
    DeletePage ctx current_page_id ;;
    ret tt
  else
    do split_key <- internal_read parent (Internal.KeyAt sibling_idx);
    do first_child <- internal_read sibling_internal (Internal.ValueAt 0);
    do csize <- internal_read current_internal Internal.GetSize;
    internal_write current_internal (Internal.InsertAt csize split_key first_child) ;;
    do ssize <- internal_read sibling_internal Internal.GetSize;
    mfor_up 1 ssize (λ i,
      do k <- internal_read sibling_internal (Internal.KeyAt i);
      do v <- internal_read sibling_internal (Internal.ValueAt i);
      do csize <- internal_read current_internal Internal.GetSize;
      internal_write current_internal (Internal.InsertAt csize k v)) ;;
    internal_write parent (Internal.RemoveAt sibling_idx) ;;
    match back ctx with
    | Some last_guard => DeletePage ctx last_guard ;; ret tt
    | None => stuck
    end.

(** The guards on the siblings that [HandleLeafUnderflow] and
    [HandleInternalUnderflow] push onto the write set. *)
Definition push_siblings (sib : Siblings) (ctx : Context) : Context :=
  let ctx1 :=
    if sibling_page_id_left sib =? INVALID_PAGE_ID then ctx
    else push_back (sibling_page_id_left sib) ctx in
  if sibling_page_id_right sib =? INVALID_PAGE_ID then ctx1
  else push_back (sibling_page_id_right sib) ctx1.

(** [BPlusTree::HandleInternalUnderflow]. *)
Fixpoint HandleInternalUnderflow (fuel : nat) (t : BPlusTree) (ctx : Context)
    (current_page_id : Z) : TM unit :=
  match fuel with
  | O => stuck
  | S fuel' =>
      match back ctx with
      | None => stuck
      | Some current_internal =>
          if current_page_id =? root_page_id_ ctx then
            do size <- internal_read current_internal Internal.GetSize;
            if size =? 1 then
              do new_root_id <- internal_read current_internal (Internal.ValueAt 0);
              set_root t new_root_id ;;
              DeletePage (ctx_with_root new_root_id ctx) current_page_id ;;
              ret tt
            else ret tt
          else
            do underflow <- internal_read current_internal IsInternalUnderflow;
            if negb underflow then ret tt
            else
              do sib <- FindSibling ctx current_page_id;
              if negb (has_sibling sib) then ret tt
              else
                let ctx1 := push_siblings sib ctx in
                let has_left := negb (sibling_page_id_left sib =? INVALID_PAGE_ID) in
                let has_right := negb (sibling_page_id_right sib =? INVALID_PAGE_ID) in
                do lsize <- (if has_left
                             then internal_read (sibling_page_id_left sib) Internal.GetSize
                             else ret 0);
                do lmax <- (if has_left
                            then internal_read (sibling_page_id_left sib) Internal.GetMaxSize
                            else ret 0);
                do rsize <- (if has_right
                             then internal_read (sibling_page_id_right sib) Internal.GetSize
                             else ret 0);
                do rmax <- (if has_right
                            then internal_read (sibling_page_id_right sib) Internal.GetMaxSize
                            else ret 0);
                if has_left && ((lmax + 1) ÷ 2 <? lsize) then
                  RedistributeInternal current_internal (sibling_page_id_left sib)
                    (current_idx sib) (sibling_idx_left sib) (parent_internal sib)
                else if has_right && ((rmax + 1) ÷ 2 <? rsize) then
                  RedistributeInternal current_internal (sibling_page_id_right sib)
                    (current_idx sib) (sibling_idx_right sib) (parent_internal sib)
                else
                  (if has_left then
                     MergeInternal ctx1 current_internal (sibling_page_id_left sib)
                       (current_idx sib) (sibling_idx_left sib) (parent_internal sib)
                       current_page_id
                   else if has_right then
                     MergeInternal ctx1 current_internal (sibling_page_id_right sib)
                       (current_idx sib) (sibling_idx_right sib) (parent_internal sib)
                       current_page_id
                   else ret tt) ;;
                  let ctx2 := pop_back ctx in
                  match back ctx2 with
                  | None => stuck
                  | Some father => HandleInternalUnderflow fuel' t ctx2 father
                  end
      end
  end.

(** [BPlusTree::HandleLeafUnderflow]. *)
Definition HandleLeafUnderflow (t : BPlusTree) (ctx : Context) (current_page_id : Z)
    : TM unit :=
  match back ctx with
  | None => stuck
  | Some current_leaf =>
      if current_page_id =? root_page_id_ ctx then
        do size <- leaf_read current_leaf Leaf.GetSize;
        if size =? 0 then set_root t INVALID_PAGE_ID else ret tt
      else
        do sib <- FindSibling ctx current_page_id;
        if negb (has_sibling sib) then ret tt
        else
          let ctx1 := push_siblings sib ctx in
          let has_left := negb (sibling_page_id_left sib =? INVALID_PAGE_ID) in
          let has_right := negb (sibling_page_id_right sib =? INVALID_PAGE_ID) in
          do lsize <- (if has_left then leaf_read (sibling_page_id_left sib) Leaf.GetSize
                       else ret 0);
          do lmax <- (if has_left then leaf_read (sibling_page_id_left sib) Leaf.GetMaxSize
                      else ret 0);
          do rsize <- (if has_right then leaf_read (sibling_page_id_right sib) Leaf.GetSize
                       else ret 0);
          do rmax <- (if has_right then leaf_read (sibling_page_id_right sib) Leaf.GetMaxSize
                      else ret 0);
          if has_left && ((lmax + 1) ÷ 2 <? lsize) then
            RedistributeLeaf current_leaf (sibling_page_id_left sib)
              (current_idx sib) (sibling_idx_left sib) (parent_internal sib)
          else if has_right && ((rmax + 1) ÷ 2 <? rsize) then
            RedistributeLeaf current_leaf (sibling_page_id_right sib)
              (current_idx sib) (sibling_idx_right sib) (parent_internal sib)
          else
            (if has_left then
               MergeLeaf ctx1 current_leaf (sibling_page_id_left sib)
                 (current_idx sib) (sibling_idx_left sib) (parent_internal sib) current_page_id
             else
               MergeLeaf ctx1 current_leaf (sibling_page_id_right sib)
                 (current_idx sib) (sibling_idx_right sib) (parent_internal sib)
                 current_page_id) ;;
            let ctx2 := pop_back ctx in
            match back ctx2 with
            | None => stuck
            | Some father =>
                HandleInternalUnderflow (S (length (write_set_ ctx2))) t ctx2 father
            end
  end.

(** [BPlusTree::RemoveFromLeaf]. *)
Definition RemoveFromLeaf (t : BPlusTree) (ctx : Context) (leaf_page_id key : Z) : TM bool :=
  match back ctx with
  | None => stuck
  | Some leaf =>
      do delete_pos <- leaf_read leaf (Leaf.FindFirstGreaterOrEqual key);
      do size <- leaf_read leaf Leaf.GetSize;
      do key_there <- leaf_read leaf (Leaf.KeyAt delete_pos);
      if (size <=? delete_pos) || negb (comparator key_there key =? 0) then ret false
      else
        leaf_write leaf (Leaf.RemoveAt delete_pos) ;;
        do underflow <- leaf_read leaf IsLeafUnderflow;
        (if underflow then HandleLeafUnderflow t ctx leaf_page_id else ret tt) ;;
        ret true
  end.

(** The descent of [Remove_write]. *)
Fixpoint Remove_write_from (fuel : nat) (t : BPlusTree) (ctx : Context)
    (current_page_id key : Z) : TM unit :=
  match fuel with
  | O => stuck
  | S fuel' =>
      do is_leaf <- IsLeafPage current_page_id;
      if is_leaf then RemoveFromLeaf t ctx current_page_id key ;; ret tt
      else
        match back ctx with
        | None => stuck
        | Some internal =>
            do child <- internal_read internal (Internal.FindPage key);
            do size <- internal_read internal Internal.GetSize;
            let ctx1 :=
              if (internal_max_size_ t + 1) ÷ 2 <? size
              then keep_last_write_latch ctx else ctx in
            Remove_write_from fuel' t (push_back child ctx1) child key
        end
  end.

(** [BPlusTree::Remove_write]. *)
Definition Remove_write (fuel : nat) (t : BPlusTree) (key : Z) : TM unit :=
  do root_page_id <- GetRootPageId t;
  let ctx := ctx_with_root root_page_id new_ctx in
  if root_page_id =? INVALID_PAGE_ID then ret tt
  else Remove_write_from fuel t (push_back root_page_id ctx) root_page_id key.

(** The descent of [Remove] under read latches. *)
Fixpoint Remove_from (fuel : nat) (t : BPlusTree) (ctx : Context)
    (current_page_id key : Z) : TM unit :=
  match fuel with
  | O => stuck
  | S fuel' =>
      do is_leaf <- IsLeafPage current_page_id;
      if is_leaf then
        do size <- page_size current_page_id;
        if size <=? (leaf_max_size_ t + 1) ÷ 2 then Remove_write fuel t key
        else RemoveFromLeaf t (push_back current_page_id ctx) current_page_id key ;; ret tt
      else
        do child <- internal_read current_page_id (Internal.FindPage key);
        Remove_from fuel' t ctx child key
  end.

(** [BPlusTree::Remove]. *)
Definition Remove (fuel : nat) (t : BPlusTree) (key : Z) : TM unit :=
  do root_page_id <- GetRootPageId t;
  let ctx := ctx_with_root root_page_id new_ctx in
  if root_page_id =? INVALID_PAGE_ID then ret tt
  else Remove_from fuel t ctx root_page_id key.

End BTree.
(** ** The index iterator (src/storage/index/index_iterator.cpp) and the
       calls of the tree that make one (src/storage/index/b_plus_tree.cpp)

    An iterator is a leaf page id and a slot index; it reaches the page
    through the pool each time it is used.  [index_] is an [int] that stays
    within the slot count of a page; it is a plain integer here. *)

Module BTreeIter.
Import BPage BTree.

Record IndexIterator : Type := mkIter {
  leaf_page_id_ : Z;
  index_ : Z
}.

(** [BPlusTree::End]. *)
Definition End : IndexIterator := mkIter INVALID_PAGE_ID 0.

(** [IndexIterator::IsEnd]. *)
Definition IsEnd (it : IndexIterator) : bool := leaf_page_id_ it =? INVALID_PAGE_ID.

(** [IndexIterator::operator*].  Its own [assert] stops an iterator at the
    end; [KeyAt] and [ValueAt] of the leaf page
    (src/storage/page/b_plus_tree_leaf_page.cpp) start with
    [assert(index >= 0 && index < GetSize())], which stops an iterator whose
    index is not a used slot of its leaf. *)
Definition deref (it : IndexIterator) : TM (Z * Z) :=
  if IsEnd it then stuck
  else
    do size <- leaf_read (leaf_page_id_ it) Leaf.GetSize;
    if (0 <=? index_ it) && (index_ it <? size) then
      do k <- leaf_read (leaf_page_id_ it) (Leaf.KeyAt (index_ it));
      do v <- leaf_read (leaf_page_id_ it) (Leaf.ValueAt (index_ it));
      ret (k, v)
    else stuck.

(** [IndexIterator::operator++]. *)
Definition incr (it : IndexIterator) : TM IndexIterator :=
  if IsEnd it then stuck
  else
    do size <- leaf_read (leaf_page_id_ it) Leaf.GetSize;
    let index := index_ it + 1 in
    if size <=? index then
      do next_page_id <- leaf_read (leaf_page_id_ it) Leaf.GetNextPageId;
      if negb (next_page_id =? INVALID_PAGE_ID) then
        fetch next_page_id ;;
        ret (mkIter next_page_id 0)
      else ret (mkIter INVALID_PAGE_ID 0)
    else ret (mkIter (leaf_page_id_ it) index).

(** [IndexIterator::operator==] and [operator!=]. *)
Definition iter_eq (a b : IndexIterator) : bool :=
  (leaf_page_id_ a =? leaf_page_id_ b) && (index_ a =? index_ b).
Definition iter_ne (a b : IndexIterator) : bool := negb (iter_eq a b).

(** The loop of [BPlusTree::Begin()], from the page [current_page_id] down. *)
Fixpoint Begin_from (fuel : nat) (current_page_id : Z) : TM IndexIterator :=
  match fuel with
  | O => stuck
  | S fuel' =>
      do is_leaf <- IsLeafPage current_page_id;
      if is_leaf then ret (mkIter current_page_id 0)
      else
        do child_page_id <- internal_read current_page_id (Internal.ValueAt 0);
        Begin_from fuel' child_page_id
  end.

(** [BPlusTree::Begin()]. *)
Definition Begin (fuel : nat) (t : BPlusTree) : TM IndexIterator :=
  do empty <- IsEmpty t;
  if empty then ret End
  else
    do current_page_id <- GetRootPageId t;
    Begin_from fuel current_page_id.

(** The loop of [BPlusTree::Begin(key)]. *)
Fixpoint Begin_key_from (fuel : nat) (key current_page_id : Z) : TM IndexIterator :=
  match fuel with
  | O => stuck
  | S fuel' =>
      do is_leaf <- IsLeafPage current_page_id;
      if is_leaf then
        do index <- leaf_read current_page_id (Leaf.FindFirstGreaterOrEqual key);
        ret (mkIter current_page_id index)
      else
        do child_page_id <- internal_read current_page_id (Internal.FindPage key);
        Begin_key_from fuel' key child_page_id
  end.

(** [BPlusTree::Begin(key)]. *)
Definition Begin_key (fuel : nat) (t : BPlusTree) (key : Z) : TM IndexIterator :=
  do empty <- IsEmpty t;
  if empty then ret End
  else
    do current_page_id <- GetRootPageId t;
    Begin_key_from fuel key current_page_id.

(** The loop of the ordered scan in [IndexScanExecutor::Next]
    (src/execution/index_scan_executor.cpp): while the iterator is not at
    the end and the batch is not full, take the record id the iterator
    points to and step.  The tuples looked up under the record ids are left
    out; [fuel] bounds the number of rounds. *)
Fixpoint scan (fuel : nat) (batch_size : Z) (iter_ : IndexIterator) (rid_batch : list Z)
    : TM (list Z * IndexIterator) :=
  match fuel with
  | O => stuck
  | S fuel' =>
      if negb (IsEnd iter_) && (Z.of_nat (length rid_batch) <? batch_size) then
        do e <- deref iter_;
        do iter' <- incr iter_;
        scan fuel' batch_size iter' (rid_batch ++ [e.2])
      else ret (rid_batch, iter_)
  end.

End BTreeIter.
(** ** What the specification says about the replacer *)

Module ArcSpec.
Import Arc.

(** The states a sequence of calls leads to from [ArcReplacer(N)]. *)
Definition reachable (N : Z) (s : ArcReplacer) : Prop :=
  ∃ ops, s = run_ops ops (new N).

(** An operation that only names frame ids of the pool, [0 .. N-1]. *)
Definition pool_frame_op (N : Z) (op : Op) : Prop :=
  ∀ f, op_frame op = Some f → 0 ≤ f < N.

(** The states reached by calls that only name frame ids of the pool. *)
Definition reachable_on_pool_frames (N : Z) (s : ArcReplacer) : Prop :=
  ∃ ops, Forall (pool_frame_op N) ops ∧ s = run_ops ops (new N).

(** The four lists as the specification names them. *)
Definition MRU_list (s : ArcReplacer) : list Z := StdList.values (mru_ s).
Definition MFU_list (s : ArcReplacer) : list Z := StdList.values (mfu_ s).
Definition MRU_GHOST_list (s : ArcReplacer) : list Z := StdList.values (mru_ghost_ s).
Definition MFU_GHOST_list (s : ArcReplacer) : list Z := StdList.values (mfu_ghost_ s).

Definition len (l : list Z) : Z := Z.of_nat (length l).

(** The size bounds of the specification. *)
Definition size_bounds (N : Z) (s : ArcReplacer) : Prop :=
  len (MRU_list s) + len (MRU_GHOST_list s) ≤ N ∧
  len (MRU_list s) + len (MRU_GHOST_list s) + len (MFU_list s) + len (MFU_GHOST_list s)
    ≤ 2 * N.

(** The target the specification gives after a hit in [MRU_GHOST]: [p] grows
    by [max(1, |MFU_GHOST| / |MRU_GHOST|)], the lengths being those at the
    moment of the hit, and is capped at the capacity. *)
Definition spec_target_after_mru_ghost_hit (s : ArcReplacer) : Z :=
  Z.min (mru_target_size_ s +
         Z.max 1 (len (MFU_GHOST_list s) / len (MRU_GHOST_list s)))
        (replacer_size_ s).

(** The step the code takes on a hit in [MRU_GHOST], in terms of the lengths
    at the moment of the hit: the hit entry is not counted. *)
Definition mru_ghost_hit_step (s : ArcReplacer) : Z :=
  Z.max 1 (len (MFU_GHOST_list s) / Z.max (len (MRU_GHOST_list s) - 1) 1).

(** The same for a hit in [MFU_GHOST]. *)
Definition mfu_ghost_hit_step (s : ArcReplacer) : Z :=
  Z.max 1 (len (MRU_GHOST_list s) / Z.max (len (MFU_GHOST_list s) - 1) 1).

(** A list and the map of iterators into it agree: nodes are distinct and
    were allocated, and every stored iterator names a node of the list that
    holds the key it is stored under. *)
Definition list_ok (next : nat) (l : StdList.t) (m : gmap Z nat) : Prop :=
  NoDup (StdList.nodes l) ∧
  (∀ n v, (n, v) ∈ l → (n < next)%nat) ∧
  (∀ k n, m !! k = Some n → (n, k) ∈ l).

(** Every node of a live list is the one its frame's iterator names, and the
    frame's status says which list it is in. *)
Definition live_list_ok (side : ArcStatus) (l : StdList.t) (m : gmap Z nat)
    (alive : gmap Z FrameStatus) : Prop :=
  ∀ n f, (n, f) ∈ l →
    m !! f = Some n ∧ ∃ st, alive !! f = Some st ∧ arc_status_ st = side.

(** The structural invariant of the replacer. *)
Record Inv (s : ArcReplacer) : Prop := mkInv {
  inv_mru : list_ok (next_node_ s) (mru_ s) (mru_iter_map_ s);
  inv_mfu : list_ok (next_node_ s) (mfu_ s) (mfu_iter_map_ s);
  inv_mru_ghost : list_ok (next_node_ s) (mru_ghost_ s) (mru_ghost_iter_map_ s);
  inv_mfu_ghost : list_ok (next_node_ s) (mfu_ghost_ s) (mfu_ghost_iter_map_ s);
  inv_mru_live : live_list_ok MRU (mru_ s) (mru_iter_map_ s) (alive_map_ s);
  inv_mfu_live : live_list_ok MFU (mfu_ s) (mfu_iter_map_ s) (alive_map_ s);
  inv_alive : ∀ f st, alive_map_ s !! f = Some st →
      0 ≤ f ≤ replacer_size_ s ∧
      ((arc_status_ st = MRU ∧ is_Some (mru_iter_map_ s !! f)) ∨
       (arc_status_ st = MFU ∧ is_Some (mfu_iter_map_ s !! f)));
  inv_ghost_mru : ∀ p st, ghost_map_ s !! p = Some st →
      arc_status_ st = MRU_GHOST → is_Some (mru_ghost_iter_map_ s !! p);
  inv_ghost_mfu : ∀ p st, ghost_map_ s !! p = Some st →
      arc_status_ st = MFU_GHOST → is_Some (mfu_ghost_iter_map_ s !! p);
  inv_target : 0 ≤ mru_target_size_ s ≤ replacer_size_ s
}.

(** What [Evict] and [Remove] both do to the frame they take out of the live
    list [side]: the frame leaves its list, its page id goes to the front of
    the ghost list of that side, and [ghost] is recorded for the page. *)
Definition detach (side : ArcStatus) (frame_id : Z) (st ghost : FrameStatus)
    (s : ArcReplacer) : ArcReplacer :=
  let s1 := RemoveFromAliveList frame_id side s in
  let s2 :=
    match side with
    | MRU => push_front_mru_ghost (page_id_ st) s1
    | _ => push_front_mfu_ghost (page_id_ st) s1
    end in
  let s3 := with_ghost_map (<[page_id_ st := ghost]> (ghost_map_ s2)) s2 in
  let s4 := with_alive_map (delete frame_id (alive_map_ s3)) s3 in
  with_curr_size (size_sub (curr_size_ s4) 1) s4.

(** The status [Evict] records for the page of its victim. *)
Definition ghost_status (side : ArcStatus) (frame_id : Z) (st : FrameStatus) : FrameStatus :=
  mkFrameStatus (page_id_ st) frame_id false
    (match side with MRU => MRU_GHOST | _ => MFU_GHOST end).

(** Live frames are frames of the pool. *)
Definition alive_below (N : Z) (s : ArcReplacer) : Prop :=
  ∀ f, is_Some (alive_map_ s !! f) → 0 ≤ f < N.

(** What holds of every state reached on frame ids of the pool. *)
Definition pool_inv (N : Z) (s : ArcReplacer) : Prop :=
  Inv s ∧ replacer_size_ s = N ∧ alive_below N s ∧ size_bounds N s.

(** A run that leaves two pages in MRU_GHOST and three in MFU_GHOST. *)
Definition ghost_hit_ops : list Op :=
  [ OpRecordAccess 0 0; OpRecordAccess 1 1; OpRecordAccess 2 2; OpRecordAccess 3 3;
    OpRecordAccess 4 4; OpRecordAccess 0 0; OpRecordAccess 1 1; OpRecordAccess 2 2;
    OpSetEvictable 0 true; OpSetEvictable 1 true; OpSetEvictable 2 true;
    OpSetEvictable 3 true; OpSetEvictable 4 true;
    OpEvict; OpEvict; OpEvict; OpEvict; OpEvict ].

(** A run that leaves page 0 in MRU_GHOST through [Remove]. *)
Definition removed_page_ops : list Op :=
  [ OpRecordAccess 0 0; OpSetEvictable 0 true; OpRemove 0 ].

(** Two accesses that fill a replacer of capacity 1 with two live frames. *)
Definition overfull_ops : list Op := [OpRecordAccess 0 0; OpRecordAccess 1 1].

End ArcSpec.
(** ** What the specification says about the pool and its guards *)

Module BpmSpec.
Import Bpm.

(** A disk manager that holds no page yet and whose calls all succeed. *)
Definition empty_disk : DiskManager := mkDisk ∅ [].

(** From now on the disk manager raises on I/O for [page_id]. *)
Definition disk_starts_failing (page_id : Z) : M unit :=
  modify (λ b,
    let d := disk_scheduler_ b in
    with_disk_scheduler
      (mkScheduler (mkDisk (pages_ (disk_manager_ d)) (page_id :: failing_ (disk_manager_ d)))
                   (num_workers_ d) (queues_ d) (promises_ d) (next_promise_ d)) b).

(** The page a frame's buffer was last written to on disk as. *)
Definition disk_page (page_id : Z) (b : BufferPoolManager) : option (list Z) :=
  pages_ (disk_manager_ (disk_scheduler_ b)) !! page_id.

(** The requests waiting in the scheduler's queues. *)
Definition queued (b : BufferPoolManager) : list DiskRequest :=
  concat (queues_ (disk_scheduler_ b)).

(** The queue [Schedule] puts a request for [page_id] on. *)
Definition queue_of (page_id : Z) (b : BufferPoolManager) : nat :=
  Z.to_nat ((page_id mod SIZE_MOD) mod num_workers_ (disk_scheduler_ b)).

(** The pool after [Schedule] of a write of frame [fr] as page [page_id]
    under a fresh promise; nothing else changes. *)
Definition with_write_scheduled (fr page_id : Z) (b : BufferPoolManager) : BufferPoolManager :=
  let d := disk_scheduler_ b in
  with_disk_scheduler
    (mkScheduler (disk_manager_ d) (num_workers_ d)
       (alter (λ q, q ++ [mkRequest true fr page_id (Some (next_promise_ d))])
              (queue_of page_id b) (queues_ d))
       (<[next_promise_ d := Pending]> (promises_ d)) (S (next_promise_ d))) b.

(** *** Dropping a guard *)

(** The frame after a drop: the latch released by [release], one pin less. *)
Definition dropped_frame (release : RwLatch → RwLatch) (f : FrameHeader) : FrameHeader :=
  mkFrame (frame_id_ f) (release (rwlatch_ f)) (pin_count_ f - 1) (is_dirty_ f) (data_ f).

Definition release_shared (l : RwLatch) : RwLatch := mkLatch (pred (readers l)) (writer l).
Definition release_exclusive (l : RwLatch) : RwLatch := mkLatch (readers l) false.

(** What a drop of a guard on frame [fr], which was [f] in pool [b], leaves
    in [b']: the frame is [dropped_frame], the other frames are untouched,
    the replacer was told the frame is evictable exactly if no pin is left,
    and nothing else in the pool changed. *)
Definition drop_effect (release : RwLatch → RwLatch) (fr : Z) (f : FrameHeader)
    (b b' : BufferPoolManager) : Prop :=
  frame_at fr b' = Some (dropped_frame release f) ∧
  (∀ i, i ≠ fr → frame_at i b' = frame_at i b) ∧
  Ok (replacer_ b') =
    (if pin_count_ f =? 1 then Arc.SetEvictable fr true (replacer_ b)
     else Ok (replacer_ b)) ∧
  (∀ st, Arc.alive_map_ (replacer_ b) !! fr = Some st →
     Arc.alive_map_ (replacer_ b') !! fr =
       Some (if pin_count_ f =? 1 then Arc.set_evictable true st else st)) ∧
  page_table_ b' = page_table_ b ∧ frame_table_ b' = frame_table_ b ∧
  free_frames_ b' = free_frames_ b ∧ disk_scheduler_ b' = disk_scheduler_ b ∧
  next_page_id_ b' = next_page_id_ b ∧ num_frames_ b' = num_frames_ b.

(** A call that leaves the replacer as it found it, however it ends. *)
Definition keeps_replacer {A} (m : M A) : Prop :=
  ∀ b, replacer_ (m b).2 = replacer_ b.

(** *** Sample runs *)

(** Create a page and pin it for writing. *)
Definition new_pinned_page : M WritePageGuard :=
  do p <- NewPage;
  do g <- CheckedWritePage p;
  match g with
  | Some g => ret g
  | None => throw
  end.

(** The frame of that page in a pool of one frame. *)
Definition pinned_frame : FrameHeader := mkFrame 0 (mkLatch 0 true) 1 false zero_page.

(** Create a page, pin it, drop the guard, delete the page. *)
Definition new_drop_delete : M bool :=
  do g <- new_pinned_page;
  WritePageGuard_Drop g ;;
  DeletePage (w_page_id_ g).

(** The frame of a page that [d] was written to through its write guard. *)
Definition written_frame (d : list Z) : FrameHeader := mkFrame 0 (mkLatch 0 true) 1 true d.

(** Create a page and write [d] to it through a write guard. *)
Definition dirty_page (d : list Z) : M WritePageGuard :=
  do g <- new_pinned_page;
  WritePageGuard_write g d ;;
  ret g.

(** Flush the dirty page through its write guard, let the workers finish,
    and read the dirty flag. *)
Definition write_flush (d : list Z) : M bool :=
  do g <- dirty_page d;
  WritePageGuard_Flush g ;;
  modify run_workers ;;
  WritePageGuard_IsDirty g.

(** Take a read guard on the dirty page, flush through it while the disk
    manager fails for the page, let the workers finish, and read the dirty
    flag. *)
Definition read_flush (d : list Z) : M bool :=
  do g <- dirty_page d;
  WritePageGuard_Drop g ;;
  do r <- CheckedReadPage (w_page_id_ g);
  match r with
  | Some r =>
      disk_starts_failing (r_page_id_ r) ;;
      ReadPageGuard_Flush r ;;
      modify run_workers ;;
      ReadPageGuard_IsDirty r
  | None => throw
  end.

End BpmSpec.
(** ** What the specification says about the B+-tree *)

Module BTreeSpec.
Import BPage BTree.

(** Modelled from the spec: the least size of a non-root page, [⌈(cap+1)/2⌉]. *)
Definition spec_min_size (cap : Z) : Z := (cap + 1 + 1) / 2.

(** The least size the code keeps: [(cap + 1) / 2], that is [⌈cap/2⌉]. *)
Definition code_min_size (cap : Z) : Z := (cap + 1) ÷ 2.

(** Modelled from the spec: the split index [⌈(n+1)/2⌉] for a leaf of [n]
    entries. *)
Definition spec_split_index (n : Z) : Z := (n + 1 + 1) / 2.

(** Strictly ascending keys. *)
Fixpoint ascending (l : list Z) : bool :=
  match l with
  | a :: (b :: _) as rest => (a <? b) && ascending rest
  | _ => true
  end.

(** A bound on keys that may be missing. *)
Definition above (lo : option Z) (k : Z) : bool :=
  match lo with Some l => l <=? k | None => true end.
Definition below (hi : option Z) (k : Z) : bool :=
  match hi with Some h => k <? h | None => true end.
Definition at_most (hi : option Z) (k : Z) : bool :=
  match hi with Some h => k <=? h | None => true end.

Definition leaf_keys (p : LeafPage) : list Z :=
  take (Z.to_nat (l_size_ p)) (l_key_array_ p).

(** A leaf as the tree keeps it: the slot arrays are those of the page
    layout, [size_] slots are in use, and their keys ascend. *)
Definition leaf_ok (p : LeafPage) : bool :=
  (0 <=? l_size_ p) && (l_size_ p <=? LEAF_PAGE_SLOT_CNT) &&
  bool_decide (length (l_key_array_ p) = Z.to_nat LEAF_PAGE_SLOT_CNT) &&
  bool_decide (length (l_rid_array_ p) = Z.to_nat LEAF_PAGE_SLOT_CNT) &&
  ascending (leaf_keys p).

(** An internal page as the tree keeps it: at least one child, and the
    separators in slots [1 .. size_ - 1] ascend. *)
Definition internal_ok (p : InternalPage) : bool :=
  (1 <=? i_size_ p) && (i_size_ p <=? INTERNAL_PAGE_SLOT_CNT) &&
  bool_decide (length (i_key_array_ p) = Z.to_nat INTERNAL_PAGE_SLOT_CNT) &&
  bool_decide (length (i_page_id_array_ p) = Z.to_nat INTERNAL_PAGE_SLOT_CNT) &&
  ascending (Internal.separators p).

(** The keys child [i] of an internal page may hold: from separator [i]
    (or the page's own lower bound for the first child) up to, and not
    including, separator [i + 1] (or the page's own upper bound for the last
    child). *)
Definition child_lo (lo : option Z) (p : InternalPage) (i : Z) : option Z :=
  if i =? 0 then lo else Some (Internal.KeyAt i p).
Definition child_hi (hi : option Z) (p : InternalPage) (i : Z) : option Z :=
  if i =? i_size_ p - 1 then hi else Some (Internal.KeyAt (i + 1) p).

(** The subtree of height [h] under page [id] is a search tree for keys
    between [lo] and [hi]: its leaves hold keys from [lo] up to, and not
    including, [hi], and the separators of its internal pages lie between
    [lo] and [hi] and bound the keys of the children. *)
Fixpoint wf_subtree (h : nat) (s : Pool) (lo hi : option Z) (id : Z) : bool :=
  match h with
  | O =>
      match pages_ s !! id with
      | Some (LeafPg p) =>
          (0 <=? id) && leaf_ok p &&
          forallb (λ k, above lo k && below hi k) (leaf_keys p)
      | _ => false
      end
  | S h' =>
      match pages_ s !! id with
      | Some (InternalPg p) =>
          (0 <=? id) && internal_ok p &&
          forallb (λ k, above lo k && at_most hi k) (Internal.separators p) &&
          forallb (λ i, wf_subtree h' s (child_lo lo p i) (child_hi hi p i)
                          (Internal.ValueAt i p))
                  (seqZ 0 (i_size_ p))
      | _ => false
      end
  end.

(** The entries of the leaves under page [id], left to right. *)
Fixpoint subtree_entries (h : nat) (s : Pool) (id : Z) : list (Z * Z) :=
  match h with
  | O =>
      match pages_ s !! id with
      | Some (LeafPg p) => Leaf.entries p
      | _ => []
      end
  | S h' =>
      match pages_ s !! id with
      | Some (InternalPg p) =>
          concat ((λ i, subtree_entries h' s (Internal.ValueAt i p)) <$> seqZ 0 (i_size_ p))
      | _ => []
      end
  end.

(** The tree [t] in pool [s] is empty, or a search tree of height [h] under
    the root the header page names. *)
Definition wf_tree (t : BPlusTree) (s : Pool) (h : nat) : bool :=
  (0 <=? header_page_id_ t) &&
  match pages_ s !! header_page_id_ t with
  | Some (HeaderPg root) =>
      (root =? INVALID_PAGE_ID) || wf_subtree h s None None root
  | _ => false
  end.

(** The entries the tree holds. *)
Definition tree_entries (t : BPlusTree) (s : Pool) (h : nat) : list (Z * Z) :=
  match pages_ s !! header_page_id_ t with
  | Some (HeaderPg root) =>
      if root =? INVALID_PAGE_ID then [] else subtree_entries h s root
  | _ => []
  end.

(** *** Size bounds across the pool *)

(** The root the header page names. *)
Definition root_of (t : BPlusTree) (s : Pool) : Z :=
  match pages_ s !! header_page_id_ t with
  | Some (HeaderPg root) => root
  | _ => INVALID_PAGE_ID
  end.

(** Page [id] is a leaf or an internal page of the pool. *)
Definition is_leaf (s : Pool) (id : Z) : Prop :=
  0 ≤ id ∧ ∃ p, pages_ s !! id = Some (LeafPg p).
Definition is_internal (s : Pool) (id : Z) : Prop :=
  0 ≤ id ∧ ∃ p, pages_ s !! id = Some (InternalPg p).
Definition tree_page (s : Pool) (id : Z) : Prop := is_leaf s id ∨ is_internal s id.

(** The size of a leaf is within its capacity, which is the tree's, and not
    below the least size unless the leaf is the root. *)
Definition leaf_sizes_ok (t : BPlusTree) (is_root : bool) (p : LeafPage) : Prop :=
  l_max_size_ p = leaf_max_size_ t ∧ 0 ≤ l_size_ p ≤ l_max_size_ p ∧
  (is_root = false → code_min_size (l_max_size_ p) ≤ l_size_ p).

(** The same for the child count of an internal page; besides, its child
    slots are those of the page layout and name pages of the tree. *)
Definition internal_sizes_ok (t : BPlusTree) (s : Pool) (is_root : bool) (p : InternalPage)
    : Prop :=
  i_max_size_ p = internal_max_size_ t ∧ 1 ≤ i_size_ p ≤ i_max_size_ p ∧
  (is_root = false → code_min_size (i_max_size_ p) ≤ i_size_ p) ∧
  length (i_page_id_array_ p) = Z.to_nat INTERNAL_PAGE_SLOT_CNT ∧
  ∀ i, 0 ≤ i < i_size_ p → tree_page s (Internal.ValueAt i p).

(** Every leaf and internal page of the pool other than the root keeps the
    size bounds; page ids are handed out in ascending order. *)
Record sizes_inv (t : BPlusTree) (s : Pool) : Prop := mkSizesInv {
  inv_caps : 1 ≤ leaf_max_size_ t ∧ 2 ≤ internal_max_size_ t < INTERNAL_PAGE_SLOT_CNT;
  inv_header : 0 ≤ header_page_id_ t ∧
               ∃ root, pages_ s !! header_page_id_ t = Some (HeaderPg root) ∧
                       (root = INVALID_PAGE_ID ∨ tree_page s root);
  inv_fresh : ∀ id, is_Some (pages_ s !! id) → 0 ≤ id < next_page_id_ s;
  inv_leaves : ∀ id p, pages_ s !! id = Some (LeafPg p) →
               leaf_sizes_ok t (bool_decide (id = root_of t s)) p;
  inv_internals : ∀ id p, pages_ s !! id = Some (InternalPg p) →
                  internal_sizes_ok t s (bool_decide (id = root_of t s)) p
}.

(** Pool [s'] keeps every leaf a leaf and every internal page an internal
    page. *)
Definition extends (s s' : Pool) : Prop :=
  (∀ id, is_leaf s id → is_leaf s' id) ∧ (∀ id, is_internal s id → is_internal s' id).

(** The write set of a descent that has reached page [cur]: internal pages,
    then [cur]. *)
Definition ctx_ok (s : Pool) (ctx : Context) (cur : Z) : Prop :=
  ∃ front, write_set_ ctx = front ++ [cur] ∧ Forall (is_internal s) front.

(** The capacities the size bounds are proved for: a leaf holds at least
    one entry, an internal page at least two children and fewer than it
    has slots. *)
Definition caps_ok (t : BPlusTree) : Prop :=
  1 ≤ leaf_max_size_ t ∧ 2 ≤ internal_max_size_ t < INTERNAL_PAGE_SLOT_CNT.

(** A pool that holds the header page of [t] and no page of a tree yet;
    its page ids are below the next one to be handed out. *)
Definition no_tree_pages (t : BPlusTree) (s : Pool) : bool :=
  (0 <=? header_page_id_ t) &&
  match pages_ s !! header_page_id_ t with Some (HeaderPg _) => true | _ => false end &&
  forallb (λ e : Z * Page,
             (0 <=? e.1) && (e.1 <? next_page_id_ s) &&
             match e.2 with LeafPg _ | InternalPg _ => false | _ => true end)
          (map_to_list (pages_ s)).

(** The size bounds as the code keeps them: a page other than the root has
    the capacity of its kind and between [code_min_size] of it and all of
    it in use. *)
Definition non_root_sizes (t : BPlusTree) (s : Pool) : Prop :=
  ∀ id, id ≠ root_of t s →
    (∀ p, pages_ s !! id = Some (LeafPg p) →
       l_max_size_ p = leaf_max_size_ t ∧
       code_min_size (leaf_max_size_ t) ≤ l_size_ p ≤ leaf_max_size_ t) ∧
    (∀ p, pages_ s !! id = Some (InternalPg p) →
       i_max_size_ p = internal_max_size_ t ∧
       code_min_size (internal_max_size_ t) ≤ i_size_ p ≤ internal_max_size_ t).

(** [lv] ranks the pages of the pool: a child of an internal page ranks
    below the page, so that a descent from a page of rank [n] is at a leaf
    within [n] steps. *)
Definition levels_ok (lv : Z → nat) (s : Pool) : Prop :=
  ∀ id p, pages_ s !! id = Some (InternalPg p) →
    ∀ i, 0 ≤ i < i_size_ p → (lv (Internal.ValueAt i p) < lv id)%nat.

(** The ranking [lv] with [id] ranked [n]. *)
Definition with_rank (id : Z) (n : nat) (lv : Z → nat) : Z → nat :=
  λ x, if decide (x = id) then n else lv x.

(** Ranks fall along [l]. *)
Fixpoint falling (lv : Z → nat) (l : list Z) : Prop :=
  match l with
  | [] => True
  | a :: l' => Forall (λ b, (lv b < lv a)%nat) l' ∧ falling lv l'
  end.

(** Page [id] is not full. *)
Definition has_room (s : Pool) (id : Z) : Prop :=
  (∃ p, pages_ s !! id = Some (LeafPg p) ∧ l_size_ p < l_max_size_ p) ∨
  (∃ p, pages_ s !! id = Some (InternalPg p) ∧ i_size_ p < i_max_size_ p).

(** The write set of a descent that has reached page [cur], as
    [Insert_write] and [Insert] build it: internal pages of falling rank,
    then [cur]; the first page is the root or a page that is not full. *)
Definition path_ok (lv : Z → nat) (t : BPlusTree) (s : Pool) (ctx : Context) (cur : Z)
    : Prop :=
  ∃ front, write_set_ ctx = front ++ [cur] ∧ Forall (is_internal s) front ∧
           falling lv (front ++ [cur]) ∧
           ∀ h, head (front ++ [cur]) = Some h → h = root_of t s ∨ has_room s h.

(** [lv'] ranks the pages that [s] holds as [lv] does. *)
Definition same_ranks (s : Pool) (lv lv' : Z → nat) : Prop :=
  ∀ id, id < next_page_id_ s → lv' id = lv id.

(** The call whose outcome from pool [s] is [r] returns; the pool it
    leaves keeps the size bounds and has a ranking that agrees with [lv] on
    the pages of [s] and ranks the root at most one above the old one. *)
Definition returns_ranked (t : BPlusTree) (s : Pool) (lv : Z → nat)
    (r : option (bool * Pool)) : Prop :=
  ∃ b s' lv', r = Some (b, s') ∧ sizes_inv t s' ∧ levels_ok lv' s' ∧
              same_ranks s lv lv' ∧ next_page_id_ s ≤ next_page_id_ s' ∧
              (lv' (root_of t s') ≤ S (lv (root_of t s)))%nat.

(** *** A sample tree *)

(** A tree of leaf capacity 4 and child capacity 3 whose header is page 0. *)
Definition sample_tree : BPlusTree := mkTree 0 4 3.

(** A pool that holds just the header page, and never fails to give a page. *)
Definition fresh_pool : Pool := mkPool {[ 0 := HeaderPg INVALID_PAGE_ID ]} 1 [].

(** [Insert(k, 100 + k)] for each [k] of [keys], in order. *)
Definition insert_all (t : BPlusTree) (keys : list Z) (s : Pool) : option Pool :=
  foldl (λ acc k,
           match acc with
           | Some s =>
               match Insert 2 8 t k (100 + k) s with
               | Some (true, s') => Some s'
               | _ => None
               end
           | None => None
           end)
        (Some s) keys.

(** The leaf page the search for [key] ends in, going down [h] levels from
    page [id], with its page id. *)
Fixpoint find_leaf (h : nat) (s : Pool) (id key : Z) : option (Z * LeafPage) :=
  match h with
  | O =>
      match pages_ s !! id with
      | Some (LeafPg p) => Some (id, p)
      | _ => None
      end
  | S h' =>
      match pages_ s !! id with
      | Some (InternalPg p) => find_leaf h' s (Internal.FindPage key p) key
      | _ => None
      end
  end.

(** The pool after inserting 1 .. 5 into the sample tree. *)
Definition sample_pool : Pool :=
  default fresh_pool (insert_all sample_tree [1; 2; 3; 4; 5] fresh_pool).

(** The pool after inserting 1 .. 4: the root, page 1, is a full leaf. *)
Definition full_leaf_pool : Pool :=
  default fresh_pool (insert_all sample_tree [1; 2; 3; 4] fresh_pool).

Definition full_leaf : LeafPage :=
  match pages_ full_leaf_pool !! 1 with
  | Some (LeafPg p) => p
  | _ => zero_leaf
  end.

(** The second leaf of the sample pool, page 2. *)
Definition sample_right_leaf : LeafPage :=
  match pages_ sample_pool !! 2 with
  | Some (LeafPg p) => p
  | _ => zero_leaf
  end.

(** A tree of leaf capacity 2 and child capacity 2, and its pool after
    1 .. 5 went in: the root, page 6, has the children 3 and 5; page 3 has
    the leaves 1 and 2, page 5 the single leaf 4. *)
Definition narrow_tree : BPlusTree := mkTree 0 2 2.
Definition narrow_pool : Pool :=
  default fresh_pool (insert_all narrow_tree [1; 2; 3; 4; 5] fresh_pool).

(** The pool after [Remove(5)] on it. *)
Definition narrow_pool_removed : Pool :=
  match Remove 8 narrow_tree 5 narrow_pool with
  | Some (_, s) => s
  | None => fresh_pool
  end.

End BTreeSpec.
(** ** What the replacer's calls do, in terms of its lists *)

Module ArcProps.
Import Arc ArcSpec.

(** The live frames [Evict] may take. *)
Definition evictable_frames (s : ArcReplacer) : gmap Z FrameStatus :=
  filter (λ e, evictable_ e.2 = true) (alive_map_ s).

Definition evictable_count (s : ArcReplacer) : Z :=
  Z.of_nat (size (evictable_frames s)).

(** No live frame of [l] is evictable. *)
Definition none_evictable (s : ArcReplacer) (l : list Z) : Prop :=
  ∀ f st, f ∈ l → alive_map_ s !! f = Some st → evictable_ st = false.

(** The live list and the ghost list of a side. *)
Definition live_side (side : ArcStatus) (s : ArcReplacer) : list Z :=
  match side with MRU => MRU_list s | _ => MFU_list s end.
Definition ghost_side (side : ArcStatus) (s : ArcReplacer) : list Z :=
  match side with MRU => MRU_GHOST_list s | _ => MFU_GHOST_list s end.
Definition other_side (side : ArcStatus) : ArcStatus :=
  match side with MRU => MFU | _ => MRU end.

(** The side [Evict] scans first: MRU when it is at least as long as the
    target, else MFU. *)
Definition preferred_side (s : ArcReplacer) : ArcStatus :=
  if mru_target_size_ s <=? len (MRU_list s) then MRU else MFU.

(** Four accesses, two frames made evictable. *)
Definition mixed_ops : list Op :=
  [ OpRecordAccess 0 10; OpRecordAccess 1 11; OpRecordAccess 2 12; OpRecordAccess 1 11;
    OpSetEvictable 0 true; OpSetEvictable 1 true ].

End ArcProps.
(** ** What the disk manager keeps *)

Module DiskProps.
Import Disk.

(** The number of slots handed out so far: those in use and those freed. *)
Definition slots (d : DiskManager) : Z :=
  Z.of_nat (size (pages_ d)) + Z.of_nat (length (free_slots_ d)).

(** The offsets in use and the freed ones. *)
Definition offsets (d : DiskManager) : list Z :=
  (map_to_list (pages_ d)).*2 ++ free_slots_ d.

(** What the manager keeps while at most [b] slots were handed out and
    [2 * b] pages fit a file shorter than 2 GiB: the offsets in use and the
    freed ones are distinct multiples of the page size below [slots] pages,
    fewer slots are handed out than [page_capacity_], and the file holds one
    page more than the capacity. *)
Record disk_inv (b : Z) (d : DiskManager) : Prop := mkDiskInv {
  inv_distinct : NoDup (offsets d);
  inv_aligned : ∀ o, o ∈ offsets d → ∃ k, 0 ≤ k < slots d ∧ o = k * BUSTUB_PAGE_SIZE;
  inv_capacity : slots d < page_capacity_ d;
  inv_size : db_size_ d = (page_capacity_ d + 1) * BUSTUB_PAGE_SIZE;
  inv_budget : slots d ≤ b ∧ page_capacity_ d ≤ 2 * b;
  inv_small : (2 * b + 1) * BUSTUB_PAGE_SIZE < 2 ^ 31
}.

(** The manager between [AllocatePage] and the moment the page is recorded;
    [o] is the slot just handed out. *)
Record alloc_inv (b : Z) (o : Z) (d : DiskManager) : Prop := mkAllocInv {
  ai_distinct : NoDup (o :: offsets d);
  ai_aligned : ∀ x, x ∈ o :: offsets d →
               ∃ k, 0 ≤ k < slots d + 1 ∧ x = k * BUSTUB_PAGE_SIZE;
  ai_capacity : slots d + 1 < page_capacity_ d;
  ai_size : db_size_ d = (page_capacity_ d + 1) * BUSTUB_PAGE_SIZE;
  ai_budget : slots d + 1 ≤ b ∧ page_capacity_ d ≤ 2 * b;
  ai_small : (2 * b + 1) * BUSTUB_PAGE_SIZE < 2 ^ 31
}.

(** A run of [ops] on a manager created with [capacity] keeps the file
    shorter than 2 GiB. *)
Definition fits (capacity : Z) (ops : list Op) : Prop :=
  1 ≤ capacity ∧
  (2 * (capacity + Z.of_nat (length ops)) + 1) * BUSTUB_PAGE_SIZE < 2 ^ 31.

(** The states such runs lead to. *)
Definition reachable (capacity : Z) (old : list Z) (d : DiskManager) : Prop :=
  ∃ ops, fits capacity ops ∧ d = run_ops ops (new capacity old).

(** The operation leaves page [page_id] alone. *)
Definition leaves (page_id : Z) (op : Op) : Prop :=
  match op with
  | OpWritePage p _ => p ≠ page_id
  | OpReadPage _ => True
  | OpDeletePage p => p ≠ page_id
  end.

(** The bytes of the file the page at [offset] takes. *)
Definition page_bytes (offset : Z) (d : DiskManager) : list Z := read_at offset d.

(** A page of [n] as every byte. *)
Definition page_of (n : Z) : list Z := replicate (Z.to_nat BUSTUB_PAGE_SIZE) n.

(** A small run: three pages written, one deleted. *)
Definition sample_ops : list Op :=
  [ OpWritePage 7 (page_of 1); OpWritePage 3 (page_of 2); OpWritePage 9 (page_of 3);
    OpDeletePage 3 ].

End DiskProps.

(** ** What the B+-tree keeps along insertions and scans *)

Module BTreeProps.
Import BPage BTree BTreeSpec.

(** The key bounds around the children of an internal page with separators
    [ks] whose own keys lie between [lo] and [hi]: child [i] lies between
    bound [i] and bound [i + 1]. *)
Definition bounds (lo : option Z) (ks : list Z) (hi : option Z) : list (option Z) :=
  lo :: (Some <$> ks) ++ [hi].

(** Every child of [cs] satisfies [wf] between the two bounds around it. *)
Fixpoint kids_in (wf : option Z → option Z → Z → Prop) (bs : list (option Z)) (cs : list Z)
    : Prop :=
  match cs, bs with
  | [], [_] => True
  | c :: cs', l :: ((u :: _) as bs') => wf l u c ∧ kids_in wf bs' cs'
  | _, _ => False
  end.

(** The pages of the subtree of height [h] under page [id]. *)
Fixpoint subtree_pages (h : nat) (s : Pool) (id : Z) : list Z :=
  match h with
  | O => [id]
  | S h' =>
      match pages_ s !! id with
      | Some (InternalPg p) =>
          id :: concat ((λ i, subtree_pages h' s (Internal.ValueAt i p)) <$> seqZ 0 (i_size_ p))
      | _ => [id]
      end
  end.

(** Its leaves, left to right. *)
Fixpoint subtree_leaves (h : nat) (s : Pool) (id : Z) : list Z :=
  match h with
  | O => [id]
  | S h' =>
      match pages_ s !! id with
      | Some (InternalPg p) =>
          concat ((λ i, subtree_leaves h' s (Internal.ValueAt i p)) <$> seqZ 0 (i_size_ p))
      | _ => []
      end
  end.

(** The pages a search for [key] visits from page [id] down. *)
Fixpoint path_pages (h : nat) (s : Pool) (id key : Z) : list Z :=
  match h with
  | O => [id]
  | S h' =>
      match pages_ s !! id with
      | Some (InternalPg p) => id :: path_pages h' s (Internal.FindPage key p) key
      | _ => [id]
      end
  end.

(** The leaves of the tree, left to right. *)
Definition tree_leaves (t : BPlusTree) (s : Pool) (h : nat) : list Z :=
  match pages_ s !! header_page_id_ t with
  | Some (HeaderPg root) =>
      if root =? INVALID_PAGE_ID then [] else subtree_leaves h s root
  | _ => []
  end.

(** [next_page_id_] of the leaf [id]. *)
Definition next_leaf (s : Pool) (id : Z) : Z :=
  match pages_ s !! id with
  | Some (LeafPg p) => l_next_page_id_ p
  | _ => INVALID_PAGE_ID
  end.

(** Each leaf of [ls] names the next one as its successor, the last one
    names [nxt]. *)
Fixpoint linked (s : Pool) (ls : list Z) (nxt : Z) : Prop :=
  match ls with
  | [] => True
  | a :: rest => next_leaf s a = default nxt (head rest) ∧ linked s rest nxt
  end.

(** The leaves of the tree form a chain that ends with [INVALID_PAGE_ID]. *)
Definition chain_ok (t : BPlusTree) (s : Pool) (h : nat) : Prop :=
  linked s (tree_leaves t s h) INVALID_PAGE_ID.

(** [l'] is [l] with [e] put in somewhere. *)
Definition inserted {A} (e : A) (l l' : list A) : Prop :=
  ∃ l1 l2, l = l1 ++ l2 ∧ l' = l1 ++ e :: l2.

(** What [InsertIntoLeaf] and [InsertIntoInternal] go on with after the
    split of page [id], whose write guard is the last of [ctx]: a new root,
    if the page was the root, or else the insertion of [split_key] and the
    new page into the parent. *)
Definition split_upward (t : BPlusTree) (ctx : Context) (id split_key new_id : Z) : TM bool :=
  do root <- GetRootPageId t;
  if id =? root then CreateNewRoot t id split_key new_id ctx
  else
    match back (pop_back ctx) with
    | None => stuck
    | Some father_id =>
        InsertIntoInternal (length (write_set_ ctx)) t (pop_back ctx) father_id
          split_key new_id
    end.

(** Pool [s'] differs from [s] at most in the pages [pgs] and in pages that
    [s] had not handed out. *)
Definition frame_of (pgs : list Z) (s s' : Pool) : Prop :=
  next_page_id_ s ≤ next_page_id_ s' ∧
  ∀ x, x ∉ pgs → x < next_page_id_ s → pages_ s' !! x = pages_ s !! x.

(** The state of a tree the insertion theorems are about: the size bounds
    hold, every [NewPage] to come succeeds, and a leaf at its capacity fits
    the page. *)
Definition insert_ready (t : BPlusTree) (s : Pool) : Prop :=
  sizes_inv t s ∧ new_page_fails_ s = [] ∧ leaf_max_size_ t ≤ LEAF_PAGE_SLOT_CNT.

(** Every leaf other than [ex] holds an entry. *)
Definition leaves_full (s : Pool) (ex : Z) : Prop :=
  ∀ x p, pages_ s !! x = Some (LeafPg p) → x ≠ ex → 1 ≤ l_size_ p.

(** How the leaves under a page change when an entry goes into the leaf
    [target]: the list stays as it is and so does the successor of the
    leaf, or a fresh leaf [n] comes right after it, takes over its
    successor and becomes its successor. *)
Definition leaves_step (s s' : Pool) (target : Z) (ls ls' : list Z) : Prop :=
  ∃ l1 l2, ls = l1 ++ target :: l2 ∧
    ((ls' = ls ∧ next_leaf s' target = next_leaf s target) ∨
     (∃ n, next_page_id_ s ≤ n ∧ ls' = l1 ++ target :: n :: l2 ∧
           next_leaf s' target = n ∧ next_leaf s' n = next_leaf s target)).

(** The outcome [r] of an insertion of [(key, value)] below page [id], a
    search tree of height [h] for keys between [lo] and [hi] in pool [s]:
    the call returned [true], and the subtree is a search tree for the same
    bounds that holds the new entry besides the old ones. *)
Definition insert_done (t : BPlusTree) (key value : Z) (h : nat) (s : Pool)
    (lo hi : option Z) (id : Z) (r : option (bool * Pool)) : Prop :=
  ∃ s', r = Some (true, s') ∧ insert_ready t s' ∧
        frame_of (path_pages h s id key) s s' ∧
        wf_subtree h s' lo hi id = true ∧
        inserted (key, value) (subtree_entries h s id) (subtree_entries h s' id) ∧
        ∃ lid lp, find_leaf h s id key = Some (lid, lp) ∧
                  leaves_step s s' lid (subtree_leaves h s id) (subtree_leaves h s' id).

(** The other outcome: page [id] was split.  It now holds the keys below
    [split_key], the fresh page [new_id] holds the others, and the call goes
    on as [split_upward] from the pool [s1] the split left. *)
Definition insert_split (t : BPlusTree) (key value : Z) (h : nat) (s : Pool)
    (lo hi : option Z) (id : Z) (ctx : Context) (r : option (bool * Pool)) : Prop :=
  ∃ s1 split_key new_id,
    r = split_upward t ctx id split_key new_id s1 ∧ insert_ready t s1 ∧
    frame_of (path_pages h s id key) s s1 ∧
    next_page_id_ s ≤ new_id < next_page_id_ s1 ∧
    (∀ l, lo = Some l → l < split_key) ∧ below hi split_key = true ∧
    wf_subtree h s1 lo (Some split_key) id = true ∧
    wf_subtree h s1 (Some split_key) hi new_id = true ∧
    subtree_entries h s1 id ≠ [] ∧ subtree_entries h s1 new_id ≠ [] ∧
    inserted (key, value) (subtree_entries h s id)
             (subtree_entries h s1 id ++ subtree_entries h s1 new_id) ∧
    (∀ p, pages_ s1 !! id = Some (LeafPg p) → code_min_size (l_max_size_ p) ≤ l_size_ p) ∧
    (∀ p, pages_ s1 !! id = Some (InternalPg p) → code_min_size (i_max_size_ p) ≤ i_size_ p) ∧
    ∃ lid lp, find_leaf h s id key = Some (lid, lp) ∧
              leaves_step s s1 lid (subtree_leaves h s id)
                          (subtree_leaves h s1 id ++ subtree_leaves h s1 new_id).

(** What [Insert] of a key the tree does not hold leaves behind: it returns
    [true]; the tree is a search tree again, of the same height or one level
    higher (of height 0 if it was empty), within the size bounds; its entries
    are the old ones with the new one put in; and the chain of its leaves is
    kept. *)
Definition insert_post (t : BPlusTree) (key value : Z) (h : nat) (s : Pool)
    (r : option (bool * Pool)) : Prop :=
  ∃ s' h', r = Some (true, s') ∧ insert_ready t s' ∧ wf_tree t s' h' = true ∧
           root_of t s' ≠ INVALID_PAGE_ID ∧
           (if root_of t s =? INVALID_PAGE_ID then h' = 0%nat else h' = h ∨ h' = S h) ∧
           inserted (key, value) (tree_entries t s h) (tree_entries t s' h') ∧
           (chain_ok t s h → chain_ok t s' h').

(** The pool after inserting 10, 20, 30, 50 and then 40 into the sample
    tree: the leaf 1 holds 10, 20, 30 and the leaf 2 holds 40, 50. *)
Definition gap_pool : Pool :=
  default fresh_pool (insert_all sample_tree [10; 20; 30; 50; 40] fresh_pool).

(** The first leaf of that pool, page 1. *)
Definition gap_leaf : LeafPage :=
  match pages_ gap_pool !! 1 with
  | Some (LeafPg p) => p
  | _ => zero_leaf
  end.

End BTreeProps.
(** * Properties *)

(** ** Lists with iterators *)

Module StdListFacts.

Lemma elem_of_erase it n v (l : StdList.t) :
  (n, v) ∈ StdList.erase it l ↔ n ≠ it ∧ (n, v) ∈ l.
Proof. unfold StdList.erase. rewrite list_elem_of_filter. simpl. tauto. Qed.

Lemma nodes_erase it (l : StdList.t) :
  StdList.nodes (StdList.erase it l) = filter (λ n, n ≠ it) (StdList.nodes l).
Proof.
  unfold StdList.nodes, StdList.erase.
  induction l as [|[n v] l IH]; [done|].
  rewrite fmap_cons. simpl.
  destruct (decide (n = it)) as [->|Hne].
  - rewrite (filter_cons_False (λ e : nat * Z, e.1 ≠ it)) by (simpl; tauto).
    rewrite (filter_cons_False (λ n : nat, n ≠ it)) by tauto. exact IH.
  - rewrite (filter_cons_True (λ e : nat * Z, e.1 ≠ it)) by (simpl; tauto).
    rewrite (filter_cons_True (λ n : nat, n ≠ it)) by tauto.
    rewrite fmap_cons. simpl. f_equal. exact IH.
Qed.

Lemma NoDup_nodes_erase it (l : StdList.t) :
  NoDup (StdList.nodes l) → NoDup (StdList.nodes (StdList.erase it l)).
Proof. intros H. rewrite nodes_erase. by apply NoDup_filter. Qed.

Lemma length_erase it v (l : StdList.t) :
  NoDup (StdList.nodes l) → (it, v) ∈ l →
  S (length (StdList.erase it l)) = length l.
Proof.
  unfold StdList.nodes, StdList.erase.
  induction l as [|[n w] l IH]; intros Hnd Hin.
  - by apply elem_of_nil in Hin.
  - rewrite fmap_cons in Hnd. apply NoDup_cons in Hnd as [Hn Hnd].
    destruct (decide (n = it)) as [->|Hne].
    + rewrite (filter_cons_False (λ e : nat * Z, e.1 ≠ it)) by (simpl; tauto). simpl. f_equal.
      assert (Hall : filter (λ e : nat * Z, e.1 ≠ it) l = l); [|by rewrite Hall].
      clear IH Hin Hnd. induction l as [|[m u] l IH]; [done|].
      rewrite (filter_cons_True (λ e : nat * Z, e.1 ≠ it)).
      * f_equal. apply IH. intros Hin. apply Hn. rewrite fmap_cons. by right.
      * simpl. intros ->. apply Hn. rewrite fmap_cons. by left.
    + rewrite (filter_cons_True (λ e : nat * Z, e.1 ≠ it)) by (simpl; tauto). simpl. f_equal.
      apply IH; [done|].
      apply elem_of_cons in Hin as [Heq|Hin]; [congruence|done].
Qed.

Lemma length_erase_Z it v (l : StdList.t) :
  NoDup (StdList.nodes l) → (it, v) ∈ l →
  StdList.size (StdList.erase it l) = StdList.size l - 1.
Proof. intros Hnd Hin. unfold StdList.size. rewrite <- (length_erase it v l Hnd Hin). lia. Qed.

Lemma last_removelast {A} (l : list A) x :
  last l = Some x → l = removelast l ++ [x].
Proof.
  intros H. apply last_Some in H as [l' ->].
  by rewrite removelast_last.
Qed.

Lemma elem_of_pop_back e (l : StdList.t) : e ∈ StdList.pop_back l → e ∈ l.
Proof.
  unfold StdList.pop_back. destruct (last l) as [x|] eqn:Hl.
  - rewrite (last_removelast l x Hl) at 2. set_solver.
  - apply last_None in Hl. by subst.
Qed.

Lemma length_pop_back (l : StdList.t) v :
  StdList.back l = Some v → StdList.size (StdList.pop_back l) = StdList.size l - 1.
Proof.
  unfold StdList.back, StdList.pop_back, StdList.size. intros H.
  destruct (last l) as [x|] eqn:Hl; [|done].
  rewrite (last_removelast l x Hl) at 2. rewrite length_app. simpl. lia.
Qed.

Lemma back_None (l : StdList.t) : StdList.back l = None → l = [].
Proof.
  unfold StdList.back. destruct (last l) eqn:Hl; [done|]. intros _. by apply last_None.
Qed.

Lemma values_push_front n v (l : StdList.t) :
  StdList.values (StdList.push_front n v l) = v :: StdList.values l.
Proof. done. Qed.

Lemma values_pop_back (l : StdList.t) :
  StdList.values (StdList.pop_back l) = removelast (StdList.values l).
Proof.
  unfold StdList.values, StdList.pop_back.
  induction l as [|a [|b l] IH]; [done|done|].
  change (removelast (a :: b :: l)) with (a :: removelast (b :: l)).
  rewrite !fmap_cons. rewrite fmap_cons in IH. rewrite IH. done.
Qed.

Lemma size_values (l : StdList.t) : Z.of_nat (length (StdList.values l)) = StdList.size l.
Proof. unfold StdList.values, StdList.size. by rewrite length_fmap. Qed.

End StdListFacts.

(** ** The structural invariant of the replacer *)

Module ArcFacts.
Import Arc ArcSpec StdListFacts.

Lemma nodes_functional (l : StdList.t) n a b :
  NoDup (StdList.nodes l) → (n, a) ∈ l → (n, b) ∈ l → a = b.
Proof.
  unfold StdList.nodes. induction l as [|[m c] l IH]; intros Hnd Ha Hb.
  - by apply elem_of_nil in Ha.
  - rewrite fmap_cons in Hnd. apply NoDup_cons in Hnd as [Hm Hnd]. simpl in Hm.
    apply elem_of_cons in Ha as [Ha|Ha]; apply elem_of_cons in Hb as [Hb|Hb].
    + congruence.
    + inversion Ha; subst. exfalso. apply Hm. apply list_elem_of_fmap. by exists (m, b).
    + inversion Hb; subst. exfalso. apply Hm. apply list_elem_of_fmap. by exists (m, a).
    + by apply IH.
Qed.

Lemma list_ok_mono next next' l m :
  (next ≤ next')%nat → list_ok next l m → list_ok next' l m.
Proof.
  intros Hle (Hnd & Hfresh & Hsound). split; [done|]. split; [|done].
  intros n v Hin. specialize (Hfresh n v Hin). lia.
Qed.

Lemma list_ok_push next l m v :
  list_ok next l m →
  list_ok (S next) (StdList.push_front next v l) (<[v := next]> m).
Proof.
  intros (Hnd & Hfresh & Hsound). unfold StdList.push_front. repeat split.
  - unfold StdList.nodes. rewrite fmap_cons. apply NoDup_cons. split; [|done].
    simpl. intros Hin. apply list_elem_of_fmap in Hin as [[n w] [-> Hin]].
    specialize (Hfresh _ _ Hin). simpl in Hfresh. lia.
  - intros n w Hin. apply elem_of_cons in Hin as [Heq|Hin].
    + inversion Heq. lia.
    + specialize (Hfresh _ _ Hin). lia.
  - intros k n Hk. destruct (decide (v = k)) as [->|Hne].
    + rewrite lookup_insert_eq in Hk. inversion Hk. by left.
    + rewrite lookup_insert_ne in Hk by done. right. by apply Hsound.
Qed.

Lemma list_ok_erase next l m k it :
  list_ok next l m → m !! k = Some it →
  list_ok next (StdList.erase it l) (delete k m).
Proof.
  intros (Hnd & Hfresh & Hsound) Hk. repeat split.
  - by apply NoDup_nodes_erase.
  - intros n v Hin. apply elem_of_erase in Hin as [_ Hin]. eauto.
  - intros k' n Hk'. destruct (decide (k = k')) as [->|Hne].
    + by rewrite lookup_delete_eq in Hk'.
    + rewrite lookup_delete_ne in Hk' by done. apply elem_of_erase. split; [|by apply Hsound].
      intros ->. apply Hne. eapply nodes_functional; eauto.
Qed.

Lemma list_ok_delete next l m k : list_ok next l m → list_ok next l (delete k m).
Proof.
  intros (Hnd & Hfresh & Hsound). repeat split; [done|done|].
  intros k' n Hk'. destruct (decide (k = k')) as [->|Hne].
  - by rewrite lookup_delete_eq in Hk'.
  - rewrite lookup_delete_ne in Hk' by done. by apply Hsound.
Qed.

Lemma list_ok_pop_back next l m v :
  list_ok next l m → StdList.back l = Some v →
  list_ok next (StdList.pop_back l) (delete v m).
Proof.
  intros (Hnd & Hfresh & Hsound) Hback.
  unfold StdList.back in Hback. destruct (last l) as [[n0 v0]|] eqn:Hl; [|done].
  simpl in Hback. inversion Hback; subst v0. clear Hback.
  pose proof (last_removelast l _ Hl) as Hsplit.
  repeat split.
  - unfold StdList.nodes, StdList.pop_back in *. rewrite Hsplit in Hnd.
    rewrite fmap_app in Hnd. by apply NoDup_app in Hnd as [? _].
  - intros n w Hin. apply elem_of_pop_back in Hin. eauto.
  - intros k n Hk. destruct (decide (v = k)) as [->|Hne].
    + by rewrite lookup_delete_eq in Hk.
    + rewrite lookup_delete_ne in Hk by done. apply Hsound in Hk.
      unfold StdList.pop_back. rewrite Hsplit in Hk.
      apply elem_of_app in Hk as [Hk|Hk]; [done|].
      apply list_elem_of_singleton in Hk. congruence.
Qed.

Lemma live_not_in side l m alive f :
  live_list_ok side l m alive →
  (∀ st, alive !! f = Some st → arc_status_ st ≠ side) →
  ∀ n, (n, f) ∉ l.
Proof.
  intros Hlive Hst n Hin. destruct (Hlive n f Hin) as (_ & st & Hal & Hs). by eapply Hst.
Qed.

Lemma live_erase side l m alive alive' it f :
  NoDup (StdList.nodes l) →
  live_list_ok side l m alive → m !! f = Some it →
  (∀ f', f' ≠ f → alive' !! f' = alive !! f') →
  live_list_ok side (StdList.erase it l) (delete f m) alive'.
Proof.
  intros Hnd Hlive Hm Hal n f' Hin. apply elem_of_erase in Hin as [Hne Hin].
  destruct (Hlive n f' Hin) as (Hmf & st & Hst & Hside).
  assert (f' ≠ f) by (intros ->; congruence).
  rewrite lookup_delete_ne by done. rewrite Hal by done. eauto.
Qed.

Lemma live_push side l m alive n f st' :
  live_list_ok side l m alive → (∀ n', (n', f) ∉ l) → arc_status_ st' = side →
  live_list_ok side (StdList.push_front n f l) (<[f := n]> m) (<[f := st']> alive).
Proof.
  intros Hlive Hnot Hside n' f' Hin. apply elem_of_cons in Hin as [Heq|Hin].
  - inversion Heq; subst. rewrite !lookup_insert_eq. eauto.
  - assert (f' ≠ f) by (intros ->; by eapply Hnot).
    rewrite !lookup_insert_ne by done. by apply Hlive.
Qed.

Lemma live_frame side l m alive alive' f :
  live_list_ok side l m alive → (∀ n, (n, f) ∉ l) →
  (∀ f', f' ≠ f → alive' !! f' = alive !! f') →
  live_list_ok side l m alive'.
Proof.
  intros Hlive Hnot Hal n f' Hin.
  assert (f' ≠ f) by (intros ->; by eapply Hnot).
  rewrite Hal by done. by apply Hlive.
Qed.

Lemma live_same_status side l m alive f st st' :
  live_list_ok side l m alive → alive !! f = Some st →
  arc_status_ st' = arc_status_ st →
  live_list_ok side l m (<[f := st']> alive).
Proof.
  intros Hlive Hf Hst n f' Hin. destruct (Hlive n f' Hin) as (Hm & st0 & Hal & Hs).
  split; [done|]. destruct (decide (f' = f)) as [->|Hne].
  - rewrite lookup_insert_eq. eexists; split; [done|]. congruence.
  - rewrite lookup_insert_ne by done. eauto.
Qed.

Lemma Inv_new N : 0 ≤ N → Inv (new N).
Proof.
  intros HN. split; simpl; try (repeat split; [apply NoDup_nil_2 | intros ? ? H; by apply elem_of_nil in H | intros ? ? H; by rewrite lookup_empty in H]);
    try (intros ? ? H; by apply elem_of_nil in H);
    try (intros ? ? H; by rewrite lookup_empty in H).
  lia.
Qed.

Lemma Inv_SetEvictable f b s s' : Inv s → SetEvictable f b s = Ok s' → Inv s'.
Proof.
  intros HI. unfold SetEvictable.
  destruct (invalid_frame f s); [done|].
  destruct (alive_map_ s !! f) as [st|] eqn:Hal; [|by intros [= <-]].
  case_bool_decide; [by intros [= <-]|]. intros [= <-].
  destruct HI. split; simpl; try done.
  - eapply live_same_status; eauto.
  - eapply live_same_status; eauto.
  - intros f' st' H'. destruct (decide (f' = f)) as [->|Hne].
    + rewrite lookup_insert_eq in H'. inversion H'; subst. simpl. eauto.
    + rewrite lookup_insert_ne in H' by done. eauto.
Qed.

Lemma first_evictable_Some alive frames f :
  first_evictable alive frames = Some f →
  f ∈ frames ∧ ∃ st, alive !! f = Some st ∧ evictable_ st = true.
Proof.
  induction frames as [|g frames IH]; simpl; [done|].
  destruct (alive !! g) as [st|] eqn:Hg.
  - destruct (evictable_ st) eqn:He.
    + intros [= <-]. split; [by left|]. eauto.
    + intros H. destruct (IH H) as [? ?]. split; [by right|done].
  - intros H. destruct (IH H) as [? ?]. split; [by right|done].
Qed.

Lemma scan_side_Some side s f :
  scan_side side s = Some f →
  (∃ n, (n, f) ∈ alive_list side s) ∧
  ∃ st, alive_map_ s !! f = Some st ∧ evictable_ st = true.
Proof.
  unfold scan_side. intros H. apply first_evictable_Some in H as [Hin Hst].
  split; [|done]. rewrite elem_of_reverse in Hin. unfold StdList.values in Hin.
  apply list_elem_of_fmap in Hin as [[n g] [-> Hin]]. by exists n.
Qed.

Lemma Inv_detach side f st ghost s :
  Inv s → alive_map_ s !! f = Some st → arc_status_ st = side →
  (arc_status_ ghost = MRU_GHOST → side = MRU) →
  (arc_status_ ghost = MFU_GHOST → side = MFU) →
  Inv (detach side f st ghost s).
Proof.
  intros HI Hal Hside Hg1 Hg2. destruct HI.
  destruct (inv_alive0 f st Hal) as [Hrange [[Hs [it Hit]]|[Hs [it Hit]]]].
  - assert (side = MRU) as -> by congruence.
    unfold detach, RemoveFromAliveList. rewrite Hit.
    split; simpl.
    + eapply list_ok_mono; [|by eapply list_ok_erase]. lia.
    + eapply list_ok_mono; [|done]. lia.
    + by apply list_ok_push.
    + eapply list_ok_mono; [|done]. lia.
    + eapply live_erase; eauto; [by destruct inv_mru0|].
      intros f' Hne. by rewrite lookup_delete_ne.
    + apply (live_frame MFU _ _ (alive_map_ s) _ f); [done| |].
      * apply (live_not_in MFU _ _ (alive_map_ s) f inv_mfu_live0).
        intros st' Hst'. congruence.
      * intros f' Hne. by rewrite lookup_delete_ne.
    + intros f' st' H'. destruct (decide (f' = f)) as [->|Hne].
      { by rewrite lookup_delete_eq in H'. }
      rewrite lookup_delete_ne in H' by done.
      destruct (inv_alive0 f' st' H') as [? [[? ?]|[? ?]]]; split; try done.
      * left. split; [done|]. by rewrite lookup_delete_ne.
      * by right.
    + intros p st' H' Hst'. destruct (decide (p = page_id_ st)) as [->|Hne].
      * rewrite lookup_insert_eq. eauto.
      * rewrite lookup_insert_ne in H' by done. rewrite lookup_insert_ne by done. eauto.
    + intros p st' H' Hst'. destruct (decide (p = page_id_ st)) as [->|Hne].
      * rewrite lookup_insert_eq in H'. inversion H'; subst. specialize (Hg2 Hst'). done.
      * rewrite lookup_insert_ne in H' by done. eauto.
    + done.
  - assert (side = MFU) as -> by congruence.
    unfold detach, RemoveFromAliveList. rewrite Hit.
    split; simpl.
    + eapply list_ok_mono; [|done]. lia.
    + eapply list_ok_mono; [|by eapply list_ok_erase]. lia.
    + eapply list_ok_mono; [|done]. lia.
    + by apply list_ok_push.
    + apply (live_frame MRU _ _ (alive_map_ s) _ f); [done| |].
      * apply (live_not_in MRU _ _ (alive_map_ s) f inv_mru_live0).
        intros st' Hst'. congruence.
      * intros f' Hne. by rewrite lookup_delete_ne.
    + eapply live_erase; eauto; [by destruct inv_mfu0|].
      intros f' Hne. by rewrite lookup_delete_ne.
    + intros f' st' H'. destruct (decide (f' = f)) as [->|Hne].
      { by rewrite lookup_delete_eq in H'. }
      rewrite lookup_delete_ne in H' by done.
      destruct (inv_alive0 f' st' H') as [? [[? ?]|[? ?]]]; split; try done.
      * by left.
      * right. split; [done|]. by rewrite lookup_delete_ne.
    + intros p st' H' Hst'. destruct (decide (p = page_id_ st)) as [->|Hne].
      * rewrite lookup_insert_eq in H'. inversion H'; subst. specialize (Hg1 Hst'). done.
      * rewrite lookup_insert_ne in H' by done. eauto.
    + intros p st' H' Hst'. destruct (decide (p = page_id_ st)) as [->|Hne].
      * rewrite lookup_insert_eq. eauto.
      * rewrite lookup_insert_ne in H' by done. rewrite lookup_insert_ne by done. eauto.
    + done.
Qed.

Lemma alive_map_RemoveFromAliveList f side s :
  alive_map_ (RemoveFromAliveList f side s) = alive_map_ s.
Proof.
  unfold RemoveFromAliveList. destruct side; try done.
  - by destruct (mru_iter_map_ s !! f).
  - by destruct (mfu_iter_map_ s !! f).
Qed.

Lemma scan_side_status side s f :
  Inv s → (side = MRU ∨ side = MFU) → scan_side side s = Some f →
  ∃ st, alive_map_ s !! f = Some st ∧ arc_status_ st = side ∧
        evictable_ st = true ∧ 0 ≤ f.
Proof.
  intros HI Hside H. apply scan_side_Some in H as [[n Hin] (st & Hal & Hev)].
  exists st. destruct HI. destruct (inv_alive0 f st Hal) as [Hr _].
  repeat split; try done; [|lia].
  destruct Hside as [-> | ->]; simpl in Hin.
  - destruct (inv_mru_live0 n f Hin) as (_ & st' & Hst' & ?). congruence.
  - destruct (inv_mfu_live0 n f Hin) as (_ & st' & Hst' & ?). congruence.
Qed.

Lemma Evict_found first second s f st :
  (first = MRU ∨ first = MFU) →
  (second = MRU ∨ second = MFU) →
  alive_map_ s !! f = Some st → 0 ≤ f →
  ∀ side, (side = MRU ∨ side = MFU) →
  (scan_side first s = Some f ∧ side = first) ∨
  (scan_side first s = None ∧ scan_side second s = Some f ∧ side = second) →
  (let acc1 := try_side first (INVALID_FRAME_ID, MRU, s) in
   let acc2 := if acc1.1.1 =? INVALID_FRAME_ID then try_side second acc1 else acc1 in
   acc2) = (f, side, RemoveFromAliveList f side s).
Proof.
  intros H1 H2 Hal Hf side Hside [[Hs ->]|(Hn & Hs & ->)]; cbv zeta; unfold try_side.
  - rewrite Hs. simpl. destruct (f =? INVALID_FRAME_ID) eqn:E; [|done].
    unfold INVALID_FRAME_ID in E. lia.
  - rewrite Hn. simpl. by rewrite Hs.
Qed.

Lemma Evict_cases s :
  Inv s →
  (Evict s = (None, s) ∧ scan_side MRU s = None ∧ scan_side MFU s = None) ∨
  ∃ side f st,
    (side = MRU ∨ side = MFU) ∧ scan_side side s = Some f ∧
    alive_map_ s !! f = Some st ∧ arc_status_ st = side ∧ evictable_ st = true ∧
    Evict s = (Some f, detach side f st (ghost_status side f st) s).
Proof.
  intros HI.
  assert (Hfinish : ∀ first second side f st,
    (first = MRU ∨ first = MFU) → (second = MRU ∨ second = MFU) →
    (side = MRU ∨ side = MFU) →
    alive_map_ s !! f = Some st → 0 ≤ f →
    (scan_side first s = Some f ∧ side = first) ∨
    (scan_side first s = None ∧ scan_side second s = Some f ∧ side = second) →
    (let '(victim, victim_status, s2) :=
       (let acc1 := try_side first (INVALID_FRAME_ID, MRU, s) in
        if acc1.1.1 =? INVALID_FRAME_ID then try_side second acc1 else acc1) in
     if victim =? INVALID_FRAME_ID then (None, s2)
     else
       match alive_map_ s2 !! victim with
       | None => (None, s2)
       | Some status =>
           let page_id := page_id_ status in
           let s3 :=
             match victim_status with
             | MRU =>
                 with_ghost_map
                   (<[page_id := mkFrameStatus page_id victim false MRU_GHOST]>
                      (ghost_map_ (push_front_mru_ghost page_id s2)))
                   (push_front_mru_ghost page_id s2)
             | _ =>
                 with_ghost_map
                   (<[page_id := mkFrameStatus page_id victim false MFU_GHOST]>
                      (ghost_map_ (push_front_mfu_ghost page_id s2)))
                   (push_front_mfu_ghost page_id s2)
             end in
           let s4 := with_alive_map (delete victim (alive_map_ s3)) s3 in
           (Some victim, with_curr_size (size_sub (curr_size_ s4) 1) s4)
       end) = (Some f, detach side f st (ghost_status side f st) s)).
  { intros first second side f st H1 H2 Hside Hal Hf Hcase.
    pose proof (Evict_found first second s f st H1 H2 Hal Hf side Hside Hcase) as Hacc.
    cbv zeta in Hacc. cbv zeta. rewrite Hacc.
    destruct (f =? INVALID_FRAME_ID) eqn:E; [unfold INVALID_FRAME_ID in E; lia|].
    rewrite alive_map_RemoveFromAliveList, Hal.
    destruct Hside as [-> | ->]; reflexivity. }
  assert (Hnone : ∀ first second,
    scan_side first s = None → scan_side second s = None →
    (let '(victim, victim_status, s2) :=
       (let acc1 := try_side first (INVALID_FRAME_ID, MRU, s) in
        if acc1.1.1 =? INVALID_FRAME_ID then try_side second acc1 else acc1) in
     if victim =? INVALID_FRAME_ID then (@None Z, s2) else (None, s2)) = (None, s)).
  { intros first second Hn1 Hn2. simpl. unfold try_side. rewrite Hn1. simpl. by rewrite Hn2. }
  unfold Evict.
  destruct (mru_target_size_ s <=? StdList.size (mru_ s)).
  - destruct (scan_side MRU s) as [f|] eqn:H1.
    + destruct (scan_side_status MRU s f HI (or_introl eq_refl) H1) as (st & Hal & Hst & Hev & Hf).
      right. exists MRU, f, st. repeat split; try done; [by left|].
      apply (Hfinish MRU MFU MRU f st); auto.
    + destruct (scan_side MFU s) as [f|] eqn:H2.
      * destruct (scan_side_status MFU s f HI (or_intror eq_refl) H2) as (st & Hal & Hst & Hev & Hf).
        right. exists MFU, f, st. repeat split; try done; [by right|].
        apply (Hfinish MRU MFU MFU f st); auto.
      * left. split; [|done]. simpl. unfold try_side. rewrite H1. simpl. rewrite H2. done.
  - destruct (scan_side MFU s) as [f|] eqn:H1.
    + destruct (scan_side_status MFU s f HI (or_intror eq_refl) H1) as (st & Hal & Hst & Hev & Hf).
      right. exists MFU, f, st. repeat split; try done; [by right|].
      apply (Hfinish MFU MRU MFU f st); auto.
    + destruct (scan_side MRU s) as [f|] eqn:H2.
      * destruct (scan_side_status MRU s f HI (or_introl eq_refl) H2) as (st & Hal & Hst & Hev & Hf).
        right. exists MRU, f, st. repeat split; try done; [by left|].
        apply (Hfinish MFU MRU MRU f st); auto.
      * left. split; [|done]. simpl. unfold try_side. rewrite H1. simpl. rewrite H2. done.
Qed.

Lemma Inv_Evict s : Inv s → Inv (Evict s).2.
Proof.
  intros HI. destruct (Evict_cases s HI) as [[-> _]|(side & f & st & Hside & _ & Hal & Hst & _ & ->)]; [done|].
  simpl. apply Inv_detach; try done.
  - destruct Hside as [-> | ->]; simpl; [done|discriminate].
  - destruct Hside as [-> | ->]; simpl; [discriminate|done].
Qed.

Lemma Remove_cases f s s' :
  Inv s → Remove f s = Ok s' →
  s' = s ∨ ∃ st, alive_map_ s !! f = Some st ∧ evictable_ st = true ∧
                 s' = detach (arc_status_ st) f st st s.
Proof.
  intros HI. unfold Remove. destruct (invalid_frame f s); [done|].
  destruct (alive_map_ s !! f) as [st|] eqn:Hal; [|intros [= <-]; by left].
  destruct (evictable_ st) eqn:Hev; simpl; [|done].
  intros [= <-]. right. exists st. repeat split; try done.
Qed.

Lemma Inv_Remove f s s' : Inv s → Remove f s = Ok s' → Inv s'.
Proof.
  intros HI H. destruct (Remove_cases f s s' HI H) as [->|(st & Hal & _ & ->)]; [done|].
  apply Inv_detach; try done.
  - destruct HI. destruct (inv_alive0 f st Hal) as [_ [[Hs _]|[Hs _]]]; congruence.
  - destruct HI. destruct (inv_alive0 f st Hal) as [_ [[Hs _]|[Hs _]]]; congruence.
Qed.

Lemma size_add_range a b : 0 ≤ size_add a b < SIZE_MOD.
Proof. unfold size_add, SIZE_MOD. apply Z.mod_pos_bound. lia. Qed.

Lemma size_sub_range a b : 0 ≤ size_sub a b < SIZE_MOD.
Proof. unfold size_sub, SIZE_MOD. apply Z.mod_pos_bound. lia. Qed.

Lemma size_sub_le a b : 0 ≤ b ≤ a → size_sub a b ≤ a.
Proof.
  intros H. unfold size_sub, SIZE_MOD.
  transitivity (a - b); [|lia]. apply Z.mod_le; lia.
Qed.

Lemma invalid_frame_false f s :
  invalid_frame f s = false → 0 ≤ f ≤ replacer_size_ s.
Proof. unfold invalid_frame. intros H. apply orb_false_iff in H as [H1 H2]. lia. Qed.

Lemma Inv_hit f st s :
  Inv s → alive_map_ s !! f = Some st →
  let s1 := RemoveFromAliveList f (arc_status_ st) s in
  let s2 := push_front_mfu f s1 in
  Inv (with_alive_map (<[f := set_arc_status MFU st]> (alive_map_ s2)) s2).
Proof.
  intros HI Hal. destruct HI.
  destruct (inv_alive0 f st Hal) as [Hrange [[Hs [it Hit]]|[Hs [it Hit]]]];
    rewrite Hs; unfold RemoveFromAliveList; rewrite Hit; cbv zeta.
  - split; simpl.
    + eapply list_ok_mono; [|by eapply list_ok_erase]. lia.
    + by apply list_ok_push.
    + eapply list_ok_mono; [|done]. lia.
    + eapply list_ok_mono; [|done]. lia.
    + eapply live_erase; eauto; [by destruct inv_mru0|].
      intros f' Hne. by rewrite lookup_insert_ne.
    + apply live_push; [done| |done].
      apply (live_not_in MFU _ _ (alive_map_ s) f inv_mfu_live0).
      intros st' Hst'. congruence.
    + intros f' st' H'. destruct (decide (f' = f)) as [->|Hne].
      * rewrite lookup_insert_eq in H'. inversion H'; subst. split; [done|].
        right. simpl. split; [done|]. rewrite lookup_insert_eq. eauto.
      * rewrite lookup_insert_ne in H' by done.
        destruct (inv_alive0 f' st' H') as [? [[? ?]|[? ?]]]; split; try done.
        -- left. split; [done|]. by rewrite lookup_delete_ne.
        -- right. split; [done|]. by rewrite lookup_insert_ne.
    + done.
    + done.
    + done.
  - split; simpl.
    + eapply list_ok_mono; [|done]. lia.
    + apply list_ok_push. by eapply list_ok_erase.
    + eapply list_ok_mono; [|done]. lia.
    + eapply list_ok_mono; [|done]. lia.
    + apply (live_frame MRU _ _ (alive_map_ s) _ f); [done| |].
      * apply (live_not_in MRU _ _ (alive_map_ s) f inv_mru_live0).
        intros st' Hst'. congruence.
      * intros f' Hne. by rewrite lookup_insert_ne.
    + apply live_push; [| |done].
      * eapply live_erase; eauto. by destruct inv_mfu0.
      * intros n' Hin. apply elem_of_erase in Hin as [Hne Hin].
        destruct (inv_mfu_live0 n' f Hin) as [Hn' _]. congruence.
    + intros f' st' H'. destruct (decide (f' = f)) as [->|Hne].
      * rewrite lookup_insert_eq in H'. inversion H'; subst. split; [done|].
        right. simpl. split; [done|]. rewrite lookup_insert_eq. eauto.
      * rewrite lookup_insert_ne in H' by done.
        destruct (inv_alive0 f' st' H') as [? [[? ?]|[? ?]]]; split; try done.
        -- by left.
        -- right. split; [done|]. rewrite lookup_insert_ne by done.
           by rewrite lookup_delete_ne.
    + done.
    + done.
    + done.
Qed.

(** Installing a frame that is not live at the front of a live list. *)
Lemma Inv_install side f p s :
  Inv s → alive_map_ s !! f = None → 0 ≤ f ≤ replacer_size_ s →
  (side = MRU ∨ side = MFU) →
  let s2 := match side with MRU => push_front_mru f s | _ => push_front_mfu f s end in
  Inv (with_alive_map (<[f := mkFrameStatus p f false side]> (alive_map_ s2)) s2).
Proof.
  intros HI Hal Hrange Hside. destruct HI.
  assert (Hnot : ∀ sd l m, live_list_ok sd l m (alive_map_ s) → ∀ n, (n, f) ∉ l).
  { intros sd l m Hl. apply (live_not_in sd l m (alive_map_ s) f Hl).
    intros st' Hst'. congruence. }
  destruct Hside as [-> | ->]; cbv zeta; split; simpl.
  - by apply list_ok_push.
  - eapply list_ok_mono; [|done]. lia.
  - eapply list_ok_mono; [|done]. lia.
  - eapply list_ok_mono; [|done]. lia.
  - apply live_push; [done| |done]. by eapply Hnot.
  - apply (live_frame MFU _ _ (alive_map_ s) _ f); [done| |].
    + by eapply Hnot.
    + intros f' Hne. by rewrite lookup_insert_ne.
  - intros f' st' H'. destruct (decide (f' = f)) as [->|Hne].
    + rewrite lookup_insert_eq in H'. inversion H'; subst. split; [done|].
      left. simpl. split; [done|]. rewrite lookup_insert_eq. eauto.
    + rewrite lookup_insert_ne in H' by done.
      destruct (inv_alive0 f' st' H') as [? [[? ?]|[? ?]]]; split; try done.
      * left. split; [done|]. by rewrite lookup_insert_ne.
      * by right.
  - done.
  - done.
  - done.
  - eapply list_ok_mono; [|done]. lia.
  - by apply list_ok_push.
  - eapply list_ok_mono; [|done]. lia.
  - eapply list_ok_mono; [|done]. lia.
  - apply (live_frame MRU _ _ (alive_map_ s) _ f); [done| |].
    + by eapply Hnot.
    + intros f' Hne. by rewrite lookup_insert_ne.
  - apply live_push; [done| |done]. by eapply Hnot.
  - intros f' st' H'. destruct (decide (f' = f)) as [->|Hne].
    + rewrite lookup_insert_eq in H'. inversion H'; subst. split; [done|].
      right. simpl. split; [done|]. rewrite lookup_insert_eq. eauto.
    + rewrite lookup_insert_ne in H' by done.
      destruct (inv_alive0 f' st' H') as [? [[? ?]|[? ?]]]; split; try done.
      * by left.
      * right. split; [done|]. by rewrite lookup_insert_ne.
  - done.
  - done.
  - done.
Qed.

(** A ghost entry dropped from [ghost_map_] keeps the ghost clauses. *)
Lemma ghost_clause_delete (gm : gmap Z FrameStatus) (m : gmap Z nat) side p :
  (∀ q st, gm !! q = Some st → arc_status_ st = side → is_Some (m !! q)) →
  ∀ q st, delete p gm !! q = Some st → arc_status_ st = side →
          is_Some (delete p m !! q) ∧ is_Some (m !! q).
Proof.
  intros H q st Hq Hst. destruct (decide (q = p)) as [->|Hne].
  - by rewrite lookup_delete_eq in Hq.
  - rewrite lookup_delete_ne in Hq by done. rewrite lookup_delete_ne by done. eauto.
Qed.

Lemma Inv_RemoveFromGhostList p side s :
  Inv s → Inv (RemoveFromGhostList p side s).
Proof.
  intros HI. destruct HI. unfold RemoveFromGhostList.
  pose proof (ghost_clause_delete _ _ _ p inv_ghost_mru0) as G1.
  pose proof (ghost_clause_delete _ _ _ p inv_ghost_mfu0) as G2.
  destruct side.
  - split; simpl; try done; intros q st Hq Hst; [by apply (G1 q st)|by apply (G2 q st)].
  - split; simpl; try done; intros q st Hq Hst; [by apply (G1 q st)|by apply (G2 q st)].
  - destruct (mru_ghost_iter_map_ s !! p) as [it|] eqn:Hit.
    + split; simpl; try done; [by eapply list_ok_erase| |];
        intros q st Hq Hst; [by apply (G1 q st)|by apply (G2 q st)].
    + split; simpl; try done; intros q st Hq Hst; [by apply (G1 q st)|by apply (G2 q st)].
  - destruct (mfu_ghost_iter_map_ s !! p) as [it|] eqn:Hit.
    + split; simpl; try done; [by eapply list_ok_erase| |];
        intros q st Hq Hst; [by apply (G1 q st)|by apply (G2 q st)].
    + split; simpl; try done; intros q st Hq Hst; [by apply (G1 q st)|by apply (G2 q st)].
Qed.

Lemma Inv_with_mru_target_size p s :
  Inv s → 0 ≤ p ≤ replacer_size_ s → Inv (with_mru_target_size p s).
Proof. intros HI Hp. destruct HI. by split. Qed.

(** The clean-up that precedes the installation of an unseen page. *)
Lemma Inv_drop_mru_ghost_back s old_page :
  Inv s → StdList.back (mru_ghost_ s) = Some old_page →
  Inv (with_ghost_map (delete old_page (ghost_map_ s))
         (with_mru_ghost (StdList.pop_back (mru_ghost_ s))
                         (delete old_page (mru_ghost_iter_map_ s)) s)).
Proof.
  intros HI Hb. destruct HI.
  pose proof (ghost_clause_delete _ _ _ old_page inv_ghost_mru0) as G1.
  pose proof (ghost_clause_delete _ _ _ old_page inv_ghost_mfu0) as G2.
  split; simpl; try done; [by apply list_ok_pop_back| |];
    intros q st Hq Hst; [by apply (G1 q st)|by apply (G2 q st)].
Qed.

Lemma Inv_drop_mfu_ghost_back s old_page :
  Inv s → StdList.back (mfu_ghost_ s) = Some old_page →
  Inv (with_ghost_map (delete old_page (ghost_map_ s))
         (with_mfu_ghost (StdList.pop_back (mfu_ghost_ s))
                         (delete old_page (mfu_ghost_iter_map_ s)) s)).
Proof.
  intros HI Hb. destruct HI.
  pose proof (ghost_clause_delete _ _ _ old_page inv_ghost_mru0) as G1.
  pose proof (ghost_clause_delete _ _ _ old_page inv_ghost_mfu0) as G2.
  split; simpl; try done; [by apply list_ok_pop_back| |];
    intros q st Hq Hst; [by apply (G1 q st)|by apply (G2 q st)].
Qed.

Lemma RemoveFromGhostList_alive p side s :
  alive_map_ (RemoveFromGhostList p side s) = alive_map_ s ∧
  replacer_size_ (RemoveFromGhostList p side s) = replacer_size_ s ∧
  mru_target_size_ (RemoveFromGhostList p side s) = mru_target_size_ s.
Proof.
  unfold RemoveFromGhostList. destruct side; try done.
  - by destruct (mru_ghost_iter_map_ s !! p).
  - by destruct (mfu_ghost_iter_map_ s !! p).
Qed.

(** The state [RecordAccess_miss] installs the frame into. *)
Lemma miss_cleanup_Inv s :
  Inv s →
  ∃ s1, (∀ f p, RecordAccess_miss f p s =
           with_alive_map (<[f := mkFrameStatus p f false MRU]>
                             (alive_map_ (push_front_mru f s1))) (push_front_mru f s1)) ∧
        Inv s1 ∧ alive_map_ s1 = alive_map_ s ∧ replacer_size_ s1 = replacer_size_ s.
Proof.
  intros HI. unfold RecordAccess_miss. cbv zeta.
  destruct (_ =? replacer_size_ s).
  - destruct (StdList.back (mru_ghost_ s)) as [old|] eqn:Hb.
    + eexists. split; [reflexivity|]. split; [|done]. by apply Inv_drop_mru_ghost_back.
    + eexists. split; [reflexivity|]. done.
  - destruct (_ <=? _).
    + destruct (StdList.back (mfu_ghost_ s)) as [old|] eqn:Hb.
      * eexists. split; [reflexivity|]. split; [|done]. by apply Inv_drop_mfu_ghost_back.
      * eexists. split; [reflexivity|]. done.
    + eexists. split; [reflexivity|]. done.
Qed.

Lemma Inv_RecordAccess_miss f p s :
  Inv s → alive_map_ s !! f = None → 0 ≤ f ≤ replacer_size_ s →
  Inv (RecordAccess_miss f p s).
Proof.
  intros HI Hal Hr. destruct (miss_cleanup_Inv s HI) as (s1 & Heq & HI1 & Ha & Hc).
  rewrite Heq. apply (Inv_install MRU f p s1); [done|congruence|lia|by left].
Qed.

Lemma Ok_inj {A} (a b : A) : Ok a = Ok b → a = b.
Proof. by intros [= ->]. Qed.

Lemma Inv_RecordAccess f p s s' : Inv s → RecordAccess f p s = Ok s' → Inv s'.
Proof.
  intros HI. unfold RecordAccess.
  destruct (invalid_frame f s) eqn:Hinv; [done|].
  apply invalid_frame_false in Hinv.
  destruct (alive_map_ s !! f) as [st|] eqn:Hal.
  { intros [= <-]. by apply Inv_hit. }
  destruct (ghost_map_ s !! p) as [gst|] eqn:Hg;
    [|intros [= <-]; by apply Inv_RecordAccess_miss].
  destruct (arc_status_ gst) eqn:Hgs;
    try (intros [= <-]; by apply Inv_RecordAccess_miss).
  - intros Heq%Ok_inj. subst s'.
    pose proof (Inv_RemoveFromGhostList p MRU_GHOST s HI) as HI1.
    destruct (RemoveFromGhostList_alive p MRU_GHOST s) as (Ha & Hc & Hp).
    set (s1 := RemoveFromGhostList p MRU_GHOST s) in *.
    cbv zeta.
    match goal with |- context [with_mru_target_size ?t s1] => set (target := t) end.
    assert (Ht : 0 ≤ target ≤ replacer_size_ s1).
    { pose proof (inv_target s1 HI1). subst target.
      destruct (_ <=? _);
        match goal with |- context [size_add ?a ?b] => pose proof (size_add_range a b) end; lia. }
    apply (Inv_install MFU f p (with_mru_target_size target s1)).
    + by apply Inv_with_mru_target_size.
    + change (alive_map_ s1 !! f = None). by rewrite Ha.
    + change (0 ≤ f ≤ replacer_size_ s1). lia.
    + by right.
  - intros Heq%Ok_inj. subst s'.
    pose proof (Inv_RemoveFromGhostList p MFU_GHOST s HI) as HI1.
    destruct (RemoveFromGhostList_alive p MFU_GHOST s) as (Ha & Hc & Hp).
    set (s1 := RemoveFromGhostList p MFU_GHOST s) in *.
    cbv zeta.
    match goal with |- context [with_mru_target_size ?t s1] => set (target := t) end.
    assert (Ht : 0 ≤ target ≤ replacer_size_ s1).
    { pose proof (inv_target s1 HI1) as Hp1. subst target.
      destruct (_ <=? _).
      - destruct (0 <? mru_target_size_ s1) eqn:E; [|lia].
        pose proof (size_sub_range (mru_target_size_ s1) 1).
        pose proof (size_sub_le (mru_target_size_ s1) 1). lia.
      - cbv zeta.
        match goal with |- context [?d <? mru_target_size_ s1] =>
          destruct (d <? mru_target_size_ s1) eqn:E;
          [pose proof (size_sub_range (mru_target_size_ s1) d);
           pose proof (size_sub_le (mru_target_size_ s1) d);
           assert (0 ≤ d) by (apply Z.div_pos; unfold StdList.size; lia); lia | lia]
        end. }
    apply (Inv_install MFU f p (with_mru_target_size target s1)).
    + by apply Inv_with_mru_target_size.
    + change (alive_map_ s1 !! f = None). by rewrite Ha.
    + change (0 ≤ f ≤ replacer_size_ s1). lia.
    + by right.
Qed.

Lemma Inv_run_op op s : Inv s → Inv (run_op op s).
Proof.
  intros HI. destruct op as [f p| |f b|f]; simpl.
  - destruct (RecordAccess f p s) eqn:E; try done. by eapply Inv_RecordAccess.
  - by apply Inv_Evict.
  - destruct (SetEvictable f b s) eqn:E; try done. by eapply Inv_SetEvictable.
  - destruct (Remove f s) eqn:E; try done. by eapply Inv_Remove.
Qed.

Lemma Inv_run_ops ops s : Inv s → Inv (run_ops ops s).
Proof.
  unfold run_ops. revert s. induction ops as [|op ops IH]; intros s HI; simpl; [done|].
  apply IH. by apply Inv_run_op.
Qed.

Lemma reachable_Inv N s : 0 ≤ N → reachable N s → Inv s.
Proof. intros HN [ops ->]. apply Inv_run_ops. by apply Inv_new. Qed.

Lemma len_values (l : StdList.t) : len (StdList.values l) = StdList.size l.
Proof. apply size_values. Qed.

Lemma size_push_front n v (l : StdList.t) :
  StdList.size (StdList.push_front n v l) = StdList.size l + 1.
Proof. unfold StdList.size, StdList.push_front. simpl. lia. Qed.

Lemma erase_values it v (l : StdList.t) :
  NoDup (StdList.nodes l) → (it, v) ∈ l →
  ∃ l1 l2, StdList.values l = l1 ++ v :: l2 ∧
           StdList.values (StdList.erase it l) = l1 ++ l2.
Proof.
  unfold StdList.nodes, StdList.values, StdList.erase.
  induction l as [|[n w] l IH]; intros Hnd Hin.
  - by apply elem_of_nil in Hin.
  - rewrite fmap_cons in Hnd. apply NoDup_cons in Hnd as [Hn Hnd]. simpl in Hn.
    destruct (decide (n = it)) as [->|Hne].
    + assert (w = v) as ->.
      { apply elem_of_cons in Hin as [Heq|Hin]; [congruence|].
        exfalso. apply Hn. apply list_elem_of_fmap. by exists (it, v). }
      exists [], (l.*2). split; [done|]. simpl.
      rewrite (filter_cons_False (λ e : nat * Z, e.1 ≠ it)) by (simpl; tauto).
      f_equal. clear IH Hin Hnd. induction l as [|[m u] l IH]; [done|].
      rewrite (filter_cons_True (λ e : nat * Z, e.1 ≠ it)).
      * f_equal. apply IH. intros Hin. apply Hn. rewrite fmap_cons. by right.
      * simpl. intros ->. apply Hn. rewrite fmap_cons. by left.
    + apply elem_of_cons in Hin as [Heq|Hin]; [congruence|].
      destruct (IH Hnd Hin) as (l1 & l2 & H1 & H2).
      exists (w :: l1), l2. split.
      * rewrite fmap_cons. simpl. f_equal. exact H1.
      * rewrite (filter_cons_True (λ e : nat * Z, e.1 ≠ it)) by (simpl; tauto).
        rewrite fmap_cons. simpl. f_equal. exact H2.
Qed.

(** The capacity never changes. *)
Lemma replacer_size_run_op op s : replacer_size_ (run_op op s) = replacer_size_ s.
Proof.
  destruct op as [f p| |f b|f]; simpl.
  - unfold RecordAccess. destruct (invalid_frame f s); [done|].
    destruct (alive_map_ s !! f) as [st|].
    { simpl. unfold RemoveFromAliveList.
      destruct (arc_status_ st); try done.
      - by destruct (mru_iter_map_ s !! f).
      - by destruct (mfu_iter_map_ s !! f). }
    assert (Hm : replacer_size_ (RecordAccess_miss f p s) = replacer_size_ s).
    { unfold RecordAccess_miss. cbv zeta. simpl.
      destruct (_ =? _); [by destruct (StdList.back _)|].
      destruct (_ <=? _); [by destruct (StdList.back _)|done]. }
    destruct (ghost_map_ s !! p) as [gst|]; [|exact Hm].
    destruct (arc_status_ gst); [exact Hm|exact Hm| |]; simpl.
    + by destruct (mru_ghost_iter_map_ s !! p).
    + by destruct (mfu_ghost_iter_map_ s !! p).
  - unfold Evict.
    destruct (_ <=? _); cbv zeta; unfold try_side;
      repeat match goal with
      | |- context [scan_side ?a ?b] => destruct (scan_side a b); simpl
      | |- context [?x =? INVALID_FRAME_ID] => destruct (x =? INVALID_FRAME_ID); simpl
      | |- context [alive_map_ ?a !! ?b] => destruct (alive_map_ a !! b); simpl
      end; try done;
      unfold RemoveFromAliveList;
      repeat match goal with
      | |- context [mru_iter_map_ ?a !! ?b] => destruct (mru_iter_map_ a !! b); simpl
      | |- context [mfu_iter_map_ ?a !! ?b] => destruct (mfu_iter_map_ a !! b); simpl
      end; done.
  - unfold SetEvictable. destruct (invalid_frame f s); [done|].
    destruct (alive_map_ s !! f); [|done]. by case_bool_decide.
  - unfold Remove. destruct (invalid_frame f s); [done|].
    destruct (alive_map_ s !! f) as [st|]; [|done].
    destruct (evictable_ st); simpl; [|done].
    unfold RemoveFromAliveList.
    destruct (arc_status_ st); simpl; try done.
    + by destruct (mru_iter_map_ s !! f).
    + by destruct (mfu_iter_map_ s !! f).
Qed.

Lemma replacer_size_run_ops ops s : replacer_size_ (run_ops ops s) = replacer_size_ s.
Proof.
  unfold run_ops. revert s. induction ops as [|op ops IH]; intros s; simpl; [done|].
  rewrite IH. apply replacer_size_run_op.
Qed.

Lemma reachable_replacer_size N s : reachable N s → replacer_size_ s = N.
Proof. intros [ops ->]. by rewrite replacer_size_run_ops. Qed.

Lemma div_small a b : 0 ≤ a ≤ b → 1 ≤ b → a / b ≤ 1.
Proof. intros Ha Hb. apply Z.div_le_upper_bound; lia. Qed.

Lemma div_big a b : 1 ≤ b ≤ a → 1 ≤ a / b.
Proof. intros H. apply Z.div_le_lower_bound; lia. Qed.

Lemma div_le_self a b : 0 ≤ a → 1 ≤ b → 0 ≤ a / b ≤ a.
Proof.
  intros Ha Hb. split; [apply Z.div_pos; lia|].
  apply Z.div_le_upper_bound; [lia|]. nia.
Qed.

Lemma size_add_small a b : 0 ≤ a → 0 ≤ b → a + b < SIZE_MOD → size_add a b = a + b.
Proof. intros. unfold size_add. apply Z.mod_small. lia. Qed.

Lemma size_sub_small a b : 0 ≤ b ≤ a → a < SIZE_MOD → size_sub a b = a - b.
Proof. intros. unfold size_sub. apply Z.mod_small. lia. Qed.

(** The growth of the target on a hit in MRU_GHOST, from the lengths [m] and
    [g] of MRU_GHOST and MFU_GHOST at the moment of the hit. *)
Lemma grow_target m g p c :
  1 ≤ m → 0 ≤ g → 0 ≤ p ≤ c → c + g + 1 < SIZE_MOD →
  (if g <=? m - 1
   then Z.min (size_add p 1) c
   else Z.min (size_add p (g / Z.max (m - 1) 1)) c)
  = Z.min (p + Z.max 1 (g / Z.max (m - 1) 1)) c.
Proof.
  intros Hm Hg Hp Hc. destruct (g <=? m - 1) eqn:E.
  - apply Z.leb_le in E. rewrite size_add_small by lia.
    assert (g / Z.max (m - 1) 1 ≤ 1).
    { destruct (decide (m - 1 = 0)) as [H0|H0].
      - rewrite H0. simpl. assert (g = 0) as -> by lia. done.
      - rewrite Z.max_l by lia. apply div_small; lia. }
    by rewrite Z.max_l by lia.
  - apply Z.leb_gt in E.
    assert (0 ≤ g / Z.max (m - 1) 1 ≤ g) by (apply div_le_self; lia).
    assert (1 ≤ g / Z.max (m - 1) 1) by (apply div_big; lia).
    set (d := g / Z.max (m - 1) 1) in *.
    rewrite size_add_small by lia. by rewrite Z.max_r by lia.
Qed.

Lemma shrink_target m g p c :
  1 ≤ m → 0 ≤ g → 0 ≤ p ≤ c → c < SIZE_MOD →
  (if g <=? m - 1
   then (if 0 <? p then size_sub p 1 else 0)
   else if g / Z.max (m - 1) 1 <? p then size_sub p (g / Z.max (m - 1) 1) else 0)
  = Z.max 0 (p - Z.max 1 (g / Z.max (m - 1) 1)).
Proof.
  intros Hm Hg Hp Hc. destruct (g <=? m - 1) eqn:E.
  - apply Z.leb_le in E.
    assert (g / Z.max (m - 1) 1 ≤ 1).
    { destruct (decide (m - 1 = 0)) as [H0|H0].
      - rewrite H0. simpl. assert (g = 0) as -> by lia. done.
      - rewrite Z.max_l by lia. apply div_small; lia. }
    rewrite (Z.max_l 1) by lia.
    destruct (0 <? p) eqn:E2; [|lia]. apply Z.ltb_lt in E2.
    rewrite size_sub_small by lia. lia.
  - apply Z.leb_gt in E.
    assert (0 ≤ g / Z.max (m - 1) 1 ≤ g) by (apply div_le_self; lia).
    assert (1 ≤ g / Z.max (m - 1) 1) by (apply div_big; lia).
    set (d := g / Z.max (m - 1) 1) in *.
    rewrite (Z.max_r 1) by lia.
    destruct (_ <? p) eqn:E2; [|apply Z.ltb_ge in E2; lia].
    apply Z.ltb_lt in E2. rewrite size_sub_small by lia. lia.
Qed.

Lemma pigeonhole (l : list Z) N :
  0 ≤ N → NoDup l → (∀ x, x ∈ l → 0 ≤ x < N) → len l ≤ N.
Proof.
  intros HN Hnd Hin. unfold len.
  assert (Hsub : l ⊆+ seqZ 0 N).
  { apply NoDup_submseteq; [done|]. intros x Hx. apply elem_of_seqZ. specialize (Hin x Hx). lia. }
  apply submseteq_length in Hsub. rewrite length_seqZ in Hsub. lia.
Qed.

Lemma live_values_NoDup side l m alive :
  live_list_ok side l m alive → NoDup (StdList.nodes l) → NoDup (StdList.values l).
Proof.
  unfold StdList.nodes, StdList.values.
  induction l as [|[n f] l IH]; intros Hlive Hnd; [constructor|].
  rewrite fmap_cons in Hnd. apply NoDup_cons in Hnd as [Hn Hnd].
  rewrite fmap_cons. apply NoDup_cons. split.
  - simpl. intros Hin. apply list_elem_of_fmap in Hin as [[n' f'] [Heq Hin]].
    simpl in Heq. subst f'.
    destruct (Hlive n f) as [H1 _]; [by left|].
    destruct (Hlive n' f) as [H2 _]; [by right|].
    assert (n' = n) by congruence. subst n'.
    apply Hn. simpl. apply list_elem_of_fmap. by exists (n, f).
  - apply IH; [|done]. intros n' f' Hin. apply Hlive. by right.
Qed.

Lemma live_count N s :
  0 ≤ N → Inv s → alive_below N s → len (MRU_list s) + len (MFU_list s) ≤ N.
Proof.
  intros HN HI Hbelow. destruct HI.
  assert (Hnd : NoDup (MRU_list s ++ MFU_list s)).
  { apply NoDup_app. split; [|split].
    - eapply live_values_NoDup; eauto. by destruct inv_mru0.
    - intros f H1 H2. unfold MRU_list, MFU_list, StdList.values in *.
      apply list_elem_of_fmap in H1 as [[n1 f1] [-> H1]].
      apply list_elem_of_fmap in H2 as [[n2 f2] [Heq H2]]. simpl in Heq. subst f2.
      destruct (inv_mru_live0 _ _ H1) as (_ & st1 & Ha1 & Hs1).
      destruct (inv_mfu_live0 _ _ H2) as (_ & st2 & Ha2 & Hs2).
      simpl in *. congruence.
    - eapply live_values_NoDup; eauto. by destruct inv_mfu0. }
  apply (pigeonhole _ N HN) in Hnd.
  - unfold len in *. rewrite length_app in Hnd. lia.
  - intros f Hin. apply Hbelow. apply elem_of_app in Hin as [Hin|Hin];
      unfold MRU_list, MFU_list, StdList.values in Hin;
      apply list_elem_of_fmap in Hin as [[n f'] [-> Hin]].
    + destruct (inv_mru_live0 _ _ Hin) as (_ & st & Ha & _). by exists st.
    + destruct (inv_mfu_live0 _ _ Hin) as (_ & st & Ha & _). by exists st.
Qed.

(** One more live frame than the pool has is impossible. *)
Lemma live_count_fresh N s f :
  Inv s → alive_below N s → alive_map_ s !! f = None → 0 ≤ f < N →
  len (MRU_list s) + len (MFU_list s) + 1 ≤ N.
Proof.
  intros HI Hbelow Hal Hf. destruct HI.
  assert (Hnd : NoDup (f :: MRU_list s ++ MFU_list s)).
  { apply NoDup_cons. split.
    - intros Hin. apply elem_of_app in Hin as [Hin|Hin];
        unfold MRU_list, MFU_list, StdList.values in Hin;
        apply list_elem_of_fmap in Hin as [[n f'] [Heq Hin]]; simpl in Heq; subst f'.
      + destruct (inv_mru_live0 _ _ Hin) as (_ & st & Ha & _). congruence.
      + destruct (inv_mfu_live0 _ _ Hin) as (_ & st & Ha & _). congruence.
    - apply NoDup_app. split; [|split].
      + eapply live_values_NoDup; eauto. by destruct inv_mru0.
      + intros g H1 H2. unfold MRU_list, MFU_list, StdList.values in *.
        apply list_elem_of_fmap in H1 as [[n1 f1] [-> H1]].
        apply list_elem_of_fmap in H2 as [[n2 f2] [Heq H2]]. simpl in Heq. subst f2.
        destruct (inv_mru_live0 _ _ H1) as (_ & st1 & Ha1 & Hs1).
        destruct (inv_mfu_live0 _ _ H2) as (_ & st2 & Ha2 & Hs2).
        simpl in *. congruence.
      + eapply live_values_NoDup; eauto. by destruct inv_mfu0. }
  apply (pigeonhole _ N) in Hnd; [|lia|].
  - unfold len in *. simpl in Hnd. rewrite length_app in Hnd. lia.
  - intros g Hin. apply elem_of_cons in Hin as [->|Hin]; [done|].
    apply Hbelow. apply elem_of_app in Hin as [Hin|Hin];
      unfold MRU_list, MFU_list, StdList.values in Hin;
      apply list_elem_of_fmap in Hin as [[n f'] [-> Hin]].
    + destruct (inv_mru_live0 _ _ Hin) as (_ & st & Ha & _). by exists st.
    + destruct (inv_mfu_live0 _ _ Hin) as (_ & st & Ha & _). by exists st.
Qed.

Lemma len_removelast (l : list Z) : l ≠ [] → len (removelast l) = len l - 1.
Proof.
  intros Hne. unfold len. destruct (last l) as [x|] eqn:Hl.
  - rewrite (last_removelast l x Hl) at 2. rewrite length_app. simpl. lia.
  - apply last_None in Hl. done.
Qed.

Lemma back_values (l : StdList.t) : StdList.back l = None ↔ StdList.values l = [].
Proof.
  split.
  - intros H. apply back_None in H. by subst.
  - intros H. unfold StdList.values in H. apply fmap_nil_inv in H. by subst.
Qed.

(** What an access that misses every list does to the four lists. *)
Lemma RecordAccess_miss_lists f p s :
  let mru_total := size_add (StdList.size (mru_ s)) (StdList.size (mru_ghost_ s)) in
  let total_all :=
    size_add (size_add mru_total (StdList.size (mfu_ s))) (StdList.size (mfu_ghost_ s)) in
  let s' := RecordAccess_miss f p s in
  MRU_list s' = f :: MRU_list s ∧
  MFU_list s' = MFU_list s ∧
  MRU_GHOST_list s' =
    (if mru_total =? replacer_size_ s then removelast (MRU_GHOST_list s)
     else MRU_GHOST_list s) ∧
  MFU_GHOST_list s' =
    (if mru_total =? replacer_size_ s then MFU_GHOST_list s
     else if size_mul 2 (replacer_size_ s) <=? total_all
          then removelast (MFU_GHOST_list s) else MFU_GHOST_list s) ∧
  alive_map_ s' = <[f := mkFrameStatus p f false MRU]> (alive_map_ s).
Proof.
  cbv zeta. unfold RecordAccess_miss, MRU_list, MFU_list, MRU_GHOST_list, MFU_GHOST_list.
  cbv zeta.
  destruct (_ =? replacer_size_ s).
  - destruct (StdList.back (mru_ghost_ s)) as [old|] eqn:Hb; simpl.
    + by rewrite values_pop_back.
    + apply back_values in Hb. by rewrite Hb.
  - destruct (_ <=? _).
    + destruct (StdList.back (mfu_ghost_ s)) as [old|] eqn:Hb; simpl.
      * by rewrite values_pop_back.
      * apply back_values in Hb. by rewrite Hb.
    + done.
Qed.

Lemma alive_below_insert N s f st :
  alive_below N s → 0 ≤ f < N →
  ∀ g, is_Some (<[f := st]> (alive_map_ s) !! g) → 0 ≤ g < N.
Proof.
  intros Hb Hf g Hg. destruct (decide (g = f)) as [->|Hne]; [done|].
  rewrite lookup_insert_ne in Hg by done. by apply Hb.
Qed.

Lemma pool_inv_miss N s f p :
  0 ≤ N → 2 * N < SIZE_MOD →
  pool_inv N s → alive_map_ s !! f = None → 0 ≤ f < N →
  pool_inv N (RecordAccess_miss f p s).
Proof.
  intros HN HN2 (HI & Hc & Hbelow & Hb1 & Hb2) Hal Hf.
  pose proof (live_count_fresh N s f HI Hbelow Hal Hf) as Hlive.
  destruct (RecordAccess_miss_lists f p s) as (E1 & E2 & E3 & E4 & E5).
  split; [apply Inv_RecordAccess_miss; [done|done|lia]|].
  split. { pose proof (replacer_size_run_op (OpRecordAccess f p) s) as H. simpl in H.
           unfold RecordAccess in H.
           assert (invalid_frame f s = false) as Hv.
           { unfold invalid_frame. apply orb_false_iff. lia. }
           rewrite Hv, Hal in H.
           destruct (ghost_map_ s !! p) as [g|]; [|by rewrite H].
           assert (Hm : replacer_size_ (RecordAccess_miss f p s) = replacer_size_ s).
           { unfold RecordAccess_miss. cbv zeta. simpl.
             destruct (_ =? _); [by destruct (StdList.back _)|].
             destruct (_ <=? _); [by destruct (StdList.back _)|done]. }
           by rewrite Hm. }
  split. { intros g Hg. rewrite E5 in Hg. by eapply alive_below_insert. }
  unfold MRU_list, MFU_list, MRU_GHOST_list, MFU_GHOST_list in *.
  rewrite !len_values in *.
  assert (Hl : ∀ l : StdList.t, 0 ≤ StdList.size l) by (intros; unfold StdList.size; lia).
  pose proof (Hl (mru_ s)). pose proof (Hl (mfu_ s)).
  pose proof (Hl (mru_ghost_ s)). pose proof (Hl (mfu_ghost_ s)).
  rewrite Hc in E3, E4. unfold size_mul in E4.
  rewrite (Z.mod_small (2 * N)) in E4 by lia.
  rewrite (size_add_small (StdList.size (mru_ s)) (StdList.size (mru_ghost_ s)))
    in E3, E4 by lia.
  rewrite (size_add_small _ (StdList.size (mfu_ s))) in E4 by lia.
  rewrite (size_add_small _ (StdList.size (mfu_ghost_ s))) in E4 by lia.
  unfold size_bounds, MRU_list, MFU_list, MRU_GHOST_list, MFU_GHOST_list.
  rewrite E1, E2, E3, E4.
  assert (Hcons : ∀ l, len (f :: l) = len l + 1) by (intros; unfold len; simpl; lia).
  rewrite Hcons, len_values.
  destruct (_ =? N) eqn:E.
  - apply Z.eqb_eq in E.
    destruct (decide (StdList.values (mru_ghost_ s) = [])) as [Hnil|Hnn].
    + exfalso. assert (StdList.size (mru_ghost_ s) = 0).
      { rewrite <- len_values, Hnil. done. } lia.
    + rewrite len_removelast by done. rewrite !len_values. lia.
  - apply Z.eqb_neq in E. destruct (_ <=? _) eqn:E'.
    + apply Z.leb_le in E'.
      destruct (decide (StdList.values (mfu_ghost_ s) = [])) as [Hnil|Hnn].
      * exfalso. assert (StdList.size (mfu_ghost_ s) = 0).
        { rewrite <- len_values, Hnil. done. } lia.
      * rewrite len_removelast by done. rewrite !len_values. lia.
    + apply Z.leb_gt in E'. rewrite !len_values. lia.
Qed.

(** The bounds speak of list lengths only. *)
Lemma size_bounds_sizes N s :
  size_bounds N s ↔
  StdList.size (mru_ s) + StdList.size (mru_ghost_ s) ≤ N ∧
  StdList.size (mru_ s) + StdList.size (mru_ghost_ s) +
  StdList.size (mfu_ s) + StdList.size (mfu_ghost_ s) ≤ 2 * N.
Proof.
  unfold size_bounds, MRU_list, MFU_list, MRU_GHOST_list, MFU_GHOST_list.
  by rewrite !len_values.
Qed.

Lemma size_nonneg (l : StdList.t) : 0 ≤ StdList.size l.
Proof. unfold StdList.size. lia. Qed.

Lemma pool_inv_hit N s f st :
  pool_inv N s → alive_map_ s !! f = Some st →
  let s1 := RemoveFromAliveList f (arc_status_ st) s in
  let s2 := push_front_mfu f s1 in
  pool_inv N (with_alive_map (<[f := set_arc_status MFU st]> (alive_map_ s2)) s2).
Proof.
  intros (HI & Hc & Hbelow & Hb) Hal. cbv zeta.
  split; [by apply Inv_hit|].
  apply size_bounds_sizes in Hb. rewrite size_bounds_sizes.
  destruct (inv_alive s HI f st Hal) as [_ [[Hs [it Hit]]|[Hs [it Hit]]]];
    rewrite Hs; unfold RemoveFromAliveList; rewrite Hit; simpl.
  - destruct (inv_mru s HI) as (Hnd & _ & Hsound).
    pose proof (length_erase_Z it f _ Hnd (Hsound f it Hit)) as Hlen.
    split; [done|]. split.
    + intros g Hg. simpl in Hg. apply Hbelow.
      destruct (decide (g = f)) as [->|Hne]; [by eexists|].
      by rewrite lookup_insert_ne in Hg.
    + rewrite Hlen, size_push_front. pose proof (size_nonneg (mfu_ s)). lia.
  - destruct (inv_mfu s HI) as (Hnd & _ & Hsound).
    pose proof (length_erase_Z it f _ Hnd (Hsound f it Hit)) as Hlen.
    split; [done|]. split.
    + intros g Hg. simpl in Hg. apply Hbelow.
      destruct (decide (g = f)) as [->|Hne]; [by eexists|].
      by rewrite lookup_insert_ne in Hg.
    + rewrite size_push_front, Hlen. lia.
Qed.

Lemma pool_inv_detach N s side f st ghost :
  pool_inv N s → alive_map_ s !! f = Some st → arc_status_ st = side →
  (arc_status_ ghost = MRU_GHOST → side = MRU) →
  (arc_status_ ghost = MFU_GHOST → side = MFU) →
  pool_inv N (detach side f st ghost s).
Proof.
  intros (HI & Hc & Hbelow & Hb) Hal Hside Hg1 Hg2.
  split; [by apply Inv_detach|].
  apply size_bounds_sizes in Hb. rewrite size_bounds_sizes.
  destruct (inv_alive s HI f st Hal) as [_ [[Hs [it Hit]]|[Hs [it Hit]]]].
  - assert (side = MRU) as -> by congruence.
    unfold detach, RemoveFromAliveList. rewrite Hit. simpl.
    destruct (inv_mru s HI) as (Hnd & _ & Hsound).
    pose proof (length_erase_Z it f _ Hnd (Hsound f it Hit)) as Hlen.
    split; [done|]. split.
    + intros g Hg. simpl in Hg. apply Hbelow.
      destruct (decide (g = f)) as [->|Hne]; [by eexists|].
      by rewrite lookup_delete_ne in Hg.
    + rewrite Hlen, size_push_front. lia.
  - assert (side = MFU) as -> by congruence.
    unfold detach, RemoveFromAliveList. rewrite Hit. simpl.
    destruct (inv_mfu s HI) as (Hnd & _ & Hsound).
    pose proof (length_erase_Z it f _ Hnd (Hsound f it Hit)) as Hlen.
    split; [done|]. split.
    + intros g Hg. simpl in Hg. apply Hbelow.
      destruct (decide (g = f)) as [->|Hne]; [by eexists|].
      by rewrite lookup_delete_ne in Hg.
    + rewrite Hlen, size_push_front. lia.
Qed.

Lemma pool_inv_ghost_hit N s f p gst s' :
  pool_inv N s → 0 ≤ f < N → alive_map_ s !! f = None →
  ghost_map_ s !! p = Some gst →
  (arc_status_ gst = MRU_GHOST ∨ arc_status_ gst = MFU_GHOST) →
  RecordAccess f p s = Ok s' → pool_inv N s'.
Proof.
  intros (HI & Hc & Hbelow & Hb) Hf Hal Hg Hst Hrun.
  split; [by eapply Inv_RecordAccess|].
  split. { pose proof (replacer_size_run_op (OpRecordAccess f p) s) as H.
           simpl in H. rewrite Hrun in H. congruence. }
  apply size_bounds_sizes in Hb. rewrite size_bounds_sizes.
  revert Hrun. unfold RecordAccess.
  assert (Hv : invalid_frame f s = false).
  { unfold invalid_frame. apply orb_false_iff. lia. }
  rewrite Hv, Hal, Hg.
  destruct Hst as [Hst|Hst]; rewrite Hst; unfold RemoveFromGhostList.
  - destruct (inv_ghost_mru s HI p gst Hg Hst) as [it Hit]. rewrite Hit.
    destruct (inv_mru_ghost s HI) as (Hnd & _ & Hsound).
    pose proof (length_erase_Z it p _ Hnd (Hsound p it Hit)) as Hlen.
    intros Heq%Ok_inj. subst s'. simpl. split.
    + intros g Hgl. simpl in Hgl. by eapply alive_below_insert.
    + rewrite Hlen, size_push_front. pose proof (size_nonneg (mfu_ s)). lia.
  - destruct (inv_ghost_mfu s HI p gst Hg Hst) as [it Hit]. rewrite Hit.
    destruct (inv_mfu_ghost s HI) as (Hnd & _ & Hsound).
    pose proof (length_erase_Z it p _ Hnd (Hsound p it Hit)) as Hlen.
    intros Heq%Ok_inj. subst s'. simpl. split.
    + intros g Hgl. simpl in Hgl. by eapply alive_below_insert.
    + rewrite Hlen, size_push_front. lia.
Qed.

Lemma pool_inv_run_op N op s :
  0 ≤ N → 2 * N < SIZE_MOD → pool_frame_op N op →
  pool_inv N s → pool_inv N (run_op op s).
Proof.
  intros HN HN2 Hop HP. pose proof HP as (HI & Hc & Hbelow & Hb).
  destruct op as [f p| |f b|f]; simpl.
  - destruct (RecordAccess f p s) as [s'| |] eqn:Hrun; try done.
    assert (Hf : 0 ≤ f < N) by (by apply Hop).
    revert Hrun. unfold RecordAccess.
    destruct (invalid_frame f s) eqn:Hv; [done|].
    destruct (alive_map_ s !! f) as [st|] eqn:Hal.
    { intros Heq%Ok_inj. subst s'. by apply pool_inv_hit. }
    destruct (ghost_map_ s !! p) as [gst|] eqn:Hg;
      [|intros Heq%Ok_inj; subst s'; by apply pool_inv_miss].
    destruct (arc_status_ gst) eqn:Hst;
      try (intros Heq%Ok_inj; subst s'; by apply pool_inv_miss).
    + intros Hrun. apply (pool_inv_ghost_hit N s f p gst s'); try done; [by left|].
      unfold RecordAccess. by rewrite Hv, Hal, Hg, Hst.
    + intros Hrun. apply (pool_inv_ghost_hit N s f p gst s'); try done; [by right|].
      unfold RecordAccess. by rewrite Hv, Hal, Hg, Hst.
  - destruct (Evict_cases s HI) as [[-> _]|(side & f & st & Hside & _ & Hal & Hst & _ & ->)];
      [done|].
    simpl. apply pool_inv_detach; try done.
    + destruct Hside as [-> | ->]; simpl; [done|discriminate].
    + destruct Hside as [-> | ->]; simpl; [discriminate|done].
  - destruct (SetEvictable f b s) as [s'| |] eqn:Hrun; try done.
    split; [by eapply Inv_SetEvictable|].
    revert Hrun. unfold SetEvictable. destruct (invalid_frame f s); [done|].
    destruct (alive_map_ s !! f) as [st|] eqn:Hal; [|by intros [= <-]].
    case_bool_decide; [by intros [= <-]|]. intros [= <-]. simpl.
    split; [done|]. split; [|done].
    intros g Hg. simpl in Hg. apply Hbelow.
    destruct (decide (g = f)) as [->|Hne]; [by eexists|].
    by rewrite lookup_insert_ne in Hg.
  - destruct (Remove f s) as [s'| |] eqn:Hrun; try done.
    destruct (Remove_cases f s s' HI Hrun) as [->|(st & Hal & _ & ->)]; [done|].
    destruct (inv_alive s HI f st Hal) as [_ [[Hs _]|[Hs _]]];
      apply pool_inv_detach; try done; congruence.
Qed.

Lemma pool_inv_new N : 0 ≤ N → pool_inv N (new N).
Proof.
  intros HN. split; [by apply Inv_new|]. split; [done|]. split.
  - intros f [st Hst]. simpl in Hst. by rewrite lookup_empty in Hst.
  - unfold size_bounds. simpl. unfold len. simpl. lia.
Qed.

Lemma reachable_pool_inv N s :
  0 ≤ N → 2 * N < SIZE_MOD → reachable_on_pool_frames N s → pool_inv N s.
Proof.
  intros HN HN2 (ops & Hops & ->). unfold run_ops.
  assert (H : ∀ s0, pool_inv N s0 → pool_inv N (foldl (λ s op, run_op op s) s0 ops)).
  { induction Hops as [|op ops Hop Hops IH]; intros s0 H0; simpl; [done|].
    apply IH. by apply pool_inv_run_op. }
  apply H. by apply pool_inv_new.
Qed.

(** A frame in neither live list is not live; a page in neither ghost list
    is not a ghost. *)
Lemma not_live_not_alive s f :
  Inv s → f ∉ MRU_list s → f ∉ MFU_list s → alive_map_ s !! f = None.
Proof.
  intros HI H1 H2. destruct (alive_map_ s !! f) as [st|] eqn:Hal; [|done].
  exfalso. destruct (inv_alive s HI f st Hal) as [_ [[_ [it Hit]]|[_ [it Hit]]]].
  - apply H1. destruct (inv_mru s HI) as (_ & _ & Hsound).
    unfold MRU_list, StdList.values. apply list_elem_of_fmap. exists (it, f). split; [done|].
    by apply Hsound.
  - apply H2. destruct (inv_mfu s HI) as (_ & _ & Hsound).
    unfold MFU_list, StdList.values. apply list_elem_of_fmap. exists (it, f). split; [done|].
    by apply Hsound.
Qed.

Lemma not_ghost_miss s f p :
  Inv s → invalid_frame f s = false → alive_map_ s !! f = None →
  p ∉ MRU_GHOST_list s → p ∉ MFU_GHOST_list s →
  RecordAccess f p s = Ok (RecordAccess_miss f p s).
Proof.
  intros HI Hv Hal H1 H2. unfold RecordAccess. rewrite Hv, Hal.
  destruct (ghost_map_ s !! p) as [gst|] eqn:Hg; [|done].
  destruct (arc_status_ gst) eqn:Hst; try done; exfalso.
  - destruct (inv_ghost_mru s HI p gst Hg Hst) as [it Hit]. apply H1.
    destruct (inv_mru_ghost s HI) as (_ & _ & Hsound).
    unfold MRU_GHOST_list, StdList.values. apply list_elem_of_fmap. exists (it, p).
    split; [done|]. by apply Hsound.
  - destruct (inv_ghost_mfu s HI p gst Hg Hst) as [it Hit]. apply H2.
    destruct (inv_mfu_ghost s HI) as (_ & _ & Hsound).
    unfold MFU_GHOST_list, StdList.values. apply list_elem_of_fmap. exists (it, p).
    split; [done|]. by apply Hsound.
Qed.

End ArcFacts.
(** * The buffer pool: frames, guards and the replacer it shares *)

Module BpmFacts.
Import Bpm BpmSpec.

(** ** Frames *)

Lemma frame_at_Some fr b f : frame_at fr b = Some f → 0 ≤ fr.
Proof. unfold frame_at. destruct (fr <? 0) eqn:E; [done|]. apply Z.ltb_ge in E. done. Qed.

Lemma frame_at_alter h fr b f :
  frame_at fr b = Some f →
  frame_at fr (with_frames (alter h (Z.to_nat fr) (frames_ b)) b) = Some (h f).
Proof.
  unfold frame_at. destruct (fr <? 0); [done|]. simpl. intros H.
  rewrite list_lookup_alter, decide_True by done. by rewrite H.
Qed.

Lemma frame_at_alter_ne h fr i b :
  0 ≤ fr → i ≠ fr →
  frame_at i (with_frames (alter h (Z.to_nat fr) (frames_ b)) b) = frame_at i b.
Proof.
  intros Hfr Hi. unfold frame_at. destruct (i <? 0) eqn:E; [done|]. apply Z.ltb_ge in E.
  simpl. rewrite list_lookup_alter, decide_False by lia. done.
Qed.

Lemma read_frame_Some {A} fr (field : FrameHeader → A) b f :
  frame_at fr b = Some f → read_frame fr field b = (Returns (field f), b).
Proof. intros H. unfold read_frame, bind, get. by rewrite H. Qed.

Lemma SetEvictable_alive fr v r r' st :
  Arc.SetEvictable fr v r = Ok r' → Arc.alive_map_ r !! fr = Some st →
  Arc.alive_map_ r' !! fr = Some (Arc.set_evictable v st).
Proof.
  unfold Arc.SetEvictable. destruct (Arc.invalid_frame fr r); [done|].
  intros H Hst. rewrite Hst in H. case_bool_decide as E.
  - injection H as <-. rewrite Hst. f_equal. destruct st; simpl in *. by subst.
  - injection H as <-. simpl. by rewrite lookup_insert_eq.
Qed.

Lemma SetEvictable_valid fr v r :
  0 ≤ fr ≤ Arc.replacer_size_ r → ∃ r', Arc.SetEvictable fr v r = Ok r'.
Proof.
  intros H. unfold Arc.SetEvictable.
  assert (Arc.invalid_frame fr r = false) as ->.
  { unfold Arc.invalid_frame. apply orb_false_iff. lia. }
  destruct (Arc.alive_map_ r !! fr); [|by eexists]. case_bool_decide; by eexists.
Qed.

Lemma ReadPageGuard_Drop_effect page_id fr f b :
  frame_at fr b = Some f → frame_id_ f = fr →
  fr ≤ Arc.replacer_size_ (replacer_ b) → 1 ≤ pin_count_ f < SIZE_MOD →
  ∃ b', ReadPageGuard_Drop (mkReadGuard page_id fr true) b =
          (Returns (mkReadGuard page_id fr false), b') ∧
        drop_effect release_shared fr f b b'.
Proof.
  intros Hf Hid Hfr Hpin. pose proof (frame_at_Some _ _ _ Hf) as H0.
  unfold ReadPageGuard_Drop. simpl.
  unfold bind at 1. unfold unlock_shared, update_frame, modify.
  set (b1 := with_frames _ b).
  assert (Hf1 : frame_at fr b1 = Some (frame_with_latch (release_shared (rwlatch_ f)) f)).
  { exact (frame_at_alter (λ f, frame_with_latch (release_shared (rwlatch_ f)) f) _ _ _ Hf). }
  unfold bind at 1. rewrite (read_frame_Some _ _ _ _ Hf1). simpl.
  unfold bind at 1. set (b2 := with_frames _ b1).
  assert (Hf2 : frame_at fr b2 = Some (dropped_frame release_shared f)).
  { unfold b2. rewrite (frame_at_alter _ _ _ _ Hf1). f_equal. unfold dropped_frame. simpl.
    f_equal. unfold size_sub. rewrite Z.mod_small by lia. done. }
  unfold bind at 1. rewrite (read_frame_Some _ _ _ _ Hf2). simpl.
  assert (Hothers : ∀ i, i ≠ fr → frame_at i b2 = frame_at i b).
  { intros i Hi. unfold b2. rewrite frame_at_alter_ne by done.
    unfold b1. by rewrite frame_at_alter_ne. }
  destruct (pin_count_ f - 1 =? 0) eqn:E.
  - apply Z.eqb_eq in E. assert ((pin_count_ f =? 1) = true) as E1 by (apply Z.eqb_eq; lia).
    unfold bind at 1. unfold bind at 1. rewrite (read_frame_Some _ _ _ _ Hf2). simpl.
    rewrite Hid. unfold replacer_call, bind, get.
    destruct (SetEvictable_valid fr true (replacer_ b2)) as [r' Hr']; [simpl; lia|].
    rewrite Hr'. simpl. eexists. split; [reflexivity|].
    unfold drop_effect. rewrite E1.
    split; [exact Hf2|]. split; [exact Hothers|]. split; [symmetry; exact Hr'|].
    split; [|done]. intros st Hst. exact (SetEvictable_alive _ _ _ _ _ Hr' Hst).
  - apply Z.eqb_neq in E. assert ((pin_count_ f =? 1) = false) as E1 by (apply Z.eqb_neq; lia).
    unfold bind, ret. simpl. eexists. split; [reflexivity|].
    unfold drop_effect. rewrite E1. repeat split; try done.
Qed.

Lemma WritePageGuard_Drop_effect page_id fr f b :
  frame_at fr b = Some f → frame_id_ f = fr →
  fr ≤ Arc.replacer_size_ (replacer_ b) → 1 ≤ pin_count_ f < SIZE_MOD →
  ∃ b', WritePageGuard_Drop (mkWriteGuard page_id fr true) b =
          (Returns (mkWriteGuard page_id fr false), b') ∧
        drop_effect release_exclusive fr f b b'.
Proof.
  intros Hf Hid Hfr Hpin. pose proof (frame_at_Some _ _ _ Hf) as H0.
  unfold WritePageGuard_Drop. simpl.
  unfold bind at 1. unfold unlock, update_frame, modify.
  set (b1 := with_frames _ b).
  assert (Hf1 : frame_at fr b1 = Some (frame_with_latch (release_exclusive (rwlatch_ f)) f)).
  { exact (frame_at_alter (λ f, frame_with_latch (release_exclusive (rwlatch_ f)) f) _ _ _ Hf). }
  unfold bind at 1. rewrite (read_frame_Some _ _ _ _ Hf1). simpl.
  unfold bind at 1. set (b2 := with_frames _ b1).
  assert (Hf2 : frame_at fr b2 = Some (dropped_frame release_exclusive f)).
  { unfold b2. rewrite (frame_at_alter _ _ _ _ Hf1). f_equal. unfold dropped_frame. simpl.
    f_equal. unfold size_sub. rewrite Z.mod_small by lia. done. }
  unfold bind at 1. rewrite (read_frame_Some _ _ _ _ Hf2). simpl.
  assert (Hothers : ∀ i, i ≠ fr → frame_at i b2 = frame_at i b).
  { intros i Hi. unfold b2. rewrite frame_at_alter_ne by done.
    unfold b1. by rewrite frame_at_alter_ne. }
  destruct (pin_count_ f - 1 =? 0) eqn:E.
  - apply Z.eqb_eq in E. assert ((pin_count_ f =? 1) = true) as E1 by (apply Z.eqb_eq; lia).
    unfold bind at 1. unfold bind at 1. rewrite (read_frame_Some _ _ _ _ Hf2). simpl.
    rewrite Hid. unfold replacer_call, bind, get.
    destruct (SetEvictable_valid fr true (replacer_ b2)) as [r' Hr']; [simpl; lia|].
    rewrite Hr'. simpl. eexists. split; [reflexivity|].
    unfold drop_effect. rewrite E1.
    split; [exact Hf2|]. split; [exact Hothers|]. split; [symmetry; exact Hr'|].
    split; [|done]. intros st Hst. exact (SetEvictable_alive _ _ _ _ _ Hr' Hst).
  - apply Z.eqb_neq in E. assert ((pin_count_ f =? 1) = false) as E1 by (apply Z.eqb_neq; lia).
    unfold bind, ret. simpl. eexists. split; [reflexivity|].
    unfold drop_effect. rewrite E1. repeat split; try done.
Qed.

(** ** Calls that do not touch the replacer *)

Lemma keeps_ret {A} (a : A) : keeps_replacer (ret a).
Proof. done. Qed.
Lemma keeps_get : keeps_replacer get.
Proof. done. Qed.
Lemma keeps_throw {A} : keeps_replacer (@throw A).
Proof. done. Qed.
Lemma keeps_block {A} : keeps_replacer (@block A).
Proof. done. Qed.
Lemma keeps_modify h : (∀ b, replacer_ (h b) = replacer_ b) → keeps_replacer (modify h).
Proof. intros H b. apply H. Qed.
Lemma keeps_bind {A B} (m : M A) (k : A → M B) :
  keeps_replacer m → (∀ a, keeps_replacer (k a)) → keeps_replacer (bind m k).
Proof.
  intros Hm Hk b. unfold bind. specialize (Hm b). destruct (m b) as [[a| |] b']; simpl in *.
  - by rewrite Hk.
  - done.
  - done.
Qed.
Lemma keeps_try_catch {A} (m h : M A) :
  keeps_replacer m → keeps_replacer h → keeps_replacer (try_catch m h).
Proof.
  intros Hm Hh b. unfold try_catch. specialize (Hm b). destruct (m b) as [[a| |] b']; simpl in *.
  - done.
  - by rewrite Hh.
  - done.
Qed.
Lemma keeps_read_frame {A} fr (field : FrameHeader → A) : keeps_replacer (read_frame fr field).
Proof.
  unfold read_frame. apply keeps_bind; [apply keeps_get|]. intros b.
  destruct (frame_at fr b); [apply keeps_ret|apply keeps_throw].
Qed.
Lemma keeps_update_frame fr h : keeps_replacer (update_frame fr h).
Proof. by apply keeps_modify. Qed.

Lemma replacer_serve req b : replacer_ (serve req b) = replacer_ b.
Proof.
  unfold serve. case_bool_decide; [done|]. destruct (is_write_ req); [|done].
  by destruct (frame_at (req_data_ req) b).
Qed.
Lemma replacer_run_workers b : replacer_ (run_workers b) = replacer_ b.
Proof.
  unfold run_workers. set (b1 := with_disk_scheduler _ b).
  change (replacer_ b) with (replacer_ b1). generalize b1.
  induction (concat _) as [|req l IH]; intros b'; simpl; [done|].
  rewrite IH. apply replacer_serve.
Qed.
Lemma keeps_future_get p : keeps_replacer (future_get p).
Proof.
  unfold future_get. apply keeps_bind; [apply keeps_modify, replacer_run_workers|]. intros _.
  apply keeps_bind; [apply keeps_get|]. intros b.
  destruct (promises_ _ !! p) as [[|v|]|]; first [apply keeps_ret|apply keeps_throw|apply keeps_block].
Qed.
Lemma keeps_CreatePromise : keeps_replacer CreatePromise.
Proof.
  unfold CreatePromise. apply keeps_bind; [apply keeps_get|]. intros b.
  apply keeps_bind; [by apply keeps_modify|]. intros _. apply keeps_ret.
Qed.
Lemma keeps_get_future cb : keeps_replacer (get_future cb).
Proof. destruct cb; [apply keeps_ret|apply keeps_throw]. Qed.
Lemma keeps_Schedule req : keeps_replacer (Schedule req).
Proof. by apply keeps_modify. Qed.
Lemma keeps_DeallocatePage p : keeps_replacer (DeallocatePage p).
Proof. by apply keeps_modify. Qed.

Lemma keeps_FlushPageUnsafe page_id : keeps_replacer (FlushPageUnsafe page_id).
Proof.
  unfold FlushPageUnsafe. apply keeps_bind; [apply keeps_get|]. intros b.
  destruct (page_table_ b !! page_id) as [fr|]; [|apply keeps_ret].
  apply keeps_bind; [apply keeps_CreatePromise|]. intros p.
  apply keeps_bind; [apply keeps_get_future|]. intros fut.
  apply keeps_bind; [apply keeps_Schedule|]. intros _.
  apply keeps_try_catch; [|apply keeps_ret].
  apply keeps_bind; [apply keeps_future_get|]. intros ok.
  apply keeps_bind; [|intros _; apply keeps_ret].
  destruct ok; [apply keeps_update_frame|apply keeps_ret].
Qed.

Lemma keeps_DeletePage page_id : keeps_replacer (DeletePage page_id).
Proof.
  unfold DeletePage. apply keeps_bind; [apply keeps_get|]. intros b.
  destruct (page_table_ b !! page_id) as [fr|].
  - apply keeps_bind; [apply keeps_read_frame|]. intros pin.
    destruct (0 <? pin); [apply keeps_ret|].
    apply keeps_bind; [apply keeps_read_frame|]. intros dirty.
    apply keeps_bind.
    { destruct dirty; [|apply keeps_ret].
      apply keeps_bind; [apply keeps_FlushPageUnsafe|]. intros _. apply keeps_update_frame. }
    intros _. apply keeps_bind; [by apply keeps_modify|]. intros _.
    apply keeps_bind; [by apply keeps_modify|]. intros _.
    apply keeps_bind; [apply keeps_update_frame|]. intros _.
    apply keeps_bind; [by apply keeps_modify|]. intros _.
    apply keeps_bind; [apply keeps_DeallocatePage|]. intros _. apply keeps_ret.
  - apply keeps_bind; [apply keeps_DeallocatePage|]. intros _. apply keeps_ret.
Qed.

(** ** The workers never touch a dirty flag *)

Lemma dirty_serve req b fr :
  is_dirty_ <$> frame_at fr (serve req b) = is_dirty_ <$> frame_at fr b.
Proof.
  unfold serve. case_bool_decide; [done|]. destruct (is_write_ req).
  - by destruct (frame_at (req_data_ req) b).
  - unfold frame_at. destruct (fr <? 0); [done|]. simpl.
    rewrite list_lookup_alter.
    destruct (decide (Z.to_nat (req_data_ req) = Z.to_nat fr)) as [E|E]; [|done].
    rewrite E. by destruct (frames_ b !! Z.to_nat fr).
Qed.

Lemma dirty_run_workers b fr :
  is_dirty_ <$> frame_at fr (run_workers b) = is_dirty_ <$> frame_at fr b.
Proof.
  unfold run_workers. set (b1 := with_disk_scheduler _ b).
  change (frame_at fr b) with (frame_at fr b1). generalize b1.
  induction (concat _) as [|req l IH]; intros b'; simpl; [done|].
  rewrite IH. apply dirty_serve.
Qed.

End BpmFacts.
(** * The B+-tree: pages, search and the operations that change nothing *)

Module BTreeFacts.
Import BPage BTree BTreeSpec.

(** ** Arrays and loops *)

Lemma aget_lookup a i v : 0 ≤ i → a !! Z.to_nat i = Some v → aget a i = v.
Proof.
  intros Hi H. unfold aget. destruct (i <? 0) eqn:E; [apply Z.ltb_lt in E; lia|].
  by rewrite H.
Qed.

Lemma lookup_aget a i : 0 ≤ i < Z.of_nat (length a) → a !! Z.to_nat i = Some (aget a i).
Proof.
  intros Hi. destruct (lookup_lt_is_Some_2 a (Z.to_nat i)) as [v Hv]; [lia|].
  rewrite Hv. f_equal. symmetry. apply aget_lookup; [lia|done].
Qed.

Lemma length_aset a i v : length (aset a i v) = length a.
Proof. unfold aset. destruct (i <? 0); [done|]. by rewrite length_insert. Qed.

Lemma aget_aset_eq a i v : 0 ≤ i < Z.of_nat (length a) → aget (aset a i v) i = v.
Proof.
  intros Hi. apply aget_lookup; [lia|]. unfold aset.
  destruct (i <? 0) eqn:E; [apply Z.ltb_lt in E; lia|].
  apply list_lookup_insert_eq. lia.
Qed.

Lemma aget_aset_ne a i j v : i ≠ j → aget (aset a i v) j = aget a j.
Proof.
  intros Hij. unfold aget, aset. destruct (j <? 0) eqn:Ej; [done|].
  destruct (i <? 0) eqn:Ei; [done|]. apply Z.ltb_ge in Ej, Ei.
  rewrite list_lookup_insert_ne by lia. done.
Qed.

Lemma for_up_nil {St} lo hi (body : Z → St → St) s : hi ≤ lo → for_up lo hi body s = s.
Proof. intros H. unfold for_up. rewrite seqZ_nil by lia. done. Qed.

Lemma for_up_snoc {St} lo hi (body : Z → St → St) s :
  lo ≤ hi → for_up lo (hi + 1) body s = body hi (for_up lo hi body s).
Proof.
  intros H. unfold for_up.
  replace (hi + 1 - lo) with (Z.of_nat (S (Z.to_nat (hi - lo)))) by lia.
  rewrite seqZ_S, foldl_app. simpl.
  replace (Z.of_nat (Z.to_nat (hi - lo))) with (hi - lo) by lia.
  by replace (lo + (hi - lo)) with hi by lia.
Qed.

(** A loop invariant for [for_up]. *)
Lemma for_up_ind {St} (P : Z → St → Prop) lo hi (body : Z → St → St) s :
  lo ≤ hi → P lo s →
  (∀ i s, lo ≤ i < hi → P i s → P (i + 1) (body i s)) →
  P hi (for_up lo hi body s).
Proof.
  intros Hle H0 Hstep.
  assert (∀ n : nat, lo + Z.of_nat n ≤ hi → P (lo + Z.of_nat n) (for_up lo (lo + Z.of_nat n) body s)) as H.
  { induction n as [|n IH]; intros Hn.
    - rewrite Z.add_0_r, for_up_nil by lia. done.
    - replace (lo + Z.of_nat (S n)) with (lo + Z.of_nat n + 1) by lia.
      rewrite for_up_snoc by lia. apply Hstep; [lia|]. apply IH. lia. }
  specialize (H (Z.to_nat (hi - lo))).
  replace (lo + Z.of_nat (Z.to_nat (hi - lo))) with hi in H by lia. apply H. lia.
Qed.

Lemma comparator_nonneg a b : (0 <=? comparator a b) = (b <=? a).
Proof.
  unfold comparator. destruct (Z.compare_spec a b); simpl; symmetry.
  - apply Z.leb_le. lia.
  - apply Z.leb_gt. lia.
  - apply Z.leb_le. lia.
Qed.

Lemma comparator_zero a b : (comparator a b =? 0) = (a =? b).
Proof.
  unfold comparator. destruct (Z.compare_spec a b); simpl; symmetry.
  - apply Z.eqb_eq. lia.
  - apply Z.eqb_neq. lia.
  - apply Z.eqb_neq. lia.
Qed.

Lemma comparator_neg a b : (comparator a b <? 0) = (a <? b).
Proof.
  unfold comparator. destruct (Z.compare_spec a b); simpl; symmetry.
  - apply Z.ltb_ge. lia.
  - apply Z.ltb_lt. lia.
  - apply Z.ltb_ge. lia.
Qed.

Lemma comparator_pos a b : (0 <? comparator a b) = (b <? a).
Proof.
  unfold comparator. destruct (Z.compare_spec a b); simpl; symmetry.
  - apply Z.ltb_ge. lia.
  - apply Z.ltb_ge. lia.
  - apply Z.ltb_lt. lia.
Qed.

Lemma mid_range l r : l ≤ r → l ≤ l + (r - l) ÷ 2 ≤ r.
Proof.
  intros H. rewrite Z.quot_div_nonneg by lia.
  pose proof (Z.div_pos (r - l) 2). pose proof (Z.div_le_upper_bound (r - l) 2 (r - l)). lia.
Qed.

(** ** Ascending lists *)

Lemma ascending_cons a l :
  ascending (a :: l) = true ↔ (∀ b, head l = Some b → a < b) ∧ ascending l = true.
Proof.
  destruct l as [|b l]; simpl.
  - split; [intros _; split; [done|done]|done].
  - rewrite andb_true_iff, Z.ltb_lt. split.
    + intros [H1 H2]. split; [|done]. by intros ? [= <-].
    + intros [H1 H2]. split; [|done]. by apply H1.
Qed.

Lemma ascending_lookup l i j a b :
  ascending l = true → l !! i = Some a → l !! j = Some b → (i < j)%nat → a < b.
Proof.
  revert i j a b. induction l as [|x l IH]; intros i j a b Hasc Hi Hj Hij; [done|].
  apply ascending_cons in Hasc as [Hhd Hasc].
  destruct j as [|j]; [lia|]. simpl in Hj.
  destruct i as [|i].
  - simpl in Hi. injection Hi as ->.
    destruct l as [|y l]; [done|]. specialize (Hhd y eq_refl).
    destruct j as [|j]; simpl in Hj.
    + injection Hj as ->. done.
    + assert (y < b); [|lia]. apply (IH 0%nat (S j) y b); [done|done|done|lia].
  - simpl in Hi. apply (IH i j); [done|done|done|lia].
Qed.

Lemma ascending_intro l :
  (∀ i a b, l !! i = Some a → l !! S i = Some b → a < b) → ascending l = true.
Proof.
  induction l as [|x l IH]; intros H; [done|].
  apply ascending_cons. split.
  - intros b Hb. apply (H 0%nat x b); [done|]. simpl. by destruct l; simplify_eq/=.
  - apply IH. intros i a b Ha Hb. by apply (H (S i) a b).
Qed.

(** ** Leaf pages *)

Lemma leaf_ok_inv p :
  leaf_ok p = true →
  0 ≤ l_size_ p ≤ LEAF_PAGE_SLOT_CNT ∧
  length (l_key_array_ p) = Z.to_nat LEAF_PAGE_SLOT_CNT ∧
  length (l_rid_array_ p) = Z.to_nat LEAF_PAGE_SLOT_CNT ∧
  ascending (leaf_keys p) = true.
Proof.
  unfold leaf_ok. rewrite !andb_true_iff, !bool_decide_eq_true, !Z.leb_le. tauto.
Qed.

Lemma leaf_keys_lookup p i :
  0 ≤ i < l_size_ p → l_size_ p ≤ Z.of_nat (length (l_key_array_ p)) →
  leaf_keys p !! Z.to_nat i = Some (Leaf.KeyAt i p).
Proof.
  intros Hi Hlen. unfold leaf_keys. rewrite lookup_take_lt by lia.
  apply lookup_aget. lia.
Qed.

Lemma leaf_ok_sorted p :
  leaf_ok p = true →
  ∀ i j, 0 ≤ i < j → j < l_size_ p → Leaf.KeyAt i p < Leaf.KeyAt j p.
Proof.
  intros (Hsz & Hk & Hr & Hasc)%leaf_ok_inv i j Hij Hj.
  apply (ascending_lookup (leaf_keys p) (Z.to_nat i) (Z.to_nat j)); [done| | |lia].
  - apply leaf_keys_lookup; lia.
  - apply leaf_keys_lookup; lia.
Qed.

Lemma elem_of_leaf_keys p k :
  l_size_ p ≤ Z.of_nat (length (l_key_array_ p)) →
  k ∈ leaf_keys p ↔ ∃ i, 0 ≤ i < l_size_ p ∧ Leaf.KeyAt i p = k.
Proof.
  intros Hlen. rewrite list_elem_of_lookup. split.
  - intros [n Hn]. exists (Z.of_nat n).
    assert (n < length (leaf_keys p))%nat as Hlt by (by eapply lookup_lt_Some).
    unfold leaf_keys in Hlt. rewrite length_take in Hlt.
    split; [lia|].
    rewrite <- (Nat2Z.id n) in Hn. rewrite leaf_keys_lookup in Hn by lia. congruence.
  - intros (i & Hi & <-). exists (Z.to_nat i). apply leaf_keys_lookup; lia.
Qed.

(** The binary search of a leaf finds the first slot whose key is not below
    [key]. *)
Lemma FindFirstGreaterOrEqual_loop_spec p key left_ right_ result :
  ∀ n,
    (∀ i j, 0 ≤ i < j → j < n → Leaf.KeyAt i p < Leaf.KeyAt j p) →
    0 ≤ left_ → right_ < n → result = right_ + 1 → left_ ≤ right_ + 1 →
    (∀ i, 0 ≤ i < left_ → Leaf.KeyAt i p < key) →
    (∀ i, right_ < i < n → key ≤ Leaf.KeyAt i p) →
    let out := Leaf.FindFirstGreaterOrEqual_loop p key left_ right_ result in
    0 ≤ out ≤ n ∧
    (∀ i, 0 ≤ i < out → Leaf.KeyAt i p < key) ∧
    (∀ i, out ≤ i < n → key ≤ Leaf.KeyAt i p).
Proof.
  apply (Leaf.FindFirstGreaterOrEqual_loop_elim
    (λ p key left_ right_ result out,
       ∀ n,
         (∀ i j, 0 ≤ i < j → j < n → Leaf.KeyAt i p < Leaf.KeyAt j p) →
         0 ≤ left_ → right_ < n → result = right_ + 1 → left_ ≤ right_ + 1 →
         (∀ i, 0 ≤ i < left_ → Leaf.KeyAt i p < key) →
         (∀ i, right_ < i < n → key ≤ Leaf.KeyAt i p) →
         0 ≤ out ≤ n ∧
         (∀ i, 0 ≤ i < out → Leaf.KeyAt i p < key) ∧
         (∀ i, out ≤ i < n → key ≤ Leaf.KeyAt i p))).
  - clear. intros p key l r Hle res IH1 IH2 _ n Hs Hl Hr Hres Hlr Hlow Hhigh.
    cbv zeta in *. pose proof (mid_range l r Hle) as Hmid.
    set (mid := l + (r - l) ÷ 2) in *.
    rewrite comparator_nonneg. destruct (key <=? Leaf.KeyAt mid p) eqn:E.
    + apply Z.leb_le in E. apply IH1; try lia; [done|done|].
      intros i Hi. destruct (decide (i = mid)) as [->|]; [done|].
      destruct (decide (i ≤ r)).
      * assert (Leaf.KeyAt mid p < Leaf.KeyAt i p) by (apply Hs; lia). lia.
      * apply Hhigh. lia.
    + apply Z.leb_gt in E. apply IH2; try lia; [done| |done].
      intros i Hi. destruct (decide (i = mid)) as [->|]; [done|].
      destruct (decide (l ≤ i)).
      * assert (Leaf.KeyAt i p < Leaf.KeyAt mid p) by (apply Hs; lia). lia.
      * apply Hlow. lia.
  - clear. intros p key l r Hgt res _ n Hs Hl Hr Hres Hlr Hlow Hhigh.
    assert (res = l) as -> by lia. split; [lia|]. split; [done|].
    intros i Hi. apply Hhigh. lia.
Qed.

Lemma FindFirstGreaterOrEqual_spec p key :
  leaf_ok p = true →
  let pos := Leaf.FindFirstGreaterOrEqual key p in
  0 ≤ pos ≤ l_size_ p ∧
  (∀ i, 0 ≤ i < pos → Leaf.KeyAt i p < key) ∧
  (∀ i, pos ≤ i < l_size_ p → key ≤ Leaf.KeyAt i p).
Proof.
  intros Hok. pose proof (leaf_ok_inv p Hok) as (Hsz & _).
  unfold Leaf.FindFirstGreaterOrEqual, Leaf.GetSize.
  apply FindFirstGreaterOrEqual_loop_spec; try lia.
  by apply leaf_ok_sorted.
Qed.

(** Whether [key] is in the leaf, as [InsertIntoLeaf], [RemoveFromLeaf] and
    [GetValue] test it. *)
Lemma leaf_key_test p key :
  leaf_ok p = true →
  let pos := Leaf.FindFirstGreaterOrEqual key p in
  ((pos <? l_size_ p) && (Leaf.KeyAt pos p =? key) = true ↔ key ∈ leaf_keys p).
Proof.
  intros Hok pos. pose proof (leaf_ok_inv p Hok) as (Hsz & Hk & _).
  destruct (FindFirstGreaterOrEqual_spec p key Hok) as (Hpos & Hlow & Hhigh).
  fold pos in Hpos, Hlow, Hhigh.
  rewrite elem_of_leaf_keys by lia. rewrite andb_true_iff, Z.ltb_lt, Z.eqb_eq. split.
  - intros [H1 H2]. exists pos. split; [lia|done].
  - intros (i & Hi & Hki). destruct (decide (i < pos)) as [Hlt|Hge].
    + specialize (Hlow i ltac:(lia)). lia.
    + destruct (decide (i = pos)) as [->|Hne]; [split; [lia|done]|].
      specialize (Hhigh pos ltac:(lia)).
      assert (Leaf.KeyAt pos p < Leaf.KeyAt i p) by (apply (leaf_ok_sorted p Hok); lia). lia.
Qed.

Lemma entries_lookup p i :
  0 ≤ i < l_size_ p →
  l_size_ p ≤ Z.of_nat (length (l_key_array_ p)) →
  l_size_ p ≤ Z.of_nat (length (l_rid_array_ p)) →
  Leaf.entries p !! Z.to_nat i = Some (Leaf.KeyAt i p, Leaf.ValueAt i p).
Proof.
  intros Hi Hk Hr. unfold Leaf.entries. rewrite lookup_take_lt by lia.
  apply lookup_zip_with_Some. exists (Leaf.KeyAt i p), (Leaf.ValueAt i p).
  split; [done|]. split; apply lookup_aget; lia.
Qed.

Lemma length_entries p :
  0 ≤ l_size_ p →
  l_size_ p ≤ Z.of_nat (length (l_key_array_ p)) →
  l_size_ p ≤ Z.of_nat (length (l_rid_array_ p)) →
  length (Leaf.entries p) = Z.to_nat (l_size_ p).
Proof.
  intros H0 Hk Hr. unfold Leaf.entries. rewrite length_take, length_zip_with. lia.
Qed.

Lemma entries_keys p :
  l_size_ p ≤ Z.of_nat (length (l_rid_array_ p)) →
  (Leaf.entries p).*1 = leaf_keys p.
Proof.
  intros Hr. apply list_eq. intros i. rewrite list_lookup_fmap.
  unfold Leaf.entries, leaf_keys.
  destruct (decide (i < Z.to_nat (l_size_ p))%nat) as [Hi|Hi].
  - rewrite !lookup_take_lt by done. rewrite lookup_zip_with.
    destruct (l_key_array_ p !! i) as [k|]; [|done]. simpl.
    destruct (lookup_lt_is_Some_2 (l_rid_array_ p) i) as [v ->]; [lia|]. done.
  - rewrite !lookup_take_ge by lia. done.
Qed.

(** ** Internal pages *)

Lemma internal_ok_inv p :
  internal_ok p = true →
  1 ≤ i_size_ p ≤ INTERNAL_PAGE_SLOT_CNT ∧
  length (i_key_array_ p) = Z.to_nat INTERNAL_PAGE_SLOT_CNT ∧
  length (i_page_id_array_ p) = Z.to_nat INTERNAL_PAGE_SLOT_CNT ∧
  ascending (Internal.separators p) = true.
Proof.
  unfold internal_ok. rewrite !andb_true_iff, !bool_decide_eq_true, !Z.leb_le. tauto.
Qed.

Lemma separators_lookup p i :
  1 ≤ i < i_size_ p → i_size_ p ≤ Z.of_nat (length (i_key_array_ p)) →
  Internal.separators p !! Z.to_nat (i - 1) = Some (Internal.KeyAt i p).
Proof.
  intros Hi Hlen. unfold Internal.separators. rewrite lookup_drop.
  replace (1 + Z.to_nat (i - 1))%nat with (Z.to_nat i) by lia.
  rewrite lookup_take_lt by lia. apply lookup_aget. lia.
Qed.

Lemma internal_ok_sorted p :
  internal_ok p = true →
  ∀ i j, 1 ≤ i < j → j < i_size_ p → Internal.KeyAt i p < Internal.KeyAt j p.
Proof.
  intros (Hsz & Hk & Hr & Hasc)%internal_ok_inv i j Hij Hj.
  apply (ascending_lookup (Internal.separators p) (Z.to_nat (i - 1)) (Z.to_nat (j - 1)));
    [done| | |lia].
  - apply separators_lookup; lia.
  - apply separators_lookup; lia.
Qed.

(** The binary search of an internal page ends on a separator equal to
    [key], or on the first separator above [key]. *)
Lemma FindPage_loop_spec p key left_ right_ :
  ∀ n,
    (∀ i j, 1 ≤ i < j → j < n → Internal.KeyAt i p < Internal.KeyAt j p) →
    1 ≤ left_ → right_ < n → left_ ≤ right_ + 1 →
    (∀ i, 1 ≤ i < left_ → Internal.KeyAt i p < key) →
    (∀ i, right_ < i < n → key < Internal.KeyAt i p) →
    let out := Internal.FindPage_loop p key left_ right_ in
    1 ≤ out ≤ n ∧
    ((out < n ∧ Internal.KeyAt out p = key) ∨
     ((∀ i, 1 ≤ i < out → Internal.KeyAt i p < key) ∧
      (∀ i, out ≤ i < n → key < Internal.KeyAt i p))).
Proof.
  apply (Internal.FindPage_loop_elim
    (λ p key left_ right_ out,
       ∀ n,
         (∀ i j, 1 ≤ i < j → j < n → Internal.KeyAt i p < Internal.KeyAt j p) →
         1 ≤ left_ → right_ < n → left_ ≤ right_ + 1 →
         (∀ i, 1 ≤ i < left_ → Internal.KeyAt i p < key) →
         (∀ i, right_ < i < n → key < Internal.KeyAt i p) →
         1 ≤ out ≤ n ∧
         ((out < n ∧ Internal.KeyAt out p = key) ∨
          ((∀ i, 1 ≤ i < out → Internal.KeyAt i p < key) ∧
           (∀ i, out ≤ i < n → key < Internal.KeyAt i p))))).
  - clear. intros p key l r Hle IH1 IH2 _ n Hs Hl Hr Hlr Hlow Hhigh.
    cbv zeta in *. pose proof (mid_range l r Hle) as Hmid.
    set (mid := l + (r - l) ÷ 2) in *.
    change (aget (i_key_array_ p) mid) with (Internal.KeyAt mid p) in *.
    rewrite comparator_zero, comparator_neg.
    destruct (Internal.KeyAt mid p =? key) eqn:E0.
    { apply Z.eqb_eq in E0. split; [lia|]. left. split; [lia|done]. }
    apply Z.eqb_neq in E0.
    destruct (Internal.KeyAt mid p <? key) eqn:E.
    + apply Z.ltb_lt in E. apply IH1; try lia; [done| |done].
      intros i Hi. destruct (decide (i = mid)) as [->|]; [done|].
      destruct (decide (l ≤ i)).
      * assert (Internal.KeyAt i p < Internal.KeyAt mid p) by (apply Hs; lia). lia.
      * apply Hlow. lia.
    + apply Z.ltb_ge in E. apply IH2; try lia; [done|done|].
      intros i Hi. destruct (decide (i = mid)) as [->|]; [lia|].
      destruct (decide (i ≤ r)).
      * assert (Internal.KeyAt mid p < Internal.KeyAt i p) by (apply Hs; lia). lia.
      * apply Hhigh. lia.
  - clear. intros p key l r Hgt _ n Hs Hl Hr Hlr Hlow Hhigh.
    split; [lia|]. right. split; [done|]. intros i Hi. apply Hhigh. lia.
Qed.

(** [FindPage] picks the child whose key range holds [key]. *)
Lemma FindPage_spec p key :
  internal_ok p = true →
  ∃ c, 0 ≤ c < i_size_ p ∧
       Internal.FindPage key p = Internal.ValueAt c p ∧
       (c ≠ 0 → Internal.KeyAt c p ≤ key) ∧
       (c ≠ i_size_ p - 1 → key < Internal.KeyAt (c + 1) p).
Proof.
  intros Hok. pose proof (internal_ok_inv p Hok) as (Hsz & _).
  pose proof (internal_ok_sorted p Hok) as Hs.
  unfold Internal.FindPage, Internal.GetSize.
  destruct (FindPage_loop_spec p key 1 (i_size_ p - 1) (i_size_ p) Hs) as (Ht & Hcases);
    try lia.
  set (t := Internal.FindPage_loop p key 1 (i_size_ p - 1)) in *. cbv zeta.
  destruct (i_size_ p <=? t) eqn:E.
  - apply Z.leb_le in E. exists (i_size_ p - 1). split; [lia|]. split; [done|].
    split; [|done]. intros Hne. destruct Hcases as [[? _]|[Hlow _]]; [lia|].
    assert (Internal.KeyAt (i_size_ p - 1) p < key) by (apply Hlow; lia). lia.
  - apply Z.leb_gt in E.
    change (aget (i_key_array_ p) t) with (Internal.KeyAt t p).
    rewrite comparator_zero. destruct (Internal.KeyAt t p =? key) eqn:E0.
    + apply Z.eqb_eq in E0. exists t. split; [lia|]. split; [done|].
      split; [lia|]. intros Hne.
      assert (Internal.KeyAt t p < Internal.KeyAt (t + 1) p) by (apply Hs; lia). lia.
    + apply Z.eqb_neq in E0. destruct Hcases as [[_ ?]|[Hlow Hhigh]]; [done|].
      exists (t - 1). split; [lia|]. split; [done|]. split.
      * intros Hne. assert (Internal.KeyAt (t - 1) p < key) by (apply Hlow; lia). lia.
      * intros _. replace (t - 1 + 1) with t by lia. apply Hhigh. lia.
Qed.

(** ** Reading pages *)

Lemma fetch_page s id pg :
  0 ≤ id → pages_ s !! id = Some pg → fetch id s = Some (pg, s).
Proof.
  intros Hid Hpg. unfold fetch. destruct (id <? 0) eqn:E; [apply Z.ltb_lt in E; lia|].
  unfold bind, get, ret. by rewrite Hpg.
Qed.

Lemma IsLeafPage_leaf s id p :
  0 ≤ id → pages_ s !! id = Some (LeafPg p) → IsLeafPage id s = Some (true, s).
Proof. intros Hid Hpg. unfold IsLeafPage, bind. by rewrite (fetch_page s id _ Hid Hpg). Qed.

Lemma IsLeafPage_internal s id p :
  0 ≤ id → pages_ s !! id = Some (InternalPg p) → IsLeafPage id s = Some (false, s).
Proof. intros Hid Hpg. unfold IsLeafPage, bind. by rewrite (fetch_page s id _ Hid Hpg). Qed.

Lemma leaf_read_leaf {A} (f : LeafPage → A) s id p :
  0 ≤ id → pages_ s !! id = Some (LeafPg p) → leaf_read id f s = Some (f p, s).
Proof. intros Hid Hpg. unfold leaf_read, bind. by rewrite (fetch_page s id _ Hid Hpg). Qed.

Lemma internal_read_internal {A} (f : InternalPage → A) s id p :
  0 ≤ id → pages_ s !! id = Some (InternalPg p) → internal_read id f s = Some (f p, s).
Proof. intros Hid Hpg. unfold internal_read, bind. by rewrite (fetch_page s id _ Hid Hpg). Qed.

Lemma page_size_leaf s id p :
  0 ≤ id → pages_ s !! id = Some (LeafPg p) → page_size id s = Some (l_size_ p, s).
Proof. intros Hid Hpg. unfold page_size, bind. by rewrite (fetch_page s id _ Hid Hpg). Qed.

Lemma page_max_size_leaf s id p :
  0 ≤ id → pages_ s !! id = Some (LeafPg p) → page_max_size id s = Some (l_max_size_ p, s).
Proof. intros Hid Hpg. unfold page_max_size, bind. by rewrite (fetch_page s id _ Hid Hpg). Qed.

Lemma GetRootPageId_header t s root :
  0 ≤ header_page_id_ t → pages_ s !! header_page_id_ t = Some (HeaderPg root) →
  GetRootPageId t s = Some (root, s).
Proof. intros Hid Hpg. unfold GetRootPageId, bind. by rewrite (fetch_page s _ _ Hid Hpg). Qed.

Lemma bind_Some {A B} (m : TM A) (k : A → TM B) s a s' :
  m s = Some (a, s') → bind m k s = k a s'.
Proof. intros H. unfold bind. by rewrite H. Qed.

Lemma back_push_back x c : back (push_back x c) = Some x.
Proof. unfold back, push_back. simpl. apply last_snoc. Qed.

(** ** Search trees *)

Lemma wf_subtree_leaf s lo hi id :
  wf_subtree 0 s lo hi id = true →
  ∃ p, pages_ s !! id = Some (LeafPg p) ∧ 0 ≤ id ∧ leaf_ok p = true ∧
       ∀ k, k ∈ leaf_keys p → above lo k = true ∧ below hi k = true.
Proof.
  simpl. destruct (pages_ s !! id) as [[| |p|]|]; try done.
  rewrite !andb_true_iff, Z.leb_le, forallb_forall. intros [[Hid Hok] Hb].
  exists p. repeat split; try done.
  - specialize (Hb k). rewrite <- list_elem_of_In in Hb. apply Hb in H.
    by apply andb_true_iff in H as [? _].
  - specialize (Hb k). rewrite <- list_elem_of_In in Hb. apply Hb in H.
    by apply andb_true_iff in H as [_ ?].
Qed.

Lemma wf_subtree_internal h s lo hi id :
  wf_subtree (S h) s lo hi id = true →
  ∃ p, pages_ s !! id = Some (InternalPg p) ∧ 0 ≤ id ∧ internal_ok p = true ∧
       (∀ k, k ∈ Internal.separators p → above lo k = true ∧ at_most hi k = true) ∧
       ∀ i, 0 ≤ i < i_size_ p →
         wf_subtree h s (child_lo lo p i) (child_hi hi p i) (Internal.ValueAt i p) = true.
Proof.
  simpl. destruct (pages_ s !! id) as [[| |p|p]|]; try done.
  rewrite !andb_true_iff, Z.leb_le, !forallb_forall. intros [[[Hid Hok] Hseps] Hch].
  exists p. repeat split; try done.
  - specialize (Hseps k). rewrite <- list_elem_of_In in Hseps. apply Hseps in H.
    by apply andb_true_iff in H as [? _].
  - specialize (Hseps k). rewrite <- list_elem_of_In in Hseps. apply Hseps in H.
    by apply andb_true_iff in H as [_ ?].
  - intros i Hi. apply Hch. apply list_elem_of_In, elem_of_seqZ. lia.
Qed.

Lemma above_le lo k k' : above lo k = true → k ≤ k' → above lo k' = true.
Proof. destruct lo as [l|]; [|done]. simpl. rewrite !Z.leb_le. lia. Qed.

Lemma below_le hi k k' : below hi k = true → k' ≤ k → below hi k' = true.
Proof. destruct hi as [h|]; [|done]. simpl. rewrite !Z.ltb_lt. lia. Qed.

Lemma below_at_most hi k k' : at_most hi k = true → k' < k → below hi k' = true.
Proof. destruct hi as [h|]; [|done]. simpl. rewrite Z.leb_le, Z.ltb_lt. lia. Qed.

Lemma elem_of_separators p k :
  i_size_ p ≤ Z.of_nat (length (i_key_array_ p)) →
  k ∈ Internal.separators p ↔ ∃ i, 1 ≤ i < i_size_ p ∧ Internal.KeyAt i p = k.
Proof.
  intros Hlen. rewrite list_elem_of_lookup. split.
  - intros [n Hn]. exists (Z.of_nat n + 1).
    assert (n < length (Internal.separators p))%nat as Hlt by (by eapply lookup_lt_Some).
    unfold Internal.separators in Hlt. rewrite length_drop, length_take in Hlt.
    split; [lia|].
    replace n with (Z.to_nat (Z.of_nat n + 1 - 1)) in Hn by lia.
    rewrite separators_lookup in Hn by lia. congruence.
  - intros (i & Hi & <-). exists (Z.to_nat (i - 1)). apply separators_lookup; lia.
Qed.

Lemma elem_of_concat {A} (x : A) (ls : list (list A)) :
  x ∈ concat ls ↔ ∃ l, l ∈ ls ∧ x ∈ l.
Proof.
  rewrite list_elem_of_In, in_concat. split.
  - intros (l & H1 & H2). exists l. by rewrite !list_elem_of_In.
  - intros (l & H1 & H2). exists l. by rewrite <- !list_elem_of_In.
Qed.

(** The keys under a search tree lie within its bounds. *)
Lemma subtree_keys_bounded h : ∀ s lo hi id k,
  wf_subtree h s lo hi id = true → k ∈ (subtree_entries h s id).*1 →
  above lo k = true ∧ below hi k = true.
Proof.
  induction h as [|h IH]; intros s lo hi id k Hwf Hk.
  - destruct (wf_subtree_leaf _ _ _ _ Hwf) as (p & Hp & Hid & Hok & Hb).
    simpl in Hk. rewrite Hp in Hk. apply Hb.
    destruct (leaf_ok_inv p Hok) as (? & ? & ? & _). rewrite <- entries_keys by lia. done.
  - destruct (wf_subtree_internal _ _ _ _ _ Hwf) as (p & Hp & Hid & Hok & Hseps & Hch).
    destruct (internal_ok_inv p Hok) as (Hsz & Hkl & _).
    simpl in Hk. rewrite Hp in Hk.
    apply list_elem_of_fmap in Hk as ([k' v] & -> & Hkv). simpl.
    apply elem_of_concat in Hkv as (l & Hl & Hkv).
    apply list_elem_of_fmap in Hl as (i & -> & Hi%elem_of_seqZ).
    destruct (IH s _ _ _ k' (Hch i ltac:(lia))) as [Ha Hb].
    { apply list_elem_of_fmap. by exists (k', v). }
    split.
    + unfold child_lo in Ha. destruct (i =? 0) eqn:E; [done|]. apply Z.eqb_neq in E.
      simpl in Ha. apply Z.leb_le in Ha.
      apply (above_le lo (Internal.KeyAt i p)); [|done].
      apply Hseps. apply elem_of_separators; [lia|]. exists i. split; [lia|done].
    + unfold child_hi in Hb. destruct (i =? i_size_ p - 1) eqn:E; [done|]. apply Z.eqb_neq in E.
      simpl in Hb. apply Z.ltb_lt in Hb.
      apply (below_at_most hi (Internal.KeyAt (i + 1) p)); [|done].
      apply Hseps. apply elem_of_separators; [lia|]. exists (i + 1). split; [lia|done].
Qed.

(** The search for a key in range ends in a leaf of the tree, and the key is
    in the tree exactly if it is in that leaf. *)
Lemma find_leaf_spec h : ∀ s lo hi id key,
  wf_subtree h s lo hi id = true → above lo key = true → below hi key = true →
  ∃ lid p, find_leaf h s id key = Some (lid, p) ∧ 0 ≤ lid ∧
           pages_ s !! lid = Some (LeafPg p) ∧ leaf_ok p = true ∧
           (∀ e, e.1 = key → (e ∈ subtree_entries h s id ↔ e ∈ Leaf.entries p)).
Proof.
  induction h as [|h IH]; intros s lo hi id key Hwf Hlo Hhi.
  - destruct (wf_subtree_leaf _ _ _ _ Hwf) as (p & Hp & Hid & Hok & Hb).
    exists id, p. simpl. rewrite Hp. done.
  - destruct (wf_subtree_internal _ _ _ _ _ Hwf) as (p & Hp & Hid & Hok & Hseps & Hch).
    destruct (internal_ok_inv p Hok) as (Hsz & Hkl & _).
    pose proof (internal_ok_sorted p Hok) as Hs.
    destruct (FindPage_spec p key Hok) as (c & Hc & Hfind & Hclo & Hchi).
    assert (Hin_lo : above (child_lo lo p c) key = true).
    { unfold child_lo. destruct (c =? 0) eqn:E; [done|]. apply Z.eqb_neq in E.
      simpl. apply Z.leb_le. by apply Hclo. }
    assert (Hin_hi : below (child_hi hi p c) key = true).
    { unfold child_hi. destruct (c =? i_size_ p - 1) eqn:E; [done|]. apply Z.eqb_neq in E.
      simpl. apply Z.ltb_lt. by apply Hchi. }
    destruct (IH s _ _ _ key (Hch c Hc) Hin_lo Hin_hi) as (lid & q & Hfl & Hlid & Hq & Hqok & Hent).
    exists lid, q. simpl. rewrite Hp, Hfind. repeat split; try done.
    + intros He. apply Hent; [done|].
      apply elem_of_concat in He as (l & Hl & He).
      apply list_elem_of_fmap in Hl as (i & -> & Hi%elem_of_seqZ).
      destruct (decide (i = c)) as [->|Hne]; [done|]. exfalso.
      destruct (subtree_keys_bounded h s _ _ _ key (Hch i ltac:(lia))) as [Ha Hb].
      { apply list_elem_of_fmap. by exists e. }
      destruct (decide (i < c)) as [Hlt|Hge].
      * unfold child_hi in Hb. destruct (i =? i_size_ p - 1) eqn:E; [apply Z.eqb_eq in E; lia|].
        simpl in Hb. apply Z.ltb_lt in Hb. specialize (Hclo ltac:(lia)).
        destruct (decide (i + 1 = c)) as [<-|]; [lia|].
        assert (Internal.KeyAt (i + 1) p < Internal.KeyAt c p) by (apply Hs; lia). lia.
      * unfold child_lo in Ha. destruct (i =? 0) eqn:E; [apply Z.eqb_eq in E; lia|].
        simpl in Ha. apply Z.leb_le in Ha. specialize (Hchi ltac:(lia)).
        destruct (decide (c + 1 = i)) as [<-|]; [lia|].
        assert (Internal.KeyAt (c + 1) p < Internal.KeyAt i p) by (apply Hs; lia). lia.
    + intros He. apply elem_of_concat. exists (subtree_entries h s (Internal.ValueAt c p)).
      split; [|by apply Hent]. apply list_elem_of_fmap. exists c. split; [done|].
      apply elem_of_seqZ. lia.
Qed.

(** What [GetValue] does in the leaf it reaches. *)
Lemma GetValue_from_spec h : ∀ s lo hi id key fuel lid p,
  wf_subtree h s lo hi id = true → (h < fuel)%nat →
  find_leaf h s id key = Some (lid, p) →
  GetValue_from fuel key id s =
    Some (let index := Leaf.FindFirstGreaterOrEqual key p in
          if index =? l_size_ p then None
          else if Leaf.KeyAt index p =? key then Some (Leaf.ValueAt index p) else None, s).
Proof.
  induction h as [|h IH]; intros s lo hi id key fuel lid p Hwf Hfuel Hfl.
  - destruct (wf_subtree_leaf _ _ _ _ Hwf) as (q & Hq & Hid & Hok & Hb).
    simpl in Hfl. rewrite Hq in Hfl. injection Hfl as <- <-.
    destruct fuel as [|fuel]; [lia|]. simpl.
    rewrite (bind_Some _ _ _ _ _ (IsLeafPage_leaf s id q Hid Hq)).
    rewrite (bind_Some _ _ _ _ _ (leaf_read_leaf _ s id q Hid Hq)).
    rewrite (bind_Some _ _ _ _ _ (leaf_read_leaf _ s id q Hid Hq)).
    unfold Leaf.GetSize. destruct (_ =? l_size_ q); [done|].
    rewrite (bind_Some _ _ _ _ _ (leaf_read_leaf _ s id q Hid Hq)).
    rewrite comparator_zero. destruct (_ =? key); [|done].
    rewrite (bind_Some _ _ _ _ _ (leaf_read_leaf _ s id q Hid Hq)). done.
  - destruct (wf_subtree_internal _ _ _ _ _ Hwf) as (q & Hq & Hid & Hok & Hseps & Hch).
    destruct (FindPage_spec q key Hok) as (c & Hc & Hfind & _).
    simpl in Hfl. rewrite Hq in Hfl.
    destruct fuel as [|fuel]; [lia|]. simpl.
    rewrite (bind_Some _ _ _ _ _ (IsLeafPage_internal s id q Hid Hq)).
    rewrite (bind_Some _ _ _ _ _ (internal_read_internal _ s id q Hid Hq)).
    rewrite Hfind in *. apply (IH s _ _ _ key fuel lid p (Hch c Hc)); [lia|done].
Qed.

Lemma elem_of_entries p e :
  leaf_ok p = true →
  e ∈ Leaf.entries p ↔ ∃ i, 0 ≤ i < l_size_ p ∧ e = (Leaf.KeyAt i p, Leaf.ValueAt i p).
Proof.
  intros (Hsz & Hk & Hr & _)%leaf_ok_inv. rewrite list_elem_of_lookup. split.
  - intros [n Hn]. exists (Z.of_nat n).
    assert (n < length (Leaf.entries p))%nat as Hlt by (by eapply lookup_lt_Some).
    rewrite length_entries in Hlt by lia. split; [lia|].
    rewrite <- (Nat2Z.id n) in Hn. rewrite entries_lookup in Hn by lia. congruence.
  - intros (i & Hi & ->). exists (Z.to_nat i). apply entries_lookup; lia.
Qed.

(** The value [GetValue] reads off the leaf is the one paired with the key,
    if the key is there. *)
Lemma leaf_get_spec p key :
  leaf_ok p = true →
  let index := Leaf.FindFirstGreaterOrEqual key p in
  let r := if index =? l_size_ p then None
           else if Leaf.KeyAt index p =? key then Some (Leaf.ValueAt index p) else None in
  (∀ v, r = Some v ↔ (key, v) ∈ Leaf.entries p) ∧
  (r = None ↔ key ∉ (Leaf.entries p).*1).
Proof.
  intros Hok index r. pose proof (leaf_ok_inv p Hok) as (Hsz & Hk & Hr & _).
  destruct (FindFirstGreaterOrEqual_spec p key Hok) as (Hpos & Hlow & Hhigh).
  pose proof (leaf_key_test p key Hok) as Htest. cbv zeta in Htest.
  fold index in Hpos, Hlow, Hhigh, Htest.
  rewrite entries_keys by lia.
  assert (Hval : ∀ v, (key, v) ∈ Leaf.entries p →
            index < l_size_ p ∧ Leaf.KeyAt index p = key ∧ v = Leaf.ValueAt index p).
  { intros v (i & Hi & Heq)%elem_of_entries; [|done]. injection Heq as Hki ->.
    assert (key ∈ leaf_keys p) as Hin.
    { apply elem_of_leaf_keys; [lia|]. by exists i. }
    apply Htest in Hin. apply andb_true_iff in Hin as [H1%Z.ltb_lt H2%Z.eqb_eq].
    assert (i = index) as Heq; [|rewrite Heq; done].
    destruct (decide (i < index)); [specialize (Hlow i ltac:(lia)); lia|].
    destruct (decide (index < i)); [|lia].
    assert (Leaf.KeyAt index p < Leaf.KeyAt i p) by (apply (leaf_ok_sorted p Hok); lia). lia. }
  subst r. destruct (index =? l_size_ p) eqn:E1.
  - apply Z.eqb_eq in E1. split.
    + intros v. split; [done|]. intros H. apply Hval in H. lia.
    + split; [|done]. intros _ Hin. apply Htest in Hin.
      apply andb_true_iff in Hin as [H1%Z.ltb_lt _]. lia.
  - apply Z.eqb_neq in E1. destruct (Leaf.KeyAt index p =? key) eqn:E2.
    + apply Z.eqb_eq in E2. split.
      * intros v. split.
        -- intros [= <-]. apply elem_of_entries; [done|]. exists index. split; [lia|]. by rewrite E2.
        -- intros H. apply Hval in H as (_ & _ & ->). done.
      * split; [done|]. intros Hn. exfalso. apply Hn. apply Htest.
        apply andb_true_iff. split; [apply Z.ltb_lt; lia|done].
    + apply Z.eqb_neq in E2. split.
      * intros v. split; [done|]. intros H. apply Hval in H. lia.
      * split; [|done]. intros _ Hin. apply Htest in Hin.
        apply andb_true_iff in Hin as [_ ?]. done.
Qed.

(** ** Inserting a key that is there, removing one that is not *)

Lemma InsertIntoLeaf_duplicate t ctx s leaf leaf_page_id p key value :
  back ctx = Some leaf → 0 ≤ leaf → pages_ s !! leaf = Some (LeafPg p) →
  leaf_ok p = true → key ∈ leaf_keys p →
  InsertIntoLeaf t ctx leaf_page_id key value s = Some (false, s).
Proof.
  intros Hback Hid Hp Hok Hin. unfold InsertIntoLeaf. rewrite Hback.
  rewrite (bind_Some _ _ _ _ _ (leaf_read_leaf _ s leaf p Hid Hp)).
  rewrite (bind_Some _ _ _ _ _ (leaf_read_leaf _ s leaf p Hid Hp)).
  rewrite (bind_Some _ _ _ _ _ (leaf_read_leaf _ s leaf p Hid Hp)).
  rewrite comparator_zero. unfold Leaf.GetSize.
  apply (leaf_key_test p key Hok) in Hin. by rewrite Hin.
Qed.

Lemma RemoveFromLeaf_absent t ctx s leaf leaf_page_id p key :
  back ctx = Some leaf → 0 ≤ leaf → pages_ s !! leaf = Some (LeafPg p) →
  leaf_ok p = true → key ∉ leaf_keys p →
  RemoveFromLeaf t ctx leaf_page_id key s = Some (false, s).
Proof.
  intros Hback Hid Hp Hok Hin. unfold RemoveFromLeaf. rewrite Hback.
  rewrite (bind_Some _ _ _ _ _ (leaf_read_leaf _ s leaf p Hid Hp)).
  rewrite (bind_Some _ _ _ _ _ (leaf_read_leaf _ s leaf p Hid Hp)).
  rewrite (bind_Some _ _ _ _ _ (leaf_read_leaf _ s leaf p Hid Hp)).
  rewrite comparator_zero. unfold Leaf.GetSize.
  pose proof (leaf_key_test p key Hok) as Htest. cbv zeta in Htest.
  destruct (l_size_ p <=? Leaf.FindFirstGreaterOrEqual key p) eqn:E1; [done|].
  apply Z.leb_gt in E1. simpl.
  destruct (_ =? key) eqn:E2; [|done].
  exfalso. apply Hin, Htest. apply andb_true_iff. split; [apply Z.ltb_lt; lia|done].
Qed.

Lemma Insert_write_from_duplicate t h : ∀ s lo hi id key value fuel ctx lid p,
  wf_subtree h s lo hi id = true → (h < fuel)%nat → back ctx = Some id →
  find_leaf h s id key = Some (lid, p) → key ∈ leaf_keys p →
  Insert_write_from fuel t ctx id key value s = Some (false, s).
Proof.
  induction h as [|h IH]; intros s lo hi id key value fuel ctx lid p Hwf Hfuel Hback Hfl Hin.
  - destruct (wf_subtree_leaf _ _ _ _ Hwf) as (q & Hq & Hid & Hok & Hb).
    simpl in Hfl. rewrite Hq in Hfl. injection Hfl as <- <-.
    destruct fuel as [|fuel]; [lia|]. simpl.
    rewrite (bind_Some _ _ _ _ _ (IsLeafPage_leaf s id q Hid Hq)).
    by apply (InsertIntoLeaf_duplicate t ctx s id id q).
  - destruct (wf_subtree_internal _ _ _ _ _ Hwf) as (q & Hq & Hid & Hok & Hseps & Hch).
    destruct (FindPage_spec q key Hok) as (c & Hc & Hfind & _).
    simpl in Hfl. rewrite Hq in Hfl.
    destruct fuel as [|fuel]; [lia|]. simpl.
    rewrite (bind_Some _ _ _ _ _ (IsLeafPage_internal s id q Hid Hq)).
    rewrite Hback.
    rewrite (bind_Some _ _ _ _ _ (internal_read_internal _ s id q Hid Hq)).
    rewrite (bind_Some _ _ _ _ _ (internal_read_internal _ s id q Hid Hq)).
    rewrite (bind_Some _ _ _ _ _ (internal_read_internal _ s id q Hid Hq)).
    rewrite Hfind in *.
    apply (IH s _ _ _ key value fuel _ lid p (Hch c Hc)); [lia|apply back_push_back|done|done].
Qed.

Lemma Insert_write_duplicate t s h root again key value fuel lid p :
  0 ≤ header_page_id_ t → pages_ s !! header_page_id_ t = Some (HeaderPg root) →
  wf_subtree h s None None root = true → (h < fuel)%nat →
  find_leaf h s root key = Some (lid, p) → key ∈ leaf_keys p →
  Insert_write fuel t again key value s = Some (false, s).
Proof.
  intros Hh Hhp Hwf Hfuel Hfl Hin.
  assert (0 ≤ root) as Hroot.
  { destruct h.
    - by destruct (wf_subtree_leaf _ _ _ _ Hwf) as (? & _ & ? & _).
    - by destruct (wf_subtree_internal _ _ _ _ _ Hwf) as (? & _ & ? & _). }
  unfold Insert_write.
  rewrite (bind_Some _ _ _ _ _ (GetRootPageId_header t s root Hh Hhp)).
  cbv zeta. cbn [root_page_id_ ctx_with_root ctx_with_header].
  assert ((root =? INVALID_PAGE_ID) = false) as ->.
  { apply Z.eqb_neq. unfold INVALID_PAGE_ID. lia. }
  rewrite (bind_Some _ _ _ _ _ (GetRootPageId_header t s root Hh Hhp)).
  rewrite Z.eqb_refl. simpl negb. cbv iota.
  unfold bind at 1. unfold ret at 1.
  apply (Insert_write_from_duplicate t h s None None root key value fuel _ lid p);
    [done|done|apply back_push_back|done|done].
Qed.

Lemma Insert_from_duplicate t H again h : ∀ s lo hi id key value fuel lid p,
  (∀ f, (H < f)%nat → Insert_write f t again key value s = Some (false, s)) →
  wf_subtree h s lo hi id = true → (h + H < fuel)%nat →
  find_leaf h s id key = Some (lid, p) → key ∈ leaf_keys p →
  Insert_from fuel t again id key value s = Some (false, s).
Proof.
  induction h as [|h IH]; intros s lo hi id key value fuel lid p Hw Hwf Hfuel Hfl Hin.
  - destruct (wf_subtree_leaf _ _ _ _ Hwf) as (q & Hq & Hid & Hok & Hb).
    simpl in Hfl. rewrite Hq in Hfl. injection Hfl as <- <-.
    destruct fuel as [|fuel]; [lia|]. simpl.
    rewrite (bind_Some _ _ _ _ _ (IsLeafPage_leaf s id q Hid Hq)).
    rewrite (bind_Some _ _ _ _ _ (page_size_leaf s id q Hid Hq)).
    rewrite (bind_Some _ _ _ _ _ (page_max_size_leaf s id q Hid Hq)).
    destruct (l_max_size_ q <=? l_size_ q).
    + apply Hw. lia.
    + apply (InsertIntoLeaf_duplicate t _ s id id q); [apply back_push_back|done..].
  - destruct (wf_subtree_internal _ _ _ _ _ Hwf) as (q & Hq & Hid & Hok & Hseps & Hch).
    destruct (FindPage_spec q key Hok) as (c & Hc & Hfind & _).
    simpl in Hfl. rewrite Hq in Hfl.
    destruct fuel as [|fuel]; [lia|]. simpl.
    rewrite (bind_Some _ _ _ _ _ (IsLeafPage_internal s id q Hid Hq)).
    rewrite (bind_Some _ _ _ _ _ (internal_read_internal _ s id q Hid Hq)).
    rewrite Hfind in *.
    apply (IH s _ _ _ key value fuel lid p Hw (Hch c Hc)); [lia|done|done].
Qed.

Lemma Remove_write_from_absent t h : ∀ s lo hi id key fuel ctx lid p,
  wf_subtree h s lo hi id = true → (h < fuel)%nat → back ctx = Some id →
  find_leaf h s id key = Some (lid, p) → key ∉ leaf_keys p →
  Remove_write_from fuel t ctx id key s = Some (tt, s).
Proof.
  induction h as [|h IH]; intros s lo hi id key fuel ctx lid p Hwf Hfuel Hback Hfl Hin.
  - destruct (wf_subtree_leaf _ _ _ _ Hwf) as (q & Hq & Hid & Hok & Hb).
    simpl in Hfl. rewrite Hq in Hfl. injection Hfl as <- <-.
    destruct fuel as [|fuel]; [lia|]. simpl.
    rewrite (bind_Some _ _ _ _ _ (IsLeafPage_leaf s id q Hid Hq)).
    by rewrite (bind_Some _ _ _ _ _ (RemoveFromLeaf_absent t ctx s id id q key Hback Hid Hq Hok Hin)).
  - destruct (wf_subtree_internal _ _ _ _ _ Hwf) as (q & Hq & Hid & Hok & Hseps & Hch).
    destruct (FindPage_spec q key Hok) as (c & Hc & Hfind & _).
    simpl in Hfl. rewrite Hq in Hfl.
    destruct fuel as [|fuel]; [lia|]. simpl.
    rewrite (bind_Some _ _ _ _ _ (IsLeafPage_internal s id q Hid Hq)).
    rewrite Hback.
    rewrite (bind_Some _ _ _ _ _ (internal_read_internal _ s id q Hid Hq)).
    rewrite (bind_Some _ _ _ _ _ (internal_read_internal _ s id q Hid Hq)).
    rewrite Hfind in *.
    apply (IH s _ _ _ key fuel _ lid p (Hch c Hc)); [lia|apply back_push_back|done|done].
Qed.

Lemma Remove_write_absent t s h root key fuel lid p :
  0 ≤ header_page_id_ t → pages_ s !! header_page_id_ t = Some (HeaderPg root) →
  wf_subtree h s None None root = true → (h < fuel)%nat →
  find_leaf h s root key = Some (lid, p) → key ∉ leaf_keys p →
  Remove_write fuel t key s = Some (tt, s).
Proof.
  intros Hh Hhp Hwf Hfuel Hfl Hin.
  assert (0 ≤ root) as Hroot.
  { destruct h.
    - by destruct (wf_subtree_leaf _ _ _ _ Hwf) as (? & _ & ? & _).
    - by destruct (wf_subtree_internal _ _ _ _ _ Hwf) as (? & _ & ? & _). }
  unfold Remove_write.
  rewrite (bind_Some _ _ _ _ _ (GetRootPageId_header t s root Hh Hhp)).
  cbv zeta.
  destruct (root =? INVALID_PAGE_ID) eqn:E; [apply Z.eqb_eq in E; unfold INVALID_PAGE_ID in E; lia|].
  apply (Remove_write_from_absent t h s None None root key fuel _ lid p);
    [done|done|apply back_push_back|done|done].
Qed.

Lemma Remove_from_absent t H h : ∀ s lo hi id key fuel ctx lid p,
  (∀ f, (H < f)%nat → Remove_write f t key s = Some (tt, s)) →
  wf_subtree h s lo hi id = true → (h + H < fuel)%nat →
  find_leaf h s id key = Some (lid, p) → key ∉ leaf_keys p →
  Remove_from fuel t ctx id key s = Some (tt, s).
Proof.
  induction h as [|h IH]; intros s lo hi id key fuel ctx lid p Hw Hwf Hfuel Hfl Hin.
  - destruct (wf_subtree_leaf _ _ _ _ Hwf) as (q & Hq & Hid & Hok & Hb).
    simpl in Hfl. rewrite Hq in Hfl. injection Hfl as <- <-.
    destruct fuel as [|fuel]; [lia|]. simpl.
    rewrite (bind_Some _ _ _ _ _ (IsLeafPage_leaf s id q Hid Hq)).
    rewrite (bind_Some _ _ _ _ _ (page_size_leaf s id q Hid Hq)).
    destruct (l_size_ q <=? _).
    + apply Hw. lia.
    + by rewrite (bind_Some _ _ _ _ _
        (RemoveFromLeaf_absent t _ s id id q key (back_push_back _ _) Hid Hq Hok Hin)).
  - destruct (wf_subtree_internal _ _ _ _ _ Hwf) as (q & Hq & Hid & Hok & Hseps & Hch).
    destruct (FindPage_spec q key Hok) as (c & Hc & Hfind & _).
    simpl in Hfl. rewrite Hq in Hfl.
    destruct fuel as [|fuel]; [lia|]. simpl.
    rewrite (bind_Some _ _ _ _ _ (IsLeafPage_internal s id q Hid Hq)).
    rewrite (bind_Some _ _ _ _ _ (internal_read_internal _ s id q Hid Hq)).
    rewrite Hfind in *.
    apply (IH s _ _ _ key fuel ctx lid p Hw (Hch c Hc)); [lia|done|done].
Qed.

Lemma wf_tree_inv t s h :
  wf_tree t s h = true →
  0 ≤ header_page_id_ t ∧
  ∃ root, pages_ s !! header_page_id_ t = Some (HeaderPg root) ∧
          (root = INVALID_PAGE_ID ∨ (0 ≤ root ∧ wf_subtree h s None None root = true)).
Proof.
  unfold wf_tree. rewrite andb_true_iff, Z.leb_le. intros [Hh H]. split; [done|].
  destruct (pages_ s !! header_page_id_ t) as [[|root| |]|]; try done.
  exists root. split; [done|]. apply orb_true_iff in H as [H%Z.eqb_eq|H]; [by left|right].
  split; [|done]. destruct h.
  - by destruct (wf_subtree_leaf _ _ _ _ H) as (? & _ & ? & _).
  - by destruct (wf_subtree_internal _ _ _ _ _ H) as (? & _ & ? & _).
Qed.

Lemma elem_of_fst_iff (es es' : list (Z * Z)) key :
  (∀ e, e.1 = key → (e ∈ es ↔ e ∈ es')) → key ∈ es.*1 ↔ key ∈ es'.*1.
Proof.
  intros H. rewrite !list_elem_of_fmap. split.
  - intros (e & -> & He). exists e. split; [done|]. by apply H.
  - intros (e & -> & He). exists e. split; [done|]. by apply H.
Qed.

(** ** Splitting a leaf *)

Lemma leaf_all_data_entries p :
  0 ≤ l_size_ p →
  l_size_ p ≤ Z.of_nat (length (l_key_array_ p)) →
  l_size_ p ≤ Z.of_nat (length (l_rid_array_ p)) →
  leaf_all_data p = Leaf.entries p.
Proof.
  intros H0 Hk Hr. apply list_eq_same_length with (Z.to_nat (l_size_ p)).
  - by apply length_entries.
  - unfold leaf_all_data, Leaf.GetSize. rewrite length_fmap, length_seqZ. done.
  - intros i x y Hi Hx Hy. unfold leaf_all_data, Leaf.GetSize in Hx.
    rewrite list_lookup_fmap, lookup_seqZ_lt in Hx by lia. simpl in Hx.
    rewrite <- (Nat2Z.id i) in Hy. rewrite entries_lookup in Hy by lia.
    rewrite Z.add_0_l in Hx. congruence.
Qed.

Lemma leaf_set_slot_get i k v p j :
  0 ≤ i < Z.of_nat (length (l_key_array_ p)) →
  0 ≤ i < Z.of_nat (length (l_rid_array_ p)) →
  (Leaf.KeyAt j (leaf_set_slot i k v p), Leaf.ValueAt j (leaf_set_slot i k v p)) =
  if decide (j = i) then (k, v) else (Leaf.KeyAt j p, Leaf.ValueAt j p).
Proof.
  intros Hk Hr. unfold Leaf.KeyAt, Leaf.ValueAt, leaf_set_slot. simpl.
  destruct (decide (j = i)) as [->|Hne].
  - by rewrite !aget_aset_eq.
  - by rewrite !aget_aset_ne.
Qed.

(** What the loops of [Insert_Set_old] and [Insert_Set_new] build: [count]
    entries of [all_data] from index [from] on, in the first slots of the
    page. *)
Lemma fill_loop from count all_data p :
  0 ≤ from → 0 ≤ count → from + count ≤ Z.of_nat (length all_data) →
  count ≤ Z.of_nat (length (l_key_array_ p)) →
  count ≤ Z.of_nat (length (l_rid_array_ p)) →
  let p' :=
    for_up from (from + count)
      (λ i p,
         let e := default (0, 0) (all_data !! Z.to_nat i) in
         let p1 := leaf_set_slot (i - from) e.1 e.2 p in
         leaf_set_size (l_size_ p1 + 1) p1)
      (leaf_set_size 0 p) in
  l_size_ p' = count ∧ l_max_size_ p' = l_max_size_ p ∧
  l_next_page_id_ p' = l_next_page_id_ p ∧
  length (l_key_array_ p') = length (l_key_array_ p) ∧
  length (l_rid_array_ p') = length (l_rid_array_ p) ∧
  Leaf.entries p' = take (Z.to_nat count) (drop (Z.to_nat from) all_data).
Proof.
  intros Hfrom Hcount Hall Hk Hr p'.
  assert (l_size_ p' = count ∧ l_max_size_ p' = l_max_size_ p ∧
          l_next_page_id_ p' = l_next_page_id_ p ∧
          length (l_key_array_ p') = length (l_key_array_ p) ∧
          length (l_rid_array_ p') = length (l_rid_array_ p) ∧
          ∀ j, 0 ≤ j < count →
            all_data !! Z.to_nat (from + j) = Some (Leaf.KeyAt j p', Leaf.ValueAt j p')) as H.
  { subst p'.
    pose proof (for_up_ind (λ i q,
      l_size_ q = i - from ∧ l_max_size_ q = l_max_size_ p ∧
      l_next_page_id_ q = l_next_page_id_ p ∧
      length (l_key_array_ q) = length (l_key_array_ p) ∧
      length (l_rid_array_ q) = length (l_rid_array_ p) ∧
      ∀ j, 0 ≤ j < i - from →
        all_data !! Z.to_nat (from + j) = Some (Leaf.KeyAt j q, Leaf.ValueAt j q))
      from (from + count)
      (λ i p,
         let e := default (0, 0) (all_data !! Z.to_nat i) in
         let p1 := leaf_set_slot (i - from) e.1 e.2 p in
         leaf_set_size (l_size_ p1 + 1) p1)
      (leaf_set_size 0 p)) as Hind.
    cbv beta in Hind. replace (from + count - from) with count in Hind by lia.
    apply Hind.
    - lia.
    - simpl. repeat split; try done; try lia.
    - intros i q Hi (Hsz & Hmax & Hnext & Hkl & Hrl & Hslots). cbv zeta.
      simpl. rewrite !length_aset. repeat split; try done; try lia.
      intros j Hj.
      change (Leaf.KeyAt j _, Leaf.ValueAt j _) with
        (Leaf.KeyAt j (leaf_set_slot (i - from)
           (default (0, 0) (all_data !! Z.to_nat i)).1
           (default (0, 0) (all_data !! Z.to_nat i)).2 q),
         Leaf.ValueAt j (leaf_set_slot (i - from)
           (default (0, 0) (all_data !! Z.to_nat i)).1
           (default (0, 0) (all_data !! Z.to_nat i)).2 q)).
      rewrite leaf_set_slot_get by lia.
      destruct (decide (j = i - from)) as [->|Hne].
      + replace (from + (i - from)) with i by lia.
        destruct (lookup_lt_is_Some_2 all_data (Z.to_nat i)) as [[k v] ->]; [lia|]. done.
      + apply Hslots. lia. }
  destruct H as (Hsz & Hmax & Hnext & Hkl & Hrl & Hslots).
  repeat split; try done.
  apply list_eq_same_length with (Z.to_nat count).
  - rewrite length_take, length_drop. lia.
  - rewrite <- Hsz. apply length_entries; lia.
  - intros i x y Hi Hx Hy.
    rewrite <- (Nat2Z.id i) in Hx. rewrite entries_lookup in Hx by lia.
    rewrite lookup_take_lt, lookup_drop in Hy by lia.
    specialize (Hslots (Z.of_nat i) ltac:(lia)).
    replace (Z.to_nat (from + Z.of_nat i)) with (Z.to_nat from + i)%nat in Hslots by lia.
    congruence.
Qed.

Lemma for_up_ext {St} lo hi (body body' : Z → St → St) s :
  (∀ i q, lo ≤ i < hi → body i q = body' i q) →
  for_up lo hi body s = for_up lo hi body' s.
Proof.
  intros H. destruct (decide (lo ≤ hi)) as [Hle|Hgt].
  - apply (for_up_ind (λ i q, q = for_up lo i body' s)); [done| |].
    + by rewrite for_up_nil.
    + intros i q Hi ->. rewrite for_up_snoc by lia. by apply H.
  - by rewrite !for_up_nil by lia.
Qed.

Lemma Insert_Set_old_spec split_idx all_data p :
  0 ≤ split_idx ≤ Z.of_nat (length all_data) →
  split_idx ≤ Z.of_nat (length (l_key_array_ p)) →
  split_idx ≤ Z.of_nat (length (l_rid_array_ p)) →
  let p' := Leaf.Insert_Set_old split_idx all_data p in
  l_size_ p' = split_idx ∧ l_max_size_ p' = l_max_size_ p ∧
  l_next_page_id_ p' = l_next_page_id_ p ∧
  length (l_key_array_ p') = length (l_key_array_ p) ∧
  length (l_rid_array_ p') = length (l_rid_array_ p) ∧
  Leaf.entries p' = take (Z.to_nat split_idx) all_data.
Proof.
  intros Hs Hk Hr. pose proof (fill_loop 0 split_idx all_data p) as H.
  cbv zeta in H. rewrite Z.add_0_l in H. unfold Leaf.Insert_Set_old. cbv zeta.
  rewrite (for_up_ext 0 split_idx _
    (λ i p,
       let e := default (0, 0) (all_data !! Z.to_nat i) in
       let p1 := leaf_set_slot (i - 0) e.1 e.2 p in
       leaf_set_size (l_size_ p1 + 1) p1)).
  - apply H; lia.
  - intros i q _. cbv zeta. by rewrite Z.sub_0_r.
Qed.

Lemma Insert_Set_new_spec split_idx all_data p :
  0 ≤ split_idx ≤ Z.of_nat (length all_data) →
  Z.of_nat (length all_data) - split_idx ≤ Z.of_nat (length (l_key_array_ p)) →
  Z.of_nat (length all_data) - split_idx ≤ Z.of_nat (length (l_rid_array_ p)) →
  let p' := Leaf.Insert_Set_new split_idx all_data p in
  l_size_ p' = Z.of_nat (length all_data) - split_idx ∧ l_max_size_ p' = l_max_size_ p ∧
  l_next_page_id_ p' = l_next_page_id_ p ∧
  length (l_key_array_ p') = length (l_key_array_ p) ∧
  length (l_rid_array_ p') = length (l_rid_array_ p) ∧
  Leaf.entries p' = drop (Z.to_nat split_idx) all_data.
Proof.
  intros Hs Hk Hr.
  pose proof (fill_loop split_idx (Z.of_nat (length all_data) - split_idx) all_data p) as H.
  cbv zeta in H.
  replace (split_idx + (Z.of_nat (length all_data) - split_idx))
    with (Z.of_nat (length all_data)) in H by lia.
  unfold Leaf.Insert_Set_new. cbv zeta.
  destruct H as (H1 & H2 & H3 & H4 & H5 & H6); try lia.
  repeat split; try done. rewrite H6. apply take_ge. rewrite length_drop. lia.
Qed.

Lemma ascending_insert ks : ∀ pos key,
  ascending ks = true →
  (∀ i k, (i < pos)%nat → ks !! i = Some k → k < key) →
  (∀ i k, (pos ≤ i)%nat → ks !! i = Some k → key < k) →
  ascending (take pos ks ++ key :: drop pos ks) = true.
Proof.
  induction ks as [|x ks IH]; intros pos key Hasc Hlow Hhigh.
  - by destruct pos.
  - destruct pos as [|pos].
    + simpl. apply andb_true_iff. split; [|done]. apply Z.ltb_lt. by apply (Hhigh 0%nat).
    + apply ascending_cons in Hasc as [Hhd Hasc].
      change (ascending (x :: (take pos ks ++ key :: drop pos ks)) = true).
      apply ascending_cons. split.
      * intros b Hb. destruct pos as [|pos].
        -- simpl in Hb. injection Hb as <-. by apply (Hlow 0%nat); [lia|].
        -- destruct ks as [|y ks]; simpl in Hb.
           ++ injection Hb as <-. by apply (Hlow 0%nat); [lia|].
           ++ injection Hb as <-. by apply Hhd.
      * apply IH; [done| |].
        -- intros i k Hi Hk. apply (Hlow (S i)); [lia|done].
        -- intros i k Hi Hk. apply (Hhigh (S i)); [lia|done].
Qed.

Lemma emplace_keys pos e (all_data : list (Z * Z)) :
  (emplace pos e all_data).*1 =
  take (Z.to_nat pos) all_data.*1 ++ e.1 :: drop (Z.to_nat pos) all_data.*1.
Proof. unfold emplace. by rewrite fmap_app, fmap_cons, fmap_take, fmap_drop. Qed.

Lemma emplace_perm pos e (all_data : list (Z * Z)) :
  emplace pos e all_data ≡ₚ e :: all_data.
Proof.
  unfold emplace. rewrite <- Permutation_middle. by rewrite take_drop.
Qed.

Lemma length_emplace pos e (all_data : list (Z * Z)) :
  length (emplace pos e all_data) = S (length all_data).
Proof. by rewrite (Permutation_length (emplace_perm pos e all_data)). Qed.

(** The list [InsertIntoLeaf] builds for a split is sorted. *)
Lemma emplace_sorted p key value :
  leaf_ok p = true → key ∉ leaf_keys p →
  ascending (emplace (Leaf.FindFirstGreaterOrEqual key p) (key, value) (Leaf.entries p)).*1 = true.
Proof.
  intros Hok Hnin. pose proof (leaf_ok_inv p Hok) as (Hsz & Hk & Hr & Hasc).
  destruct (FindFirstGreaterOrEqual_spec p key Hok) as (Hpos & Hlow & Hhigh).
  rewrite emplace_keys, entries_keys by lia. simpl.
  apply ascending_insert; [done| |].
  - intros i k Hi Hik.
    assert (i < length (leaf_keys p))%nat as Hlt by (by eapply lookup_lt_Some).
    unfold leaf_keys in Hlt. rewrite length_take in Hlt.
    rewrite <- (Nat2Z.id i) in Hik. rewrite leaf_keys_lookup in Hik by lia.
    injection Hik as <-. apply Hlow. lia.
  - intros i k Hi Hik.
    assert (i < length (leaf_keys p))%nat as Hlt by (by eapply lookup_lt_Some).
    unfold leaf_keys in Hlt. rewrite length_take in Hlt.
    rewrite <- (Nat2Z.id i) in Hik. rewrite leaf_keys_lookup in Hik by lia.
    injection Hik as <-.
    assert (key ≤ Leaf.KeyAt (Z.of_nat i) p) by (apply Hhigh; lia).
    assert (Leaf.KeyAt (Z.of_nat i) p ≠ key); [|lia].
    intros Heq. apply Hnin. apply elem_of_leaf_keys; [lia|]. exists (Z.of_nat i). split; [lia|done].
Qed.

(** ** Writing pages *)

Lemma NewPage_ok s :
  head (new_page_fails_ s) ≠ Some true →
  NewPage s =
    Some (next_page_id_ s,
          mkPool (<[next_page_id_ s := RawPage]> (pages_ s)) (next_page_id_ s + 1)
                 (tail (new_page_fails_ s))).
Proof.
  intros H. unfold NewPage, bind, get. destruct (new_page_fails_ s) as [|[] rest]; try done.
Qed.

Lemma leaf_write_leaf f s id p :
  0 ≤ id → pages_ s !! id = Some (LeafPg p) →
  leaf_write id f s = Some (tt, with_pages (<[id := LeafPg (f p)]> (pages_ s)) s).
Proof. intros Hid Hpg. unfold leaf_write, bind. by rewrite (fetch_page s id _ Hid Hpg). Qed.

Lemma leaf_write_raw f s id :
  0 ≤ id → pages_ s !! id = Some RawPage →
  leaf_write id f s = Some (tt, with_pages (<[id := LeafPg (f zero_leaf)]> (pages_ s)) s).
Proof. intros Hid Hpg. unfold leaf_write, bind. by rewrite (fetch_page s id _ Hid Hpg). Qed.

Lemma spec_split_index_range n : 1 ≤ n → 1 ≤ spec_split_index n ≤ n.
Proof.
  intros Hn. unfold spec_split_index.
  pose proof (Z.div_mod (n + 1 + 1) 2 ltac:(lia)). pose proof (Z.mod_pos_bound (n + 1 + 1) 2 ltac:(lia)).
  lia.
Qed.

Lemma internal_write_internal f s id p :
  0 ≤ id → pages_ s !! id = Some (InternalPg p) →
  internal_write id f s = Some (tt, with_pages (<[id := InternalPg (f p)]> (pages_ s)) s).
Proof. intros Hid Hpg. unfold internal_write, bind. by rewrite (fetch_page s id _ Hid Hpg). Qed.

Lemma internal_write_raw f s id :
  0 ≤ id → pages_ s !! id = Some RawPage →
  internal_write id f s =
    Some (tt, with_pages (<[id := InternalPg (f zero_internal)]> (pages_ s)) s).
Proof. intros Hid Hpg. unfold internal_write, bind. by rewrite (fetch_page s id _ Hid Hpg). Qed.

Lemma set_root_header t s r r' :
  0 ≤ header_page_id_ t → pages_ s !! header_page_id_ t = Some (HeaderPg r) →
  set_root t r' s =
    Some (tt, with_pages (<[header_page_id_ t := HeaderPg r']> (pages_ s)) s).
Proof. intros Hid Hpg. unfold set_root, bind. by rewrite (fetch_page s _ _ Hid Hpg). Qed.

(** [CreateNewRoot] makes an internal page of two children around the
    separator it is given, and names it in the header page. *)
Lemma CreateNewRoot_spec t ctx s left_page_id split_key right_page_id r :
  head (new_page_fails_ s) ≠ Some true → 0 ≤ next_page_id_ s →
  0 ≤ header_page_id_ t → pages_ s !! header_page_id_ t = Some (HeaderPg r) →
  header_page_id_ t ≠ next_page_id_ s →
  ∃ root_page,
    CreateNewRoot t left_page_id split_key right_page_id ctx s =
      Some (true,
            mkPool (<[header_page_id_ t := HeaderPg (next_page_id_ s)]>
                      (<[next_page_id_ s := InternalPg root_page]> (pages_ s)))
                   (next_page_id_ s + 1) (tail (new_page_fails_ s))) ∧
    Internal.children root_page = [left_page_id; right_page_id] ∧
    Internal.separators root_page = [split_key] ∧
    i_max_size_ root_page = internal_max_size_ t.
Proof.
  intros Hnew Hid Hh Hhp Hne.
  set (id := next_page_id_ s).
  set (root_page :=
    Internal.SetKeyAt 1 split_key
      (Internal.SetValueAt 1 right_page_id
         (Internal.SetValueAt 0 left_page_id
            (Internal.SetSize 2 (Internal.Init (internal_max_size_ t) zero_internal))))).
  exists root_page. split; [|by repeat split].
  unfold CreateNewRoot. rewrite (bind_Some _ _ _ _ _ (NewPage_ok s Hnew)). fold id.
  assert ((id =? INVALID_PAGE_ID) = false) as ->.
  { apply Z.eqb_neq. unfold INVALID_PAGE_ID. lia. }
  erewrite bind_Some; [|apply internal_write_raw; [done|simpl; apply lookup_insert_eq]].
  erewrite bind_Some; [|apply internal_write_internal; [done|simpl; apply lookup_insert_eq]].
  erewrite bind_Some; [|apply internal_write_internal; [done|simpl; apply lookup_insert_eq]].
  erewrite bind_Some; [|apply internal_write_internal; [done|simpl; apply lookup_insert_eq]].
  erewrite bind_Some; [|apply internal_write_internal; [done|simpl; apply lookup_insert_eq]].
  erewrite bind_Some;
    [|apply (set_root_header t _ r); [done|simpl; by rewrite !lookup_insert_ne by done]].
  unfold ret, with_pages. simpl. do 3 f_equal.
  apply map_eq. intros i.
  destruct (decide (i = header_page_id_ t)) as [->|Hi1].
  { by rewrite !lookup_insert_eq. }
  rewrite !(lookup_insert_ne _ (header_page_id_ t) i) by done.
  destruct (decide (i = id)) as [->|Hi2].
  { by rewrite !lookup_insert_eq. }
  by rewrite !lookup_insert_ne by done.
Qed.

Lemma InsertIntoLeaf_split t ctx s leaf leaf_page_id p key value :
  back ctx = Some leaf → 0 ≤ leaf → pages_ s !! leaf = Some (LeafPg p) →
  leaf_ok p = true → 1 ≤ l_size_ p → l_max_size_ p ≤ l_size_ p →
  key ∉ leaf_keys p →
  head (new_page_fails_ s) ≠ Some true → leaf < next_page_id_ s →
  let n := l_size_ p in
  let new_leaf_id := next_page_id_ s in
  let all_data :=
    emplace (Leaf.FindFirstGreaterOrEqual key p) (key, value) (Leaf.entries p) in
  let split_idx := spec_split_index n in
  ∃ s1 left_page right_page split_key,
    all_data ≡ₚ (key, value) :: Leaf.entries p ∧
    ascending all_data.*1 = true ∧
    Z.of_nat (length all_data) = n + 1 ∧
    pages_ s1 !! leaf = Some (LeafPg left_page) ∧
    pages_ s1 !! new_leaf_id = Some (LeafPg right_page) ∧
    (∀ id, id ≠ leaf → id ≠ new_leaf_id → pages_ s1 !! id = pages_ s !! id) ∧
    Leaf.entries left_page = take (Z.to_nat split_idx) all_data ∧
    Leaf.entries right_page = drop (Z.to_nat split_idx) all_data ∧
    l_next_page_id_ right_page = l_next_page_id_ p ∧
    l_next_page_id_ left_page = new_leaf_id ∧
    (l_size_ left_page = split_idx ∧ l_size_ right_page = n + 1 - split_idx ∧
     l_max_size_ left_page = l_max_size_ p ∧ l_max_size_ right_page = leaf_max_size_ t) ∧
    (Leaf.entries right_page).*1 !! 0%nat = Some split_key ∧
    InsertIntoLeaf t ctx leaf_page_id key value s =
      (do root <- GetRootPageId t;
       if leaf_page_id =? root then
         CreateNewRoot t leaf_page_id split_key new_leaf_id ctx
       else
         match back (pop_back ctx) with
         | None => stuck
         | Some inter_page =>
             InsertIntoInternal (length (write_set_ ctx)) t (pop_back ctx) inter_page
               split_key new_leaf_id
         end) s1 ∧
    (0 ≤ header_page_id_ t < next_page_id_ s →
     pages_ s !! header_page_id_ t = Some (HeaderPg leaf_page_id) →
     header_page_id_ t ≠ leaf →
     head (tail (new_page_fails_ s)) ≠ Some true →
     ∃ s2 root_page,
       InsertIntoLeaf t ctx leaf_page_id key value s = Some (true, s2) ∧
       pages_ s2 !! header_page_id_ t = Some (HeaderPg (new_leaf_id + 1)) ∧
       pages_ s2 !! (new_leaf_id + 1) = Some (InternalPg root_page) ∧
       Internal.children root_page = [leaf_page_id; new_leaf_id] ∧
       Internal.separators root_page = [split_key] ∧
       pages_ s2 !! leaf = Some (LeafPg left_page) ∧
       pages_ s2 !! new_leaf_id = Some (LeafPg right_page)).
Proof.
  intros Hback Hleaf Hp Hok Hn Hfull Hnin Hnew Hlt n new_leaf_id all_data split_idx.
  assert (Hid : 0 ≤ next_page_id_ s) by lia.
  assert (Hne : next_page_id_ s ≠ leaf) by lia.
  pose proof (leaf_ok_inv p Hok) as (Hsz & Hk & Hr & Hasc).
  destruct (FindFirstGreaterOrEqual_spec p key Hok) as (Hpos & _).
  assert (Hlen : Z.of_nat (length all_data) = n + 1).
  { unfold all_data. rewrite length_emplace, length_entries by lia. lia. }
  pose proof (spec_split_index_range n Hn) as Hsplit. fold split_idx in Hsplit.
  assert (LEAF_PAGE_SLOT_CNT = 254) as Hcnt by reflexivity.
  (* the pages the split leaves *)
  set (fresh := Leaf.Init (leaf_max_size_ t) zero_leaf).
  set (left0 := Leaf.Insert_Set_old split_idx all_data p).
  set (right0 := Leaf.Insert_Set_new split_idx all_data fresh).
  destruct (Insert_Set_old_spec split_idx all_data p) as (Hl1 & Hl2 & Hl3 & Hl4 & Hl5 & Hl6);
    [lia..|]. fold left0 in Hl1, Hl2, Hl3, Hl4, Hl5, Hl6.
  assert (length (l_key_array_ fresh) = Z.to_nat LEAF_PAGE_SLOT_CNT) as Hfk.
  { unfold fresh, Leaf.Init, zero_leaf. cbn [l_key_array_]. apply length_replicate. }
  assert (length (l_rid_array_ fresh) = Z.to_nat LEAF_PAGE_SLOT_CNT) as Hfr.
  { unfold fresh, Leaf.Init, zero_leaf. cbn [l_rid_array_]. apply length_replicate. }
  destruct (Insert_Set_new_spec split_idx all_data fresh) as (Hr1 & Hr2 & Hr3 & Hr4 & Hr5 & Hr6);
    [lia..|]. fold right0 in Hr1, Hr2, Hr3, Hr4, Hr5, Hr6.
  set (left_page := Leaf.SetNextPageId new_leaf_id left0).
  set (right_page := Leaf.SetNextPageId (l_next_page_id_ p) right0).
  set (s1 := mkPool (<[leaf := LeafPg left_page]> (<[new_leaf_id := LeafPg right_page]> (pages_ s)))
                    (new_leaf_id + 1) (tail (new_page_fails_ s))).
  exists s1, left_page, right_page, (first_at all_data split_idx).
  split; [apply emplace_perm|]. split; [by apply emplace_sorted|]. split; [done|].
  split; [simpl; by rewrite lookup_insert_eq|].
  split; [simpl; rewrite lookup_insert_ne by done; by rewrite lookup_insert_eq|].
  split; [intros id H1 H2; simpl; by rewrite !lookup_insert_ne by done|].
  split; [exact Hl6|]. split; [exact Hr6|]. split; [done|]. split; [done|].
  split.
  { split; [exact Hl1|]. split; [simpl; lia|]. split; [exact Hl2|exact Hr2]. }
  split.
  { change (Leaf.entries right_page) with (Leaf.entries right0). rewrite Hr6.
    rewrite list_lookup_fmap, lookup_drop, Nat.add_0_r. unfold first_at.
    destruct (lookup_lt_is_Some_2 all_data (Z.to_nat split_idx)) as [e ->]; [lia|]. done. }
  assert (Hcall : InsertIntoLeaf t ctx leaf_page_id key value s =
      (do root <- GetRootPageId t;
       if leaf_page_id =? root then
         CreateNewRoot t leaf_page_id (first_at all_data split_idx) new_leaf_id ctx
       else
         match back (pop_back ctx) with
         | None => stuck
         | Some inter_page =>
             InsertIntoInternal (length (write_set_ ctx)) t (pop_back ctx) inter_page
               (first_at all_data split_idx) new_leaf_id
         end) s1).
  { unfold InsertIntoLeaf. rewrite Hback.
    rewrite (bind_Some _ _ _ _ _ (leaf_read_leaf _ s leaf p Hleaf Hp)).
    rewrite (bind_Some _ _ _ _ _ (leaf_read_leaf _ s leaf p Hleaf Hp)).
    rewrite (bind_Some _ _ _ _ _ (leaf_read_leaf _ s leaf p Hleaf Hp)).
    rewrite comparator_zero. unfold Leaf.GetSize.
    assert ((Leaf.FindFirstGreaterOrEqual key p <? l_size_ p) &&
            (Leaf.KeyAt (Leaf.FindFirstGreaterOrEqual key p) p =? key) = false) as ->.
    { apply not_true_is_false. intros H. by apply (leaf_key_test p key Hok) in H. }
    rewrite (bind_Some _ _ _ _ _ (leaf_read_leaf _ s leaf p Hleaf Hp)).
    unfold Leaf.GetMaxSize.
    assert ((l_size_ p <? l_max_size_ p) = false) as -> by (apply Z.ltb_ge; lia).
    rewrite (bind_Some _ _ _ _ _ (leaf_read_leaf _ s leaf p Hleaf Hp)).
    rewrite leaf_all_data_entries by lia. cbv zeta. fold all_data.
    replace ((Z.of_nat (length all_data) + 1) / 2) with split_idx
      by (rewrite Hlen; reflexivity).
    rewrite (bind_Some _ _ _ _ _ (NewPage_ok s Hnew)). fold new_leaf_id.
    assert ((new_leaf_id =? INVALID_PAGE_ID) = false) as ->.
    { apply Z.eqb_neq. unfold INVALID_PAGE_ID. lia. }
    erewrite bind_Some; [|apply leaf_write_raw; [done|simpl; apply lookup_insert_eq]].
    erewrite bind_Some;
      [|apply (leaf_write_leaf _ _ leaf p); [done|simpl; by rewrite !lookup_insert_ne by done]].
    erewrite bind_Some;
      [|apply (leaf_write_leaf _ _ new_leaf_id fresh); [done|simpl;
         rewrite lookup_insert_ne by done; apply lookup_insert_eq]].
    erewrite bind_Some;
      [|apply (leaf_read_leaf _ _ leaf left0); [done|simpl;
         rewrite lookup_insert_ne by done; apply lookup_insert_eq]].
    unfold Leaf.GetNextPageId. fold left0 in Hl3. rewrite Hl3.
    erewrite bind_Some;
      [|apply (leaf_write_leaf _ _ new_leaf_id right0); [done|simpl; apply lookup_insert_eq]].
    erewrite bind_Some;
      [|apply (leaf_write_leaf _ _ leaf left0); [done|simpl;
         rewrite !lookup_insert_ne by done; apply lookup_insert_eq]].
    f_equal. unfold s1, with_pages. simpl. f_equal.
    apply map_eq. intros i.
    destruct (decide (i = leaf)) as [->|Hi1].
    { by rewrite !lookup_insert_eq. }
    rewrite !(lookup_insert_ne _ leaf i) by done.
    destruct (decide (i = new_leaf_id)) as [->|Hi2].
    { by rewrite !lookup_insert_eq. }
    by rewrite !lookup_insert_ne by done.
}

  split; [exact Hcall|].
  intros Hh Hhp Hhl Hnew2. rewrite Hcall.
  assert (pages_ s1 !! header_page_id_ t = Some (HeaderPg leaf_page_id)) as Hhp1.
  { unfold s1. simpl. rewrite !lookup_insert_ne by (unfold new_leaf_id; lia). done. }
  rewrite (bind_Some _ _ _ _ _ (GetRootPageId_header t s1 leaf_page_id ltac:(lia) Hhp1)).
  rewrite Z.eqb_refl.
  destruct (CreateNewRoot_spec t ctx s1 leaf_page_id (first_at all_data split_idx)
              new_leaf_id leaf_page_id) as (root_page & Hroot & Hch & Hsep & _);
    [done|simpl; lia|lia|done|simpl; unfold new_leaf_id; lia|].
  eexists _, root_page. split; [exact Hroot|]. simpl.
  split; [by rewrite lookup_insert_eq|].
  split; [rewrite lookup_insert_ne by (unfold new_leaf_id; lia); by rewrite lookup_insert_eq|].
  split; [done|]. split; [done|].
  split.
  - rewrite !lookup_insert_ne by (unfold new_leaf_id; lia). by rewrite lookup_insert_eq.
  - rewrite !lookup_insert_ne by (unfold new_leaf_id; lia). by rewrite lookup_insert_eq.
Qed.

(** ** Sizes *)

Lemma foldl_invariant {St A} (P : St → Prop) (body : A → St → St) l s :
  (∀ i q, P q → P (body i q)) → P s → P (foldl (λ q i, body i q) s l).
Proof. intros H. revert s. induction l as [|x l IH]; intros s Hs; simpl; [done|]. by apply IH, H. Qed.

Lemma RemoveAt_size index p :
  l_size_ (Leaf.RemoveAt index p) = l_size_ p - 1 ∧
  l_max_size_ (Leaf.RemoveAt index p) = l_max_size_ p.
Proof.
  unfold Leaf.RemoveAt. cbv zeta. simpl.
  assert (l_size_ (for_up index (l_size_ p - 1)
            (λ i p, leaf_set_slot i (aget (l_key_array_ p) (i + 1))
                      (aget (l_rid_array_ p) (i + 1)) p) p) = l_size_ p ∧
          l_max_size_ (for_up index (l_size_ p - 1)
            (λ i p, leaf_set_slot i (aget (l_key_array_ p) (i + 1))
                      (aget (l_rid_array_ p) (i + 1)) p) p) = l_max_size_ p) as [-> ->]; [|done].
  unfold for_up.
  apply (foldl_invariant (λ q, l_size_ q = l_size_ p ∧ l_max_size_ q = l_max_size_ p)); [|done].
  by intros i q [? ?].
Qed.

Lemma Insert_size key value p :
  l_size_ (Leaf.Insert key value p) = l_size_ p + 1 ∧
  l_max_size_ (Leaf.Insert key value p) = l_max_size_ p.
Proof.
  unfold Leaf.Insert, Leaf.InsertAt. cbv zeta. simpl.
  assert (l_size_ (Leaf.shift_right (Leaf.FindFirstGreaterOrEqual key p) p) = l_size_ p ∧
          l_max_size_ (Leaf.shift_right (Leaf.FindFirstGreaterOrEqual key p) p) = l_max_size_ p)
    as [-> ->]; [|done].
  unfold Leaf.shift_right, for_down.
  apply (foldl_invariant (λ q, l_size_ q = l_size_ p ∧ l_max_size_ q = l_max_size_ p)); [|done].
  by intros i q [? ?].
Qed.

Lemma IsLeafUnderflow_iff p :
  IsLeafUnderflow p = true ↔ l_size_ p < code_min_size (l_max_size_ p).
Proof. unfold IsLeafUnderflow, code_min_size, Leaf.GetSize, Leaf.GetMaxSize. apply Z.ltb_lt. Qed.

Lemma IsInternalUnderflow_iff p :
  IsInternalUnderflow p = true ↔ i_size_ p < code_min_size (i_max_size_ p).
Proof.
  unfold IsInternalUnderflow, code_min_size, Internal.GetSize, Internal.GetMaxSize.
  apply Z.ltb_lt.
Qed.

Lemma code_min_size_half cap : 0 ≤ cap → cap ≤ 2 * code_min_size cap ≤ cap + 1.
Proof.
  intros H. unfold code_min_size. rewrite Z.quot_div_nonneg by lia.
  pose proof (Z.div_mod (cap + 1) 2 ltac:(lia)). pose proof (Z.mod_pos_bound (cap + 1) 2 ltac:(lia)).
  lia.
Qed.

Lemma spec_min_size_half cap : 0 ≤ cap → cap + 1 ≤ 2 * spec_min_size cap ≤ cap + 2.
Proof.
  intros H. unfold spec_min_size.
  pose proof (Z.div_mod (cap + 1 + 1) 2 ltac:(lia)).
  pose proof (Z.mod_pos_bound (cap + 1 + 1) 2 ltac:(lia)). lia.
Qed.

(** A removal that leaves the leaf at or above the least size touches the
    leaf only. *)
Lemma RemoveFromLeaf_no_underflow t ctx s leaf leaf_page_id p key :
  back ctx = Some leaf → 0 ≤ leaf → pages_ s !! leaf = Some (LeafPg p) →
  leaf_ok p = true → key ∈ leaf_keys p →
  code_min_size (l_max_size_ p) < l_size_ p →
  ∃ p', RemoveFromLeaf t ctx leaf_page_id key s =
          Some (true, with_pages (<[leaf := LeafPg p']> (pages_ s)) s) ∧
        l_size_ p' = l_size_ p - 1 ∧ l_max_size_ p' = l_max_size_ p.
Proof.
  intros Hback Hid Hp Hok Hin Hsize.
  exists (Leaf.RemoveAt (Leaf.FindFirstGreaterOrEqual key p) p).
  split; [|apply RemoveAt_size].
  unfold RemoveFromLeaf. rewrite Hback.
  rewrite (bind_Some _ _ _ _ _ (leaf_read_leaf _ s leaf p Hid Hp)).
  rewrite (bind_Some _ _ _ _ _ (leaf_read_leaf _ s leaf p Hid Hp)).
  rewrite (bind_Some _ _ _ _ _ (leaf_read_leaf _ s leaf p Hid Hp)).
  rewrite comparator_zero. unfold Leaf.GetSize.
  apply (leaf_key_test p key Hok) in Hin. apply andb_true_iff in Hin as [H1 H2].
  rewrite H2. apply Z.ltb_lt in H1.
  assert ((l_size_ p <=? Leaf.FindFirstGreaterOrEqual key p) = false) as ->
    by (apply Z.leb_gt; lia).
  change (false || negb true) with false. cbv iota.
  rewrite (bind_Some _ _ _ _ _ (leaf_write_leaf _ s leaf p Hid Hp)).
  erewrite bind_Some; [|apply leaf_read_leaf; [done|simpl; apply lookup_insert_eq]].
  destruct (RemoveAt_size (Leaf.FindFirstGreaterOrEqual key p) p) as [Hs Hm].
  assert (IsLeafUnderflow (Leaf.RemoveAt (Leaf.FindFirstGreaterOrEqual key p) p) = false) as ->.
  { apply not_true_is_false. rewrite IsLeafUnderflow_iff, Hs, Hm. lia. }
  done.
Qed.

(** An insertion into a leaf with room touches the leaf only. *)
Lemma InsertIntoLeaf_room t ctx s leaf leaf_page_id p key value :
  back ctx = Some leaf → 0 ≤ leaf → pages_ s !! leaf = Some (LeafPg p) →
  leaf_ok p = true → key ∉ leaf_keys p → l_size_ p < l_max_size_ p →
  ∃ p', InsertIntoLeaf t ctx leaf_page_id key value s =
          Some (true, with_pages (<[leaf := LeafPg p']> (pages_ s)) s) ∧
        l_size_ p' = l_size_ p + 1 ∧ l_max_size_ p' = l_max_size_ p.
Proof.
  intros Hback Hid Hp Hok Hnin Hsize.
  exists (Leaf.Insert key value p). split; [|apply Insert_size].
  unfold InsertIntoLeaf. rewrite Hback.
  rewrite (bind_Some _ _ _ _ _ (leaf_read_leaf _ s leaf p Hid Hp)).
  rewrite (bind_Some _ _ _ _ _ (leaf_read_leaf _ s leaf p Hid Hp)).
  rewrite (bind_Some _ _ _ _ _ (leaf_read_leaf _ s leaf p Hid Hp)).
  rewrite comparator_zero. unfold Leaf.GetSize.
  assert ((Leaf.FindFirstGreaterOrEqual key p <? l_size_ p) &&
          (Leaf.KeyAt (Leaf.FindFirstGreaterOrEqual key p) p =? key) = false) as ->.
  { apply not_true_is_false. intros H. by apply (leaf_key_test p key Hok) in H. }
  rewrite (bind_Some _ _ _ _ _ (leaf_read_leaf _ s leaf p Hid Hp)).
  unfold Leaf.GetMaxSize.
  assert ((l_size_ p <? l_max_size_ p) = true) as -> by (apply Z.ltb_lt; lia).
  by rewrite (bind_Some _ _ _ _ _ (leaf_write_leaf _ s leaf p Hid Hp)).
Qed.

End BTreeFacts.
(** * The B+-tree: the size bounds along insertions *)

Module BTreeSizes.
Import BPage BTree BTreeSpec BTreeFacts.


(** ** Internal pages: sizes and child slots *)

Lemma for_down_nil {St} hi lo (body : Z → St → St) s : hi < lo → for_down hi lo body s = s.
Proof. intros H. unfold for_down. rewrite seqZ_nil by lia. done. Qed.

Lemma for_down_cons {St} hi lo (body : Z → St → St) s :
  lo ≤ hi → for_down hi lo body s = for_down (hi - 1) lo body (body hi s).
Proof.
  intros H. unfold for_down.
  replace (hi - lo + 1) with (Z.of_nat (S (Z.to_nat (hi - lo)))) by lia.
  rewrite seqZ_S, reverse_app. simpl.
  replace (Z.of_nat (Z.to_nat (hi - lo))) with (hi - 1 - lo + 1) by lia.
  by replace (lo + (hi - 1 - lo + 1)) with hi by lia.
Qed.

(** A loop invariant for [for_down]. *)
Lemma for_down_ind {St} (P : Z → St → Prop) hi lo (body : Z → St → St) s :
  lo ≤ hi + 1 → P (hi + 1) s →
  (∀ i q, lo ≤ i ≤ hi → P (i + 1) q → P i (body i q)) →
  P lo (for_down hi lo body s).
Proof.
  intros Hle H0 Hstep.
  assert (∀ (n : nat) h q, Z.of_nat n = h - lo + 1 → h ≤ hi → P (h + 1) q →
            P lo (for_down h lo body q)) as H.
  { induction n as [|n IH]; intros h q Hn Hh Hq.
    - rewrite for_down_nil by lia. by replace lo with (h + 1) by lia.
    - rewrite for_down_cons by lia. apply IH; [lia|lia|].
      replace (h - 1 + 1) with h by lia. apply Hstep; [lia|done]. }
  apply (H (Z.to_nat (hi - lo + 1))); [lia|lia|done].
Qed.

Lemma copy_slot_fields dst src p :
  i_size_ (Internal.copy_slot dst src p) = i_size_ p ∧
  i_max_size_ (Internal.copy_slot dst src p) = i_max_size_ p ∧
  length (i_page_id_array_ (Internal.copy_slot dst src p)) = length (i_page_id_array_ p).
Proof. unfold Internal.copy_slot. simpl. by rewrite length_aset. Qed.

Lemma copy_slot_value dst src p j :
  0 ≤ dst < Z.of_nat (length (i_page_id_array_ p)) →
  Internal.ValueAt j (Internal.copy_slot dst src p) =
  if decide (j = dst) then Internal.ValueAt src p else Internal.ValueAt j p.
Proof.
  intros Hd. unfold Internal.ValueAt, Internal.copy_slot. simpl.
  destruct (decide (j = dst)) as [->|Hne].
  - by rewrite aget_aset_eq.
  - by rewrite aget_aset_ne.
Qed.

(** [Internal::Insert] opens slot [insert_pos] for the new child. *)
Lemma Internal_Insert_spec key value insert_pos p :
  0 ≤ insert_pos ≤ i_size_ p → i_size_ p < Z.of_nat (length (i_page_id_array_ p)) →
  let p' := Internal.Insert key value insert_pos p in
  i_size_ p' = i_size_ p + 1 ∧ i_max_size_ p' = i_max_size_ p ∧
  length (i_page_id_array_ p') = length (i_page_id_array_ p) ∧
  ∀ j, 0 ≤ j ≤ i_size_ p →
    Internal.ValueAt j p' =
    if decide (j < insert_pos) then Internal.ValueAt j p
    else if decide (j = insert_pos) then value
    else Internal.ValueAt (j - 1) p.
Proof.
  intros Hpos Hlen p'.
  set (q := for_down (Internal.GetSize p - 1) insert_pos
              (λ i p, Internal.copy_slot (i + 1) i p) p).
  assert (i_size_ q = i_size_ p ∧ i_max_size_ q = i_max_size_ p ∧
          length (i_page_id_array_ q) = length (i_page_id_array_ p) ∧
          ∀ j, Internal.ValueAt j q =
               if decide (insert_pos < j ≤ i_size_ p) then Internal.ValueAt (j - 1) p
               else Internal.ValueAt j p) as (Hq1 & Hq2 & Hq3 & Hq4).
  { subst q. unfold Internal.GetSize.
    pose proof (for_down_ind (λ i q,
      i_size_ q = i_size_ p ∧ i_max_size_ q = i_max_size_ p ∧
      length (i_page_id_array_ q) = length (i_page_id_array_ p) ∧
      ∀ j, Internal.ValueAt j q =
           if decide (i < j ≤ i_size_ p) then Internal.ValueAt (j - 1) p
           else Internal.ValueAt j p)
      (i_size_ p - 1) insert_pos (λ i p, Internal.copy_slot (i + 1) i p) p) as Hind.
    cbv beta in Hind. apply Hind; clear Hind.
    - lia.
    - repeat split; try done. intros j. by rewrite decide_False by lia.
    - intros i r Hi (Hr1 & Hr2 & Hr3 & Hr4).
      destruct (copy_slot_fields (i + 1) i r) as (-> & -> & ->).
      repeat split; try done. intros j. rewrite copy_slot_value by lia.
      destruct (decide (j = i + 1)) as [->|Hne].
      + rewrite Hr4. rewrite decide_False by lia. rewrite decide_True by lia.
        by replace (i + 1 - 1) with i by lia.
      + rewrite Hr4. destruct (decide (i + 1 < j ≤ i_size_ p)).
        * by rewrite decide_True by lia.
        * by rewrite decide_False by lia. }
  subst p'. unfold Internal.Insert. cbv zeta. fold q.
  unfold Internal.IncreaseSize. simpl. rewrite length_aset.
  repeat split; try lia; try done.
  intros j Hj. unfold Internal.ValueAt. simpl.
  destruct (decide (j = insert_pos)) as [->|Hne].
  - rewrite decide_False by lia. rewrite aget_aset_eq by lia. done.
  - rewrite aget_aset_ne by done.
    change (aget (i_page_id_array_ q) j) with (Internal.ValueAt j q). rewrite Hq4.
    destruct (decide (j < insert_pos)).
    + by rewrite decide_False by lia.
    + by rewrite decide_True by lia.
Qed.

(** What the loops of the internal [Insert_Set_old] and [Insert_Set_new]
    build: [count] children of [all_data] from index [from] on. *)
Lemma internal_fill_loop from count (all_data : list (Z * Z)) p :
  0 ≤ from → 0 ≤ count → from + count ≤ Z.of_nat (length all_data) →
  count ≤ Z.of_nat (length (i_page_id_array_ p)) →
  let p' :=
    for_up from (from + count)
      (λ i p,
         let e := default (0, 0) (all_data !! Z.to_nat i) in
         let new_idx := i - from in
         let p1 := if 0 <? new_idx then internal_set_key new_idx e.1 p else p in
         Internal.IncreaseSize (internal_set_value new_idx e.2 p1))
      (internal_set_size 0 p) in
  i_size_ p' = count ∧ i_max_size_ p' = i_max_size_ p ∧
  length (i_page_id_array_ p') = length (i_page_id_array_ p) ∧
  ∀ j, 0 ≤ j < count →
    all_data.*2 !! Z.to_nat (from + j) = Some (Internal.ValueAt j p').
Proof.
  intros Hfrom Hcount Hall Hlen p'. subst p'.
  pose proof (for_up_ind (λ i q,
    i_size_ q = i - from ∧ i_max_size_ q = i_max_size_ p ∧
    length (i_page_id_array_ q) = length (i_page_id_array_ p) ∧
    ∀ j, 0 ≤ j < i - from →
      all_data.*2 !! Z.to_nat (from + j) = Some (Internal.ValueAt j q))
    from (from + count)
    (λ i p,
       let e := default (0, 0) (all_data !! Z.to_nat i) in
       let new_idx := i - from in
       let p1 := if 0 <? new_idx then internal_set_key new_idx e.1 p else p in
       Internal.IncreaseSize (internal_set_value new_idx e.2 p1))
    (internal_set_size 0 p)) as Hind.
  cbv beta in Hind. replace (from + count - from) with count in Hind by lia.
  apply Hind; clear Hind.
  - lia.
  - simpl. repeat split; try done; try lia.
  - intros i q Hi (Hsz & Hmax & Hl & Hslots). cbv zeta.
    assert (∀ r : InternalPage, (if 0 <? i - from
               then internal_set_key (i - from) (default (0, 0) (all_data !! Z.to_nat i)).1 r
               else r) = mkInternal (i_size_ r) (i_max_size_ r)
                           (i_key_array_ (if 0 <? i - from
               then internal_set_key (i - from) (default (0, 0) (all_data !! Z.to_nat i)).1 r
               else r)) (i_page_id_array_ r)) as Hkeys.
    { intros r. destruct (0 <? i - from); by destruct r. }
    rewrite (Hkeys q). unfold Internal.IncreaseSize, internal_set_value, internal_set_size.
    simpl. rewrite length_aset. repeat split; try done; try lia.
    intros j Hj. unfold Internal.ValueAt. simpl.
    destruct (decide (j = i - from)) as [->|Hne].
    + rewrite aget_aset_eq by lia. replace (from + (i - from)) with i by lia.
      rewrite list_lookup_fmap.
      destruct (lookup_lt_is_Some_2 all_data (Z.to_nat i)) as [[k v] ->]; [lia|]. done.
    + rewrite aget_aset_ne by done. apply Hslots. lia.
Qed.

Lemma Internal_Insert_Set_old_spec split_idx (all_data : list (Z * Z)) p :
  0 ≤ split_idx ≤ Z.of_nat (length all_data) →
  split_idx ≤ Z.of_nat (length (i_page_id_array_ p)) →
  let p' := Internal.Insert_Set_old split_idx all_data p in
  i_size_ p' = split_idx ∧ i_max_size_ p' = i_max_size_ p ∧
  length (i_page_id_array_ p') = length (i_page_id_array_ p) ∧
  ∀ j, 0 ≤ j < split_idx → all_data.*2 !! Z.to_nat j = Some (Internal.ValueAt j p').
Proof.
  intros Hs Hl. pose proof (internal_fill_loop 0 split_idx all_data p) as H.
  cbv zeta in H. rewrite Z.add_0_l in H. unfold Internal.Insert_Set_old. cbv zeta.
  rewrite (for_up_ext 0 split_idx _
    (λ i p,
       let e := default (0, 0) (all_data !! Z.to_nat i) in
       let new_idx := i - 0 in
       let p1 := if 0 <? new_idx then internal_set_key new_idx e.1 p else p in
       Internal.IncreaseSize (internal_set_value new_idx e.2 p1))).
  - destruct H as (H1 & H2 & H3 & H4); try lia. repeat split; try done.
  - intros i q _. cbv zeta. by rewrite Z.sub_0_r.
Qed.

Lemma Internal_Insert_Set_new_spec split_idx (all_data : list (Z * Z)) p :
  0 ≤ split_idx ≤ Z.of_nat (length all_data) →
  Z.of_nat (length all_data) - split_idx ≤ Z.of_nat (length (i_page_id_array_ p)) →
  let p' := Internal.Insert_Set_new split_idx all_data p in
  i_size_ p' = Z.of_nat (length all_data) - split_idx ∧ i_max_size_ p' = i_max_size_ p ∧
  length (i_page_id_array_ p') = length (i_page_id_array_ p) ∧
  ∀ j, 0 ≤ j < Z.of_nat (length all_data) - split_idx →
    all_data.*2 !! Z.to_nat (split_idx + j) = Some (Internal.ValueAt j p').
Proof.
  intros Hs Hl.
  pose proof (internal_fill_loop split_idx (Z.of_nat (length all_data) - split_idx) all_data p)
    as H.
  cbv zeta in H.
  replace (split_idx + (Z.of_nat (length all_data) - split_idx))
    with (Z.of_nat (length all_data)) in H by lia.
  unfold Internal.Insert_Set_new. cbv zeta. apply H; lia.
Qed.

(** The children [internal_all_data] copies are those of the page. *)
Lemma internal_all_data_values p :
  1 ≤ i_size_ p →
  length (internal_all_data p) = Z.to_nat (i_size_ p) ∧
  ∀ v, v ∈ (internal_all_data p).*2 → ∃ i, 0 ≤ i < i_size_ p ∧ v = Internal.ValueAt i p.
Proof.
  intros Hsz. unfold internal_all_data, Internal.GetSize. split.
  - simpl. rewrite length_fmap, length_seqZ. lia.
  - intros v. rewrite fmap_cons. simpl. intros [->|Hv]%elem_of_cons.
    + exists 0. split; [lia|done].
    + rewrite <- list_fmap_compose in Hv.
      apply list_elem_of_fmap in Hv as (i & -> & Hi%elem_of_seqZ).
      exists i. split; [lia|done].
Qed.

Lemma emplace_values pos (e : Z * Z) all_data v :
  v ∈ (emplace pos e all_data).*2 → v = e.2 ∨ v ∈ all_data.*2.
Proof.
  intros H. rewrite (emplace_perm pos e all_data) in H.
  rewrite fmap_cons in H. by apply elem_of_cons in H.
Qed.

(** The child [FindPage] names is one of the page's children. *)
Lemma FindPage_loop_range p key left_ right_ :
  1 ≤ left_ → left_ ≤ right_ + 1 →
  left_ ≤ Internal.FindPage_loop p key left_ right_ ≤ right_ + 1.
Proof.
  apply (Internal.FindPage_loop_elim
    (λ p key left_ right_ out, 1 ≤ left_ → left_ ≤ right_ + 1 → left_ ≤ out ≤ right_ + 1)).
  - clear. intros p key l r Hle IH1 IH2 _ Hl Hlr. cbv zeta in *.
    pose proof (mid_range l r Hle) as Hmid. set (mid := l + (r - l) ÷ 2) in *.
    destruct (_ =? 0); [lia|]. destruct (_ <? 0).
    + specialize (IH1 ltac:(lia) ltac:(lia)). lia.
    + specialize (IH2 ltac:(lia) ltac:(lia)). lia.
  - clear. intros p key l r Hgt _ Hl Hlr. lia.
Qed.

Lemma FindPage_in_range p key :
  1 ≤ i_size_ p → ∃ c, 0 ≤ c < i_size_ p ∧ Internal.FindPage key p = Internal.ValueAt c p.
Proof.
  intros Hsz. unfold Internal.FindPage, Internal.GetSize. cbv zeta.
  pose proof (FindPage_loop_range p key 1 (i_size_ p - 1) ltac:(lia) ltac:(lia)) as Ht.
  set (t := Internal.FindPage_loop p key 1 (i_size_ p - 1)) in *.
  destruct (i_size_ p <=? t) eqn:E.
  - exists (i_size_ p - 1). split; [lia|done].
  - apply Z.leb_gt in E. destruct (_ =? 0).
    + exists t. split; [lia|done].
    + exists (t - 1). split; [lia|done].
Qed.

Lemma FindInsertPos_loop_range p key left_ right_ insert_pos :
  1 ≤ left_ → left_ ≤ right_ + 1 → right_ + 1 ≤ insert_pos →
  let out := Internal.FindInsertPos_loop p key left_ right_ insert_pos in
  out = -1 ∨ left_ ≤ out ≤ insert_pos.
Proof.
  apply (Internal.FindInsertPos_loop_elim
    (λ p key left_ right_ insert_pos out,
       1 ≤ left_ → left_ ≤ right_ + 1 → right_ + 1 ≤ insert_pos →
       out = -1 ∨ left_ ≤ out ≤ insert_pos)).
  - clear. intros p key l r Hle ip IH1 IH2 _ Hl Hlr Hip. cbv zeta in *.
    pose proof (mid_range l r Hle) as Hmid. set (mid := l + (r - l) ÷ 2) in *.
    destruct (0 <? _).
    + specialize (IH1 ltac:(lia) ltac:(lia) ltac:(lia)). lia.
    + destruct (_ <? 0); [|by left].
      specialize (IH2 ltac:(lia) ltac:(lia) ltac:(lia)). lia.
  - clear. intros p key l r Hgt ip _ Hl Hlr Hip. right. lia.
Qed.

Lemma FindInsertPos_range p key :
  1 ≤ i_size_ p →
  Internal.FindInsertPos key p = -1 ∨ 1 ≤ Internal.FindInsertPos key p ≤ i_size_ p.
Proof.
  intros Hsz. unfold Internal.FindInsertPos, Internal.GetSize.
  apply FindInsertPos_loop_range; lia.
Qed.

(** ** The size bounds across the pool *)

Lemma extends_refl s : extends s s.
Proof. by split. Qed.

Lemma extends_trans s1 s2 s3 : extends s1 s2 → extends s2 s3 → extends s1 s3.
Proof. intros [H1 H2] [H3 H4]. split; intros id H; [by apply H3, H1|by apply H4, H2]. Qed.

Lemma extends_tree_page s s' id : extends s s' → tree_page s id → tree_page s' id.
Proof. intros [H1 H2] [H|H]; [left; by apply H1|right; by apply H2]. Qed.

Lemma extends_pages s s' : pages_ s' = pages_ s → extends s s'.
Proof. intros H. split; intros id (Hid & p & Hp); (split; [done|]); exists p; by rewrite H. Qed.

(** Overwriting a leaf with a leaf, an internal page with an internal page,
    or filling an unused page id. *)
Lemma extends_insert_leaf s s' k q :
  pages_ s' = <[k := LeafPg q]> (pages_ s) → ¬ is_internal s k → extends s s'.
Proof.
  intros H Hk. split; intros id (Hid & p & Hp).
  - split; [done|]. rewrite H. destruct (decide (id = k)) as [->|Hne].
    + exists q. by rewrite lookup_insert_eq.
    + exists p. by rewrite lookup_insert_ne.
  - split; [done|]. rewrite H. destruct (decide (id = k)) as [->|Hne].
    + exfalso. apply Hk. split; [done|by exists p].
    + exists p. by rewrite lookup_insert_ne.
Qed.

Lemma extends_insert_internal s s' k q :
  pages_ s' = <[k := InternalPg q]> (pages_ s) → ¬ is_leaf s k → extends s s'.
Proof.
  intros H Hk. split; intros id (Hid & p & Hp).
  - split; [done|]. rewrite H. destruct (decide (id = k)) as [->|Hne].
    + exfalso. apply Hk. split; [done|by exists p].
    + exists p. by rewrite lookup_insert_ne.
  - split; [done|]. rewrite H. destruct (decide (id = k)) as [->|Hne].
    + exists q. by rewrite lookup_insert_eq.
    + exists p. by rewrite lookup_insert_ne.
Qed.

Lemma extends_insert_header s s' k r :
  pages_ s' = <[k := HeaderPg r]> (pages_ s) → ¬ tree_page s k → extends s s'.
Proof.
  intros H Hk. split; intros id (Hid & p & Hp).
  - split; [done|]. rewrite H. destruct (decide (id = k)) as [->|Hne].
    + exfalso. apply Hk. left. split; [done|by exists p].
    + exists p. by rewrite lookup_insert_ne.
  - split; [done|]. rewrite H. destruct (decide (id = k)) as [->|Hne].
    + exfalso. apply Hk. right. split; [done|by exists p].
    + exists p. by rewrite lookup_insert_ne.
Qed.

Lemma leaf_sizes_ok_weaken t b b' p :
  (b' = false → b = false) → leaf_sizes_ok t b p → leaf_sizes_ok t b' p.
Proof. intros Hb (H1 & H2 & H3). repeat split; try done; try lia. intros ?. by apply H3, Hb. Qed.

Lemma internal_sizes_ok_weaken t s s' b b' p :
  (b' = false → b = false) → extends s s' →
  internal_sizes_ok t s b p → internal_sizes_ok t s' b' p.
Proof.
  intros Hb Hext (H1 & H2 & H3 & H4 & H5). repeat split; try done; try lia.
  - intros ?. by apply H3, Hb.
  - intros i Hi. by apply (extends_tree_page s s'), H5.
Qed.

Lemma root_of_header t s root :
  pages_ s !! header_page_id_ t = Some (HeaderPg root) → root_of t s = root.
Proof. intros H. unfold root_of. by rewrite H. Qed.

(** The bounds carry over to a pool in which every page is as before, or
    is shown to keep the bounds. *)
Lemma sizes_inv_update t s s' :
  sizes_inv t s → extends s s' →
  (∀ id, is_Some (pages_ s' !! id) → 0 ≤ id < next_page_id_ s') →
  (∃ root, pages_ s' !! header_page_id_ t = Some (HeaderPg root) ∧
           (root = INVALID_PAGE_ID ∨ tree_page s' root)) →
  (∀ id p, pages_ s' !! id = Some (LeafPg p) →
     (pages_ s !! id = Some (LeafPg p) ∧ (id = root_of t s' ∨ id ≠ root_of t s)) ∨
     leaf_sizes_ok t (bool_decide (id = root_of t s')) p) →
  (∀ id p, pages_ s' !! id = Some (InternalPg p) →
     (pages_ s !! id = Some (InternalPg p) ∧ (id = root_of t s' ∨ id ≠ root_of t s)) ∨
     internal_sizes_ok t s' (bool_decide (id = root_of t s')) p) →
  sizes_inv t s'.
Proof.
  intros [Hcaps [Hh Hroot] Hfresh Hleaves Hints] Hext Hfresh' Hroot' Hl Hi.
  split; try done.
  - intros id p Hp. destruct (Hl id p Hp) as [[Hold Hr]|Hnew]; [|done].
    apply (leaf_sizes_ok_weaken t (bool_decide (id = root_of t s))); [|by apply Hleaves].
    intros Hb%bool_decide_eq_false. apply bool_decide_eq_false. tauto.
  - intros id p Hp. destruct (Hi id p Hp) as [[Hold Hr]|Hnew]; [|done].
    apply (internal_sizes_ok_weaken t s s' (bool_decide (id = root_of t s))); [|done|by apply Hints].
    intros Hb%bool_decide_eq_false. apply bool_decide_eq_false. tauto.
Qed.

Lemma leaf_fill_loop_fields from count (all_data : list (Z * Z)) p :
  0 ≤ count →
  let p' :=
    for_up from (from + count)
      (λ i p,
         let e := default (0, 0) (all_data !! Z.to_nat i) in
         let p1 := leaf_set_slot (i - from) e.1 e.2 p in
         leaf_set_size (l_size_ p1 + 1) p1)
      (leaf_set_size 0 p) in
  l_size_ p' = count ∧ l_max_size_ p' = l_max_size_ p ∧
  l_next_page_id_ p' = l_next_page_id_ p.
Proof.
  intros Hcount p'. subst p'.
  pose proof (for_up_ind (λ i q,
    l_size_ q = i - from ∧ l_max_size_ q = l_max_size_ p ∧
    l_next_page_id_ q = l_next_page_id_ p)
    from (from + count)
    (λ i p,
       let e := default (0, 0) (all_data !! Z.to_nat i) in
       let p1 := leaf_set_slot (i - from) e.1 e.2 p in
       leaf_set_size (l_size_ p1 + 1) p1)
    (leaf_set_size 0 p)) as Hind.
  cbv beta in Hind. replace (from + count - from) with count in Hind by lia.
  apply Hind; clear Hind.
  - lia.
  - simpl. repeat split; lia.
  - intros i q Hi (Hsz & Hmax & Hnext). cbv zeta. simpl. repeat split; try done; lia.
Qed.

Lemma Insert_Set_old_fields split_idx (all_data : list (Z * Z)) p :
  0 ≤ split_idx →
  l_size_ (Leaf.Insert_Set_old split_idx all_data p) = split_idx ∧
  l_max_size_ (Leaf.Insert_Set_old split_idx all_data p) = l_max_size_ p ∧
  l_next_page_id_ (Leaf.Insert_Set_old split_idx all_data p) = l_next_page_id_ p.
Proof.
  intros Hs. pose proof (leaf_fill_loop_fields 0 split_idx all_data p Hs) as H.
  cbv zeta in H. rewrite Z.add_0_l in H. unfold Leaf.Insert_Set_old.
  rewrite (for_up_ext 0 split_idx _
    (λ i p,
       let e := default (0, 0) (all_data !! Z.to_nat i) in
       let p1 := leaf_set_slot (i - 0) e.1 e.2 p in
       leaf_set_size (l_size_ p1 + 1) p1)); [done|].
  intros i q _. cbv zeta. by rewrite Z.sub_0_r.
Qed.

Lemma Insert_Set_new_fields split_idx (all_data : list (Z * Z)) p :
  split_idx ≤ Z.of_nat (length all_data) →
  l_size_ (Leaf.Insert_Set_new split_idx all_data p) = Z.of_nat (length all_data) - split_idx ∧
  l_max_size_ (Leaf.Insert_Set_new split_idx all_data p) = l_max_size_ p ∧
  l_next_page_id_ (Leaf.Insert_Set_new split_idx all_data p) = l_next_page_id_ p.
Proof.
  intros Hs.
  pose proof (leaf_fill_loop_fields split_idx (Z.of_nat (length all_data) - split_idx)
                all_data p ltac:(lia)) as H.
  cbv zeta in H.
  replace (split_idx + (Z.of_nat (length all_data) - split_idx))
    with (Z.of_nat (length all_data)) in H by lia.
  done.
Qed.

Lemma length_leaf_all_data p : length (leaf_all_data p) = Z.to_nat (l_size_ p).
Proof. unfold leaf_all_data, Leaf.GetSize. by rewrite length_fmap, length_seqZ. Qed.

Lemma NewPage_fails s rest :
  new_page_fails_ s = true :: rest →
  NewPage s = Some (INVALID_PAGE_ID, mkPool (pages_ s) (next_page_id_ s) rest).
Proof. intros H. unfold NewPage, bind, get. by rewrite H. Qed.

(** [InsertIntoLeaf], case by case, on any leaf. *)
Lemma InsertIntoLeaf_cases t ctx s leaf leaf_page_id p key value :
  back ctx = Some leaf → 0 ≤ leaf → pages_ s !! leaf = Some (LeafPg p) →
  leaf < next_page_id_ s →
  InsertIntoLeaf t ctx leaf_page_id key value s =
    let insert_pos := Leaf.FindFirstGreaterOrEqual key p in
    if (insert_pos <? l_size_ p) && (Leaf.KeyAt insert_pos p =? key) then Some (false, s)
    else if l_size_ p <? l_max_size_ p then
      Some (true, with_pages (<[leaf := LeafPg (Leaf.Insert key value p)]> (pages_ s)) s)
    else
      let all_data := emplace insert_pos (key, value) (leaf_all_data p) in
      let split_idx := (Z.of_nat (length all_data) + 1) / 2 in
      let new_leaf_id := next_page_id_ s in
      match new_page_fails_ s with
      | true :: rest => Some (false, mkPool (pages_ s) (next_page_id_ s) rest)
      | _ =>
          (do root <- GetRootPageId t;
           if leaf_page_id =? root then
             CreateNewRoot t leaf_page_id (first_at all_data split_idx) new_leaf_id ctx
           else
             match back (pop_back ctx) with
             | None => stuck
             | Some inter_page =>
                 InsertIntoInternal (length (write_set_ ctx)) t (pop_back ctx) inter_page
                   (first_at all_data split_idx) new_leaf_id
             end)
            (mkPool
               (<[leaf := LeafPg (Leaf.SetNextPageId new_leaf_id
                                    (Leaf.Insert_Set_old split_idx all_data p))]>
                  (<[new_leaf_id :=
                       LeafPg (Leaf.SetNextPageId (l_next_page_id_ p)
                                 (Leaf.Insert_Set_new split_idx all_data
                                    (Leaf.Init (leaf_max_size_ t) zero_leaf)))]>
                     (pages_ s)))
               (new_leaf_id + 1) (tail (new_page_fails_ s)))
      end.
Proof.
  intros Hback Hleaf Hp Hlt. cbv zeta. unfold InsertIntoLeaf. rewrite Hback.
  rewrite (bind_Some _ _ _ _ _ (leaf_read_leaf _ s leaf p Hleaf Hp)).
  rewrite (bind_Some _ _ _ _ _ (leaf_read_leaf _ s leaf p Hleaf Hp)).
  rewrite (bind_Some _ _ _ _ _ (leaf_read_leaf _ s leaf p Hleaf Hp)).
  rewrite comparator_zero. unfold Leaf.GetSize.
  destruct ((Leaf.FindFirstGreaterOrEqual key p <? l_size_ p) &&
            (Leaf.KeyAt (Leaf.FindFirstGreaterOrEqual key p) p =? key)); [done|].
  rewrite (bind_Some _ _ _ _ _ (leaf_read_leaf _ s leaf p Hleaf Hp)).
  unfold Leaf.GetMaxSize. destruct (l_size_ p <? l_max_size_ p).
  { by rewrite (bind_Some _ _ _ _ _ (leaf_write_leaf _ s leaf p Hleaf Hp)). }
  rewrite (bind_Some _ _ _ _ _ (leaf_read_leaf _ s leaf p Hleaf Hp)). cbv zeta.
  set (all_data := emplace _ _ _). set (split_idx := (_ + 1) / 2).
  destruct (new_page_fails_ s) as [|[] rest] eqn:Hfails.
  2: { by rewrite (bind_Some _ _ _ _ _ (NewPage_fails s rest Hfails)). }
  all: rewrite (bind_Some _ _ _ _ _ (NewPage_ok s ltac:(by rewrite Hfails))).
  all: set (new_leaf_id := next_page_id_ s).
  all: assert ((new_leaf_id =? INVALID_PAGE_ID) = false) as ->
         by (apply Z.eqb_neq; unfold INVALID_PAGE_ID, new_leaf_id; lia).
  all: assert (new_leaf_id ≠ leaf) as Hne by (unfold new_leaf_id; lia).
  all: erewrite bind_Some;
         [|apply leaf_write_raw; [unfold new_leaf_id; lia|simpl; apply lookup_insert_eq]].
  all: erewrite bind_Some;
         [|apply (leaf_write_leaf _ _ leaf p);
           [done|simpl; by rewrite !lookup_insert_ne by done]].
  all: erewrite bind_Some;
         [|apply (leaf_write_leaf _ _ new_leaf_id (Leaf.Init (leaf_max_size_ t) zero_leaf));
           [unfold new_leaf_id; lia|simpl;
            rewrite lookup_insert_ne by done; apply lookup_insert_eq]].
  all: erewrite bind_Some;
         [|apply (leaf_read_leaf _ _ leaf (Leaf.Insert_Set_old split_idx all_data p));
           [done|simpl; rewrite lookup_insert_ne by done; apply lookup_insert_eq]].
  all: unfold Leaf.GetNextPageId.
  all: destruct (Insert_Set_old_fields split_idx all_data p) as (_ & _ & ->);
         [unfold split_idx; apply Z.div_pos; lia|].
  all: erewrite bind_Some;
         [|apply (leaf_write_leaf _ _ new_leaf_id
                    (Leaf.Insert_Set_new split_idx all_data
                       (Leaf.Init (leaf_max_size_ t) zero_leaf)));
           [unfold new_leaf_id; lia|simpl; apply lookup_insert_eq]].
  all: erewrite bind_Some;
         [|apply (leaf_write_leaf _ _ leaf (Leaf.Insert_Set_old split_idx all_data p));
           [done|simpl; rewrite !lookup_insert_ne by done; apply lookup_insert_eq]].
  all: rewrite Hfails.
  all: f_equal; unfold with_pages; simpl; f_equal.
  all: apply map_eq; intros i.
  all: destruct (decide (i = leaf)) as [->|Hi1]; [by rewrite !lookup_insert_eq|].
  all: rewrite !(lookup_insert_ne _ leaf i) by done.
  all: destruct (decide (i = new_leaf_id)) as [->|Hi2]; [by rewrite !lookup_insert_eq|].
  all: by rewrite !lookup_insert_ne by done.
Qed.

(** [InsertIntoInternal], case by case. *)
Lemma InsertIntoInternal_cases fuel t ctx s internal internal_page_id p key child_page_id :
  back ctx = Some internal → 0 ≤ internal → pages_ s !! internal = Some (InternalPg p) →
  internal < next_page_id_ s →
  InsertIntoInternal (S fuel) t ctx internal_page_id key child_page_id s =
    let insert_pos := Internal.FindInsertPos key p in
    if insert_pos =? -1 then Some (false, s)
    else if i_size_ p <? i_max_size_ p then
      Some (true, with_pages
                    (<[internal := InternalPg (Internal.Insert key child_page_id insert_pos p)]>
                       (pages_ s)) s)
    else
      let all_data := emplace insert_pos (key, child_page_id) (internal_all_data p) in
      let split_idx := (Z.of_nat (length all_data) + 1) / 2 in
      let new_internal_id := next_page_id_ s in
      match new_page_fails_ s with
      | true :: rest => Some (false, mkPool (pages_ s) (next_page_id_ s) rest)
      | _ =>
          (do root <- GetRootPageId t;
           if internal_page_id =? root then
             CreateNewRoot t internal_page_id (first_at all_data split_idx) new_internal_id ctx
           else
             match back (pop_back ctx) with
             | None => stuck
             | Some father_id =>
                 InsertIntoInternal fuel t (pop_back ctx) father_id
                   (first_at all_data split_idx) new_internal_id
             end)
            (mkPool
               (<[internal := InternalPg (Internal.Insert_Set_old split_idx all_data p)]>
                  (<[new_internal_id :=
                       InternalPg (Internal.Insert_Set_new split_idx all_data
                                     (Internal.Init (internal_max_size_ t) zero_internal))]>
                     (pages_ s)))
               (new_internal_id + 1) (tail (new_page_fails_ s)))
      end.
Proof.
  intros Hback Hint Hp Hlt. cbv zeta. simpl. rewrite Hback.
  rewrite (bind_Some _ _ _ _ _ (internal_read_internal _ s internal p Hint Hp)).
  destruct (Internal.FindInsertPos key p =? -1); [done|].
  rewrite (bind_Some _ _ _ _ _ (internal_read_internal _ s internal p Hint Hp)).
  rewrite (bind_Some _ _ _ _ _ (internal_read_internal _ s internal p Hint Hp)).
  unfold Internal.GetSize, Internal.GetMaxSize. destruct (i_size_ p <? i_max_size_ p).
  { by rewrite (bind_Some _ _ _ _ _ (internal_write_internal _ s internal p Hint Hp)). }
  rewrite (bind_Some _ _ _ _ _ (internal_read_internal _ s internal p Hint Hp)).
  set (all_data := emplace _ _ _). set (split_idx := (_ + 1) / 2).
  destruct (new_page_fails_ s) as [|[] rest] eqn:Hfails.
  2: { by rewrite (bind_Some _ _ _ _ _ (NewPage_fails s rest Hfails)). }
  all: rewrite (bind_Some _ _ _ _ _ (NewPage_ok s ltac:(by rewrite Hfails))).
  all: set (new_id := next_page_id_ s).
  all: assert ((new_id =? INVALID_PAGE_ID) = false) as ->
         by (apply Z.eqb_neq; unfold INVALID_PAGE_ID, new_id; lia).
  all: assert (new_id ≠ internal) as Hne by (unfold new_id; lia).
  all: erewrite bind_Some;
         [|apply internal_write_raw; [unfold new_id; lia|simpl; apply lookup_insert_eq]].
  all: erewrite bind_Some;
         [|apply (internal_write_internal _ _ internal p);
           [done|simpl; by rewrite !lookup_insert_ne by done]].
  all: erewrite bind_Some;
         [|apply (internal_write_internal _ _ new_id
                    (Internal.Init (internal_max_size_ t) zero_internal));
           [unfold new_id; lia|simpl;
            rewrite lookup_insert_ne by done; apply lookup_insert_eq]].
  all: rewrite Hfails.
  all: f_equal; unfold with_pages; simpl; f_equal.
  all: apply map_eq; intros i.
  all: destruct (decide (i = new_id)) as [->|Hi2];
         [rewrite lookup_insert_eq, lookup_insert_ne by done; by rewrite lookup_insert_eq|].
  all: rewrite !(lookup_insert_ne _ new_id i) by done.
  all: destruct (decide (i = internal)) as [->|Hi1]; [by rewrite !lookup_insert_eq|].
  all: by rewrite !lookup_insert_ne by done.
Qed.

(** [CreateNewRoot], case by case. *)
Lemma CreateNewRoot_cases t ctx s left_page_id split_key right_page_id r :
  0 ≤ header_page_id_ t < next_page_id_ s →
  pages_ s !! header_page_id_ t = Some (HeaderPg r) →
  CreateNewRoot t left_page_id split_key right_page_id ctx s =
    match new_page_fails_ s with
    | true :: rest => Some (false, mkPool (pages_ s) (next_page_id_ s) rest)
    | _ =>
        Some (true,
              mkPool (<[header_page_id_ t := HeaderPg (next_page_id_ s)]>
                        (<[next_page_id_ s :=
                             InternalPg
                               (Internal.SetKeyAt 1 split_key
                                  (Internal.SetValueAt 1 right_page_id
                                     (Internal.SetValueAt 0 left_page_id
                                        (Internal.SetSize 2
                                           (Internal.Init (internal_max_size_ t)
                                              zero_internal)))))]>
                           (pages_ s)))
                     (next_page_id_ s + 1) (tail (new_page_fails_ s)))
    end.
Proof.
  intros Hh Hhp. unfold CreateNewRoot.
  destruct (new_page_fails_ s) as [|[] rest] eqn:Hfails.
  2: { by rewrite (bind_Some _ _ _ _ _ (NewPage_fails s rest Hfails)). }
  all: rewrite (bind_Some _ _ _ _ _ (NewPage_ok s ltac:(by rewrite Hfails))).
  all: set (id := next_page_id_ s).
  all: assert ((id =? INVALID_PAGE_ID) = false) as ->
         by (apply Z.eqb_neq; unfold INVALID_PAGE_ID, id; lia).
  all: assert (header_page_id_ t ≠ id) as Hne by (unfold id; lia).
  all: erewrite bind_Some;
         [|apply internal_write_raw; [unfold id; lia|simpl; apply lookup_insert_eq]].
  all: do 4 (erewrite bind_Some;
         [|apply internal_write_internal; [unfold id; lia|simpl; apply lookup_insert_eq]]).
  all: erewrite bind_Some;
         [|apply (set_root_header t _ r); [lia|simpl; by rewrite !lookup_insert_ne by done]].
  all: rewrite Hfails.
  all: unfold ret, with_pages; simpl; do 3 f_equal.
  all: apply map_eq; intros i.
  all: destruct (decide (i = header_page_id_ t)) as [->|Hi1]; [by rewrite !lookup_insert_eq|].
  all: rewrite !(lookup_insert_ne _ (header_page_id_ t) i) by done.
  all: destruct (decide (i = id)) as [->|Hi2]; [by rewrite !lookup_insert_eq|].
  all: by rewrite !lookup_insert_ne by done.
Qed.

Lemma root_of_pages t s s' :
  pages_ s' !! header_page_id_ t = pages_ s !! header_page_id_ t → root_of t s' = root_of t s.
Proof. intros H. unfold root_of. by rewrite H. Qed.

Lemma sizes_inv_next_unused t s : sizes_inv t s → pages_ s !! next_page_id_ s = None.
Proof.
  intros HI. destruct (pages_ s !! next_page_id_ s) eqn:E; [|done].
  assert (0 ≤ next_page_id_ s < next_page_id_ s); [|lia]. apply (inv_fresh t s HI). by rewrite E.
Qed.

Lemma sizes_inv_header t s :
  sizes_inv t s →
  0 ≤ header_page_id_ t < next_page_id_ s ∧
  pages_ s !! header_page_id_ t = Some (HeaderPg (root_of t s)) ∧
  (root_of t s = INVALID_PAGE_ID ∨ tree_page s (root_of t s)).
Proof.
  intros HI. destruct (inv_header t s HI) as (Hh & root & Hhp & Hroot).
  rewrite (root_of_header t s root Hhp). repeat split; try done.
  apply (inv_fresh t s HI). by rewrite Hhp.
Qed.

Lemma tree_page_lookup s id :
  tree_page s id → 0 ≤ id ∧ ∃ pg, pages_ s !! id = Some pg ∧
    ((∃ p, pg = LeafPg p) ∨ (∃ p, pg = InternalPg p)).
Proof.
  intros [(Hid & p & Hp)|(Hid & p & Hp)]; (split; [done|]); eexists; (split; [done|]);
    [left|right]; by exists p.
Qed.

Lemma sizes_inv_tree_page t s id :
  sizes_inv t s → tree_page s id → 0 ≤ id < next_page_id_ s ∧ id ≠ header_page_id_ t.
Proof.
  intros HI Htp. destruct (tree_page_lookup s id Htp) as (Hid & pg & Hpg & Hkind).
  destruct (sizes_inv_header t s HI) as (_ & Hhp & _).
  split; [|].
  - apply (inv_fresh t s HI). by rewrite Hpg.
  - intros ->. rewrite Hhp in Hpg. injection Hpg as <-. by destruct Hkind as [[? ?]|[? ?]].
Qed.

Lemma sizes_inv_root_below t s :
  sizes_inv t s → root_of t s < next_page_id_ s ∧ root_of t s ≠ header_page_id_ t.
Proof.
  intros HI. destruct (sizes_inv_header t s HI) as (Hh & _ & [->|Htp]).
  - unfold INVALID_PAGE_ID. lia.
  - destruct (sizes_inv_tree_page t s _ HI Htp). lia.
Qed.

(** The bounds do not depend on which [NewPage] calls will fail. *)
Lemma sizes_inv_fails t s rest :
  sizes_inv t s → sizes_inv t (mkPool (pages_ s) (next_page_id_ s) rest).
Proof.
  intros HI. apply (sizes_inv_update t s _ HI).
  - by apply extends_pages.
  - apply (inv_fresh t s HI).
  - destruct (inv_header t s HI) as (Hh & root & Hhp & Hroot). by exists root.
  - intros id p Hp. left. split; [done|].
    destruct (decide (id = root_of t s)); [left|right]; done.
  - intros id p Hp. left. split; [done|].
    destruct (decide (id = root_of t s)); [left|right]; done.
Qed.

(** A leaf with room takes one more entry. *)
Lemma sizes_inv_leaf_room t s leaf p key value :
  sizes_inv t s → pages_ s !! leaf = Some (LeafPg p) → l_size_ p < l_max_size_ p →
  sizes_inv t (with_pages (<[leaf := LeafPg (Leaf.Insert key value p)]> (pages_ s)) s).
Proof.
  intros HI Hp Hroom. set (s' := with_pages _ s).
  destruct (sizes_inv_header t s HI) as (Hh & Hhp & Hroot).
  assert (leaf ≠ header_page_id_ t) as Hne by (intros ->; congruence).
  assert (Hext : extends s s').
  { apply (extends_insert_leaf s s' leaf (Leaf.Insert key value p)); [done|].
    intros (_ & q & Hq). congruence. }
  assert (Hroot' : root_of t s' = root_of t s).
  { apply root_of_pages. simpl. by rewrite lookup_insert_ne. }
  apply (sizes_inv_update t s s' HI Hext).
  - intros id. simpl. destruct (decide (id = leaf)) as [->|Hid].
    + intros _. apply (inv_fresh t s HI). by rewrite Hp.
    + rewrite lookup_insert_ne by done. apply (inv_fresh t s HI).
  - exists (root_of t s). split; [simpl; by rewrite lookup_insert_ne|].
    destruct Hroot as [?|Htp]; [by left|right; by apply (extends_tree_page s s')].
  - intros id q. simpl. destruct (decide (id = leaf)) as [->|Hid].
    + rewrite lookup_insert_eq. intros [= <-]. right. rewrite Hroot'.
      destruct (inv_leaves t s HI leaf p Hp) as (H1 & H2 & H3).
      destruct (Insert_size key value p) as [Hs Hm]. unfold leaf_sizes_ok.
      rewrite Hs, Hm. repeat split; try lia. intros Hb. specialize (H3 Hb). lia.
    + rewrite lookup_insert_ne by done. intros Hq. left. split; [done|]. rewrite Hroot'.
      destruct (decide (id = root_of t s)); [left|right]; done.
  - intros id q. simpl. destruct (decide (id = leaf)) as [->|Hid].
    + by rewrite lookup_insert_eq.
    + rewrite lookup_insert_ne by done. intros Hq. left. split; [done|]. rewrite Hroot'.
      destruct (decide (id = root_of t s)); [left|right]; done.
Qed.

Lemma split_sizes cap :
  1 ≤ cap →
  let split_idx := (cap + 1 + 1) / 2 in
  1 ≤ split_idx ≤ cap ∧ code_min_size cap ≤ cap + 1 - split_idx ≤ split_idx.
Proof.
  intros Hcap split_idx. subst split_idx. unfold code_min_size.
  rewrite Z.quot_div_nonneg by lia.
  pose proof (Z.div_mod (cap + 1 + 1) 2 ltac:(lia)).
  pose proof (Z.mod_pos_bound (cap + 1 + 1) 2 ltac:(lia)).
  pose proof (Z.div_mod (cap + 1) 2 ltac:(lia)).
  pose proof (Z.mod_pos_bound (cap + 1) 2 ltac:(lia)).
  assert ((cap + 1 + 1) mod 2 = 1 - (cap + 1) mod 2).
  { replace (cap + 1 + 1) with (cap + 1 + 1 * 1) by lia.
    rewrite <- Z.add_mod_idemp_l by lia.
    destruct (decide ((cap + 1) mod 2 = 0)) as [->|]; [done|].
    replace ((cap + 1) mod 2) with 1 by lia. done. }
  lia.
Qed.

(** A full leaf splits into two leaves within the bounds. *)
Lemma sizes_inv_split_leaf t s leaf p all_data fails :
  sizes_inv t s → pages_ s !! leaf = Some (LeafPg p) → ¬ l_size_ p < l_max_size_ p →
  Z.of_nat (length all_data) = l_size_ p + 1 →
  let split_idx := (Z.of_nat (length all_data) + 1) / 2 in
  let new_leaf_id := next_page_id_ s in
  let s' :=
    mkPool
       (<[leaf := LeafPg (Leaf.SetNextPageId new_leaf_id
                            (Leaf.Insert_Set_old split_idx all_data p))]>
          (<[new_leaf_id :=
               LeafPg (Leaf.SetNextPageId (l_next_page_id_ p)
                         (Leaf.Insert_Set_new split_idx all_data
                            (Leaf.Init (leaf_max_size_ t) zero_leaf)))]>
             (pages_ s)))
       (new_leaf_id + 1) fails in
  sizes_inv t s' ∧ extends s s' ∧
  code_min_size (l_max_size_ p) ≤ l_size_ (Leaf.Insert_Set_old split_idx all_data p).
Proof.
  intros HI Hp Hfull Hlen split_idx new_leaf_id.
  set (L := Leaf.SetNextPageId _ _). set (R := Leaf.SetNextPageId _ _).
  intros s'.
  destruct (sizes_inv_header t s HI) as (Hh & Hhp & Hroot).
  destruct (inv_caps t s HI) as [Hlcap Hicap].
  destruct (inv_leaves t s HI leaf p Hp) as (Hp1 & Hp2 & Hp3).
  pose proof (sizes_inv_next_unused t s HI) as Hunused. fold new_leaf_id in Hunused.
  pose proof (sizes_inv_root_below t s HI) as [Hrb Hrh].
  assert (leaf ≠ header_page_id_ t) as Hne by (intros ->; congruence).
  assert (0 ≤ leaf < new_leaf_id) as Hlt by (apply (inv_fresh t s HI); by rewrite Hp).
  assert (l_size_ p = l_max_size_ p) as Hsz by lia.
  assert (split_idx = (l_max_size_ p + 1 + 1) / 2) as Hsplit
    by (unfold split_idx; rewrite Hlen, Hsz; done).
  destruct (split_sizes (l_max_size_ p) ltac:(lia)) as [Hs1 Hs2]. cbv zeta in Hs1, Hs2.
  rewrite <- Hsplit in Hs1, Hs2.
  destruct (Insert_Set_old_fields split_idx all_data p ltac:(lia)) as (HL1 & HL2 & _).
  destruct (Insert_Set_new_fields split_idx all_data (Leaf.Init (leaf_max_size_ t) zero_leaf)
              ltac:(lia)) as (HR1 & HR2 & _).
  assert (Hext : extends s s').
  { apply (extends_trans s (mkPool (<[new_leaf_id := LeafPg R]> (pages_ s)) 0 [])).
    - apply (extends_insert_leaf _ _ new_leaf_id R); [done|].
      intros (_ & q & Hq). congruence.
    - apply (extends_insert_leaf _ _ leaf L); [done|].
      intros (_ & q & Hq). simpl in Hq. rewrite lookup_insert_ne in Hq by lia. congruence. }
  assert (Hroot' : root_of t s' = root_of t s).
  { apply root_of_pages. simpl. rewrite !lookup_insert_ne by lia. done. }
  split; [|split; [done|rewrite HL1; lia]].
  apply (sizes_inv_update t s s' HI Hext).
  - intros id. simpl. destruct (decide (id = leaf)) as [->|Hid]; [lia|].
    rewrite lookup_insert_ne by done.
    destruct (decide (id = new_leaf_id)) as [->|Hid2]; [unfold new_leaf_id in *; lia|].
    rewrite lookup_insert_ne by done. intros H. apply (inv_fresh t s HI) in H.
    fold new_leaf_id in H. lia.
  - exists (root_of t s). split; [simpl; by rewrite !lookup_insert_ne by lia|].
    destruct Hroot as [?|Htp]; [by left|right; by apply (extends_tree_page s s')].
  - intros id q. simpl. rewrite Hroot'. destruct (decide (id = leaf)) as [->|Hid].
    + rewrite lookup_insert_eq. intros [= <-]. right. unfold leaf_sizes_ok, L. simpl.
      rewrite HL1, HL2. repeat split; try lia.
    + rewrite lookup_insert_ne by done.
      destruct (decide (id = new_leaf_id)) as [->|Hid2].
      * rewrite lookup_insert_eq. intros [= <-]. right. unfold leaf_sizes_ok, R. simpl.
        rewrite HR1, HR2. simpl. rewrite Hlen, Hsz, <- Hp1. repeat split; try lia.
      * rewrite lookup_insert_ne by done. intros Hq. left. split; [done|].
        destruct (decide (id = root_of t s)); [left|right]; done.
  - intros id q. simpl. rewrite Hroot'. destruct (decide (id = leaf)) as [->|Hid].
    + by rewrite lookup_insert_eq.
    + rewrite lookup_insert_ne by done.
      destruct (decide (id = new_leaf_id)) as [->|Hid2]; [by rewrite lookup_insert_eq|].
      rewrite lookup_insert_ne by done. intros Hq. left. split; [done|].
      destruct (decide (id = root_of t s)); [left|right]; done.
Qed.

Lemma code_min_size_pos cap : 1 ≤ cap → 1 ≤ code_min_size cap.
Proof. intros H. pose proof (code_min_size_half cap ltac:(lia)). lia. Qed.

(** An internal page with room takes one more child. *)
Lemma sizes_inv_internal_room t s k p key child insert_pos :
  sizes_inv t s → pages_ s !! k = Some (InternalPg p) → i_size_ p < i_max_size_ p →
  1 ≤ insert_pos ≤ i_size_ p → tree_page s child →
  sizes_inv t
    (with_pages (<[k := InternalPg (Internal.Insert key child insert_pos p)]> (pages_ s)) s).
Proof.
  intros HI Hp Hroom Hpos Hchild. set (p' := Internal.Insert key child insert_pos p).
  set (s' := with_pages _ s).
  destruct (sizes_inv_header t s HI) as (Hh & Hhp & Hroot).
  destruct (inv_caps t s HI) as [Hlcap Hicap].
  destruct (inv_internals t s HI k p Hp) as (Hp1 & Hp2 & Hp3 & Hp4 & Hp5).
  assert (k ≠ header_page_id_ t) as Hne by (intros ->; congruence).
  destruct (Internal_Insert_spec key child insert_pos p) as (Hq1 & Hq2 & Hq3 & Hq4);
    [lia|lia|]. fold p' in Hq1, Hq2, Hq3, Hq4.
  assert (Hext : extends s s').
  { apply (extends_insert_internal s s' k p'); [done|]. intros (_ & q & Hq). congruence. }
  assert (Hroot' : root_of t s' = root_of t s).
  { apply root_of_pages. simpl. by rewrite lookup_insert_ne. }
  apply (sizes_inv_update t s s' HI Hext).
  - intros id. simpl. destruct (decide (id = k)) as [->|Hid].
    + intros _. apply (inv_fresh t s HI). by rewrite Hp.
    + rewrite lookup_insert_ne by done. apply (inv_fresh t s HI).
  - exists (root_of t s). split; [simpl; by rewrite lookup_insert_ne|].
    destruct Hroot as [?|Htp]; [by left|right; by apply (extends_tree_page s s')].
  - intros id q. simpl. destruct (decide (id = k)) as [->|Hid].
    + by rewrite lookup_insert_eq.
    + rewrite lookup_insert_ne by done. intros Hq. left. split; [done|]. rewrite Hroot'.
      destruct (decide (id = root_of t s)); [left|right]; done.
  - intros id q. simpl. destruct (decide (id = k)) as [->|Hid].
    + rewrite lookup_insert_eq. intros [= <-]. right. rewrite Hroot'.
      unfold internal_sizes_ok. rewrite Hq1, Hq2, Hq3.
      repeat split; try lia; try done.
      * intros Hb. specialize (Hp3 Hb). lia.
      * intros i Hi. apply (extends_tree_page s s' _ Hext). rewrite Hq4 by lia.
        destruct (decide (i < insert_pos)); [apply Hp5; lia|].
        destruct (decide (i = insert_pos)); [done|]. apply Hp5. lia.
    + rewrite lookup_insert_ne by done. intros Hq. left. split; [done|]. rewrite Hroot'.
      destruct (decide (id = root_of t s)); [left|right]; done.
Qed.

Lemma length_zero_internal_values max_size :
  length (i_page_id_array_ (Internal.Init max_size zero_internal)) =
  Z.to_nat INTERNAL_PAGE_SLOT_CNT.
Proof. unfold Internal.Init, zero_internal. cbn [i_page_id_array_]. apply length_replicate. Qed.

(** A full internal page splits into two pages within the bounds. *)
Lemma sizes_inv_internal_split t s k p key child insert_pos fails :
  sizes_inv t s → pages_ s !! k = Some (InternalPg p) → ¬ i_size_ p < i_max_size_ p →
  tree_page s child →
  let all_data := emplace insert_pos (key, child) (internal_all_data p) in
  let split_idx := (Z.of_nat (length all_data) + 1) / 2 in
  let new_id := next_page_id_ s in
  let s' :=
    mkPool
       (<[k := InternalPg (Internal.Insert_Set_old split_idx all_data p)]>
          (<[new_id :=
               InternalPg (Internal.Insert_Set_new split_idx all_data
                             (Internal.Init (internal_max_size_ t) zero_internal))]>
             (pages_ s)))
       (new_id + 1) fails in
  sizes_inv t s' ∧ extends s s' ∧
  code_min_size (i_max_size_ p) ≤ i_size_ (Internal.Insert_Set_old split_idx all_data p).
Proof.
  intros HI Hp Hfull Hchild all_data split_idx new_id.
  set (L := Internal.Insert_Set_old _ _ _). set (R := Internal.Insert_Set_new _ _ _).
  intros s'.
  destruct (sizes_inv_header t s HI) as (Hh & Hhp & Hroot).
  destruct (inv_caps t s HI) as [Hlcap Hicap].
  destruct (inv_internals t s HI k p Hp) as (Hp1 & Hp2 & Hp3 & Hp4 & Hp5).
  pose proof (sizes_inv_next_unused t s HI) as Hunused. fold new_id in Hunused.
  pose proof (sizes_inv_root_below t s HI) as [Hrb Hrh].
  assert (k ≠ header_page_id_ t) as Hne by (intros ->; congruence).
  assert (0 ≤ k < new_id) as Hlt by (apply (inv_fresh t s HI); by rewrite Hp).
  assert (i_size_ p = i_max_size_ p) as Hsz by lia.
  destruct (internal_all_data_values p ltac:(lia)) as [Hlen_old Hvals].
  assert (Hlen : Z.of_nat (length all_data) = i_size_ p + 1).
  { unfold all_data. rewrite length_emplace, Hlen_old. lia. }
  assert (split_idx = (i_max_size_ p + 1 + 1) / 2) as Hsplit
    by (unfold split_idx; rewrite Hlen, Hsz; done).
  destruct (split_sizes (i_max_size_ p) ltac:(lia)) as [Hs1 Hs2]. cbv zeta in Hs1, Hs2.
  rewrite <- Hsplit in Hs1, Hs2.
  pose proof (code_min_size_pos (i_max_size_ p) ltac:(lia)) as Hmin.
  destruct (Internal_Insert_Set_old_spec split_idx all_data p) as (HL1 & HL2 & HL3 & HL4);
    [lia|lia|]. fold L in HL1, HL2, HL3, HL4.
  pose proof (length_zero_internal_values (internal_max_size_ t)) as Hzl.
  destruct (Internal_Insert_Set_new_spec split_idx all_data
              (Internal.Init (internal_max_size_ t) zero_internal))
    as (HR1 & HR2 & HR3 & HR4); [lia|lia|]. fold R in HR1, HR2, HR3, HR4.
  assert (Hall : ∀ i v, all_data.*2 !! i = Some v → tree_page s v).
  { intros i v Hv. apply list_elem_of_lookup_2 in Hv.
    apply emplace_values in Hv as [->|Hv]; [done|].
    destruct (Hvals v Hv) as (j & Hj & ->). by apply Hp5. }
  assert (Hext : extends s s').
  { apply (extends_trans s (mkPool (<[new_id := InternalPg R]> (pages_ s)) 0 [])).
    - apply (extends_insert_internal _ _ new_id R); [done|].
      intros (_ & q & Hq). congruence.
    - apply (extends_insert_internal _ _ k L); [done|].
      intros (_ & q & Hq). simpl in Hq. rewrite lookup_insert_ne in Hq by lia. congruence. }
  assert (Hroot' : root_of t s' = root_of t s).
  { apply root_of_pages. simpl. rewrite !lookup_insert_ne by lia. done. }
  split; [|split; [done|rewrite HL1; lia]].
  apply (sizes_inv_update t s s' HI Hext).
  - intros id. simpl. destruct (decide (id = k)) as [->|Hid]; [lia|].
    rewrite lookup_insert_ne by done.
    destruct (decide (id = new_id)) as [->|Hid2]; [unfold new_id in *; lia|].
    rewrite lookup_insert_ne by done. intros H. apply (inv_fresh t s HI) in H.
    fold new_id in H. lia.
  - exists (root_of t s). split; [simpl; by rewrite !lookup_insert_ne by lia|].
    destruct Hroot as [?|Htp]; [by left|right; by apply (extends_tree_page s s')].
  - intros id q. simpl. rewrite Hroot'. destruct (decide (id = k)) as [->|Hid].
    + by rewrite lookup_insert_eq.
    + rewrite lookup_insert_ne by done.
      destruct (decide (id = new_id)) as [->|Hid2]; [by rewrite lookup_insert_eq|].
      rewrite lookup_insert_ne by done. intros Hq. left. split; [done|].
      destruct (decide (id = root_of t s)); [left|right]; done.
  - intros id q. simpl. rewrite Hroot'. destruct (decide (id = k)) as [->|Hid].
    + rewrite lookup_insert_eq. intros [= <-]. right. unfold internal_sizes_ok.
      rewrite HL1, HL2, HL3. repeat split; try lia; try done.
      intros i Hi. apply (extends_tree_page s s' _ Hext).
      apply (Hall (Z.to_nat i)). by apply HL4.
    + rewrite lookup_insert_ne by done.
      destruct (decide (id = new_id)) as [->|Hid2].
      * rewrite lookup_insert_eq. intros [= <-]. right. unfold internal_sizes_ok.
        rewrite HR1, HR2, HR3. simpl. rewrite Hlen, Hsz, <- Hp1. repeat split; try lia; try done.
        intros i Hi. apply (extends_tree_page s s' _ Hext).
        apply (Hall (Z.to_nat (split_idx + i))). apply HR4. lia.
      * rewrite lookup_insert_ne by done. intros Hq. left. split; [done|].
        destruct (decide (id = root_of t s)); [left|right]; done.
Qed.

(** A new root over the two halves of the old one. *)
Lemma sizes_inv_new_root t s left_page_id split_key right_page_id fails :
  sizes_inv t s → root_of t s = left_page_id →
  tree_page s left_page_id → tree_page s right_page_id →
  (∀ p, pages_ s !! left_page_id = Some (LeafPg p) →
        code_min_size (l_max_size_ p) ≤ l_size_ p) →
  (∀ p, pages_ s !! left_page_id = Some (InternalPg p) →
        code_min_size (i_max_size_ p) ≤ i_size_ p) →
  sizes_inv t
    (mkPool (<[header_page_id_ t := HeaderPg (next_page_id_ s)]>
               (<[next_page_id_ s :=
                    InternalPg
                      (Internal.SetKeyAt 1 split_key
                         (Internal.SetValueAt 1 right_page_id
                            (Internal.SetValueAt 0 left_page_id
                               (Internal.SetSize 2
                                  (Internal.Init (internal_max_size_ t) zero_internal)))))]>
                  (pages_ s)))
            (next_page_id_ s + 1) fails).
Proof.
  intros HI Hleft Htl Htr Hlb Hib. set (new_id := next_page_id_ s).
  set (rp := Internal.SetKeyAt _ _ _). set (s' := mkPool _ _ _).
  destruct (sizes_inv_header t s HI) as (Hh & Hhp & Hroot).
  destruct (inv_caps t s HI) as [Hlcap Hicap].
  pose proof (sizes_inv_next_unused t s HI) as Hunused. fold new_id in Hunused.
  assert (Hext : extends s s').
  { apply (extends_trans s (mkPool (<[new_id := InternalPg rp]> (pages_ s)) 0 [])).
    - apply (extends_insert_internal _ _ new_id rp); [done|].
      intros (_ & q & Hq). congruence.
    - apply (extends_insert_header _ _ (header_page_id_ t) new_id); [done|].
      intros Htp. apply tree_page_lookup in Htp as (_ & pg & Hpg & Hkind). simpl in Hpg.
      rewrite lookup_insert_ne in Hpg by (unfold new_id; lia). rewrite Hhp in Hpg.
      injection Hpg as <-. by destruct Hkind as [[? ?]|[? ?]]. }
  assert (Hroot' : root_of t s' = new_id).
  { apply root_of_header. simpl. by rewrite lookup_insert_eq. }
  assert (Hnew : pages_ s' !! new_id = Some (InternalPg rp)).
  { simpl. rewrite lookup_insert_ne by (unfold new_id; lia). by rewrite lookup_insert_eq. }
  apply (sizes_inv_update t s s' HI Hext).
  - intros id. simpl. destruct (decide (id = header_page_id_ t)) as [->|Hid].
    { intros _. unfold new_id in *. lia. }
    rewrite lookup_insert_ne by done.
    destruct (decide (id = new_id)) as [->|Hid2]; [unfold new_id in *; lia|].
    rewrite lookup_insert_ne by done. intros H. apply (inv_fresh t s HI) in H.
    fold new_id in H. lia.
  - exists new_id. split; [simpl; by rewrite lookup_insert_eq|]. right. right.
    split; [unfold new_id; lia|]. by exists rp.
  - intros id q Hq. rewrite Hroot'.
    assert (id ≠ header_page_id_ t) as Hid.
    { intros ->. simpl in Hq. by rewrite lookup_insert_eq in Hq. }
    assert (id ≠ new_id) as Hid2 by (intros ->; congruence).
    simpl in Hq. rewrite !lookup_insert_ne in Hq by done.
    destruct (decide (id = root_of t s)) as [Hr|Hr].
    + right. rewrite bool_decide_eq_false_2 by done.
      destruct (inv_leaves t s HI id q Hq) as (H1 & H2 & _).
      split; [done|]. split; [done|]. intros _. apply Hlb. by rewrite <- Hleft, <- Hr.
    + left. split; [done|]. by right.
  - intros id q Hq. rewrite Hroot'.
    assert (id ≠ header_page_id_ t) as Hid.
    { intros ->. simpl in Hq. by rewrite lookup_insert_eq in Hq. }
    destruct (decide (id = new_id)) as [->|Hid2].
    + right. rewrite Hnew in Hq. injection Hq as <-.
      rewrite bool_decide_eq_true_2 by done. unfold internal_sizes_ok.
      split; [done|]. split; [simpl; lia|]. split; [done|].
      split.
      { unfold rp, Internal.SetKeyAt, Internal.SetValueAt, Internal.SetSize, internal_set_key,
          internal_set_value, internal_set_size.
        cbn [i_page_id_array_]. rewrite !length_aset. apply length_zero_internal_values. }
      intros i Hi. simpl in Hi. apply (extends_tree_page s s' _ Hext).
      destruct (decide (i = 0)) as [->|]; [exact Htl|].
      replace i with 1 by lia. exact Htr.
    + simpl in Hq. rewrite !lookup_insert_ne in Hq by done.
      destruct (decide (id = root_of t s)) as [Hr|Hr].
      * right. rewrite bool_decide_eq_false_2 by done.
        destruct (inv_internals t s HI id q Hq) as (H1 & H2 & _ & H4 & H5).
        split; [done|]. split; [done|]. split; [|split; [done|]].
        -- intros _. apply Hib. by rewrite <- Hleft, <- Hr.
        -- intros i Hi. by apply (extends_tree_page s s' _ Hext), H5.
      * left. split; [done|]. by right.
Qed.

(** The first leaf of an empty tree. *)
Lemma sizes_inv_first_root t s key value fails :
  sizes_inv t s → root_of t s = INVALID_PAGE_ID →
  sizes_inv t
    (mkPool (<[header_page_id_ t := HeaderPg (next_page_id_ s)]>
               (<[next_page_id_ s :=
                    LeafPg (Leaf.Insert key value (Leaf.Init (leaf_max_size_ t) zero_leaf))]>
                  (pages_ s)))
            (next_page_id_ s + 1) fails).
Proof.
  intros HI Hempty. set (new_id := next_page_id_ s).
  set (lp := Leaf.Insert _ _ _). set (s' := mkPool _ _ _).
  destruct (sizes_inv_header t s HI) as (Hh & Hhp & Hroot).
  destruct (inv_caps t s HI) as [Hlcap Hicap].
  pose proof (sizes_inv_next_unused t s HI) as Hunused. fold new_id in Hunused.
  assert (Hext : extends s s').
  { apply (extends_trans s (mkPool (<[new_id := LeafPg lp]> (pages_ s)) 0 [])).
    - apply (extends_insert_leaf _ _ new_id lp); [done|].
      intros (_ & q & Hq). congruence.
    - apply (extends_insert_header _ _ (header_page_id_ t) new_id); [done|].
      intros Htp. apply tree_page_lookup in Htp as (_ & pg & Hpg & Hkind). simpl in Hpg.
      rewrite lookup_insert_ne in Hpg by (unfold new_id; lia). rewrite Hhp in Hpg.
      injection Hpg as <-. by destruct Hkind as [[? ?]|[? ?]]. }
  assert (Hroot' : root_of t s' = new_id).
  { apply root_of_header. simpl. by rewrite lookup_insert_eq. }
  assert (Hnew : pages_ s' !! new_id = Some (LeafPg lp)).
  { simpl. rewrite lookup_insert_ne by (unfold new_id; lia). by rewrite lookup_insert_eq. }
  assert (Hnonroot : ∀ id, is_Some (pages_ s !! id) → id ≠ root_of t s).
  { intros id Hid%(inv_fresh t s HI). rewrite Hempty. unfold INVALID_PAGE_ID. lia. }
  apply (sizes_inv_update t s s' HI Hext).
  - intros id. simpl. destruct (decide (id = header_page_id_ t)) as [->|Hid].
    { intros _. unfold new_id in *. lia. }
    rewrite lookup_insert_ne by done.
    destruct (decide (id = new_id)) as [->|Hid2]; [unfold new_id in *; lia|].
    rewrite lookup_insert_ne by done. intros H. apply (inv_fresh t s HI) in H.
    fold new_id in H. lia.
  - exists new_id. split; [simpl; by rewrite lookup_insert_eq|]. right. left.
    split; [unfold new_id; lia|]. by exists lp.
  - intros id q Hq. rewrite Hroot'.
    assert (id ≠ header_page_id_ t) as Hid.
    { intros ->. simpl in Hq. by rewrite lookup_insert_eq in Hq. }
    destruct (decide (id = new_id)) as [->|Hid2].
    + right. rewrite Hnew in Hq. injection Hq as <-.
      rewrite bool_decide_eq_true_2 by done.
      destruct (Insert_size key value (Leaf.Init (leaf_max_size_ t) zero_leaf)) as [Hs Hm].
      unfold leaf_sizes_ok. fold lp in Hs, Hm. rewrite Hs, Hm. simpl.
      repeat split; try lia; try done.
    + simpl in Hq. rewrite !lookup_insert_ne in Hq by done.
      left. split; [done|]. right. apply Hnonroot. by rewrite Hq.
  - intros id q Hq. rewrite Hroot'.
    assert (id ≠ header_page_id_ t) as Hid.
    { intros ->. simpl in Hq. by rewrite lookup_insert_eq in Hq. }
    assert (id ≠ new_id) as Hid2 by (intros ->; congruence).
    simpl in Hq. rewrite !lookup_insert_ne in Hq by done.
    left. split; [done|]. right. apply Hnonroot. by rewrite Hq.
Qed.

(** ** [Insert] keeps the size bounds *)

Lemma GetRootPageId_inv t s :
  sizes_inv t s → GetRootPageId t s = Some (root_of t s, s).
Proof.
  intros HI. destruct (sizes_inv_header t s HI) as (Hh & Hhp & _).
  apply GetRootPageId_header; [lia|done].
Qed.

Lemma ctx_ok_back s ctx cur : ctx_ok s ctx cur → back ctx = Some cur.
Proof. intros (front & Hws & _). unfold back. rewrite Hws. apply last_snoc. Qed.

Lemma ctx_ok_extends s s' ctx cur : extends s s' → ctx_ok s ctx cur → ctx_ok s' ctx cur.
Proof.
  intros [_ Hext] (front & Hws & Hfront). exists front. split; [done|].
  eapply Forall_impl; [exact Hfront|]. intros id. apply Hext.
Qed.

Lemma CreateNewRoot_inv t ctx s left_page_id split_key right_page_id b s' :
  sizes_inv t s → root_of t s = left_page_id →
  tree_page s left_page_id → tree_page s right_page_id →
  (∀ p, pages_ s !! left_page_id = Some (LeafPg p) →
        code_min_size (l_max_size_ p) ≤ l_size_ p) →
  (∀ p, pages_ s !! left_page_id = Some (InternalPg p) →
        code_min_size (i_max_size_ p) ≤ i_size_ p) →
  CreateNewRoot t left_page_id split_key right_page_id ctx s = Some (b, s') →
  sizes_inv t s'.
Proof.
  intros HI Hleft Htl Htr Hlb Hib Hcall.
  destruct (sizes_inv_header t s HI) as (Hh & Hhp & _).
  rewrite (CreateNewRoot_cases t ctx s _ _ _ _ Hh Hhp) in Hcall.
  destruct (new_page_fails_ s) as [|[] rest]; injection Hcall as <- <-.
  - by apply sizes_inv_new_root.
  - by apply sizes_inv_fails.
  - by apply sizes_inv_new_root.
Qed.

Lemma InsertIntoInternal_inv t fuel : ∀ ctx s id key child b s',
  sizes_inv t s → ctx_ok s ctx id → is_internal s id → tree_page s child →
  InsertIntoInternal fuel t ctx id key child s = Some (b, s') →
  sizes_inv t s'.
Proof.
  induction fuel as [|fuel IH]; intros ctx s id key child b s' HI Hctx Hid Hchild Hcall;
    [done|].
  destruct Hid as (Hid0 & p & Hp).
  assert (0 ≤ id < next_page_id_ s) as Hlt by (apply (inv_fresh t s HI); by rewrite Hp).
  rewrite (InsertIntoInternal_cases fuel t ctx s id id p key child
             (ctx_ok_back s ctx id Hctx) Hid0 Hp ltac:(lia)) in Hcall.
  cbv zeta in Hcall.
  destruct (inv_internals t s HI id p Hp) as (Hp1 & Hp2 & Hp3 & Hp4 & Hp5).
  destruct (Internal.FindInsertPos key p =? -1) eqn:Epos.
  { by injection Hcall as <- <-. }
  apply Z.eqb_neq in Epos.
  destruct (FindInsertPos_range p key ltac:(lia)) as [?|Hpos]; [done|].
  destruct (i_size_ p <? i_max_size_ p) eqn:Eroom.
  { apply Z.ltb_lt in Eroom. injection Hcall as <- <-.
    by apply sizes_inv_internal_room. }
  apply Z.ltb_ge in Eroom.
  set (all_data := emplace _ _ _) in Hcall. set (split_idx := (_ + 1) / 2) in Hcall.
  assert (Hsplit : ∀ fails,
    let s2 := mkPool
       (<[id := InternalPg (Internal.Insert_Set_old split_idx all_data p)]>
          (<[next_page_id_ s :=
               InternalPg (Internal.Insert_Set_new split_idx all_data
                             (Internal.Init (internal_max_size_ t) zero_internal))]>
             (pages_ s)))
       (next_page_id_ s + 1) fails in
    (do root <- GetRootPageId t;
     if id =? root then
       CreateNewRoot t id (first_at all_data split_idx) (next_page_id_ s) ctx
     else
       match back (pop_back ctx) with
       | None => stuck
       | Some father_id =>
           InsertIntoInternal fuel t (pop_back ctx) father_id
             (first_at all_data split_idx) (next_page_id_ s)
       end) s2 = Some (b, s') → sizes_inv t s').
  { intros fails s2 Hcont.
    destruct (sizes_inv_internal_split t s id p key child (Internal.FindInsertPos key p) fails
                HI Hp ltac:(lia) Hchild) as (HI2 & Hext & Hlow).
    fold all_data split_idx s2 in HI2, Hext, Hlow.
    assert (Hid2 : pages_ s2 !! id = Some (InternalPg (Internal.Insert_Set_old split_idx all_data p)))
      by (simpl; by rewrite lookup_insert_eq).
    assert (Hnew2 : is_internal s2 (next_page_id_ s)).
    { split; [lia|]. eexists. simpl. rewrite lookup_insert_ne by lia. apply lookup_insert_eq. }
    rewrite (bind_Some _ _ _ _ _ (GetRootPageId_inv t s2 HI2)) in Hcont.
    destruct (id =? root_of t s2) eqn:Eroot.
    - apply Z.eqb_eq in Eroot.
      apply (CreateNewRoot_inv t ctx s2 id (first_at all_data split_idx) (next_page_id_ s) b s' HI2);
        try done.
      + right. split; [done|]. by eexists.
      + by right.
      + intros q Hq. congruence.
      + intros q Hq. rewrite Hid2 in Hq. injection Hq as <-.
        destruct (inv_internals t s2 HI2 id _ Hid2) as (HL1 & _).
        rewrite HL1, <- Hp1. exact Hlow.
    - destruct Hctx as (front & Hws & Hfront).
      assert (write_set_ (pop_back ctx) = front) as Hws'.
      { unfold pop_back. simpl. rewrite Hws. apply removelast_last. }
      unfold back in Hcont. rewrite Hws' in Hcont.
      destruct (last front) as [father|] eqn:Hlast; [|done].
      apply last_Some in Hlast as [front' ->].
      apply Forall_app in Hfront as [Hfront' Hfather].
      rewrite Forall_singleton in Hfather.
      apply (IH (pop_back ctx) s2 father (first_at all_data split_idx) (next_page_id_ s) b s' HI2);
        try done.
      + exists front'. split; [done|]. eapply Forall_impl; [exact Hfront'|].
        intros x. apply (proj2 Hext).
      + by apply (proj2 Hext).
      + by right. }
  destruct (new_page_fails_ s) as [|[] rest] eqn:Hfails.
  - by apply (Hsplit []).
  - injection Hcall as <- <-. by apply sizes_inv_fails.
  - by apply (Hsplit rest).
Qed.

Lemma InsertIntoLeaf_inv t ctx s leaf key value b s' :
  sizes_inv t s → ctx_ok s ctx leaf → is_leaf s leaf →
  InsertIntoLeaf t ctx leaf key value s = Some (b, s') →
  sizes_inv t s'.
Proof.
  intros HI Hctx (Hleaf0 & p & Hp) Hcall.
  assert (0 ≤ leaf < next_page_id_ s) as Hlt by (apply (inv_fresh t s HI); by rewrite Hp).
  rewrite (InsertIntoLeaf_cases t ctx s leaf leaf p key value
             (ctx_ok_back s ctx leaf Hctx) Hleaf0 Hp ltac:(lia)) in Hcall.
  cbv zeta in Hcall.
  destruct (inv_leaves t s HI leaf p Hp) as (Hp1 & Hp2 & Hp3).
  destruct (_ && _).
  { by injection Hcall as <- <-. }
  destruct (l_size_ p <? l_max_size_ p) eqn:Eroom.
  { apply Z.ltb_lt in Eroom. injection Hcall as <- <-. by apply sizes_inv_leaf_room. }
  apply Z.ltb_ge in Eroom.
  set (all_data := emplace _ _ _) in Hcall. set (split_idx := (_ + 1) / 2) in Hcall.
  assert (Hlen : Z.of_nat (length all_data) = l_size_ p + 1).
  { unfold all_data. rewrite length_emplace, length_leaf_all_data. lia. }
  assert (Hsplit : ∀ fails,
    let s1 := mkPool
       (<[leaf := LeafPg (Leaf.SetNextPageId (next_page_id_ s)
                            (Leaf.Insert_Set_old split_idx all_data p))]>
          (<[next_page_id_ s :=
               LeafPg (Leaf.SetNextPageId (l_next_page_id_ p)
                         (Leaf.Insert_Set_new split_idx all_data
                            (Leaf.Init (leaf_max_size_ t) zero_leaf)))]>
             (pages_ s)))
       (next_page_id_ s + 1) fails in
    (do root <- GetRootPageId t;
     if leaf =? root then
       CreateNewRoot t leaf (first_at all_data split_idx) (next_page_id_ s) ctx
     else
       match back (pop_back ctx) with
       | None => stuck
       | Some inter_page =>
           InsertIntoInternal (length (write_set_ ctx)) t (pop_back ctx) inter_page
             (first_at all_data split_idx) (next_page_id_ s)
       end) s1 = Some (b, s') → sizes_inv t s').
  { intros fails s1 Hcont.
    destruct (sizes_inv_split_leaf t s leaf p all_data fails HI Hp ltac:(lia) Hlen)
      as (HI1 & Hext & Hlow).
    fold split_idx s1 in HI1, Hext, Hlow.
    assert (Hl1 : pages_ s1 !! leaf =
              Some (LeafPg (Leaf.SetNextPageId (next_page_id_ s)
                              (Leaf.Insert_Set_old split_idx all_data p))))
      by (simpl; by rewrite lookup_insert_eq).
    assert (Hnew1 : is_leaf s1 (next_page_id_ s)).
    { split; [lia|]. eexists. simpl. rewrite lookup_insert_ne by lia. apply lookup_insert_eq. }
    rewrite (bind_Some _ _ _ _ _ (GetRootPageId_inv t s1 HI1)) in Hcont.
    destruct (leaf =? root_of t s1) eqn:Eroot.
    - apply Z.eqb_eq in Eroot.
      apply (CreateNewRoot_inv t ctx s1 leaf (first_at all_data split_idx) (next_page_id_ s)
               b s' HI1); try done.
      + left. split; [done|]. by eexists.
      + by left.
      + intros q Hq. rewrite Hl1 in Hq. injection Hq as <-.
        destruct (inv_leaves t s1 HI1 leaf _ Hl1) as (HL1 & _).
        rewrite HL1, <- Hp1. exact Hlow.
      + intros q Hq. congruence.
    - destruct Hctx as (front & Hws & Hfront).
      assert (write_set_ (pop_back ctx) = front) as Hws'.
      { unfold pop_back. simpl. rewrite Hws. apply removelast_last. }
      unfold back in Hcont. rewrite Hws' in Hcont.
      destruct (last front) as [father|] eqn:Hlast; [|done].
      apply last_Some in Hlast as [front' ->].
      apply Forall_app in Hfront as [Hfront' Hfather].
      rewrite Forall_singleton in Hfather.
      apply (InsertIntoInternal_inv t (length (write_set_ ctx)) (pop_back ctx) s1 father
               (first_at all_data split_idx) (next_page_id_ s) b s' HI1); try done.
      + exists front'. split; [done|]. eapply Forall_impl; [exact Hfront'|].
        intros x. apply (proj2 Hext).
      + by apply (proj2 Hext).
      + by left. }
  destruct (new_page_fails_ s) as [|[] rest] eqn:Hfails.
  - by apply (Hsplit []).
  - injection Hcall as <- <-. by apply sizes_inv_fails.
  - by apply (Hsplit rest).
Qed.

Lemma tree_page_cases s id :
  tree_page s id →
  (∃ p, 0 ≤ id ∧ pages_ s !! id = Some (LeafPg p) ∧ IsLeafPage id s = Some (true, s)) ∨
  (∃ p, 0 ≤ id ∧ pages_ s !! id = Some (InternalPg p) ∧ IsLeafPage id s = Some (false, s)).
Proof.
  intros [(Hid & p & Hp)|(Hid & p & Hp)]; [left|right]; exists p; repeat split; try done.
  - by apply (IsLeafPage_leaf s id p).
  - by apply (IsLeafPage_internal s id p).
Qed.

Lemma FindPage_tree_page t s id p key :
  sizes_inv t s → pages_ s !! id = Some (InternalPg p) →
  tree_page s (Internal.FindPage key p).
Proof.
  intros HI Hp. destruct (inv_internals t s HI id p Hp) as (_ & Hsz & _ & _ & Hch).
  destruct (FindPage_in_range p key ltac:(lia)) as (c & Hc & ->). by apply Hch.
Qed.

Lemma Insert_write_from_inv t fuel : ∀ ctx s cur key value b s',
  sizes_inv t s → ctx_ok s ctx cur → tree_page s cur →
  Insert_write_from fuel t ctx cur key value s = Some (b, s') →
  sizes_inv t s'.
Proof.
  induction fuel as [|fuel IH]; intros ctx s cur key value b s' HI Hctx Hcur Hcall; [done|].
  simpl in Hcall.
  destruct (tree_page_cases s cur Hcur) as [(p & Hid & Hp & Hleaf)|(p & Hid & Hp & Hleaf)];
    rewrite (bind_Some _ _ _ _ _ Hleaf) in Hcall.
  - apply (InsertIntoLeaf_inv t ctx s cur key value b s' HI Hctx); [|done].
    split; [done|by exists p].
  - rewrite (ctx_ok_back s ctx cur Hctx) in Hcall.
    rewrite (bind_Some _ _ _ _ _ (internal_read_internal _ s cur p Hid Hp)) in Hcall.
    rewrite (bind_Some _ _ _ _ _ (internal_read_internal _ s cur p Hid Hp)) in Hcall.
    rewrite (bind_Some _ _ _ _ _ (internal_read_internal _ s cur p Hid Hp)) in Hcall.
    refine (IH _ s _ key value b s' HI _ _ Hcall).
    + destruct Hctx as (front & Hws & Hfront).
      assert (is_internal s cur) as Hcur_int by (split; [done|by exists p]).
      destruct (Internal.GetSize p <? Internal.GetMaxSize p).
      * exists [cur]. split; [|by apply Forall_singleton].
        unfold push_back, keep_last_write_latch. simpl. rewrite Hws, last_snoc. done.
      * exists (front ++ [cur]). split; [unfold push_back; simpl; by rewrite Hws|].
        apply Forall_app. split; [done|by apply Forall_singleton].
    + by apply (FindPage_tree_page t s cur).
Qed.

Lemma Insert_write_inv t fuel s again key value b s' :
  sizes_inv t s → Insert_write fuel t again key value s = Some (b, s') → sizes_inv t s'.
Proof.
  intros HI Hcall. unfold Insert_write in Hcall.
  destruct (sizes_inv_header t s HI) as (Hh & Hhp & Hroot).
  rewrite (bind_Some _ _ _ _ _ (GetRootPageId_inv t s HI)) in Hcall.
  cbv zeta in Hcall. cbn [root_page_id_ ctx_with_root ctx_with_header] in Hcall.
  destruct (root_of t s =? INVALID_PAGE_ID) eqn:Eroot.
  - apply Z.eqb_eq in Eroot.
    pose proof (sizes_inv_next_unused t s HI) as Hunused.
    destruct (new_page_fails_ s) as [|[] rest] eqn:Hfails.
    2: { rewrite (bind_Some _ _ _ _ _ (NewPage_fails s rest Hfails)) in Hcall.
         injection Hcall as <- <-. by apply sizes_inv_fails. }
    all: rewrite (bind_Some _ _ _ _ _ (NewPage_ok s ltac:(by rewrite Hfails))) in Hcall.
    all: assert ((next_page_id_ s =? INVALID_PAGE_ID) = false) as Hnew
           by (apply Z.eqb_neq; unfold INVALID_PAGE_ID; lia).
    all: rewrite Hnew in Hcall.
    all: erewrite bind_Some in Hcall;
           [|apply leaf_write_raw; [lia|simpl; apply lookup_insert_eq]].
    all: erewrite bind_Some in Hcall;
           [|apply leaf_write_leaf; [lia|simpl; apply lookup_insert_eq]].
    all: erewrite bind_Some in Hcall;
           [|apply (set_root_header t _ (root_of t s));
             [lia|simpl; by rewrite !lookup_insert_ne by lia]].
    all: injection Hcall as <- <-.
    all: pose proof (sizes_inv_first_root t s key value (tail (new_page_fails_ s)) HI Eroot)
           as HI'.
    all: match goal with
         | |- sizes_inv _ ?s1 =>
             match type of HI' with
             | sizes_inv _ ?s2 => replace s1 with s2; [exact HI'|]
             end
         end.
    all: unfold with_pages; simpl; f_equal.
    all: apply map_eq; intros i.
    all: destruct (decide (i = header_page_id_ t)) as [->|Hi1];
           [by rewrite !lookup_insert_eq|].
    all: rewrite !(lookup_insert_ne _ (header_page_id_ t) i) by done.
    all: destruct (decide (i = next_page_id_ s)) as [->|Hi2];
           [by rewrite !lookup_insert_eq|].
    all: by rewrite !lookup_insert_ne by done.
  - destruct Hroot as [Hroot|Hroot]; [apply Z.eqb_neq in Eroot; done|].
    rewrite (bind_Some _ _ _ _ _ (GetRootPageId_inv t s HI)) in Hcall.
    rewrite Z.eqb_refl in Hcall. simpl negb in Hcall. cbv iota in Hcall.
    unfold bind at 1 in Hcall. unfold ret at 1 in Hcall.
    refine (Insert_write_from_inv t fuel _ s _ key value b s' HI _ Hroot Hcall).
    exists []. split; [done|apply Forall_nil_2].
Qed.

Lemma Insert_from_inv t again fuel : ∀ s cur key value b s',
  sizes_inv t s → tree_page s cur →
  Insert_from fuel t again cur key value s = Some (b, s') →
  sizes_inv t s'.
Proof.
  induction fuel as [|fuel IH]; intros s cur key value b s' HI Hcur Hcall; [done|].
  simpl in Hcall.
  destruct (tree_page_cases s cur Hcur) as [(p & Hid & Hp & Hleaf)|(p & Hid & Hp & Hleaf)];
    rewrite (bind_Some _ _ _ _ _ Hleaf) in Hcall.
  - rewrite (bind_Some _ _ _ _ _ (page_size_leaf s cur p Hid Hp)) in Hcall.
    rewrite (bind_Some _ _ _ _ _ (page_max_size_leaf s cur p Hid Hp)) in Hcall.
    destruct (l_max_size_ p <=? l_size_ p).
    + exact (Insert_write_inv t _ s _ key value b s' HI Hcall).
    + refine (InsertIntoLeaf_inv t _ s cur key value b s' HI _ _ Hcall).
      * exists []. split; [done|apply Forall_nil_2].
      * split; [done|by exists p].
  - rewrite (bind_Some _ _ _ _ _ (internal_read_internal _ s cur p Hid Hp)) in Hcall.
    refine (IH s _ key value b s' HI _ Hcall).
    by apply (FindPage_tree_page t s cur).
Qed.

Lemma Insert_inv t calls fuel s key value b s' :
  sizes_inv t s → Insert calls fuel t key value s = Some (b, s') → sizes_inv t s'.
Proof.
  intros HI Hcall. destruct calls as [|calls]; [done|]. simpl in Hcall.
  destruct (sizes_inv_header t s HI) as (Hh & Hhp & Hroot).
  rewrite (bind_Some _ _ _ _ _ (GetRootPageId_inv t s HI)) in Hcall.
  destruct (root_of t s =? INVALID_PAGE_ID) eqn:Eroot.
  - exact (Insert_write_inv t fuel s _ key value b s' HI Hcall).
  - destruct Hroot as [Hroot|Hroot]; [apply Z.eqb_neq in Eroot; done|].
    exact (Insert_from_inv t _ fuel s _ key value b s' HI Hroot Hcall).
Qed.

Lemma no_tree_pages_inv t s :
  no_tree_pages t s = true →
  0 ≤ header_page_id_ t ∧
  (∃ root, pages_ s !! header_page_id_ t = Some (HeaderPg root)) ∧
  ∀ id pg, pages_ s !! id = Some pg →
    0 ≤ id < next_page_id_ s ∧ (∀ p, pg ≠ LeafPg p) ∧ (∀ p, pg ≠ InternalPg p).
Proof.
  unfold no_tree_pages. intros H.
  apply andb_true_iff in H as [H Hall]. apply andb_true_iff in H as [Hh Hroot].
  split; [lia|]. split.
  - destruct (pages_ s !! header_page_id_ t) as [[]|]; try done. by eexists.
  - intros id pg Hpg. rewrite forallb_forall in Hall.
    specialize (Hall (id, pg)). simpl in Hall.
    assert (Hin : In (id, pg) (map_to_list (pages_ s))).
    { apply list_elem_of_In. by apply elem_of_map_to_list. }
    specialize (Hall Hin).
    apply andb_true_iff in Hall as [Hr Hk]. apply andb_true_iff in Hr as [? ?].
    split; [lia|]. split; intros p ->; done.
Qed.

Lemma new_tree_sizes_inv t s :
  caps_ok t → no_tree_pages t s = true →
  ∃ s', new_tree t s = Some (tt, s') ∧ sizes_inv t s' ∧ root_of t s' = INVALID_PAGE_ID.
Proof.
  intros Hcaps Hno. destruct (no_tree_pages_inv t s Hno) as (Hh & [root Hroot] & Hpages).
  exists (with_pages (<[header_page_id_ t := HeaderPg INVALID_PAGE_ID]> (pages_ s)) s).
  split; [by apply (set_root_header t s root)|].
  assert (Hr : root_of t (with_pages (<[header_page_id_ t := HeaderPg INVALID_PAGE_ID]>
                                        (pages_ s)) s) = INVALID_PAGE_ID).
  { unfold root_of. simpl. by rewrite lookup_insert_eq. }
  split; [|exact Hr].
  assert (Hold : ∀ id pg, <[header_page_id_ t := HeaderPg INVALID_PAGE_ID]> (pages_ s) !! id
                          = Some pg →
                 (id = header_page_id_ t ∧ pg = HeaderPg INVALID_PAGE_ID) ∨
                 (id ≠ header_page_id_ t ∧ pages_ s !! id = Some pg)).
  { intros id pg H. destruct (decide (id = header_page_id_ t)) as [->|Hne].
    - rewrite lookup_insert_eq in H. left. split; congruence.
    - rewrite lookup_insert_ne in H by done. by right. }
  constructor.
  - exact Hcaps.
  - split; [done|]. exists INVALID_PAGE_ID. split; [simpl; apply lookup_insert_eq|by left].
  - intros id [pg Hpg]. simpl in Hpg. simpl.
    destruct (Hold id pg Hpg) as [[-> _]|[_ H]].
    + by apply (Hpages _ _ Hroot).
    + by apply (Hpages _ _ H).
  - intros id p Hp. simpl in Hp. destruct (Hold id _ Hp) as [[_ ?]|[_ H]]; [done|].
    destruct (Hpages id _ H) as (_ & Hno1 & _). by destruct (Hno1 p).
  - intros id p Hp. simpl in Hp. destruct (Hold id _ Hp) as [[_ ?]|[_ H]]; [done|].
    destruct (Hpages id _ H) as (_ & _ & Hno2). by destruct (Hno2 p).
Qed.

Lemma sizes_inv_non_root t s : sizes_inv t s → non_root_sizes t s.
Proof.
  intros HI id Hid. split; intros p Hp.
  - destruct (inv_leaves t s HI id p Hp) as (Hmax & Hsz & Hmin).
    rewrite bool_decide_eq_false_2 in Hmin by done. specialize (Hmin eq_refl).
    rewrite <- Hmax. split; [done|lia].
  - destruct (inv_internals t s HI id p Hp) as (Hmax & Hsz & Hmin & _).
    rewrite bool_decide_eq_false_2 in Hmin by done. specialize (Hmin eq_refl).
    rewrite <- Hmax. split; [done|lia].
Qed.

(** ** [Insert] returns *)

Lemma with_rank_eq id n lv : with_rank id n lv id = n.
Proof. unfold with_rank. by rewrite decide_True. Qed.

Lemma with_rank_ne id n lv x : x ≠ id → with_rank id n lv x = lv x.
Proof. intros H. unfold with_rank. by rewrite decide_False. Qed.

Lemma same_ranks_refl s lv : same_ranks s lv lv.
Proof. by intros id _. Qed.

Lemma same_ranks_with_rank s n lv : same_ranks s lv (with_rank (next_page_id_ s) n lv).
Proof. intros id Hid. apply with_rank_ne. lia. Qed.

Lemma same_ranks_trans s s' lv lv' lv'' :
  next_page_id_ s ≤ next_page_id_ s' →
  same_ranks s lv lv' → same_ranks s' lv' lv'' → same_ranks s lv lv''.
Proof. intros Hle H1 H2 id Hid. rewrite H2 by lia. by apply H1. Qed.

Lemma sizes_inv_child_below t s id p i :
  sizes_inv t s → pages_ s !! id = Some (InternalPg p) → 0 ≤ i < i_size_ p →
  0 ≤ Internal.ValueAt i p < next_page_id_ s.
Proof.
  intros HI Hp Hi. destruct (inv_internals t s HI id p Hp) as (_ & _ & _ & _ & Hch).
  by destruct (sizes_inv_tree_page t s _ HI (Hch i Hi)).
Qed.

(** A step that changes no internal page keeps the ranking, also with a
    rank given to the page handed out next. *)
Lemma levels_same_internals t lv s s' n :
  sizes_inv t s → levels_ok lv s →
  (∀ id p, pages_ s' !! id = Some (InternalPg p) → pages_ s !! id = Some (InternalPg p)) →
  levels_ok lv s' ∧ levels_ok (with_rank (next_page_id_ s) n lv) s'.
Proof.
  intros HI Hlv Hsame. split; intros id p Hp i Hi; specialize (Hsame id p Hp).
  - by apply (Hlv id p).
  - pose proof (sizes_inv_child_below t s id p i HI Hsame Hi).
    assert (0 ≤ id < next_page_id_ s) by (apply (inv_fresh t s HI); by rewrite Hsame).
    rewrite !with_rank_ne by lia. by apply (Hlv id p).
Qed.

Lemma levels_internal_room t lv s k p key child insert_pos :
  sizes_inv t s → levels_ok lv s →
  pages_ s !! k = Some (InternalPg p) → i_size_ p < i_max_size_ p →
  1 ≤ insert_pos ≤ i_size_ p → (lv child < lv k)%nat →
  levels_ok lv
    (with_pages (<[k := InternalPg (Internal.Insert key child insert_pos p)]> (pages_ s)) s).
Proof.
  intros HI Hlv Hp Hroom Hpos Hchild id q Hq i Hi. simpl in Hq.
  destruct (inv_caps t s HI) as [Hlcap Hicap].
  destruct (inv_internals t s HI k p Hp) as (Hp1 & Hp2 & Hp3 & Hp4 & Hp5).
  destruct (Internal_Insert_spec key child insert_pos p) as (Hq1 & Hq2 & Hq3 & Hq4);
    [lia|lia|].
  destruct (decide (id = k)) as [->|Hid].
  - rewrite lookup_insert_eq in Hq. injection Hq as <-.
    rewrite Hq1 in Hi. rewrite Hq4 by lia.
    destruct (decide (i < insert_pos)); [apply (Hlv k p Hp); lia|].
    destruct (decide (i = insert_pos)); [done|]. apply (Hlv k p Hp). lia.
  - rewrite lookup_insert_ne in Hq by done. by apply (Hlv id q).
Qed.

Lemma levels_internal_split t lv s k p key child insert_pos fails :
  sizes_inv t s → levels_ok lv s →
  pages_ s !! k = Some (InternalPg p) → ¬ i_size_ p < i_max_size_ p →
  tree_page s child → (lv child < lv k)%nat →
  let all_data := emplace insert_pos (key, child) (internal_all_data p) in
  let split_idx := (Z.of_nat (length all_data) + 1) / 2 in
  let new_id := next_page_id_ s in
  levels_ok (with_rank new_id (lv k) lv)
    (mkPool
       (<[k := InternalPg (Internal.Insert_Set_old split_idx all_data p)]>
          (<[new_id :=
               InternalPg (Internal.Insert_Set_new split_idx all_data
                             (Internal.Init (internal_max_size_ t) zero_internal))]>
             (pages_ s)))
       (new_id + 1) fails).
Proof.
  intros HI Hlv Hp Hfull Hchild Hrank all_data split_idx new_id.
  set (L := Internal.Insert_Set_old _ _ _). set (R := Internal.Insert_Set_new _ _ _).
  destruct (inv_caps t s HI) as [Hlcap Hicap].
  destruct (inv_internals t s HI k p Hp) as (Hp1 & Hp2 & Hp3 & Hp4 & Hp5).
  assert (0 ≤ k < new_id) as Hlt by (apply (inv_fresh t s HI); by rewrite Hp).
  assert (i_size_ p = i_max_size_ p) as Hsz by lia.
  destruct (internal_all_data_values p ltac:(lia)) as [Hlen_old Hvals].
  assert (Hlen : Z.of_nat (length all_data) = i_size_ p + 1).
  { unfold all_data. rewrite length_emplace, Hlen_old. lia. }
  assert (split_idx = (i_max_size_ p + 1 + 1) / 2) as Hsplit
    by (unfold split_idx; rewrite Hlen, Hsz; done).
  destruct (split_sizes (i_max_size_ p) ltac:(lia)) as [Hs1 Hs2]. cbv zeta in Hs1, Hs2.
  rewrite <- Hsplit in Hs1, Hs2.
  pose proof (code_min_size_pos (i_max_size_ p) ltac:(lia)) as Hmin.
  destruct (Internal_Insert_Set_old_spec split_idx all_data p) as (HL1 & HL2 & HL3 & HL4);
    [lia|lia|]. fold L in HL1, HL2, HL3, HL4.
  pose proof (length_zero_internal_values (internal_max_size_ t)) as Hzl.
  destruct (Internal_Insert_Set_new_spec split_idx all_data
              (Internal.Init (internal_max_size_ t) zero_internal))
    as (HR1 & HR2 & HR3 & HR4); [lia|lia|]. fold R in HR1, HR2, HR3, HR4.
  assert (Hall : ∀ i v, all_data.*2 !! i = Some v →
                        (with_rank new_id (lv k) lv v < lv k)%nat).
  { intros i v Hv. apply list_elem_of_lookup_2 in Hv.
    apply emplace_values in Hv as [->|Hv].
    - simpl. destruct (sizes_inv_tree_page t s _ HI Hchild) as [? _].
      rewrite with_rank_ne by (unfold new_id; lia). done.
    - destruct (Hvals v Hv) as (j & Hj & ->).
      pose proof (sizes_inv_child_below t s k p j HI Hp Hj).
      rewrite with_rank_ne by (unfold new_id; lia). by apply (Hlv k p Hp). }
  intros id q Hq i Hi. simpl in Hq.
  destruct (decide (id = k)) as [->|Hid].
  - rewrite lookup_insert_eq in Hq. injection Hq as <-.
    rewrite (with_rank_ne _ _ _ k) by lia.
    apply (Hall (Z.to_nat i)). apply HL4. lia.
  - rewrite lookup_insert_ne in Hq by done.
    destruct (decide (id = new_id)) as [->|Hid2].
    + rewrite lookup_insert_eq in Hq. injection Hq as <-.
      rewrite with_rank_eq. apply (Hall (Z.to_nat (split_idx + i))). apply HR4. lia.
    + rewrite lookup_insert_ne in Hq by done.
      pose proof (sizes_inv_child_below t s id q i HI Hq Hi).
      rewrite !with_rank_ne by (unfold new_id; lia || done). by apply (Hlv id q).
Qed.

Lemma levels_new_root t lv s left_page_id split_key right_page_id fails n :
  sizes_inv t s → levels_ok lv s →
  (lv left_page_id < n)%nat → (lv right_page_id < n)%nat →
  left_page_id < next_page_id_ s → right_page_id < next_page_id_ s →
  levels_ok (with_rank (next_page_id_ s) n lv)
    (mkPool (<[header_page_id_ t := HeaderPg (next_page_id_ s)]>
               (<[next_page_id_ s :=
                    InternalPg
                      (Internal.SetKeyAt 1 split_key
                         (Internal.SetValueAt 1 right_page_id
                            (Internal.SetValueAt 0 left_page_id
                               (Internal.SetSize 2
                                  (Internal.Init (internal_max_size_ t) zero_internal)))))]>
                  (pages_ s)))
            (next_page_id_ s + 1) fails).
Proof.
  intros HI Hlv Hl Hr Hlb Hrb id q Hq i Hi. simpl in Hq.
  destruct (sizes_inv_header t s HI) as (Hh & Hhp & Hroot).
  destruct (decide (id = header_page_id_ t)) as [->|Hid].
  { by rewrite lookup_insert_eq in Hq. }
  rewrite lookup_insert_ne in Hq by done.
  destruct (decide (id = next_page_id_ s)) as [->|Hid2].
  - rewrite lookup_insert_eq in Hq. injection Hq as <-.
    rewrite with_rank_eq. simpl in Hi.
    destruct (decide (i = 0)) as [->|].
    + change (Internal.ValueAt 0 _) with left_page_id. rewrite with_rank_ne by lia. done.
    + replace i with 1 by lia.
      change (Internal.ValueAt 1 _) with right_page_id. rewrite with_rank_ne by lia. done.
  - rewrite lookup_insert_ne in Hq by done.
    pose proof (sizes_inv_child_below t s id q i HI Hq Hi).
    assert (0 ≤ id < next_page_id_ s) by (apply (inv_fresh t s HI); by rewrite Hq).
    rewrite !with_rank_ne by lia. by apply (Hlv id q).
Qed.

Lemma falling_snoc lv l c :
  falling lv (l ++ [c]) ↔ falling lv l ∧ Forall (λ a, (lv c < lv a)%nat) l.
Proof.
  induction l as [|a l IH]; simpl.
  - split; [intros _; split; [done|constructor]|intros _; split; [constructor|done]].
  - rewrite IH, Forall_app, Forall_singleton, Forall_cons. tauto.
Qed.

Lemma falling_ext lv lv' l :
  Forall (λ a, lv' a = lv a) l → falling lv l → falling lv' l.
Proof.
  induction l as [|a l IH]; simpl; [done|].
  intros Hall [Hhd Htl]. apply Forall_cons in Hall as [Ha Hl].
  split; [|by apply IH].
  rewrite Forall_forall in Hhd, Hl. apply Forall_forall. intros b Hb.
  rewrite (Hl b Hb), Ha. by apply Hhd.
Qed.

Lemma path_ok_ctx_ok lv t s ctx cur : path_ok lv t s ctx cur → ctx_ok s ctx cur.
Proof. intros (front & Hws & Hfront & _). by exists front. Qed.

Lemma is_internal_below t s id : sizes_inv t s → is_internal s id → id < next_page_id_ s.
Proof.
  intros HI (_ & p & Hp). assert (0 ≤ id < next_page_id_ s); [|lia].
  apply (inv_fresh t s HI). by rewrite Hp.
Qed.

Lemma returns_ranked_same t s lv b :
  sizes_inv t s → levels_ok lv s → returns_ranked t s lv (Some (b, s)).
Proof.
  intros HI Hlv. exists b, s, lv. split; [done|]. split; [done|]. split; [done|].
  split; [apply same_ranks_refl|]. split; lia.
Qed.

Lemma returns_ranked_fails t s lv b rest :
  sizes_inv t s → levels_ok lv s →
  returns_ranked t s lv (Some (b, mkPool (pages_ s) (next_page_id_ s) rest)).
Proof.
  intros HI Hlv. exists b, (mkPool (pages_ s) (next_page_id_ s) rest), lv.
  split; [done|]. split; [by apply sizes_inv_fails|]. split; [exact Hlv|].
  split; [apply same_ranks_refl|]. split; [simpl; lia|].
  replace (root_of t (mkPool (pages_ s) (next_page_id_ s) rest)) with (root_of t s) by done.
  lia.
Qed.

(** A call that returns from a pool reached by steps that keep the root. *)
Lemma returns_ranked_after t s lv s1 lv1 r :
  sizes_inv t s → same_ranks s lv lv1 → next_page_id_ s ≤ next_page_id_ s1 →
  root_of t s1 = root_of t s →
  returns_ranked t s1 lv1 r → returns_ranked t s lv r.
Proof.
  intros HI Hsame Hnext Hroot (b & s' & lv' & Hr & HI' & Hlv' & Hsame' & Hnext' & Hrank).
  exists b, s', lv'. split; [done|]. split; [done|]. split; [done|].
  split; [by apply (same_ranks_trans s s1 lv lv1 lv')|]. split; [lia|].
  rewrite Hroot in Hrank. rewrite (Hsame (root_of t s)) in Hrank; [done|].
  apply (sizes_inv_root_below t s HI).
Qed.

Lemma CreateNewRoot_returns t ctx s lv left_page_id split_key right_page_id :
  sizes_inv t s → levels_ok lv s → root_of t s = left_page_id →
  tree_page s left_page_id → tree_page s right_page_id →
  (lv right_page_id ≤ lv left_page_id)%nat →
  (∀ p, pages_ s !! left_page_id = Some (LeafPg p) →
        code_min_size (l_max_size_ p) ≤ l_size_ p) →
  (∀ p, pages_ s !! left_page_id = Some (InternalPg p) →
        code_min_size (i_max_size_ p) ≤ i_size_ p) →
  returns_ranked t s lv (CreateNewRoot t left_page_id split_key right_page_id ctx s).
Proof.
  intros HI Hlv Hleft Htl Htr Hrank Hlb Hib.
  destruct (sizes_inv_header t s HI) as (Hh & Hhp & _).
  rewrite (CreateNewRoot_cases t ctx s _ _ _ _ Hh Hhp).
  destruct (sizes_inv_tree_page t s _ HI Htl) as [Hl1 _].
  destruct (sizes_inv_tree_page t s _ HI Htr) as [Hr1 _].
  assert (Hnew : ∀ fails,
    returns_ranked t s lv
      (Some (true,
             mkPool (<[header_page_id_ t := HeaderPg (next_page_id_ s)]>
                       (<[next_page_id_ s :=
                            InternalPg
                              (Internal.SetKeyAt 1 split_key
                                 (Internal.SetValueAt 1 right_page_id
                                    (Internal.SetValueAt 0 left_page_id
                                       (Internal.SetSize 2
                                          (Internal.Init (internal_max_size_ t)
                                             zero_internal)))))]>
                          (pages_ s)))
                    (next_page_id_ s + 1) fails))).
  { intros fails. eexists true, _, (with_rank (next_page_id_ s) (S (lv left_page_id)) lv).
    split; [done|]. split; [by apply sizes_inv_new_root|].
    split; [apply (levels_new_root t lv s); try done; lia|].
    split; [apply same_ranks_with_rank|]. split; [simpl; lia|].
    assert (root_of t (mkPool (<[header_page_id_ t := HeaderPg (next_page_id_ s)]>
                       (<[next_page_id_ s :=
                            InternalPg
                              (Internal.SetKeyAt 1 split_key
                                 (Internal.SetValueAt 1 right_page_id
                                    (Internal.SetValueAt 0 left_page_id
                                       (Internal.SetSize 2
                                          (Internal.Init (internal_max_size_ t)
                                             zero_internal)))))]>
                          (pages_ s)))
                    (next_page_id_ s + 1) fails) = next_page_id_ s) as ->.
    { unfold root_of. simpl. by rewrite lookup_insert_eq. }
    rewrite with_rank_eq, Hleft. lia. }
  destruct (new_page_fails_ s) as [|[] rest].
  - apply Hnew.
  - by apply returns_ranked_fails.
  - apply Hnew.
Qed.

Lemma has_room_internal s id p :
  pages_ s !! id = Some (InternalPg p) → has_room s id → i_size_ p < i_max_size_ p.
Proof.
  intros Hp [(q & Hq & _)|(q & Hq & Hroom)]; [congruence|].
  rewrite Hp in Hq. by injection Hq as <-.
Qed.

Lemma has_room_leaf s id p :
  pages_ s !! id = Some (LeafPg p) → has_room s id → l_size_ p < l_max_size_ p.
Proof.
  intros Hp [(q & Hq & Hroom)|(q & Hq & _)]; [|congruence].
  rewrite Hp in Hq. by injection Hq as <-.
Qed.

Lemma has_room_other s s' h :
  pages_ s' !! h = pages_ s !! h → has_room s h → has_room s' h.
Proof.
  intros Heq [(q & Hq & Hroom)|(q & Hq & Hroom)]; [left|right]; exists q; by rewrite Heq.
Qed.

(** The write set above a page that was split, in the pool after the
    split: pages [id] and [new] are the only ones that changed. *)
Lemma path_ok_pop t lv lv1 s s1 ctx id front father :
  sizes_inv t s → extends s s1 → same_ranks s lv lv1 →
  root_of t s1 = root_of t s →
  (∀ h, h ≠ id → h < next_page_id_ s → pages_ s1 !! h = pages_ s !! h) →
  write_set_ ctx = (front ++ [father]) ++ [id] →
  Forall (is_internal s) (front ++ [father]) →
  falling lv ((front ++ [father]) ++ [id]) →
  (∀ h, head ((front ++ [father]) ++ [id]) = Some h → h = root_of t s ∨ has_room s h) →
  path_ok lv1 t s1 (pop_back ctx) father ∧ (lv id < lv father)%nat ∧
  is_internal s1 father ∧ length (write_set_ (pop_back ctx)) = length (front ++ [father]).
Proof.
  intros HI Hext Hsame Hroot Hpages Hws Hfront Hfall Hhead.
  assert (write_set_ (pop_back ctx) = front ++ [father]) as Hws'.
  { unfold pop_back. simpl. rewrite Hws. apply removelast_last. }
  apply falling_snoc in Hfall as [Hfall Hbelow].
  pose proof Hfront as Hfront0.
  apply Forall_app in Hfront as [Hfront' Hfather]. rewrite Forall_singleton in Hfather.
  pose proof Hbelow as Hbelow0.
  apply Forall_app in Hbelow as [_ Hbf]. rewrite Forall_singleton in Hbf.
  split; [|split; [done|split; [by apply (proj2 Hext)|by rewrite Hws']]].
  exists front. split; [done|]. split.
  { eapply Forall_impl; [exact Hfront'|]. intros x. apply (proj2 Hext). }
  split.
  { apply (falling_ext lv); [|done].
    eapply Forall_impl; [exact Hfront0|]. intros x Hx. simpl. apply Hsame.
    by apply (is_internal_below t s). }
  intros h Hh. rewrite Hroot.
  assert (head ((front ++ [father]) ++ [id]) = Some h) as Hh'.
  { destruct (front ++ [father]) eqn:E; [by destruct front|]. simpl in *. done. }
  destruct (Hhead h Hh') as [?|Hroom]; [by left|right].
  assert (h ∈ front ++ [father]) as Hin.
  { destruct (front ++ [father]) eqn:E; [done|]. simpl in Hh. injection Hh as ->.
    apply list_elem_of_here. }
  rewrite Forall_forall in Hbelow0, Hfront0.
  pose proof (Hbelow0 h Hin) as Hlt. pose proof (Hfront0 h Hin) as Hint.
  apply (has_room_other s s1); [|done]. apply Hpages.
  - intros ->. lia.
  - by apply (is_internal_below t s).
Qed.

Lemma InsertIntoInternal_returns t fuel : ∀ ctx s lv id key child,
  sizes_inv t s → levels_ok lv s → path_ok lv t s ctx id → is_internal s id →
  tree_page s child → (lv child < lv id)%nat → (length (write_set_ ctx) ≤ fuel)%nat →
  returns_ranked t s lv (InsertIntoInternal fuel t ctx id key child s).
Proof.
  induction fuel as [|fuel IH]; intros ctx s lv id key child HI Hlv Hctx Hid Hchild Hrank Hfuel.
  { destruct Hctx as (front & Hws & _). rewrite Hws, length_app in Hfuel. simpl in Hfuel. lia. }
  destruct Hid as (Hid0 & p & Hp).
  assert (0 ≤ id < next_page_id_ s) as Hlt by (apply (inv_fresh t s HI); by rewrite Hp).
  rewrite (InsertIntoInternal_cases fuel t ctx s id id p key child
             (ctx_ok_back s ctx id (path_ok_ctx_ok lv t s ctx id Hctx)) Hid0 Hp ltac:(lia)).
  cbv zeta.
  destruct (inv_internals t s HI id p Hp) as (Hp1 & Hp2 & Hp3 & Hp4 & Hp5).
  destruct (sizes_inv_header t s HI) as (Hh & Hhp & _).
  assert (id ≠ header_page_id_ t) as Hne_h by (intros Heq; rewrite <- Heq in Hhp; congruence).
  destruct (Internal.FindInsertPos key p =? -1) eqn:Epos.
  { by apply returns_ranked_same. }
  apply Z.eqb_neq in Epos.
  destruct (FindInsertPos_range p key ltac:(lia)) as [?|Hpos]; [done|].
  destruct (i_size_ p <? i_max_size_ p) eqn:Eroom.
  { apply Z.ltb_lt in Eroom. eexists true, _, lv. split; [done|].
    split; [by apply sizes_inv_internal_room|].
    split; [by apply (levels_internal_room t)|].
    split; [apply same_ranks_refl|]. split; [simpl; lia|].
    match goal with |- (lv (root_of t ?s1) ≤ _)%nat =>
      replace (root_of t s1) with (root_of t s); [lia|] end.
    symmetry. apply root_of_pages. simpl. by rewrite lookup_insert_ne. }
  apply Z.ltb_ge in Eroom.
  set (all_data := emplace _ _ _). set (split_idx := (_ + 1) / 2).
  assert (Hsplit : ∀ fails,
    let s2 := mkPool
       (<[id := InternalPg (Internal.Insert_Set_old split_idx all_data p)]>
          (<[next_page_id_ s :=
               InternalPg (Internal.Insert_Set_new split_idx all_data
                             (Internal.Init (internal_max_size_ t) zero_internal))]>
             (pages_ s)))
       (next_page_id_ s + 1) fails in
    returns_ranked t s lv
      ((do root <- GetRootPageId t;
        if id =? root then
          CreateNewRoot t id (first_at all_data split_idx) (next_page_id_ s) ctx
        else
          match back (pop_back ctx) with
          | None => stuck
          | Some father_id =>
              InsertIntoInternal fuel t (pop_back ctx) father_id
                (first_at all_data split_idx) (next_page_id_ s)
          end) s2)).
  { intros fails s2.
    destruct (sizes_inv_internal_split t s id p key child (Internal.FindInsertPos key p) fails
                HI Hp ltac:(lia) Hchild) as (HI2 & Hext & Hlow).
    fold all_data split_idx s2 in HI2, Hext, Hlow.
    pose proof (levels_internal_split t lv s id p key child (Internal.FindInsertPos key p)
                  fails HI Hlv Hp ltac:(lia) Hchild Hrank) as Hlv2.
    fold all_data split_idx s2 in Hlv2. cbv zeta in Hlv2.
    set (lv2 := with_rank (next_page_id_ s) (lv id) lv) in Hlv2.
    assert (Hid2 : pages_ s2 !! id = Some (InternalPg (Internal.Insert_Set_old split_idx all_data p)))
      by (simpl; by rewrite lookup_insert_eq).
    assert (Hnew2 : is_internal s2 (next_page_id_ s)).
    { split; [lia|]. eexists. simpl. rewrite lookup_insert_ne by lia. apply lookup_insert_eq. }
    assert (Hroot2 : root_of t s2 = root_of t s).
    { apply root_of_pages. simpl. rewrite !lookup_insert_ne; [done|lia|done]. }
    apply (returns_ranked_after t s lv s2 lv2); [done|apply same_ranks_with_rank|simpl; lia|done|].
    rewrite (bind_Some _ _ _ _ _ (GetRootPageId_inv t s2 HI2)).
    destruct (id =? root_of t s2) eqn:Eroot.
    - apply Z.eqb_eq in Eroot.
      apply (CreateNewRoot_returns t ctx s2 lv2); try done.
      + right. split; [done|]. by eexists.
      + by right.
      + unfold lv2. rewrite with_rank_eq, with_rank_ne by lia. lia.
      + intros q Hq. congruence.
      + intros q Hq. rewrite Hid2 in Hq. injection Hq as <-.
        destruct (inv_internals t s2 HI2 id _ Hid2) as (HL1 & _).
        rewrite HL1, <- Hp1. exact Hlow.
    - apply Z.eqb_neq in Eroot. rewrite Hroot2 in Eroot.
      destruct Hctx as (front & Hws & Hfront & Hfall & Hhead).
      destruct (decide (front = [])) as [->|Hne].
      { exfalso. destruct (Hhead id eq_refl) as [?|Hroom]; [done|].
        pose proof (has_room_internal s id p Hp Hroom). lia. }
      destruct (exists_last Hne) as (front' & father & ->).
      destruct (path_ok_pop t lv lv2 s s2 ctx id front' father HI Hext)
        as (Hpath & Hlt2 & Hint & Hlen); try done.
      { apply same_ranks_with_rank. }
      { intros h Hh1 Hh2. simpl. rewrite !lookup_insert_ne by lia. done. }
      rewrite (ctx_ok_back s2 _ father (path_ok_ctx_ok lv2 t s2 _ father Hpath)).
      apply IH; try done.
      + by right.
      + unfold lv2. rewrite with_rank_eq, with_rank_ne; [done|].
        destruct Hint as (_ & q & Hq). intros Heq.
        apply Forall_app in Hfront as [_ Hf]. rewrite Forall_singleton in Hf.
        pose proof (is_internal_below t s father HI Hf). lia.
      + rewrite Hws, length_app in Hfuel. simpl in Hfuel. rewrite Hlen. lia. }
  destruct (new_page_fails_ s) as [|[] rest] eqn:Hfails.
  - apply (Hsplit []).
  - by apply returns_ranked_fails.
  - apply (Hsplit rest).
Qed.

Lemma InsertIntoLeaf_returns t ctx s lv leaf key value :
  sizes_inv t s → levels_ok lv s → path_ok lv t s ctx leaf → is_leaf s leaf →
  returns_ranked t s lv (InsertIntoLeaf t ctx leaf key value s).
Proof.
  intros HI Hlv Hctx (Hleaf0 & p & Hp).
  assert (0 ≤ leaf < next_page_id_ s) as Hlt by (apply (inv_fresh t s HI); by rewrite Hp).
  rewrite (InsertIntoLeaf_cases t ctx s leaf leaf p key value
             (ctx_ok_back s ctx leaf (path_ok_ctx_ok lv t s ctx leaf Hctx)) Hleaf0 Hp
             ltac:(lia)).
  cbv zeta.
  destruct (inv_leaves t s HI leaf p Hp) as (Hp1 & Hp2 & Hp3).
  destruct (sizes_inv_header t s HI) as (Hh & Hhp & _).
  assert (leaf ≠ header_page_id_ t) as Hne_h by (intros Heq; rewrite <- Heq in Hhp; congruence).
  destruct (_ && _).
  { by apply returns_ranked_same. }
  destruct (l_size_ p <? l_max_size_ p) eqn:Eroom.
  { apply Z.ltb_lt in Eroom. eexists true, _, lv. split; [done|].
    split; [by apply sizes_inv_leaf_room|].
    split.
    { apply (levels_same_internals t lv s _ O HI Hlv). intros id q. simpl.
      destruct (decide (id = leaf)) as [->|Hid]; [by rewrite lookup_insert_eq|].
      by rewrite lookup_insert_ne. }
    split; [apply same_ranks_refl|]. split; [simpl; lia|].
    match goal with |- (lv (root_of t ?s1) ≤ _)%nat =>
      replace (root_of t s1) with (root_of t s); [lia|] end.
    symmetry. apply root_of_pages. simpl. by rewrite lookup_insert_ne. }
  apply Z.ltb_ge in Eroom.
  set (all_data := emplace _ _ _). set (split_idx := (_ + 1) / 2).
  assert (Hlen : Z.of_nat (length all_data) = l_size_ p + 1).
  { unfold all_data. rewrite length_emplace, length_leaf_all_data. lia. }
  assert (Hsplit : ∀ fails,
    let s1 := mkPool
       (<[leaf := LeafPg (Leaf.SetNextPageId (next_page_id_ s)
                            (Leaf.Insert_Set_old split_idx all_data p))]>
          (<[next_page_id_ s :=
               LeafPg (Leaf.SetNextPageId (l_next_page_id_ p)
                         (Leaf.Insert_Set_new split_idx all_data
                            (Leaf.Init (leaf_max_size_ t) zero_leaf)))]>
             (pages_ s)))
       (next_page_id_ s + 1) fails in
    returns_ranked t s lv
      ((do root <- GetRootPageId t;
        if leaf =? root then
          CreateNewRoot t leaf (first_at all_data split_idx) (next_page_id_ s) ctx
        else
          match back (pop_back ctx) with
          | None => stuck
          | Some inter_page =>
              InsertIntoInternal (length (write_set_ ctx)) t (pop_back ctx) inter_page
                (first_at all_data split_idx) (next_page_id_ s)
          end) s1)).
  { intros fails s1.
    destruct (sizes_inv_split_leaf t s leaf p all_data fails HI Hp ltac:(lia) Hlen)
      as (HI1 & Hext & Hlow).
    fold split_idx s1 in HI1, Hext, Hlow.
    assert (Hlv1 : levels_ok (with_rank (next_page_id_ s) (lv leaf) lv) s1).
    { apply (levels_same_internals t lv s s1 (lv leaf) HI Hlv). intros id q. simpl.
      destruct (decide (id = leaf)) as [->|Hid]; [by rewrite lookup_insert_eq|].
      rewrite lookup_insert_ne by done.
      destruct (decide (id = next_page_id_ s)) as [->|Hid2]; [by rewrite lookup_insert_eq|].
      by rewrite lookup_insert_ne. }
    set (lv1 := with_rank (next_page_id_ s) (lv leaf) lv) in Hlv1.
    assert (Hl1 : pages_ s1 !! leaf =
              Some (LeafPg (Leaf.SetNextPageId (next_page_id_ s)
                              (Leaf.Insert_Set_old split_idx all_data p))))
      by (simpl; by rewrite lookup_insert_eq).
    assert (Hnew1 : is_leaf s1 (next_page_id_ s)).
    { split; [lia|]. eexists. simpl. rewrite lookup_insert_ne by lia. apply lookup_insert_eq. }
    assert (Hroot1 : root_of t s1 = root_of t s).
    { apply root_of_pages. simpl. rewrite !lookup_insert_ne; [done|lia|done]. }
    apply (returns_ranked_after t s lv s1 lv1); [done|apply same_ranks_with_rank|simpl; lia|done|].
    rewrite (bind_Some _ _ _ _ _ (GetRootPageId_inv t s1 HI1)).
    destruct (leaf =? root_of t s1) eqn:Eroot.
    - apply Z.eqb_eq in Eroot.
      apply (CreateNewRoot_returns t ctx s1 lv1); try done.
      + left. split; [done|]. by eexists.
      + by left.
      + unfold lv1. rewrite with_rank_eq, with_rank_ne by lia. lia.
      + intros q Hq. rewrite Hl1 in Hq. injection Hq as <-.
        destruct (inv_leaves t s1 HI1 leaf _ Hl1) as (HL1 & _).
        rewrite HL1, <- Hp1. exact Hlow.
      + intros q Hq. congruence.
    - apply Z.eqb_neq in Eroot. rewrite Hroot1 in Eroot.
      destruct Hctx as (front & Hws & Hfront & Hfall & Hhead).
      destruct (decide (front = [])) as [->|Hne].
      { exfalso. destruct (Hhead leaf eq_refl) as [?|Hroom]; [done|].
        pose proof (has_room_leaf s leaf p Hp Hroom). lia. }
      destruct (exists_last Hne) as (front' & father & ->).
      destruct (path_ok_pop t lv lv1 s s1 ctx leaf front' father HI Hext)
        as (Hpath & Hlt2 & Hint & Hlen'); try done.
      { apply same_ranks_with_rank. }
      { intros h Hh1 Hh2. simpl. rewrite !lookup_insert_ne by lia. done. }
      rewrite (ctx_ok_back s1 _ father (path_ok_ctx_ok lv1 t s1 _ father Hpath)).
      apply InsertIntoInternal_returns; try done.
      + by left.
      + unfold lv1. rewrite with_rank_eq, with_rank_ne; [done|].
        apply Forall_app in Hfront as [_ Hf]. rewrite Forall_singleton in Hf.
        pose proof (is_internal_below t s father HI Hf). lia.
      + rewrite Hlen', Hws, !length_app. simpl. lia. }
  destruct (new_page_fails_ s) as [|[] rest] eqn:Hfails.
  - apply (Hsplit []).
  - by apply returns_ranked_fails.
  - apply (Hsplit rest).
Qed.

Lemma FindPage_child t s id p key :
  sizes_inv t s → pages_ s !! id = Some (InternalPg p) →
  ∃ c, 0 ≤ c < i_size_ p ∧ Internal.FindPage key p = Internal.ValueAt c p.
Proof.
  intros HI Hp. destruct (inv_internals t s HI id p Hp) as (_ & Hsz & _).
  apply FindPage_in_range. lia.
Qed.

Lemma Insert_write_from_returns t fuel : ∀ ctx s lv cur key value,
  sizes_inv t s → levels_ok lv s → path_ok lv t s ctx cur → tree_page s cur →
  (lv cur < fuel)%nat →
  returns_ranked t s lv (Insert_write_from fuel t ctx cur key value s).
Proof.
  induction fuel as [|fuel IH]; intros ctx s lv cur key value HI Hlv Hctx Hcur Hfuel; [lia|].
  simpl.
  destruct (tree_page_cases s cur Hcur) as [(p & Hid & Hp & Hleaf)|(p & Hid & Hp & Hleaf)];
    rewrite (bind_Some _ _ _ _ _ Hleaf).
  - apply InsertIntoLeaf_returns; try done. split; [done|by exists p].
  - rewrite (ctx_ok_back s ctx cur (path_ok_ctx_ok lv t s ctx cur Hctx)).
    rewrite (bind_Some _ _ _ _ _ (internal_read_internal _ s cur p Hid Hp)).
    rewrite (bind_Some _ _ _ _ _ (internal_read_internal _ s cur p Hid Hp)).
    rewrite (bind_Some _ _ _ _ _ (internal_read_internal _ s cur p Hid Hp)).
    destruct (FindPage_child t s cur p key HI Hp) as (c & Hc & Hchild).
    pose proof (Hlv cur p Hp c Hc) as Hrank. rewrite <- Hchild in Hrank.
    assert (is_internal s cur) as Hcur_int by (split; [done|by exists p]).
    apply IH; try done; [| by apply (FindPage_tree_page t s cur) | lia].
    destruct Hctx as (front & Hws & Hfront & Hfall & Hhead).
    destruct (Internal.GetSize p <? Internal.GetMaxSize p) eqn:Eroom.
    + exists [cur]. split.
      { unfold push_back, keep_last_write_latch. simpl. rewrite Hws, last_snoc. done. }
      split; [by apply Forall_singleton|]. split.
      { simpl. split; [by apply Forall_singleton|]. split; [constructor|done]. }
      intros h [= <-]. right. right. exists p. split; [done|]. by apply Z.ltb_lt.
    + exists (front ++ [cur]). split; [unfold push_back; simpl; by rewrite Hws|].
      split; [apply Forall_app; split; [done|by apply Forall_singleton]|].
      split.
      { apply falling_snoc. split; [done|]. apply falling_snoc in Hfall as [_ Hbelow].
        apply Forall_app. split; [|by apply Forall_singleton].
        eapply Forall_impl; [exact Hbelow|]. intros a Ha. simpl in *. lia. }
      intros h Hh. apply Hhead. destruct (front ++ [cur]) eqn:E; [by destruct front|].
      simpl in *. done.
Qed.

Lemma Insert_write_returns t fuel s lv again key value :
  sizes_inv t s → levels_ok lv s →
  (root_of t s ≠ INVALID_PAGE_ID → (lv (root_of t s) < fuel)%nat) →
  returns_ranked t s lv (Insert_write fuel t again key value s).
Proof.
  intros HI Hlv Hfuel. unfold Insert_write.
  destruct (sizes_inv_header t s HI) as (Hh & Hhp & Hroot).
  rewrite (bind_Some _ _ _ _ _ (GetRootPageId_inv t s HI)).
  cbv zeta. cbn [root_page_id_ ctx_with_root ctx_with_header].
  destruct (root_of t s =? INVALID_PAGE_ID) eqn:Eroot.
  - apply Z.eqb_eq in Eroot.
    pose proof (sizes_inv_next_unused t s HI) as Hunused.
    assert (Hnew : ∀ fails,
      returns_ranked t s lv
        (Some (true,
           mkPool (<[header_page_id_ t := HeaderPg (next_page_id_ s)]>
               (<[next_page_id_ s :=
                    LeafPg (Leaf.Insert key value (Leaf.Init (leaf_max_size_ t) zero_leaf))]>
                  (pages_ s)))
            (next_page_id_ s + 1) fails))).
    { intros fails. eexists true, _, (with_rank (next_page_id_ s) O lv). split; [done|].
      split; [by apply sizes_inv_first_root|]. split.
      { apply (levels_same_internals t lv s _ O HI Hlv). intros id q. simpl.
        destruct (decide (id = header_page_id_ t)) as [->|Hid]; [by rewrite lookup_insert_eq|].
        rewrite lookup_insert_ne by done.
        destruct (decide (id = next_page_id_ s)) as [->|Hid2]; [by rewrite lookup_insert_eq|].
        by rewrite lookup_insert_ne. }
      split; [apply same_ranks_with_rank|]. split; [simpl; lia|].
      match goal with |- (_ (root_of t ?s1) ≤ _)%nat =>
        replace (root_of t s1) with (next_page_id_ s) end.
      - rewrite with_rank_eq. lia.
      - unfold root_of. simpl. by rewrite lookup_insert_eq. }
    destruct (new_page_fails_ s) as [|[] rest] eqn:Hfails.
    2: { rewrite (bind_Some _ _ _ _ _ (NewPage_fails s rest Hfails)).
         change (returns_ranked t s lv
                   (Some (false, mkPool (pages_ s) (next_page_id_ s) rest))).
         by apply returns_ranked_fails. }
    all: rewrite (bind_Some _ _ _ _ _ (NewPage_ok s ltac:(by rewrite Hfails))).
    all: assert ((next_page_id_ s =? INVALID_PAGE_ID) = false) as Hnewid
           by (apply Z.eqb_neq; unfold INVALID_PAGE_ID; lia).
    all: rewrite Hnewid.
    all: erewrite bind_Some;
           [|apply leaf_write_raw; [lia|simpl; apply lookup_insert_eq]].
    all: erewrite bind_Some;
           [|apply leaf_write_leaf; [lia|simpl; apply lookup_insert_eq]].
    all: erewrite bind_Some;
           [|apply (set_root_header t _ (root_of t s));
             [lia|simpl; by rewrite !lookup_insert_ne by lia]].
    all: specialize (Hnew (tail (new_page_fails_ s))).
    all: match goal with
         | |- returns_ranked _ _ _ ?r1 =>
             match type of Hnew with
             | returns_ranked _ _ _ ?r2 => replace r1 with r2; [exact Hnew|]
             end
         end.
    all: unfold ret, with_pages; simpl; do 3 f_equal.
    all: apply map_eq; intros i.
    all: destruct (decide (i = header_page_id_ t)) as [->|Hi1];
           [by rewrite !lookup_insert_eq|].
    all: rewrite !(lookup_insert_ne _ (header_page_id_ t) i) by done.
    all: destruct (decide (i = next_page_id_ s)) as [->|Hi2];
           [by rewrite !lookup_insert_eq|].
    all: by rewrite !lookup_insert_ne by done.
  - destruct Hroot as [Hroot|Hroot]; [apply Z.eqb_neq in Eroot; done|].
    rewrite (bind_Some _ _ _ _ _ (GetRootPageId_inv t s HI)).
    rewrite Z.eqb_refl. simpl negb. cbv iota.
    unfold bind at 1. unfold ret at 1.
    apply Insert_write_from_returns; try done.
    + exists []. split; [done|]. split; [constructor|]. split.
      { simpl. split; [constructor|done]. }
      intros h [= <-]. by left.
    + apply Hfuel. by apply Z.eqb_neq.
Qed.

Lemma Insert_from_returns t again fuel : ∀ s lv cur key value,
  sizes_inv t s → levels_ok lv s → tree_page s cur →
  (lv (root_of t s) + lv cur < fuel)%nat →
  returns_ranked t s lv (Insert_from fuel t again cur key value s).
Proof.
  induction fuel as [|fuel IH]; intros s lv cur key value HI Hlv Hcur Hfuel; [lia|].
  simpl.
  destruct (tree_page_cases s cur Hcur) as [(p & Hid & Hp & Hleaf)|(p & Hid & Hp & Hleaf)];
    rewrite (bind_Some _ _ _ _ _ Hleaf).
  - rewrite (bind_Some _ _ _ _ _ (page_size_leaf s cur p Hid Hp)).
    rewrite (bind_Some _ _ _ _ _ (page_max_size_leaf s cur p Hid Hp)).
    destruct (l_max_size_ p <=? l_size_ p) eqn:Efull.
    + apply Insert_write_returns; try done. intros _. lia.
    + apply Z.leb_gt in Efull. apply InsertIntoLeaf_returns; try done.
      * exists []. split; [done|]. split; [constructor|]. split.
        { simpl. split; [constructor|done]. }
        intros h [= <-]. right. left. by exists p.
      * split; [done|by exists p].
  - rewrite (bind_Some _ _ _ _ _ (internal_read_internal _ s cur p Hid Hp)).
    destruct (FindPage_child t s cur p key HI Hp) as (c & Hc & Hchild).
    pose proof (Hlv cur p Hp c Hc) as Hrank. rewrite <- Hchild in Hrank.
    apply IH; try done; [by apply (FindPage_tree_page t s cur)|lia].
Qed.

Lemma Insert_returns t calls fuel s lv key value :
  sizes_inv t s → levels_ok lv s → (0 < calls)%nat →
  (root_of t s ≠ INVALID_PAGE_ID → (2 * lv (root_of t s) < fuel)%nat) →
  returns_ranked t s lv (Insert calls fuel t key value s).
Proof.
  intros HI Hlv Hcalls Hfuel. destruct calls as [|calls]; [lia|]. simpl.
  destruct (sizes_inv_header t s HI) as (Hh & Hhp & Hroot).
  rewrite (bind_Some _ _ _ _ _ (GetRootPageId_inv t s HI)).
  destruct (root_of t s =? INVALID_PAGE_ID) eqn:Eroot.
  - apply Insert_write_returns; try done. apply Z.eqb_eq in Eroot. done.
  - apply Z.eqb_neq in Eroot. destruct Hroot as [Hroot|Hroot]; [done|].
    apply Insert_from_returns; try done. specialize (Hfuel Eroot). lia.
Qed.

Lemma new_tree_levels_ok t s s' lv :
  no_tree_pages t s = true → new_tree t s = Some (tt, s') → levels_ok lv s'.
Proof.
  intros Hno Hnew. destruct (no_tree_pages_inv t s Hno) as (Hh & [root Hroot] & Hpages).
  unfold new_tree in Hnew. rewrite (set_root_header t s root) in Hnew by done.
  injection Hnew as <-. intros id p Hp. simpl in Hp.
  destruct (decide (id = header_page_id_ t)) as [->|Hne].
  - by rewrite lookup_insert_eq in Hp.
  - rewrite lookup_insert_ne in Hp by done.
    destruct (Hpages id _ Hp) as (_ & _ & Hno2). by destruct (Hno2 p).
Qed.

End BTreeSizes.
(** * The replacer: adaptation, size bounds, frame-id check *)

Module ArcClaims.
Import Arc ArcSpec StdListFacts ArcFacts.

(** C1 (as the code has it): [RecordAccess] for a valid frame and a page that
    has a record in [ghost_map_], in a reachable state.
    - The frame is not live and the record is tagged MRU_GHOST (MFU_GHOST),
      as [Evict] writes it: the page is first taken out of that ghost list
      and then the target moves: for MRU_GHOST it grows by
      [max(1, |MFU_GHOST| / max(|MRU_GHOST| - 1, 1))] and is capped at the
      capacity; for MFU_GHOST it shrinks by
      [max(1, |MRU_GHOST| / max(|MFU_GHOST| - 1, 1))] and is floored at 0.
      The lengths are those before the call, so the list that was hit is
      counted without the hit entry.  The frame goes to the front of MFU with
      the page, not evictable.
    - The frame is not live and the record is tagged MRU or MFU, as [Remove]
      leaves it: the access is handled as a miss and the target stays.
    - The frame is live: the page id is not looked at; the target, the ghost
      lists and [ghost_map_] stay as they are. *)
Theorem ghost_hit_adapts_target N s f p gst :
  0 ≤ N → N + len (MRU_GHOST_list s) + len (MFU_GHOST_list s) + 1 < SIZE_MOD →
  reachable N s →
  0 ≤ f ≤ N →
  ghost_map_ s !! p = Some gst →
  (alive_map_ s !! f = None → arc_status_ gst = MRU_GHOST →
     ∃ s' l1 l2,
       RecordAccess f p s = Ok s' ∧
       MRU_GHOST_list s = l1 ++ p :: l2 ∧ MRU_GHOST_list s' = l1 ++ l2 ∧
       ghost_map_ s' !! p = None ∧
       mru_target_size_ s' = Z.min (mru_target_size_ s + mru_ghost_hit_step s) N ∧
       MFU_list s' = f :: MFU_list s ∧
       alive_map_ s' !! f = Some (mkFrameStatus p f false MFU) ∧
       MRU_list s' = MRU_list s ∧ MFU_GHOST_list s' = MFU_GHOST_list s) ∧
  (alive_map_ s !! f = None → arc_status_ gst = MFU_GHOST →
     ∃ s' l1 l2,
       RecordAccess f p s = Ok s' ∧
       MFU_GHOST_list s = l1 ++ p :: l2 ∧ MFU_GHOST_list s' = l1 ++ l2 ∧
       ghost_map_ s' !! p = None ∧
       mru_target_size_ s' = Z.max 0 (mru_target_size_ s - mfu_ghost_hit_step s) ∧
       MFU_list s' = f :: MFU_list s ∧
       alive_map_ s' !! f = Some (mkFrameStatus p f false MFU) ∧
       MRU_list s' = MRU_list s ∧ MRU_GHOST_list s' = MRU_GHOST_list s) ∧
  (alive_map_ s !! f = None → arc_status_ gst = MRU ∨ arc_status_ gst = MFU →
     RecordAccess f p s = Ok (RecordAccess_miss f p s) ∧
     mru_target_size_ (RecordAccess_miss f p s) = mru_target_size_ s) ∧
  (∀ st, alive_map_ s !! f = Some st →
     ∃ s',
       RecordAccess f p s = Ok s' ∧
       mru_target_size_ s' = mru_target_size_ s ∧
       ghost_map_ s' = ghost_map_ s ∧
       MRU_GHOST_list s' = MRU_GHOST_list s ∧ MFU_GHOST_list s' = MFU_GHOST_list s).
Proof.
  intros HN Hsz Hreach Hf Hg.
  pose proof (reachable_Inv N s HN Hreach) as HI.
  pose proof (reachable_replacer_size N s Hreach) as Hc.
  assert (Hinv : invalid_frame f s = false).
  { unfold invalid_frame. rewrite Hc. apply orb_false_iff. lia. }
  pose proof (inv_target s HI) as Hp. rewrite Hc in Hp.
  unfold MRU_GHOST_list, MFU_GHOST_list, MRU_list, MFU_list in *.
  rewrite !len_values in Hsz.
  split; [|split; [|split]].
  - intros Hal Hst.
    destruct (inv_ghost_mru s HI p gst Hg Hst) as [it Hit].
    destruct (inv_mru_ghost s HI) as (Hnd & _ & Hsound).
    pose proof (Hsound p it Hit) as Hin.
    destruct (erase_values it p _ Hnd Hin) as (l1 & l2 & H1 & H2).
    pose proof (length_erase_Z it p _ Hnd Hin) as Hlen.
    unfold RecordAccess. rewrite Hinv, Hal, Hg, Hst.
    unfold RemoveFromGhostList. rewrite Hit. cbv zeta.
    eexists _, l1, l2. split; [reflexivity|]. simpl.
    split; [done|]. split; [done|]. split; [by rewrite lookup_delete_eq|].
    split; [|by rewrite lookup_insert_eq].
    rewrite Hlen, Hc. unfold mru_ghost_hit_step, MRU_GHOST_list, MFU_GHOST_list.
    rewrite !len_values.
    assert (1 ≤ StdList.size (mru_ghost_ s)).
    { unfold StdList.size. destruct (mru_ghost_ s); [by apply elem_of_nil in Hin|simpl; lia]. }
    apply grow_target; unfold StdList.size in *; lia.
  - intros Hal Hst.
    destruct (inv_ghost_mfu s HI p gst Hg Hst) as [it Hit].
    destruct (inv_mfu_ghost s HI) as (Hnd & _ & Hsound).
    pose proof (Hsound p it Hit) as Hin.
    destruct (erase_values it p _ Hnd Hin) as (l1 & l2 & H1 & H2).
    pose proof (length_erase_Z it p _ Hnd Hin) as Hlen.
    unfold RecordAccess. rewrite Hinv, Hal, Hg, Hst.
    unfold RemoveFromGhostList. rewrite Hit. cbv zeta.
    eexists _, l1, l2. split; [reflexivity|]. simpl.
    split; [done|]. split; [done|]. split; [by rewrite lookup_delete_eq|].
    split; [|by rewrite lookup_insert_eq].
    rewrite Hlen. unfold mfu_ghost_hit_step, MRU_GHOST_list, MFU_GHOST_list.
    rewrite !len_values.
    assert (1 ≤ StdList.size (mfu_ghost_ s)).
    { unfold StdList.size. destruct (mfu_ghost_ s); [by apply elem_of_nil in Hin|simpl; lia]. }
    apply (shrink_target _ _ _ N); unfold StdList.size in *; lia.
  - intros Hal Hst. split.
    + unfold RecordAccess. rewrite Hinv, Hal, Hg. by destruct Hst as [-> | ->].
    + unfold RecordAccess_miss. cbv zeta. simpl.
      destruct (_ =? _); [by destruct (StdList.back _)|].
      destruct (_ <=? _); [by destruct (StdList.back _)|done].
  - intros st Hal. unfold RecordAccess. rewrite Hinv, Hal. eexists. split; [reflexivity|].
    unfold RemoveFromAliveList. destruct (arc_status_ st); simpl.
    all: repeat match goal with
                | |- context [match ?x with _ => _ end] => destruct x
                end; simpl; done.
Qed.

(** The statement above at a state with two pages in MRU_GHOST and three in
    MFU_GHOST, for a frame that is not live and page 3, whose record [Evict]
    tagged MRU_GHOST. *)
Lemma ghost_hit_adapts_target_witness :
  let s := run_ops ghost_hit_ops (new 5) in
  ∃ s' l1 l2,
    RecordAccess 0 3 s = Ok s' ∧
    MRU_GHOST_list s = l1 ++ 3 :: l2 ∧ MRU_GHOST_list s' = l1 ++ l2 ∧
    ghost_map_ s' !! 3 = None ∧
    mru_target_size_ s' = Z.min (mru_target_size_ s + mru_ghost_hit_step s) 5 ∧
    MFU_list s' = 0 :: MFU_list s ∧
    alive_map_ s' !! 0 = Some (mkFrameStatus 3 0 false MFU) ∧
    MRU_list s' = MRU_list s ∧ MFU_GHOST_list s' = MFU_GHOST_list s.
Proof.
  intros s.
  apply (ghost_hit_adapts_target 5 s 0 3 (mkFrameStatus 3 3 false MRU_GHOST)).
  - lia.
  - vm_compute. reflexivity.
  - by exists ghost_hit_ops.
  - lia.
  - vm_compute. reflexivity.
  - vm_compute. reflexivity.
  - reflexivity.
Defined.

(** A page that [Remove] put in MRU_GHOST keeps the tag MRU in [ghost_map_]:
    an access to it by a frame that is not live is handled as a miss.  The
    target stays at 0, the frame enters MRU, and the page stays in
    MRU_GHOST. *)
Lemma removed_page_access_example :
  let s := run_ops removed_page_ops (new 5) in
  reachable 5 s ∧
  MRU_GHOST_list s = [0] ∧ alive_map_ s !! 1 = None ∧
  (arc_status_ <$> ghost_map_ s !! 0) = Some MRU ∧
  RecordAccess 1 0 s = Ok (RecordAccess_miss 1 0 s) ∧
  mru_target_size_ s = 0 ∧ mru_target_size_ (RecordAccess_miss 1 0 s) = 0 ∧
  MRU_list (RecordAccess_miss 1 0 s) = [1] ∧
  MRU_GHOST_list (RecordAccess_miss 1 0 s) = [0].
Proof.
  intros s. split; [by exists removed_page_ops|].
  repeat split; vm_compute; reflexivity.
Qed.

(** C1 (as the specification has it) fails: with MRU_GHOST = [4; 3] and
    MFU_GHOST = [2; 1; 0] at the moment of the hit and target 0, a hit on
    page 3 sets the target to 3, where [max(1, 3 / 2)], the ratio of the
    lengths at the moment of the hit, gives 1. *)
Lemma ghost_hit_counterexample :
  let s := run_ops ghost_hit_ops (new 5) in
  reachable 5 s ∧
  MRU_GHOST_list s = [4; 3] ∧ MFU_GHOST_list s = [2; 1; 0] ∧
  mru_target_size_ s = 0 ∧
  (∃ s', RecordAccess 0 3 s = Ok s' ∧ mru_target_size_ s' = 3) ∧
  spec_target_after_mru_ghost_hit s = 1.
Proof.
  intros s. split; [by exists ghost_hit_ops|].
  split; [vm_compute; reflexivity|]. split; [vm_compute; reflexivity|].
  split; [vm_compute; reflexivity|]. split; [|vm_compute; reflexivity].
  destruct (RecordAccess 0 3 s) as [s'| |] eqn:E.
  - exists s'. split; [done|].
    assert (H : match RecordAccess 0 3 s with Ok s' => mru_target_size_ s' | _ => -1 end = 3)
      by (vm_compute; reflexivity).
    by rewrite E in H.
  - exfalso. assert (H : match RecordAccess 0 3 s with Ok _ => true | _ => false end = true)
      by (vm_compute; reflexivity). by rewrite E in H.
  - exfalso. assert (H : match RecordAccess 0 3 s with Ok _ => true | _ => false end = true)
      by (vm_compute; reflexivity). by rewrite E in H.
Qed.

(** C5 (on frame ids of the pool): after any sequence of calls that name only
    frame ids in [0, N), [|MRU| + |MRU_GHOST| <= N] and the four lists hold at
    most [2 N] entries; and an access that misses all four lists puts the
    frame at the front of MRU after dropping the oldest MRU_GHOST entry when
    [|MRU| + |MRU_GHOST| = N], else the oldest MFU_GHOST entry when the four
    lists hold [2 N] entries, else nothing. *)
Theorem size_bounds_on_pool_frames N s :
  0 ≤ N → 2 * N < SIZE_MOD →
  reachable_on_pool_frames N s →
  size_bounds N s ∧
  ∀ f p, 0 ≤ f < N →
    f ∉ MRU_list s → f ∉ MFU_list s → p ∉ MRU_GHOST_list s → p ∉ MFU_GHOST_list s →
    ∃ s', RecordAccess f p s = Ok s' ∧
      MRU_list s' = f :: MRU_list s ∧
      MFU_list s' = MFU_list s ∧
      MRU_GHOST_list s' =
        (if decide (len (MRU_list s) + len (MRU_GHOST_list s) = N)
         then removelast (MRU_GHOST_list s) else MRU_GHOST_list s) ∧
      MFU_GHOST_list s' =
        (if decide (len (MRU_list s) + len (MRU_GHOST_list s) ≠ N ∧
                    2 * N ≤ len (MRU_list s) + len (MRU_GHOST_list s) +
                            len (MFU_list s) + len (MFU_GHOST_list s))
         then removelast (MFU_GHOST_list s) else MFU_GHOST_list s).
Proof.
  intros HN HN2 Hreach.
  destruct (reachable_pool_inv N s HN HN2 Hreach) as (HI & Hc & Hbelow & Hb).
  split; [done|]. intros f p Hf Hm1 Hm2 Hg1 Hg2.
  pose proof (not_live_not_alive s f HI Hm1 Hm2) as Hal.
  assert (Hv : invalid_frame f s = false).
  { unfold invalid_frame. apply orb_false_iff. lia. }
  exists (RecordAccess_miss f p s). split; [by apply not_ghost_miss|].
  destruct (RecordAccess_miss_lists f p s) as (E1 & E2 & E3 & E4 & _).
  rewrite E1, E2, E3, E4. clear E1 E2 E3 E4. split; [done|]. split; [done|].
  apply size_bounds_sizes in Hb.
  pose proof (size_nonneg (mru_ s)). pose proof (size_nonneg (mfu_ s)).
  pose proof (size_nonneg (mru_ghost_ s)). pose proof (size_nonneg (mfu_ghost_ s)).
  rewrite Hc. unfold size_mul. rewrite (Z.mod_small (2 * N)) by lia.
  rewrite (size_add_small (StdList.size (mru_ s)) (StdList.size (mru_ghost_ s))) by lia.
  rewrite (size_add_small _ (StdList.size (mfu_ s))) by lia.
  rewrite (size_add_small _ (StdList.size (mfu_ghost_ s))) by lia.
  unfold MRU_list, MFU_list, MRU_GHOST_list, MFU_GHOST_list. rewrite !len_values.
  destruct (_ =? N) eqn:E.
  - apply Z.eqb_eq in E. rewrite decide_True by done. rewrite decide_False by lia. done.
  - apply Z.eqb_neq in E. rewrite decide_False by done. split; [done|].
    destruct (_ <=? _) eqn:E'.
    + apply Z.leb_le in E'. by rewrite decide_True.
    + apply Z.leb_gt in E'. rewrite decide_False by lia. done.
Qed.

(** The statement above after one access in a replacer of capacity 2. *)
Lemma size_bounds_on_pool_frames_witness :
  let s := run_ops [OpRecordAccess 0 0] (new 2) in
  size_bounds 2 s ∧
  ∀ f p, 0 ≤ f < 2 →
    f ∉ MRU_list s → f ∉ MFU_list s → p ∉ MRU_GHOST_list s → p ∉ MFU_GHOST_list s →
    ∃ s', RecordAccess f p s = Ok s' ∧
      MRU_list s' = f :: MRU_list s ∧
      MFU_list s' = MFU_list s ∧
      MRU_GHOST_list s' =
        (if decide (len (MRU_list s) + len (MRU_GHOST_list s) = 2)
         then removelast (MRU_GHOST_list s) else MRU_GHOST_list s) ∧
      MFU_GHOST_list s' =
        (if decide (len (MRU_list s) + len (MRU_GHOST_list s) ≠ 2 ∧
                    2 * 2 ≤ len (MRU_list s) + len (MRU_GHOST_list s) +
                            len (MFU_list s) + len (MFU_GHOST_list s))
         then removelast (MFU_GHOST_list s) else MFU_GHOST_list s).
Proof.
  intros s. apply (size_bounds_on_pool_frames 2 s).
  - lia.
  - reflexivity.
  - exists [OpRecordAccess 0 0]. split; [|reflexivity].
    constructor; [|constructor]. intros f H. simpl in H. inversion H. lia.
Defined.

(** C5 (for any sequence of calls) fails: the replacer of capacity 1 accepts
    frame id 1, and after accesses to frames 0 and 1 MRU holds two frames. *)
Lemma size_bounds_counterexample :
  let s := run_ops overfull_ops (new 1) in
  reachable 1 s ∧ MRU_list s = [1; 0] ∧ MRU_GHOST_list s = [] ∧ ¬ size_bounds 1 s.
Proof.
  intros s. split; [by exists overfull_ops|].
  split; [vm_compute; reflexivity|]. split; [vm_compute; reflexivity|].
  intros [H _]. revert H.
  assert (E : len (MRU_list s) + len (MRU_GHOST_list s) = 2) by (vm_compute; reflexivity).
  rewrite E. lia.
Qed.

(** C6 (as the code has it): [RecordAccess], [SetEvictable] and [Remove]
    raise the invalid-frame error exactly when the frame id is negative or
    greater than the capacity, and the replacer is then unchanged. *)
Theorem frame_id_check s f p b :
  (RecordAccess f p s = InvalidArgument ↔ f < 0 ∨ replacer_size_ s < f) ∧
  (SetEvictable f b s = InvalidArgument ↔ f < 0 ∨ replacer_size_ s < f) ∧
  (Remove f s = InvalidArgument ↔ f < 0 ∨ replacer_size_ s < f) ∧
  (f < 0 ∨ replacer_size_ s < f →
     run_op (OpRecordAccess f p) s = s ∧ run_op (OpSetEvictable f b) s = s ∧
     run_op (OpRemove f) s = s).
Proof.
  assert (Hiff : invalid_frame f s = true ↔ f < 0 ∨ replacer_size_ s < f).
  { unfold invalid_frame. rewrite orb_true_iff, !Z.ltb_lt. tauto. }
  repeat split.
  - unfold RecordAccess. destruct (invalid_frame f s); [tauto|].
    destruct (alive_map_ s !! f); [done|]. destruct (ghost_map_ s !! p) as [g|]; [|done].
    by destruct (arc_status_ g).
  - intros H. apply Hiff in H. unfold RecordAccess. by rewrite H.
  - unfold SetEvictable. destruct (invalid_frame f s); [tauto|].
    destruct (alive_map_ s !! f); [|done]. by case_bool_decide.
  - intros H. apply Hiff in H. unfold SetEvictable. by rewrite H.
  - unfold Remove. destruct (invalid_frame f s); [tauto|].
    destruct (alive_map_ s !! f) as [st|]; [|done]. by destruct (evictable_ st).
  - intros H. apply Hiff in H. unfold Remove. by rewrite H.
  - simpl. apply Hiff in H. unfold RecordAccess. by rewrite H.
  - simpl. apply Hiff in H. unfold SetEvictable. by rewrite H.
  - simpl. apply Hiff in H. unfold Remove. by rewrite H.
Qed.

(** C6 (as the specification has it) fails: a replacer of capacity 7 accepts
    frame id 7. *)
Lemma frame_id_check_counterexample :
  replacer_size_ (new 7) = 7 ∧
  ∃ s', RecordAccess 7 4 (new 7) = Ok s' ∧ MRU_list s' = [7].
Proof. split; [reflexivity|]. eexists. split; reflexivity. Qed.

End ArcClaims.
(** * The buffer pool: residency, flush, drop, negative page ids *)

Module BpmClaims.
Import Bpm BpmSpec BpmFacts.

(** C2 does not hold of the code: [DeletePage] never changes the replacer,
    so the frame it returns to the free list stays in the replacer's live
    lists, and [NewPage] occupies a frame without telling the replacer.  In a
    pool of one frame, after creating page 0, pinning it, dropping the guard
    and deleting the page, no frame is resident and the replacer still tracks
    frame 0; after [NewPage] alone frame 0 is resident and the replacer
    tracks nothing. *)
Theorem delete_page_keeps_replacer_entry :
  (∀ page_id b, replacer_ (DeletePage page_id b).2 = replacer_ b) ∧
  (let r := new_drop_delete (new 1 empty_disk) in
   r.1 = Returns true ∧ free_frames_ r.2 = [0] ∧ page_table_ r.2 = ∅ ∧
   resident_frames r.2 = ∅ ∧ live_frames r.2 = {[0]}) ∧
  (let r := NewPage (new 1 empty_disk) in
   r.1 = Returns 0 ∧ resident_frames r.2 = {[0]} ∧ live_frames r.2 = ∅).
Proof.
  split; [intros page_id b; apply keeps_DeletePage|].
  split; vm_compute; repeat split; reflexivity.
Qed.

(** C8 does not hold of the code.  On a clean frame both flushes return
    without a write and leave the pool as it is.  On a dirty frame
    [ReadPageGuard::Flush] queues the write and clears the dirty flag at once,
    the promise still pending; [WritePageGuard::Flush] queues the write and
    leaves the frame as it is, and the flag is still set when the workers
    have served every request. *)
Theorem guard_flush page_id fr f b :
  frame_at fr b = Some f →
  (is_dirty_ f = false →
     ReadPageGuard_Flush (mkReadGuard page_id fr true) b = (Returns tt, b) ∧
     WritePageGuard_Flush (mkWriteGuard page_id fr true) b = (Returns tt, b)) ∧
  (is_dirty_ f = true →
     (∃ b', ReadPageGuard_Flush (mkReadGuard page_id fr true) b = (Returns tt, b') ∧
            frame_at fr b' = Some (frame_with_dirty false f) ∧
            disk_scheduler_ b' = disk_scheduler_ (with_write_scheduled fr page_id b) ∧
            promises_ (disk_scheduler_ b') !! next_promise_ (disk_scheduler_ b) = Some Pending) ∧
     WritePageGuard_Flush (mkWriteGuard page_id fr true) b =
       (Returns tt, with_write_scheduled fr page_id b) ∧
     frame_at fr (with_write_scheduled fr page_id b) = Some f ∧
     is_dirty_ <$> frame_at fr (run_workers (with_write_scheduled fr page_id b)) = Some true).
Proof.
  intros Hf. split; intros Hd.
  - split.
    + unfold ReadPageGuard_Flush, ensure. cbn [r_is_valid_ r_frame_ r_page_id_].
      unfold bind at 1. unfold ret at 1. unfold bind at 1.
      rewrite (read_frame_Some _ _ _ _ Hf). by rewrite Hd.
    + unfold WritePageGuard_Flush, ensure. cbn [w_is_valid_ w_frame_ w_page_id_].
      unfold bind at 1. unfold ret at 1. unfold bind at 1.
      rewrite (read_frame_Some _ _ _ _ Hf). by rewrite Hd.
  - split; [|split; [|split]].
    + unfold ReadPageGuard_Flush, ensure. cbn [r_is_valid_ r_frame_ r_page_id_].
      unfold bind at 1. unfold ret at 1. unfold bind at 1.
      rewrite (read_frame_Some _ _ _ _ Hf). rewrite Hd.
      eexists. split; [reflexivity|]. split; [|split].
      * simpl. exact (frame_at_alter _ _ _ _ Hf).
      * reflexivity.
      * simpl. by rewrite lookup_insert_eq.
    + unfold WritePageGuard_Flush, ensure. cbn [w_is_valid_ w_frame_ w_page_id_].
      unfold bind at 1. unfold ret at 1. unfold bind at 1.
      rewrite (read_frame_Some _ _ _ _ Hf). rewrite Hd. reflexivity.
    + exact Hf.
    + rewrite dirty_run_workers. change (is_dirty_ <$> frame_at fr b = Some true).
      by rewrite Hf, <- Hd.
Qed.

(** The statement above at a page that was written through its write guard. *)
Lemma guard_flush_witness :
  let b := (dirty_page [1; 2; 3] (new 1 empty_disk)).2 in
  let f := written_frame [1; 2; 3] in
  (is_dirty_ f = false →
     ReadPageGuard_Flush (mkReadGuard 0 0 true) b = (Returns tt, b) ∧
     WritePageGuard_Flush (mkWriteGuard 0 0 true) b = (Returns tt, b)) ∧
  (is_dirty_ f = true →
     (∃ b', ReadPageGuard_Flush (mkReadGuard 0 0 true) b = (Returns tt, b') ∧
            frame_at 0 b' = Some (frame_with_dirty false f) ∧
            disk_scheduler_ b' = disk_scheduler_ (with_write_scheduled 0 0 b) ∧
            promises_ (disk_scheduler_ b') !! next_promise_ (disk_scheduler_ b) = Some Pending) ∧
     WritePageGuard_Flush (mkWriteGuard 0 0 true) b =
       (Returns tt, with_write_scheduled 0 0 b) ∧
     frame_at 0 (with_write_scheduled 0 0 b) = Some f ∧
     is_dirty_ <$> frame_at 0 (run_workers (with_write_scheduled 0 0 b)) = Some true).
Proof.
  intros b f. apply (guard_flush 0 0 f b). vm_compute. reflexivity.
Defined.

(** A write guard flushed with a working disk: the page reaches the disk and
    the guard still reports the frame dirty. *)
Lemma write_flush_keeps_dirty :
  let r := write_flush [1; 2; 3] (new 1 empty_disk) in
  r.1 = Returns true ∧ disk_page 0 r.2 = Some [1; 2; 3] ∧ queued r.2 = [].
Proof. vm_compute. repeat split; reflexivity. Qed.

(** A read guard flushed while the disk manager fails for the page: the disk
    keeps the old content, the frame keeps the new one, and the guard reports
    the frame clean. *)
Lemma read_flush_clears_dirty :
  let r := read_flush [1; 2; 3] (new 1 empty_disk) in
  r.1 = Returns false ∧ disk_page 0 r.2 = Some zero_page ∧ queued r.2 = [] ∧
  data_ <$> frame_at 0 r.2 = Some [1; 2; 3].
Proof. vm_compute. repeat split; reflexivity. Qed.



(** C10: for a negative page id [CheckedReadPage] and [CheckedWritePage]
    return no guard and leave the whole pool state, with page table, free
    list, replacer and scheduler queues, as it was. *)
Theorem negative_page_id_is_absent page_id b :
  page_id < 0 →
  CheckedReadPage page_id b = (Returns None, b) ∧
  CheckedWritePage page_id b = (Returns None, b).
Proof.
  intros H. apply Z.ltb_lt in H. unfold CheckedReadPage, CheckedWritePage. by rewrite H.
Qed.

(** The statement above at page id -1 on a fresh pool. *)
Lemma negative_page_id_is_absent_witness :
  CheckedReadPage (-1) (new 2 empty_disk) = (Returns None, new 2 empty_disk) ∧
  CheckedWritePage (-1) (new 2 empty_disk) = (Returns None, new 2 empty_disk).
Proof. apply (negative_page_id_is_absent (-1) (new 2 empty_disk)). lia. Defined.

End BpmClaims.
(** * The B+-tree: least sizes, search, leaf split *)

Module BTreeClaims.
Import BPage BTree BTreeSpec BTreeFacts BTreeSizes.




(** Removal does not keep the bounds when the child capacity is 2: an
    internal page may then hold a single child, and a leaf without sibling
    that underflows is left as it is.  After 1 .. 5 went into a tree of
    capacities 2 and 2, [Remove(5)] leaves page 4, a leaf below the root,
    empty. *)
Lemma remove_without_sibling_example :
  insert_all narrow_tree [1; 2; 3; 4; 5] fresh_pool = Some narrow_pool ∧
  Remove 8 narrow_tree 5 narrow_pool = Some (tt, narrow_pool_removed) ∧
  root_of narrow_tree narrow_pool_removed = 6 ∧
  (∃ p, pages_ narrow_pool_removed !! 6 = Some (InternalPg p) ∧
        Internal.children p = [3; 5]) ∧
  (∃ p, pages_ narrow_pool_removed !! 5 = Some (InternalPg p) ∧
        Internal.children p = [4]) ∧
  (∃ p, pages_ narrow_pool_removed !! 4 = Some (LeafPg p) ∧
        l_max_size_ p = 2 ∧ l_size_ p = 0 ∧ IsLeafUnderflow p = true).
Proof.
  split; [vm_compute; reflexivity|]. split; [vm_compute; reflexivity|].
  split; [vm_compute; reflexivity|].
  split; [eexists; split; [vm_compute; reflexivity|vm_compute; reflexivity]|].
  split; [eexists; split; [vm_compute; reflexivity|vm_compute; reflexivity]|].
  eexists. split; [vm_compute; reflexivity|]. repeat split; vm_compute; reflexivity.
Qed.





End BTreeClaims.
(** ** The replacer: what its calls do to the lists *)

Module ArcBehaviour.
Import Arc ArcSpec StdListFacts ArcFacts ArcProps.

Lemma cnt_insert_same (m : gmap Z FrameStatus) f st st' :
  m !! f = Some st → evictable_ st' = evictable_ st →
  size (filter (λ e : Z * FrameStatus, evictable_ e.2 = true) (<[f := st']> m)) =
  size (filter (λ e : Z * FrameStatus, evictable_ e.2 = true) m).
Proof.
  intros Hm He. rewrite map_filter_insert. simpl.
  destruct (decide (evictable_ st' = true)) as [Ht|Ht].
  - rewrite map_size_insert_Some; [done|].
    exists st. apply map_lookup_filter_Some. split; [done|]. simpl. congruence.
  - rewrite map_filter_delete. rewrite map_size_delete.
    destruct (filter _ m !! f) as [x|] eqn:E; [|done].
    apply map_lookup_filter_Some in E as [E1 E2]. simpl in E2. congruence.
Qed.

Lemma cnt_insert_fresh (m : gmap Z FrameStatus) f st' :
  m !! f = None → evictable_ st' = false →
  size (filter (λ e : Z * FrameStatus, evictable_ e.2 = true) (<[f := st']> m)) =
  size (filter (λ e : Z * FrameStatus, evictable_ e.2 = true) m).
Proof.
  intros Hm He. rewrite map_filter_insert. simpl.
  destruct (decide (evictable_ st' = true)) as [Ht|Ht]; [congruence|].
  by rewrite delete_id.
Qed.

Lemma cnt_flip_true (m : gmap Z FrameStatus) f st st' :
  m !! f = Some st → evictable_ st = false → evictable_ st' = true →
  size (filter (λ e : Z * FrameStatus, evictable_ e.2 = true) (<[f := st']> m)) =
  S (size (filter (λ e : Z * FrameStatus, evictable_ e.2 = true) m)).
Proof.
  intros Hm He He'. rewrite map_filter_insert. simpl.
  destruct (decide (evictable_ st' = true)) as [Ht|Ht]; [|congruence].
  rewrite map_size_insert_None; [done|].
  apply map_lookup_filter_None. right. intros x Hx. simpl. congruence.
Qed.

Lemma cnt_delete (m : gmap Z FrameStatus) f st :
  m !! f = Some st → evictable_ st = true →
  S (size (filter (λ e : Z * FrameStatus, evictable_ e.2 = true) (delete f m))) =
  size (filter (λ e : Z * FrameStatus, evictable_ e.2 = true) m).
Proof.
  intros Hm He. rewrite map_filter_delete.
  assert (H : filter (λ e : Z * FrameStatus, evictable_ e.2 = true) m !! f = Some st).
  { apply map_lookup_filter_Some. by split. }
  rewrite map_size_delete, H. simpl.
  destruct (size (filter _ m)) eqn:E; [|done].
  apply map_size_empty_iff in E. rewrite E in H. by rewrite lookup_empty in H.
Qed.

Lemma cnt_flip_false (m : gmap Z FrameStatus) f st st' :
  m !! f = Some st → evictable_ st = true → evictable_ st' = false →
  S (size (filter (λ e : Z * FrameStatus, evictable_ e.2 = true) (<[f := st']> m))) =
  size (filter (λ e : Z * FrameStatus, evictable_ e.2 = true) m).
Proof.
  intros Hm He He'. rewrite map_filter_insert. simpl.
  destruct (decide (evictable_ st' = true)) as [Ht|Ht]; [congruence|].
  by apply cnt_delete with st.
Qed.

Lemma size_keys_below (m : gmap Z FrameStatus) N :
  0 ≤ N → (∀ f, is_Some (m !! f) → 0 ≤ f ≤ N) → Z.of_nat (size m) ≤ N + 1.
Proof.
  intros HN Hk. rewrite <- length_map_to_list.
  rewrite <- (length_fmap fst).
  apply (pigeonhole _ (N + 1)); [lia|apply NoDup_fst_map_to_list|].
  intros x Hx. apply list_elem_of_fmap in Hx as [[k v] [-> Hx]].
  apply elem_of_map_to_list in Hx. simpl.
  specialize (Hk k (ex_intro _ v Hx)). lia.
Qed.

Lemma alive_map_detach side f st ghost s :
  alive_map_ (detach side f st ghost s) = delete f (alive_map_ s).
Proof.
  unfold detach. destruct side; simpl; try done.
  - by destruct (mru_iter_map_ s !! f).
  - by destruct (mfu_iter_map_ s !! f).
Qed.

Lemma curr_size_RemoveFromAliveList f side s :
  curr_size_ (RemoveFromAliveList f side s) = curr_size_ s.
Proof.
  unfold RemoveFromAliveList. destruct side; try done.
  - by destruct (mru_iter_map_ s !! f).
  - by destruct (mfu_iter_map_ s !! f).
Qed.

Lemma curr_size_detach side f st ghost s :
  curr_size_ (detach side f st ghost s) = size_sub (curr_size_ s) 1.
Proof.
  unfold detach. destruct side; simpl; try done.
  - by destruct (mru_iter_map_ s !! f).
  - by destruct (mfu_iter_map_ s !! f).
Qed.

Lemma curr_size_RemoveFromGhostList p side s :
  curr_size_ (RemoveFromGhostList p side s) = curr_size_ s.
Proof.
  unfold RemoveFromGhostList. destruct side; try done; simpl.
  - by destruct (mru_ghost_iter_map_ s !! p).
  - by destruct (mfu_ghost_iter_map_ s !! p).
Qed.

Lemma curr_size_RecordAccess_miss f p s :
  curr_size_ (RecordAccess_miss f p s) = curr_size_ s.
Proof.
  unfold RecordAccess_miss. simpl.
  destruct (_ =? _); [by destruct (StdList.back (mru_ghost_ s))|].
  destruct (_ <=? _); [by destruct (StdList.back (mfu_ghost_ s))|done].
Qed.

Lemma RecordAccess_alive f p s s' :
  RecordAccess f p s = Ok s' →
  curr_size_ s' = curr_size_ s ∧
  ((∃ st, alive_map_ s !! f = Some st ∧
          alive_map_ s' = <[f := set_arc_status MFU st]> (alive_map_ s)) ∨
   (alive_map_ s !! f = None ∧
    ∃ side, alive_map_ s' = <[f := mkFrameStatus p f false side]> (alive_map_ s))).
Proof.
  unfold RecordAccess. destruct (invalid_frame f s); [done|].
  destruct (alive_map_ s !! f) as [st|] eqn:Hal.
  - intros [= <-]. simpl. rewrite curr_size_RemoveFromAliveList.
    split; [done|]. left. exists st. split; [done|].
    by rewrite alive_map_RemoveFromAliveList.
  - assert (Hmiss : ∀ s', Ok (RecordAccess_miss f p s) = Ok s' →
      curr_size_ s' = curr_size_ s ∧
      ((∃ st, None = Some st ∧
          alive_map_ s' = <[f := set_arc_status MFU st]> (alive_map_ s)) ∨
       (@None FrameStatus = None ∧
        ∃ side, alive_map_ s' = <[f := mkFrameStatus p f false side]> (alive_map_ s)))).
    { intros s1 [= <-]. rewrite curr_size_RecordAccess_miss. split; [done|].
      right. split; [done|]. exists MRU.
      by destruct (RecordAccess_miss_lists f p s) as (_ & _ & _ & _ & ->). }
    destruct (ghost_map_ s !! p) as [gst|]; [|apply Hmiss].
    destruct (arc_status_ gst); try apply Hmiss.
    + destruct (RemoveFromGhostList_alive p MRU_GHOST s) as (Ha & _).
      pose proof (curr_size_RemoveFromGhostList p MRU_GHOST s) as Hc.
      revert Ha Hc. generalize (RemoveFromGhostList p MRU_GHOST s) as s1.
      intros s1 Ha Hc [= <-]. simpl. rewrite Ha, Hc. split; [done|].
      right. split; [done|]. by exists MFU.
    + destruct (RemoveFromGhostList_alive p MFU_GHOST s) as (Ha & _).
      pose proof (curr_size_RemoveFromGhostList p MFU_GHOST s) as Hc.
      revert Ha Hc. generalize (RemoveFromGhostList p MFU_GHOST s) as s1.
      intros s1 Ha Hc [= <-]. simpl. rewrite Ha, Hc. split; [done|].
      right. split; [done|]. by exists MFU.
Qed.

Lemma evictable_count_bound s :
  Inv s → 0 ≤ replacer_size_ s →
  0 ≤ evictable_count s ≤ Z.of_nat (size (alive_map_ s)) ∧
  Z.of_nat (size (alive_map_ s)) ≤ replacer_size_ s + 1.
Proof.
  intros HI HN. unfold evictable_count, evictable_frames. split.
  - split; [lia|]. apply Nat2Z.inj_le, map_size_filter.
  - apply size_keys_below; [done|]. intros f [st Hst].
    by destruct (inv_alive s HI f st Hst).
Qed.

Lemma count_RecordAccess f p s s' :
  RecordAccess f p s = Ok s' →
  curr_size_ s = evictable_count s → curr_size_ s' = evictable_count s'.
Proof.
  intros Hra Hc. destruct (RecordAccess_alive f p s s' Hra) as [Hcs Hal].
  rewrite Hcs, Hc. unfold evictable_count, evictable_frames. f_equal.
  destruct Hal as [(st & Hst & ->) | (Hnone & side & ->)].
  - symmetry. by apply cnt_insert_same with st.
  - symmetry. by apply cnt_insert_fresh.
Qed.

Lemma count_detach side f st ghost s :
  Inv s → 0 ≤ replacer_size_ s → replacer_size_ s + 1 < SIZE_MOD →
  alive_map_ s !! f = Some st → evictable_ st = true →
  curr_size_ s = evictable_count s →
  curr_size_ (detach side f st ghost s) = evictable_count (detach side f st ghost s) ∧
  evictable_count (detach side f st ghost s) = evictable_count s - 1.
Proof.
  intros HI HN Hmod Hst Hev Hc.
  destruct (evictable_count_bound s HI HN) as [Hb1 Hb2].
  assert (E : evictable_count (detach side f st ghost s) = evictable_count s - 1).
  { unfold evictable_count, evictable_frames. rewrite alive_map_detach.
    pose proof (cnt_delete (alive_map_ s) f st Hst Hev). lia. }
  split; [|done]. rewrite curr_size_detach, Hc, E.
  assert (1 ≤ evictable_count s).
  { unfold evictable_count, evictable_frames.
    pose proof (cnt_delete (alive_map_ s) f st Hst Hev). lia. }
  apply size_sub_small; lia.
Qed.

Lemma count_SetEvictable f b s s' :
  Inv s → 0 ≤ replacer_size_ s → replacer_size_ s + 1 < SIZE_MOD →
  SetEvictable f b s = Ok s' →
  curr_size_ s = evictable_count s → curr_size_ s' = evictable_count s'.
Proof.
  intros HI HN Hmod Hse Hc. unfold SetEvictable in Hse.
  destruct (invalid_frame f s); [done|].
  destruct (alive_map_ s !! f) as [st|] eqn:Hst; [|by injection Hse as <-].
  destruct (bool_decide (evictable_ st = b)) eqn:Hb; [by injection Hse as <-|].
  apply bool_decide_eq_false in Hb. injection Hse as <-.
  destruct (evictable_count_bound s HI HN) as [Hb1 Hb2].
  unfold evictable_count, evictable_frames in *. simpl. rewrite Hc.
  destruct b.
  - assert (He : evictable_ st = false) by (by destruct (evictable_ st)).
    pose proof (cnt_flip_true (alive_map_ s) f st (set_evictable true st) Hst He eq_refl) as E.
    rewrite E.
    assert (Hlt : (size (filter (λ e : Z * FrameStatus, evictable_ e.2 = true) (alive_map_ s))
                   < size (alive_map_ s))%nat).
    { pose proof (map_size_filter (λ e : Z * FrameStatus, evictable_ e.2 = true)
                    (<[f := set_evictable true st]> (alive_map_ s))) as Hle.
      rewrite E in Hle. rewrite map_size_insert_Some in Hle by (by exists st). lia. }
    rewrite size_add_small; lia.
  - assert (He : evictable_ st = true) by (by destruct (evictable_ st)).
    pose proof (cnt_flip_false (alive_map_ s) f st (set_evictable false st) Hst He eq_refl) as E.
    rewrite size_sub_small; lia.
Qed.

Lemma count_run_op op s :
  Inv s → 0 ≤ replacer_size_ s → replacer_size_ s + 1 < SIZE_MOD →
  curr_size_ s = evictable_count s →
  curr_size_ (run_op op s) = evictable_count (run_op op s).
Proof.
  intros HI HN Hmod Hc. destruct op as [f p| |f b|f]; simpl.
  - destruct (RecordAccess f p s) as [s'| |] eqn:E; try done.
    by apply (count_RecordAccess f p s).
  - destruct (Evict_cases s HI) as [(-> & _) | (side & f & st & _ & _ & Hst & _ & Hev & ->)];
      [done|]. simpl. by apply count_detach.
  - destruct (SetEvictable f b s) as [s'| |] eqn:E; try done.
    by apply (count_SetEvictable f b s).
  - destruct (Remove f s) as [s'| |] eqn:E; try done.
    destruct (Remove_cases f s s' HI E) as [-> | (st & Hst & Hev & ->)]; [done|].
    by apply count_detach.
Qed.

Lemma count_run_ops ops s :
  Inv s → 0 ≤ replacer_size_ s → replacer_size_ s + 1 < SIZE_MOD →
  curr_size_ s = evictable_count s →
  curr_size_ (run_ops ops s) = evictable_count (run_ops ops s).
Proof.
  revert s. induction ops as [|op ops IH]; intros s HI HN Hmod Hc; [done|].
  simpl. apply IH; [by apply Inv_run_op|by rewrite replacer_size_run_op..|].
  by apply count_run_op.
Qed.

Lemma reachable_count N s :
  0 ≤ N → N + 1 < SIZE_MOD → reachable N s → curr_size_ s = evictable_count s.
Proof.
  intros HN Hmod [ops ->]. apply count_run_ops; [by apply Inv_new|done..].
Qed.

Lemma first_evictable_None alive frames :
  first_evictable alive frames = None ↔
  ∀ f st, f ∈ frames → alive !! f = Some st → evictable_ st = false.
Proof.
  induction frames as [|x l IH]; simpl.
  - split; [|done]. intros _ f st Hf. by apply elem_of_nil in Hf.
  - destruct (alive !! x) as [st|] eqn:Hx.
    + destruct (evictable_ st) eqn:He.
      * split; [done|]. intros H. specialize (H x st (list_elem_of_here _ _) Hx). congruence.
      * rewrite IH. split.
        -- intros H f st' Hf Hst. apply elem_of_cons in Hf as [-> | Hf]; [congruence|eauto].
        -- intros H f st' Hf. apply H. by right.
    + rewrite IH. split.
      * intros H f st' Hf Hst. apply elem_of_cons in Hf as [-> | Hf]; [congruence|eauto].
      * intros H f st' Hf. apply H. by right.
Qed.

Lemma first_evictable_split alive frames f :
  first_evictable alive frames = Some f →
  ∃ l1 l2, frames = l1 ++ f :: l2 ∧
    ∀ g st, g ∈ l1 → alive !! g = Some st → evictable_ st = false.
Proof.
  induction frames as [|x l IH]; simpl; [done|].
  assert (Hrest : first_evictable alive l = Some f →
    (∀ st, alive !! x = Some st → evictable_ st = false) →
    ∃ l1 l2, x :: l = l1 ++ f :: l2 ∧
      ∀ g st, g ∈ l1 → alive !! g = Some st → evictable_ st = false).
  { intros H Hx. destruct (IH H) as (l1 & l2 & -> & Hl1).
    exists (x :: l1), l2. split; [done|].
    intros g st Hg Hst. apply elem_of_cons in Hg as [-> | Hg]; eauto. }
  destruct (alive !! x) as [st|] eqn:Hx.
  - destruct (evictable_ st) eqn:He.
    + intros [= ->]. exists [], l. split; [done|]. intros g st' Hg. by apply elem_of_nil in Hg.
    + intros H. apply Hrest; [done|]. by intros st' [= <-].
  - intros H. by apply Hrest.
Qed.

Lemma scan_side_None side s :
  scan_side side s = None ↔ none_evictable s (StdList.values (alive_list side s)).
Proof.
  unfold scan_side, none_evictable. rewrite first_evictable_None.
  split; intros H f st Hf; apply H.
  - by apply elem_of_reverse_2.
  - by rewrite elem_of_reverse in Hf.
Qed.

Lemma scan_side_split side s f :
  scan_side side s = Some f →
  ∃ l1 l2, StdList.values (alive_list side s) = l1 ++ f :: l2 ∧ none_evictable s l2.
Proof.
  unfold scan_side. intros H.
  destruct (first_evictable_split _ _ _ H) as (r1 & r2 & Hr & Hnone).
  exists (reverse r2), (reverse r1). split.
  - rewrite <- (reverse_involutive (StdList.values _)), Hr.
    by rewrite reverse_app, reverse_cons, <- app_assoc.
  - intros g st Hg Hst. apply (Hnone g st); [|done]. by rewrite elem_of_reverse in Hg.
Qed.

Lemma NoDup_split_unique (l1 l2 r1 r2 : list Z) x :
  NoDup (l1 ++ x :: l2) → l1 ++ x :: l2 = r1 ++ x :: r2 → l1 = r1 ∧ l2 = r2.
Proof.
  revert r1. induction l1 as [|a l1 IH]; intros r1 Hnd Heq.
  - destruct r1 as [|b r1]; simpl in *.
    + by injection Heq as ->.
    + injection Heq as <- ->. apply NoDup_cons in Hnd as [Hx _].
      exfalso. apply Hx. apply elem_of_app. right. by left.
  - destruct r1 as [|b r1]; simpl in *.
    + injection Heq as -> <-. apply NoDup_cons in Hnd as [Hx _].
      exfalso. apply Hx. apply elem_of_app. right. by left.
    + injection Heq as <- Heq. apply NoDup_cons in Hnd as [_ Hnd].
      destruct (IH r1 Hnd Heq) as [-> ->]. done.
Qed.

Lemma alive_list_values side s :
  (side = MRU ∨ side = MFU) → StdList.values (alive_list side s) = live_side side s.
Proof. by intros [-> | ->]. Qed.

Lemma live_side_NoDup side s : Inv s → NoDup (live_side side s).
Proof.
  intros HI. destruct side; simpl.
  - apply (live_values_NoDup MRU _ _ _ (inv_mru_live s HI)), (inv_mru s HI).
  - apply (live_values_NoDup MFU _ _ _ (inv_mfu_live s HI)), (inv_mfu s HI).
  - apply (live_values_NoDup MFU _ _ _ (inv_mfu_live s HI)), (inv_mfu s HI).
  - apply (live_values_NoDup MFU _ _ _ (inv_mfu_live s HI)), (inv_mfu s HI).
Qed.

(** What [RemoveFromAliveList] does to the lists when the frame is live. *)
Lemma RemoveFromAliveList_lists s f st :
  Inv s → alive_map_ s !! f = Some st →
  let s1 := RemoveFromAliveList f (arc_status_ st) s in
  ∃ l1 l2,
    live_side (arc_status_ st) s = l1 ++ f :: l2 ∧
    live_side (arc_status_ st) s1 = l1 ++ l2 ∧
    live_side (other_side (arc_status_ st)) s1 = live_side (other_side (arc_status_ st)) s ∧
    MRU_GHOST_list s1 = MRU_GHOST_list s ∧ MFU_GHOST_list s1 = MFU_GHOST_list s ∧
    ghost_map_ s1 = ghost_map_ s ∧ alive_map_ s1 = alive_map_ s ∧
    curr_size_ s1 = curr_size_ s ∧ mru_target_size_ s1 = mru_target_size_ s ∧
    replacer_size_ s1 = replacer_size_ s ∧
    (arc_status_ st = MRU ∨ arc_status_ st = MFU).
Proof.
  intros HI Hst. destruct (inv_alive s HI f st Hst) as [_ [[E [it Hit]] | [E [it Hit]]]];
    rewrite E; simpl; unfold RemoveFromAliveList; rewrite Hit.
  - destruct (inv_mru s HI) as (Hnd & _ & Hm).
    destruct (erase_values it f (mru_ s) Hnd (Hm f it Hit)) as (l1 & l2 & H1 & H2).
    exists l1, l2. repeat split; try done. by left.
  - destruct (inv_mfu s HI) as (Hnd & _ & Hm).
    destruct (erase_values it f (mfu_ s) Hnd (Hm f it Hit)) as (l1 & l2 & H1 & H2).
    exists l1, l2. repeat split; try done. by right.
Qed.

(** What [detach] does to the lists and maps. *)
Lemma detach_lists s f st ghost :
  Inv s → alive_map_ s !! f = Some st →
  let side := arc_status_ st in
  let s' := detach side f st ghost s in
  ∃ l1 l2,
    live_side side s = l1 ++ f :: l2 ∧
    live_side side s' = l1 ++ l2 ∧
    live_side (other_side side) s' = live_side (other_side side) s ∧
    ghost_side side s' = page_id_ st :: ghost_side side s ∧
    ghost_side (other_side side) s' = ghost_side (other_side side) s ∧
    ghost_map_ s' = <[page_id_ st := ghost]> (ghost_map_ s) ∧
    alive_map_ s' = delete f (alive_map_ s) ∧
    mru_target_size_ s' = mru_target_size_ s.
Proof.
  intros HI Hst side s'.
  destruct (RemoveFromAliveList_lists s f st HI Hst)
    as (l1 & l2 & H1 & H2 & H3 & H4 & H5 & H6 & H7 & H8 & H9 & H10 & Hside).
  exists l1, l2. subst side s'. unfold detach.
  revert H1 H2 H3 H4 H5 H6 H7 H8 H9 H10.
  generalize (RemoveFromAliveList f (arc_status_ st) s) as s1.
  intros s1 H1 H2 H3 H4 H5 H6 H7 H8 H9 H10.
  destruct Hside as [E | E]; rewrite E in *; simpl in *;
    unfold MRU_list, MFU_list, MRU_GHOST_list, MFU_GHOST_list in *; simpl;
    rewrite ?values_push_front; repeat split; congruence.
Qed.

Lemma Evict_order s :
  Inv s →
  (Evict s = (None, s) ∧ scan_side MRU s = None ∧ scan_side MFU s = None) ∨
  ∃ side f st,
    (side = preferred_side s ∨
     (side = other_side (preferred_side s) ∧ scan_side (preferred_side s) s = None)) ∧
    scan_side side s = Some f ∧
    alive_map_ s !! f = Some st ∧ arc_status_ st = side ∧ evictable_ st = true ∧
    Evict s = (Some f, detach side f st (ghost_status side f st) s).
Proof.
  intros HI.
  assert (Hfinish : ∀ first second side f st,
    (first = MRU ∨ first = MFU) → (second = MRU ∨ second = MFU) →
    (side = MRU ∨ side = MFU) →
    alive_map_ s !! f = Some st → 0 ≤ f →
    (scan_side first s = Some f ∧ side = first) ∨
    (scan_side first s = None ∧ scan_side second s = Some f ∧ side = second) →
    (let '(victim, victim_status, s2) :=
       (let acc1 := try_side first (INVALID_FRAME_ID, MRU, s) in
        if acc1.1.1 =? INVALID_FRAME_ID then try_side second acc1 else acc1) in
     if victim =? INVALID_FRAME_ID then (None, s2)
     else
       match alive_map_ s2 !! victim with
       | None => (None, s2)
       | Some status =>
           let page_id := page_id_ status in
           let s3 :=
             match victim_status with
             | MRU =>
                 with_ghost_map
                   (<[page_id := mkFrameStatus page_id victim false MRU_GHOST]>
                      (ghost_map_ (push_front_mru_ghost page_id s2)))
                   (push_front_mru_ghost page_id s2)
             | _ =>
                 with_ghost_map
                   (<[page_id := mkFrameStatus page_id victim false MFU_GHOST]>
                      (ghost_map_ (push_front_mfu_ghost page_id s2)))
                   (push_front_mfu_ghost page_id s2)
             end in
           let s4 := with_alive_map (delete victim (alive_map_ s3)) s3 in
           (Some victim, with_curr_size (size_sub (curr_size_ s4) 1) s4)
       end) = (Some f, detach side f st (ghost_status side f st) s)).
  { intros first second side f st H1 H2 Hside Hal Hf Hcase.
    pose proof (Evict_found first second s f st H1 H2 Hal Hf side Hside Hcase) as Hacc.
    cbv zeta in Hacc. cbv zeta. rewrite Hacc.
    destruct (f =? INVALID_FRAME_ID) eqn:E; [unfold INVALID_FRAME_ID in E; lia|].
    rewrite alive_map_RemoveFromAliveList, Hal.
    destruct Hside as [-> | ->]; reflexivity. }
  unfold Evict, preferred_side, MRU_list. rewrite len_values.
  destruct (mru_target_size_ s <=? StdList.size (mru_ s)).
  - destruct (scan_side MRU s) as [f|] eqn:H1.
    + destruct (scan_side_status MRU s f HI (or_introl eq_refl) H1) as (st & Hal & Hst & Hev & Hf).
      right. exists MRU, f, st. repeat split; try done; [by left|].
      apply (Hfinish MRU MFU MRU f st); auto.
    + destruct (scan_side MFU s) as [f|] eqn:H2.
      * destruct (scan_side_status MFU s f HI (or_intror eq_refl) H2) as (st & Hal & Hst & Hev & Hf).
        right. exists MFU, f, st. repeat split; try done; [by right|].
        apply (Hfinish MRU MFU MFU f st); auto.
      * left. split; [|done]. simpl. unfold try_side. rewrite H1. simpl. rewrite H2. done.
  - destruct (scan_side MFU s) as [f|] eqn:H1.
    + destruct (scan_side_status MFU s f HI (or_intror eq_refl) H1) as (st & Hal & Hst & Hev & Hf).
      right. exists MFU, f, st. repeat split; try done; [by left|].
      apply (Hfinish MFU MRU MFU f st); auto.
    + destruct (scan_side MRU s) as [f|] eqn:H2.
      * destruct (scan_side_status MRU s f HI (or_introl eq_refl) H2) as (st & Hal & Hst & Hev & Hf).
        right. exists MRU, f, st. repeat split; try done; [by right|].
        apply (Hfinish MFU MRU MRU f st); auto.
      * left. split; [|done]. simpl. unfold try_side. rewrite H1. simpl. rewrite H2. done.
Qed.

Lemma live_iff_alive s f side :
  Inv s → (side = MRU ∨ side = MFU) →
  f ∈ live_side side s ↔ ∃ st, alive_map_ s !! f = Some st ∧ arc_status_ st = side.
Proof.
  intros HI Hside. split.
  - intros Hf. destruct Hside as [-> | ->]; simpl in Hf;
      apply list_elem_of_fmap in Hf as [[n v] [-> Hin]]; simpl.
    + by destruct (inv_mru_live s HI n v Hin) as [_ H].
    + by destruct (inv_mfu_live s HI n v Hin) as [_ H].
  - intros (st & Hst & E).
    destruct (inv_alive s HI f st Hst) as [_ [[E' [it Hit]] | [E' [it Hit]]]].
    + assert (side = MRU) as -> by congruence. simpl.
      destruct (inv_mru s HI) as (_ & _ & Hm).
      apply list_elem_of_fmap. exists (it, f). split; [done|]. by apply Hm.
    + assert (side = MFU) as -> by congruence. simpl.
      destruct (inv_mfu s HI) as (_ & _ & Hm).
      apply list_elem_of_fmap. exists (it, f). split; [done|]. by apply Hm.
Qed.

Lemma count_zero_none s :
  Inv s → evictable_count s = 0 ↔
          (scan_side MRU s = None ∧ scan_side MFU s = None).
Proof.
  intros HI. unfold evictable_count, evictable_frames. split.
  - intros H0. assert (E : filter (λ e : Z * FrameStatus, evictable_ e.2 = true) (alive_map_ s) = ∅).
    { apply map_size_empty_iff. lia. }
    assert (Hall : ∀ f st, alive_map_ s !! f = Some st → evictable_ st = false).
    { intros f st Hst. destruct (evictable_ st) eqn:He; [|done].
      assert (H : filter (λ e : Z * FrameStatus, evictable_ e.2 = true) (alive_map_ s) !! f
                  = Some st) by (by apply map_lookup_filter_Some).
      rewrite E in H. by rewrite lookup_empty in H. }
    split; apply scan_side_None; intros f st _; apply Hall.
  - intros [H1 H2]. apply scan_side_None in H1, H2.
    assert (E : filter (λ e : Z * FrameStatus, evictable_ e.2 = true) (alive_map_ s) = ∅).
    { apply map_empty. intros f. apply map_lookup_filter_None. right.
      intros st Hst. simpl.
      destruct (inv_alive s HI f st Hst) as [_ Hside].
      assert (Hlive : f ∈ live_side (arc_status_ st) s ∧
                      (arc_status_ st = MRU ∨ arc_status_ st = MFU)).
      { assert (Hs : arc_status_ st = MRU ∨ arc_status_ st = MFU)
          by (destruct Hside as [[? _]|[? _]]; auto).
        split; [|done]. apply live_iff_alive; [done..|]. by exists st. }
      destruct Hlive as [Hlive [E | E]]; rewrite E in Hlive; simpl in Hlive.
      + rewrite (H1 f st Hlive Hst). done.
      + rewrite (H2 f st Hlive Hst). done. }
    rewrite E. by rewrite map_size_empty.
Qed.

(** X1: in every state the replacer reaches, [Size()] is the number of live
    frames that are marked evictable; it never exceeds the [N + 1] frame ids
    the replacer accepts. *)
Theorem size_counts_evictable N s :
  0 ≤ N → N + 1 < SIZE_MOD → reachable N s →
  Size s = evictable_count s ∧ 0 ≤ Size s ≤ N + 1.
Proof.
  intros HN Hmod Hr. pose proof (reachable_count N s HN Hmod Hr) as Hc.
  pose proof (reachable_Inv N s HN Hr) as HI.
  pose proof (reachable_replacer_size N s Hr) as HNs.
  unfold Size. split; [done|]. rewrite Hc.
  destruct (evictable_count_bound s HI) as [H1 H2]; lia.
Qed.

Lemma size_counts_evictable_witness :
  let s := run_ops mixed_ops (new 3) in
  Size s = evictable_count s ∧ 0 ≤ Size s ≤ 3 + 1.
Proof.
  intros s. apply (size_counts_evictable 3 s); [lia|done|by exists mixed_ops].
Defined.

(** X2: in every reachable state the two live lists hold each live frame
    exactly once: no frame occurs twice in [mru_ ++ mfu_], a frame is in
    [mru_] (in [mfu_]) exactly when [alive_map_] records it with status MRU
    (MFU), and live frames have ids in [0, N]; so at most [N + 1] are live. *)
Theorem live_lists_partition N s :
  0 ≤ N → reachable N s →
  NoDup (MRU_list s ++ MFU_list s) ∧
  (∀ f, f ∈ MRU_list s ↔ ∃ st, alive_map_ s !! f = Some st ∧ arc_status_ st = MRU) ∧
  (∀ f, f ∈ MFU_list s ↔ ∃ st, alive_map_ s !! f = Some st ∧ arc_status_ st = MFU) ∧
  (∀ f st, alive_map_ s !! f = Some st →
     0 ≤ f ≤ N ∧ (arc_status_ st = MRU ∨ arc_status_ st = MFU)) ∧
  len (MRU_list s) + len (MFU_list s) ≤ N + 1.
Proof.
  intros HN Hr. pose proof (reachable_Inv N s HN Hr) as HI.
  pose proof (reachable_replacer_size N s Hr) as HNs.
  assert (Hmru := live_iff_alive s).
  assert (Hnd : NoDup (MRU_list s ++ MFU_list s)).
  { apply NoDup_app. split; [apply (live_side_NoDup MRU s HI)|].
    split; [|apply (live_side_NoDup MFU s HI)].
    intros f H1 H2.
    apply (live_iff_alive s f MRU HI (or_introl eq_refl)) in H1 as (st1 & Hs1 & E1).
    apply (live_iff_alive s f MFU HI (or_intror eq_refl)) in H2 as (st2 & Hs2 & E2).
    congruence. }
  assert (Hal : ∀ f st, alive_map_ s !! f = Some st →
     0 ≤ f ≤ N ∧ (arc_status_ st = MRU ∨ arc_status_ st = MFU)).
  { intros f st Hst. destruct (inv_alive s HI f st Hst) as [Hf Hside].
    split; [lia|]. destruct Hside as [[? _]|[? _]]; auto. }
  split; [done|].
  split; [intros f; apply (live_iff_alive s f MRU HI); by left|].
  split; [intros f; apply (live_iff_alive s f MFU HI); by right|].
  split; [done|].
  assert (Hlen : len (MRU_list s ++ MFU_list s) ≤ N + 1).
  { apply pigeonhole; [lia|done|]. intros f Hf.
    apply elem_of_app in Hf as [Hf | Hf].
    - apply (live_iff_alive s f MRU HI (or_introl eq_refl)) in Hf as (st & Hst & _).
      destruct (Hal f st Hst). lia.
    - apply (live_iff_alive s f MFU HI (or_intror eq_refl)) in Hf as (st & Hst & _).
      destruct (Hal f st Hst). lia. }
  revert Hlen. unfold len. rewrite length_app. lia.
Qed.

Lemma live_lists_partition_witness :
  let s := run_ops mixed_ops (new 3) in
  NoDup (MRU_list s ++ MFU_list s) ∧
  (∀ f, f ∈ MRU_list s ↔ ∃ st, alive_map_ s !! f = Some st ∧ arc_status_ st = MRU) ∧
  (∀ f, f ∈ MFU_list s ↔ ∃ st, alive_map_ s !! f = Some st ∧ arc_status_ st = MFU) ∧
  (∀ f st, alive_map_ s !! f = Some st →
     0 ≤ f ≤ 3 ∧ (arc_status_ st = MRU ∨ arc_status_ st = MFU)) ∧
  len (MRU_list s) + len (MFU_list s) ≤ 3 + 1.
Proof.
  intros s. apply (live_lists_partition 3 s); [lia|by exists mixed_ops].
Defined.

(** X3: [Evict] in a reachable state.  With no evictable frame it returns
    nothing and changes nothing.  Otherwise it takes the evictable frame
    nearest the back of the preferred list (MRU when that list is at least
    as long as the target, else MFU), or of the other list when the
    preferred one has no evictable frame: the frame leaves its list and
    [alive_map_], its page id goes to the front of the ghost list of the
    same side with a ghost status, and [Size()] drops by one. *)
Theorem evict_takes_lru_evictable N s :
  0 ≤ N → N + 1 < SIZE_MOD → reachable N s →
  (evictable_count s = 0 → Evict s = (None, s)) ∧
  (0 < evictable_count s →
   ∃ side f st l1 l2 s',
     Evict s = (Some f, s') ∧
     alive_map_ s !! f = Some st ∧ evictable_ st = true ∧ arc_status_ st = side ∧
     (side = preferred_side s ∨
      (side = other_side (preferred_side s) ∧
       none_evictable s (live_side (preferred_side s) s))) ∧
     live_side side s = l1 ++ f :: l2 ∧ none_evictable s l2 ∧
     live_side side s' = l1 ++ l2 ∧
     live_side (other_side side) s' = live_side (other_side side) s ∧
     ghost_side side s' = page_id_ st :: ghost_side side s ∧
     ghost_side (other_side side) s' = ghost_side (other_side side) s ∧
     alive_map_ s' = delete f (alive_map_ s) ∧
     ghost_map_ s' = <[page_id_ st := ghost_status side f st]> (ghost_map_ s) ∧
     mru_target_size_ s' = mru_target_size_ s ∧
     Size s' = Size s - 1).
Proof.
  intros HN Hmod Hr. pose proof (reachable_count N s HN Hmod Hr) as Hc.
  pose proof (reachable_Inv N s HN Hr) as HI.
  pose proof (reachable_replacer_size N s Hr) as HNs.
  assert (Hpref : preferred_side s = MRU ∨ preferred_side s = MFU).
  { unfold preferred_side. destruct (_ <=? _); auto. }
  destruct (Evict_order s HI) as
    [(He & H1 & H2) | (side & f & st & Hside & Hscan & Hst & Hstat & Hev & He)].
  - split; [done|]. intros Hpos.
    assert (evictable_count s = 0) by (by apply count_zero_none). lia.
  - split.
    { intros H0. apply (count_zero_none s HI) in H0 as [H1 H2].
      assert (Hs : side = MRU ∨ side = MFU).
      { destruct Hside as [-> | [-> _]]; [done|].
        destruct Hpref as [-> | ->]; simpl; auto. }
      destruct Hs as [-> | ->]; congruence. }
    intros _.
    assert (Hs : side = MRU ∨ side = MFU).
    { destruct Hside as [-> | [-> _]]; [done|].
      destruct Hpref as [-> | ->]; simpl; auto. }
    destruct (scan_side_split side s f Hscan) as (r1 & r2 & Hr12 & Hnone).
    rewrite (alive_list_values side s Hs) in Hr12.
    pose proof (detach_lists s f st (ghost_status (arc_status_ st) f st) HI Hst) as Hd.
    cbv zeta in Hd. rewrite Hstat in Hd.
    destruct Hd as (l1 & l2 & D1 & D2 & D3 & D4 & D5 & D6 & D7 & D8).
    assert (l1 = r1 ∧ l2 = r2) as [-> ->].
    { apply (NoDup_split_unique l1 l2 r1 r2 f); [|congruence].
      rewrite <- D1. by apply live_side_NoDup. }
    exists side, f, st, r1, r2, (detach side f st (ghost_status side f st) s).
    split; [done|]. split; [done|]. split; [done|]. split; [done|].
    split.
    { destruct Hside as [-> | [-> Hn]]; [by left|]. right. split; [done|].
      apply scan_side_None in Hn. by rewrite (alive_list_values _ s Hpref) in Hn. }
    repeat (split; [done|]).
    unfold Size.
    destruct (count_detach side f st (ghost_status side f st) s HI) as [C1 C2];
      [lia|lia|done|done|done|].
    rewrite C1, C2, Hc. done.
Qed.

Lemma evict_takes_lru_evictable_witness :
  let s := run_ops mixed_ops (new 3) in
  (evictable_count s = 0 → Evict s = (None, s)) ∧
  (0 < evictable_count s →
   ∃ side f st l1 l2 s',
     Evict s = (Some f, s') ∧
     alive_map_ s !! f = Some st ∧ evictable_ st = true ∧ arc_status_ st = side ∧
     (side = preferred_side s ∨
      (side = other_side (preferred_side s) ∧
       none_evictable s (live_side (preferred_side s) s))) ∧
     live_side side s = l1 ++ f :: l2 ∧ none_evictable s l2 ∧
     live_side side s' = l1 ++ l2 ∧
     live_side (other_side side) s' = live_side (other_side side) s ∧
     ghost_side side s' = page_id_ st :: ghost_side side s ∧
     ghost_side (other_side side) s' = ghost_side (other_side side) s ∧
     alive_map_ s' = delete f (alive_map_ s) ∧
     ghost_map_ s' = <[page_id_ st := ghost_status side f st]> (ghost_map_ s) ∧
     mru_target_size_ s' = mru_target_size_ s ∧
     Size s' = Size s - 1).
Proof.
  intros s. apply (evict_takes_lru_evictable 3 s); [lia|done|by exists mixed_ops].
Defined.

Lemma alive_valid_frame s f st :
  Inv s → alive_map_ s !! f = Some st → invalid_frame f s = false.
Proof.
  intros HI Hst. destruct (inv_alive s HI f st Hst) as [Hf _].
  unfold invalid_frame. apply orb_false_iff. split; [apply Z.ltb_ge|apply Z.ltb_ge]; lia.
Qed.

Lemma valid_frame_range s f : 0 ≤ f ≤ replacer_size_ s → invalid_frame f s = false.
Proof.
  intros Hf. unfold invalid_frame. apply orb_false_iff.
  split; [apply Z.ltb_ge|apply Z.ltb_ge]; lia.
Qed.

Lemma mru_target_size_RecordAccess_miss f p s :
  mru_target_size_ (RecordAccess_miss f p s) = mru_target_size_ s.
Proof.
  unfold RecordAccess_miss. simpl.
  destruct (_ =? _); [by destruct (StdList.back (mru_ghost_ s))|].
  destruct (_ <=? _); [by destruct (StdList.back (mfu_ghost_ s))|done].
Qed.

(** X4: an access to a live frame moves it to the front of [mfu_], whichever
    live list it was in, and changes nothing else: the page id passed to
    [RecordAccess] is not recorded, the frame keeps its evictable flag, and
    the ghost lists, the target and [Size()] stay as they are. *)
Theorem live_hit_promotes N s f p st :
  0 ≤ N → reachable N s → alive_map_ s !! f = Some st →
  ∃ s' l1 l2,
    RecordAccess f p s = Ok s' ∧
    live_side (arc_status_ st) s = l1 ++ f :: l2 ∧
    MFU_list s' = f :: (if decide (arc_status_ st = MRU) then MFU_list s else l1 ++ l2) ∧
    MRU_list s' = (if decide (arc_status_ st = MRU) then l1 ++ l2 else MRU_list s) ∧
    alive_map_ s' = <[f := set_arc_status MFU st]> (alive_map_ s) ∧
    MRU_GHOST_list s' = MRU_GHOST_list s ∧ MFU_GHOST_list s' = MFU_GHOST_list s ∧
    ghost_map_ s' = ghost_map_ s ∧
    mru_target_size_ s' = mru_target_size_ s ∧ Size s' = Size s.
Proof.
  intros HN Hr Hst. pose proof (reachable_Inv N s HN Hr) as HI.
  unfold RecordAccess. rewrite (alive_valid_frame s f st HI Hst), Hst.
  destruct (RemoveFromAliveList_lists s f st HI Hst)
    as (l1 & l2 & H1 & H2 & H3 & H4 & H5 & H6 & H7 & H8 & H9 & H10 & Hside).
  revert H2 H3 H4 H5 H6 H7 H8 H9 H10.
  generalize (RemoveFromAliveList f (arc_status_ st) s) as s1.
  intros s1 H2 H3 H4 H5 H6 H7 H8 H9 H10.
  eexists _, l1, l2. split; [reflexivity|]. split; [done|].
  unfold Size, MRU_list, MFU_list, MRU_GHOST_list, MFU_GHOST_list in *. simpl.
  rewrite ?values_push_front.
  destruct Hside as [E | E]; rewrite E in *; simpl in *;
    unfold MRU_list, MFU_list in *; repeat split; congruence.
Qed.

Lemma live_hit_promotes_witness :
  let s := run_ops mixed_ops (new 3) in
  ∃ s' l1 l2,
    RecordAccess 2 77 s = Ok s' ∧
    live_side MRU s = l1 ++ 2 :: l2 ∧
    MFU_list s' = 2 :: (if decide (MRU = MRU) then MFU_list s else l1 ++ l2) ∧
    MRU_list s' = (if decide (MRU = MRU) then l1 ++ l2 else MRU_list s) ∧
    alive_map_ s' = <[2 := set_arc_status MFU (mkFrameStatus 12 2 false MRU)]> (alive_map_ s) ∧
    MRU_GHOST_list s' = MRU_GHOST_list s ∧ MFU_GHOST_list s' = MFU_GHOST_list s ∧
    ghost_map_ s' = ghost_map_ s ∧
    mru_target_size_ s' = mru_target_size_ s ∧ Size s' = Size s.
Proof.
  intros s.
  apply (live_hit_promotes 3 s 2 77 (mkFrameStatus 12 2 false MRU));
    [lia|by exists mixed_ops|by vm_compute].
Defined.

(** X5: [Remove] in a reachable state.  A frame that is not live is left
    alone; a live frame that is not evictable raises the runtime error; an
    evictable one leaves its list and [alive_map_], its page id goes to the
    front of the ghost list of its side and [Size()] drops by one.  The
    status recorded for the page keeps its live tag, so the next access to
    that page is handled as a first access: the frame enters [mru_] and the
    target does not move. *)
Theorem remove_behaviour N s f :
  0 ≤ N → N + 1 < SIZE_MOD → reachable N s →
  (0 ≤ f ≤ N → alive_map_ s !! f = None → Remove f s = Ok s) ∧
  (∀ st, alive_map_ s !! f = Some st → evictable_ st = false →
     Remove f s = RuntimeError) ∧
  (∀ st, alive_map_ s !! f = Some st → evictable_ st = true →
     let side := arc_status_ st in
     ∃ s' l1 l2,
       Remove f s = Ok s' ∧
       live_side side s = l1 ++ f :: l2 ∧ live_side side s' = l1 ++ l2 ∧
       live_side (other_side side) s' = live_side (other_side side) s ∧
       ghost_side side s' = page_id_ st :: ghost_side side s ∧
       ghost_side (other_side side) s' = ghost_side (other_side side) s ∧
       alive_map_ s' = delete f (alive_map_ s) ∧
       ghost_map_ s' = <[page_id_ st := st]> (ghost_map_ s) ∧
       mru_target_size_ s' = mru_target_size_ s ∧
       Size s' = Size s - 1 ∧
       ∀ g, 0 ≤ g ≤ N → alive_map_ s' !! g = None →
         ∃ s2, RecordAccess g (page_id_ st) s' = Ok s2 ∧
               MRU_list s2 = g :: MRU_list s' ∧ MFU_list s2 = MFU_list s' ∧
               mru_target_size_ s2 = mru_target_size_ s' ∧
               alive_map_ s2 !! g = Some (mkFrameStatus (page_id_ st) g false MRU)).
Proof.
  intros HN Hmod Hr. pose proof (reachable_count N s HN Hmod Hr) as Hc.
  pose proof (reachable_Inv N s HN Hr) as HI.
  pose proof (reachable_replacer_size N s Hr) as HNs.
  split; [|split].
  - intros Hf Hnone. unfold Remove. rewrite valid_frame_range by lia. by rewrite Hnone.
  - intros st Hst Hev. unfold Remove.
    rewrite (alive_valid_frame s f st HI Hst), Hst, Hev. done.
  - intros st Hst Hev side.
    assert (HR : Remove f s = Ok (detach side f st st s)).
    { unfold Remove. rewrite (alive_valid_frame s f st HI Hst), Hst, Hev. simpl.
      subst side. unfold detach.
      destruct (inv_alive s HI f st Hst) as [_ [[E _] | [E _]]]; rewrite E; done. }
    pose proof (detach_lists s f st st HI Hst) as Hd. cbv zeta in Hd.
    destruct Hd as (l1 & l2 & D1 & D2 & D3 & D4 & D5 & D6 & D7 & D8).
    fold side in D1, D2, D3, D4, D5, D6, D7, D8.
    destruct (count_detach side f st st s HI) as [C1 C2]; [lia|lia|done|done|done|].
    assert (HI' : Inv (detach side f st st s)).
    { apply Inv_detach; try done; subst side;
        destruct (inv_alive s HI f st Hst) as [_ [[E _] | [E _]]]; rewrite E; done. }
    assert (HN' : replacer_size_ (detach side f st st s) = N).
    { pose proof (replacer_size_run_op (OpRemove f) s) as Hrs.
      simpl in Hrs. rewrite HR in Hrs. by rewrite Hrs. }
    revert HR D2 D3 D4 D5 D6 D7 D8 C1 C2 HI'. revert HN'.
    generalize (detach side f st st s) as s'.
    intros s' HN' HR D2 D3 D4 D5 D6 D7 D8 C1 C2 HI'.
    exists s', l1, l2. repeat (split; [done|]).
    split; [unfold Size; lia|].
    intros g Hg Hnone. exists (RecordAccess_miss g (page_id_ st) s').
    split.
    { unfold RecordAccess. rewrite valid_frame_range by lia. rewrite Hnone, D6.
      rewrite lookup_insert_eq.
      destruct (inv_alive s HI f st Hst) as [_ [[E _] | [E _]]]; rewrite E; done. }
    destruct (RecordAccess_miss_lists g (page_id_ st) s') as (M1 & M2 & _ & _ & M5).
    split; [done|]. split; [done|].
    split; [apply mru_target_size_RecordAccess_miss|].
    rewrite M5. apply lookup_insert_eq.
Qed.

Lemma remove_behaviour_witness :
  let s := run_ops mixed_ops (new 3) in
  let st := mkFrameStatus 10 0 true MRU in
  ∃ s' l1 l2,
    Remove 0 s = Ok s' ∧
    live_side MRU s = l1 ++ 0 :: l2 ∧ live_side MRU s' = l1 ++ l2 ∧
    live_side MFU s' = live_side MFU s ∧
    ghost_side MRU s' = 10 :: ghost_side MRU s ∧
    ghost_side MFU s' = ghost_side MFU s ∧
    alive_map_ s' = delete 0 (alive_map_ s) ∧
    ghost_map_ s' = <[10 := st]> (ghost_map_ s) ∧
    mru_target_size_ s' = mru_target_size_ s ∧
    Size s' = Size s - 1 ∧
    ∀ g, 0 ≤ g ≤ 3 → alive_map_ s' !! g = None →
      ∃ s2, RecordAccess g 10 s' = Ok s2 ∧
            MRU_list s2 = g :: MRU_list s' ∧ MFU_list s2 = MFU_list s' ∧
            mru_target_size_ s2 = mru_target_size_ s' ∧
            alive_map_ s2 !! g = Some (mkFrameStatus 10 g false MRU).
Proof.
  intros s st.
  destruct (remove_behaviour 3 s 0) as (_ & _ & H); [lia|done|by exists mixed_ops|].
  apply (H st); by vm_compute.
Defined.

End ArcBehaviour.

(** ** The disk manager: what its operations do to the file *)

Module DiskBehaviour.
Import Disk DiskProps.


Lemma page_size_eq : BUSTUB_PAGE_SIZE = 4096.
Proof. reflexivity. Qed.

Lemma size_mod_eq : SIZE_MOD = 18446744073709551616.
Proof. reflexivity. Qed.

Lemma size_add_exact a b : 0 ≤ a → 0 ≤ b → a + b < 2 ^ 31 → size_add a b = a + b.
Proof.
  intros Ha Hb Hab. unfold size_add. rewrite size_mod_eq. apply Z.mod_small.
  change (2 ^ 31) with 2147483648 in Hab. lia.
Qed.

Lemma size_mul_exact a b : 0 ≤ a → 0 ≤ b → a * b < 2 ^ 31 → size_mul a b = a * b.
Proof.
  intros Ha Hb Hab. unfold size_mul. rewrite size_mod_eq. apply Z.mod_small.
  change (2 ^ 31) with 2147483648 in Hab. nia.
Qed.

Lemma to_int_small z : 0 ≤ z < 2 ^ 31 → to_int z = z.
Proof.
  intros Hz. unfold to_int. change (2 ^ 31) with 2147483648 in *.
  change (2 ^ 32) with 4294967296. rewrite Z.mod_small; lia.
Qed.

Lemma read_at_lookup o d (i : nat) :
  (i < Z.to_nat BUSTUB_PAGE_SIZE)%nat →
  read_at o d !! i =
    Some (if o + Z.of_nat i <? db_size_ d then db_io_ d (o + Z.of_nat i) else 0).
Proof.
  intros Hi. unfold read_at. rewrite list_lookup_fmap.
  rewrite lookup_seqZ_lt by lia. simpl. done.
Qed.

Lemma length_read_at o d : length (read_at o d) = Z.to_nat BUSTUB_PAGE_SIZE.
Proof. unfold read_at. by rewrite length_fmap, length_seqZ. Qed.

Lemma read_at_ext o d d' :
  (∀ i, 0 ≤ i < BUSTUB_PAGE_SIZE →
     (if o + i <? db_size_ d then db_io_ d (o + i) else 0) =
     (if o + i <? db_size_ d' then db_io_ d' (o + i) else 0)) →
  read_at o d = read_at o d'.
Proof.
  intros H. apply list_eq. intros i.
  destruct (decide (i < Z.to_nat BUSTUB_PAGE_SIZE)%nat) as [Hi|Hi].
  - rewrite !read_at_lookup by done. f_equal. apply H. lia.
  - rewrite !lookup_ge_None_2; [done|rewrite length_read_at; lia..].
Qed.

Lemma read_at_write_at_same o data d :
  length data = Z.to_nat BUSTUB_PAGE_SIZE → 0 ≤ o →
  read_at o (write_at o data d) = data.
Proof.
  intros Hlen Ho. apply list_eq. intros i.
  destruct (decide (i < Z.to_nat BUSTUB_PAGE_SIZE)%nat) as [Hi|Hi].
  - rewrite read_at_lookup by done. unfold write_at. simpl.
    pose proof page_size_eq as E.
    destruct (o + Z.of_nat i <? _) eqn:E1; [|apply Z.ltb_ge in E1; lia].
    replace ((o <=? o + Z.of_nat i) && (o + Z.of_nat i <? o + BUSTUB_PAGE_SIZE)) with true.
    2:{ symmetry. apply andb_true_iff. split; [apply Z.leb_le|apply Z.ltb_lt]; lia. }
    replace (Z.to_nat (o + Z.of_nat i - o)) with i by lia.
    destruct (data !! i) eqn:E2; [done|]. apply lookup_ge_None in E2. lia.
  - rewrite lookup_ge_None_2 by (rewrite length_read_at; lia).
    symmetry. apply lookup_ge_None_2. lia.
Qed.

Lemma read_at_write_at_other o o' data d :
  o + BUSTUB_PAGE_SIZE ≤ o' ∨ o' + BUSTUB_PAGE_SIZE ≤ o →
  o + BUSTUB_PAGE_SIZE ≤ db_size_ d →
  read_at o (write_at o' data d) = read_at o d.
Proof.
  intros Hdis Hin. apply read_at_ext. intros i Hi. unfold write_at. simpl.
  replace ((o' <=? o + i) && (o + i <? o' + BUSTUB_PAGE_SIZE)) with false.
  2:{ symmetry. apply andb_false_iff. destruct Hdis; [left; apply Z.leb_gt|right; apply Z.ltb_ge]; lia. }
  assert (E1 : (o + i <? db_size_ d) = true) by (apply Z.ltb_lt; lia).
  assert (E2 : (o + i <? Z.max (db_size_ d) (o' + BUSTUB_PAGE_SIZE)) = true)
    by (apply Z.ltb_lt; lia).
  by rewrite E1, E2.
Qed.

Lemma read_at_resize o n d :
  o + BUSTUB_PAGE_SIZE ≤ db_size_ d → db_size_ d ≤ n →
  read_at o (resize_file n d) = read_at o d.
Proof.
  intros Hin Hn. apply read_at_ext. intros i Hi. unfold resize_file. simpl.
  assert (E1 : (o + i <? db_size_ d) = true) by (apply Z.ltb_lt; lia).
  assert (E2 : (o + i <? n) = true) by (apply Z.ltb_lt; lia).
  assert (E3 : (o + i <? Z.min (db_size_ d) n) = true) by (apply Z.ltb_lt; lia).
  by rewrite E1, E2, E3.
Qed.

(** Only the file matters to what is read. *)
Lemma read_at_same o d d' :
  db_size_ d = db_size_ d' → (∀ i, db_io_ d i = db_io_ d' i) →
  read_at o d = read_at o d'.
Proof. intros E1 E2. apply read_at_ext. intros i _. by rewrite E1, E2. Qed.

Ltac same_file := apply read_at_same; [reflexivity|intros; reflexivity].

Lemma offsets_free_snoc d fs o :
  free_slots_ d = fs ++ [o] →
  offsets d ≡ₚ o :: offsets (with_free_slots fs d).
Proof.
  intros E. unfold offsets. simpl. rewrite E.
  rewrite app_assoc. rewrite <- Permutation_cons_append. done.
Qed.

Lemma slots_nonneg d : 0 ≤ slots d.
Proof. unfold slots. lia. Qed.

(** [AllocatePage] hands out the slot freed last, or else the next slot of
    the file, which it makes longer when the capacity is reached. *)
Lemma AllocatePage_inv b d :
  disk_inv b d → (2 * (b + 1) + 1) * BUSTUB_PAGE_SIZE < 2 ^ 31 →
  ∃ o d1, AllocatePage d = (o, d1) ∧ alloc_inv (b + 1) o d1 ∧
          pages_ d1 = pages_ d ∧
          num_writes_ d1 = num_writes_ d ∧ num_deletes_ d1 = num_deletes_ d ∧
          db_size_ d ≤ db_size_ d1 ∧
          (∀ x, x + BUSTUB_PAGE_SIZE ≤ db_size_ d → read_at x d1 = read_at x d) ∧
          (∀ fs x, free_slots_ d = fs ++ [x] → o = x ∧ d1 = with_free_slots fs d).
Proof.
  intros [Hnd Hal Hcap Hsz [Hb1 Hb2] Hsm] Hfit.
  pose proof page_size_eq as EP.
  unfold AllocatePage. destruct (last (free_slots_ d)) as [o|] eqn:Hlast.
  - apply last_Some in Hlast as [fs Hfs].
    exists o, (with_free_slots fs d). rewrite Hfs, removelast_last.
    pose proof (offsets_free_snoc d fs o Hfs) as Hperm.
    assert (Hslots : slots (with_free_slots fs d) + 1 = slots d).
    { unfold slots. simpl. rewrite Hfs, length_app. simpl. lia. }
    split; [done|]. split.
    { split.
      - by rewrite <- Hperm.
      - intros x Hx. rewrite <- Hperm in Hx. rewrite Hslots. by apply Hal.
      - rewrite Hslots. done.
      - done.
      - rewrite Hslots. simpl. lia.
      - done. }
    do 4 (split; [done || lia|]). split; [intros x _; same_file|].
    intros fs' x E. by apply app_inj_tail in E as [<- <-].
  - apply last_None in Hlast.
    assert (Hn : Z.of_nat (size (pages_ d)) = slots d).
    { unfold slots. rewrite Hlast. simpl. lia. }
    assert (Hoff : offsets d = (map_to_list (pages_ d)).*2).
    { unfold offsets. rewrite Hlast. by rewrite app_nil_r. }
    pose proof (slots_nonneg d) as Hs0.
    rewrite EP in *. change (2 ^ 31) with 2147483648 in *.
    assert (Ho : size_mul (Z.of_nat (size (pages_ d))) 4096 = slots d * 4096).
    { rewrite Hn. apply size_mul_exact; [lia|lia|]. change (2 ^ 31) with 2147483648. lia. }
    assert (Hadd : size_add (Z.of_nat (size (pages_ d))) 1 = slots d + 1).
    { rewrite Hn. apply size_add_exact; [lia|lia|]. change (2 ^ 31) with 2147483648. lia. }
    rewrite Ho, Hadd.
    assert (Hfresh : slots d * 4096 ∉ offsets d).
    { intros Hin. destruct (Hal _ Hin) as (k & Hk & E). lia. }
    assert (Hal' : ∀ x, x ∈ slots d * 4096 :: offsets d →
                   ∃ k, 0 ≤ k < slots d + 1 ∧ x = k * 4096).
    { intros x Hx. apply elem_of_cons in Hx as [-> | Hx].
      - exists (slots d). lia.
      - destruct (Hal x Hx) as (k & Hk & E). exists k. lia. }
    destruct (page_capacity_ d <=? slots d + 1) eqn:Hfull.
    + apply Z.leb_le in Hfull.
      assert (Hc : size_mul (page_capacity_ d) 2 = 2 * page_capacity_ d).
      { rewrite size_mul_exact; [lia|lia|lia|]. change (2 ^ 31) with 2147483648. lia. }
      assert (Hs : size_mul (size_add (size_mul (page_capacity_ d) 2) 1) 4096 =
                   (2 * page_capacity_ d + 1) * 4096).
      { rewrite Hc. rewrite size_add_exact; [|lia|lia|change (2 ^ 31) with 2147483648; lia].
        apply size_mul_exact; [lia|lia|]. change (2 ^ 31) with 2147483648. lia. }
      rewrite Hs, Hc. eexists _, _. split; [reflexivity|]. split.
      { split; simpl; try done;
          try change (slots (resize_file _ _)) with (slots d); try lia.
        by apply NoDup_cons. }
      do 3 (split; [done|]). split; [simpl; lia|]. split.
      * intros x Hx. rewrite read_at_resize by (simpl; lia). same_file.
      * intros fs x E. rewrite Hlast in E. by destruct fs.
    + apply Z.leb_gt in Hfull. eexists _, _. split; [reflexivity|]. split.
      { split; simpl; try done; try lia.
        by apply NoDup_cons. }
      do 3 (split; [done|]). split; [lia|]. split; [done|].
      intros fs x E. rewrite Hlast in E. by destruct fs.
Qed.

Lemma offset_in_file b d o :
  disk_inv b d → o ∈ offsets d → 0 ≤ o ∧ o + BUSTUB_PAGE_SIZE ≤ db_size_ d.
Proof.
  intros [Hnd Hal Hcap Hsz [Hb1 Hb2] Hsm] Hin.
  destruct (Hal o Hin) as (k & Hk & ->). rewrite Hsz, page_size_eq. lia.
Qed.

Lemma alloc_in_file b d o :
  alloc_inv b o d → 0 ≤ o ∧ o + BUSTUB_PAGE_SIZE ≤ db_size_ d.
Proof.
  intros [Hnd Hal Hcap Hsz [Hb1 Hb2] Hsm].
  destruct (Hal o (list_elem_of_here _ _)) as (k & Hk & ->). rewrite Hsz, page_size_eq. lia.
Qed.

Lemma page_offset_in d p o : pages_ d !! p = Some o → o ∈ offsets d.
Proof.
  intros Hp. unfold offsets. apply elem_of_app. left.
  apply list_elem_of_fmap. exists (p, o). split; [done|]. by apply elem_of_map_to_list.
Qed.

Lemma offsets_insert_new d d' p o :
  pages_ d !! p = None → pages_ d' = <[p := o]> (pages_ d) →
  free_slots_ d' = free_slots_ d →
  offsets d' ≡ₚ o :: offsets d ∧ slots d' = slots d + 1.
Proof.
  intros Hp Hpg Hfs. unfold offsets, slots. rewrite Hpg, Hfs. split.
  - rewrite map_to_list_insert by done. done.
  - rewrite map_size_insert_None by done. lia.
Qed.

Lemma offsets_same d d' :
  pages_ d' = pages_ d → free_slots_ d' = free_slots_ d →
  offsets d' = offsets d ∧ slots d' = slots d.
Proof. intros Hpg Hfs. unfold offsets, slots. by rewrite Hpg, Hfs. Qed.

(** The page is recorded under the slot just handed out. *)
Lemma alloc_inv_record b o d d' p :
  alloc_inv b o d → pages_ d !! p = None →
  pages_ d' = <[p := o]> (pages_ d) → free_slots_ d' = free_slots_ d →
  page_capacity_ d' = page_capacity_ d → db_size_ d' = db_size_ d →
  disk_inv b d'.
Proof.
  intros [Hnd Hal Hcap Hsz [Hb1 Hb2] Hsm] Hp Hpg Hfs Hc Hs.
  destruct (offsets_insert_new d d' p o Hp Hpg Hfs) as [Hperm Hslots].
  split.
  - by rewrite Hperm.
  - intros x Hx. rewrite Hperm in Hx. rewrite Hslots. by apply Hal.
  - rewrite Hslots, Hc. done.
  - by rewrite Hs, Hc.
  - rewrite Hslots, Hc. done.
  - done.
Qed.

Lemma disk_inv_same b b' d d' :
  disk_inv b d → pages_ d' = pages_ d → free_slots_ d' = free_slots_ d →
  page_capacity_ d' = page_capacity_ d → db_size_ d' = db_size_ d →
  b ≤ b' → (2 * b' + 1) * BUSTUB_PAGE_SIZE < 2 ^ 31 →
  disk_inv b' d'.
Proof.
  intros [Hnd Hal Hcap Hsz [Hb1 Hb2] Hsm] Hpg Hfs Hc Hs Hb Hsm'.
  destruct (offsets_same d d' Hpg Hfs) as [Hoff Hslots].
  split; rewrite ?Hoff, ?Hslots, ?Hc, ?Hs; try done. lia.
Qed.

Lemma distinct_offsets_apart b d o1 o2 :
  disk_inv b d → o1 ∈ offsets d → o2 ∈ offsets d → o1 ≠ o2 →
  o1 + BUSTUB_PAGE_SIZE ≤ o2 ∨ o2 + BUSTUB_PAGE_SIZE ≤ o1.
Proof.
  intros HI H1 H2 Hne.
  destruct (inv_aligned b d HI o1 H1) as (k1 & Hk1 & ->).
  destruct (inv_aligned b d HI o2 H2) as (k2 & Hk2 & ->).
  rewrite page_size_eq in *. lia.
Qed.

Lemma pages_offsets_distinct b d p q o1 o2 :
  disk_inv b d → p ≠ q → pages_ d !! p = Some o1 → pages_ d !! q = Some o2 → o1 ≠ o2.
Proof.
  intros HI Hne Hp Hq ->.
  pose proof (inv_distinct b d HI) as Hnd. unfold offsets in Hnd.
  apply NoDup_app in Hnd as (Hnd & _ & _).
  assert (Hin1 : (p, o2) ∈ map_to_list (pages_ d)) by (by apply elem_of_map_to_list).
  assert (Hin2 : (q, o2) ∈ map_to_list (pages_ d)) by (by apply elem_of_map_to_list).
  apply list_elem_of_lookup in Hin1 as [i Hi]. apply list_elem_of_lookup in Hin2 as [j Hj].
  assert (i = j).
  { apply (NoDup_lookup _ i j o2 Hnd); rewrite list_lookup_fmap; [by rewrite Hi|by rewrite Hj]. }
  subst j. rewrite Hi in Hj. by injection Hj.
Qed.

Lemma alloc_apart b d o oq q :
  alloc_inv b o d → pages_ d !! q = Some oq →
  o + BUSTUB_PAGE_SIZE ≤ oq ∨ oq + BUSTUB_PAGE_SIZE ≤ o.
Proof.
  intros [Hnd Hal Hcap Hsz [Hb1 Hb2] Hsm] Hq.
  pose proof (page_offset_in d q oq Hq) as Hin.
  apply NoDup_cons in Hnd as [Hnin _].
  assert (o ≠ oq) by (intros ->; done).
  destruct (Hal o (list_elem_of_here _ _)) as (k1 & Hk1 & ->).
  destruct (Hal oq ltac:(by right)) as (k2 & Hk2 & ->).
  rewrite page_size_eq in *. lia.
Qed.

(** What [WritePage] does. *)
Lemma WritePage_spec b d p data :
  disk_inv b d → (2 * (b + 1) + 1) * BUSTUB_PAGE_SIZE < 2 ^ 31 →
  let d' := WritePage p data d in
  disk_inv (b + 1) d' ∧
  ∃ o, pages_ d' = <[p := o]> (pages_ d) ∧
       (∀ o', pages_ d !! p = Some o' → o = o') ∧
       (length data = Z.to_nat BUSTUB_PAGE_SIZE → read_at o d' = data) ∧
       (∀ q oq, q ≠ p → pages_ d !! q = Some oq → read_at oq d' = read_at oq d) ∧
       num_writes_ d' = num_writes_ d + 1 ∧ num_deletes_ d' = num_deletes_ d.
Proof.
  intros HI Hfit d'. subst d'. unfold WritePage, offset_of.
  destruct (pages_ d !! p) as [o|] eqn:Hp.
  - pose proof (page_offset_in d p o Hp) as Hin.
    destruct (offset_in_file b d o HI Hin) as [Ho0 Ho1].
    split.
    { apply (disk_inv_same b (b + 1) d); simpl; try done; try lia.
      apply insert_id. done. }
    exists o. simpl. split; [done|]. split; [by intros o' [=]|]. split.
    { intros Hlen. rewrite <- (read_at_write_at_same o data d Hlen Ho0) at 2. same_file. }
    split; [|done].
    intros q oq Hq Hoq.
    pose proof (pages_offsets_distinct b d p q o oq HI ltac:(done) Hp Hoq) as Hne.
    pose proof (page_offset_in d q oq Hoq) as Hinq.
    destruct (offset_in_file b d oq HI Hinq) as [Hq0 Hq1].
    pose proof (distinct_offsets_apart b d oq o HI Hinq Hin ltac:(done)) as Hap.
    rewrite <- (read_at_write_at_other oq o data d Hap Hq1). same_file.
  - destruct (AllocatePage_inv b d HI Hfit)
      as (o & d1 & -> & HA & Hpg & Hnw & Hnd & Hsz & Hrd & _).
    destruct (alloc_in_file (b + 1) d1 o HA) as [Ho0 Ho1].
    split.
    { apply (alloc_inv_record (b + 1) o d1 _ p HA); simpl; try done; try lia.
      by rewrite Hpg. }
    exists o. simpl. rewrite Hpg. split; [done|]. split; [done|]. split.
    { intros Hlen. rewrite <- (read_at_write_at_same o data d1 Hlen Ho0) at 2. same_file. }
    split; [|by rewrite Hnw, Hnd].
    intros q oq Hq Hoq.
    pose proof (page_offset_in d q oq Hoq) as Hinq.
    destruct (offset_in_file b d oq HI Hinq) as [Hq0 Hq1].
    rewrite <- Hpg in Hoq.
    pose proof (alloc_apart (b + 1) d1 o oq q HA Hoq) as Hap.
    rewrite <- (Hrd oq Hq1).
    assert (Hap' : oq + BUSTUB_PAGE_SIZE ≤ o ∨ o + BUSTUB_PAGE_SIZE ≤ oq)
      by (destruct Hap; [by right|by left]).
    rewrite <- (read_at_write_at_other oq o data d1 Hap' ltac:(lia)). same_file.
Qed.

(** What [ReadPage] does. *)
Lemma ReadPage_spec b d p buf :
  disk_inv b d → (2 * (b + 1) + 1) * BUSTUB_PAGE_SIZE < 2 ^ 31 →
  ∃ o d', ReadPage p buf d = (read_at o d', d') ∧
    disk_inv (b + 1) d' ∧
    pages_ d' = <[p := o]> (pages_ d) ∧
    (∀ o', pages_ d !! p = Some o' → o = o' ∧ read_at o d' = read_at o d) ∧
    (∀ q oq, pages_ d !! q = Some oq → read_at oq d' = read_at oq d) ∧
    (∀ fs x, pages_ d !! p = None → free_slots_ d = fs ++ [x] →
       o = x ∧ read_at o d' = read_at x d) ∧
    num_writes_ d' = num_writes_ d ∧ num_deletes_ d' = num_deletes_ d.
Proof.
  intros HI Hfit. unfold ReadPage, offset_of.
  assert (Hsmall : ∀ d1, db_size_ d1 = (page_capacity_ d1 + 1) * BUSTUB_PAGE_SIZE →
            0 < page_capacity_ d1 ≤ 2 * (b + 1) → GetFileSize d1 = db_size_ d1).
  { intros d1 E Hc. unfold GetFileSize. apply to_int_small. rewrite E.
    rewrite page_size_eq in *. change (2 ^ 31) with 2147483648 in *. lia. }
  destruct (pages_ d !! p) as [o|] eqn:Hp.
  - pose proof (page_offset_in d p o Hp) as Hin.
    destruct (offset_in_file b d o HI Hin) as [Ho0 Ho1].
    destruct HI as [Hnd Hal Hcap Hsz [Hb1 Hb2] Hsm].
    pose proof (slots_nonneg d) as Hs0.
    rewrite (Hsmall d Hsz) by lia.
    pose proof page_size_eq as EP.
    destruct (db_size_ d <? 0) eqn:E1; [apply Z.ltb_lt in E1; lia|].
    destruct (db_size_ d <? o) eqn:E2; [apply Z.ltb_lt in E2; lia|].
    exists o, (with_pages (<[p := o]> (pages_ d)) d).
    assert (HI : disk_inv b d) by (by split).
    split.
    { rewrite (read_at_same o d (with_pages (<[p := o]> (pages_ d)) d));
        [reflexivity|reflexivity|intros; reflexivity]. }
    split.
    { apply (disk_inv_same b (b + 1) d); simpl; try done; try lia.
      apply insert_id. done. }
    split; [done|]. split; [intros o' [= <-]; split; [done|same_file]|].
    split; [intros q oq _; same_file|]. split; [|done].
    intros fs x Hpn. done.
  - destruct (AllocatePage_inv b d HI Hfit)
      as (o & d1 & -> & HA & Hpg & Hnw & Hnd & Hsz & Hrd & Hfree).
    destruct (alloc_in_file (b + 1) d1 o HA) as [Ho0 Ho1].
    pose proof HA as [Hnd' Hal' Hcap' Hsz' [Hb1' Hb2'] Hsm'].
    pose proof (slots_nonneg d1) as Hs0.
    rewrite (Hsmall d1 Hsz') by lia.
    pose proof page_size_eq as EP.
    destruct (db_size_ d1 <? 0) eqn:E1; [apply Z.ltb_lt in E1; lia|].
    destruct (db_size_ d1 <? o) eqn:E2; [apply Z.ltb_lt in E2; lia|].
    exists o, (with_pages (<[p := o]> (pages_ d1)) d1).
    split.
    { rewrite (read_at_same o d1 (with_pages (<[p := o]> (pages_ d1)) d1));
        [reflexivity|reflexivity|intros; reflexivity]. }
    split.
    { apply (alloc_inv_record (b + 1) o d1 _ p HA); simpl; try done. by rewrite Hpg. }
    simpl. rewrite Hpg. split; [done|]. split; [done|]. split.
    { intros q oq Hoq. pose proof (page_offset_in d q oq Hoq) as Hinq.
      destruct (offset_in_file b d oq HI Hinq) as [Hq0 Hq1].
      rewrite <- (Hrd oq Hq1). same_file. }
    split; [|done].
    intros fs x _ Hfs. destruct (Hfree fs x Hfs) as [-> ->]. split; [done|same_file].
Qed.

(** What [DeletePage] does. *)
Lemma DeletePage_spec b d p :
  disk_inv b d →
  let d' := DeletePage p d in
  disk_inv b d' ∧ pages_ d' = delete p (pages_ d) ∧
  (∀ x, read_at x d' = read_at x d) ∧
  (∀ o, pages_ d !! p = Some o → free_slots_ d' = free_slots_ d ++ [o]) ∧
  (pages_ d !! p = None → d' = d) ∧
  num_writes_ d' = num_writes_ d ∧
  num_deletes_ d' = num_deletes_ d + (if pages_ d !! p is Some _ then 1 else 0).
Proof.
  intros HI d'. subst d'. unfold DeletePage.
  destruct (pages_ d !! p) as [o|] eqn:Hp.
  - cbv zeta. split.
    { destruct HI as [Hnd Hal Hcap Hsz [Hb1 Hb2] Hsm].
      match goal with |- disk_inv _ ?t => set (d' := t) end.
      assert (Hperm : offsets d' ≡ₚ offsets d).
      { unfold offsets. simpl.
        rewrite <- (map_to_list_delete (pages_ d) p o Hp). simpl.
        rewrite app_assoc. rewrite <- Permutation_cons_append. done. }
      assert (Hslots : slots d' = slots d).
      { unfold slots. simpl. rewrite map_size_delete, Hp, length_app. simpl.
        assert (size (pages_ d) ≠ 0%nat).
        { intros E. apply map_size_empty_iff in E. rewrite E in Hp. by rewrite lookup_empty in Hp. }
        lia. }
      assert (Hc' : page_capacity_ d' = page_capacity_ d) by done.
      assert (Hs' : db_size_ d' = db_size_ d) by done.
      clearbody d'.
      split; rewrite ?Hperm, ?Hslots, ?Hc', ?Hs'; try done.
      intros x Hx. rewrite Hperm in Hx. by apply Hal. }
    simpl. split; [done|]. split; [intros x; same_file|]. split; [by intros o' [= <-]|].
    split; [done|]. by split.
  - split; [done|]. split; [by rewrite delete_id|]. split; [done|].
    split; [done|]. split; [done|]. split; [done|]. lia.
Qed.

Lemma run_op_inv b d op :
  disk_inv b d → (2 * (b + 1) + 1) * BUSTUB_PAGE_SIZE < 2 ^ 31 →
  disk_inv (b + 1) (run_op op d).
Proof.
  intros HI Hfit. destruct op as [p data|p|p]; simpl.
  - by destruct (WritePage_spec b d p data HI Hfit) as [H _].
  - destruct (ReadPage_spec b d p [] HI Hfit) as (o & d' & -> & H & _). done.
  - destruct (DeletePage_spec b d p HI) as [H _].
    apply (disk_inv_same b (b + 1) _ _ H); try done. lia.
Qed.

Lemma run_ops_inv ops : ∀ b d,
  disk_inv b d → (2 * (b + Z.of_nat (length ops)) + 1) * BUSTUB_PAGE_SIZE < 2 ^ 31 →
  disk_inv (b + Z.of_nat (length ops)) (run_ops ops d).
Proof.
  induction ops as [|op ops IH]; intros b d HI Hfit; simpl.
  - replace (b + Z.of_nat 0) with b by lia. done.
  - replace (b + Z.of_nat (S (length ops))) with (b + 1 + Z.of_nat (length ops)) by lia.
    apply IH.
    + apply run_op_inv; [done|]. rewrite page_size_eq in *. simpl length in Hfit. lia.
    + simpl length in Hfit. replace (b + 1 + Z.of_nat (length ops))
        with (b + Z.of_nat (S (length ops))) by lia. done.
Qed.

Lemma new_inv capacity old :
  1 ≤ capacity → (2 * capacity + 1) * BUSTUB_PAGE_SIZE < 2 ^ 31 →
  disk_inv capacity (new capacity old).
Proof.
  intros Hc Hfit. pose proof page_size_eq as EP. rewrite EP in *.
  change (2 ^ 31) with 2147483648 in *.
  assert (E : size_mul (size_add capacity 1) 4096 = (capacity + 1) * 4096).
  { rewrite size_add_exact; [|lia|lia|change (2 ^ 31) with 2147483648; lia].
    apply size_mul_exact; [lia|lia|change (2 ^ 31) with 2147483648; lia]. }
  unfold new. rewrite EP, E. split; simpl.
  - unfold offsets. simpl. rewrite map_to_list_empty. simpl. constructor.
  - intros o Ho. unfold offsets in Ho. simpl in Ho. rewrite map_to_list_empty in Ho.
    by apply elem_of_nil in Ho.
  - unfold slots. simpl. rewrite map_size_empty. simpl. lia.
  - by rewrite EP.
  - unfold slots. simpl. rewrite map_size_empty. simpl. lia.
  - rewrite EP. change (2 ^ 31) with 2147483648. lia.
Qed.

Lemma reachable_inv capacity old d :
  reachable capacity old d → ∃ b, disk_inv b d.
Proof.
  intros (ops & [Hc Hfit] & ->). exists (capacity + Z.of_nat (length ops)).
  apply run_ops_inv; [|done]. apply new_inv; [done|].
  rewrite page_size_eq in *. change (2 ^ 31) with 2147483648 in *. lia.
Qed.

Lemma run_ops_app ops1 ops2 d : run_ops (ops1 ++ ops2) d = run_ops ops2 (run_ops ops1 d).
Proof. unfold run_ops. by rewrite foldl_app. Qed.

(** An operation that leaves a page alone leaves its slot and its bytes. *)
Lemma run_op_keeps b d op p o :
  disk_inv b d → (2 * (b + 1) + 1) * BUSTUB_PAGE_SIZE < 2 ^ 31 →
  leaves p op → pages_ d !! p = Some o →
  pages_ (run_op op d) !! p = Some o ∧ read_at o (run_op op d) = read_at o d.
Proof.
  intros HI Hfit Hl Hp. destruct op as [q data|q|q]; simpl in *.
  - destruct (WritePage_spec b d q data HI Hfit) as (_ & o' & Hpg & _ & _ & Hoth & _).
    rewrite Hpg. rewrite lookup_insert_ne by done. split; [done|]. apply (Hoth p o); [congruence|done].
  - destruct (ReadPage_spec b d q [] HI Hfit) as (o' & d' & -> & _ & Hpg & Hsame & Hoth & _).
    simpl. rewrite Hpg. split; [|by apply (Hoth p o)].
    destruct (decide (q = p)) as [->|Hne].
    + destruct (Hsame o Hp) as [-> _]. by rewrite lookup_insert_eq.
    + by rewrite lookup_insert_ne.
  - destruct (DeletePage_spec b d q HI) as (_ & Hpg & Hrd & _).
    rewrite Hpg. rewrite lookup_delete_ne by done. split; [done|]. apply Hrd.
Qed.

Lemma run_ops_keeps ops : ∀ b d p o,
  disk_inv b d → (2 * (b + Z.of_nat (length ops)) + 1) * BUSTUB_PAGE_SIZE < 2 ^ 31 →
  Forall (leaves p) ops → pages_ d !! p = Some o →
  pages_ (run_ops ops d) !! p = Some o ∧ read_at o (run_ops ops d) = read_at o d.
Proof.
  induction ops as [|op ops IH]; intros b d p o HI Hfit Hl Hp; simpl; [done|].
  apply Forall_cons in Hl as [Hop Hl]. simpl length in Hfit.
  assert (Hfit1 : (2 * (b + 1) + 1) * BUSTUB_PAGE_SIZE < 2 ^ 31)
    by (rewrite page_size_eq in *; lia).
  destruct (run_op_keeps b d op p o HI Hfit1 Hop Hp) as [Hp1 Hr1].
  assert (HI1 : disk_inv (b + 1) (run_op op d)) by (by apply run_op_inv).
  assert (Hfit2 : (2 * (b + 1 + Z.of_nat (length ops)) + 1) * BUSTUB_PAGE_SIZE < 2 ^ 31).
  { replace (b + 1 + Z.of_nat (length ops)) with (b + Z.of_nat (S (length ops))) by lia.
    exact Hfit. }
  destruct (IH (b + 1) (run_op op d) p o HI1 Hfit2 Hl Hp1) as [Hp2 Hr2].
  split; [exact Hp2|]. rewrite Hr2. exact Hr1.
Qed.

Lemma fits_app capacity ops1 ops2 :
  fits capacity (ops1 ++ ops2) →
  fits capacity ops1 ∧
  (2 * (capacity + Z.of_nat (length ops1) + Z.of_nat (length ops2)) + 1) * BUSTUB_PAGE_SIZE
    < 2 ^ 31.
Proof.
  intros [Hc Hfit]. rewrite length_app in Hfit. rewrite page_size_eq in *.
  split; [split; [done|rewrite page_size_eq; lia]|lia].
Qed.

Lemma fits_inv capacity old ops :
  fits capacity ops →
  disk_inv (capacity + Z.of_nat (length ops)) (run_ops ops (new capacity old)).
Proof.
  intros [Hc Hfit]. apply run_ops_inv; [|done]. apply new_inv; [done|].
  rewrite page_size_eq in *. change (2 ^ 31) with 2147483648 in *. lia.
Qed.

(** X12: the layout of the database file.  In every state the manager
    reaches while the file stays below 2 GiB, the slots of the pages and
    the freed slots are distinct multiples of the page size inside the
    file: no two pages overlap, no page sits in a freed slot, fewer slots
    are handed out than the capacity, and the file holds one page more than
    the capacity. *)
Theorem disk_slots_disjoint capacity old d :
  reachable capacity old d →
  NoDup (offsets d) ∧
  (∀ o, o ∈ offsets d →
     ∃ k, 0 ≤ k < slots d ∧ o = k * BUSTUB_PAGE_SIZE ∧
          o + BUSTUB_PAGE_SIZE ≤ db_size_ d) ∧
  (∀ p q o1 o2, p ≠ q → pages_ d !! p = Some o1 → pages_ d !! q = Some o2 →
     o1 + BUSTUB_PAGE_SIZE ≤ o2 ∨ o2 + BUSTUB_PAGE_SIZE ≤ o1) ∧
  (∀ p o, pages_ d !! p = Some o → o ∉ free_slots_ d) ∧
  slots d < page_capacity_ d ∧
  db_size_ d = (page_capacity_ d + 1) * BUSTUB_PAGE_SIZE.
Proof.
  intros Hr. destruct (reachable_inv capacity old d Hr) as [b HI].
  split; [apply (inv_distinct b d HI)|]. split; [|split; [|split]].
  - intros o Ho. destruct (inv_aligned b d HI o Ho) as (k & Hk & E).
    exists k. split; [done|]. split; [done|]. apply (offset_in_file b d o HI Ho).
  - intros p q o1 o2 Hne H1 H2.
    apply (distinct_offsets_apart b d o1 o2 HI);
      [by apply (page_offset_in d p)|by apply (page_offset_in d q)|].
    by apply (pages_offsets_distinct b d p q o1 o2).
  - intros p o Hp Hin. pose proof (inv_distinct b d HI) as Hnd. unfold offsets in Hnd.
    apply NoDup_app in Hnd as (_ & Hdis & _). apply (Hdis o); [|done].
    apply list_elem_of_fmap. exists (p, o). split; [done|]. by apply elem_of_map_to_list.
  - split; [apply (inv_capacity b d HI)|apply (inv_size b d HI)].
Qed.

Lemma disk_slots_disjoint_witness :
  let d := run_ops sample_ops (new 16 []) in
  NoDup (offsets d) ∧
  (∀ o, o ∈ offsets d →
     ∃ k, 0 ≤ k < slots d ∧ o = k * BUSTUB_PAGE_SIZE ∧
          o + BUSTUB_PAGE_SIZE ≤ db_size_ d) ∧
  (∀ p q o1 o2, p ≠ q → pages_ d !! p = Some o1 → pages_ d !! q = Some o2 →
     o1 + BUSTUB_PAGE_SIZE ≤ o2 ∨ o2 + BUSTUB_PAGE_SIZE ≤ o1) ∧
  (∀ p o, pages_ d !! p = Some o → o ∉ free_slots_ d) ∧
  slots d < page_capacity_ d ∧
  db_size_ d = (page_capacity_ d + 1) * BUSTUB_PAGE_SIZE.
Proof.
  intros d. apply (disk_slots_disjoint 16 [] d).
  exists sample_ops. split; [|done]. split; [lia|done].
Defined.

(** X13: what is written is read back.  While the file stays below 2 GiB,
    [ReadPage] of a page gives the bytes of the last [WritePage] to it,
    whatever was written, read or deleted under other page ids in between
    and however often the page itself was read. *)
Theorem disk_write_read_round_trip capacity old ops p data ops' buf :
  fits capacity (ops ++ OpWritePage p data :: ops' ++ [OpReadPage p]) →
  length data = Z.to_nat BUSTUB_PAGE_SIZE → Forall (leaves p) ops' →
  (ReadPage p buf (run_ops (ops ++ OpWritePage p data :: ops') (new capacity old))).1 = data.
Proof.
  intros Hfit Hlen Hl.
  destruct (fits_app _ _ _ Hfit) as [Hfit1 Hfit2].
  pose proof (fits_inv capacity old ops Hfit1) as HI.
  set (d := run_ops ops (new capacity old)) in *.
  set (b := capacity + Z.of_nat (length ops)) in *.
  simpl length in Hfit2. rewrite length_app in Hfit2. simpl length in Hfit2.
  assert (Hb1 : (2 * (b + 1) + 1) * BUSTUB_PAGE_SIZE < 2 ^ 31)
    by (rewrite page_size_eq in *; lia).
  destruct (WritePage_spec b d p data HI Hb1) as (HI1 & o & Hpg & _ & Hrd & _).
  specialize (Hrd Hlen).
  assert (Hp1 : pages_ (WritePage p data d) !! p = Some o)
    by (rewrite Hpg; apply lookup_insert_eq).
  destruct (run_ops_keeps ops' (b + 1) (WritePage p data d) p o HI1) as [Hp2 Hr2];
    [rewrite page_size_eq in *; lia|done|done|].
  pose proof (run_ops_inv ops' (b + 1) (WritePage p data d) HI1
                ltac:(rewrite page_size_eq in *; lia)) as HI2.
  rewrite run_ops_app. simpl. fold d.
  change (foldl (λ d op, run_op op d) (WritePage p data d) ops')
    with (run_ops ops' (WritePage p data d)).
  destruct (ReadPage_spec _ _ p buf HI2 ltac:(rewrite page_size_eq in *; lia))
    as (o' & d' & -> & _ & _ & Hsame & _).
  simpl. destruct (Hsame o Hp2) as [-> ->]. by rewrite Hr2.
Qed.

Lemma disk_write_read_round_trip_witness :
  (ReadPage 7 []
     (run_ops ([OpWritePage 3 (page_of 1)] ++
               OpWritePage 7 (page_of 5) :: [OpWritePage 3 (page_of 2); OpDeletePage 3])
              (new 16 []))).1 = page_of 5.
Proof.
  apply (disk_write_read_round_trip 16 [] [OpWritePage 3 (page_of 1)] 7 (page_of 5)
           [OpWritePage 3 (page_of 2); OpDeletePage 3] []).
  - split; [lia|done].
  - done.
  - repeat constructor; simpl; lia.
Defined.

(** X14: a freed slot keeps its bytes.  [DeletePage] only puts the slot of
    the page on the free list, and the next page id that needs a slot gets
    the one freed last: while the file stays below 2 GiB, reading a page id
    the manager does not hold right after [DeletePage(p)] gives the bytes
    page [p] had, and the page id takes over the slot of [p]. *)
Theorem disk_deleted_slot_is_reused capacity old ops p q o buf :
  fits capacity (ops ++ [OpDeletePage p; OpReadPage q]) →
  let d := run_ops ops (new capacity old) in
  pages_ d !! p = Some o → (q = p ∨ pages_ d !! q = None) →
  (ReadPage q buf (DeletePage p d)).1 = (ReadPage p buf d).1 ∧
  pages_ (ReadPage q buf (DeletePage p d)).2 !! q = Some o.
Proof.
  intros Hfit d Hp Hq.
  destruct (fits_app _ _ _ Hfit) as [Hfit1 Hfit2].
  pose proof (fits_inv capacity old ops Hfit1) as HI. fold d in HI.
  set (b := capacity + Z.of_nat (length ops)) in *. simpl length in Hfit2.
  assert (Hb1 : (2 * (b + 1) + 1) * BUSTUB_PAGE_SIZE < 2 ^ 31)
    by (rewrite page_size_eq in *; lia).
  destruct (DeletePage_spec b d p HI) as (HI1 & Hpg & Hrd & Hfree & _).
  specialize (Hfree o Hp).
  assert (Hqn : pages_ (DeletePage p d) !! q = None).
  { rewrite Hpg. destruct Hq as [-> | Hq]; [apply lookup_delete_eq|].
    apply lookup_delete_None. by right. }
  destruct (ReadPage_spec b (DeletePage p d) q buf HI1 Hb1)
    as (o1 & d1 & -> & _ & Hpg1 & _ & _ & Hnew & _).
  destruct (Hnew _ _ Hqn Hfree) as [-> Hr1].
  destruct (ReadPage_spec b d p buf HI Hb1) as (o2 & d2 & -> & _ & _ & Hsame & _).
  destruct (Hsame o Hp) as [-> Hr2].
  simpl. split.
  - by rewrite Hr1, Hrd, Hr2.
  - rewrite Hpg1. apply lookup_insert_eq.
Qed.

Lemma disk_deleted_slot_is_reused_witness :
  let d := run_ops [OpWritePage 7 (page_of 1); OpWritePage 3 (page_of 2)] (new 16 []) in
  (ReadPage 8 [] (DeletePage 3 d)).1 = (ReadPage 3 [] d).1 ∧
  pages_ (ReadPage 8 [] (DeletePage 3 d)).2 !! 8 = Some 4096.
Proof.
  intros d.
  apply (disk_deleted_slot_is_reused 16 []
           [OpWritePage 7 (page_of 1); OpWritePage 3 (page_of 2)] 3 8 4096 []).
  - split; [lia|done].
  - vm_compute. reflexivity.
  - right. vm_compute. reflexivity.
Defined.

End DiskBehaviour.
(** ** The pages of the tree: searching, opening and closing slots *)

Module PageBehaviour.
Import BPage BTree BTreeSpec BTreeFacts BTreeSizes.

(** *** Leaf pages *)

Lemma leaf_set_slot_fields i k v p :
  l_size_ (leaf_set_slot i k v p) = l_size_ p ∧
  l_max_size_ (leaf_set_slot i k v p) = l_max_size_ p ∧
  l_next_page_id_ (leaf_set_slot i k v p) = l_next_page_id_ p ∧
  length (l_key_array_ (leaf_set_slot i k v p)) = length (l_key_array_ p) ∧
  length (l_rid_array_ (leaf_set_slot i k v p)) = length (l_rid_array_ p).
Proof. unfold leaf_set_slot. simpl. by rewrite !length_aset. Qed.

(** The shifting loop moves the slots [insert_pos .. size - 1] one up. *)
Lemma shift_right_spec insert_pos p :
  0 ≤ insert_pos ≤ l_size_ p →
  l_size_ p < Z.of_nat (length (l_key_array_ p)) →
  l_size_ p < Z.of_nat (length (l_rid_array_ p)) →
  let q := Leaf.shift_right insert_pos p in
  l_size_ q = l_size_ p ∧ l_max_size_ q = l_max_size_ p ∧
  l_next_page_id_ q = l_next_page_id_ p ∧
  length (l_key_array_ q) = length (l_key_array_ p) ∧
  length (l_rid_array_ q) = length (l_rid_array_ p) ∧
  ∀ j, (Leaf.KeyAt j q, Leaf.ValueAt j q) =
       if decide (insert_pos < j ≤ l_size_ p)
       then (Leaf.KeyAt (j - 1) p, Leaf.ValueAt (j - 1) p)
       else (Leaf.KeyAt j p, Leaf.ValueAt j p).
Proof.
  intros Hpos Hk Hr q. subst q. unfold Leaf.shift_right, Leaf.GetSize.
  pose proof (for_down_ind (λ i q,
    l_size_ q = l_size_ p ∧ l_max_size_ q = l_max_size_ p ∧
    l_next_page_id_ q = l_next_page_id_ p ∧
    length (l_key_array_ q) = length (l_key_array_ p) ∧
    length (l_rid_array_ q) = length (l_rid_array_ p) ∧
    ∀ j, (Leaf.KeyAt j q, Leaf.ValueAt j q) =
         if decide (i < j ≤ l_size_ p)
         then (Leaf.KeyAt (j - 1) p, Leaf.ValueAt (j - 1) p)
         else (Leaf.KeyAt j p, Leaf.ValueAt j p))
    (l_size_ p - 1) insert_pos
    (λ i p, leaf_set_slot (i + 1) (aget (l_key_array_ p) i) (aget (l_rid_array_ p) i) p) p)
    as Hind.
  cbv beta in Hind. apply Hind; clear Hind.
  - lia.
  - repeat split; try done. intros j. by rewrite decide_False by lia.
  - intros i r Hi (Hr1 & Hr2 & Hr3 & Hr4 & Hr5 & Hr6).
    destruct (leaf_set_slot_fields (i + 1) (aget (l_key_array_ r) i) (aget (l_rid_array_ r) i) r)
      as (-> & -> & -> & -> & ->).
    repeat split; try done. intros j.
    rewrite leaf_set_slot_get by lia.
    destruct (decide (j = i + 1)) as [->|Hne].
    + rewrite decide_True by lia. replace (i + 1 - 1) with i by lia.
      change (aget (l_key_array_ r) i, aget (l_rid_array_ r) i)
        with (Leaf.KeyAt i r, Leaf.ValueAt i r).
      rewrite Hr6. by rewrite decide_False by lia.
    + rewrite Hr6. destruct (decide (i + 1 < j ≤ l_size_ p)).
      * by rewrite decide_True by lia.
      * by rewrite decide_False by lia.
Qed.

Lemma emplace_lookup {A} (l : list A) (pos : nat) x (j : nat) :
  (pos ≤ length l)%nat →
  (take pos l ++ x :: drop pos l) !! j =
  if decide (j < pos)%nat then l !! j
  else if decide (j = pos) then Some x else l !! (j - 1)%nat.
Proof.
  intros Hpos. destruct (decide (j < pos)%nat).
  - rewrite lookup_app_l by (rewrite length_take; lia). by rewrite lookup_take_lt.
  - rewrite lookup_app_r by (rewrite length_take; lia). rewrite length_take.
    replace (pos `min` length l)%nat with pos by lia.
    destruct (decide (j = pos)) as [->|Hne].
    + by replace (pos - pos)%nat with 0%nat by lia.
    + replace (j - pos)%nat with (S (j - pos - 1)) by lia. simpl.
      rewrite lookup_drop. f_equal. lia.
Qed.

(** [InsertAt] puts the entry at [insert_pos] and keeps the others in order. *)
Lemma InsertAt_spec insert_pos key value p :
  0 ≤ insert_pos ≤ l_size_ p →
  l_size_ p < Z.of_nat (length (l_key_array_ p)) →
  l_size_ p < Z.of_nat (length (l_rid_array_ p)) →
  let p' := Leaf.InsertAt insert_pos key value p in
  l_size_ p' = l_size_ p + 1 ∧ l_max_size_ p' = l_max_size_ p ∧
  l_next_page_id_ p' = l_next_page_id_ p ∧
  length (l_key_array_ p') = length (l_key_array_ p) ∧
  length (l_rid_array_ p') = length (l_rid_array_ p) ∧
  Leaf.entries p' = emplace insert_pos (key, value) (Leaf.entries p).
Proof.
  intros Hpos Hk Hr p'.
  destruct (shift_right_spec insert_pos p Hpos Hk Hr) as (Q1 & Q2 & Q3 & Q4 & Q5 & Q6).
  subst p'. unfold Leaf.InsertAt. cbv zeta.
  set (q := Leaf.shift_right insert_pos p) in *.
  destruct (leaf_set_slot_fields insert_pos key value q) as (S1 & S2 & S3 & S4 & S5).
  set (r := leaf_set_slot insert_pos key value q) in *.
  assert (Hr6 : ∀ j, (Leaf.KeyAt j r, Leaf.ValueAt j r) =
            if decide (j = insert_pos) then (key, value)
            else if decide (insert_pos < j ≤ l_size_ p)
                 then (Leaf.KeyAt (j - 1) p, Leaf.ValueAt (j - 1) p)
                 else (Leaf.KeyAt j p, Leaf.ValueAt j p)).
  { intros j. subst r. rewrite leaf_set_slot_get by lia.
    destruct (decide (j = insert_pos)); [done|]. apply Q6. }
  clearbody r q. simpl. repeat split; try lia; try congruence.
  pose proof (length_entries p ltac:(lia) ltac:(lia) ltac:(lia)) as Hlen.
  apply list_eq. intros j. unfold emplace.
  rewrite emplace_lookup by lia.
  destruct (decide (j < Z.to_nat (l_size_ p + 1))%nat) as [Hj|Hj].
  - pose proof (entries_lookup (leaf_set_size (l_size_ r + 1) r) (Z.of_nat j)) as He.
    simpl in He. rewrite Nat2Z.id in He. rewrite He by lia.
    change (Leaf.KeyAt (Z.of_nat j) (leaf_set_size (l_size_ r + 1) r))
      with (Leaf.KeyAt (Z.of_nat j) r).
    change (Leaf.ValueAt (Z.of_nat j) (leaf_set_size (l_size_ r + 1) r))
      with (Leaf.ValueAt (Z.of_nat j) r).
    rewrite Hr6.
    destruct (decide (j < Z.to_nat insert_pos)%nat).
    + rewrite decide_False by lia. rewrite decide_False by lia.
      pose proof (entries_lookup p (Z.of_nat j)) as H. rewrite Nat2Z.id in H.
      rewrite H by lia. done.
    + destruct (decide (j = Z.to_nat insert_pos)) as [->|Hne].
      * by rewrite decide_True by lia.
      * rewrite decide_False by lia. rewrite decide_True by lia.
        pose proof (entries_lookup p (Z.of_nat j - 1)) as H.
        replace (Z.to_nat (Z.of_nat j - 1)) with (j - 1)%nat in H by lia.
        rewrite H by lia. done.
  - rewrite lookup_ge_None_2.
    2:{ rewrite (length_entries (leaf_set_size (l_size_ r + 1) r)); simpl; lia. }
    rewrite decide_False by lia. rewrite decide_False by lia.
    symmetry. apply lookup_ge_None_2. lia.
Qed.

(** [RemoveAt] closes slot [index]. *)
Lemma RemoveAt_spec index p :
  0 ≤ index < l_size_ p →
  l_size_ p ≤ Z.of_nat (length (l_key_array_ p)) →
  l_size_ p ≤ Z.of_nat (length (l_rid_array_ p)) →
  let p' := Leaf.RemoveAt index p in
  l_size_ p' = l_size_ p - 1 ∧ l_max_size_ p' = l_max_size_ p ∧
  l_next_page_id_ p' = l_next_page_id_ p ∧
  length (l_key_array_ p') = length (l_key_array_ p) ∧
  length (l_rid_array_ p') = length (l_rid_array_ p) ∧
  Leaf.entries p' = delete (Z.to_nat index) (Leaf.entries p).
Proof.
  intros Hidx Hk Hr p'. subst p'. unfold Leaf.RemoveAt. cbv zeta.
  pose proof (for_up_ind (λ i q,
    l_size_ q = l_size_ p ∧ l_max_size_ q = l_max_size_ p ∧
    l_next_page_id_ q = l_next_page_id_ p ∧
    length (l_key_array_ q) = length (l_key_array_ p) ∧
    length (l_rid_array_ q) = length (l_rid_array_ p) ∧
    ∀ j, (Leaf.KeyAt j q, Leaf.ValueAt j q) =
         if decide (index ≤ j < i)
         then (Leaf.KeyAt (j + 1) p, Leaf.ValueAt (j + 1) p)
         else (Leaf.KeyAt j p, Leaf.ValueAt j p))
    index (l_size_ p - 1)
    (λ i p, leaf_set_slot i (aget (l_key_array_ p) (i + 1)) (aget (l_rid_array_ p) (i + 1)) p)
    p) as Hind.
  cbv beta in Hind.
  destruct Hind as (Q1 & Q2 & Q3 & Q4 & Q5 & Q6).
  - lia.
  - repeat split; try done. intros j. by rewrite decide_False by lia.
  - intros i r Hi (Hr1 & Hr2 & Hr3 & Hr4 & Hr5 & Hr6).
    destruct (leaf_set_slot_fields i (aget (l_key_array_ r) (i + 1))
                (aget (l_rid_array_ r) (i + 1)) r) as (-> & -> & -> & -> & ->).
    repeat split; try done. intros j.
    rewrite leaf_set_slot_get by lia.
    destruct (decide (j = i)) as [->|Hne].
    + rewrite decide_True by lia.
      change (aget (l_key_array_ r) (i + 1), aget (l_rid_array_ r) (i + 1))
        with (Leaf.KeyAt (i + 1) r, Leaf.ValueAt (i + 1) r).
      rewrite Hr6. by rewrite decide_False by lia.
    + rewrite Hr6. destruct (decide (index ≤ j < i)).
      * by rewrite decide_True by lia.
      * by rewrite decide_False by lia.
  - revert Q1 Q2 Q3 Q4 Q5 Q6.
    generalize (for_up index (l_size_ p - 1)
      (λ i p, leaf_set_slot i (aget (l_key_array_ p) (i + 1)) (aget (l_rid_array_ p) (i + 1)) p)
      p) as q.
    intros q Q1 Q2 Q3 Q4 Q5 Q6. simpl. repeat split; try lia; try congruence.
    pose proof (length_entries p ltac:(lia) ltac:(lia) ltac:(lia)) as Hlen.
    apply list_eq. intros j.
    destruct (decide (j < Z.to_nat (l_size_ p - 1))%nat) as [Hj|Hj].
    + pose proof (entries_lookup (leaf_set_size (l_size_ q - 1) q) (Z.of_nat j)) as He.
      simpl in He. rewrite Nat2Z.id in He. rewrite He by lia.
      change (Leaf.KeyAt (Z.of_nat j) (leaf_set_size (l_size_ q - 1) q))
        with (Leaf.KeyAt (Z.of_nat j) q).
      change (Leaf.ValueAt (Z.of_nat j) (leaf_set_size (l_size_ q - 1) q))
        with (Leaf.ValueAt (Z.of_nat j) q).
      rewrite Q6.
      destruct (decide (j < Z.to_nat index)%nat).
      * rewrite decide_False by lia. rewrite list_lookup_delete_lt by done.
        pose proof (entries_lookup p (Z.of_nat j)) as H. rewrite Nat2Z.id in H.
        rewrite H by lia. done.
      * rewrite decide_True by lia. rewrite list_lookup_delete_ge by lia.
        pose proof (entries_lookup p (Z.of_nat j + 1)) as H.
        replace (Z.to_nat (Z.of_nat j + 1)) with (S j) in H by lia.
        rewrite H by lia. done.
    + rewrite lookup_ge_None_2.
      2:{ rewrite (length_entries (leaf_set_size (l_size_ q - 1) q)); simpl; lia. }
      symmetry. apply lookup_ge_None_2. rewrite length_delete; [lia|].
      apply lookup_lt_is_Some. lia.
Qed.

Lemma leaf_ok_intro p :
  0 ≤ l_size_ p ≤ LEAF_PAGE_SLOT_CNT →
  length (l_key_array_ p) = Z.to_nat LEAF_PAGE_SLOT_CNT →
  length (l_rid_array_ p) = Z.to_nat LEAF_PAGE_SLOT_CNT →
  ascending (leaf_keys p) = true → leaf_ok p = true.
Proof.
  intros Hs Hk Hr Ha. unfold leaf_ok.
  rewrite !andb_true_iff, !Z.leb_le, !bool_decide_eq_true. by repeat split; try lia.
Qed.

Lemma ascending_delete l i : ascending l = true → ascending (delete i l) = true.
Proof.
  intros Ha. apply ascending_intro. intros j a b Hj Hj'.
  destruct (decide (S j < i)%nat).
  - rewrite list_lookup_delete_lt in Hj by lia. rewrite list_lookup_delete_lt in Hj' by lia.
    apply (ascending_lookup l j (S j) a b); [done..|lia].
  - destruct (decide (j < i)%nat).
    + rewrite list_lookup_delete_lt in Hj by lia. rewrite list_lookup_delete_ge in Hj' by lia.
      apply (ascending_lookup l j (S (S j)) a b); [done..|lia].
    + rewrite list_lookup_delete_ge in Hj by lia. rewrite list_lookup_delete_ge in Hj' by lia.
      apply (ascending_lookup l (S j) (S (S j)) a b); [done..|lia].
Qed.

Lemma fmap_delete {A B} (f : A → B) (l : list A) i : f <$> delete i l = delete i (f <$> l).
Proof.
  revert i. induction l as [|x l IH]; intros [|i]; simpl; try done. by rewrite IH.
Qed.

Lemma delete_emplace {A} (l : list A) (pos : nat) x :
  (pos ≤ length l)%nat → delete pos (take pos l ++ x :: drop pos l) = l.
Proof.
  intros H. rewrite <- (take_drop pos l) at 3.
  assert (E : length (take pos l) = pos) by (rewrite length_take; lia).
  generalize dependent (take pos l). intros l1 E. subst pos.
  by rewrite delete_middle.
Qed.

Lemma filter_all {A} (P : A → Prop) `{∀ x, Decision (P x)} (l : list A) :
  Forall P l → filter P l = l.
Proof.
  induction 1 as [|x l Hx Hl IH]; [done|]. rewrite filter_cons_True by done. by rewrite IH.
Qed.

Lemma filter_none {A} (P : A → Prop) `{∀ x, Decision (P x)} (l : list A) :
  Forall (λ x, ¬ P x) l → filter P l = [].
Proof.
  induction 1 as [|x l Hx Hl IH]; [done|]. by rewrite filter_cons_False.
Qed.

Lemma leaf_keys_length p :
  leaf_ok p = true → length (leaf_keys p) = Z.to_nat (l_size_ p).
Proof.
  intros Hok. destruct (leaf_ok_inv p Hok) as (Hs & Hk & Hr & Ha).
  unfold leaf_keys. rewrite length_take. lia.
Qed.

(** X6: the binary search of a leaf.  On a leaf whose keys ascend,
    [FindFirstGreaterOrEqual] returns the number of keys below [key]: every
    slot before it holds a smaller key, every slot from it on a key that is
    at least [key], and [key] is in the leaf exactly when the slot it names
    is in use and holds [key]. *)
Theorem leaf_search_lower_bound p key :
  leaf_ok p = true →
  let pos := Leaf.FindFirstGreaterOrEqual key p in
  0 ≤ pos ≤ l_size_ p ∧
  pos = Z.of_nat (length (filter (λ k, k < key) (leaf_keys p))) ∧
  (∀ i, 0 ≤ i < pos → Leaf.KeyAt i p < key) ∧
  (∀ i, pos ≤ i < l_size_ p → key ≤ Leaf.KeyAt i p) ∧
  (key ∈ leaf_keys p ↔ pos < l_size_ p ∧ Leaf.KeyAt pos p = key).
Proof.
  intros Hok pos.
  destruct (FindFirstGreaterOrEqual_spec p key Hok) as (Hpos & Hlt & Hge). fold pos in Hpos, Hlt, Hge.
  destruct (leaf_ok_inv p Hok) as (Hs & Hk & Hr & Ha).
  split; [done|]. split; [|split; [done|split; [done|]]].
  - rewrite <- (take_drop (Z.to_nat pos) (leaf_keys p)), filter_app.
    rewrite filter_all, filter_none.
    + rewrite app_nil_r, length_take, leaf_keys_length by done. lia.
    + apply Forall_forall. intros k Hk'. apply list_elem_of_lookup in Hk' as [j Hj].
      rewrite lookup_drop in Hj.
      assert (Z.of_nat (Z.to_nat pos + j) < l_size_ p).
      { apply lookup_lt_Some in Hj. rewrite leaf_keys_length in Hj by done. lia. }
      pose proof (leaf_keys_lookup p (Z.of_nat (Z.to_nat pos + j))) as H'.
      rewrite Nat2Z.id in H'. rewrite H' in Hj by lia. injection Hj as <-.
      specialize (Hge (Z.of_nat (Z.to_nat pos + j))). lia.
    + apply Forall_forall. intros k Hk'. apply list_elem_of_lookup in Hk' as [j Hj].
      apply lookup_take_Some in Hj as [Hj Hjlt].
      pose proof (leaf_keys_lookup p (Z.of_nat j)) as H'.
      rewrite Nat2Z.id in H'. rewrite H' in Hj by lia. injection Hj as <-.
      apply Hlt. lia.
  - pose proof (leaf_key_test p key Hok) as Ht. cbv zeta in Ht. fold pos in Ht.
    rewrite <- Ht, andb_true_iff, Z.ltb_lt, Z.eqb_eq. done.
Qed.

Lemma leaf_search_lower_bound_witness :
  let p := sample_right_leaf in
  let pos := Leaf.FindFirstGreaterOrEqual 4 p in
  0 ≤ pos ≤ l_size_ p ∧
  pos = Z.of_nat (length (filter (λ k, k < 4) (leaf_keys p))) ∧
  (∀ i, 0 ≤ i < pos → Leaf.KeyAt i p < 4) ∧
  (∀ i, pos ≤ i < l_size_ p → 4 ≤ Leaf.KeyAt i p) ∧
  (4 ∈ leaf_keys p ↔ pos < l_size_ p ∧ Leaf.KeyAt pos p = 4).
Proof.
  apply (leaf_search_lower_bound sample_right_leaf 4). vm_compute. reflexivity.
Defined.

(** X7: [Insert] on a leaf.  On a leaf with ascending keys and a free slot,
    inserting a key the leaf does not hold puts the entry at the position
    the binary search names and keeps every other entry in order: the keys
    still ascend, the leaf holds the old entries and the new one, a search
    for the key now ends on it, and the capacity and the link to the next
    leaf are untouched. *)
Theorem leaf_insert_sorted p key value :
  leaf_ok p = true → l_size_ p < LEAF_PAGE_SLOT_CNT → key ∉ leaf_keys p →
  let p' := Leaf.Insert key value p in
  let pos := Leaf.FindFirstGreaterOrEqual key p in
  leaf_ok p' = true ∧
  Leaf.entries p' = take (Z.to_nat pos) (Leaf.entries p) ++
                    (key, value) :: drop (Z.to_nat pos) (Leaf.entries p) ∧
  (∀ e, e ∈ Leaf.entries p' ↔ e = (key, value) ∨ e ∈ Leaf.entries p) ∧
  Leaf.FindFirstGreaterOrEqual key p' = pos ∧
  Leaf.KeyAt pos p' = key ∧ Leaf.ValueAt pos p' = value ∧
  l_size_ p' = l_size_ p + 1 ∧ l_max_size_ p' = l_max_size_ p ∧
  l_next_page_id_ p' = l_next_page_id_ p.
Proof.
  intros Hok Hroom Hnew p' pos.
  destruct (leaf_ok_inv p Hok) as (Hs & Hk & Hr & Ha).
  destruct (FindFirstGreaterOrEqual_spec p key Hok) as (Hpos & Hlt & Hge).
  fold pos in Hpos, Hlt, Hge.
  destruct (InsertAt_spec pos key value p) as (I1 & I2 & I3 & I4 & I5 & I6); [lia..|].
  change (Leaf.InsertAt pos key value p) with p' in *.
  assert (Hok' : leaf_ok p' = true).
  { apply leaf_ok_intro; [lia|congruence|congruence|].
    rewrite <- (entries_keys p') by lia. rewrite I6.
    by apply emplace_sorted. }
  assert (Hin : ∀ e, e ∈ Leaf.entries p' ↔ e = (key, value) ∨ e ∈ Leaf.entries p).
  { intros e. rewrite I6. pose proof (emplace_perm pos (key, value) (Leaf.entries p)) as Hp.
    rewrite Hp. apply elem_of_cons. }
  assert (Hpos' : Leaf.FindFirstGreaterOrEqual key p' = pos ∧
                  Leaf.KeyAt pos p' = key ∧ Leaf.ValueAt pos p' = value).
  { pose proof (entries_lookup p' pos) as He. rewrite I6 in He. unfold emplace in He.
    pose proof (length_entries p ltac:(lia) ltac:(lia) ltac:(lia)) as Hlen.
    rewrite emplace_lookup in He by lia.
    rewrite decide_False in He by lia. rewrite decide_True in He by done.
    specialize (He ltac:(lia) ltac:(lia) ltac:(lia)). injection He as Hk' Hv'.
    split; [|by split].
    destruct (FindFirstGreaterOrEqual_spec p' key Hok') as (Gpos & Glt & Gge).
    set (pos' := Leaf.FindFirstGreaterOrEqual key p') in *.
    destruct (Z.lt_trichotomy pos' pos) as [Hc | [Hc | Hc]]; [|done|].
    - assert (Hkp : Leaf.KeyAt pos' p' = Leaf.KeyAt pos' p).
      { pose proof (entries_lookup p' pos') as He. rewrite I6 in He. unfold emplace in He.
        rewrite emplace_lookup in He by lia. rewrite decide_True in He by lia.
        rewrite (entries_lookup p pos') in He by lia.
        specialize (He ltac:(lia) ltac:(lia) ltac:(lia)). by injection He as -> _. }
      specialize (Gge pos' ltac:(lia)). specialize (Hlt pos' ltac:(lia)). lia.
    - specialize (Glt pos ltac:(lia)). lia. }
  destruct Hpos' as (P1 & P2 & P3).
  repeat split; try done. apply Hin. apply Hin.
Qed.

Lemma leaf_insert_sorted_witness :
  let p := sample_right_leaf in
  let p' := Leaf.Insert 9 109 p in
  let pos := Leaf.FindFirstGreaterOrEqual 9 p in
  leaf_ok p' = true ∧
  Leaf.entries p' = take (Z.to_nat pos) (Leaf.entries p) ++
                    (9, 109) :: drop (Z.to_nat pos) (Leaf.entries p) ∧
  (∀ e, e ∈ Leaf.entries p' ↔ e = (9, 109) ∨ e ∈ Leaf.entries p) ∧
  Leaf.FindFirstGreaterOrEqual 9 p' = pos ∧
  Leaf.KeyAt pos p' = 9 ∧ Leaf.ValueAt pos p' = 109 ∧
  l_size_ p' = l_size_ p + 1 ∧ l_max_size_ p' = l_max_size_ p ∧
  l_next_page_id_ p' = l_next_page_id_ p.
Proof.
  apply (leaf_insert_sorted sample_right_leaf 9 109).
  - vm_compute. reflexivity.
  - vm_compute. reflexivity.
  - apply (bool_decide_unpack _). vm_compute. exact I.
Defined.

(** X8: [RemoveAt] on a leaf, and the round trip with [Insert].  Removing
    the entry in a slot that is in use deletes just that entry and keeps the
    others in order, so the keys still ascend; removing the slot the search
    names for a key just inserted gives back the entries the leaf had. *)
Theorem leaf_remove_at p index :
  leaf_ok p = true → 0 ≤ index < l_size_ p →
  let p' := Leaf.RemoveAt index p in
  leaf_ok p' = true ∧
  Leaf.entries p' = delete (Z.to_nat index) (Leaf.entries p) ∧
  l_size_ p' = l_size_ p - 1 ∧ l_max_size_ p' = l_max_size_ p ∧
  l_next_page_id_ p' = l_next_page_id_ p ∧
  (∀ key value, l_size_ p < LEAF_PAGE_SLOT_CNT → key ∉ leaf_keys p →
     let q := Leaf.Insert key value p in
     Leaf.entries (Leaf.RemoveAt (Leaf.FindFirstGreaterOrEqual key q) q) = Leaf.entries p).
Proof.
  intros Hok Hidx p'.
  destruct (leaf_ok_inv p Hok) as (Hs & Hk & Hr & Ha).
  destruct (RemoveAt_spec index p) as (R1 & R2 & R3 & R4 & R5 & R6); [lia..|].
  fold p' in R1, R2, R3, R4, R5, R6.
  split.
  { apply leaf_ok_intro; [lia|congruence|congruence|].
    rewrite <- (entries_keys p') by lia. rewrite R6, fmap_delete.
    apply ascending_delete. by rewrite entries_keys by lia. }
  repeat (split; [done|]).
  intros key value Hroom Hnew q.
  pose proof (leaf_insert_sorted p key value Hok Hroom Hnew) as Hq. cbv zeta in Hq.
  destruct Hq as (Qok & Qe & _ & Qpos & _ & _ & Qs & _).
  fold q in Qok, Qe, Qpos, Qs. rewrite Qpos.
  destruct (FindFirstGreaterOrEqual_spec p key Hok) as (Hpos & _).
  destruct (leaf_ok_inv q Qok) as (Qs' & Qk & Qr & _).
  destruct (RemoveAt_spec (Leaf.FindFirstGreaterOrEqual key p) q) as (_ & _ & _ & _ & _ & ->);
    [lia..|].
  rewrite Qe. apply delete_emplace.
  rewrite (length_entries p) by lia. lia.
Qed.

Lemma leaf_remove_at_witness :
  let p := sample_right_leaf in
  let p' := Leaf.RemoveAt 1 p in
  leaf_ok p' = true ∧
  Leaf.entries p' = delete (Z.to_nat 1) (Leaf.entries p) ∧
  l_size_ p' = l_size_ p - 1 ∧ l_max_size_ p' = l_max_size_ p ∧
  l_next_page_id_ p' = l_next_page_id_ p ∧
  (∀ key value, l_size_ p < LEAF_PAGE_SLOT_CNT → key ∉ leaf_keys p →
     let q := Leaf.Insert key value p in
     Leaf.entries (Leaf.RemoveAt (Leaf.FindFirstGreaterOrEqual key q) q) = Leaf.entries p).
Proof.
  apply (leaf_remove_at sample_right_leaf 1).
  - vm_compute. reflexivity.
  - vm_compute. split; [discriminate|reflexivity].
Defined.

(** *** Internal pages *)

Lemma copy_slot_get dst src p j :
  0 ≤ dst < Z.of_nat (length (i_key_array_ p)) →
  0 ≤ dst < Z.of_nat (length (i_page_id_array_ p)) →
  (Internal.KeyAt j (Internal.copy_slot dst src p),
   Internal.ValueAt j (Internal.copy_slot dst src p)) =
  if decide (j = dst) then (Internal.KeyAt src p, Internal.ValueAt src p)
  else (Internal.KeyAt j p, Internal.ValueAt j p).
Proof.
  intros Hk Hv. unfold Internal.KeyAt, Internal.ValueAt, Internal.copy_slot. simpl.
  destruct (decide (j = dst)) as [->|Hne].
  - by rewrite !aget_aset_eq.
  - by rewrite !aget_aset_ne.
Qed.

Lemma copy_slot_lengths dst src p :
  i_size_ (Internal.copy_slot dst src p) = i_size_ p ∧
  i_max_size_ (Internal.copy_slot dst src p) = i_max_size_ p ∧
  length (i_key_array_ (Internal.copy_slot dst src p)) = length (i_key_array_ p) ∧
  length (i_page_id_array_ (Internal.copy_slot dst src p)) = length (i_page_id_array_ p).
Proof. unfold Internal.copy_slot. simpl. by rewrite !length_aset. Qed.

(** The loop [for (i = hi; i >= lo; --i) slot[i + 1] = slot[i]]. *)
Lemma shift_up_loop lo hi p :
  0 ≤ lo → lo ≤ hi + 1 →
  hi + 1 < Z.of_nat (length (i_key_array_ p)) →
  hi + 1 < Z.of_nat (length (i_page_id_array_ p)) →
  let q := for_down hi lo (λ i p, Internal.copy_slot (i + 1) i p) p in
  i_size_ q = i_size_ p ∧ i_max_size_ q = i_max_size_ p ∧
  length (i_key_array_ q) = length (i_key_array_ p) ∧
  length (i_page_id_array_ q) = length (i_page_id_array_ p) ∧
  ∀ j, (Internal.KeyAt j q, Internal.ValueAt j q) =
       if decide (lo < j ≤ hi + 1)
       then (Internal.KeyAt (j - 1) p, Internal.ValueAt (j - 1) p)
       else (Internal.KeyAt j p, Internal.ValueAt j p).
Proof.
  intros Hlo Hle Hk Hv q. subst q.
  pose proof (for_down_ind (λ i q,
    i_size_ q = i_size_ p ∧ i_max_size_ q = i_max_size_ p ∧
    length (i_key_array_ q) = length (i_key_array_ p) ∧
    length (i_page_id_array_ q) = length (i_page_id_array_ p) ∧
    ∀ j, (Internal.KeyAt j q, Internal.ValueAt j q) =
         if decide (i < j ≤ hi + 1)
         then (Internal.KeyAt (j - 1) p, Internal.ValueAt (j - 1) p)
         else (Internal.KeyAt j p, Internal.ValueAt j p))
    hi lo (λ i p, Internal.copy_slot (i + 1) i p) p) as Hind.
  cbv beta in Hind. apply Hind; clear Hind.
  - lia.
  - repeat split; try done. intros j. by rewrite decide_False by lia.
  - intros i r Hi (Hr1 & Hr2 & Hr3 & Hr4 & Hr5).
    destruct (copy_slot_lengths (i + 1) i r) as (-> & -> & -> & ->).
    repeat split; try done. intros j. rewrite copy_slot_get by lia.
    destruct (decide (j = i + 1)) as [->|Hne].
    + rewrite decide_True by lia. replace (i + 1 - 1) with i by lia.
      rewrite Hr5. by rewrite decide_False by lia.
    + rewrite Hr5. destruct (decide (i + 1 < j ≤ hi + 1)).
      * by rewrite decide_True by lia.
      * by rewrite decide_False by lia.
Qed.

(** The loop [for (i = hi; i > lo; --i) slot[i] = slot[i - 1]]. *)
Lemma shift_up_loop' lo hi p :
  0 ≤ lo → lo ≤ hi →
  hi < Z.of_nat (length (i_key_array_ p)) →
  hi < Z.of_nat (length (i_page_id_array_ p)) →
  let q := for_down hi (lo + 1) (λ i p, Internal.copy_slot i (i - 1) p) p in
  i_size_ q = i_size_ p ∧ i_max_size_ q = i_max_size_ p ∧
  length (i_key_array_ q) = length (i_key_array_ p) ∧
  length (i_page_id_array_ q) = length (i_page_id_array_ p) ∧
  ∀ j, (Internal.KeyAt j q, Internal.ValueAt j q) =
       if decide (lo < j ≤ hi)
       then (Internal.KeyAt (j - 1) p, Internal.ValueAt (j - 1) p)
       else (Internal.KeyAt j p, Internal.ValueAt j p).
Proof.
  intros Hlo Hle Hk Hv q. subst q.
  pose proof (for_down_ind (λ i q,
    i_size_ q = i_size_ p ∧ i_max_size_ q = i_max_size_ p ∧
    length (i_key_array_ q) = length (i_key_array_ p) ∧
    length (i_page_id_array_ q) = length (i_page_id_array_ p) ∧
    ∀ j, (Internal.KeyAt j q, Internal.ValueAt j q) =
         if decide (i ≤ j ≤ hi)
         then (Internal.KeyAt (j - 1) p, Internal.ValueAt (j - 1) p)
         else (Internal.KeyAt j p, Internal.ValueAt j p))
    hi (lo + 1) (λ i p, Internal.copy_slot i (i - 1) p) p) as Hind.
  cbv beta in Hind.
  destruct Hind as (H1 & H2 & H3 & H4 & H5).
  - lia.
  - repeat split; try done. intros j. by rewrite decide_False by lia.
  - intros i r Hi (Hr1 & Hr2 & Hr3 & Hr4 & Hr5).
    destruct (copy_slot_lengths i (i - 1) r) as (-> & -> & -> & ->).
    repeat split; try done. intros j. rewrite copy_slot_get by lia.
    destruct (decide (j = i)) as [->|Hne].
    + rewrite decide_True by lia.
      rewrite Hr5. by rewrite decide_False by lia.
    + rewrite Hr5. destruct (decide (i + 1 ≤ j ≤ hi)).
      * by rewrite decide_True by lia.
      * by rewrite decide_False by lia.
  - repeat split; try done. intros j. rewrite H5.
    destruct (decide (lo + 1 ≤ j ≤ hi)).
    + by rewrite decide_True by lia.
    + by rewrite decide_False by lia.
Qed.

(** The loop [for (i = lo; i < hi; ++i) slot[i] = slot[i + 1]]. *)
Lemma shift_down_loop lo hi p :
  0 ≤ lo → lo ≤ hi →
  hi ≤ Z.of_nat (length (i_key_array_ p)) →
  hi ≤ Z.of_nat (length (i_page_id_array_ p)) →
  let q := for_up lo hi (λ i p, Internal.copy_slot i (i + 1) p) p in
  i_size_ q = i_size_ p ∧ i_max_size_ q = i_max_size_ p ∧
  length (i_key_array_ q) = length (i_key_array_ p) ∧
  length (i_page_id_array_ q) = length (i_page_id_array_ p) ∧
  ∀ j, (Internal.KeyAt j q, Internal.ValueAt j q) =
       if decide (lo ≤ j < hi)
       then (Internal.KeyAt (j + 1) p, Internal.ValueAt (j + 1) p)
       else (Internal.KeyAt j p, Internal.ValueAt j p).
Proof.
  intros Hlo Hle Hk Hv q. subst q.
  pose proof (for_up_ind (λ i q,
    i_size_ q = i_size_ p ∧ i_max_size_ q = i_max_size_ p ∧
    length (i_key_array_ q) = length (i_key_array_ p) ∧
    length (i_page_id_array_ q) = length (i_page_id_array_ p) ∧
    ∀ j, (Internal.KeyAt j q, Internal.ValueAt j q) =
         if decide (lo ≤ j < i)
         then (Internal.KeyAt (j + 1) p, Internal.ValueAt (j + 1) p)
         else (Internal.KeyAt j p, Internal.ValueAt j p))
    lo hi (λ i p, Internal.copy_slot i (i + 1) p) p) as Hind.
  cbv beta in Hind. apply Hind; clear Hind.
  - lia.
  - repeat split; try done. intros j. by rewrite decide_False by lia.
  - intros i r Hi (Hr1 & Hr2 & Hr3 & Hr4 & Hr5).
    destruct (copy_slot_lengths i (i + 1) r) as (-> & -> & -> & ->).
    repeat split; try done. intros j. rewrite copy_slot_get by lia.
    destruct (decide (j = i)) as [->|Hne].
    + rewrite decide_True by lia.
      rewrite Hr5. by rewrite decide_False by lia.
    + rewrite Hr5. destruct (decide (lo ≤ j < i)).
      * by rewrite decide_True by lia.
      * by rewrite decide_False by lia.
Qed.

Lemma children_lookup p j :
  0 ≤ j < i_size_ p → i_size_ p ≤ Z.of_nat (length (i_page_id_array_ p)) →
  Internal.children p !! Z.to_nat j = Some (Internal.ValueAt j p).
Proof.
  intros Hj Hlen. unfold Internal.children, Internal.ValueAt.
  rewrite lookup_take_lt by lia. rewrite (lookup_aget _ j) by lia. done.
Qed.

Lemma length_children p :
  0 ≤ i_size_ p → i_size_ p ≤ Z.of_nat (length (i_page_id_array_ p)) →
  length (Internal.children p) = Z.to_nat (i_size_ p).
Proof. intros. unfold Internal.children. rewrite length_take. lia. Qed.

Lemma length_separators p :
  1 ≤ i_size_ p → i_size_ p ≤ Z.of_nat (length (i_key_array_ p)) →
  length (Internal.separators p) = Z.to_nat (i_size_ p - 1).
Proof. intros. unfold Internal.separators. rewrite length_drop, length_take. lia. Qed.

Lemma FindInsertPos_loop_spec p key left_ right_ insert_pos :
  ∀ n,
    (∀ i j, 1 ≤ i < j → j < n → Internal.KeyAt i p < Internal.KeyAt j p) →
    1 ≤ left_ → right_ < n → insert_pos = right_ + 1 → left_ ≤ right_ + 1 →
    (∀ i, 1 ≤ i < left_ → Internal.KeyAt i p < key) →
    (∀ i, right_ < i < n → key < Internal.KeyAt i p) →
    let out := Internal.FindInsertPos_loop p key left_ right_ insert_pos in
    (out = -1 ∧ ∃ i, 1 ≤ i < n ∧ Internal.KeyAt i p = key) ∨
    (1 ≤ out ≤ n ∧
     (∀ i, 1 ≤ i < out → Internal.KeyAt i p < key) ∧
     (∀ i, out ≤ i < n → key < Internal.KeyAt i p)).
Proof.
  apply (Internal.FindInsertPos_loop_elim
    (λ p key left_ right_ insert_pos out,
       ∀ n,
         (∀ i j, 1 ≤ i < j → j < n → Internal.KeyAt i p < Internal.KeyAt j p) →
         1 ≤ left_ → right_ < n → insert_pos = right_ + 1 → left_ ≤ right_ + 1 →
         (∀ i, 1 ≤ i < left_ → Internal.KeyAt i p < key) →
         (∀ i, right_ < i < n → key < Internal.KeyAt i p) →
         (out = -1 ∧ ∃ i, 1 ≤ i < n ∧ Internal.KeyAt i p = key) ∨
         (1 ≤ out ≤ n ∧
          (∀ i, 1 ≤ i < out → Internal.KeyAt i p < key) ∧
          (∀ i, out ≤ i < n → key < Internal.KeyAt i p)))).
  - clear. intros p key l r Hle ip IH1 IH2 _ n Hs Hl Hr Hip Hlr Hlow Hhigh.
    cbv zeta in *. pose proof (mid_range l r Hle) as Hmid.
    set (mid := l + (r - l) ÷ 2) in *.
    rewrite comparator_pos, comparator_neg.
    destruct (key <? Internal.KeyAt mid p) eqn:E1.
    + apply Z.ltb_lt in E1. apply IH1; try lia; [done|done|].
      intros i Hi. destruct (decide (i = mid)) as [->|]; [done|].
      destruct (decide (i ≤ r)).
      * assert (Internal.KeyAt mid p < Internal.KeyAt i p) by (apply Hs; lia). lia.
      * apply Hhigh. lia.
    + apply Z.ltb_ge in E1. destruct (Internal.KeyAt mid p <? key) eqn:E2.
      * apply Z.ltb_lt in E2. apply IH2; try lia; [done| |done].
        intros i Hi. destruct (decide (i = mid)) as [->|]; [done|].
        destruct (decide (l ≤ i)).
        -- assert (Internal.KeyAt i p < Internal.KeyAt mid p) by (apply Hs; lia). lia.
        -- apply Hlow. lia.
      * apply Z.ltb_ge in E2. left. split; [done|]. exists mid. lia.
  - clear. intros p key l r Hgt ip _ n Hs Hl Hr Hip Hlr Hlow Hhigh.
    right. assert (ip = l) as -> by lia. split; [lia|]. split; [done|].
    intros i Hi. apply Hhigh. lia.
Qed.

Lemma FindInsertPos_spec p key :
  internal_ok p = true →
  let pos := Internal.FindInsertPos key p in
  (pos = -1 ∧ key ∈ Internal.separators p) ∨
  (1 ≤ pos ≤ i_size_ p ∧ (key ∉ Internal.separators p) ∧
   (∀ i, 1 ≤ i < pos → Internal.KeyAt i p < key) ∧
   (∀ i, pos ≤ i < i_size_ p → key < Internal.KeyAt i p)).
Proof.
  intros Hok pos. destruct (internal_ok_inv p Hok) as (Hs & Hk & Hv & Ha).
  pose proof (internal_ok_sorted p Hok) as Hsorted.
  assert (H1 : ∀ i j, 1 ≤ i < j → j < i_size_ p → Internal.KeyAt i p < Internal.KeyAt j p)
    by (intros i j Hi Hj; apply Hsorted; lia).
  assert (H2 : ∀ i, 1 ≤ i < 1 → Internal.KeyAt i p < key) by (intros i Hi; lia).
  assert (H3 : ∀ i, i_size_ p - 1 < i < i_size_ p → key < Internal.KeyAt i p)
    by (intros i Hi; lia).
  pose proof (FindInsertPos_loop_spec p key 1 (i_size_ p - 1) (i_size_ p) (i_size_ p)
                H1 ltac:(lia) ltac:(lia) ltac:(lia) ltac:(lia) H2 H3) as Hloop.
  cbv zeta in Hloop. change (Internal.FindInsertPos_loop p key 1 (i_size_ p - 1) (i_size_ p))
    with pos in Hloop.
  destruct Hloop as [(E & i & Hi & Hki) | (E & Hlow & Hhigh)].
  - left. split; [done|]. apply elem_of_separators; [lia|]. by exists i.
  - right. split; [done|]. split; [|by split].
    intros Hin. apply elem_of_separators in Hin as (i & Hi & Hki); [|lia].
    destruct (decide (i < pos)) as [Hc|Hc].
    + specialize (Hlow i). lia.
    + specialize (Hhigh i). lia.
Qed.

(** The slots after [Insert] and after [InsertAt]. *)
Lemma Internal_Insert_slots key value insert_pos p :
  0 ≤ insert_pos ≤ i_size_ p →
  i_size_ p < Z.of_nat (length (i_key_array_ p)) →
  i_size_ p < Z.of_nat (length (i_page_id_array_ p)) →
  let p' := Internal.Insert key value insert_pos p in
  i_size_ p' = i_size_ p + 1 ∧ i_max_size_ p' = i_max_size_ p ∧
  length (i_key_array_ p') = length (i_key_array_ p) ∧
  length (i_page_id_array_ p') = length (i_page_id_array_ p) ∧
  ∀ j, (Internal.KeyAt j p', Internal.ValueAt j p') =
       if decide (j = insert_pos) then (key, value)
       else if decide (insert_pos < j ≤ i_size_ p)
            then (Internal.KeyAt (j - 1) p, Internal.ValueAt (j - 1) p)
            else (Internal.KeyAt j p, Internal.ValueAt j p).
Proof.
  intros Hpos Hk Hv p'. subst p'. unfold Internal.Insert, Internal.GetSize. cbv zeta.
  destruct (shift_up_loop insert_pos (i_size_ p - 1) p) as (Q1 & Q2 & Q3 & Q4 & Q5); [lia..|].
  revert Q1 Q2 Q3 Q4 Q5.
  generalize (for_down (i_size_ p - 1) insert_pos (λ i p, Internal.copy_slot (i + 1) i p) p).
  intros q Q1 Q2 Q3 Q4 Q5.
  unfold Internal.IncreaseSize, internal_set_size, internal_set_value, internal_set_key,
    Internal.KeyAt, Internal.ValueAt in *. simpl. rewrite !length_aset.
  repeat split; try lia; try done. intros j.
  destruct (decide (j = insert_pos)) as [->|Hne].
  - by rewrite !aget_aset_eq by lia.
  - rewrite !aget_aset_ne by done. rewrite Q5.
    replace (i_size_ p - 1 + 1) with (i_size_ p) by lia. done.
Qed.

Lemma Internal_InsertAt_slots key value insert_pos p :
  0 ≤ insert_pos ≤ i_size_ p →
  i_size_ p < Z.of_nat (length (i_key_array_ p)) →
  i_size_ p < Z.of_nat (length (i_page_id_array_ p)) →
  let p' := Internal.InsertAt insert_pos key value p in
  i_size_ p' = i_size_ p + 1 ∧ i_max_size_ p' = i_max_size_ p ∧
  length (i_key_array_ p') = length (i_key_array_ p) ∧
  length (i_page_id_array_ p') = length (i_page_id_array_ p) ∧
  ∀ j, (Internal.KeyAt j p', Internal.ValueAt j p') =
       if decide (j = insert_pos) then (key, value)
       else if decide (insert_pos < j ≤ i_size_ p)
            then (Internal.KeyAt (j - 1) p, Internal.ValueAt (j - 1) p)
            else (Internal.KeyAt j p, Internal.ValueAt j p).
Proof.
  intros Hpos Hk Hv p'. subst p'. unfold Internal.InsertAt, Internal.GetSize. cbv zeta.
  destruct (shift_up_loop' insert_pos (i_size_ p) p) as (Q1 & Q2 & Q3 & Q4 & Q5); [lia..|].
  revert Q1 Q2 Q3 Q4 Q5.
  generalize (for_down (i_size_ p) (insert_pos + 1) (λ i p, Internal.copy_slot i (i - 1) p) p).
  intros q Q1 Q2 Q3 Q4 Q5.
  unfold Internal.IncreaseSize, internal_set_size, internal_set_value, internal_set_key,
    Internal.KeyAt, Internal.ValueAt in *. simpl. rewrite !length_aset.
  repeat split; try lia; try done. intros j.
  destruct (decide (j = insert_pos)) as [->|Hne].
  - by rewrite !aget_aset_eq by lia.
  - rewrite !aget_aset_ne by done. by rewrite Q5.
Qed.

Lemma filter_split_length {A} (P : A → Prop) `{∀ x, Decision (P x)} (l : list A) (c : nat) :
  (c ≤ length l)%nat →
  (∀ j x, (j < c)%nat → l !! j = Some x → P x) →
  (∀ j x, (c ≤ j)%nat → l !! j = Some x → ¬ P x) →
  length (filter P l) = c.
Proof.
  intros Hc Hlow Hhigh.
  rewrite <- (take_drop c l), filter_app, filter_all, filter_none.
  - rewrite app_nil_r, length_take. lia.
  - apply Forall_forall. intros x Hx. apply list_elem_of_lookup in Hx as [j Hj].
    rewrite lookup_drop in Hj. apply (Hhigh (c + j)%nat x); [lia|done].
  - apply Forall_forall. intros x Hx. apply list_elem_of_lookup in Hx as [j Hj].
    apply lookup_take_Some in Hj as [Hj Hjlt]. by apply (Hlow j x).
Qed.

Lemma separators_lookup_nat p (j : nat) :
  Z.of_nat j < i_size_ p - 1 → i_size_ p ≤ Z.of_nat (length (i_key_array_ p)) →
  Internal.separators p !! j = Some (Internal.KeyAt (Z.of_nat j + 1) p).
Proof.
  intros Hj Hlen. pose proof (separators_lookup p (Z.of_nat j + 1)) as H.
  replace (Z.to_nat (Z.of_nat j + 1 - 1)) with j in H by lia. apply H; lia.
Qed.



(** The lists of children and of separators after a slot was opened. *)
Lemma opened_slot_lists key value pos p p' :
  0 ≤ pos ≤ i_size_ p →
  i_size_ p < Z.of_nat (length (i_key_array_ p)) →
  i_size_ p < Z.of_nat (length (i_page_id_array_ p)) →
  i_size_ p' = i_size_ p + 1 →
  length (i_key_array_ p') = length (i_key_array_ p) →
  length (i_page_id_array_ p') = length (i_page_id_array_ p) →
  (∀ j, (Internal.KeyAt j p', Internal.ValueAt j p') =
        if decide (j = pos) then (key, value)
        else if decide (pos < j ≤ i_size_ p)
             then (Internal.KeyAt (j - 1) p, Internal.ValueAt (j - 1) p)
             else (Internal.KeyAt j p, Internal.ValueAt j p)) →
  Internal.children p' =
    take (Z.to_nat pos) (Internal.children p) ++ value :: drop (Z.to_nat pos) (Internal.children p) ∧
  (1 ≤ pos →
   Internal.separators p' =
     take (Z.to_nat (pos - 1)) (Internal.separators p) ++
     key :: drop (Z.to_nat (pos - 1)) (Internal.separators p)).
Proof.
  intros Hpos Hk Hv Hs' Hk' Hv' Hslots.
  assert (Hkey : ∀ j, Internal.KeyAt j p' =
            if decide (j = pos) then key
            else if decide (pos < j ≤ i_size_ p) then Internal.KeyAt (j - 1) p
                 else Internal.KeyAt j p).
  { intros j. pose proof (Hslots j) as H. repeat destruct (decide _); by injection H. }
  assert (Hval : ∀ j, Internal.ValueAt j p' =
            if decide (j = pos) then value
            else if decide (pos < j ≤ i_size_ p) then Internal.ValueAt (j - 1) p
                 else Internal.ValueAt j p).
  { intros j. pose proof (Hslots j) as H. repeat destruct (decide _); by injection H. }
  split.
  - apply list_eq. intros j.
    rewrite emplace_lookup by (rewrite length_children by lia; lia).
    destruct (decide (j < Z.to_nat (i_size_ p + 1))%nat) as [Hj|Hj].
    + pose proof (children_lookup p' (Z.of_nat j)) as He. rewrite Nat2Z.id in He.
      rewrite He by lia. rewrite Hval.
      destruct (decide (j < Z.to_nat pos)%nat).
      * rewrite decide_False by lia. rewrite decide_False by lia.
        pose proof (children_lookup p (Z.of_nat j)) as H. rewrite Nat2Z.id in H.
        by rewrite H by lia.
      * destruct (decide (j = Z.to_nat pos)) as [->|Hne].
        -- by rewrite decide_True by lia.
        -- rewrite decide_False by lia. rewrite decide_True by lia.
           pose proof (children_lookup p (Z.of_nat j - 1)) as H.
           replace (Z.to_nat (Z.of_nat j - 1)) with (j - 1)%nat in H by lia.
           by rewrite H by lia.
    + rewrite lookup_ge_None_2 by (rewrite length_children by lia; lia).
      rewrite decide_False by lia. rewrite decide_False by lia.
      symmetry. apply lookup_ge_None_2. rewrite length_children by lia. lia.
  - intros Hpos1. apply list_eq. intros j.
    rewrite emplace_lookup by (rewrite length_separators by lia; lia).
    destruct (decide (j < Z.to_nat (i_size_ p))%nat) as [Hj|Hj].
    + rewrite (separators_lookup_nat p' j) by lia. rewrite Hkey.
      destruct (decide (j < Z.to_nat (pos - 1))%nat).
      * rewrite decide_False by lia. rewrite decide_False by lia.
        by rewrite (separators_lookup_nat p j) by lia.
      * destruct (decide (j = Z.to_nat (pos - 1))) as [->|Hne].
        -- by rewrite decide_True by lia.
        -- rewrite decide_False by lia. rewrite decide_True by lia.
           rewrite (separators_lookup_nat p (j - 1)) by lia.
           do 2 f_equal. lia.
    + rewrite lookup_ge_None_2 by (rewrite length_separators by lia; lia).
      rewrite decide_False by lia. rewrite decide_False by lia.
      symmetry. apply lookup_ge_None_2. rewrite length_separators by lia. lia.
Qed.

Lemma internal_ok_intro p :
  1 ≤ i_size_ p ≤ INTERNAL_PAGE_SLOT_CNT →
  length (i_key_array_ p) = Z.to_nat INTERNAL_PAGE_SLOT_CNT →
  length (i_page_id_array_ p) = Z.to_nat INTERNAL_PAGE_SLOT_CNT →
  ascending (Internal.separators p) = true → internal_ok p = true.
Proof.
  intros Hs Hk Hr Ha. unfold internal_ok.
  rewrite !andb_true_iff, !Z.leb_le, !bool_decide_eq_true. by repeat split; try lia.
Qed.

(** X10: where an internal page takes a new separator.  On a page with
    ascending separators and a free slot, [FindInsertPos] reports [-1]
    exactly for a key that is already a separator; for any other key it
    returns one more than the number of smaller separators, and [Insert] at
    that position ([InsertAt] does the same) puts the key among the
    separators in order and the child right after the child it split
    from, leaving the other children and separators as they were. *)
Theorem internal_insert_sorted p key value :
  internal_ok p = true → i_size_ p < INTERNAL_PAGE_SLOT_CNT →
  let pos := Internal.FindInsertPos key p in
  (pos = -1 ↔ key ∈ Internal.separators p) ∧
  (key ∉ Internal.separators p →
   let p' := Internal.Insert key value pos p in
   let seps := Internal.separators p in
   let kids := Internal.children p in
   pos = 1 + Z.of_nat (length (filter (λ k, k < key) seps)) ∧
   internal_ok p' = true ∧
   Internal.separators p' =
     take (Z.to_nat (pos - 1)) seps ++ key :: drop (Z.to_nat (pos - 1)) seps ∧
   Internal.children p' = take (Z.to_nat pos) kids ++ value :: drop (Z.to_nat pos) kids ∧
   Internal.separators (Internal.InsertAt pos key value p) = Internal.separators p' ∧
   Internal.children (Internal.InsertAt pos key value p) = Internal.children p' ∧
   i_size_ p' = i_size_ p + 1 ∧ i_max_size_ p' = i_max_size_ p).
Proof.
  intros Hok Hroom pos. destruct (internal_ok_inv p Hok) as (Hs & Hk & Hv & Ha).
  pose proof (FindInsertPos_spec p key Hok) as Hspec. cbv zeta in Hspec. fold pos in Hspec.
  split.
  { destruct Hspec as [[E Hin] | (Hrange & Hnin & _)]; [done|]. split; [lia|done]. }
  intros Hnew p' seps kids.
  destruct Hspec as [[E Hin] | (Hrange & _ & Hlow & Hhigh)]; [done|].
  destruct (Internal_Insert_slots key value pos p) as (I1 & I2 & I3 & I4 & I5); [lia..|].
  fold p' in I1, I2, I3, I4, I5.
  destruct (opened_slot_lists key value pos p p') as [Hkids Hseps]; try done; try lia.
  specialize (Hseps ltac:(lia)).
  destruct (Internal_InsertAt_slots key value pos p) as (J1 & J2 & J3 & J4 & J5); [lia..|].
  destruct (opened_slot_lists key value pos p (Internal.InsertAt pos key value p))
    as [Jkids Jseps]; try done; try lia.
  specialize (Jseps ltac:(lia)).
  assert (Hcount : length (filter (λ k, k < key) seps) = Z.to_nat (pos - 1)).
  { apply filter_split_length.
    - subst seps. rewrite length_separators by lia. lia.
    - intros j x Hj Hx. subst seps. rewrite separators_lookup_nat in Hx by lia.
      injection Hx as <-. apply Hlow. lia.
    - intros j x Hj Hx. subst seps.
      assert (Z.of_nat j < i_size_ p - 1).
      { apply lookup_lt_Some in Hx. rewrite length_separators in Hx by lia. lia. }
      rewrite separators_lookup_nat in Hx by lia. injection Hx as <-.
      specialize (Hhigh (Z.of_nat j + 1)). lia. }
  split; [lia|]. split.
  { apply internal_ok_intro; [lia|congruence|congruence|]. rewrite Hseps.
    apply ascending_insert; [done| |].
    - intros i k Hi Hx.
      rewrite separators_lookup_nat in Hx by lia. injection Hx as <-. apply Hlow. lia.
    - intros i k Hi Hx.
      assert (Z.of_nat i < i_size_ p - 1).
      { apply lookup_lt_Some in Hx. rewrite length_separators in Hx by lia. lia. }
      rewrite separators_lookup_nat in Hx by lia. injection Hx as <-.
      apply Hhigh. lia. }
  split; [done|]. split; [done|]. split; [congruence|]. split; [congruence|]. by split.
Qed.

Lemma internal_insert_sorted_witness :
  let p := Internal.Insert 30 7 2 (Internal.Insert 20 6 1 (Internal.Init 4 zero_internal)) in
  let pos := Internal.FindInsertPos 25 p in
  (pos = -1 ↔ 25 ∈ Internal.separators p) ∧
  (25 ∉ Internal.separators p →
   let p' := Internal.Insert 25 8 pos p in
   let seps := Internal.separators p in
   let kids := Internal.children p in
   pos = 1 + Z.of_nat (length (filter (λ k, k < 25) seps)) ∧
   internal_ok p' = true ∧
   Internal.separators p' =
     take (Z.to_nat (pos - 1)) seps ++ 25 :: drop (Z.to_nat (pos - 1)) seps ∧
   Internal.children p' = take (Z.to_nat pos) kids ++ 8 :: drop (Z.to_nat pos) kids ∧
   Internal.separators (Internal.InsertAt pos 25 8 p) = Internal.separators p' ∧
   Internal.children (Internal.InsertAt pos 25 8 p) = Internal.children p' ∧
   i_size_ p' = i_size_ p + 1 ∧ i_max_size_ p' = i_max_size_ p).
Proof.
  intros p. apply (internal_insert_sorted p 25 8); vm_compute; reflexivity.
Defined.

Lemma closed_slot_lists index p p' :
  0 ≤ index < i_size_ p →
  i_size_ p ≤ Z.of_nat (length (i_key_array_ p)) →
  i_size_ p ≤ Z.of_nat (length (i_page_id_array_ p)) →
  i_size_ p' = i_size_ p - 1 →
  length (i_key_array_ p') = length (i_key_array_ p) →
  length (i_page_id_array_ p') = length (i_page_id_array_ p) →
  (∀ j, index ≤ j < i_size_ p - 1 → Internal.ValueAt j p' = Internal.ValueAt (j + 1) p) →
  (∀ j, 0 ≤ j < index → Internal.ValueAt j p' = Internal.ValueAt j p) →
  (∀ j, 1 ≤ j → index ≤ j < i_size_ p - 1 → Internal.KeyAt j p' = Internal.KeyAt (j + 1) p) →
  (∀ j, 0 ≤ j < index → Internal.KeyAt j p' = Internal.KeyAt j p) →
  Internal.children p' = delete (Z.to_nat index) (Internal.children p) ∧
  Internal.separators p' = delete (Z.to_nat (index - 1)) (Internal.separators p).
Proof.
  intros Hidx Hk Hv Hs' Hk' Hv' Hval1 Hval2 Hkey1 Hkey2. split.
  - apply list_eq. intros j.
    destruct (decide (j < Z.to_nat (i_size_ p - 1))%nat) as [Hj|Hj].
    + pose proof (children_lookup p' (Z.of_nat j)) as He. rewrite Nat2Z.id in He.
      rewrite He by lia.
      destruct (decide (j < Z.to_nat index)%nat).
      * rewrite list_lookup_delete_lt by done.
        pose proof (children_lookup p (Z.of_nat j)) as H. rewrite Nat2Z.id in H.
        rewrite H by lia. f_equal. apply Hval2. lia.
      * rewrite list_lookup_delete_ge by lia.
        pose proof (children_lookup p (Z.of_nat j + 1)) as H.
        replace (Z.to_nat (Z.of_nat j + 1)) with (S j) in H by lia.
        rewrite H by lia. f_equal. apply Hval1. lia.
    + rewrite lookup_ge_None_2 by (rewrite length_children by lia; lia).
      symmetry. apply lookup_ge_None_2. rewrite length_delete.
      * rewrite length_children by lia. lia.
      * apply lookup_lt_is_Some. rewrite length_children by lia. lia.
  - destruct (decide (i_size_ p = 1)) as [E1|E1].
    { assert (Internal.separators p = []) as ->.
      { apply nil_length_inv. rewrite length_separators by lia. lia. }
      unfold Internal.separators. rewrite Hs', E1.
      replace (Z.to_nat (1 - 1)) with 0%nat by lia. by destruct (Z.to_nat (index - 1)). }
    apply list_eq. intros j.
    destruct (decide (j < Z.to_nat (i_size_ p - 2))%nat) as [Hj|Hj].
    + rewrite (separators_lookup_nat p' j) by lia.
      destruct (decide (j < Z.to_nat (index - 1))%nat).
      * rewrite list_lookup_delete_lt by done.
        rewrite (separators_lookup_nat p j) by lia. f_equal. apply Hkey2. lia.
      * rewrite list_lookup_delete_ge by lia.
        rewrite (separators_lookup_nat p (S j)) by lia.
        replace (Z.of_nat (S j) + 1) with (Z.of_nat j + 1 + 1) by lia.
        f_equal. apply Hkey1; lia.
    + rewrite lookup_ge_None_2 by (rewrite length_separators by lia; lia).
      symmetry. apply lookup_ge_None_2. rewrite length_delete.
      * rewrite length_separators by lia. lia.
      * apply lookup_lt_is_Some. rewrite length_separators by lia. lia.
Qed.

(** X11: closing and opening slots of an internal page.  [RemoveAt] drops
    the child of the slot and the separator that led to it (for slot 0, the
    first separator), keeping the rest in order; [RemoveAt_head] drops the
    first child and the first separator; [InsertAt_head] puts a child and a
    separator in front of the others. *)
Theorem internal_slot_removal p :
  internal_ok p = true →
  (∀ index, 0 ≤ index < i_size_ p →
     let p' := Internal.RemoveAt index p in
     Internal.children p' = delete (Z.to_nat index) (Internal.children p) ∧
     Internal.separators p' = delete (Z.to_nat (index - 1)) (Internal.separators p) ∧
     i_size_ p' = i_size_ p - 1 ∧ i_max_size_ p' = i_max_size_ p ∧
     (2 ≤ i_size_ p → internal_ok p' = true)) ∧
  (let p' := Internal.RemoveAt_head p in
   Internal.children p' = drop 1 (Internal.children p) ∧
   Internal.separators p' = drop 1 (Internal.separators p) ∧
   i_size_ p' = i_size_ p - 1 ∧ i_max_size_ p' = i_max_size_ p) ∧
  (∀ key value, i_size_ p < INTERNAL_PAGE_SLOT_CNT →
     let p' := Internal.InsertAt_head key value p in
     Internal.children p' = value :: Internal.children p ∧
     Internal.separators p' = key :: Internal.separators p ∧
     i_size_ p' = i_size_ p + 1 ∧ i_max_size_ p' = i_max_size_ p).
Proof.
  intros Hok. destruct (internal_ok_inv p Hok) as (Hs & Hk & Hv & Ha).
  split; [|split].
  - intros index Hidx p'. subst p'. unfold Internal.RemoveAt, Internal.GetSize.
    destruct (shift_down_loop index (i_size_ p - 1) p) as (Q1 & Q2 & Q3 & Q4 & Q5); [lia..|].
    revert Q1 Q2 Q3 Q4 Q5.
    generalize (for_up index (i_size_ p - 1) (λ i p, Internal.copy_slot i (i + 1) p) p).
    intros q Q1 Q2 Q3 Q4 Q5.
    assert (Hkey : ∀ j, Internal.KeyAt j q =
              if decide (index ≤ j < i_size_ p - 1) then Internal.KeyAt (j + 1) p
              else Internal.KeyAt j p).
    { intros j. pose proof (Q5 j) as H. destruct (decide _); by injection H. }
    assert (Hval : ∀ j, Internal.ValueAt j q =
              if decide (index ≤ j < i_size_ p - 1) then Internal.ValueAt (j + 1) p
              else Internal.ValueAt j p).
    { intros j. pose proof (Q5 j) as H. destruct (decide _); by injection H. }
    destruct (closed_slot_lists index p (Internal.DecreaseSize q)) as [Hc Hsep];
      try done; try (simpl; lia).
    + intros j Hj. change (Internal.ValueAt j (Internal.DecreaseSize q))
        with (Internal.ValueAt j q). rewrite Hval. by rewrite decide_True by lia.
    + intros j Hj. change (Internal.ValueAt j (Internal.DecreaseSize q))
        with (Internal.ValueAt j q). rewrite Hval. by rewrite decide_False by lia.
    + intros j Hj1 Hj. change (Internal.KeyAt j (Internal.DecreaseSize q))
        with (Internal.KeyAt j q). rewrite Hkey. by rewrite decide_True by lia.
    + intros j Hj. change (Internal.KeyAt j (Internal.DecreaseSize q))
        with (Internal.KeyAt j q). rewrite Hkey. by rewrite decide_False by lia.
    + split; [done|]. split; [done|]. simpl. split; [lia|]. split; [done|].
      intros H2. apply internal_ok_intro; simpl; [lia|congruence|congruence|].
      rewrite Hsep. by apply ascending_delete.
  - intros p'. subst p'. unfold Internal.RemoveAt_head. cbv zeta.
    set (p1 := internal_set_value 0 (aget (i_page_id_array_ p) 1) p).
    assert (P1 : i_size_ p1 = i_size_ p ∧ i_max_size_ p1 = i_max_size_ p ∧
                 length (i_key_array_ p1) = length (i_key_array_ p) ∧
                 length (i_page_id_array_ p1) = length (i_page_id_array_ p) ∧
                 (∀ j, Internal.KeyAt j p1 = Internal.KeyAt j p) ∧
                 (∀ j, Internal.ValueAt j p1 =
                       if decide (j = 0) then Internal.ValueAt 1 p else Internal.ValueAt j p)).
    { subst p1. unfold internal_set_value, Internal.KeyAt, Internal.ValueAt. simpl.
      rewrite length_aset. repeat split; try done. intros j.
      destruct (decide (j = 0)) as [->|Hne].
      - rewrite aget_aset_eq; [done|]. unfold INTERNAL_PAGE_SLOT_CNT, BUSTUB_PAGE_SIZE in *.
        rewrite Hv. vm_compute. split; [discriminate|reflexivity].
      - by rewrite aget_aset_ne. }
    destruct P1 as (P1 & P2 & P3 & P4 & P5 & P6). clearbody p1.
    assert (Hq : ∃ q, for_up 1 (i_size_ p1 - 1) (λ i p, Internal.copy_slot i (i + 1) p) p1 = q ∧
              i_size_ q = i_size_ p ∧ i_max_size_ q = i_max_size_ p ∧
              length (i_key_array_ q) = length (i_key_array_ p) ∧
              length (i_page_id_array_ q) = length (i_page_id_array_ p) ∧
              (∀ j, 1 ≤ j < i_size_ p - 1 → Internal.KeyAt j q = Internal.KeyAt (j + 1) p) ∧
              (∀ j, 0 ≤ j < i_size_ p - 1 → Internal.ValueAt j q = Internal.ValueAt (j + 1) p)).
    { eexists. split; [reflexivity|].
      destruct (decide (i_size_ p = 1)) as [E1|E1].
      - rewrite for_up_nil by lia. repeat split; try done; intros j Hj; lia.
      - destruct (shift_down_loop 1 (i_size_ p1 - 1) p1) as (Q1 & Q2 & Q3 & Q4 & Q5); [lia..|].
        repeat split; try congruence.
        + intros j Hj. pose proof (Q5 j) as H. rewrite decide_True in H by lia.
          injection H as -> _. apply P5.
        + intros j Hj. pose proof (Q5 j) as H.
          destruct (decide (1 ≤ j < i_size_ p1 - 1)).
          * injection H as _ ->. rewrite P6. by rewrite decide_False by lia.
          * injection H as _ ->. rewrite P6. rewrite decide_True by lia. f_equal. lia. }
    destruct Hq as (q & -> & Q1 & Q2 & Q3 & Q4 & Q5 & Q6).
    assert (Hc : Internal.children (Internal.DecreaseSize q) =
                   delete (Z.to_nat 0) (Internal.children p) ∧
                 Internal.separators (Internal.DecreaseSize q) =
                   delete (Z.to_nat (0 - 1)) (Internal.separators p)).
    { apply closed_slot_lists; try done; try (simpl; lia).
      all: try (intros j Hj; lia).
      intros j Hj1 Hj. apply Q5. lia. }
    destruct Hc as [Hc Hsep].
    rewrite Hc, Hsep. simpl. repeat split; try lia; try done.
    + by destruct (Internal.children p).
    + by destruct (Internal.separators p).
  - intros key value Hroom p'. subst p'. unfold Internal.InsertAt_head, Internal.GetSize.
    cbv zeta.
    destruct (shift_up_loop' 0 (i_size_ p) p) as (Q1 & Q2 & Q3 & Q4 & Q5); [lia..|].
    change (0 + 1) with 1 in Q1, Q2, Q3, Q4, Q5. revert Q1 Q2 Q3 Q4 Q5.
    generalize (for_down (i_size_ p) 1 (λ i p, Internal.copy_slot i (i - 1) p) p).
    intros q Q1 Q2 Q3 Q4 Q5.
    assert (Hkey : ∀ j, Internal.KeyAt j q =
              if decide (0 < j ≤ i_size_ p) then Internal.KeyAt (j - 1) p
              else Internal.KeyAt j p).
    { intros j. pose proof (Q5 j) as H. destruct (decide _); by injection H. }
    assert (Hval : ∀ j, Internal.ValueAt j q =
              if decide (0 < j ≤ i_size_ p) then Internal.ValueAt (j - 1) p
              else Internal.ValueAt j p).
    { intros j. pose proof (Q5 j) as H. destruct (decide _); by injection H. }
    set (r := Internal.IncreaseSize (internal_set_value 0 value (internal_set_key 1 key q))).
    assert (R : i_size_ r = i_size_ p + 1 ∧ i_max_size_ r = i_max_size_ p ∧
                length (i_key_array_ r) = length (i_key_array_ p) ∧
                length (i_page_id_array_ r) = length (i_page_id_array_ p) ∧
                (∀ j, Internal.KeyAt j r = if decide (j = 1) then key else Internal.KeyAt j q) ∧
                (∀ j, Internal.ValueAt j r =
                      if decide (j = 0) then value else Internal.ValueAt j q)).
    { subst r. unfold Internal.IncreaseSize, internal_set_size, internal_set_value,
        internal_set_key, Internal.KeyAt, Internal.ValueAt. simpl. rewrite !length_aset.
      repeat split; try lia; try done.
      - intros j. destruct (decide (j = 1)) as [->|Hne].
        + rewrite aget_aset_eq; [done|]. lia.
        + by rewrite aget_aset_ne.
      - intros j. destruct (decide (j = 0)) as [->|Hne].
        + rewrite aget_aset_eq; [done|]. lia.
        + by rewrite aget_aset_ne. }
    destruct R as (R1 & R2 & R3 & R4 & R5 & R6). clearbody r.
    split; [|split; [|by split]].
    + apply list_eq. intros j. destruct j as [|j].
      * pose proof (children_lookup r 0) as H. change (Z.to_nat 0) with 0%nat in H.
        rewrite H by lia. rewrite R6. by rewrite decide_True.
      * simpl. destruct (decide (j < Z.to_nat (i_size_ p))%nat) as [Hj|Hj].
        -- pose proof (children_lookup r (Z.of_nat (S j))) as H. rewrite Nat2Z.id in H.
           rewrite H by lia. rewrite R6. rewrite decide_False by lia.
           rewrite Hval. rewrite decide_True by lia.
           pose proof (children_lookup p (Z.of_nat j)) as H'. rewrite Nat2Z.id in H'.
           rewrite H' by lia. do 2 f_equal. lia.
        -- rewrite lookup_ge_None_2 by (rewrite length_children by lia; lia).
           symmetry. apply lookup_ge_None_2. rewrite length_children by lia. lia.
    + apply list_eq. intros j. destruct j as [|j].
      * rewrite (separators_lookup_nat r 0) by lia. change (Z.of_nat 0 + 1) with 1.
        rewrite R5. by rewrite decide_True.
      * simpl. destruct (decide (j < Z.to_nat (i_size_ p - 1))%nat) as [Hj|Hj].
        -- rewrite (separators_lookup_nat r (S j)) by lia. rewrite R5.
           rewrite decide_False by lia. rewrite Hkey. rewrite decide_True by lia.
           rewrite (separators_lookup_nat p j) by lia. do 2 f_equal. lia.
        -- rewrite lookup_ge_None_2 by (rewrite length_separators by lia; lia).
           symmetry. apply lookup_ge_None_2. rewrite length_separators by lia. lia.
Qed.

Lemma internal_slot_removal_witness :
  let p := Internal.Insert 30 7 2 (Internal.Insert 20 6 1 (Internal.Init 4 zero_internal)) in
  (∀ index, 0 ≤ index < i_size_ p →
     let p' := Internal.RemoveAt index p in
     Internal.children p' = delete (Z.to_nat index) (Internal.children p) ∧
     Internal.separators p' = delete (Z.to_nat (index - 1)) (Internal.separators p) ∧
     i_size_ p' = i_size_ p - 1 ∧ i_max_size_ p' = i_max_size_ p ∧
     (2 ≤ i_size_ p → internal_ok p' = true)) ∧
  (let p' := Internal.RemoveAt_head p in
   Internal.children p' = drop 1 (Internal.children p) ∧
   Internal.separators p' = drop 1 (Internal.separators p) ∧
   i_size_ p' = i_size_ p - 1 ∧ i_max_size_ p' = i_max_size_ p) ∧
  (∀ key value, i_size_ p < INTERNAL_PAGE_SLOT_CNT →
     let p' := Internal.InsertAt_head key value p in
     Internal.children p' = value :: Internal.children p ∧
     Internal.separators p' = key :: Internal.separators p ∧
     i_size_ p' = i_size_ p + 1 ∧ i_max_size_ p' = i_max_size_ p).
Proof.
  intros p. apply (internal_slot_removal p). vm_compute. reflexivity.
Defined.

End PageBehaviour.

(** ** The B+-tree: what an insertion does to a search tree *)

Module BTreeInsert.
Import BPage BTree BTreeSpec BTreeFacts BTreeSizes PageBehaviour BTreeProps.

(** ** Children between bounds *)

Lemma kids_in_cons wf l u bs c cs :
  kids_in wf (l :: u :: bs) (c :: cs) ↔ wf l u c ∧ kids_in wf (u :: bs) cs.
Proof. done. Qed.

Lemma kids_in_nil wf bs : kids_in wf bs [] ↔ ∃ b, bs = [b].
Proof.
  destruct bs as [|b [|? ?]]; simpl; split; try done.
  - by intros [? ?].
  - intros _. by exists b.
  - by intros [? ?].
Qed.

Lemma kids_in_cons_inv wf bs c cs :
  kids_in wf bs (c :: cs) →
  ∃ l u bs', bs = l :: u :: bs' ∧ wf l u c ∧ kids_in wf (u :: bs') cs.
Proof.
  destruct bs as [|l [|u bs]]; try done. intros H%kids_in_cons. by exists l, u, bs.
Qed.

#[local] Arguments kids_in : simpl never.

Lemma kids_in_length wf bs cs : kids_in wf bs cs → length bs = S (length cs).
Proof.
  revert bs. induction cs as [|c cs IH]; intros bs H.
  - apply kids_in_nil in H as [b ->]. done.
  - apply kids_in_cons_inv in H as (l & u & bs' & -> & _ & H).
    apply IH in H. simpl in *. lia.
Qed.

Lemma kids_in_app wf bs1 b bs2 cs1 cs2 :
  length bs1 = length cs1 →
  kids_in wf (bs1 ++ b :: bs2) (cs1 ++ cs2) ↔
  kids_in wf (bs1 ++ [b]) cs1 ∧ kids_in wf (b :: bs2) cs2.
Proof.
  revert bs1. induction cs1 as [|c cs1 IH]; intros bs1 Hlen.
  - destruct bs1; [|done]. simpl. rewrite kids_in_nil. split; [|tauto].
    intros H. split; [by exists b|done].
  - destruct bs1 as [|l bs1]; [done|]. simpl in Hlen.
    specialize (IH bs1 ltac:(lia)).
    destruct bs1 as [|u bs1]; simpl app in *.
    + rewrite !kids_in_cons. tauto.
    + rewrite !kids_in_cons. tauto.
Qed.

Lemma kids_in_impl (wf wf' : option Z → option Z → Z → Prop) bs cs :
  (∀ l u c, c ∈ cs → wf l u c → wf' l u c) → kids_in wf bs cs → kids_in wf' bs cs.
Proof.
  revert bs. induction cs as [|c cs IH]; intros bs Himp H.
  - apply kids_in_nil in H as [b ->]. apply kids_in_nil. by exists b.
  - apply kids_in_cons_inv in H as (l & u & bs' & -> & H1 & H2).
    apply kids_in_cons. split.
    + apply Himp; [left|done].
    + apply IH; [|done]. intros l' u' c' Hc. apply Himp. by right.
Qed.

Lemma kids_in_lookup wf bs cs :
  kids_in wf bs cs ↔
  length bs = S (length cs) ∧
  ∀ i c l u, cs !! i = Some c → bs !! i = Some l → bs !! S i = Some u → wf l u c.
Proof.
  revert bs. induction cs as [|c cs IH]; intros bs.
  - rewrite kids_in_nil. split.
    + intros [b ->]. done.
    + intros [H _]. destruct bs as [|b [|? ?]]; try done. by exists b.
  - split.
    + intros (l & u & bs' & -> & H1 & H2)%kids_in_cons_inv.
      apply IH in H2 as [H2 H3]. split; [simpl in *; lia|].
      intros [|i] c' l' u' Hc Hl Hu; simpl in *.
      * injection Hc as ->. injection Hl as ->. injection Hu as ->. done.
      * by apply (H3 i).
    + intros [H1 H2]. destruct bs as [|l [|u bs]]; try done.
      apply kids_in_cons. split; [by apply (H2 0%nat)|]. apply IH.
      split; [simpl in *; lia|].
      intros i c' l' u' Hc Hl Hu. by apply (H2 (S i)).
Qed.

Lemma length_bounds lo ks hi : length (bounds lo ks hi) = S (S (length ks)).
Proof. unfold bounds. simpl. rewrite length_app, length_fmap. simpl. lia. Qed.

(** Children between the bounds of [ks1 ++ k :: ks2] are children between
    the bounds of [ks1] up to [k] and children between those of [ks2] from
    [k] on. *)
Lemma kids_in_bounds_app wf lo ks1 k ks2 hi cs1 cs2 :
  length cs1 = S (length ks1) →
  kids_in wf (bounds lo (ks1 ++ k :: ks2) hi) (cs1 ++ cs2) ↔
  kids_in wf (bounds lo ks1 (Some k)) cs1 ∧ kids_in wf (bounds (Some k) ks2 hi) cs2.
Proof.
  intros Hlen. unfold bounds. rewrite fmap_app, fmap_cons.
  replace (lo :: ((Some <$> ks1) ++ Some k :: (Some <$> ks2)) ++ [hi])
    with ((lo :: (Some <$> ks1)) ++ Some k :: ((Some <$> ks2) ++ [hi]))
    by (simpl; by rewrite <- app_assoc).
  rewrite kids_in_app by (simpl; rewrite length_fmap; lia). done.
Qed.

Lemma kids_in_single wf l u c : kids_in wf [l; u] [c] ↔ wf l u c.
Proof. rewrite kids_in_cons, kids_in_nil. split; [tauto|]. intros H. split; [done|by exists u]. Qed.

(** ** Internal pages as lists of children and separators *)

Lemma seq_children {A} (f : Z → A) p :
  0 ≤ i_size_ p → i_size_ p ≤ Z.of_nat (length (i_page_id_array_ p)) →
  (λ i, f (Internal.ValueAt i p)) <$> seqZ 0 (i_size_ p) = f <$> Internal.children p.
Proof.
  intros H0 Hlen. apply list_eq. intros i.
  rewrite !list_lookup_fmap.
  destruct (decide (Z.of_nat i < i_size_ p)) as [Hi|Hi].
  - rewrite lookup_seqZ_lt by lia. simpl.
    rewrite <- (Nat2Z.id i) at 2. rewrite children_lookup by lia. done.
  - rewrite lookup_seqZ_ge by lia. simpl.
    rewrite lookup_ge_None_2; [done|]. rewrite length_children by lia. lia.
Qed.

Lemma bounds_lookup lo hi p i :
  internal_ok p = true → 0 ≤ i < i_size_ p →
  bounds lo (Internal.separators p) hi !! Z.to_nat i = Some (child_lo lo p i) ∧
  bounds lo (Internal.separators p) hi !! S (Z.to_nat i) = Some (child_hi hi p i).
Proof.
  intros Hok Hi. destruct (internal_ok_inv p Hok) as (Hsz & Hk & Hv & _).
  pose proof (length_separators p ltac:(lia) ltac:(lia)) as Hls.
  unfold bounds, child_lo, child_hi. split.
  - destruct (i =? 0) eqn:E.
    + apply Z.eqb_eq in E. subst i. done.
    + apply Z.eqb_neq in E. replace (Z.to_nat i) with (S (Z.to_nat (i - 1))) by lia.
      simpl. rewrite lookup_app_l by (rewrite length_fmap; lia).
      rewrite list_lookup_fmap, separators_lookup by lia. done.
  - simpl. destruct (i =? i_size_ p - 1) eqn:E.
    + apply Z.eqb_eq in E. rewrite lookup_app_r by (rewrite length_fmap; lia).
      rewrite length_fmap. replace (Z.to_nat i - length (Internal.separators p))%nat with 0%nat by lia.
      done.
    + apply Z.eqb_neq in E. rewrite lookup_app_l by (rewrite length_fmap; lia).
      rewrite list_lookup_fmap.
      replace (Z.to_nat i) with (Z.to_nat (i + 1 - 1)) by lia.
      rewrite separators_lookup by lia. done.
Qed.

Lemma kids_in_children (wf : option Z → option Z → Z → Prop) lo hi p :
  internal_ok p = true →
  kids_in wf (bounds lo (Internal.separators p) hi) (Internal.children p) ↔
  ∀ i, 0 ≤ i < i_size_ p → wf (child_lo lo p i) (child_hi hi p i) (Internal.ValueAt i p).
Proof.
  intros Hok. destruct (internal_ok_inv p Hok) as (Hsz & Hk & Hv & _).
  pose proof (length_separators p ltac:(lia) ltac:(lia)) as Hls.
  pose proof (length_children p ltac:(lia) ltac:(lia)) as Hlc.
  rewrite kids_in_lookup. split.
  - intros [_ H] i Hi. destruct (bounds_lookup lo hi p i Hok Hi) as [Hl Hu].
    apply (H (Z.to_nat i)); [|done|done]. apply children_lookup; lia.
  - intros H. split; [rewrite length_bounds; lia|].
    intros i c l u Hc Hl Hu.
    assert (i < length (Internal.children p))%nat as Hi by (by eapply lookup_lt_Some).
    destruct (bounds_lookup lo hi p (Z.of_nat i) Hok ltac:(lia)) as [Hl' Hu'].
    rewrite Nat2Z.id in Hl', Hu'.
    rewrite <- (Nat2Z.id i) in Hc. rewrite children_lookup in Hc by lia.
    specialize (H (Z.of_nat i) ltac:(lia)). congruence.
Qed.

(** An internal page of a search tree, with its children as a list. *)
Lemma wf_subtree_kids h s lo hi id :
  wf_subtree (S h) s lo hi id = true ↔
  ∃ p, pages_ s !! id = Some (InternalPg p) ∧ 0 ≤ id ∧ internal_ok p = true ∧
       (∀ k, k ∈ Internal.separators p → above lo k = true ∧ at_most hi k = true) ∧
       kids_in (λ l u c, wf_subtree h s l u c = true)
               (bounds lo (Internal.separators p) hi) (Internal.children p).
Proof.
  split.
  - intros (p & Hp & Hid & Hok & Hseps & Hch)%wf_subtree_internal.
    exists p. repeat split; try done; try (by apply Hseps).
    by apply kids_in_children.
  - intros (p & Hp & Hid & Hok & Hseps & Hch).
    rewrite kids_in_children in Hch by done.
    simpl. rewrite Hp. rewrite !andb_true_iff, Z.leb_le, !forallb_forall.
    repeat split; try done.
    + intros k Hk%list_elem_of_In. apply andb_true_iff. by apply Hseps.
    + intros i Hi%list_elem_of_In%elem_of_seqZ. apply Hch. lia.
Qed.

Lemma subtree_entries_kids h s id p :
  pages_ s !! id = Some (InternalPg p) → internal_ok p = true →
  subtree_entries (S h) s id = concat (subtree_entries h s <$> Internal.children p).
Proof.
  intros Hp Hok. destruct (internal_ok_inv p Hok) as (Hsz & Hk & Hv & _).
  simpl. rewrite Hp. by rewrite seq_children by lia.
Qed.

Lemma subtree_pages_kids h s id p :
  pages_ s !! id = Some (InternalPg p) → internal_ok p = true →
  subtree_pages (S h) s id = id :: concat (subtree_pages h s <$> Internal.children p).
Proof.
  intros Hp Hok. destruct (internal_ok_inv p Hok) as (Hsz & Hk & Hv & _).
  simpl. rewrite Hp. by rewrite seq_children by lia.
Qed.

Lemma subtree_leaves_kids h s id p :
  pages_ s !! id = Some (InternalPg p) → internal_ok p = true →
  subtree_leaves (S h) s id = concat (subtree_leaves h s <$> Internal.children p).
Proof.
  intros Hp Hok. destruct (internal_ok_inv p Hok) as (Hsz & Hk & Hv & _).
  simpl. rewrite Hp. by rewrite seq_children by lia.
Qed.

(** ** Pools that agree on a subtree *)

Lemma forallb_ext_elem {A} (f g : A → bool) (l : list A) :
  (∀ x, x ∈ l → f x = g x) → forallb f l = forallb g l.
Proof.
  induction l as [|a l IH]; intros H; [done|]. simpl.
  rewrite (H a) by (by left). f_equal. apply IH. intros x Hx. apply H. by right.
Qed.

Lemma fmap_ext_elem {A B} (f g : A → B) (l : list A) :
  (∀ x, x ∈ l → f x = g x) → f <$> l = g <$> l.
Proof.
  induction l as [|a l IH]; intros H; [done|]. simpl.
  rewrite (H a) by (by left). f_equal. apply IH. intros x Hx. apply H. by right.
Qed.

Lemma subtree_pages_head h s id : id ∈ subtree_pages h s id.
Proof.
  destruct h; simpl; [by left|]. destruct (pages_ s !! id) as [[| | |p]|]; by left.
Qed.

Lemma frame_subtree h : ∀ s s' id,
  (∀ x, x ∈ subtree_pages h s id → pages_ s' !! x = pages_ s !! x) →
  (∀ lo hi, wf_subtree h s' lo hi id = wf_subtree h s lo hi id) ∧
  subtree_entries h s' id = subtree_entries h s id ∧
  subtree_pages h s' id = subtree_pages h s id ∧
  subtree_leaves h s' id = subtree_leaves h s id.
Proof.
  induction h as [|h IH]; intros s s' id Hag.
  - simpl. rewrite (Hag id) by (by left). done.
  - pose proof (Hag id (subtree_pages_head _ _ _)) as Hid.
    simpl in *. rewrite Hid. destruct (pages_ s !! id) as [[| | |p]|] eqn:Hp; try done.
    assert (Hkid : ∀ i, i ∈ seqZ 0 (i_size_ p) →
              ∀ x, x ∈ subtree_pages h s (Internal.ValueAt i p) →
                   pages_ s' !! x = pages_ s !! x).
    { intros i Hi x Hx. apply Hag. right. apply elem_of_concat.
      exists (subtree_pages h s (Internal.ValueAt i p)). split; [|done].
      apply list_elem_of_fmap. by exists i. }
    split; [|split; [|split]].
    + intros lo hi. f_equal. apply forallb_ext_elem. intros i Hi.
      by apply (IH s s' _ (Hkid i Hi)).
    + f_equal. apply fmap_ext_elem. intros i Hi. by apply (IH s s' _ (Hkid i Hi)).
    + do 2 f_equal. apply fmap_ext_elem. intros i Hi. by apply (IH s s' _ (Hkid i Hi)).
    + f_equal. apply fmap_ext_elem. intros i Hi. by apply (IH s s' _ (Hkid i Hi)).
Qed.

(** ** The shape of a search tree *)

Lemma wf_weaken h : ∀ s lo hi lo' hi' id,
  wf_subtree h s lo hi id = true →
  (∀ k, above lo k = true → above lo' k = true) →
  (∀ k, below hi k = true → below hi' k = true) →
  (∀ k, at_most hi k = true → at_most hi' k = true) →
  wf_subtree h s lo' hi' id = true.
Proof.
  induction h as [|h IH]; intros s lo hi lo' hi' id Hwf Hlo Hhi Hat.
  - destruct (wf_subtree_leaf _ _ _ _ Hwf) as (p & Hp & Hid & Hok & Hb).
    simpl. rewrite Hp. rewrite !andb_true_iff, Z.leb_le, forallb_forall.
    repeat split; try done. intros k Hk%list_elem_of_In.
    destruct (Hb k Hk). apply andb_true_iff. split; [by apply Hlo|by apply Hhi].
  - destruct (wf_subtree_internal _ _ _ _ _ Hwf) as (p & Hp & Hid & Hok & Hseps & Hch).
    simpl. rewrite Hp. rewrite !andb_true_iff, Z.leb_le, !forallb_forall.
    repeat split; try done.
    + intros k Hk%list_elem_of_In. destruct (Hseps k Hk).
      apply andb_true_iff. split; [by apply Hlo|by apply Hat].
    + intros i Hi%list_elem_of_In%elem_of_seqZ.
      apply (IH s (child_lo lo p i) (child_hi hi p i)); [apply Hch; lia| | |].
      * unfold child_lo. destruct (i =? 0); [apply Hlo|done].
      * unfold child_hi. destruct (i =? i_size_ p - 1); [apply Hhi|done].
      * unfold child_hi. destruct (i =? i_size_ p - 1); [apply Hat|done].
Qed.

(** A page is at one height only. *)
Lemma wf_height_unique h : ∀ s lo hi lo' hi' h' x,
  wf_subtree h s lo hi x = true → wf_subtree h' s lo' hi' x = true → h = h'.
Proof.
  induction h as [|h IH]; intros s lo hi lo' hi' h' x H1 H2.
  - destruct (wf_subtree_leaf _ _ _ _ H1) as (p & Hp & _).
    destruct h' as [|h']; [done|].
    destruct (wf_subtree_internal _ _ _ _ _ H2) as (q & Hq & _). congruence.
  - destruct (wf_subtree_internal _ _ _ _ _ H1) as (p & Hp & Hid & Hok & _ & Hch).
    destruct h' as [|h'].
    + destruct (wf_subtree_leaf _ _ _ _ H2) as (q & Hq & _). congruence.
    + destruct (wf_subtree_internal _ _ _ _ _ H2) as (q & Hq & _ & _ & _ & Hch').
      assert (q = p) as -> by congruence.
      destruct (internal_ok_inv p Hok) as (Hsz & _).
      f_equal.
      apply (IH s _ _ _ _ h' (Internal.ValueAt 0 p) (Hch 0 ltac:(lia)) (Hch' 0 ltac:(lia))).
Qed.

Lemma elem_of_subtree_pages h s id p x :
  pages_ s !! id = Some (InternalPg p) →
  x ∈ subtree_pages (S h) s id ↔
  x = id ∨ ∃ i, 0 ≤ i < i_size_ p ∧ x ∈ subtree_pages h s (Internal.ValueAt i p).
Proof.
  intros Hp. simpl. rewrite Hp. rewrite elem_of_cons, elem_of_concat. split.
  - intros [->|(l & Hl & Hx)]; [by left|right].
    apply list_elem_of_fmap in Hl as (i & -> & Hi%elem_of_seqZ). exists i. split; [lia|done].
  - intros [->|(i & Hi & Hx)]; [by left|right].
    exists (subtree_pages h s (Internal.ValueAt i p)). split; [|done].
    apply list_elem_of_fmap. exists i. split; [done|]. apply elem_of_seqZ. lia.
Qed.

(** A page of a search tree is the root of a search tree for keys within
    the same bounds, of a lower height unless it is the root itself. *)
Lemma subtree_pages_sub h : ∀ s lo hi id x,
  wf_subtree h s lo hi id = true → x ∈ subtree_pages h s id →
  ∃ hx lo' hi',
    wf_subtree hx s lo' hi' x = true ∧ ((x = id ∧ hx = h) ∨ (hx < h)%nat) ∧
    (∀ k, above lo' k = true → above lo k = true) ∧
    (∀ k, below hi' k = true → below hi k = true).
Proof.
  induction h as [|h IH]; intros s lo hi id x Hwf Hx.
  - simpl in Hx. apply list_elem_of_singleton in Hx as ->.
    exists 0%nat, lo, hi. split; [done|]. split; [by left|done].
  - destruct (wf_subtree_internal _ _ _ _ _ Hwf) as (p & Hp & Hid & Hok & Hseps & Hch).
    destruct (internal_ok_inv p Hok) as (Hsz & Hkl & _).
    destruct (proj1 (elem_of_subtree_pages h s id p x Hp) Hx) as [->|(i & Hi & Hx')].
    + exists (S h), lo, hi. split; [done|]. split; [by left|done].
    + destruct (IH s _ _ _ x (Hch i Hi) Hx') as (hx & lo' & hi' & Hwfx & Hh & Hlo & Hhi).
      exists hx, lo', hi'. split; [done|]. split; [right; destruct Hh as [[_ ->]|?]; lia|].
      split.
      * intros k Hk%Hlo. unfold child_lo in Hk. destruct (i =? 0) eqn:E; [done|].
        apply Z.eqb_neq in E. simpl in Hk. apply Z.leb_le in Hk.
        apply (above_le lo (Internal.KeyAt i p)); [|done].
        apply Hseps. apply elem_of_separators; [lia|]. exists i. split; [lia|done].
      * intros k Hk%Hhi. unfold child_hi in Hk. destruct (i =? i_size_ p - 1) eqn:E; [done|].
        apply Z.eqb_neq in E. simpl in Hk. apply Z.ltb_lt in Hk.
        apply (below_at_most hi (Internal.KeyAt (i + 1) p)); [|done].
        apply Hseps. apply elem_of_separators; [lia|]. exists (i + 1). split; [lia|done].
Qed.

Lemma wf_subtree_page h s lo hi id :
  wf_subtree h s lo hi id = true → tree_page s id.
Proof.
  destruct h; intros H.
  - destruct (wf_subtree_leaf _ _ _ _ H) as (p & Hp & Hid & _). left. split; [done|by exists p].
  - destruct (wf_subtree_internal _ _ _ _ _ H) as (p & Hp & Hid & _).
    right. split; [done|by exists p].
Qed.

Lemma subtree_pages_tree_page h s lo hi id x :
  wf_subtree h s lo hi id = true → x ∈ subtree_pages h s id → tree_page s x.
Proof.
  intros Hwf Hx. destruct (subtree_pages_sub h s lo hi id x Hwf Hx) as (hx & l & u & H & _).
  by apply (wf_subtree_page hx s l u x).
Qed.

(** A page does not occur below itself, nor below a page of its height. *)
Lemma no_occurrence H h s lo hi lo' hi' x y :
  wf_subtree H s lo hi x = true → wf_subtree h s lo' hi' y = true → (h < H)%nat →
  x ∉ subtree_pages h s y.
Proof.
  intros Hx Hy Hlt Hin.
  destruct (subtree_pages_sub h s lo' hi' y x Hy Hin) as (hx & l & u & Hwf & Hh & _).
  pose proof (wf_height_unique H s lo hi l u hx x Hx Hwf). destruct Hh as [[_ ?]|?]; lia.
Qed.

(** The search path stays inside the subtree. *)
Lemma path_in_subtree h : ∀ s lo hi id key x,
  wf_subtree h s lo hi id = true → x ∈ path_pages h s id key → x ∈ subtree_pages h s id.
Proof.
  induction h as [|h IH]; intros s lo hi id key x Hwf Hx; [done|].
  destruct (wf_subtree_internal _ _ _ _ _ Hwf) as (p & Hp & Hid & Hok & Hseps & Hch).
  destruct (internal_ok_inv p Hok) as (Hsz & _).
  apply (elem_of_subtree_pages h s id p x Hp).
  simpl in Hx. rewrite Hp in Hx. apply elem_of_cons in Hx as [->|Hx]; [by left|right].
  destruct (FindPage_in_range p key ltac:(lia)) as (c & Hc & Hfind). rewrite Hfind in Hx.
  exists c. split; [done|]. by apply (IH s _ _ _ key x (Hch c Hc)).
Qed.

(** A subtree whose leaves hold entries holds an entry. *)
Lemma sub_nonempty h : ∀ s lo hi id,
  wf_subtree h s lo hi id = true →
  (∀ x p, pages_ s !! x = Some (LeafPg p) → 1 ≤ l_size_ p) →
  ∃ e, e ∈ subtree_entries h s id.
Proof.
  induction h as [|h IH]; intros s lo hi id Hwf Hfull.
  - destruct (wf_subtree_leaf _ _ _ _ Hwf) as (p & Hp & Hid & Hok & Hb).
    destruct (leaf_ok_inv p Hok) as (Hsz & Hk & Hr & _).
    specialize (Hfull id p Hp). simpl. rewrite Hp.
    exists (Leaf.KeyAt 0 p, Leaf.ValueAt 0 p). apply elem_of_entries; [done|].
    exists 0. split; [lia|done].
  - destruct (wf_subtree_internal _ _ _ _ _ Hwf) as (p & Hp & Hid & Hok & Hseps & Hch).
    destruct (internal_ok_inv p Hok) as (Hsz & _).
    destruct (IH s _ _ _ (Hch 0 ltac:(lia)) Hfull) as [e He].
    exists e. simpl. rewrite Hp. apply elem_of_concat.
    exists (subtree_entries h s (Internal.ValueAt 0 p)). split; [|done].
    apply list_elem_of_fmap. exists 0. split; [done|]. apply elem_of_seqZ. lia.
Qed.

(** Two subtrees for key ranges that do not meet share no page. *)
Lemma separated_subtrees h1 h2 s l1 u1 l2 u2 a b m x :
  wf_subtree h1 s l1 u1 a = true → wf_subtree h2 s l2 u2 b = true →
  (∀ k, below u1 k = true → k < m) → (∀ k, above l2 k = true → m ≤ k) →
  (∀ y p, pages_ s !! y = Some (LeafPg p) → 1 ≤ l_size_ p) →
  x ∈ subtree_pages h1 s a → x ∈ subtree_pages h2 s b → False.
Proof.
  intros Ha Hb Hu Hl Hfull Hxa Hxb.
  destruct (subtree_pages_sub h1 s l1 u1 a x Ha Hxa) as (hx & lo1 & hi1 & Hwf1 & _ & _ & Hhi1).
  destruct (subtree_pages_sub h2 s l2 u2 b x Hb Hxb) as (hx' & lo2 & hi2 & Hwf2 & _ & Hlo2 & _).
  pose proof (wf_height_unique hx s lo1 hi1 lo2 hi2 hx' x Hwf1 Hwf2) as <-.
  destruct (sub_nonempty hx s lo1 hi1 x Hwf1 Hfull) as [e He].
  assert (e.1 ∈ (subtree_entries hx s x).*1) as Hk by (apply list_elem_of_fmap; by exists e).
  destruct (subtree_keys_bounded hx s lo1 hi1 x e.1 Hwf1 Hk) as [_ H1].
  destruct (subtree_keys_bounded hx s lo2 hi2 x e.1 Hwf2 Hk) as [H2 _].
  apply Hhi1, Hu in H1. apply Hlo2, Hl in H2. lia.
Qed.

(** The subtrees under two children of an internal page share no page. *)
Lemma siblings_disjoint h s lo hi id p i j x :
  wf_subtree (S h) s lo hi id = true → pages_ s !! id = Some (InternalPg p) →
  (∀ y q, pages_ s !! y = Some (LeafPg q) → 1 ≤ l_size_ q) →
  0 ≤ i < i_size_ p → 0 ≤ j < i_size_ p → i ≠ j →
  x ∈ subtree_pages h s (Internal.ValueAt i p) →
  x ∈ subtree_pages h s (Internal.ValueAt j p) → False.
Proof.
  intros Hwf Hp Hfull Hi Hj Hne Hxi Hxj.
  destruct (wf_subtree_internal _ _ _ _ _ Hwf) as (q & Hq & Hid & Hok & Hseps & Hch).
  assert (q = p) as -> by congruence.
  pose proof (internal_ok_sorted p Hok) as Hs.
  assert (Hgen : ∀ a b, 0 ≤ a < b → b < i_size_ p →
            ∀ y, y ∈ subtree_pages h s (Internal.ValueAt a p) →
                 y ∈ subtree_pages h s (Internal.ValueAt b p) → False).
  { intros a b Hab Hb y Hya Hyb.
    apply (separated_subtrees h h s _ _ _ _ _ _ (Internal.KeyAt b p) y
             (Hch a ltac:(lia)) (Hch b ltac:(lia))); try done.
    - intros k Hk. unfold child_hi in Hk.
      destruct (a =? i_size_ p - 1) eqn:E; [apply Z.eqb_eq in E; lia|].
      simpl in Hk. apply Z.ltb_lt in Hk.
      destruct (decide (a + 1 = b)) as [<-|]; [done|].
      assert (Internal.KeyAt (a + 1) p < Internal.KeyAt b p) by (apply Hs; lia). lia.
    - intros k Hk. unfold child_lo in Hk.
      destruct (b =? 0) eqn:E; [apply Z.eqb_eq in E; lia|].
      simpl in Hk. by apply Z.leb_le in Hk. }
  destruct (decide (i < j)).
  - apply (Hgen i j ltac:(lia) ltac:(lia) x Hxi Hxj).
  - apply (Hgen j i ltac:(lia) ltac:(lia) x Hxj Hxi).
Qed.

(** ** The lists of an internal page after an insertion or a split *)

Lemma internal_ok_lists p :
  internal_ok p = true →
  length (Internal.children p) = Z.to_nat (i_size_ p) ∧
  length (Internal.separators p) = Z.to_nat (i_size_ p - 1).
Proof.
  intros Hok. destruct (internal_ok_inv p Hok) as (Hsz & Hk & Hv & _).
  split; [apply length_children; lia|apply length_separators; lia].
Qed.

Lemma internal_all_data_lists p :
  1 ≤ i_size_ p → i_size_ p ≤ Z.of_nat (length (i_key_array_ p)) →
  i_size_ p ≤ Z.of_nat (length (i_page_id_array_ p)) →
  (internal_all_data p).*2 = Internal.children p ∧
  tail (internal_all_data p).*1 = Internal.separators p ∧
  length (internal_all_data p) = Z.to_nat (i_size_ p).
Proof.
  intros Hsz Hk Hv. unfold internal_all_data, Internal.GetSize.
  split; [|split].
  - apply list_eq. intros i. destruct (decide (Z.of_nat i < i_size_ p)) as [Hi|Hi].
    + rewrite <- (Nat2Z.id i) at 2. rewrite children_lookup by lia.
      destruct i as [|i]; [done|]. simpl.
      rewrite list_lookup_fmap, list_lookup_fmap, lookup_seqZ_lt by lia. simpl.
      do 2 f_equal. lia.
    + rewrite (lookup_ge_None_2 (Internal.children p)) by (rewrite length_children; lia).
      apply lookup_ge_None_2. simpl. rewrite !length_fmap, length_seqZ. lia.
  - simpl. apply list_eq. intros i.
    destruct (decide (Z.of_nat i < i_size_ p - 1)) as [Hi|Hi].
    + rewrite separators_lookup_nat by lia.
      rewrite list_lookup_fmap, list_lookup_fmap, lookup_seqZ_lt by lia. simpl.
      do 2 f_equal. lia.
    + rewrite (lookup_ge_None_2 (Internal.separators p)) by (rewrite length_separators; lia).
      apply lookup_ge_None_2. rewrite !length_fmap, length_seqZ. lia.
  - simpl. rewrite length_fmap, length_seqZ. lia.
Qed.

Lemma emplace_snd pos (e : Z * Z) (all_data : list (Z * Z)) :
  (emplace pos e all_data).*2 =
  take (Z.to_nat pos) all_data.*2 ++ e.2 :: drop (Z.to_nat pos) all_data.*2.
Proof. unfold emplace. by rewrite fmap_app, fmap_cons, fmap_take, fmap_drop. Qed.

Lemma tail_emplace_keys pos (e : Z * Z) (all_data : list (Z * Z)) :
  1 ≤ pos → all_data ≠ [] →
  tail (emplace pos e all_data).*1 =
  take (Z.to_nat (pos - 1)) (tail all_data.*1) ++ e.1 :: drop (Z.to_nat (pos - 1)) (tail all_data.*1).
Proof.
  intros Hpos Hne. rewrite emplace_keys.
  replace (Z.to_nat pos) with (S (Z.to_nat (pos - 1))) by lia.
  destruct all_data as [|[k v] ks]; [done|]. done.
Qed.

(** The keys the loops of the internal [Insert_Set_old] and [Insert_Set_new]
    write. *)
Lemma internal_fill_loop_keys from count (all_data : list (Z * Z)) p :
  0 ≤ from → 0 ≤ count → from + count ≤ Z.of_nat (length all_data) →
  count ≤ Z.of_nat (length (i_key_array_ p)) →
  let p' :=
    for_up from (from + count)
      (λ i p,
         let e := default (0, 0) (all_data !! Z.to_nat i) in
         let new_idx := i - from in
         let p1 := if 0 <? new_idx then internal_set_key new_idx e.1 p else p in
         Internal.IncreaseSize (internal_set_value new_idx e.2 p1))
      (internal_set_size 0 p) in
  length (i_key_array_ p') = length (i_key_array_ p) ∧
  ∀ j, 1 ≤ j < count →
    all_data.*1 !! Z.to_nat (from + j) = Some (Internal.KeyAt j p').
Proof.
  intros Hfrom Hcount Hall Hlen p'. subst p'.
  pose proof (for_up_ind (λ i q,
    length (i_key_array_ q) = length (i_key_array_ p) ∧
    ∀ j, 1 ≤ j < i - from →
      all_data.*1 !! Z.to_nat (from + j) = Some (Internal.KeyAt j q))
    from (from + count)
    (λ i p,
       let e := default (0, 0) (all_data !! Z.to_nat i) in
       let new_idx := i - from in
       let p1 := if 0 <? new_idx then internal_set_key new_idx e.1 p else p in
       Internal.IncreaseSize (internal_set_value new_idx e.2 p1))
    (internal_set_size 0 p)) as Hind.
  cbv beta in Hind. replace (from + count - from) with count in Hind by lia.
  apply Hind; clear Hind.
  - lia.
  - simpl. split; [done|]. intros j Hj. lia.
  - intros i q Hi (Hl & Hslots). cbv zeta.
    destruct (0 <? i - from) eqn:E.
    + apply Z.ltb_lt in E.
      unfold Internal.IncreaseSize, internal_set_value, internal_set_size, internal_set_key.
      simpl. rewrite length_aset. split; [done|].
      intros j Hj. unfold Internal.KeyAt. simpl.
      destruct (decide (j = i - from)) as [->|Hne].
      * rewrite aget_aset_eq by lia. replace (from + (i - from)) with i by lia.
        rewrite list_lookup_fmap.
        destruct (lookup_lt_is_Some_2 all_data (Z.to_nat i)) as [[k v] ->]; [lia|]. done.
      * rewrite aget_aset_ne by done. apply Hslots. lia.
    + apply Z.ltb_ge in E.
      unfold Internal.IncreaseSize, internal_set_value, internal_set_size. simpl.
      split; [done|]. intros j Hj. lia.
Qed.

Lemma lookup_tail {A} (l : list A) i : tail l !! i = l !! S i.
Proof. by destruct l. Qed.

(** The page [Insert_Set_old] leaves holds the first [split_idx] children and
    the separators between them. *)
Lemma Internal_Insert_Set_old_lists split_idx (all_data : list (Z * Z)) p :
  1 ≤ split_idx ≤ Z.of_nat (length all_data) →
  split_idx ≤ Z.of_nat (length (i_page_id_array_ p)) →
  split_idx ≤ Z.of_nat (length (i_key_array_ p)) →
  let p' := Internal.Insert_Set_old split_idx all_data p in
  i_size_ p' = split_idx ∧ i_max_size_ p' = i_max_size_ p ∧
  length (i_page_id_array_ p') = length (i_page_id_array_ p) ∧
  length (i_key_array_ p') = length (i_key_array_ p) ∧
  Internal.children p' = take (Z.to_nat split_idx) all_data.*2 ∧
  Internal.separators p' = take (Z.to_nat (split_idx - 1)) (tail all_data.*1).
Proof.
  intros Hs Hv Hk p'.
  destruct (Internal_Insert_Set_old_spec split_idx all_data p) as (H1 & H2 & H3 & H4); [lia..|].
  fold p' in H1, H2, H3, H4.
  assert (length (i_key_array_ p') = length (i_key_array_ p) ∧
          ∀ j, 1 ≤ j < split_idx → all_data.*1 !! Z.to_nat j = Some (Internal.KeyAt j p'))
    as [H5 H6].
  { pose proof (internal_fill_loop_keys 0 split_idx all_data p) as H.
    cbv zeta in H. rewrite Z.add_0_l in H. unfold p', Internal.Insert_Set_old. cbv zeta.
    rewrite (for_up_ext 0 split_idx _
      (λ i p,
         let e := default (0, 0) (all_data !! Z.to_nat i) in
         let new_idx := i - 0 in
         let p1 := if 0 <? new_idx then internal_set_key new_idx e.1 p else p in
         Internal.IncreaseSize (internal_set_value new_idx e.2 p1))).
    - destruct H as [Ha Hb]; try lia. split; [done|]. intros j Hj.
      specialize (Hb j Hj). by rewrite Z.add_0_l in Hb.
    - intros i q _. cbv zeta. by rewrite Z.sub_0_r. }
  repeat split; try done.
  - apply list_eq. intros i. destruct (decide (Z.of_nat i < split_idx)) as [Hi|Hi].
    + rewrite <- (Nat2Z.id i) at 1. rewrite children_lookup by lia.
      rewrite lookup_take_lt by lia. rewrite <- (H4 (Z.of_nat i)) by lia. by rewrite Nat2Z.id.
    + rewrite lookup_ge_None_2 by (rewrite length_children; lia).
      symmetry. apply lookup_ge_None_2. rewrite length_take. lia.
  - apply list_eq. intros i. destruct (decide (Z.of_nat i < split_idx - 1)) as [Hi|Hi].
    + rewrite separators_lookup_nat by lia. rewrite lookup_take_lt by lia.
      rewrite lookup_tail. rewrite <- (H6 (Z.of_nat i + 1)) by lia. f_equal. lia.
    + rewrite lookup_ge_None_2 by (rewrite length_separators; lia).
      symmetry. apply lookup_ge_None_2. rewrite length_take. lia.
Qed.

(** The page [Insert_Set_new] leaves holds the other children and the
    separators between them. *)
Lemma Internal_Insert_Set_new_lists split_idx (all_data : list (Z * Z)) p :
  0 ≤ split_idx < Z.of_nat (length all_data) →
  Z.of_nat (length all_data) - split_idx ≤ Z.of_nat (length (i_page_id_array_ p)) →
  Z.of_nat (length all_data) - split_idx ≤ Z.of_nat (length (i_key_array_ p)) →
  let p' := Internal.Insert_Set_new split_idx all_data p in
  i_size_ p' = Z.of_nat (length all_data) - split_idx ∧ i_max_size_ p' = i_max_size_ p ∧
  length (i_page_id_array_ p') = length (i_page_id_array_ p) ∧
  length (i_key_array_ p') = length (i_key_array_ p) ∧
  Internal.children p' = drop (Z.to_nat split_idx) all_data.*2 ∧
  Internal.separators p' = drop (Z.to_nat split_idx) (tail all_data.*1).
Proof.
  intros Hs Hv Hk p'.
  destruct (Internal_Insert_Set_new_spec split_idx all_data p) as (H1 & H2 & H3 & H4); [lia..|].
  fold p' in H1, H2, H3, H4.
  assert (length (i_key_array_ p') = length (i_key_array_ p) ∧
          ∀ j, 1 ≤ j < Z.of_nat (length all_data) - split_idx →
               all_data.*1 !! Z.to_nat (split_idx + j) = Some (Internal.KeyAt j p'))
    as [H5 H6].
  { pose proof (internal_fill_loop_keys split_idx (Z.of_nat (length all_data) - split_idx)
                  all_data p) as H.
    cbv zeta in H.
    replace (split_idx + (Z.of_nat (length all_data) - split_idx))
      with (Z.of_nat (length all_data)) in H by lia.
    apply H; lia. }
  repeat split; try done.
  - apply list_eq. intros i.
    destruct (decide (Z.of_nat i < Z.of_nat (length all_data) - split_idx)) as [Hi|Hi].
    + rewrite <- (Nat2Z.id i) at 1. rewrite children_lookup by lia.
      rewrite lookup_drop. rewrite <- (H4 (Z.of_nat i)) by lia. f_equal. lia.
    + rewrite lookup_ge_None_2 by (rewrite length_children; lia).
      symmetry. apply lookup_ge_None_2. rewrite length_drop, length_fmap. lia.
  - apply list_eq. intros i.
    destruct (decide (Z.of_nat i < Z.of_nat (length all_data) - split_idx - 1)) as [Hi|Hi].
    + rewrite separators_lookup_nat by lia. rewrite lookup_drop, lookup_tail.
      rewrite <- (H6 (Z.of_nat i + 1)) by lia. f_equal. lia.
    + rewrite lookup_ge_None_2 by (rewrite length_separators; lia).
      symmetry. apply lookup_ge_None_2.
      rewrite length_drop. destruct (all_data.*1) eqn:E; simpl; [lia|].
      assert (length (all_data.*1) = length all_data) as Hl by apply length_fmap.
      rewrite E in Hl. simpl in Hl. lia.
Qed.

Lemma first_at_tail (all_data : list (Z * Z)) i k :
  1 ≤ i → tail all_data.*1 !! Z.to_nat (i - 1) = Some k → first_at all_data i = k.
Proof.
  intros Hi H. rewrite lookup_tail in H.
  replace (S (Z.to_nat (i - 1))) with (Z.to_nat i) in H by lia.
  unfold first_at. rewrite list_lookup_fmap in H.
  destruct (all_data !! Z.to_nat i) as [[k' v]|]; simpl in *; congruence.
Qed.

(** ** Taking a list of children apart at one child *)

Lemma kids_in_at wf bs cs (c : nat) cc :
  kids_in wf bs cs → cs !! c = Some cc →
  ∃ l u, bs !! c = Some l ∧ bs !! S c = Some u ∧ wf l u cc ∧
         kids_in wf (take (S c) bs) (take c cs) ∧
         kids_in wf (drop (S c) bs) (drop (S c) cs).
Proof.
  intros H Hc. pose proof (kids_in_length _ _ _ H) as Hlen.
  assert (c < length cs)%nat as Hlt by (by eapply lookup_lt_Some).
  destruct (lookup_lt_is_Some_2 bs c) as [l Hl]; [lia|].
  destruct (lookup_lt_is_Some_2 bs (S c)) as [u Hu]; [lia|].
  exists l, u. split; [done|]. split; [done|].
  rewrite <- (take_drop_middle cs c cc Hc) in H.
  rewrite <- (take_drop_middle bs c l Hl) in H.
  apply kids_in_app in H as [H1 H2]; [|rewrite !length_take; lia].
  rewrite (drop_S bs u (S c) Hu) in H2. apply kids_in_cons in H2 as [H2 H3].
  split; [done|]. split.
  - by rewrite (take_S_r bs c l Hl).
  - by rewrite (drop_S bs u (S c) Hu).
Qed.

Lemma kids_in_join1 wf bs cs (c : nat) l u x :
  kids_in wf (take (S c) bs) (take c cs) → kids_in wf (drop (S c) bs) (drop (S c) cs) →
  bs !! c = Some l → bs !! S c = Some u → (c < length cs)%nat → wf l u x →
  kids_in wf bs (take c cs ++ x :: drop (S c) cs).
Proof.
  intros H1 H2 Hl Hu Hc Hx.
  rewrite <- (take_drop_middle bs c l Hl).
  apply kids_in_app; [rewrite !length_take; apply kids_in_length in H1;
                      rewrite !length_take in H1; lia|].
  split; [by rewrite <- (take_S_r bs c l Hl)|].
  rewrite (drop_S bs u (S c) Hu). apply kids_in_cons. split; [done|].
  by rewrite <- (drop_S bs u (S c) Hu).
Qed.

Lemma kids_in_join2 wf bs cs (c : nat) l u m x y :
  kids_in wf (take (S c) bs) (take c cs) → kids_in wf (drop (S c) bs) (drop (S c) cs) →
  bs !! c = Some l → bs !! S c = Some u → (c < length cs)%nat →
  wf l m x → wf m u y →
  kids_in wf (take (S c) bs ++ m :: drop (S c) bs) (take c cs ++ x :: y :: drop (S c) cs).
Proof.
  intros H1 H2 Hl Hu Hc Hx Hy.
  rewrite (take_S_r bs c l Hl). rewrite <- app_assoc. simpl.
  apply kids_in_app; [rewrite !length_take; apply kids_in_length in H1;
                      rewrite !length_take in H1; lia|].
  split; [by rewrite <- (take_S_r bs c l Hl)|].
  apply kids_in_cons. split; [done|].
  rewrite (drop_S bs u (S c) Hu). apply kids_in_cons. split; [done|].
  by rewrite <- (drop_S bs u (S c) Hu).
Qed.

Lemma take_bounds lo ks hi (c : nat) :
  (c ≤ length ks)%nat → take (S c) (bounds lo ks hi) = lo :: (Some <$> take c ks).
Proof.
  intros Hc. unfold bounds. simpl. f_equal.
  rewrite take_app_le by (rewrite length_fmap; lia). by rewrite fmap_take.
Qed.

Lemma drop_bounds lo ks hi (c : nat) :
  (c ≤ length ks)%nat → drop (S c) (bounds lo ks hi) = (Some <$> drop c ks) ++ [hi].
Proof.
  intros Hc. unfold bounds. simpl.
  rewrite drop_app_le by (rewrite length_fmap; lia). by rewrite fmap_drop.
Qed.

Lemma bounds_insert lo ks hi (c : nat) sk :
  (c ≤ length ks)%nat →
  bounds lo (take c ks ++ sk :: drop c ks) hi =
  take (S c) (bounds lo ks hi) ++ Some sk :: drop (S c) (bounds lo ks hi).
Proof.
  intros Hc. rewrite take_bounds, drop_bounds by done.
  unfold bounds. rewrite fmap_app, fmap_cons. simpl. by rewrite <- app_assoc.
Qed.

(** ** Where a split key goes in the parent *)

Lemma FindInsertPos_at p sk c :
  internal_ok p = true → 0 ≤ c < i_size_ p →
  (c ≠ 0 → Internal.KeyAt c p < sk) →
  (c ≠ i_size_ p - 1 → sk < Internal.KeyAt (c + 1) p) →
  Internal.FindInsertPos sk p = c + 1 ∧ sk ∉ Internal.separators p.
Proof.
  intros Hok Hc Hlo Hhi. pose proof (internal_ok_sorted p Hok) as Hs.
  destruct (internal_ok_inv p Hok) as (Hsz & Hk & _).
  assert (Hnin : sk ∉ Internal.separators p).
  { intros (j & Hj & Hkj)%elem_of_separators; [|lia].
    destruct (decide (j ≤ c)).
    - specialize (Hlo ltac:(lia)).
      destruct (decide (j = c)) as [->|]; [lia|].
      assert (Internal.KeyAt j p < Internal.KeyAt c p) by (apply Hs; lia). lia.
    - specialize (Hhi ltac:(lia)).
      destruct (decide (j = c + 1)) as [->|]; [lia|].
      assert (Internal.KeyAt (c + 1) p < Internal.KeyAt j p) by (apply Hs; lia). lia. }
  split; [|done].
  destruct (FindInsertPos_spec p sk Hok) as [[_ Hin]|(Hpos & _ & Hlow & Hhigh)]; [done|].
  set (pos := Internal.FindInsertPos sk p) in *.
  destruct (decide (pos ≤ c)).
  - specialize (Hhigh c ltac:(lia)). specialize (Hlo ltac:(lia)). lia.
  - destruct (decide (c + 1 < pos)); [|lia].
    specialize (Hlow (c + 1) ltac:(lia)). specialize (Hhi ltac:(lia)). lia.
Qed.

(** ** Ascending lists *)

Lemma ascending_app l1 l2 :
  ascending (l1 ++ l2) = true → ascending l1 = true ∧ ascending l2 = true.
Proof.
  intros H. split; apply ascending_intro.
  - intros i a b Ha Hb. apply (ascending_lookup (l1 ++ l2) i (S i)); [done| | |lia].
    + by apply lookup_app_l_Some.
    + by apply lookup_app_l_Some.
  - intros i a b Ha Hb.
    apply (ascending_lookup (l1 ++ l2) (length l1 + i) (length l1 + S i)); [done| | |lia].
    + by rewrite lookup_app_r, Nat.add_comm, Nat.add_sub by lia.
    + rewrite lookup_app_r by lia. by replace (length l1 + S i - length l1)%nat with (S i) by lia.
Qed.

Lemma ascending_take l n : ascending l = true → ascending (take n l) = true.
Proof. intros H. rewrite <- (take_drop n l) in H. by apply ascending_app in H as [? _]. Qed.

Lemma ascending_drop l n : ascending l = true → ascending (drop n l) = true.
Proof. intros H. rewrite <- (take_drop n l) in H. by apply ascending_app in H as [_ ?]. Qed.

Lemma ascending_NoDup l : ascending l = true → NoDup l.
Proof.
  intros H. apply NoDup_alt. intros i j x Hi Hj.
  destruct (decide (i = j)) as [|Hne]; [done|]. exfalso.
  destruct (decide (i < j)%nat).
  - pose proof (ascending_lookup l i j x x H Hi Hj ltac:(lia)). lia.
  - pose proof (ascending_lookup l j i x x H Hj Hi ltac:(lia)). lia.
Qed.

(** ** Leaves *)

Lemma leaf_keys_entries p : leaf_ok p = true → leaf_keys p = (Leaf.entries p).*1.
Proof. intros (Hsz & Hk & Hr & _)%leaf_ok_inv. symmetry. apply entries_keys. lia. Qed.

Lemma leaf_ok_SetNextPageId n p : leaf_ok (Leaf.SetNextPageId n p) = leaf_ok p.
Proof. done. Qed.

Lemma entries_SetNextPageId n p : Leaf.entries (Leaf.SetNextPageId n p) = Leaf.entries p.
Proof. done. Qed.

(** A leaf with a free slot after [Insert]. *)
Lemma Leaf_Insert_lists p key value :
  leaf_ok p = true → l_size_ p < LEAF_PAGE_SLOT_CNT → key ∉ leaf_keys p →
  let p' := Leaf.Insert key value p in
  let pos := Leaf.FindFirstGreaterOrEqual key p in
  leaf_ok p' = true ∧
  Leaf.entries p' = take (Z.to_nat pos) (Leaf.entries p) ++
                    (key, value) :: drop (Z.to_nat pos) (Leaf.entries p) ∧
  l_next_page_id_ p' = l_next_page_id_ p.
Proof.
  intros Hok Hroom Hnin p' pos.
  destruct (leaf_ok_inv p Hok) as (Hsz & Hk & Hr & Hasc).
  destruct (FindFirstGreaterOrEqual_spec p key Hok) as (Hpos & Hlow & Hhigh).
  fold pos in Hpos, Hlow, Hhigh.
  destruct (InsertAt_spec pos key value p) as (H1 & H2 & H3 & H4 & H5 & H6); [lia..|].
  change (Leaf.InsertAt pos key value p) with p' in H1, H2, H3, H4, H5, H6.
  split; [|split; [exact H6|exact H3]].
  apply leaf_ok_intro; [lia|congruence|congruence|].
  rewrite <- entries_keys by lia. rewrite H6.
  apply (emplace_sorted p key value Hok Hnin).
Qed.

(** The two leaves a split leaves. *)
Lemma leaf_split_pages p key value max_size n nx :
  leaf_ok p = true → 1 ≤ l_size_ p → key ∉ leaf_keys p →
  let all_data :=
    emplace (Leaf.FindFirstGreaterOrEqual key p) (key, value) (leaf_all_data p) in
  let split_idx := (Z.of_nat (length all_data) + 1) / 2 in
  let L := Leaf.SetNextPageId n (Leaf.Insert_Set_old split_idx all_data p) in
  let R := Leaf.SetNextPageId nx
             (Leaf.Insert_Set_new split_idx all_data (Leaf.Init max_size zero_leaf)) in
  all_data = emplace (Leaf.FindFirstGreaterOrEqual key p) (key, value) (Leaf.entries p) ∧
  ascending all_data.*1 = true ∧
  Z.of_nat (length all_data) = l_size_ p + 1 ∧
  1 ≤ split_idx < Z.of_nat (length all_data) ∧
  leaf_ok L = true ∧ leaf_ok R = true ∧
  Leaf.entries L = take (Z.to_nat split_idx) all_data ∧
  Leaf.entries R = drop (Z.to_nat split_idx) all_data ∧
  l_next_page_id_ L = n ∧ l_next_page_id_ R = nx.
Proof.
  intros Hok Hn Hnin all_data split_idx L R.
  destruct (leaf_ok_inv p Hok) as (Hsz & Hk & Hr & Hasc).
  assert (Hall : all_data =
            emplace (Leaf.FindFirstGreaterOrEqual key p) (key, value) (Leaf.entries p)).
  { unfold all_data. by rewrite leaf_all_data_entries by lia. }
  assert (Hlen : Z.of_nat (length all_data) = l_size_ p + 1).
  { rewrite Hall, length_emplace, length_entries by lia. lia. }
  assert (Hsorted : ascending all_data.*1 = true).
  { rewrite Hall. by apply emplace_sorted. }
  assert (Hsplit : 1 ≤ split_idx < Z.of_nat (length all_data)).
  { unfold split_idx. rewrite Hlen.
    pose proof (Z.div_mod (l_size_ p + 1 + 1) 2 ltac:(lia)).
    pose proof (Z.mod_pos_bound (l_size_ p + 1 + 1) 2 ltac:(lia)). lia. }
  assert (LEAF_PAGE_SLOT_CNT = 254) as Hcnt by reflexivity.
  destruct (Insert_Set_old_spec split_idx all_data p) as (Hl1 & Hl2 & Hl3 & Hl4 & Hl5 & Hl6);
    [lia..|].
  set (fresh := Leaf.Init max_size zero_leaf) in *.
  assert (length (l_key_array_ fresh) = Z.to_nat LEAF_PAGE_SLOT_CNT) as Hfk.
  { unfold fresh, Leaf.Init, zero_leaf. cbn [l_key_array_]. apply length_replicate. }
  assert (length (l_rid_array_ fresh) = Z.to_nat LEAF_PAGE_SLOT_CNT) as Hfr.
  { unfold fresh, Leaf.Init, zero_leaf. cbn [l_rid_array_]. apply length_replicate. }
  destruct (Insert_Set_new_spec split_idx all_data fresh) as (Hr1 & Hr2 & Hr3 & Hr4 & Hr5 & Hr6);
    [lia..|].
  split; [done|]. split; [done|]. split; [done|]. split; [done|].
  split; [|split; [|split; [exact Hl6|split; [exact Hr6|done]]]].
  - unfold L. rewrite leaf_ok_SetNextPageId. apply leaf_ok_intro; [lia|congruence|congruence|].
    rewrite <- entries_keys by lia. rewrite Hl6, fmap_take. by apply ascending_take.
  - unfold R. rewrite leaf_ok_SetNextPageId. apply leaf_ok_intro; [lia|congruence|congruence|].
    rewrite <- entries_keys by lia. rewrite Hr6, fmap_drop. by apply ascending_drop.
Qed.

Lemma wf_leaf_intro s lo hi id p :
  pages_ s !! id = Some (LeafPg p) → 0 ≤ id → leaf_ok p = true →
  (∀ k, k ∈ (Leaf.entries p).*1 → above lo k = true ∧ below hi k = true) →
  wf_subtree 0 s lo hi id = true.
Proof.
  intros Hp Hid Hok Hb. simpl. rewrite Hp.
  rewrite !andb_true_iff, Z.leb_le, forallb_forall. repeat split; try done.
  intros k Hk%list_elem_of_In. apply andb_true_iff. apply Hb.
  by rewrite <- leaf_keys_entries.
Qed.

Lemma inserted_emplace {A} (e : A) pos (l : list A) :
  inserted e l (take pos l ++ e :: drop pos l).
Proof. exists (take pos l), (drop pos l). by rewrite take_drop. Qed.

Lemma inserted_elem {A} (e x : A) l l' : inserted e l l' → x ∈ l' ↔ x = e ∨ x ∈ l.
Proof.
  intros (l1 & l2 & -> & ->). rewrite !elem_of_app, elem_of_cons. tauto.
Qed.

Lemma inserted_perm {A} (e : A) l l' : inserted e l l' → l' ≡ₚ e :: l.
Proof. intros (l1 & l2 & -> & ->). by rewrite Permutation_middle. Qed.

Lemma inserted_app {A} (e : A) a l l' b :
  inserted e l l' → inserted e (a ++ l ++ b) (a ++ l' ++ b).
Proof.
  intros (l1 & l2 & -> & ->). exists (a ++ l1), (l2 ++ b).
  split; by rewrite <- !app_assoc.
Qed.

Lemma frame_of_insert pgs s id pg :
  id ∈ pgs → frame_of pgs s (with_pages (<[id := pg]> (pages_ s)) s).
Proof.
  intros Hin. split; [simpl; lia|]. intros x Hx _. simpl.
  rewrite lookup_insert_ne; [done|]. intros ->. done.
Qed.

Lemma frame_of_split pgs s id pg new_pg fails :
  id ∈ pgs →
  frame_of pgs s
    (mkPool (<[id := pg]> (<[next_page_id_ s := new_pg]> (pages_ s)))
            (next_page_id_ s + 1) fails).
Proof.
  intros Hin. split; [simpl; lia|]. intros x Hx Hlt. simpl.
  rewrite !lookup_insert_ne; [done|lia|]. intros ->. done.
Qed.

Lemma frame_of_trans pgs s1 s2 s3 :
  frame_of pgs s1 s2 → frame_of pgs s2 s3 → frame_of pgs s1 s3.
Proof.
  intros [H1 H2] [H3 H4]. split; [lia|]. intros x Hx Hlt.
  rewrite H4 by (done || lia). by apply H2.
Qed.

Lemma frame_of_weaken pgs pgs' s s' :
  (∀ x, x ∈ pgs → x ∈ pgs') → frame_of pgs s s' → frame_of pgs' s s'.
Proof. intros Hsub [H1 H2]. split; [done|]. intros x Hx. apply H2. intros ?. apply Hx. auto. Qed.

Lemma insert_ready_caps t s : insert_ready t s → 1 ≤ leaf_max_size_ t ≤ LEAF_PAGE_SLOT_CNT.
Proof. intros (HI & _ & H). destruct (inv_caps t s HI). lia. Qed.

(** [InsertIntoLeaf] on a leaf of a search tree that does not hold the key:
    a leaf with room takes the entry, a full leaf is split. *)
Lemma InsertIntoLeaf_step t key value s lo hi id ctx :
  insert_ready t s → wf_subtree 0 s lo hi id = true →
  above lo key = true → below hi key = true →
  key ∉ (subtree_entries 0 s id).*1 → back ctx = Some id →
  let r := InsertIntoLeaf t ctx id key value s in
  ∃ p, pages_ s !! id = Some (LeafPg p) ∧
       if l_size_ p <? l_max_size_ p then insert_done t key value 0 s lo hi id r
       else insert_split t key value 0 s lo hi id ctx r.
Proof.
  intros Hready Hwf Hlo Hhi Hnin Hback r.
  destruct Hready as (HI & Hfails & Hcap).
  destruct (wf_subtree_leaf _ _ _ _ Hwf) as (p & Hp & Hid & Hok & Hb).
  destruct (leaf_ok_inv p Hok) as (Hsz & Hk & Hr & Hasc).
  destruct (inv_leaves t s HI id p Hp) as (Hmax & Hsize & _).
  destruct (inv_caps t s HI) as [Hlcap _].
  assert (Hlt : 0 ≤ id < next_page_id_ s) by (apply (inv_fresh t s HI); by rewrite Hp).
  simpl in Hnin. rewrite Hp in Hnin. rewrite <- leaf_keys_entries in Hnin by done.
  exists p. split; [done|].
  pose proof (InsertIntoLeaf_cases t ctx s id id p key value Hback Hid Hp ltac:(lia)) as Hcases.
  cbv zeta in Hcases. fold r in Hcases.
  assert ((Leaf.FindFirstGreaterOrEqual key p <? l_size_ p) &&
          (Leaf.KeyAt (Leaf.FindFirstGreaterOrEqual key p) p =? key) = false) as Htest.
  { apply not_true_is_false. intros H. by apply (leaf_key_test p key Hok) in H. }
  rewrite Htest in Hcases.
  destruct (l_size_ p <? l_max_size_ p) eqn:Eroom.
  - apply Z.ltb_lt in Eroom.
    destruct (Leaf_Insert_lists p key value Hok ltac:(lia) Hnin) as (Hok' & Hent & Hnext).
    eexists. split; [exact Hcases|]. split.
    { split; [by apply sizes_inv_leaf_room|done]. }
    split; [apply frame_of_insert; simpl; by left|].
    split.
    { apply (wf_leaf_intro _ lo hi id (Leaf.Insert key value p));
        [simpl; apply lookup_insert_eq|done|done|].
      intros k Hkin. rewrite Hent in Hkin.
      apply list_elem_of_fmap in Hkin as (e & -> & He).
      apply (inserted_elem _ e _ _ (inserted_emplace (key, value) _ _)) in He as [->|He].
      - done.
      - apply Hb. rewrite leaf_keys_entries by done. apply list_elem_of_fmap. by exists e. }
    split.
    { simpl. rewrite Hp, lookup_insert_eq. rewrite Hent. apply inserted_emplace. }
    exists id, p. split; [simpl; by rewrite Hp|].
    exists [], []. split; [done|]. left. split; [done|].
    unfold next_leaf. simpl. by rewrite Hp, lookup_insert_eq.
  - apply Z.ltb_ge in Eroom. rewrite Hfails in Hcases.
    assert (Hn : 1 ≤ l_size_ p) by lia.
    destruct (leaf_split_pages p key value (leaf_max_size_ t) (next_page_id_ s)
                (l_next_page_id_ p) Hok Hn Hnin)
      as (Hall & Hsorted & Hlen & Hsplit & HokL & HokR & HentL & HentR & HnL & HnR).
    set (all_data := emplace _ _ (leaf_all_data p)) in *.
    set (split_idx := (Z.of_nat (length all_data) + 1) / 2) in *.
    set (L := Leaf.SetNextPageId _ (Leaf.Insert_Set_old _ _ _)) in *.
    set (R := Leaf.SetNextPageId _ (Leaf.Insert_Set_new _ _ _)) in *.
    set (s1 := mkPool _ _ _) in Hcases.
    destruct (sizes_inv_split_leaf t s id p all_data (tail []) HI Hp ltac:(lia) Hlen)
      as (HI1 & _ & Hmin).
    destruct (lookup_lt_is_Some_2 all_data (Z.to_nat split_idx)) as [[sk v] Hsk]; [lia|].
    assert (Hfirst : first_at all_data split_idx = sk) by (unfold first_at; by rewrite Hsk).
    destruct (lookup_lt_is_Some_2 all_data 0%nat) as [[k0 v0] Hk0]; [lia|].
    assert (Hkeys : ∀ e, e ∈ all_data → above lo e.1 = true ∧ below hi e.1 = true).
    { intros e He. rewrite Hall in He.
      apply (inserted_elem _ e _ _ (inserted_emplace (key, value) _ _)) in He as [->|He]; [done|].
      apply Hb. rewrite leaf_keys_entries by done. apply list_elem_of_fmap. by exists e. }
    assert (Hlow : ∀ i e, (i < Z.to_nat split_idx)%nat → all_data !! i = Some e → e.1 < sk).
    { intros i e Hi He.
      apply (ascending_lookup all_data.*1 i (Z.to_nat split_idx)); [done| | |lia].
      - rewrite list_lookup_fmap, He. done.
      - rewrite list_lookup_fmap, Hsk. done. }
    assert (Hhigh : ∀ i e, (Z.to_nat split_idx ≤ i)%nat → all_data !! i = Some e → sk ≤ e.1).
    { intros i e Hi He. destruct (decide (i = Z.to_nat split_idx)) as [->|Hne].
      - rewrite Hsk in He. by injection He as <-.
      - assert (sk < e.1); [|lia].
        apply (ascending_lookup all_data.*1 (Z.to_nat split_idx) i); [done| | |lia].
        + rewrite list_lookup_fmap, Hsk. done.
        + rewrite list_lookup_fmap, He. done. }
    exists s1, sk, (next_page_id_ s).
    split; [rewrite Hcases, Hfirst; reflexivity|].
    split; [split; [exact HI1|done]|].
    split; [apply frame_of_split; simpl; by left|].
    split; [simpl; lia|].
    split.
    { intros l ->. pose proof (Hlow 0%nat _ ltac:(lia) Hk0) as H0. simpl in H0.
      destruct (Hkeys (k0, v0)) as [Ha _]; [by eapply list_elem_of_lookup_2|].
      simpl in Ha. apply Z.leb_le in Ha. lia. }
    split.
    { destruct (Hkeys (sk, v)) as [_ Hbk]; [by eapply list_elem_of_lookup_2|]. done. }
    split.
    { apply (wf_leaf_intro _ lo (Some sk) id L);
        [simpl; apply lookup_insert_eq|done|done|].
      intros k Hkin. rewrite HentL in Hkin.
      apply list_elem_of_fmap in Hkin as (e & -> & He).
      apply list_elem_of_lookup in He as [i Hi].
      assert (i < Z.to_nat split_idx)%nat as Hilt.
      { apply lookup_lt_Some in Hi. rewrite length_take in Hi. lia. }
      rewrite lookup_take_lt in Hi by done.
      split; [apply Hkeys; by eapply list_elem_of_lookup_2|].
      simpl. apply Z.ltb_lt. by apply (Hlow i). }
    split.
    { apply (wf_leaf_intro _ (Some sk) hi (next_page_id_ s) R);
        [simpl; rewrite lookup_insert_ne by lia; apply lookup_insert_eq|lia|done|].
      intros k Hkin. rewrite HentR in Hkin.
      apply list_elem_of_fmap in Hkin as (e & -> & He).
      apply list_elem_of_lookup in He as [i Hi]. rewrite lookup_drop in Hi.
      split; [|apply Hkeys; by eapply list_elem_of_lookup_2].
      simpl. apply Z.leb_le. apply (Hhigh (Z.to_nat split_idx + i)%nat); [lia|done]. }
    assert (HeL : subtree_entries 0 s1 id = Leaf.entries L)
      by (simpl; by rewrite lookup_insert_eq).
    assert (HeR : subtree_entries 0 s1 (next_page_id_ s) = Leaf.entries R)
      by (simpl; rewrite lookup_insert_ne by lia; by rewrite lookup_insert_eq).
    rewrite HeL, HeR, HentL, HentR.
    split.
    { intros E. apply (f_equal length) in E. rewrite length_take in E. simpl in E. lia. }
    split.
    { intros E. apply (f_equal length) in E. rewrite length_drop in E. simpl in E. lia. }
    split.
    { rewrite take_drop. simpl. rewrite Hp, Hall. apply inserted_emplace. }
    split.
    { intros q Hq. unfold s1 in Hq. simpl in Hq. rewrite lookup_insert_eq in Hq.
      injection Hq as <-.
      destruct (Insert_Set_old_fields split_idx all_data p ltac:(lia)) as (_ & HL2 & _).
      unfold L. simpl. rewrite HL2. exact Hmin. }
    split.
    { intros q Hq. unfold s1 in Hq. simpl in Hq. by rewrite lookup_insert_eq in Hq. }
    exists id, p. split; [simpl; by rewrite Hp|].
    exists [], []. split; [done|]. right. exists (next_page_id_ s).
    split; [lia|]. split; [done|]. unfold next_leaf, s1. simpl.
    rewrite lookup_insert_eq, lookup_insert_ne by lia. rewrite lookup_insert_eq, Hp. done.
Qed.

(** ** The other children of a page on the search path *)

Lemma elem_of_take_children p c x :
  0 ≤ c ≤ i_size_ p → i_size_ p ≤ Z.of_nat (length (i_page_id_array_ p)) →
  x ∈ take (Z.to_nat c) (Internal.children p) → ∃ j, 0 ≤ j < c ∧ x = Internal.ValueAt j p.
Proof.
  intros Hc Hlen Hx. apply list_elem_of_lookup in Hx as [i Hi].
  assert (i < Z.to_nat c)%nat as Hlt.
  { apply lookup_lt_Some in Hi. rewrite length_take in Hi. lia. }
  rewrite lookup_take_lt in Hi by done.
  rewrite <- (Nat2Z.id i) in Hi. rewrite children_lookup in Hi by lia.
  exists (Z.of_nat i). split; [lia|congruence].
Qed.

Lemma elem_of_drop_children p c x :
  0 ≤ c → i_size_ p ≤ Z.of_nat (length (i_page_id_array_ p)) →
  x ∈ drop (Z.to_nat c) (Internal.children p) →
  ∃ j, c ≤ j < i_size_ p ∧ x = Internal.ValueAt j p.
Proof.
  intros Hc Hlen Hx. apply list_elem_of_lookup in Hx as [i Hi].
  rewrite lookup_drop in Hi.
  assert (Z.to_nat c + i < length (Internal.children p))%nat as Hlt
    by (by eapply lookup_lt_Some).
  destruct (decide (0 ≤ i_size_ p)) as [H0|H0].
  - rewrite length_children in Hlt by lia.
    replace (Z.to_nat c + i)%nat with (Z.to_nat (c + Z.of_nat i)) in Hi by lia.
    rewrite children_lookup in Hi by lia.
    exists (c + Z.of_nat i). split; [lia|congruence].
  - unfold Internal.children in Hlt. rewrite length_take in Hlt. lia.
Qed.

(** What changes on the search path below child [c] of a page, in the page
    itself and in pages handed out later leaves the subtrees under the
    other children as they were. *)
Lemma sibling_frame t h s s' lo hi id p c key j x :
  sizes_inv t s → wf_subtree (S h) s lo hi id = true →
  pages_ s !! id = Some (InternalPg p) →
  (∀ y q, pages_ s !! y = Some (LeafPg q) → 1 ≤ l_size_ q) →
  0 ≤ c < i_size_ p →
  frame_of (id :: path_pages h s (Internal.ValueAt c p) key) s s' →
  0 ≤ j < i_size_ p → j ≠ c →
  x ∈ subtree_pages h s (Internal.ValueAt j p) →
  pages_ s' !! x = pages_ s !! x.
Proof.
  intros HI Hwf Hp Hfull Hc [_ Hframe] Hj Hne Hx.
  destruct (wf_subtree_internal _ _ _ _ _ Hwf) as (q & Hq & Hid & Hok & Hseps & Hch).
  assert (q = p) as -> by congruence.
  apply Hframe.
  - intros [->|Hpath]%elem_of_cons.
    + apply (no_occurrence (S h) h s lo hi _ _ id (Internal.ValueAt j p) Hwf (Hch j Hj));
        [lia|done].
    + apply (path_in_subtree h s _ _ _ key x (Hch c Hc)) in Hpath.
      by apply (siblings_disjoint h s lo hi id p j c x).
  - pose proof (subtree_pages_tree_page h s _ _ _ x (Hch j Hj) Hx) as Htp.
    destruct (sizes_inv_tree_page t s x HI Htp) as [? _]. lia.
Qed.

Lemma siblings_same t h s s' lo hi id p c key x :
  sizes_inv t s → wf_subtree (S h) s lo hi id = true →
  pages_ s !! id = Some (InternalPg p) →
  (∀ y q, pages_ s !! y = Some (LeafPg q) → 1 ≤ l_size_ q) →
  0 ≤ c < i_size_ p →
  frame_of (id :: path_pages h s (Internal.ValueAt c p) key) s s' →
  x ∈ take (Z.to_nat c) (Internal.children p) ++ drop (S (Z.to_nat c)) (Internal.children p) →
  (∀ l u, wf_subtree h s' l u x = wf_subtree h s l u x) ∧
  subtree_entries h s' x = subtree_entries h s x ∧
  subtree_pages h s' x = subtree_pages h s x ∧
  subtree_leaves h s' x = subtree_leaves h s x.
Proof.
  intros HI Hwf Hp Hfull Hc Hframe Hx.
  destruct (wf_subtree_internal _ _ _ _ _ Hwf) as (q & Hq & Hid & Hok & Hseps & Hch).
  assert (q = p) as -> by congruence.
  destruct (internal_ok_inv p Hok) as (Hsz & Hk & Hv & _).
  assert (∃ j, 0 ≤ j < i_size_ p ∧ j ≠ c ∧ x = Internal.ValueAt j p) as (j & Hj & Hne & ->).
  { apply elem_of_app in Hx as [Hx|Hx].
    - apply elem_of_take_children in Hx as (j & Hj & ->); [|lia|lia].
      exists j. split; [lia|]. split; [lia|done].
    - replace (S (Z.to_nat c)) with (Z.to_nat (c + 1)) in Hx by lia.
      apply elem_of_drop_children in Hx as (j & Hj & ->); [|lia|lia].
      exists j. split; [lia|]. split; [lia|done]. }
  apply frame_subtree. intros y Hy.
  by apply (sibling_frame t h s s' lo hi id p c key j y).
Qed.

Lemma children_at p c :
  internal_ok p = true → 0 ≤ c < i_size_ p →
  Internal.children p =
  take (Z.to_nat c) (Internal.children p) ++
  Internal.ValueAt c p :: drop (S (Z.to_nat c)) (Internal.children p).
Proof.
  intros Hok Hc. destruct (internal_ok_inv p Hok) as (Hsz & Hk & Hv & _).
  symmetry. apply take_drop_middle. apply children_lookup; lia.
Qed.

Lemma leaves_step_app s s' target a l l' b :
  leaves_step s s' target l l' → leaves_step s s' target (a ++ l ++ b) (a ++ l' ++ b).
Proof.
  intros (l1 & l2 & -> & H). exists (a ++ l1), (l2 ++ b).
  split; [by rewrite <- !app_assoc|].
  destruct H as [[-> Hn]|(n & Hn & -> & H1 & H2)].
  - left. split; [by rewrite <- !app_assoc|done].
  - right. exists n. split; [done|]. split; [by rewrite <- !app_assoc|done].
Qed.

Lemma concat_at {A} (f f' : Z → list A) (a b : list Z) (x : Z) :
  (∀ y, y ∈ a ++ b → f' y = f y) →
  concat (f' <$> (a ++ x :: b)) = concat (f <$> a) ++ f' x ++ concat (f <$> b).
Proof.
  intros H. rewrite fmap_app, fmap_cons, concat_app. simpl.
  rewrite (fmap_ext_elem f' f a) by (intros y Hy; apply H, elem_of_app; by left).
  rewrite (fmap_ext_elem f' f b) by (intros y Hy; apply H, elem_of_app; by right).
  done.
Qed.

Lemma concat_at2 {A} (f f' : Z → list A) (a b : list Z) (x y : Z) :
  (∀ z, z ∈ a ++ b → f' z = f z) →
  concat (f' <$> (a ++ x :: y :: b)) = concat (f <$> a) ++ (f' x ++ f' y) ++ concat (f <$> b).
Proof.
  intros H. rewrite fmap_app, !fmap_cons, concat_app. simpl.
  rewrite (fmap_ext_elem f' f a) by (intros z Hz; apply H, elem_of_app; by left).
  rewrite (fmap_ext_elem f' f b) by (intros z Hz; apply H, elem_of_app; by right).
  by rewrite <- !app_assoc.
Qed.

(** ** From a child to its parent *)

Lemma path_pages_internal h s id p key :
  pages_ s !! id = Some (InternalPg p) →
  path_pages (S h) s id key = id :: path_pages h s (Internal.FindPage key p) key.
Proof. intros Hp. simpl. by rewrite Hp. Qed.

Lemma find_leaf_internal h s id p key :
  pages_ s !! id = Some (InternalPg p) →
  find_leaf (S h) s id key = find_leaf h s (Internal.FindPage key p) key.
Proof. intros Hp. simpl. by rewrite Hp. Qed.

(** The page on the search path is not below its children, so it is as it
    was after an insertion below one of them. *)
Lemma parent_kept t h s s' lo hi id p c key :
  sizes_inv t s → wf_subtree (S h) s lo hi id = true →
  pages_ s !! id = Some (InternalPg p) → 0 ≤ c < i_size_ p →
  frame_of (path_pages h s (Internal.ValueAt c p) key) s s' →
  pages_ s' !! id = Some (InternalPg p).
Proof.
  intros HI Hwf Hp Hc [_ Hframe].
  destruct (wf_subtree_internal _ _ _ _ _ Hwf) as (q & Hq & Hid & Hok & Hseps & Hch).
  assert (q = p) as -> by congruence.
  rewrite Hframe; [done| |].
  - intros Hin. apply (path_in_subtree h s _ _ _ key id (Hch c Hc)) in Hin.
    apply (no_occurrence (S h) h s lo hi _ _ id (Internal.ValueAt c p) Hwf (Hch c Hc));
      [lia|done].
  - assert (0 ≤ id < next_page_id_ s); [|lia]. apply (inv_fresh t s HI). by rewrite Hp.
Qed.

(** An insertion that is done below a child is done below the page. *)
Lemma lift_done t key value h s lo hi id p c r :
  insert_ready t s → wf_subtree (S h) s lo hi id = true →
  pages_ s !! id = Some (InternalPg p) →
  (∀ y q, pages_ s !! y = Some (LeafPg q) → 1 ≤ l_size_ q) →
  0 ≤ c < i_size_ p → Internal.FindPage key p = Internal.ValueAt c p →
  insert_done t key value h s (child_lo lo p c) (child_hi hi p c) (Internal.ValueAt c p) r →
  insert_done t key value (S h) s lo hi id r.
Proof.
  intros (HI & Hfails & Hcap) Hwf Hp Hfull Hc Hfind
         (s' & -> & Hready' & Hframe & Hwfc & Hins & lid & lp & Hfl & Hstep).
  pose proof (proj1 (wf_subtree_kids h s lo hi id) Hwf) as (q & Hq & Hid & Hok & Hseps & Hkids).
  assert (q = p) as -> by congruence.
  destruct (internal_ok_inv p Hok) as (Hsz & Hk & Hv & _).
  destruct (internal_ok_lists p Hok) as [Hlc Hls].
  set (cc := Internal.ValueAt c p) in *.
  set (cs := Internal.children p) in *.
  set (bs := bounds lo (Internal.separators p) hi) in *.
  assert (Hcc : cs !! Z.to_nat c = Some cc) by (apply children_lookup; lia).
  pose proof (parent_kept t h s s' lo hi id p c key HI Hwf Hp Hc Hframe) as Hp'.
  assert (Hframe' : frame_of (id :: path_pages h s cc key) s s').
  { apply (frame_of_weaken (path_pages h s cc key)); [|done]. intros x Hx. by right. }
  pose proof (siblings_same t h s s' lo hi id p c key) as Hsame.
  exists s'. split; [done|]. split; [done|].
  split; [rewrite (path_pages_internal h s id p key Hp), Hfind; exact Hframe'|].
  split; [|split].
  - apply wf_subtree_kids. exists p. split; [done|]. split; [done|]. split; [done|].
    split; [done|]. fold cs bs.
    destruct (kids_in_at _ bs cs (Z.to_nat c) cc Hkids Hcc) as (l & u & Hl & Hu & _ & K1 & K2).
    destruct (bounds_lookup lo hi p c Hok Hc) as [Hl' Hu']. fold bs in Hl', Hu'.
    assert (l = child_lo lo p c) as -> by congruence.
    assert (u = child_hi hi p c) as -> by congruence.
    replace cs with (take (Z.to_nat c) cs ++ cc :: drop (S (Z.to_nat c)) cs) at 1
      by (symmetry; apply (children_at p c Hok Hc)).
    apply (kids_in_join1 _ bs cs (Z.to_nat c) (child_lo lo p c) (child_hi hi p c) cc);
      [| |done|done|lia|done].
    + apply (kids_in_impl (λ l u x, wf_subtree h s l u x = true)); [|done].
      intros l u x Hx Hwfx.
      destruct (Hsame x HI Hwf Hp Hfull Hc Hframe') as [E _];
        [apply elem_of_app; by left|]. by rewrite E.
    + apply (kids_in_impl (λ l u x, wf_subtree h s l u x = true)); [|done].
      intros l u x Hx Hwfx.
      destruct (Hsame x HI Hwf Hp Hfull Hc Hframe') as [E _];
        [apply elem_of_app; by right|]. by rewrite E.
  - rewrite (subtree_entries_kids h s id p Hp Hok), (subtree_entries_kids h s' id p Hp' Hok).
    rewrite (children_at p c Hok Hc). fold cs cc.
    rewrite (concat_at (subtree_entries h s) (subtree_entries h s)) by done.
    rewrite (concat_at (subtree_entries h s) (subtree_entries h s')).
    + by apply inserted_app.
    + intros y Hy. by destruct (Hsame y HI Hwf Hp Hfull Hc Hframe' Hy) as (_ & E & _).
  - exists lid, lp. split; [by rewrite (find_leaf_internal h s id p key Hp), Hfind|].
    rewrite (subtree_leaves_kids h s id p Hp Hok), (subtree_leaves_kids h s' id p Hp' Hok).
    rewrite (children_at p c Hok Hc). fold cs cc.
    rewrite (concat_at (subtree_leaves h s) (subtree_leaves h s)) by done.
    rewrite (concat_at (subtree_leaves h s) (subtree_leaves h s')).
    + by apply leaves_step_app.
    + intros y Hy. by destruct (Hsame y HI Hwf Hp Hfull Hc Hframe' Hy) as (_ & _ & _ & E).
Qed.

Lemma frame_of_compose pgs id s s1 s2 :
  frame_of pgs s s1 → frame_of [id] s1 s2 → frame_of (id :: pgs) s s2.
Proof.
  intros [H1 H2] [H3 H4]. split; [lia|]. intros x Hx Hlt.
  rewrite H4; [apply H2; [|done]| |lia].
  - intros ?. apply Hx. by right.
  - intros ->%list_elem_of_singleton. apply Hx. by left.
Qed.

(** The page is still the root of a search tree when the subtree under the
    child on the search path was replaced by one for the same bounds. *)
Lemma node_wf t h s s' lo hi id p c key :
  sizes_inv t s → wf_subtree (S h) s lo hi id = true →
  pages_ s !! id = Some (InternalPg p) →
  (∀ y q, pages_ s !! y = Some (LeafPg q) → 1 ≤ l_size_ q) →
  0 ≤ c < i_size_ p →
  frame_of (path_pages h s (Internal.ValueAt c p) key) s s' →
  wf_subtree h s' (child_lo lo p c) (child_hi hi p c) (Internal.ValueAt c p) = true →
  wf_subtree (S h) s' lo hi id = true.
Proof.
  intros HI Hwf Hp Hfull Hc Hframe Hwfc.
  pose proof (proj1 (wf_subtree_kids h s lo hi id) Hwf) as (q & Hq & Hid & Hok & Hseps & Hkids).
  assert (q = p) as -> by congruence.
  destruct (internal_ok_inv p Hok) as (Hsz & Hk & Hv & _).
  destruct (internal_ok_lists p Hok) as [Hlc Hls].
  set (cc := Internal.ValueAt c p) in *.
  set (cs := Internal.children p) in *.
  set (bs := bounds lo (Internal.separators p) hi) in *.
  assert (Hcc : cs !! Z.to_nat c = Some cc) by (apply children_lookup; lia).
  pose proof (parent_kept t h s s' lo hi id p c key HI Hwf Hp Hc Hframe) as Hp'.
  assert (Hframe' : frame_of (id :: path_pages h s cc key) s s').
  { apply (frame_of_weaken (path_pages h s cc key)); [|done]. intros x Hx. by right. }
  pose proof (siblings_same t h s s' lo hi id p c key) as Hsame.
  apply wf_subtree_kids. exists p. split; [done|]. split; [done|]. split; [done|].
  split; [done|]. fold cs bs.
  destruct (kids_in_at _ bs cs (Z.to_nat c) cc Hkids Hcc) as (l & u & Hl & Hu & _ & K1 & K2).
  destruct (bounds_lookup lo hi p c Hok Hc) as [Hl' Hu']. fold bs in Hl', Hu'.
  assert (l = child_lo lo p c) as -> by congruence.
  assert (u = child_hi hi p c) as -> by congruence.
  replace cs with (take (Z.to_nat c) cs ++ cc :: drop (S (Z.to_nat c)) cs) at 1
    by (symmetry; apply (children_at p c Hok Hc)).
  apply (kids_in_join1 _ bs cs (Z.to_nat c) (child_lo lo p c) (child_hi hi p c) cc);
    [| |done|done|lia|done].
  - apply (kids_in_impl (λ l u x, wf_subtree h s l u x = true)); [|done].
    intros l u x Hx Hwfx.
    destruct (Hsame x HI Hwf Hp Hfull Hc Hframe') as [E _];
      [apply elem_of_app; by left|]. by rewrite E.
  - apply (kids_in_impl (λ l u x, wf_subtree h s l u x = true)); [|done].
    intros l u x Hx Hwfx.
    destruct (Hsame x HI Hwf Hp Hfull Hc Hframe') as [E _];
      [apply elem_of_app; by right|]. by rewrite E.
Qed.

Lemma above_strict lo k sk : (∀ l, lo = Some l → l < sk) → sk ≤ k → above lo k = true.
Proof. intros H Hle. destruct lo as [l|]; [|done]. simpl. apply Z.leb_le. specialize (H l eq_refl). lia. Qed.

Lemma child_lo_above lo hi p c k :
  internal_ok p = true → 0 ≤ c < i_size_ p →
  (∀ k, k ∈ Internal.separators p → above lo k = true ∧ at_most hi k = true) →
  above (child_lo lo p c) k = true → above lo k = true.
Proof.
  intros Hok Hc Hseps Hk. destruct (internal_ok_inv p Hok) as (Hsz & Hkl & _).
  unfold child_lo in Hk. destruct (c =? 0) eqn:E; [done|]. apply Z.eqb_neq in E.
  simpl in Hk. apply Z.leb_le in Hk. apply (above_le lo (Internal.KeyAt c p)); [|done].
  apply Hseps. apply elem_of_separators; [lia|]. exists c. split; [lia|done].
Qed.

Lemma child_hi_below lo hi p c k :
  internal_ok p = true → 0 ≤ c < i_size_ p →
  (∀ k, k ∈ Internal.separators p → above lo k = true ∧ at_most hi k = true) →
  below (child_hi hi p c) k = true → below hi k = true.
Proof.
  intros Hok Hc Hseps Hk. destruct (internal_ok_inv p Hok) as (Hsz & Hkl & _).
  unfold child_hi in Hk. destruct (c =? i_size_ p - 1) eqn:E; [done|]. apply Z.eqb_neq in E.
  simpl in Hk. apply Z.ltb_lt in Hk. apply (below_at_most hi (Internal.KeyAt (c + 1) p)); [|done].
  apply Hseps. apply elem_of_separators; [lia|]. exists (c + 1). split; [lia|done].
Qed.

Lemma below_at_most_weak hi k : below hi k = true → at_most hi k = true.
Proof. destruct hi as [h|]; [|done]. simpl. rewrite Z.ltb_lt, Z.leb_le. lia. Qed.

Lemma elem_of_take_in {A} (x : A) n l : x ∈ take n l → x ∈ l.
Proof. intros H. rewrite <- (take_drop n l). apply elem_of_app. by left. Qed.

Lemma elem_of_drop_in {A} (x : A) n l : x ∈ drop n l → x ∈ l.
Proof. intros H. rewrite <- (take_drop n l). apply elem_of_app. by right. Qed.

(** The children of a page after the child on the search path was split, in
    a pool where at most the page itself was rewritten since: the two
    halves stand where the child stood, around the split key. *)
Lemma kids_after_split t key h s s1 s2 lo hi id p c sk new_id :
  sizes_inv t s → sizes_inv t s1 →
  wf_subtree (S h) s lo hi id = true → pages_ s !! id = Some (InternalPg p) →
  (∀ y q, pages_ s !! y = Some (LeafPg q) → 1 ≤ l_size_ q) →
  0 ≤ c < i_size_ p →
  frame_of (path_pages h s (Internal.ValueAt c p) key) s s1 →
  wf_subtree h s1 (child_lo lo p c) (Some sk) (Internal.ValueAt c p) = true →
  wf_subtree h s1 (Some sk) (child_hi hi p c) new_id = true →
  (∀ l, child_lo lo p c = Some l → l < sk) → below (child_hi hi p c) sk = true →
  subtree_entries h s1 (Internal.ValueAt c p) ≠ [] → subtree_entries h s1 new_id ≠ [] →
  frame_of [id] s1 s2 →
  let cs := Internal.children p in
  let ks := Internal.separators p in
  let A := take (Z.to_nat c) cs in
  let B := drop (S (Z.to_nat c)) cs in
  let cc := Internal.ValueAt c p in
  let cs' := A ++ cc :: new_id :: B in
  let ks' := take (Z.to_nat c) ks ++ sk :: drop (Z.to_nat c) ks in
  kids_in (λ l u x, wf_subtree h s2 l u x = true ∧ subtree_entries h s2 x ≠ [])
          (bounds lo ks' hi) cs' ∧
  ascending ks' = true ∧
  (∀ k, k ∈ ks' → above lo k = true ∧ at_most hi k = true) ∧
  Internal.FindInsertPos sk p = c + 1 ∧
  pages_ s1 !! id = Some (InternalPg p) ∧
  concat (subtree_entries h s2 <$> cs') =
    concat (subtree_entries h s <$> A) ++
    (subtree_entries h s1 cc ++ subtree_entries h s1 new_id) ++
    concat (subtree_entries h s <$> B) ∧
  concat (subtree_leaves h s2 <$> cs') =
    concat (subtree_leaves h s <$> A) ++
    (subtree_leaves h s1 cc ++ subtree_leaves h s1 new_id) ++
    concat (subtree_leaves h s <$> B).
Proof.
  intros HI HI1 Hwf Hp Hfull Hc Hframe HwfL HwfR Hstrict Hbelow HneL HneR Hframe2
         cs ks A B cc cs' ks'.
  pose proof (proj1 (wf_subtree_kids h s lo hi id) Hwf) as (q & Hq & Hid & Hok & Hseps & Hkids).
  assert (q = p) as -> by congruence.
  destruct (internal_ok_inv p Hok) as (Hsz & Hk & Hv & Hasc).
  destruct (internal_ok_lists p Hok) as [Hlc Hls].
  pose proof (internal_ok_sorted p Hok) as Hs.
  fold cs ks in Hkids, Hlc, Hls, Hseps, Hasc.
  set (bs := bounds lo ks hi) in *.
  assert (Hcc : cs !! Z.to_nat c = Some cc) by (apply children_lookup; lia).
  pose proof (parent_kept t h s s1 lo hi id p c key HI Hwf Hp Hc Hframe) as Hp1.
  (* the page is still the root of a search tree in [s1] *)
  assert (Hwf1 : wf_subtree (S h) s1 lo hi id = true).
  { apply (node_wf t h s s1 lo hi id p c key); try done.
    apply (wf_weaken h s1 (child_lo lo p c) (Some sk)); [done|done| |].
    - intros k Hkk. simpl in Hkk. apply Z.ltb_lt in Hkk.
      apply (below_le _ sk); [done|lia].
    - intros k Hkk. simpl in Hkk. apply Z.leb_le in Hkk.
      apply below_at_most_weak. apply (below_le _ sk); [done|lia]. }
  pose proof (frame_of_compose _ id s s1 s2 Hframe Hframe2) as Hf2.
  assert (Hkeep : ∀ l u x, wf_subtree h s1 l u x = true →
            (∀ l' u', wf_subtree h s2 l' u' x = wf_subtree h s1 l' u' x) ∧
            subtree_entries h s2 x = subtree_entries h s1 x ∧
            subtree_leaves h s2 x = subtree_leaves h s1 x).
  { intros l u x Hx.
    destruct (frame_subtree h s1 s2 x) as (E1 & E2 & _ & E4); [|done].
    intros y Hy. destruct Hframe2 as [_ Hfr]. apply Hfr.
    - intros ->%list_elem_of_singleton.
      apply (no_occurrence (S h) h s1 lo hi l u id x Hwf1 Hx); [lia|done].
    - pose proof (subtree_pages_tree_page h s1 l u x y Hx Hy) as Htp.
      destruct (sizes_inv_tree_page t s1 y HI1 Htp) as [? _]. lia. }
  destruct (Hkeep _ _ _ HwfL) as (EL1 & EL2 & EL3). fold cc in EL1, EL2, EL3.
  destruct (Hkeep _ _ _ HwfR) as (ER1 & ER2 & ER3).
  pose proof (siblings_same t h s s2 lo hi id p c key) as Hsame.
  assert (Hlo_c : c ≠ 0 → Internal.KeyAt c p < sk).
  { intros Hne. apply Hstrict. unfold child_lo.
    destruct (c =? 0) eqn:E; [apply Z.eqb_eq in E; lia|done]. }
  assert (Hhi_c : c ≠ i_size_ p - 1 → sk < Internal.KeyAt (c + 1) p).
  { intros Hne. unfold child_hi in Hbelow.
    destruct (c =? i_size_ p - 1) eqn:E; [apply Z.eqb_eq in E; lia|].
    simpl in Hbelow. by apply Z.ltb_lt in Hbelow. }
  destruct (FindInsertPos_at p sk c Hok Hc Hlo_c Hhi_c) as [Hpos Hnin].
  split; [|split; [|split; [|split; [done|split; [done|split]]]]].
  - destruct (kids_in_at _ bs cs (Z.to_nat c) cc Hkids Hcc) as (l & u & Hl & Hu & _ & K1 & K2).
    destruct (bounds_lookup lo hi p c Hok Hc) as [Hl' Hu']. fold ks bs in Hl', Hu'.
    assert (l = child_lo lo p c) as -> by congruence.
    assert (u = child_hi hi p c) as -> by congruence.
    unfold ks'. rewrite bounds_insert by lia. fold bs.
    apply (kids_in_join2 _ bs cs (Z.to_nat c) (child_lo lo p c) (child_hi hi p c)
             (Some sk) cc new_id); [| |done|done|lia| |].
    + apply (kids_in_impl (λ l u x, wf_subtree h s l u x = true)); [|done].
      intros l u x Hx Hwfx.
      destruct (Hsame x HI Hwf Hp Hfull Hc Hf2) as (E1 & E2 & _);
        [apply elem_of_app; by left|]. rewrite E1, E2. split; [done|].
      destruct (sub_nonempty h s l u x Hwfx Hfull) as [e He]. intros E. rewrite E in He.
      by apply elem_of_nil in He.
    + apply (kids_in_impl (λ l u x, wf_subtree h s l u x = true)); [|done].
      intros l u x Hx Hwfx.
      destruct (Hsame x HI Hwf Hp Hfull Hc Hf2) as (E1 & E2 & _);
        [apply elem_of_app; by right|]. rewrite E1, E2. split; [done|].
      destruct (sub_nonempty h s l u x Hwfx Hfull) as [e He]. intros E. rewrite E in He.
      by apply elem_of_nil in He.
    + split; [by rewrite EL1|by rewrite EL2].
    + split; [by rewrite ER1|by rewrite ER2].
  - apply ascending_insert; [done| |].
    + intros i k Hi Hik.
      assert (i < length ks)%nat as Hlt by (by eapply lookup_lt_Some).
      unfold ks in Hik. rewrite separators_lookup_nat in Hik by lia. injection Hik as <-.
      specialize (Hlo_c ltac:(lia)).
      destruct (decide (Z.of_nat i + 1 = c)) as [->|]; [done|].
      assert (Internal.KeyAt (Z.of_nat i + 1) p < Internal.KeyAt c p) by (apply Hs; lia). lia.
    + intros i k Hi Hik.
      assert (i < length ks)%nat as Hlt by (by eapply lookup_lt_Some).
      unfold ks in Hik. rewrite separators_lookup_nat in Hik by lia. injection Hik as <-.
      specialize (Hhi_c ltac:(lia)).
      destruct (decide (Z.of_nat i + 1 = c + 1)) as [->|]; [done|].
      assert (Internal.KeyAt (c + 1) p < Internal.KeyAt (Z.of_nat i + 1) p) by (apply Hs; lia).
      lia.
  - intros k Hkk. unfold ks' in Hkk.
    apply elem_of_app in Hkk as [Hkk|Hkk]; [apply Hseps; by eapply elem_of_take_in|].
    apply elem_of_cons in Hkk as [->|Hkk]; [|apply Hseps; by eapply elem_of_drop_in].
    split.
    + apply (child_lo_above lo hi p c sk Hok Hc Hseps).
      apply (above_strict _ sk sk); [done|lia].
    + apply below_at_most_weak. by apply (child_hi_below lo hi p c sk Hok Hc Hseps).
  - unfold cs'. rewrite (concat_at2 (subtree_entries h s) (subtree_entries h s2)).
    + by rewrite EL2, ER2.
    + intros y Hy. by destruct (Hsame y HI Hwf Hp Hfull Hc Hf2 Hy) as (_ & E & _).
  - unfold cs'. rewrite (concat_at2 (subtree_leaves h s) (subtree_leaves h s2)).
    + by rewrite EL3, ER3.
    + intros y Hy. by destruct (Hsame y HI Hwf Hp Hfull Hc Hf2 Hy) as (_ & _ & _ & E).
Qed.

Lemma kids_nonempty {A} (f : Z → list A) wf bs cs :
  kids_in (λ l u x, wf l u x ∧ f x ≠ []) bs cs → cs ≠ [] → concat (f <$> cs) ≠ [].
Proof.
  intros H Hne. destruct cs as [|c cs]; [done|].
  apply kids_in_cons_inv in H as (l & u & bs' & -> & [_ Hc] & _).
  simpl. intros E. apply app_eq_nil in E as [E _]. done.
Qed.

Lemma take_children_S p c :
  internal_ok p = true → 0 ≤ c < i_size_ p →
  take (Z.to_nat (c + 1)) (Internal.children p) =
  take (Z.to_nat c) (Internal.children p) ++ [Internal.ValueAt c p].
Proof.
  intros Hok Hc. destruct (internal_ok_inv p Hok) as (Hsz & Hk & Hv & _).
  replace (Z.to_nat (c + 1)) with (S (Z.to_nat c)) by lia.
  apply take_S_r. apply children_lookup; lia.
Qed.


Lemma find_leaf_page h : ∀ s id key lid lp,
  find_leaf h s id key = Some (lid, lp) → pages_ s !! lid = Some (LeafPg lp).
Proof.
  induction h as [|h IH]; intros s id key lid lp H; simpl in H.
  - destruct (pages_ s !! id) as [[| |q|q]|] eqn:E; try done. by injection H as <- <-.
  - destruct (pages_ s !! id) as [[| |q|q]|] eqn:E; try done. by apply (IH _ _ _ _ _ H).
Qed.

Lemma next_leaf_same s s' x : pages_ s' !! x = pages_ s !! x → next_leaf s' x = next_leaf s x.
Proof. unfold next_leaf. by intros ->. Qed.

(** A change of pages that leaves the links of all pages but [id] alone
    leaves the step of the leaf chain as it is, when [id] was allocated
    before and is not the leaf. *)
Lemma leaves_step_frame s s1 s2 id target l l' :
  leaves_step s s1 target l l' →
  (∀ x, x ≠ id → next_leaf s2 x = next_leaf s1 x) →
  target ≠ id → id < next_page_id_ s →
  leaves_step s s2 target l l'.
Proof.
  intros (l1 & l2 & -> & H) Hfr Hne Hid. exists l1, l2. split; [done|].
  destruct H as [[-> Hn]|(n & Hn & -> & H1 & H2)].
  - left. split; [done|]. by rewrite (Hfr target Hne).
  - right. exists n. split; [done|]. split; [done|].
    rewrite (Hfr target Hne), (Hfr n ltac:(lia)). done.
Qed.

(** A page with room takes the split key and the new page of a child that
    was split: the insertion is done. *)
Lemma absorb_split t key value h s s1 lo hi id p c sk new_id lid lp :
  insert_ready t s → insert_ready t s1 →
  wf_subtree (S h) s lo hi id = true → pages_ s !! id = Some (InternalPg p) →
  (∀ y q, pages_ s !! y = Some (LeafPg q) → 1 ≤ l_size_ q) →
  0 ≤ c < i_size_ p → Internal.FindPage key p = Internal.ValueAt c p →
  frame_of (path_pages h s (Internal.ValueAt c p) key) s s1 →
  wf_subtree h s1 (child_lo lo p c) (Some sk) (Internal.ValueAt c p) = true →
  wf_subtree h s1 (Some sk) (child_hi hi p c) new_id = true →
  (∀ l, child_lo lo p c = Some l → l < sk) → below (child_hi hi p c) sk = true →
  subtree_entries h s1 (Internal.ValueAt c p) ≠ [] → subtree_entries h s1 new_id ≠ [] →
  inserted (key, value) (subtree_entries h s (Internal.ValueAt c p))
           (subtree_entries h s1 (Internal.ValueAt c p) ++ subtree_entries h s1 new_id) →
  find_leaf h s (Internal.ValueAt c p) key = Some (lid, lp) →
  leaves_step s s1 lid (subtree_leaves h s (Internal.ValueAt c p))
              (subtree_leaves h s1 (Internal.ValueAt c p) ++ subtree_leaves h s1 new_id) →
  i_size_ p < i_max_size_ p →
  insert_done t key value (S h) s lo hi id
    (Some (true,
           with_pages (<[id := InternalPg (Internal.Insert sk new_id (c + 1) p)]> (pages_ s1))
                      s1)).
Proof.
  intros (HI & Hfails & Hcap) (HI1 & Hfails1 & _) Hwf Hp Hfull Hc Hfind Hframe HwfL HwfR
         Hstrict Hbelow HneL HneR Hins Hfl Hstep Hroom.
  set (p' := Internal.Insert sk new_id (c + 1) p).
  set (s2 := with_pages _ s1).
  assert (Hframe2 : frame_of [id] s1 s2) by (apply frame_of_insert; by left).
  destruct (kids_after_split t key h s s1 s2 lo hi id p c sk new_id HI HI1 Hwf Hp Hfull Hc
              Hframe HwfL HwfR Hstrict Hbelow HneL HneR Hframe2)
    as (Hkids & Hasc' & Hseps' & Hpos & Hp1 & Hent & Hleaves).
  pose proof (proj1 (wf_subtree_kids h s lo hi id) Hwf) as (q & Hq & Hid & Hok & Hseps & _).
  assert (q = p) as -> by congruence.
  destruct (internal_ok_inv p Hok) as (Hsz & Hk & Hv & Hasc).
  destruct (inv_internals t s HI id p Hp) as (Hmax & _).
  destruct (inv_caps t s HI) as [_ Hicap].
  destruct (Internal_Insert_slots sk new_id (c + 1) p) as (Q1 & Q2 & Q3 & Q4 & Q5); [lia..|].
  destruct (opened_slot_lists sk new_id (c + 1) p p') as [Hcs Hks]; try done; try lia.
  specialize (Hks ltac:(lia)).
  replace (Z.to_nat (c + 1 - 1)) with (Z.to_nat c) in Hks by lia.
  rewrite (take_children_S p c Hok Hc) in Hcs. rewrite <- app_assoc in Hcs. simpl in Hcs.
  replace (Z.to_nat (c + 1)) with (S (Z.to_nat c)) in Hcs by lia.
  fold p' in Q1, Q2, Q3, Q4.
  assert (Hok' : internal_ok p' = true).
  { apply internal_ok_intro; [lia|congruence|congruence|]. by rewrite Hks. }
  assert (Hp2 : pages_ s2 !! id = Some (InternalPg p')) by (simpl; apply lookup_insert_eq).
  exists s2. split; [done|]. split.
  { split; [|done]. apply sizes_inv_internal_room; try done; [lia|].
    by apply (wf_subtree_page h s1 _ _ new_id HwfR). }
  split.
  { rewrite (path_pages_internal h s id p key Hp), Hfind.
    by apply (frame_of_compose _ id s s1 s2). }
  split; [|split].
  - apply wf_subtree_kids. exists p'. split; [done|]. split; [done|]. split; [done|].
    rewrite Hks, Hcs. split; [done|].
    eapply kids_in_impl; [|exact Hkids]. intros l u x _ [H _]. exact H.
  - rewrite (subtree_entries_kids h s id p Hp Hok), (subtree_entries_kids h s2 id p' Hp2 Hok').
    rewrite Hcs, Hent. rewrite (children_at p c Hok Hc) at 1.
    rewrite (concat_at (subtree_entries h s) (subtree_entries h s)) by done.
    by apply inserted_app.
  - exists lid, lp. split; [by rewrite (find_leaf_internal h s id p key Hp), Hfind|].
    rewrite (subtree_leaves_kids h s id p Hp Hok), (subtree_leaves_kids h s2 id p' Hp2 Hok').
    rewrite Hcs, Hleaves. rewrite (children_at p c Hok Hc) at 1.
    rewrite (concat_at (subtree_leaves h s) (subtree_leaves h s)) by done.
    apply leaves_step_app. apply (leaves_step_frame s s1 s2 id); [done| | |].
    + intros x Hx. apply next_leaf_same. simpl. by rewrite lookup_insert_ne.
    + intros ->. rewrite (find_leaf_page _ _ _ _ _ _ Hfl) in Hp. done.
    + destruct (sizes_inv_tree_page t s id HI (wf_subtree_page _ _ _ _ _ Hwf)) as [? _]. lia.
Qed.

Lemma length_zero_internal_keys max_size :
  length (i_key_array_ (Internal.Init max_size zero_internal)) =
  Z.to_nat INTERNAL_PAGE_SLOT_CNT.
Proof. unfold Internal.Init, zero_internal. cbn [i_key_array_]. apply length_replicate. Qed.

Lemma elem_of_take_lookup {A} (x : A) n l :
  x ∈ take n l → ∃ i, (i < n)%nat ∧ l !! i = Some x.
Proof.
  intros (i & Hi)%list_elem_of_lookup. exists i.
  destruct (decide (i < n)%nat) as [Hlt|Hge].
  - split; [done|]. by rewrite lookup_take_lt in Hi.
  - rewrite lookup_ge_None_2 in Hi; [done|]. rewrite length_take. lia.
Qed.

Lemma elem_of_drop_lookup {A} (x : A) n l :
  x ∈ drop n l → ∃ i, (n ≤ i)%nat ∧ l !! i = Some x.
Proof.
  intros (i & Hi)%list_elem_of_lookup. rewrite lookup_drop in Hi.
  exists (n + i)%nat. split; [lia|done].
Qed.

(** A full page splits when it takes the split key and the new page of a
    child that was split: the split goes on above it. *)
Lemma split_again t key value h s s1 lo hi id p c sk new_id lid lp ctx :
  insert_ready t s → insert_ready t s1 →
  wf_subtree (S h) s lo hi id = true → pages_ s !! id = Some (InternalPg p) →
  (∀ y q, pages_ s !! y = Some (LeafPg q) → 1 ≤ l_size_ q) →
  0 ≤ c < i_size_ p → Internal.FindPage key p = Internal.ValueAt c p →
  frame_of (path_pages h s (Internal.ValueAt c p) key) s s1 →
  wf_subtree h s1 (child_lo lo p c) (Some sk) (Internal.ValueAt c p) = true →
  wf_subtree h s1 (Some sk) (child_hi hi p c) new_id = true →
  (∀ l, child_lo lo p c = Some l → l < sk) → below (child_hi hi p c) sk = true →
  subtree_entries h s1 (Internal.ValueAt c p) ≠ [] → subtree_entries h s1 new_id ≠ [] →
  inserted (key, value) (subtree_entries h s (Internal.ValueAt c p))
           (subtree_entries h s1 (Internal.ValueAt c p) ++ subtree_entries h s1 new_id) →
  find_leaf h s (Internal.ValueAt c p) key = Some (lid, lp) →
  leaves_step s s1 lid (subtree_leaves h s (Internal.ValueAt c p))
              (subtree_leaves h s1 (Internal.ValueAt c p) ++ subtree_leaves h s1 new_id) →
  ¬ i_size_ p < i_max_size_ p →
  let all_data := emplace (c + 1) (sk, new_id) (internal_all_data p) in
  let split_idx := (Z.of_nat (length all_data) + 1) / 2 in
  insert_split t key value (S h) s lo hi id ctx
    (split_upward t ctx id (first_at all_data split_idx) (next_page_id_ s1)
       (mkPool
          (<[id := InternalPg (Internal.Insert_Set_old split_idx all_data p)]>
             (<[next_page_id_ s1 :=
                  InternalPg (Internal.Insert_Set_new split_idx all_data
                                (Internal.Init (internal_max_size_ t) zero_internal))]>
                (pages_ s1)))
          (next_page_id_ s1 + 1) [])).
Proof.
  intros (HI & Hfails & Hcap) (HI1 & Hfails1 & _) Hwf Hp Hfull Hc Hfind Hframe HwfL HwfR
         Hstrict Hbelow HneL HneR Hins Hfl Hstep Hnoroom all_data split_idx.
  set (n' := next_page_id_ s1).
  set (L := Internal.Insert_Set_old split_idx all_data p).
  set (R := Internal.Insert_Set_new split_idx all_data _).
  set (s2 := mkPool _ _ _).
  assert (Hframe2 : frame_of [id] s1 s2) by (apply frame_of_split; by left).
  destruct (kids_after_split t key h s s1 s2 lo hi id p c sk new_id HI HI1 Hwf Hp Hfull Hc
              Hframe HwfL HwfR Hstrict Hbelow HneL HneR Hframe2)
    as (Hkids & Hasc' & Hseps' & Hpos & Hp1 & Hent & Hleaves).
  set (cs' := take (Z.to_nat c) (Internal.children p) ++ _) in *.
  set (ks' := take (Z.to_nat c) (Internal.separators p) ++ _) in *.
  pose proof (proj1 (wf_subtree_kids h s lo hi id) Hwf) as (q & Hq & Hid & Hok & Hseps & _).
  assert (q = p) as -> by congruence.
  destruct (internal_ok_inv p Hok) as (Hsz & Hk & Hv & Hasc).
  destruct (internal_ok_lists p Hok) as [Hlc Hls].
  destruct (inv_internals t s HI id p Hp) as (Hmax & _).
  destruct (inv_caps t s HI) as [_ Hicap].
  destruct (sizes_inv_internal_split t s1 id p sk new_id (c + 1) [] HI1 Hp1 Hnoroom
              (wf_subtree_page _ _ _ _ _ HwfR)) as (HI2 & _ & Hmin).
  fold all_data split_idx n' L R s2 in HI2, Hmin.
  destruct (sizes_inv_tree_page t s id HI (wf_subtree_page _ _ _ _ _ Hwf)) as [Hidlt _].
  pose proof (proj1 Hframe) as Hnext.
  assert (Hsize : i_size_ p = i_max_size_ p).
  { destruct (inv_internals t s HI id p Hp) as (_ & ? & _). lia. }
  (* the lists of the two halves *)
  destruct (internal_all_data_lists p) as (Hd2 & Hd1 & Hdl); [lia..|].
  assert (Hlen : Z.of_nat (length all_data) = i_size_ p + 1).
  { unfold all_data. rewrite length_emplace, Hdl. lia. }
  assert (Hall2 : all_data.*2 = cs').
  { unfold all_data. rewrite emplace_snd, Hd2. simpl.
    rewrite (take_children_S p c Hok Hc), <- app_assoc. simpl.
    by replace (Z.to_nat (c + 1)) with (S (Z.to_nat c)) by lia. }
  assert (Hall1 : tail all_data.*1 = ks').
  { unfold all_data. rewrite tail_emplace_keys; [|lia|].
    - rewrite Hd1. simpl. by replace (Z.to_nat (c + 1 - 1)) with (Z.to_nat c) by lia.
    - intros E. rewrite E in Hdl. simpl in Hdl. lia. }
  destruct (split_sizes (i_max_size_ p) ltac:(lia)) as [Hs1 Hs2]. cbv zeta in Hs1, Hs2.
  assert (Hsplit : split_idx = (i_max_size_ p + 1 + 1) / 2)
    by (unfold split_idx; rewrite Hlen, Hsize; done).
  rewrite <- Hsplit in Hs1, Hs2.
  pose proof (code_min_size_pos (i_max_size_ p) ltac:(lia)) as Hminpos.
  destruct (Internal_Insert_Set_old_lists split_idx all_data p)
    as (L1 & L2 & L3 & L4 & L5 & L6); [lia..|].
  fold L in L1, L2, L3, L4, L5, L6. rewrite Hall2 in L5. rewrite Hall1 in L6.
  pose proof (length_zero_internal_values (internal_max_size_ t)) as Hzv.
  pose proof (length_zero_internal_keys (internal_max_size_ t)) as Hzk.
  destruct (Internal_Insert_Set_new_lists split_idx all_data
              (Internal.Init (internal_max_size_ t) zero_internal))
    as (R1 & R2 & R3 & R4 & R5 & R6); [lia..|].
  fold R in R1, R2, R3, R4, R5, R6. rewrite Hall2 in R5. rewrite Hall1 in R6.
  assert (Hlks : length ks' = Z.to_nat (i_size_ p)).
  { unfold ks'. rewrite length_app, length_take. simpl. rewrite length_drop. lia. }
  assert (Hlcs : length cs' = Z.to_nat (i_size_ p + 1)).
  { unfold cs'. rewrite length_app, length_take. simpl. rewrite length_drop. lia. }
  destruct (lookup_lt_is_Some_2 ks' (Z.to_nat (split_idx - 1)) ltac:(lia)) as [split_key Hsk].
  assert (Hfirst : first_at all_data split_idx = split_key).
  { apply first_at_tail; [lia|]. by rewrite Hall1. }
  assert (Eks : ks' = take (Z.to_nat (split_idx - 1)) ks' ++
                      split_key :: drop (Z.to_nat split_idx) ks').
  { rewrite <- (take_drop_middle ks' (Z.to_nat (split_idx - 1)) split_key Hsk) at 1.
    by replace (S (Z.to_nat (split_idx - 1))) with (Z.to_nat split_idx) by lia. }
  assert (Ecs : cs' = take (Z.to_nat split_idx) cs' ++ drop (Z.to_nat split_idx) cs')
    by (by rewrite take_drop).
  assert (Hkids2 := Hkids). rewrite Eks, Ecs in Hkids2.
  apply kids_in_bounds_app in Hkids2 as [HkL HkR];
    [|rewrite !length_take; lia].
  assert (HokL : internal_ok L = true).
  { apply internal_ok_intro; [lia|congruence|congruence|]. rewrite L6.
    by apply ascending_take. }
  assert (HokR : internal_ok R = true).
  { apply internal_ok_intro; [lia|congruence|congruence|]. rewrite R6.
    by apply ascending_drop. }
  assert (HpL : pages_ s2 !! id = Some (InternalPg L)) by (simpl; apply lookup_insert_eq).
  assert (HpR : pages_ s2 !! n' = Some (InternalPg R)).
  { simpl. rewrite lookup_insert_ne by (unfold n'; lia). apply lookup_insert_eq. }
  assert (HwfL2 : wf_subtree (S h) s2 lo (Some split_key) id = true).
  { apply wf_subtree_kids. exists L. split; [done|]. split; [done|]. split; [done|].
    rewrite L5, L6. split.
    - intros k (i & Hi & Hki)%elem_of_take_lookup. split.
      + apply Hseps'. by apply (list_elem_of_lookup_2 _ i).
      + simpl. apply Z.leb_le.
        pose proof (ascending_lookup ks' i (Z.to_nat (split_idx - 1)) k split_key
                      Hasc' Hki Hsk Hi). lia.
    - eapply kids_in_impl; [|exact HkL]. intros l u x _ [H _]. exact H. }
  assert (HwfR2 : wf_subtree (S h) s2 (Some split_key) hi n' = true).
  { apply wf_subtree_kids. exists R. split; [done|]. split; [unfold n'; lia|].
    split; [done|]. rewrite R5, R6. split.
    - intros k (i & Hi & Hki)%elem_of_drop_lookup. split.
      + simpl. apply Z.leb_le.
        pose proof (ascending_lookup ks' (Z.to_nat (split_idx - 1)) i split_key k
                      Hasc' Hsk Hki ltac:(lia)). lia.
      + apply Hseps'. by apply (list_elem_of_lookup_2 _ i).
    - eapply kids_in_impl; [|exact HkR]. intros l u x _ [H _]. exact H. }
  assert (HeL : subtree_entries (S h) s2 id =
                concat (subtree_entries h s2 <$> take (Z.to_nat split_idx) cs'))
    by (by rewrite (subtree_entries_kids h s2 id L HpL HokL), L5).
  assert (HeR : subtree_entries (S h) s2 n' =
                concat (subtree_entries h s2 <$> drop (Z.to_nat split_idx) cs'))
    by (by rewrite (subtree_entries_kids h s2 n' R HpR HokR), R5).
  assert (HnL : subtree_entries (S h) s2 id ≠ []).
  { rewrite HeL. apply (kids_nonempty _ _ _ _ HkL).
    intros E. apply (f_equal length) in E. rewrite length_take in E. simpl in E. lia. }
  assert (HnR : subtree_entries (S h) s2 n' ≠ []).
  { rewrite HeR. apply (kids_nonempty _ _ _ _ HkR).
    intros E. apply (f_equal length) in E. rewrite length_drop in E. simpl in E. lia. }
  exists s2, split_key, n'. rewrite Hfirst. split; [done|].
  split; [done|]. split.
  { rewrite (path_pages_internal h s id p key Hp), Hfind.
    by apply (frame_of_compose _ id s s1 s2). }
  split; [simpl; unfold n'; lia|].
  split.
  { intros l ->. destruct (subtree_entries (S h) s2 id) as [|e es] eqn:E; [done|].
    destruct (subtree_keys_bounded (S h) s2 (Some l) (Some split_key) id e.1 HwfL2) as [H1 H2].
    { rewrite E. simpl. by left. }
    simpl in H1, H2. apply Z.leb_le in H1. apply Z.ltb_lt in H2. lia. }
  split.
  { destruct (subtree_entries (S h) s2 n') as [|e es] eqn:E; [done|].
    destruct (subtree_keys_bounded (S h) s2 (Some split_key) hi n' e.1 HwfR2) as [H1 H2].
    { rewrite E. simpl. by left. }
    simpl in H1. apply Z.leb_le in H1. by apply (below_le hi e.1). }
  split; [done|]. split; [done|]. split; [done|]. split; [done|].
  split.
  { rewrite (subtree_entries_kids h s id p Hp Hok), HeL, HeR, <- concat_app, <- fmap_app,
            <- Ecs, Hent.
    rewrite (children_at p c Hok Hc) at 1.
    rewrite (concat_at (subtree_entries h s) (subtree_entries h s)) by done.
    by apply inserted_app. }
  split; [intros q Hq2; congruence|].
  split; [intros q Hq2; assert (q = L) as -> by congruence; by rewrite L2|].
  exists lid, lp. split; [by rewrite (find_leaf_internal h s id p key Hp), Hfind|].
  rewrite (subtree_leaves_kids h s id p Hp Hok), (subtree_leaves_kids h s2 id L HpL HokL),
          (subtree_leaves_kids h s2 n' R HpR HokR), L5, R5, <- concat_app, <- fmap_app,
          <- Ecs, Hleaves.
  rewrite (children_at p c Hok Hc) at 1.
  rewrite (concat_at (subtree_leaves h s) (subtree_leaves h s)) by done.
  apply leaves_step_app. apply (leaves_step_frame s s1 s2 id); [done| |
    intros ->; rewrite (find_leaf_page _ _ _ _ _ _ Hfl) in Hp; done|lia].
  intros x Hx. unfold next_leaf. simpl. rewrite lookup_insert_ne by done.
  destruct (decide (x = n')) as [->|Hxn].
  - rewrite lookup_insert_eq. unfold n'. by rewrite (sizes_inv_next_unused t s1 HI1).
  - by rewrite lookup_insert_ne.
Qed.

(** ** The descent of [Insert_write] *)

Lemma pop_back_push_back x c : pop_back (push_back x c) = c.
Proof.
  destruct c as [hp r ws rs]. unfold pop_back, push_back, ctx_with_write_set. simpl.
  by rewrite removelast_last.
Qed.

Lemma back_keep_last c : back (keep_last_write_latch c) = back c.
Proof.
  unfold back, keep_last_write_latch, ctx_with_write_set. simpl.
  by destruct (last (write_set_ c)).
Qed.

Lemma length_push_back x c : length (write_set_ (push_back x c)) = S (length (write_set_ c)).
Proof. unfold push_back, ctx_with_write_set. simpl. rewrite length_app. simpl. lia. Qed.

Lemma frame_of_refl pgs s : frame_of pgs s s.
Proof. split; [lia|done]. Qed.

(** The header page is no page of the tree, so an insertion below a page
    leaves the root id as it is. *)
Lemma root_kept t h s s' lo hi id key :
  sizes_inv t s → wf_subtree h s lo hi id = true →
  frame_of (path_pages h s id key) s s' → root_of t s' = root_of t s.
Proof.
  intros HI Hwf [_ Hframe]. apply root_of_pages.
  destruct (sizes_inv_header t s HI) as (Hh & Hhp & _).
  apply Hframe; [|lia]. intros Hin.
  apply (path_in_subtree h s lo hi id key _ Hwf) in Hin.
  destruct (subtree_pages_tree_page h s lo hi id _ Hwf Hin) as [[_ [q Hq]]|[_ [q Hq]]];
    congruence.
Qed.

Lemma child_entries_sub h s id p c e :
  pages_ s !! id = Some (InternalPg p) → 0 ≤ c < i_size_ p →
  e ∈ subtree_entries h s (Internal.ValueAt c p) → e ∈ subtree_entries (S h) s id.
Proof.
  intros Hp Hc He. simpl. rewrite Hp. apply elem_of_concat.
  exists (subtree_entries h s (Internal.ValueAt c p)). split; [|done].
  apply list_elem_of_fmap. exists c. split; [done|]. apply elem_of_seqZ. lia.
Qed.

Lemma child_key_bounds lo hi p c key :
  0 ≤ c < i_size_ p →
  (c ≠ 0 → Internal.KeyAt c p ≤ key) →
  (c ≠ i_size_ p - 1 → key < Internal.KeyAt (c + 1) p) →
  above lo key = true → below hi key = true →
  above (child_lo lo p c) key = true ∧ below (child_hi hi p c) key = true.
Proof.
  intros Hc Hclo Hchi Hlo Hhi. split.
  - unfold child_lo. destruct (c =? 0) eqn:E; [done|]. apply Z.eqb_neq in E.
    simpl. apply Z.leb_le. by apply Hclo.
  - unfold child_hi. destruct (c =? i_size_ p - 1) eqn:E; [done|]. apply Z.eqb_neq in E.
    simpl. apply Z.ltb_lt. by apply Hchi.
Qed.

(** The descent from a page of a search tree that does not hold [key]
    either stores the entry below the page, or leaves the page split in
    two and goes on with the split above it. *)
Lemma Insert_write_from_step t key value h : ∀ fuel s lo hi id ctx,
  insert_ready t s → leaves_full s id → wf_subtree h s lo hi id = true →
  above lo key = true → below hi key = true →
  key ∉ (subtree_entries h s id).*1 →
  back ctx = Some id → (h < fuel)%nat →
  (∀ x, x ∈ subtree_pages h s id → x ≠ id → x ≠ root_of t s) →
  insert_done t key value h s lo hi id (Insert_write_from fuel t ctx id key value s) ∨
  insert_split t key value h s lo hi id ctx (Insert_write_from fuel t ctx id key value s).
Proof.
  induction h as [|h IH]; intros fuel s lo hi id ctx Hready Hleaves Hwf Hlo Hhi Hnin Hback
                                 Hfuel Hroot.
  - destruct fuel as [|fuel]; [lia|].
    destruct (InsertIntoLeaf_step t key value s lo hi id ctx Hready Hwf Hlo Hhi Hnin Hback)
      as (p & Hp & Hcase).
    destruct (wf_subtree_leaf _ _ _ _ Hwf) as (q & Hq & Hid & _).
    cbn [Insert_write_from].
    rewrite (bind_Some _ _ _ _ _ (IsLeafPage_leaf s id q Hid Hq)).
    destruct (l_size_ p <? l_max_size_ p); [by left|by right].
  - destruct fuel as [|fuel]; [lia|].
    pose proof Hready as (HI & Hfails & Hcap).
    destruct (wf_subtree_internal _ _ _ _ _ Hwf) as (p & Hp & Hid & Hok & Hseps & Hch).
    destruct (FindPage_spec p key Hok) as (c & Hc & Hfind & Hclo & Hchi).
    destruct (child_key_bounds lo hi p c key Hc Hclo Hchi Hlo Hhi) as [Hlo' Hhi'].
    assert (Hfull : ∀ y q, pages_ s !! y = Some (LeafPg q) → 1 ≤ l_size_ q).
    { intros y q Hq. apply (Hleaves y q Hq). intros ->. congruence. }
    set (cc := Internal.ValueAt c p) in *.
    assert (Hidcc : id ∉ subtree_pages h s cc).
    { apply (no_occurrence (S h) h s lo hi _ _ id cc Hwf (Hch c Hc)). lia. }
    assert (Hsub : ∀ x, x ∈ subtree_pages h s cc → x ≠ root_of t s).
    { intros x Hx. apply Hroot.
      - apply (elem_of_subtree_pages h s id p x Hp). right. by exists c.
      - intros ->. done. }
    cbn [Insert_write_from].
    rewrite (bind_Some _ _ _ _ _ (IsLeafPage_internal s id p Hid Hp)). rewrite Hback.
    rewrite (bind_Some _ _ _ _ _ (internal_read_internal _ s id p Hid Hp)).
    rewrite (bind_Some _ _ _ _ _ (internal_read_internal _ s id p Hid Hp)).
    rewrite (bind_Some _ _ _ _ _ (internal_read_internal _ s id p Hid Hp)).
    rewrite Hfind. fold cc. unfold Internal.GetSize, Internal.GetMaxSize.
    set (ctx1 := if i_size_ p <? i_max_size_ p then keep_last_write_latch ctx else ctx).
    assert (Hback1 : back ctx1 = Some id).
    { unfold ctx1. destruct (i_size_ p <? i_max_size_ p); [by rewrite back_keep_last|done]. }
    destruct (IH fuel s (child_lo lo p c) (child_hi hi p c) cc (push_back cc ctx1))
      as [Hdone|Hsplit]; try done.
    + intros y q Hq _. by apply (Hfull y q).
    + apply (Hch c Hc).
    + intros (e & He1 & He2)%list_elem_of_fmap. apply Hnin. apply list_elem_of_fmap.
      exists e. split; [done|]. by apply (child_entries_sub h s id p c).
    + apply back_push_back.
    + lia.
    + intros x Hx _. by apply Hsub.
    + left. by apply (lift_done t key value h s lo hi id p c).
    + destruct Hsplit as (s1 & sk & new_id & Hr & Hready1 & Hframe & Hnew & Hstrict & Hbelow &
                          HwfL & HwfR & HneL & HneR & Hins & _ & _ & lid & lp & Hfl & Hstep).
      pose proof Hready1 as (HI1 & Hfails1 & _).
      pose proof (parent_kept t h s s1 lo hi id p c key HI Hwf Hp Hc Hframe) as Hp1.
      pose proof (root_kept t h s s1 _ _ cc key HI (Hch c Hc) Hframe) as Hroot1.
      destruct (kids_after_split t key h s s1 s1 lo hi id p c sk new_id HI HI1 Hwf Hp Hfull Hc
                  Hframe HwfL HwfR Hstrict Hbelow HneL HneR (frame_of_refl _ _))
        as (_ & _ & _ & Hpos & _).
      assert (Hidlt : id < next_page_id_ s1).
      { assert (0 ≤ id < next_page_id_ s1); [|lia]. apply (inv_fresh t s1 HI1). by rewrite Hp1. }
      rewrite Hr. unfold split_upward.
      rewrite (bind_Some _ _ _ _ _ (GetRootPageId_inv t s1 HI1)), Hroot1.
      assert (Hne : (cc =? root_of t s) = false).
      { apply Z.eqb_neq. apply Hsub. apply subtree_pages_head. }
      rewrite Hne, pop_back_push_back, Hback1, length_push_back.
      rewrite (InsertIntoInternal_cases _ t ctx1 s1 id id p sk new_id Hback1 Hid Hp1 Hidlt).
      cbv zeta. rewrite Hpos.
      replace (c + 1 =? -1) with false by (symmetry; apply Z.eqb_neq; lia).
      unfold ctx1. destruct (i_size_ p <? i_max_size_ p) eqn:Eroom.
      * left. apply Z.ltb_lt in Eroom.
        by apply (absorb_split t key value h s s1 lo hi id p c sk new_id lid lp).
      * right. apply Z.ltb_ge in Eroom. rewrite Hfails1.
        apply (split_again t key value h s s1 lo hi id p c sk new_id lid lp ctx); try done.
        lia.
Qed.

(** ** The chain of the leaves *)

Lemma linked_app s l1 l2 nxt :
  linked s (l1 ++ l2) nxt ↔ linked s l1 (default nxt (head l2)) ∧ linked s l2 nxt.
Proof.
  induction l1 as [|a l1 IH]; simpl; [tauto|].
  rewrite IH. destruct l1 as [|b l1]; simpl; tauto.
Qed.

Lemma linked_ext s s' l nxt :
  (∀ x, x ∈ l → next_leaf s' x = next_leaf s x) → linked s l nxt → linked s' l nxt.
Proof.
  induction l as [|a l IH]; simpl; [done|]. intros Hext [H1 H2]. split.
  - rewrite Hext; [done|by left].
  - apply IH; [|done]. intros x Hx. apply Hext. by right.
Qed.

(** The chain after a step: the successor of the leaf that was split is the
    new leaf, whose successor is the old one of the leaf. *)
Lemma linked_step s s' target ls ls' nxt :
  leaves_step s s' target ls ls' → NoDup ls →
  (∀ x, x ∈ ls → x ≠ target → next_leaf s' x = next_leaf s x) →
  linked s ls nxt → linked s' ls' nxt.
Proof.
  intros (l1 & l2 & -> & H) Hnd Hext Hl.
  apply NoDup_app in Hnd as (_ & Hd1 & Hnd2). apply NoDup_cons in Hnd2 as [Hd2 _].
  assert (H1 : ∀ x, x ∈ l1 → next_leaf s' x = next_leaf s x).
  { intros x Hx. apply Hext; [apply elem_of_app; by left|]. intros ->.
    apply (Hd1 target Hx). by left. }
  assert (H2 : ∀ x, x ∈ l2 → next_leaf s' x = next_leaf s x).
  { intros x Hx. apply Hext; [apply elem_of_app; right; by right|]. by intros ->. }
  apply linked_app in Hl as [Hl1 Hl2]. simpl in Hl1, Hl2. destruct Hl2 as [Ht Hl2].
  destruct H as [[-> Hn]|(n & Hn & -> & Hn1 & Hn2)].
  - apply linked_app. split; [by apply (linked_ext s)|]. simpl. split; [congruence|].
    by apply (linked_ext s).
  - apply linked_app. split; [by apply (linked_ext s)|]. simpl. split; [done|].
    split; [congruence|]. by apply (linked_ext s).
Qed.

Lemma subtree_leaves_pages h : ∀ s id x,
  x ∈ subtree_leaves h s id → x ∈ subtree_pages h s id.
Proof.
  induction h as [|h IH]; intros s id x Hx; [done|]. simpl in *.
  destruct (pages_ s !! id) as [[| | |p]|]; try by apply elem_of_nil in Hx.
  right. apply elem_of_concat in Hx as (l & Hl & Hx).
  apply list_elem_of_fmap in Hl as (i & -> & Hi). apply elem_of_concat.
  exists (subtree_pages h s (Internal.ValueAt i p)). split; [|by apply IH].
  apply list_elem_of_fmap. by exists i.
Qed.

Lemma NoDup_concat_fmap {A} (f : Z → list A) (l : list Z) :
  NoDup l → (∀ i, i ∈ l → NoDup (f i)) →
  (∀ i j x, i ∈ l → j ∈ l → i ≠ j → x ∈ f i → x ∈ f j → False) →
  NoDup (concat (f <$> l)).
Proof.
  induction l as [|a l IH]; intros Hnd Hf Hdis; simpl; [apply NoDup_nil_2|].
  apply NoDup_cons in Hnd as [Ha Hnd]. apply NoDup_app. split; [apply Hf; by left|]. split.
  - intros x Hx (l' & Hl' & Hx')%elem_of_concat.
    apply list_elem_of_fmap in Hl' as (j & -> & Hj).
    apply (Hdis a j x); [by left|by right| |done|done]. by intros ->.
  - apply IH; [done| |].
    + intros i Hi. apply Hf. by right.
    + intros i j x Hi Hj. apply Hdis; by right.
Qed.

(** No leaf occurs twice among the leaves of a search tree. *)
Lemma NoDup_subtree_leaves h : ∀ s lo hi id,
  wf_subtree h s lo hi id = true →
  (∀ y q, pages_ s !! y = Some (LeafPg q) → y ≠ id → 1 ≤ l_size_ q) →
  NoDup (subtree_leaves h s id).
Proof.
  induction h as [|h IH]; intros s lo hi id Hwf Hfull.
  - simpl. apply NoDup_singleton.
  - destruct (wf_subtree_internal _ _ _ _ _ Hwf) as (p & Hp & Hid & Hok & Hseps & Hch).
    assert (Hall : ∀ y q, pages_ s !! y = Some (LeafPg q) → 1 ≤ l_size_ q).
    { intros y q Hq. apply (Hfull y q Hq). intros ->. congruence. }
    simpl. rewrite Hp. apply NoDup_concat_fmap.
    + apply NoDup_seqZ.
    + intros i Hi%elem_of_seqZ. apply (IH s _ _ _ (Hch i ltac:(lia))).
      intros y q Hq _. by apply (Hall y q).
    + intros i j x Hi%elem_of_seqZ Hj%elem_of_seqZ Hne Hx1 Hx2.
      apply (siblings_disjoint h s lo hi id p i j x Hwf Hp Hall); try done; try lia;
        by apply subtree_leaves_pages.
Qed.

(** A leaf on the search path is the leaf the search ends in. *)
Lemma path_leaf h : ∀ s lo hi id key x q,
  wf_subtree h s lo hi id = true → x ∈ path_pages h s id key →
  pages_ s !! x = Some (LeafPg q) → find_leaf h s id key = Some (x, q).
Proof.
  induction h as [|h IH]; intros s lo hi id key x q Hwf Hx Hq.
  - simpl in *. apply list_elem_of_singleton in Hx as ->. by rewrite Hq.
  - destruct (wf_subtree_internal _ _ _ _ _ Hwf) as (p & Hp & Hid & Hok & Hseps & Hch).
    rewrite (path_pages_internal h s id p key Hp) in Hx.
    rewrite (find_leaf_internal h s id p key Hp).
    apply elem_of_cons in Hx as [->|Hx]; [congruence|].
    destruct (FindPage_spec p key Hok) as (c & Hc & Hfind & _). rewrite Hfind in *.
    by apply (IH s _ _ _ key x q (Hch c Hc)).
Qed.

Lemma subtree_leaves_leaf h : ∀ s lo hi id x,
  wf_subtree h s lo hi id = true → x ∈ subtree_leaves h s id →
  0 ≤ x ∧ ∃ q, pages_ s !! x = Some (LeafPg q).
Proof.
  induction h as [|h IH]; intros s lo hi id x Hwf Hx.
  - simpl in Hx. apply list_elem_of_singleton in Hx as ->.
    destruct (wf_subtree_leaf _ _ _ _ Hwf) as (p & Hp & Hid & _). split; [done|by exists p].
  - destruct (wf_subtree_internal _ _ _ _ _ Hwf) as (p & Hp & Hid & Hok & Hseps & Hch).
    simpl in Hx. rewrite Hp in Hx. apply elem_of_concat in Hx as (l & Hl & Hx).
    apply list_elem_of_fmap in Hl as (i & -> & Hi%elem_of_seqZ).
    apply (IH s _ _ _ x (Hch i ltac:(lia)) Hx).
Qed.

(** An insertion below a page keeps the chain of the leaves below it. *)
Lemma chain_kept t h s s' lo hi id key lid lp ls' nxt :
  sizes_inv t s → wf_subtree h s lo hi id = true →
  (∀ y q, pages_ s !! y = Some (LeafPg q) → y ≠ id → 1 ≤ l_size_ q) →
  frame_of (path_pages h s id key) s s' →
  find_leaf h s id key = Some (lid, lp) →
  leaves_step s s' lid (subtree_leaves h s id) ls' →
  linked s (subtree_leaves h s id) nxt → linked s' ls' nxt.
Proof.
  intros HI Hwf Hfull [_ Hframe] Hfl Hstep Hl.
  apply (linked_step s s' lid _ _ nxt Hstep); [by apply (NoDup_subtree_leaves h s lo hi)| |done].
  intros x Hx Hne. apply next_leaf_same.
  destruct (subtree_leaves_leaf h s lo hi id x Hwf Hx) as (Hx0 & q & Hq).
  apply Hframe.
  - intros Hin. pose proof (path_leaf h s lo hi id key x q Hwf Hin Hq). congruence.
  - assert (0 ≤ x < next_page_id_ s); [|lia]. apply (inv_fresh t s HI). by rewrite Hq.
Qed.

(** ** From the root: [Insert_write], [Insert_from] and [Insert] *)

Lemma nonroot_leaves_full t s : sizes_inv t s → leaves_full s (root_of t s).
Proof.
  intros HI x p Hp Hne. destruct (inv_leaves t s HI x p Hp) as (Hmax & Hsz & Hmin).
  destruct (inv_caps t s HI) as [Hlcap _].
  rewrite bool_decide_eq_false_2 in Hmin by done. specialize (Hmin eq_refl).
  pose proof (code_min_size_pos (l_max_size_ p) ltac:(lia)). lia.
Qed.

Lemma wf_tree_intro t s h root :
  0 ≤ header_page_id_ t → pages_ s !! header_page_id_ t = Some (HeaderPg root) →
  wf_subtree h s None None root = true → wf_tree t s h = true.
Proof.
  intros Hh Hhp Hwf. unfold wf_tree. rewrite Hhp, Hwf, orb_true_r, andb_true_r.
  by apply Z.leb_le.
Qed.

Lemma wf_tree_root t s h :
  wf_tree t s h = true → root_of t s ≠ INVALID_PAGE_ID →
  wf_subtree h s None None (root_of t s) = true.
Proof.
  intros Hwf Hroot. destruct (wf_tree_inv t s h Hwf) as (Hh & root & Hhp & Hcase).
  unfold root_of in *. rewrite Hhp in *. by destruct Hcase as [->|[_ ?]].
Qed.

Lemma tree_entries_root t s h :
  sizes_inv t s → root_of t s ≠ INVALID_PAGE_ID →
  tree_entries t s h = subtree_entries h s (root_of t s).
Proof.
  intros HI Hroot. destruct (sizes_inv_header t s HI) as (_ & Hhp & _).
  unfold tree_entries. rewrite Hhp.
  by replace (root_of t s =? INVALID_PAGE_ID) with false by (symmetry; by apply Z.eqb_neq).
Qed.

Lemma tree_leaves_root t s h :
  sizes_inv t s → root_of t s ≠ INVALID_PAGE_ID →
  tree_leaves t s h = subtree_leaves h s (root_of t s).
Proof.
  intros HI Hroot. destruct (sizes_inv_header t s HI) as (_ & Hhp & _).
  unfold tree_leaves. rewrite Hhp.
  by replace (root_of t s =? INVALID_PAGE_ID) with false by (symmetry; by apply Z.eqb_neq).
Qed.

Lemma tree_entries_empty t s h : root_of t s = INVALID_PAGE_ID → tree_entries t s h = [].
Proof.
  unfold root_of, tree_entries. destruct (pages_ s !! header_page_id_ t) as [[|r| |]|]; try done.
  by intros ->.
Qed.

(** The insertion was done below the root: the tree keeps its height. *)
Lemma done_post t key value h s r :
  insert_ready t s → wf_tree t s h = true → root_of t s ≠ INVALID_PAGE_ID →
  insert_done t key value h s None None (root_of t s) r → insert_post t key value h s r.
Proof.
  intros (HI & Hfails & Hcap) Hwf Hroot
         (s' & -> & Hready' & Hframe & Hwf' & Hins & lid & lp & Hfl & Hstep).
  pose proof (wf_tree_root t s h Hwf Hroot) as Hwfs.
  pose proof Hready' as (HI' & _).
  pose proof (root_kept t h s s' _ _ _ key HI Hwfs Hframe) as Hroot'.
  destruct (sizes_inv_header t s' HI') as (Hh' & Hhp' & _). rewrite Hroot' in Hhp'.
  exists s', h. split; [done|]. split; [done|].
  split; [by apply (wf_tree_intro t s' h (root_of t s)); [lia|..]|].
  split; [by rewrite Hroot'|]. split.
  { replace (root_of t s =? INVALID_PAGE_ID) with false by (symmetry; by apply Z.eqb_neq).
    by left. }
  split.
  - rewrite (tree_entries_root t s h HI Hroot), (tree_entries_root t s' h HI') by congruence.
    by rewrite Hroot'.
  - unfold chain_ok.
    rewrite (tree_leaves_root t s h HI Hroot), (tree_leaves_root t s' h HI') by congruence.
    rewrite Hroot'.
    apply (chain_kept t h s s' None None (root_of t s) key lid lp); try done.
    apply (nonroot_leaves_full t s HI).
Qed.

Lemma new_root_lists max_size l sk r :
  let R := Internal.SetKeyAt 1 sk
             (Internal.SetValueAt 1 r
                (Internal.SetValueAt 0 l
                   (Internal.SetSize 2 (Internal.Init max_size zero_internal)))) in
  Internal.children R = [l; r] ∧ Internal.separators R = [sk] ∧ internal_ok R = true.
Proof. intros R. split; [|split]; by vm_compute. Qed.

(** The root was split: a new root over the two halves. *)
Lemma split_post t key value h s ctx r :
  insert_ready t s → wf_tree t s h = true → root_of t s ≠ INVALID_PAGE_ID →
  insert_split t key value h s None None (root_of t s) ctx r → insert_post t key value h s r.
Proof.
  intros (HI & Hfails & Hcap) Hwf Hroot
         (s1 & sk & new_id & -> & Hready1 & Hframe & Hnew & _ & _ & HwfL & HwfR & _ & _ & Hins &
          HminL & HminI & lid & lp & Hfl & Hstep).
  pose proof (wf_tree_root t s h Hwf Hroot) as Hwfs.
  pose proof Hready1 as (HI1 & Hfails1 & _).
  pose proof (root_kept t h s s1 _ _ _ key HI Hwfs Hframe) as Hroot1.
  destruct (sizes_inv_header t s1 HI1) as (Hh1 & Hhp1 & _).
  set (root := root_of t s) in *.
  set (n' := next_page_id_ s1).
  unfold split_upward.
  rewrite (bind_Some _ _ _ _ _ (GetRootPageId_inv t s1 HI1)), Hroot1, Z.eqb_refl.
  rewrite (CreateNewRoot_cases t ctx s1 root sk new_id (root_of t s1) Hh1 Hhp1), Hfails1.
  cbn [tail]. fold n'.
  set (R := Internal.SetKeyAt 1 sk _).
  set (s2 := mkPool _ _ _).
  destruct (new_root_lists (internal_max_size_ t) root sk new_id) as (Rc & Rs & Rok).
  fold R in Rc, Rs, Rok.
  assert (HtL : tree_page s1 root) by apply (wf_subtree_page _ _ _ _ _ HwfL).
  assert (HtR : tree_page s1 new_id) by apply (wf_subtree_page _ _ _ _ _ HwfR).
  assert (HI2 : sizes_inv t s2)
    by (by apply (sizes_inv_new_root t s1 root sk new_id [] HI1 Hroot1 HtL HtR)).
  assert (Hsame : ∀ x, tree_page s1 x → pages_ s2 !! x = pages_ s1 !! x).
  { intros x Hx. destruct (sizes_inv_tree_page t s1 x HI1 Hx) as [Hlt Hne].
    simpl. rewrite !lookup_insert_ne; [done|unfold n'; lia|done]. }
  destruct (frame_subtree h s1 s2 root) as (FwL & FeL & _ & FlL).
  { intros x Hx. apply Hsame. by apply (subtree_pages_tree_page h s1 _ _ root x HwfL). }
  destruct (frame_subtree h s1 s2 new_id) as (FwR & FeR & _ & FlR).
  { intros x Hx. apply Hsame. by apply (subtree_pages_tree_page h s1 _ _ new_id x HwfR). }
  assert (Hp2 : pages_ s2 !! n' = Some (InternalPg R)).
  { simpl. rewrite lookup_insert_ne by (unfold n'; lia). apply lookup_insert_eq. }
  assert (Hhp2 : pages_ s2 !! header_page_id_ t = Some (HeaderPg n'))
    by (simpl; apply lookup_insert_eq).
  assert (Hroot2 : root_of t s2 = n') by (unfold root_of; by rewrite Hhp2).
  assert (Hn' : n' ≠ INVALID_PAGE_ID) by (unfold INVALID_PAGE_ID, n'; lia).
  exists s2, (S h). split; [done|]. split; [done|]. split.
  { apply (wf_tree_intro t s2 (S h) n'); [lia|done|].
    apply wf_subtree_kids. exists R. split; [done|]. split; [unfold n'; lia|].
    split; [done|]. rewrite Rc, Rs. split; [done|].
    unfold bounds. simpl. apply kids_in_cons. rewrite FwL. split; [done|].
    apply kids_in_single. by rewrite FwR. }
  split; [by rewrite Hroot2|]. split.
  { replace (root_of t s =? INVALID_PAGE_ID) with false by (symmetry; by apply Z.eqb_neq).
    by right. }
  split.
  - rewrite (tree_entries_root t s h HI Hroot), (tree_entries_root t s2 (S h) HI2)
      by (by rewrite Hroot2).
    rewrite Hroot2, (subtree_entries_kids h s2 n' R Hp2 Rok), Rc. simpl.
    by rewrite app_nil_r, FeL, FeR.
  - unfold chain_ok.
    rewrite (tree_leaves_root t s h HI Hroot), (tree_leaves_root t s2 (S h) HI2)
      by (by rewrite Hroot2).
    rewrite Hroot2, (subtree_leaves_kids h s2 n' R Hp2 Rok), Rc. simpl.
    rewrite app_nil_r, FlL, FlR. intros Hl.
    apply (linked_ext s1).
    + intros x _. unfold next_leaf. simpl.
      destruct (decide (x = header_page_id_ t)) as [->|Hx1].
      { by rewrite lookup_insert_eq, Hhp1. }
      rewrite lookup_insert_ne by done.
      destruct (decide (x = n')) as [->|Hx2].
      { rewrite lookup_insert_eq. unfold n'. by rewrite (sizes_inv_next_unused t s1 HI1). }
      by rewrite lookup_insert_ne.
    + apply (chain_kept t h s s1 None None root key lid lp); try done.
      apply (nonroot_leaves_full t s HI).
Qed.

(** [Insert_write] on a tree with a root. *)
Lemma Insert_write_nonempty t key value h fuel again s :
  insert_ready t s → wf_tree t s h = true → root_of t s ≠ INVALID_PAGE_ID →
  key ∉ (tree_entries t s h).*1 → (h < fuel)%nat →
  insert_post t key value h s (Insert_write fuel t again key value s).
Proof.
  intros Hready Hwf Hroot Hnin Hfuel. pose proof Hready as (HI & _).
  pose proof (wf_tree_root t s h Hwf Hroot) as Hwfs.
  rewrite (tree_entries_root t s h HI Hroot) in Hnin.
  unfold Insert_write.
  rewrite (bind_Some _ _ _ _ _ (GetRootPageId_inv t s HI)).
  cbv zeta. cbn [root_page_id_ ctx_with_root ctx_with_header].
  replace (root_of t s =? INVALID_PAGE_ID) with false by (symmetry; by apply Z.eqb_neq).
  rewrite (bind_Some _ _ _ _ _ (GetRootPageId_inv t s HI)).
  rewrite Z.eqb_refl. simpl negb. cbv iota.
  unfold bind at 1. unfold ret at 1.
  match goal with |- insert_post _ _ _ _ _ (Insert_write_from _ _ ?c _ _ _ _) => set (ctx := c) end.
  destruct (Insert_write_from_step t key value h fuel s None None (root_of t s) ctx Hready
              (nonroot_leaves_full t s HI) Hwfs eq_refl eq_refl Hnin (back_push_back _ _) Hfuel
              (λ x _ H, H))
    as [Hdone|Hsplit].
  - by apply (done_post t key value h s).
  - by apply (split_post t key value h s ctx).
Qed.

Lemma first_leaf_lists max_size key value :
  let p := Leaf.Insert key value (Leaf.Init max_size zero_leaf) in
  leaf_ok p = true ∧ Leaf.entries p = [(key, value)] ∧ l_next_page_id_ p = INVALID_PAGE_ID.
Proof.
  assert (Hok : leaf_ok (Leaf.Init max_size zero_leaf) = true) by (by vm_compute).
  destruct (Leaf_Insert_lists (Leaf.Init max_size zero_leaf) key value Hok) as (H1 & H2 & H3).
  - by vm_compute.
  - apply not_elem_of_nil.
  - intros p. split; [done|]. split; [|done]. unfold p. rewrite H2.
    assert (He : Leaf.entries (Leaf.Init max_size zero_leaf) = []) by (by vm_compute).
    by rewrite He, take_nil, drop_nil.
Qed.

(** [Insert_write] on the empty tree makes a leaf with the entry the root. *)
Lemma Insert_write_empty t key value h fuel again s :
  insert_ready t s → root_of t s = INVALID_PAGE_ID →
  insert_post t key value h s (Insert_write fuel t again key value s).
Proof.
  intros (HI & Hfails & Hcap) Eroot.
  destruct (sizes_inv_header t s HI) as (Hh & Hhp & _).
  pose proof (sizes_inv_next_unused t s HI) as Hunused.
  set (n := next_page_id_ s) in *.
  set (p := Leaf.Insert key value (Leaf.Init (leaf_max_size_ t) zero_leaf)).
  assert (Hcall : ∃ s', Insert_write fuel t again key value s = Some (true, s') ∧
                        pages_ s' !! n = Some (LeafPg p) ∧
                        pages_ s' !! header_page_id_ t = Some (HeaderPg n) ∧
                        new_page_fails_ s' = []).
  { unfold Insert_write.
    rewrite (bind_Some _ _ _ _ _ (GetRootPageId_inv t s HI)).
    cbv zeta. cbn [root_page_id_ ctx_with_root ctx_with_header].
    rewrite Eroot, Z.eqb_refl.
    rewrite (bind_Some _ _ _ _ _ (NewPage_ok s ltac:(by rewrite Hfails))). fold n.
    replace (n =? INVALID_PAGE_ID) with false
      by (symmetry; apply Z.eqb_neq; unfold INVALID_PAGE_ID; lia).
    erewrite bind_Some; [|apply leaf_write_raw; [lia|simpl; apply lookup_insert_eq]].
    erewrite bind_Some; [|apply leaf_write_leaf; [lia|simpl; apply lookup_insert_eq]].
    erewrite bind_Some;
      [|apply (set_root_header t _ (root_of t s));
        [lia|simpl; by rewrite !lookup_insert_ne by lia]].
    eexists. split; [reflexivity|]. simpl. rewrite Hfails.
    split; [|split; [apply lookup_insert_eq|done]].
    rewrite lookup_insert_ne by lia. apply lookup_insert_eq. }
  destruct Hcall as (s' & Hcall & Hp & Hhp' & Hfails').
  pose proof (Insert_write_inv t fuel s again key value true s' HI Hcall) as HI'.
  destruct (first_leaf_lists (leaf_max_size_ t) key value) as (Pok & Pe & Pn). fold p in Pok, Pe, Pn.
  assert (Hroot' : root_of t s' = n) by (unfold root_of; by rewrite Hhp').
  assert (Hn : n ≠ INVALID_PAGE_ID) by (unfold INVALID_PAGE_ID; lia).
  exists s', 0%nat. split; [done|]. split; [done|]. split.
  { apply (wf_tree_intro t s' 0 n); [lia|done|].
    apply (wf_leaf_intro s' None None n p); [done|lia|done|done]. }
  split; [by rewrite Hroot'|].
  split; [by rewrite Eroot, Z.eqb_refl|]. split.
  - rewrite (tree_entries_empty t s h Eroot), (tree_entries_root t s' 0 HI') by congruence.
    rewrite Hroot'. simpl. rewrite Hp, Pe. by exists [], [].
  - intros _. unfold chain_ok. rewrite (tree_leaves_root t s' 0 HI') by congruence.
    rewrite Hroot'. simpl. split; [|done]. unfold next_leaf. by rewrite Hp.
Qed.

(** The descent under read latches stores the entry in a leaf with room, or
    starts over with [Insert_write]. *)
Lemma Insert_from_step t key value again h : ∀ fuel s lo hi id,
  insert_ready t s → leaves_full s id → wf_subtree h s lo hi id = true →
  above lo key = true → below hi key = true →
  key ∉ (subtree_entries h s id).*1 → (h < fuel)%nat →
  insert_done t key value h s lo hi id (Insert_from fuel t again id key value s) ∨
  Insert_from fuel t again id key value s = Insert_write (fuel - h) t again key value s.
Proof.
  induction h as [|h IH]; intros fuel s lo hi id Hready Hleaves Hwf Hlo Hhi Hnin Hfuel.
  - destruct fuel as [|fuel]; [lia|].
    destruct (InsertIntoLeaf_step t key value s lo hi id (push_back id new_ctx) Hready Hwf
                Hlo Hhi Hnin (back_push_back _ _)) as (p & Hp & Hcase).
    destruct (wf_subtree_leaf _ _ _ _ Hwf) as (q & Hq & Hid & _).
    assert (q = p) as -> by congruence.
    cbn [Insert_from].
    rewrite (bind_Some _ _ _ _ _ (IsLeafPage_leaf s id p Hid Hp)).
    rewrite (bind_Some _ _ _ _ _ (page_size_leaf s id p Hid Hp)).
    rewrite (bind_Some _ _ _ _ _ (page_max_size_leaf s id p Hid Hp)).
    destruct (l_max_size_ p <=? l_size_ p) eqn:E.
    + right. by rewrite Nat.sub_0_r.
    + left. apply Z.leb_gt in E.
      by replace (l_size_ p <? l_max_size_ p) with true in Hcase
        by (symmetry; by apply Z.ltb_lt).
  - destruct fuel as [|fuel]; [lia|].
    pose proof Hready as (HI & Hfails & Hcap).
    destruct (wf_subtree_internal _ _ _ _ _ Hwf) as (p & Hp & Hid & Hok & Hseps & Hch).
    destruct (FindPage_spec p key Hok) as (c & Hc & Hfind & Hclo & Hchi).
    destruct (child_key_bounds lo hi p c key Hc Hclo Hchi Hlo Hhi) as [Hlo' Hhi'].
    assert (Hfull : ∀ y q, pages_ s !! y = Some (LeafPg q) → 1 ≤ l_size_ q).
    { intros y q Hq. apply (Hleaves y q Hq). intros ->. congruence. }
    cbn [Insert_from].
    rewrite (bind_Some _ _ _ _ _ (IsLeafPage_internal s id p Hid Hp)).
    rewrite (bind_Some _ _ _ _ _ (internal_read_internal _ s id p Hid Hp)).
    rewrite Hfind.
    assert (Hnin' : key ∉ (subtree_entries h s (Internal.ValueAt c p)).*1).
    { intros (e & He1 & He2)%list_elem_of_fmap. apply Hnin. apply list_elem_of_fmap.
      exists e. split; [done|]. by apply (child_entries_sub h s id p c). }
    destruct (IH fuel s (child_lo lo p c) (child_hi hi p c) (Internal.ValueAt c p) Hready
                (λ y q Hq _, Hfull y q Hq) (Hch c Hc) Hlo' Hhi' Hnin' ltac:(lia))
      as [Hdone|Heq].
    + left. by apply (lift_done t key value h s lo hi id p c).
    + right. rewrite Heq. by replace (S fuel - S h)%nat with (fuel - h)%nat by lia.
Qed.

(** [Insert] of a key the tree does not hold. *)
Lemma Insert_post t key value h calls fuel s :
  insert_ready t s → wf_tree t s h = true →
  key ∉ (tree_entries t s h).*1 → (0 < calls)%nat → (2 * h < fuel)%nat →
  insert_post t key value h s (Insert calls fuel t key value s).
Proof.
  intros Hready Hwf Hnin Hcalls Hfuel. pose proof Hready as (HI & _).
  destruct calls as [|calls]; [lia|]. cbn [Insert].
  rewrite (bind_Some _ _ _ _ _ (GetRootPageId_inv t s HI)).
  destruct (root_of t s =? INVALID_PAGE_ID) eqn:Eroot.
  - apply Z.eqb_eq in Eroot. by apply Insert_write_empty.
  - apply Z.eqb_neq in Eroot.
    pose proof (wf_tree_root t s h Hwf Eroot) as Hwfs.
    assert (Hnin' := Hnin). rewrite (tree_entries_root t s h HI Eroot) in Hnin'.
    destruct (Insert_from_step t key value (Insert calls fuel t key value) h fuel s None None
                (root_of t s) Hready (nonroot_leaves_full t s HI) Hwfs eq_refl eq_refl Hnin'
                ltac:(lia)) as [Hdone|Heq].
    + by apply (done_post t key value h s).
    + rewrite Heq. apply Insert_write_nonempty; try done. lia.
Qed.

End BTreeInsert.
(** ** The B+-tree: key order, the leaf chain and the index iterator *)

Module BTreeScan.
Import BPage BTree BTreeSpec BTreeFacts BTreeSizes PageBehaviour BTreeProps BTreeInsert BTreeIter.

#[local] Arguments kids_in : simpl never.

(** ** Entries in key order *)

Lemma ascending_app_intro l1 l2 :
  ascending l1 = true → ascending l2 = true →
  (∀ a b, a ∈ l1 → b ∈ l2 → a < b) → ascending (l1 ++ l2) = true.
Proof.
  intros H1 H2 Hx. apply ascending_intro. intros i a b Ha Hb.
  destruct (decide (S i < length l1)%nat) as [Hlt|Hge].
  - rewrite lookup_app_l in Ha, Hb by lia.
    apply (ascending_lookup l1 i (S i) a b H1 Ha Hb). lia.
  - destruct (decide (i < length l1)%nat) as [Hlt'|Hge'].
    + rewrite lookup_app_l in Ha by lia. rewrite lookup_app_r in Hb by lia.
      apply Hx; [by apply (list_elem_of_lookup_2 _ i)|by apply (list_elem_of_lookup_2 _ _ _ Hb)].
    + rewrite lookup_app_r in Ha, Hb by lia.
      apply (ascending_lookup l2 _ _ a b H2 Ha Hb). lia.
Qed.

Lemma ascending_concat (ls : list (list Z)) :
  (∀ l, l ∈ ls → ascending l = true) →
  (∀ i j li lj a b, ls !! i = Some li → ls !! j = Some lj → (i < j)%nat →
                    a ∈ li → b ∈ lj → a < b) →
  ascending (concat ls) = true.
Proof.
  induction ls as [|l ls IH]; intros Hasc Hx; [done|]. simpl.
  apply ascending_app_intro.
  - apply Hasc. by left.
  - apply IH.
    + intros l' Hl'. apply Hasc. by right.
    + intros i j li lj a b Hi Hj Hij. apply (Hx (S i) (S j)); [done|done|lia].
  - intros a b Ha (l' & Hl' & Hb)%elem_of_concat.
    apply list_elem_of_lookup in Hl' as [j Hj].
    apply (Hx 0%nat (S j) l l' a b); [done|done|lia|done|done].
Qed.

Lemma fmap_concat {A B} (f : A → B) (ls : list (list A)) :
  f <$> concat ls = concat ((λ l : list A, f <$> l) <$> ls).
Proof. induction ls as [|l ls IH]; [done|]. simpl. by rewrite fmap_app, IH. Qed.

Lemma concat_fmap_concat {A B} (f : A → list B) (ls : list (list A)) :
  concat (f <$> concat ls) = concat ((λ l, concat (f <$> l)) <$> ls).
Proof. induction ls as [|l ls IH]; [done|]. simpl. by rewrite fmap_app, concat_app, IH. Qed.

(** The keys of a search tree ascend from left to right. *)
Lemma subtree_keys_ascending h : ∀ s lo hi id,
  wf_subtree h s lo hi id = true → ascending (subtree_entries h s id).*1 = true.
Proof.
  induction h as [|h IH]; intros s lo hi id Hwf.
  - destruct (wf_subtree_leaf _ _ _ _ Hwf) as (p & Hp & Hid & Hok & _).
    simpl. rewrite Hp. rewrite <- leaf_keys_entries by done.
    by destruct (leaf_ok_inv p Hok) as (_ & _ & _ & ?).
  - destruct (wf_subtree_internal _ _ _ _ _ Hwf) as (p & Hp & Hid & Hok & Hseps & Hch).
    destruct (internal_ok_inv p Hok) as (Hsz & _).
    pose proof (internal_ok_sorted p Hok) as Hs.
    simpl. rewrite Hp, fmap_concat, <- list_fmap_compose. apply ascending_concat.
    + intros l (i & -> & Hi%elem_of_seqZ)%list_elem_of_fmap. simpl.
      assert (Hi' : 0 ≤ i < i_size_ p) by lia.
      apply (IH s _ _ _ (Hch i Hi')).
    + intros i j li lj a b Hi Hj Hij Ha Hb.
      rewrite list_lookup_fmap in Hi, Hj.
      destruct (seqZ 0 (i_size_ p) !! i) as [zi|] eqn:Ei; [|done].
      destruct (seqZ 0 (i_size_ p) !! j) as [zj|] eqn:Ej; [|done].
      apply lookup_seqZ in Ei as [-> Ei]. apply lookup_seqZ in Ej as [-> Ej].
      simpl in Hi, Hj. injection Hi as <-. injection Hj as <-.
      assert (Hi' : 0 ≤ 0 + Z.of_nat i < i_size_ p) by lia.
      assert (Hj' : 0 ≤ 0 + Z.of_nat j < i_size_ p) by lia.
      destruct (subtree_keys_bounded h s _ _ _ a (Hch _ Hi') Ha) as [_ Ha2].
      destruct (subtree_keys_bounded h s _ _ _ b (Hch _ Hj') Hb) as [Hb1 _].
      unfold child_hi in Ha2. unfold child_lo in Hb1.
      replace (0 + Z.of_nat i =? i_size_ p - 1) with false in Ha2
        by (symmetry; apply Z.eqb_neq; lia).
      replace (0 + Z.of_nat j =? 0) with false in Hb1 by (symmetry; apply Z.eqb_neq; lia).
      simpl in Ha2, Hb1. apply Z.ltb_lt in Ha2. apply Z.leb_le in Hb1.
      destruct (decide (0 + Z.of_nat i + 1 = 0 + Z.of_nat j)) as [E|E]; [rewrite E in Ha2; lia|].
      pose proof (Hs (0 + Z.of_nat i + 1) (0 + Z.of_nat j) ltac:(lia) ltac:(lia)). lia.
Qed.

(** The entries of a search tree are those of its leaves, left to right. *)
Lemma subtree_entries_leaves h : ∀ s lo hi id,
  wf_subtree h s lo hi id = true →
  subtree_entries h s id = concat (subtree_entries 0 s <$> subtree_leaves h s id).
Proof.
  induction h as [|h IH]; intros s lo hi id Hwf.
  - simpl. by rewrite app_nil_r.
  - destruct (wf_subtree_internal _ _ _ _ _ Hwf) as (p & Hp & Hid & Hok & Hseps & Hch).
    change (subtree_entries (S h) s id) with
      (match pages_ s !! id with
       | Some (InternalPg p) =>
           concat ((λ i, subtree_entries h s (Internal.ValueAt i p)) <$> seqZ 0 (i_size_ p))
       | _ => []
       end).
    change (subtree_leaves (S h) s id) with
      (match pages_ s !! id with
       | Some (InternalPg p) =>
           concat ((λ i, subtree_leaves h s (Internal.ValueAt i p)) <$> seqZ 0 (i_size_ p))
       | _ => []
       end).
    rewrite Hp, concat_fmap_concat, <- list_fmap_compose. f_equal.
    apply fmap_ext_elem. intros i Hi%elem_of_seqZ. simpl.
    assert (Hi' : 0 ≤ i < i_size_ p) by lia.
    apply (IH s _ _ _ (Hch i Hi')).
Qed.

(** ** The iterator along the chain of the leaves *)

Lemma IsEnd_page x : 0 ≤ x → IsEnd (mkIter x 0) = false ∧ ∀ i, IsEnd (mkIter x i) = false.
Proof.
  intros Hx. unfold IsEnd. simpl.
  assert ((x =? INVALID_PAGE_ID) = false) as -> by (apply Z.eqb_neq; unfold INVALID_PAGE_ID; lia).
  done.
Qed.

Lemma deref_at s l p i :
  0 ≤ l → pages_ s !! l = Some (LeafPg p) → 0 ≤ i < l_size_ p →
  deref (mkIter l i) s = Some ((Leaf.KeyAt i p, Leaf.ValueAt i p), s).
Proof.
  intros Hl Hp Hi. unfold deref. rewrite (proj2 (IsEnd_page l Hl) i). simpl.
  rewrite (bind_Some _ _ _ _ _ (leaf_read_leaf _ s l p Hl Hp)). unfold Leaf.GetSize.
  replace ((0 <=? i) && (i <? l_size_ p)) with true
    by (symmetry; apply andb_true_iff; split; [apply Z.leb_le|apply Z.ltb_lt]; lia).
  rewrite (bind_Some _ _ _ _ _ (leaf_read_leaf _ s l p Hl Hp)).
  by rewrite (bind_Some _ _ _ _ _ (leaf_read_leaf _ s l p Hl Hp)).
Qed.

(** An iterator whose index is not a used slot of its leaf cannot be
    dereferenced. *)
Lemma deref_outside s l p i :
  0 ≤ l → pages_ s !! l = Some (LeafPg p) → ¬ 0 ≤ i < l_size_ p →
  deref (mkIter l i) s = None.
Proof.
  intros Hl Hp Hi. unfold deref. rewrite (proj2 (IsEnd_page l Hl) i). simpl.
  rewrite (bind_Some _ _ _ _ _ (leaf_read_leaf _ s l p Hl Hp)). unfold Leaf.GetSize.
  replace ((0 <=? i) && (i <? l_size_ p)) with false; [done|].
  symmetry. apply andb_false_iff.
  destruct (decide (0 ≤ i)); [right; apply Z.ltb_ge; lia|left; apply Z.leb_gt; lia].
Qed.

Lemma incr_at s l p i :
  0 ≤ l → pages_ s !! l = Some (LeafPg p) →
  incr (mkIter l i) s =
    Some (if l_size_ p <=? i + 1
          then if l_next_page_id_ p =? INVALID_PAGE_ID then End
               else mkIter (l_next_page_id_ p) 0
          else mkIter l (i + 1), s) ∨
  (l_size_ p ≤ i + 1 ∧ l_next_page_id_ p < 0 ∧ l_next_page_id_ p ≠ INVALID_PAGE_ID).
Proof.
  intros Hl Hp. unfold incr. rewrite (proj2 (IsEnd_page l Hl) i). simpl.
  rewrite (bind_Some _ _ _ _ _ (leaf_read_leaf _ s l p Hl Hp)).
  unfold Leaf.GetSize. destruct (l_size_ p <=? i + 1) eqn:E; [|by left].
  rewrite (bind_Some _ _ _ _ _ (leaf_read_leaf _ s l p Hl Hp)). unfold Leaf.GetNextPageId.
  destruct (l_next_page_id_ p =? INVALID_PAGE_ID) eqn:En; simpl; [by left|].
  destruct (decide (l_next_page_id_ p < 0)) as [Hneg|Hpos].
  - right. apply Z.leb_le in E. apply Z.eqb_neq in En. done.
  - left. unfold fetch.
    replace (l_next_page_id_ p <? 0) with false by (symmetry; apply Z.ltb_ge; lia).
    done.
Qed.

Lemma drop_lookup_cons {A} (l : list A) i x : l !! i = Some x → drop i l = x :: drop (S i) l.
Proof.
  revert i. induction l as [|a l IH]; intros [|i] H; try done.
  - by injection H as ->.
  - simpl. by apply IH.
Qed.

(** The scan from slot [i] of leaf [l], with the leaves [rest] after it in
    the chain: it takes the record ids from there on, in order, until the
    batch is full, and ends at [End] if it takes them all. *)
Lemma scan_chain s batch_size : ∀ fuel l rest i acc p,
  linked s (l :: rest) INVALID_PAGE_ID →
  (∀ x, x ∈ l :: rest →
        0 ≤ x ∧ ∃ q, pages_ s !! x = Some (LeafPg q) ∧ leaf_ok q = true ∧ 1 ≤ l_size_ q) →
  pages_ s !! l = Some (LeafPg p) → 0 ≤ i < l_size_ p →
  let R := drop (Z.to_nat i) (subtree_entries 0 s l).*2 ++
           concat ((λ x, (subtree_entries 0 s x).*2) <$> rest) in
  (length R < fuel)%nat →
  ∃ it', scan fuel batch_size (mkIter l i) acc s =
           Some ((acc ++ take (Z.to_nat (batch_size - Z.of_nat (length acc))) R, it'), s) ∧
         (Z.of_nat (length acc + length R) ≤ batch_size → it' = End).
Proof.
  induction fuel as [|fuel IH]; intros l rest i acc p Hl Hleaves Hp Hi R Hfuel; [lia|].
  destruct (Hleaves l ltac:(by left)) as (Hl0 & q & Hq & Hok & Hne).
  assert (q = p) as -> by congruence.
  destruct (leaf_ok_inv p Hok) as (Hsz & Hk & Hr & _).
  assert (He : subtree_entries 0 s l = Leaf.entries p) by (simpl; by rewrite Hp).
  assert (Hvi : (Leaf.entries p).*2 !! Z.to_nat i = Some (Leaf.ValueAt i p)).
  { rewrite list_lookup_fmap, entries_lookup by lia. done. }
  assert (Hlen : length (Leaf.entries p).*2 = Z.to_nat (l_size_ p)).
  { rewrite length_fmap. apply length_entries; lia. }
  set (R' := drop (S (Z.to_nat i)) (Leaf.entries p).*2 ++
             concat ((λ x, (subtree_entries 0 s x).*2) <$> rest)).
  assert (HR : R = Leaf.ValueAt i p :: R').
  { unfold R, R'. rewrite He. by rewrite (drop_lookup_cons _ _ _ Hvi). }
  cbn [scan]. rewrite (proj2 (IsEnd_page l Hl0) i). cbn [negb andb].
  destruct (Z.of_nat (length acc) <? batch_size) eqn:Eb.
  2: { apply Z.ltb_ge in Eb. exists (mkIter l i). split.
       - unfold ret. replace (Z.to_nat (batch_size - Z.of_nat (length acc))) with 0%nat by lia.
         by rewrite take_0, app_nil_r.
       - rewrite HR. simpl. lia. }
  apply Z.ltb_lt in Eb.
  rewrite (bind_Some _ _ _ _ _ (deref_at s l p i Hl0 Hp Hi)). simpl snd.
  assert (Htake : ∀ X, acc ++ take (Z.to_nat (batch_size - Z.of_nat (length acc)))
                                   (Leaf.ValueAt i p :: X) =
                       (acc ++ [Leaf.ValueAt i p]) ++
                       take (Z.to_nat (batch_size - Z.of_nat (length (acc ++ [Leaf.ValueAt i p])))) X).
  { intros X. rewrite length_app. simpl.
    replace (Z.to_nat (batch_size - Z.of_nat (length acc)))
      with (S (Z.to_nat (batch_size - Z.of_nat (length acc + 1)))) by lia.
    simpl. by rewrite <- app_assoc. }
  simpl in Hl. destruct Hl as [Hnext Hrest]. unfold next_leaf in Hnext. rewrite Hp in Hnext.
  destruct (incr_at s l p i Hl0 Hp) as [Hincr|(Hlast & Hneg & Hinv)].
  2: { exfalso. destruct rest as [|l' rest']; simpl in Hnext; [done|].
       destruct (Hleaves l' ltac:(right; by left)) as (Hl'0 & _). lia. }
  rewrite (bind_Some _ _ _ _ _ Hincr). rewrite HR in Hfuel |- *.
  cbn [length] in Hfuel |- *. clearbody R.
  destruct (l_size_ p <=? i + 1) eqn:Elast.
  - apply Z.leb_le in Elast.
    assert (Hdrop : drop (S (Z.to_nat i)) (Leaf.entries p).*2 = []).
    { apply drop_ge. lia. }
    destruct rest as [|l' rest']; simpl in Hnext.
    + assert (HR' : R' = []) by (unfold R'; by rewrite Hdrop).
      rewrite Hnext, Z.eqb_refl, HR'.
      exists End. split; [|done].
      destruct fuel as [|fuel]; [rewrite HR' in Hfuel; simpl in Hfuel; lia|].
      cbn [scan]. replace (IsEnd End) with true by done. cbn [negb andb].
      unfold ret. by rewrite Htake, take_nil, app_nil_r.
    + destruct (Hleaves l' ltac:(right; by left)) as (Hl'0 & q' & Hq' & Hok' & Hne').
      assert (HR' : R' = drop (Z.to_nat 0) (subtree_entries 0 s l').*2 ++
                         concat ((λ x, (subtree_entries 0 s x).*2) <$> rest')).
      { unfold R'. rewrite Hdrop. done. }
      rewrite Hnext.
      replace (l' =? INVALID_PAGE_ID) with false
        by (symmetry; apply Z.eqb_neq; unfold INVALID_PAGE_ID; lia).
      destruct (IH l' rest' 0 (acc ++ [Leaf.ValueAt i p]) q' Hrest) as (it' & Hscan & Hend).
      * intros x Hx. apply Hleaves. by right.
      * done.
      * lia.
      * rewrite <- HR'. lia.
      * exists it'. split.
        -- rewrite Hscan, Htake, HR'. done.
        -- intros Hb. apply Hend. rewrite length_app, <- HR'. simpl. lia.
  - apply Z.leb_gt in Elast.
    assert (HR' : R' = drop (Z.to_nat (i + 1)) (subtree_entries 0 s l).*2 ++
                       concat ((λ x, (subtree_entries 0 s x).*2) <$> rest)).
    { unfold R'. rewrite He. by replace (Z.to_nat (i + 1)) with (S (Z.to_nat i)) by lia. }
    destruct (IH l rest (i + 1) (acc ++ [Leaf.ValueAt i p]) p) as (it' & Hscan & Hend).
    + simpl. unfold next_leaf. rewrite Hp. done.
    + done.
    + done.
    + lia.
    + rewrite <- HR'. lia.
    + exists it'. split.
      * rewrite Hscan, Htake, HR'. done.
      * intros Hb. apply Hend. rewrite length_app, <- HR'. simpl. lia.
Qed.

(** ** [Begin], [Begin(key)] and the scan of the whole tree *)

Lemma Begin_from_spec h : ∀ s lo hi id fuel,
  wf_subtree h s lo hi id = true → (h < fuel)%nat →
  ∃ l rest, subtree_leaves h s id = l :: rest ∧ Begin_from fuel id s = Some (mkIter l 0, s).
Proof.
  induction h as [|h IH]; intros s lo hi id fuel Hwf Hfuel.
  - destruct fuel as [|fuel]; [lia|].
    destruct (wf_subtree_leaf _ _ _ _ Hwf) as (p & Hp & Hid & _).
    exists id, []. split; [done|]. cbn [Begin_from].
    by rewrite (bind_Some _ _ _ _ _ (IsLeafPage_leaf s id p Hid Hp)).
  - destruct fuel as [|fuel]; [lia|].
    destruct (wf_subtree_internal _ _ _ _ _ Hwf) as (p & Hp & Hid & Hok & _ & Hch).
    destruct (internal_ok_inv p Hok) as (Hsz & _).
    assert (H0 : 0 ≤ 0 < i_size_ p) by lia.
    destruct (IH s _ _ _ fuel (Hch 0 H0) ltac:(lia)) as (l & rest & Hl & Hb).
    exists l, (rest ++ concat ((λ i, subtree_leaves h s (Internal.ValueAt i p)) <$>
                               seqZ 1 (i_size_ p - 1))).
    split.
    + simpl. rewrite Hp. rewrite (seqZ_cons 0 (i_size_ p)) by lia. simpl.
      replace (Z.succ 0) with 1 by lia. replace (Z.pred (i_size_ p)) with (i_size_ p - 1) by lia.
      by rewrite Hl.
    + cbn [Begin_from].
      rewrite (bind_Some _ _ _ _ _ (IsLeafPage_internal s id p Hid Hp)).
      by rewrite (bind_Some _ _ _ _ _ (internal_read_internal _ s id p Hid Hp)).
Qed.

Lemma IsEmpty_spec t s :
  sizes_inv t s → IsEmpty t s = Some (root_of t s =? INVALID_PAGE_ID, s).
Proof. intros HI. unfold IsEmpty. by rewrite (bind_Some _ _ _ _ _ (GetRootPageId_inv t s HI)). Qed.

Lemma Begin_spec t s h fuel :
  sizes_inv t s → wf_tree t s h = true → root_of t s ≠ INVALID_PAGE_ID → (h < fuel)%nat →
  ∃ l rest, tree_leaves t s h = l :: rest ∧ Begin fuel t s = Some (mkIter l 0, s).
Proof.
  intros HI Hwf Hroot Hfuel.
  destruct (Begin_from_spec h s None None (root_of t s) fuel (wf_tree_root t s h Hwf Hroot) Hfuel)
    as (l & rest & Hl & Hb).
  exists l, rest. rewrite (tree_leaves_root t s h HI Hroot). split; [done|].
  unfold Begin. rewrite (bind_Some _ _ _ _ _ (IsEmpty_spec t s HI)).
  replace (root_of t s =? INVALID_PAGE_ID) with false by (symmetry; by apply Z.eqb_neq).
  by rewrite (bind_Some _ _ _ _ _ (GetRootPageId_inv t s HI)).
Qed.

Lemma Begin_empty t s fuel :
  sizes_inv t s → root_of t s = INVALID_PAGE_ID → Begin fuel t s = Some (End, s).
Proof.
  intros HI Eroot. unfold Begin.
  by rewrite (bind_Some _ _ _ _ _ (IsEmpty_spec t s HI)), Eroot, Z.eqb_refl.
Qed.

Lemma Begin_key_from_spec h : ∀ s lo hi id key fuel lid p,
  wf_subtree h s lo hi id = true → (h < fuel)%nat →
  find_leaf h s id key = Some (lid, p) →
  Begin_key_from fuel key id s = Some (mkIter lid (Leaf.FindFirstGreaterOrEqual key p), s).
Proof.
  induction h as [|h IH]; intros s lo hi id key fuel lid p Hwf Hfuel Hfl.
  - destruct fuel as [|fuel]; [lia|].
    destruct (wf_subtree_leaf _ _ _ _ Hwf) as (q & Hq & Hid & _).
    simpl in Hfl. rewrite Hq in Hfl. injection Hfl as <- <-. cbn [Begin_key_from].
    rewrite (bind_Some _ _ _ _ _ (IsLeafPage_leaf s id q Hid Hq)).
    by rewrite (bind_Some _ _ _ _ _ (leaf_read_leaf _ s id q Hid Hq)).
  - destruct fuel as [|fuel]; [lia|].
    destruct (wf_subtree_internal _ _ _ _ _ Hwf) as (q & Hq & Hid & Hok & _ & Hch).
    rewrite (find_leaf_internal h s id q key Hq) in Hfl.
    destruct (FindPage_spec q key Hok) as (c & Hc & Hfind & _).
    cbn [Begin_key_from].
    rewrite (bind_Some _ _ _ _ _ (IsLeafPage_internal s id q Hid Hq)).
    rewrite (bind_Some _ _ _ _ _ (internal_read_internal _ s id q Hid Hq)).
    rewrite Hfind in *. apply (IH s _ _ _ key fuel lid p (Hch c Hc)); [lia|done].
Qed.

Lemma subtree_leaves_ok h : ∀ s lo hi id x,
  wf_subtree h s lo hi id = true → x ∈ subtree_leaves h s id →
  0 ≤ x ∧ ∃ q, pages_ s !! x = Some (LeafPg q) ∧ leaf_ok q = true.
Proof.
  induction h as [|h IH]; intros s lo hi id x Hwf Hx.
  - simpl in Hx. apply list_elem_of_singleton in Hx as ->.
    destruct (wf_subtree_leaf _ _ _ _ Hwf) as (p & Hp & Hid & Hok & _).
    split; [done|by exists p].
  - destruct (wf_subtree_internal _ _ _ _ _ Hwf) as (p & Hp & Hid & Hok & Hseps & Hch).
    simpl in Hx. rewrite Hp in Hx. apply elem_of_concat in Hx as (l & Hl & Hx).
    apply list_elem_of_fmap in Hl as (i & -> & Hi%elem_of_seqZ).
    assert (Hi' : 0 ≤ i < i_size_ p) by lia.
    apply (IH s _ _ _ x (Hch i Hi') Hx).
Qed.

(** The leaves of a tree that holds an entry hold at least one entry each. *)
Lemma tree_leaves_full t s h x q :
  sizes_inv t s → wf_tree t s h = true → tree_entries t s h ≠ [] →
  x ∈ tree_leaves t s h → pages_ s !! x = Some (LeafPg q) → 1 ≤ l_size_ q.
Proof.
  intros HI Hwf Hne Hx Hq.
  assert (Hroot : root_of t s ≠ INVALID_PAGE_ID).
  { intros E. by rewrite (tree_entries_empty t s h E) in Hne. }
  destruct (decide (x = root_of t s)) as [->|Hxr].
  - pose proof (wf_tree_root t s h Hwf Hroot) as Hwfs.
    destruct h as [|h].
    + destruct (wf_subtree_leaf _ _ _ _ Hwfs) as (p & Hp & Hid & Hok & _).
      assert (p = q) as -> by congruence.
      destruct (leaf_ok_inv q Hok) as (Hsz & Hk & Hr & _).
      rewrite (tree_entries_root t s 0 HI Hroot) in Hne. simpl in Hne. rewrite Hq in Hne.
      destruct (decide (l_size_ q = 0)) as [E|E]; [|lia].
      exfalso. apply Hne. apply length_zero_iff_nil. rewrite length_entries; lia.
    + destruct (wf_subtree_internal _ _ _ _ _ Hwfs) as (p & Hp & _). congruence.
  - by apply (nonroot_leaves_full t s HI x q).
Qed.

(** The scan of the whole tree from [Begin()]. *)
Lemma scan_tree t s h fuel_b fuel batch_size :
  sizes_inv t s → wf_tree t s h = true → chain_ok t s h →
  (root_of t s ≠ INVALID_PAGE_ID → tree_entries t s h ≠ []) →
  (h < fuel_b)%nat → (length (tree_entries t s h) < fuel)%nat →
  ∃ it', (do it <- Begin fuel_b t; scan fuel batch_size it []) s =
           Some ((take (Z.to_nat batch_size) (tree_entries t s h).*2, it'), s) ∧
         (Z.of_nat (length (tree_entries t s h)) ≤ batch_size → it' = End).
Proof.
  intros HI Hwf Hchain Hne Hfb Hfuel.
  destruct (decide (root_of t s = INVALID_PAGE_ID)) as [Eroot|Hroot].
  - rewrite (tree_entries_empty t s h Eroot). exists End. split; [|done].
    rewrite (bind_Some _ _ _ _ _ (Begin_empty t s fuel_b HI Eroot)).
    destruct fuel as [|fuel]; [lia|]. cbn [scan].
    replace (IsEnd End) with true by done. cbn [negb andb]. unfold ret.
    simpl. by rewrite take_nil.
  - specialize (Hne Hroot).
    destruct (Begin_spec t s h fuel_b HI Hwf Hroot Hfb) as (l & rest & Hl & Hb).
    rewrite (bind_Some _ _ _ _ _ Hb).
    pose proof (wf_tree_root t s h Hwf Hroot) as Hwfs.
    assert (Hleaves : ∀ x, x ∈ l :: rest →
              0 ≤ x ∧ ∃ q, pages_ s !! x = Some (LeafPg q) ∧ leaf_ok q = true ∧ 1 ≤ l_size_ q).
    { intros x Hx. rewrite <- Hl in Hx.
      assert (Hx' := Hx). rewrite (tree_leaves_root t s h HI Hroot) in Hx'.
      destruct (subtree_leaves_ok h s None None _ x Hwfs Hx') as (Hx0 & q & Hq & Hok).
      split; [done|]. exists q. split; [done|]. split; [done|].
      by apply (tree_leaves_full t s h x q). }
    destruct (Hleaves l ltac:(by left)) as (Hl0 & p & Hp & Hok & Hsize).
    assert (HE : (tree_entries t s h).*2 =
                 drop (Z.to_nat 0) (subtree_entries 0 s l).*2 ++
                 concat ((λ x, (subtree_entries 0 s x).*2) <$> rest)).
    { rewrite (tree_entries_root t s h HI Hroot),
              (subtree_entries_leaves h s None None _ Hwfs),
              <- (tree_leaves_root t s h HI Hroot), Hl.
      by rewrite fmap_concat, <- list_fmap_compose. }
    unfold chain_ok in Hchain. rewrite Hl in Hchain.
    destruct (scan_chain s batch_size fuel l rest 0 [] p Hchain Hleaves Hp ltac:(lia))
      as (it' & Hscan & Hend).
    { rewrite <- HE, length_fmap. done. }
    exists it'. split.
    + rewrite Hscan, <- HE. cbn [length app Z.of_nat].
      by rewrite Z.sub_0_r.
    + intros Hb'. apply Hend. rewrite <- HE, length_fmap. simpl. lia.
Qed.

(** [GetValue] finds the value an entry of the tree pairs with the key. *)
Lemma GetValue_entries t s h key fuel :
  wf_tree t s h = true → (h < fuel)%nat →
  ∃ r, GetValue fuel t key s = Some (r, s) ∧
       ∀ v, r = Some v ↔ (key, v) ∈ tree_entries t s h.
Proof.
  intros Hwf Hfuel.
  destruct (wf_tree_inv t s h Hwf) as (Hh & root & Hhp & Hroot).
  pose proof (GetRootPageId_header t s root Hh Hhp) as Hget.
  unfold tree_entries, GetValue. rewrite Hhp, (bind_Some _ _ _ _ _ Hget).
  destruct Hroot as [->|[Hroot Hsub]].
  - rewrite Z.eqb_refl. exists None. split; [done|]. intros v. split; [done|].
    by intros ?%elem_of_nil.
  - replace (root =? INVALID_PAGE_ID) with false
      by (symmetry; apply Z.eqb_neq; unfold INVALID_PAGE_ID; lia).
    destruct (find_leaf_spec h s None None root key Hsub eq_refl eq_refl)
      as (lid & p & Hfl & Hlid & Hp & Hok & Hent).
    rewrite (GetValue_from_spec h s None None root key fuel lid p Hsub Hfuel Hfl).
    eexists. split; [reflexivity|].
    destruct (leaf_get_spec p key Hok) as [Hsome _]. cbv zeta in Hsome.
    intros v. rewrite Hsome. symmetry. by apply Hent.
Qed.

End BTreeScan.
(** ** The B+-tree: insertion, lookup and the ordered scan *)

Module TreeBehaviour.
Import BPage BTree BTreeSpec BTreeFacts BTreeSizes PageBehaviour BTreeProps BTreeInsert BTreeIter BTreeScan.

(** *** The sample pools *)

Lemma insert_all_inv t keys : ∀ s s',
  sizes_inv t s → insert_all t keys s = Some s' → sizes_inv t s'.
Proof.
  unfold insert_all.
  assert (Hnone : ∀ ks, foldl (λ acc k,
                           match acc with
                           | Some s => match Insert 2 8 t k (100 + k) s with
                                       | Some (true, s') => Some s'
                                       | _ => None
                                       end
                           | None => None
                           end) None ks = None).
  { induction ks as [|k ks IH]; [done|]. cbn [foldl]. apply IH. }
  induction keys as [|k keys IH]; intros s s' HI H; cbn [foldl] in H.
  - by injection H as <-.
  - destruct (Insert 2 8 t k (100 + k) s) as [[[] s1]|] eqn:E;
      try (rewrite Hnone in H; discriminate).
    apply (IH s1 s'); [|done]. by apply (Insert_inv t 2 8 s k (100 + k) true s1).
Qed.

Lemma fresh_pool_inv : sizes_inv sample_tree fresh_pool.
Proof.
  destruct (new_tree_sizes_inv sample_tree fresh_pool) as (s0 & Hs0 & HI0 & _).
  { unfold caps_ok. vm_compute. repeat split; discriminate. }
  { vm_compute. reflexivity. }
  assert (E : Some (tt, s0) = Some (tt, fresh_pool)) by (rewrite <- Hs0; vm_compute; reflexivity).
  by injection E as <-.
Qed.

Lemma full_leaf_pool_inv : sizes_inv sample_tree full_leaf_pool.
Proof.
  apply (insert_all_inv sample_tree [1; 2; 3; 4] fresh_pool); [apply fresh_pool_inv|].
  vm_compute. reflexivity.
Qed.

Lemma sample_pool_inv : sizes_inv sample_tree sample_pool.
Proof.
  apply (insert_all_inv sample_tree [1; 2; 3; 4; 5] fresh_pool); [apply fresh_pool_inv|].
  vm_compute. reflexivity.
Qed.

Lemma gap_pool_inv : sizes_inv sample_tree gap_pool.
Proof.
  apply (insert_all_inv sample_tree [10; 20; 30; 50; 40] fresh_pool); [apply fresh_pool_inv|].
  vm_compute. reflexivity.
Qed.

(** *** Insertion *)







(** *** The iterator *)

(** X18: on a search tree within the size bounds whose leaves form a chain,
    and which holds an entry unless it has no root, the loop of the ordered
    index scan started at [Begin()] collects the record ids of the entries
    from left to right, that is in ascending key order, up to the batch
    size; it leaves the iterator at [End] if the batch takes them all; and
    it changes no page. *)
Theorem scan_collects_entries t s h fuel_b fuel batch_size :
  sizes_inv t s → wf_tree t s h = true → chain_ok t s h →
  (root_of t s ≠ INVALID_PAGE_ID → tree_entries t s h ≠ []) →
  (h < fuel_b)%nat → (length (tree_entries t s h) < fuel)%nat →
  ∃ it', (do it <- Begin fuel_b t; scan fuel batch_size it []) s =
           Some ((take (Z.to_nat batch_size) (tree_entries t s h).*2, it'), s) ∧
         (Z.of_nat (length (tree_entries t s h)) ≤ batch_size → it' = End) ∧
         ascending (tree_entries t s h).*1 = true.
Proof.
  intros HI Hwf Hchain Hne Hfb Hfuel.
  destruct (scan_tree t s h fuel_b fuel batch_size HI Hwf Hchain Hne Hfb Hfuel)
    as (it' & Hscan & Hend).
  exists it'. split; [done|]. split; [done|].
  destruct (decide (root_of t s = INVALID_PAGE_ID)) as [E|E].
  - by rewrite (tree_entries_empty t s h E).
  - rewrite (tree_entries_root t s h HI E).
    apply (subtree_keys_ascending h s None None). by apply wf_tree_root.
Qed.

(** The statement above for the sample tree with the keys 1 .. 5 in two
    leaves and a batch of two. *)
Lemma scan_collects_entries_witness :
  ∃ it', (do it <- Begin 2 sample_tree; scan 6 2 it []) sample_pool =
           Some ((take (Z.to_nat 2) (tree_entries sample_tree sample_pool 1).*2, it'),
                 sample_pool) ∧
         (Z.of_nat (length (tree_entries sample_tree sample_pool 1)) ≤ 2 → it' = End) ∧
         ascending (tree_entries sample_tree sample_pool 1).*1 = true.
Proof.
  apply (scan_collects_entries sample_tree sample_pool 1 2 6 2).
  - apply sample_pool_inv.
  - vm_compute. reflexivity.
  - vm_compute. done.
  - intros _. vm_compute. discriminate.
  - lia.
  - vm_compute. lia.
Defined.




Lemma gap_leaf_keys : (Leaf.entries gap_leaf).*1 = [10; 20; 30].
Proof. vm_compute. reflexivity. Qed.


End TreeBehaviour.
